(* ===== verification/_CoqProject ===== *)
-Q . S2P
Prelude.v
Strconv.v
GoStrings.v
NetIP.v
NetIPText.v
TimeText.v
JSON.v
UTF8.v
JSONText.v
JSONValues.v
Attribute.v
FloatText.v
Request.v
Decision.v
Snapshot.v
Engine.v
Publication.v
Instrumentation.v
Digest.v
HTTP.v
JSONRPC.v
DecisionService.v
Authn.v
Matching.v
ACL.v
RoleGraph.v
RBAC.v
RBACManager.v
GoMemory.v
ServiceMemory.v
ManagerMemory.v
Conditions.v
ABAC.v
Documents.v
ABACDocument.v
Manifest.v
PolicyDiff.v
Synchronizer.v
Cache.v
Store.v
Authority.v
AuthorityLocks.v
Valkey.v
Distribution.v
Telemetry.v
Conformance.v
TenantDocuments.v
DocumentJSON.v
ABACDocumentJSON.v
ManifestJSON.v
PolicyBundle.v
Enforcement.v
DecisionJSON.v
