(* ===== verification/Prelude.v ===== *)
(** * Verification of the go-authorization library

    ** The program

    go-authorization answers authorization requests. A request names a
    subject, an action, a resource, a tenant and attributes (request.go,
    attribute.go). Policy models (acl/, rbac/, abac/) are evaluators: given a
    context and a request they return a decision or an error. A snapshot
    (snapshot.go) is an immutable, validated list of policies with a revision
    and a combining algorithm (decision.go). An engine (engine.go) holds the
    current snapshot in an atomic pointer, decides requests against one
    captured snapshot and publishes newer ones by compare-and-swap. Around it
    stand a decorator that observes decisions (instrumentation.go) and a
    service that fences revisions (decision_service.go). Models are described
    by editable JSON documents (acl|rbac|abac/document.go); a manifest collects
    documents, a compiler turns it into a snapshot (policy/manifest.go,
    policy/compiler.go), [Diff] and [DryRun] compare two snapshots
    (policy/policy.go) and a synchronizer keeps an engine at the revision of a
    repository (policy/synchronizer.go). The repository is a PostgreSQL table
    (postgres/store.go), and newer revisions are announced through Valkey
    (valkey/invalidator.go). Lifecycle epochs of subjects revoke their
    sessions (postgres/authority.go). Principals of an authentication system
    become subjects (authn/); adapters enforce decisions in HTTP and JSON-RPC
    servers, cache manifests, and write logs and telemetry (adapters/).
    authorizationtest/ holds fixtures and a conformance run, examples/ a
    small program.

    ** How Go is modelled (this file)

    A w-bit integer is a [Z], with wrap-around ([uint64_add]) or saturation
    ([time_Sub]) written where the code can leave the range. A string is its
    bytes. A [time.Time] is a number of nanoseconds since the zero instant. A
    map is a [gmap], with [None] for a nil map where the code distinguishes
    it; the order of a [range] over a map is a permutation chosen by the
    class [GoRuntime], so a theorem over all instances holds for every order.
    Errors are values of [error] with the [Unwrap] relation of the code; the
    nil error is [None]. Fallible constructors return [result].
    A call that may panic returns [Go]; a call that observes its environment
    (a context, a clock, a borrowed collaborator) runs in the monad [M],
    which threads the position of the run: a context is a function of the
    position, so cancellation can arrive between any two observations, and
    the class [ContextLive] says that it does not arrive; [runs] states that
    a call returns with a postcondition. Goroutines and the cases of a
    [select] are lists of events or steps of a relation, in any order.

    Fuel stands for recursion on a text or on a graph, and is computed from
    the data: one more than the number of roles ([RoleGraph]), the number of
    nodes ([ABAC], [ABACDocument]), the length of the text ([JSON],
    [JSONText], [ABACDocumentJSON], [Digest], [GoStrings]) or the eight groups
    of an address ([NetIPText]). The theorems show that the result never
    depends on running out: decoding gives back what was encoded, and the
    searches satisfy specifications without fuel.

    ** Files

    - [Strconv], [GoStrings], [NetIP], [Digest]: what the code uses of the
      packages strconv, strings, sort, net/netip, bytes, crypto/sha256,
      encoding/base64 and encoding/binary. [NetIPText], [TimeText],
      [FloatText]: the texts of addresses and prefixes, of instants
      (RFC 3339) and of floating-point numbers, with their parsers.
    - [JSON], [UTF8], [JSONText], [JSONValues]: encoding/json from the scanner
      and its nesting limit over strings, members and indentation to the
      values of Go types with struct tags.
    - [Attribute], [Request], [Decision], [Snapshot], [Engine]: the files of
      the same name at the root of src/. [Publication]: the statements of
      [Engine.ReplaceSnapshot] as interleaved steps of many goroutines.
    - [Instrumentation], [DecisionService]: instrumentation.go and
      decision_service.go. [Telemetry] (Modules [authorizationslog],
      [observation], [authorizationotel]): adapters/slog, internal/
      authorizationotel and adapters/otel.
    - [HTTP] (Module [authorizationhttp]), [JSONRPC] (Module
      [authorizationjsonrpc]): adapters/http and adapters/jsonrpc. [Authn]
      (Module [authn]): authn/authn.go.
    - [Matching]: the deny-overrides collection that the models share.
    - [ACL] (Module [acl]): acl/acl.go. [RoleGraph], [RBAC] (Module [rbac]):
      rbac/rbac.go. [RBACManager]: rbac/manager.go. [Conditions]: the
      condition language of abac/abac.go and abac/conditions.go. [ABAC]
      (Module [abac]): the rest of abac/abac.go.
    - [GoMemory]: slices as windows of arrays, with [append] in place.
      [ManagerMemory] (Module [manager_memory]), [ServiceMemory] (Module
      [service_memory]): rbac/manager.go and decision_service.go on a memory
      they share with their callers.
    - [Documents] (Modules [acl_document], [rbac_document]) and
      [ABACDocument] (Module [abac_document]): the document.go of each model.
      [DocumentJSON], [ABACDocumentJSON]: their struct tags as JSON codecs.
    - [Manifest] (Module [policy]), [PolicyDiff] (Module [policy_diff]),
      [Synchronizer] (Module [synchronizer]): the package policy/.
      [ManifestJSON]: the struct tags of manifests. [PolicyBundle] (Module
      [bundle]): manifests of the three models with the built-in decoders,
      from JSON text to snapshot. [Enforcement] (Module [enforcement]):
      from the text to the decisions of an engine.
      [Cache] (Module [authorizationcache]): adapters/cache.
    - [Store] (Module [postgres]): store.go and migration.go of postgres/.
      [Authority] (Module [authority]): authority.go and
      authority_migration.go. [AuthorityLocks] (Module [authority_locks]):
      interleaved transactions on the epochs under row locks. [Valkey]
      (Module [valkey]): valkey/invalidator.go. [Distribution] (Module
      [distribution]): the store, the announcements and the synchronizers
      of many processes together.
    - [Conformance] (Module [authorizationtest]) and [DecisionJSON]:
      authorizationtest/.
      [TenantDocuments] (Module [tenant_documents]): the example program.

    Definitions keep the names of the source; a method [T.F] is [T_F] where
    the bare name is taken. A loop of the source is a Fixpoint or a fold
    named after the function it belongs to.

    ** Interfaces

    [EvaluatorLaws] (Engine) is the evaluator contract: a call returns, its
    outcome is one of the three named ones, and an error never comes with an
    allow.
    The three models are instances, so the engine's theorems about lawful
    evaluators apply to them. [ClockTotal], [RepositoryTotal] and
    [DecodersTotal] say that a borrowed clock, repository or decoder returns.
    [JSONCodec] is what the entry points of documents use of encoding/json,
    with the law [JSONFaithful], the round trip of the values that JSON can
    express; the codecs derived from the struct tags are its instances.
    Code outside src/ is a parameter: [JSONErrors] (the texts of JSON errors),
    [Locations] (the offset of the location of an instant, with
    [WholeMinutes]), [CacheModule], [MigrationsModule] and [RPCErrors] (the
    libraries the adapters assemble).
    Databases and servers are parameters with laws: [Postgres] and
    [KeepsContent] (a statement of the store runs atomically, or reports an
    error after which it may have run), [AuthorityRows] and
    [AuthorityQueryer] with [HandlesReturn], [AuthorityCursor] and
    [AuthorityDatabase] (a borrowed transaction and its cursors),
    [RowLocks] (the locks of its statements),
    [ValkeyModule], [LuaNumbers] and [ValkeyLaws] (the Valkey client and the
    numbers of its scripts). The SQL and Lua texts of the source are kept as
    strings and translated to functions on the table or key space
    ([update_sql], [advance_sql], [publish_script] and the like); an
    in-memory instance shows that each set of laws can hold. [OtherWriters]
    are the snapshot replacements that other goroutines make while a
    synchronizer runs.

    ** Theorems

    - The engine (C1, C2, C3, C40) decides totally and fails closed, never
      grants without an allowing policy, and its short-circuiting loop is
      equivalent to [Combine] (C28) over all policies. It passes the library's
      conformance run (C29), whose request builder behaves like a value (C31).
    - From end to end (C4), an engine that runs the compiled text of a
      manifest answers what its documents state for a request.
    - Publication (C5, C38) is linearizable and always finishes.
    - Each model refines a declarative specification: ACL (C16, C37), RBAC
      (C13, C30, C36) and ABAC (C17, C22, C26), with tenant isolation and the
      fail-closed three-valued logic of conditions.
    - Memory: the RBAC manager (C14) and the decision service (C15) behave
      like values whatever their callers write to shared slices and maps.
    - Documents, manifests and cached manifests (C10, C34, C35, C39) build
      exactly what they describe and round trip through their JSON texts.
    - The service, the decorators and the adapters (C12, C21, C25, C33)
      keep the guarantees of the engine around it: only an allow reaches a
      protected handler, observers report a decision truthfully, subjects have
      the values that their principal's claims stand for.
    - Distribution: the store is a compare-and-swap register with one winner
      per revision (C9, C18); synchronizers stay fresh and never roll back
      (C23, C32); published revisions are monotone and delivered in order
      (C20, C27), and what a process enforces was submitted to the store
      and is at least the published revision once it polled or was woken
      (C11).
    - Authority: sessions are bound to their scope (C24), the operations
      implement one epoch per scope (C8), fail closed (C19), concurrent
      transactions are serializable (C7), and a revoked epoch is never
      admitted again (C6).

    Each file has further theorems that are not numbered: batches, failures,
    construction, transparency of the instrumentation, reloading the store,
    one winner per publication, the text of manifests and of decision
    fixtures, independence of the map order, the RBAC manager, [Diff],
    [DryRun], [Run], JSON-RPC enforcement and the composition of the HTTP
    adapter with the engine.

    ** Not modelled

    Memory aliasing between a caller's slices and maps and the copies the
    code takes, except in the request builder, the RBAC manager and the
    decision service (elsewhere the copies are equal values);
    wall-clock durations of tickers; the transports behind the parameters
    (network, SQL execution, telemetry export); the text of formatted error
    messages, of which the format and the arguments are kept, and the texts
    of JSON errors; of the location of an instant, everything but its offset.
    Declarations without behaviour (grouped variables, interface types and
    string types) have no definition of their own. *)

From stdpp Require Export base option list numbers strings gmap sorting relations.
From Stdlib Require Import Lia.

(** ** Scope and notations *)

Declare Scope go_scope.
Delimit Scope go_scope with go.
Open Scope go_scope.

(** ** Integers

    Go's [int], [int64] and [uint64] are values of [Z]; operations that can
    leave the machine range are written with the wrap-around or saturation of
    the language. *)

Definition max_int64 : Z := 2 ^ 63 - 1.
Definition min_int64 : Z := - 2 ^ 63.
Definition max_uint64 : Z := 2 ^ 64 - 1.

Definition in_uint64 (z : Z) : Prop := (0 ≤ z ≤ max_uint64)%Z.

(** [x + y] at type [uint64]. *)
Definition uint64_add (x y : Z) : Z := (x + y) `mod` 2 ^ 64.

(** [len(l)] at type [int]. *)
Definition len {A} (l : list A) : Z := Z.of_nat (length l).

(** The [cmp.Compare] family returns -1, 0 or 1. *)
Definition sign_of (c : comparison) : Z :=
  match c with Lt => -1 | Eq => 0 | Gt => 1 end%Z.

Definition cmp_Compare_int (x y : Z) : Z := sign_of (x ?= y)%Z.

Definition cmp_Compare_string (x y : string) : Z := sign_of (String.compare x y).

(** [cmp.Or]: the first argument that is not zero. *)
Definition cmp_Or (x y : Z) : Z := if (x =? 0)%Z then y else x.

(** ** Instants

    A [time.Time] is the number of nanoseconds since the zero instant
    (January 1, year 1, UTC); location and monotonic reading are dropped. *)

Definition Time := Z.

Definition time_IsZero (t : Time) : bool := (t =? 0)%Z.
Definition time_Before (t u : Time) : bool := (t <? u)%Z.
Definition time_After (t u : Time) : bool := (u <? t)%Z.
Definition time_Equal (t u : Time) : bool := (t =? u)%Z.

(** [t.Sub(u)] saturates at the limits of the 64-bit [time.Duration]. *)
Definition time_Sub (t u : Time) : Z :=
  Z.max min_int64 (Z.min max_int64 (t - u)).

(** ** Errors

    [errors_New] is a sentinel, identified by its text (the texts of the
    repository are pairwise distinct); [fmt_Errorf] wraps one error ([%w])
    with the formatted arguments before it. The nil error is [None] of
    [option error]. *)

Inductive fmt_arg :=
| FmtInt (z : Z)
| FmtString (s : string).

#[warnings="-register-all"]
Inductive error :=
| errors_New (text : string)
| ValidationErr (Field : string)
| PolicyEvaluationErr (PolicyID : string) (Err : error)
| fmt_Errorf (format : string) (args : list fmt_arg) (wrapped : error)
| errors_Joined (errs : list error).

Definition ErrInvalidRequest := errors_New "invalid authorization request".
Definition context_Canceled := errors_New "context canceled".
Definition context_DeadlineExceeded := errors_New "context deadline exceeded".

(** Not an error of the code: what a fuelled loop reports when it did not
    finish. Theorems show that the supplied fuel is enough. *)
Definition diverged := errors_New "<loop did not finish>".

(** [errors.Is(e, target)] for a sentinel target with the given text: walks
    the [Unwrap] chain, which for a joined error is a tree. *)
Fixpoint errors_Is_text (e : error) (text : string) : bool :=
  match e with
  | errors_New t => bool_decide (t = text)
  | ValidationErr _ => bool_decide (text = "invalid authorization request")
  | PolicyEvaluationErr _ e' => errors_Is_text e' text
  | fmt_Errorf _ _ e' => errors_Is_text e' text
  | errors_Joined es => existsb (λ e', errors_Is_text e' text) es
  end.

Definition errors_Is (e target : error) : bool :=
  match target with
  | errors_New text => errors_Is_text e text
  | _ => false
  end.

(** [errors.Join(errs...)]: nil when every argument is nil. *)
Definition errors_Join (errs : list (option error)) : option error :=
  match omap id errs with
  | [] => None
  | es => Some (errors_Joined es)
  end.

(** ** Results of fallible constructors: a value or an error *)

Inductive result (A : Type) :=
| Ok (a : A)
| Err (e : error).
Arguments Ok {A} a.
Arguments Err {A} e.

#[global] Instance result_ret : MRet result := λ A a, Ok a.
#[global] Instance result_bind : MBind result := λ A B f r,
  match r with Ok a => f a | Err e => Err e end.

Definition is_Ok {A} (r : result A) : bool :=
  match r with Ok _ => true | Err _ => false end.

(** ** Calls that observe their environment

    A call returns normally or panics. Observing a context, sampling a clock
    or calling a borrowed collaborator happens at a position of the run, a
    [nat] that every [ctx.Err()] and every clock sample advances: a context
    is a function of the position, so it can be cancelled between any two
    observations. *)

Inductive Go (A : Type) :=
| Ret (a : A)
| Panic.
Arguments Ret {A} a.
Arguments Panic {A}.

#[global] Instance Go_ret : MRet Go := λ A a, Ret a.
#[global] Instance Go_bind : MBind Go := λ A B f m,
  match m with Ret a => f a | Panic => Panic end.

Definition M (A : Type) : Type := nat → Go A * nat.

#[global] Instance M_ret : MRet M := λ A a n, (Ret a, n).
#[global] Instance M_bind : MBind M := λ A B f m n,
  match m n with
  | (Ret a, n') => f a n'
  | (Panic, n') => (Panic, n')
  end.

(** A call without observations, as a step of a run. *)
Definition go_call {A} (m : Go A) : M A := λ n, (m, n).

Record Context := mkContext { Err_at : nat → option error }.

Definition ctx_Err (ctx : Context) : M (option error) :=
  λ n, (Ret (Err_at ctx n), S n).

Definition context_Background : Context := mkContext (λ _, None).

(** A context that is cancelled from observation [k] on. *)
Definition context_canceled_from (k : nat) : Context :=
  mkContext (λ n, if decide (k ≤ n) then Some context_Canceled else None).

(** The documented contract of [context.Context]: once [Err] is non-nil,
    later calls return the same error. *)
Class ContextLaws (ctx : Context) : Prop :=
  ctx_err_stable : ∀ n m e, n ≤ m → Err_at ctx n = Some e → Err_at ctx m = Some e.

(** Its errors: cancelled, or past the deadline. *)
Class ContextErrors (ctx : Context) : Prop :=
  ctx_errors : ∀ n e, Err_at ctx n = Some e → e = context_Canceled ∨ e = context_DeadlineExceeded.

(** A context that is never cancelled during a run. *)
Class ContextLive (ctx : Context) : Prop :=
  ctx_live : ∀ n, Err_at ctx n = None.

(** ** The parts of the Go runtime the library observes

    The wall clock, and the order in which a [range] over a map visits it:
    Go leaves it unspecified, and it differs between two loops over the same
    map. The seed stands for the loop. *)

Class GoRuntime := {
  time_Now : nat → Time;
  range_map : nat → ∀ {V : Type}, gmap string V → list (string * V);
  range_set : nat → gset string → list string;
  range_map_perm : ∀ seed V (m : gmap string V), range_map seed m ≡ₚ map_to_list m;
  range_set_perm : ∀ seed (s : gset string), range_set seed s ≡ₚ elements s
}.

Definition now `{GoRuntime} : M Time := λ n, (Ret (time_Now n), S n).

(** The call, made at position [n], returns with a result that satisfies the
    postcondition. *)
Definition runs {A} (n : nat) (m : M A) (P : A → nat → Prop) : Prop :=
  ∃ a n', m n = (Ret a, n') ∧ P a n'.

(** A runtime that visits maps in the order of [map_to_list] and whose clock
    is stopped. *)
Program Definition plain_runtime : GoRuntime := {|
  time_Now := λ _, 1%Z;
  range_map := λ _ V m, map_to_list m;
  range_set := λ _ s, elements s
|}.
Next Obligation. done. Qed.
Next Obligation. done. Qed.

(** A runtime that visits maps in the reverse order in every loop. *)
Program Definition reverse_runtime : GoRuntime := {|
  time_Now := λ _, 1%Z;
  range_map := λ _ V m, reverse (map_to_list m);
  range_set := λ _ s, reverse (elements s)
|}.
Next Obligation. intros. apply reverse_Permutation. Qed.
Next Obligation. intros. apply reverse_Permutation. Qed.

(** ** Sorting

    [slices.SortFunc] is not stable; the uses in this library compare by a
    key without ties, and [SortFunc_unique] shows that then every sorting
    routine returns the same slice. *)

Definition cmp_le {A} (cmp : A → A → Z) : relation A := λ x y, (cmp x y ≤ 0)%Z.

#[global] Instance cmp_le_dec {A} (cmp : A → A → Z) x y : Decision (cmp_le cmp x y) :=
  decide (cmp x y ≤ 0)%Z.

Definition SortFunc {A} (cmp : A → A → Z) : list A → list A :=
  merge_sort (cmp_le cmp).

(** The order shared by policies, permissions and rules: descending priority,
    then ascending identifier. *)
Definition by_priority {A} (prio : A → Z) (ident : A → string) (l r : A) : Z :=
  cmp_Or (cmp_Compare_int (prio r) (prio l)) (cmp_Compare_string (ident l) (ident r)).

Definition slices_Sort : list string → list string := SortFunc cmp_Compare_string.

(** ** Helper lemmas *)

Create HintDb go.
Create Rewrite HintDb go.

Lemma len_nonneg {A} (l : list A) : (0 ≤ len l)%Z.
Proof. unfold len. lia. Qed.

Lemma len_nil {A} : len (@nil A) = 0%Z.
Proof. done. Qed.

Lemma len_cons {A} (x : A) l : len (x :: l) = (1 + len l)%Z.
Proof. unfold len. simpl. lia. Qed.

Lemma len_app {A} (l k : list A) : len (l ++ k) = (len l + len k)%Z.
Proof. unfold len. rewrite length_app. lia. Qed.

#[export] Hint Resolve len_nonneg : go.
#[export] Hint Rewrite @len_nil @len_cons @len_app : go.

(** A number that is missing at first and never decreases. *)
Definition option_le (x y : option Z) : Prop :=
  match x with None => True | Some v => ∃ v', y = Some v' ∧ (v ≤ v')%Z end.

#[global] Instance option_le_preorder : PreOrder option_le.
Proof.
  split; [intros [v|]; simpl; [by exists v|done]|]. intros [v|] c2 c3; [|done].
  intros (v2 & -> & ?) (v3 & -> & ?). exists v3. split; [done|lia].
Qed.

Lemma Ok_inj {A} (x y : A) : Ok x = Ok y → x = y.
Proof. by injection 1. Qed.

(** Runs of the call monad. *)
Lemma M_ret_run {A} (a : A) n : (mret a : M A) n = (Ret a, n).
Proof. done. Qed.

Lemma M_bind_Ret {A B} (m : M A) (f : A → M B) n a n' :
  m n = (Ret a, n') → (m ≫= f) n = f a n'.
Proof. intros E. unfold mbind, M_bind. by rewrite E. Qed.

Lemma M_bind_Panic {A B} (m : M A) (f : A → M B) n n' :
  m n = (Panic, n') → (m ≫= f) n = (Panic, n').
Proof. intros E. unfold mbind, M_bind. by rewrite E. Qed.

Lemma M_bind_inv {A B} (m : M A) (f : A → M B) n b n' :
  (m ≫= f) n = (Ret b, n') → ∃ a n1, m n = (Ret a, n1) ∧ f a n1 = (Ret b, n').
Proof. unfold mbind, M_bind. destruct (m n) as [[a|] n1]; [eauto|done]. Qed.

Lemma M_bind_ret_l {A B} (a : A) (f : A → M B) n : (mret a ≫= f) n = f a n.
Proof. done. Qed.

Lemma ctx_Err_bind {B} ctx (f : option error → M B) n :
  (ctx_Err ctx ≫= f) n = f (Err_at ctx n) (S n).
Proof. done. Qed.

#[export] Hint Rewrite @M_ret_run @M_bind_ret_l @ctx_Err_bind : go.

Lemma runs_ret {A} n (a : A) (P : A → nat → Prop) : P a n → runs n (mret a) P.
Proof. by exists a, n. Qed.

Lemma runs_bind {A B} n (m : M A) (f : A → M B) (P : A → nat → Prop) (Q : B → nat → Prop) :
  runs n m P → (∀ a n', P a n' → runs n' (f a) Q) → runs n (m ≫= f) Q.
Proof. intros (a & n1 & E & Ha) Hf. unfold runs. rewrite (M_bind_Ret _ _ _ _ _ E). by apply Hf. Qed.

Lemma runs_mono {A} n (m : M A) (P Q : A → nat → Prop) :
  runs n m P → (∀ a n', P a n' → Q a n') → runs n m Q.
Proof. intros (a & n' & E & Ha) HPQ. exists a, n'. auto. Qed.

Lemma runs_ctx_Err {B} n ctx (f : option error → M B) P :
  runs (S n) (f (Err_at ctx n)) P → runs n (ctx_Err ctx ≫= f) P.
Proof. done. Qed.

Lemma sign_of_le (c : comparison) : (sign_of c ≤ 0)%Z ↔ c ≠ Gt.
Proof. destruct c; simpl; split; intros; (done || lia). Qed.

Lemma cmp_Compare_int_le x y : (cmp_Compare_int x y ≤ 0 ↔ x ≤ y)%Z.
Proof. unfold cmp_Compare_int. rewrite sign_of_le. done. Qed.

Lemma cmp_Compare_int_eq x y : (cmp_Compare_int x y = 0 ↔ x = y)%Z.
Proof.
  unfold cmp_Compare_int. rewrite <- (Z.compare_eq_iff x y).
  destruct (x ?= y)%Z; simpl; split; (done || lia).
Qed.

Lemma cmp_Compare_string_le x y : (cmp_Compare_string x y ≤ 0)%Z ↔ String.le x y.
Proof.
  unfold cmp_Compare_string, String.le, String.leb. rewrite sign_of_le.
  destruct (String.compare x y); simpl; split; congruence || tauto || done.
Qed.

Lemma string_compare_refl x : String.compare x x = Eq.
Proof.
  pose proof (String.compare_antisym x x) as E.
  by destruct (String.compare x x).
Qed.

Lemma cmp_Compare_string_eq x y : cmp_Compare_string x y = 0%Z ↔ x = y.
Proof.
  unfold cmp_Compare_string. split.
  - destruct (String.compare x y) eqn:E; [|done..]. intros _.
    by apply String.compare_eq_iff.
  - intros ->. by rewrite string_compare_refl.
Qed.

Lemma StronglySorted_filter {A} (R : relation A) (P : A → Prop) `{∀ x, Decision (P x)} l :
  StronglySorted R l → StronglySorted R (filter P l).
Proof.
  induction 1 as [|x l _ IH Hx]; [constructor|]. rewrite filter_cons.
  destruct (decide (P x)); [|done]. constructor; [done|]. rewrite Forall_forall in Hx |- *.
  intros y [_ Hy]%list_elem_of_filter. by apply Hx.
Qed.

Lemma StronglySorted_weaken {A} (R S : relation A) l :
  (∀ x y, R x y → S x y) → StronglySorted R l → StronglySorted S l.
Proof.
  intros HRS. induction 1 as [|x l _ IH Hx]; constructor; [done|].
  eapply Forall_impl; [done|]. eauto.
Qed.

(** What [SortFunc] needs of a comparison: a total preorder. *)
Class Comparison {A} (cmp : A → A → Z) : Prop := {
  comparison_total : ∀ x y, (cmp x y ≤ 0 ∨ cmp y x ≤ 0)%Z;
  comparison_trans : ∀ x y z, (cmp x y ≤ 0 → cmp y z ≤ 0 → cmp x z ≤ 0)%Z
}.

#[global] Instance cmp_Compare_string_comparison : Comparison cmp_Compare_string.
Proof.
  split; intros *; rewrite !cmp_Compare_string_le; [apply String.le_total|].
  intros. by etrans.
Qed.

Lemma by_priority_le {A} (prio : A → Z) ident l r :
  (by_priority prio ident l r ≤ 0)%Z ↔
  (prio r < prio l)%Z ∨ prio l = prio r ∧ String.le (ident l) (ident r).
Proof.
  unfold by_priority, cmp_Or.
  destruct (Z.eqb_spec (cmp_Compare_int (prio r) (prio l)) 0) as [E|E].
  - rewrite cmp_Compare_int_eq in E. rewrite cmp_Compare_string_le.
    split; [intros ?; right; by rewrite E | idtac]. intros [?|[_ ?]]; [lia|done].
  - rewrite cmp_Compare_int_eq in E. rewrite cmp_Compare_int_le. lia.
Qed.

#[global] Instance by_priority_comparison {A} (prio : A → Z) ident :
  Comparison (by_priority prio ident).
Proof.
  split; intros *; rewrite !by_priority_le.
  - destruct (Z.lt_trichotomy (prio x) (prio y)) as [?|[?|?]]; [by auto|..|by auto].
    destruct (String.le_total (ident x) (ident y)); eauto.
  - intros [?|[? ?]] [?|[? ?]]; [left; lia..|].
    right. split; [congruence|]. by etrans.
Qed.

Lemma by_priority_antisym {A} (prio : A → Z) ident l r :
  (by_priority prio ident l r ≤ 0 → by_priority prio ident r l ≤ 0 →
   ident l = ident r)%Z.
Proof.
  rewrite !by_priority_le. intros [?|[? ?]] [?|[? ?]]; try lia.
  by apply (anti_symm String.le).
Qed.

Section SortFunc.
Context {A : Type} (cmp : A → A → Z) `{!Comparison cmp}.

#[local] Instance cmp_rel_total : Total (cmp_le cmp).
Proof. intros x y. apply comparison_total. Qed.

#[local] Instance cmp_rel_trans : Transitive (cmp_le cmp).
Proof. intros x y z. apply comparison_trans. Qed.

Lemma SortFunc_perm l : SortFunc cmp l ≡ₚ l.
Proof. apply merge_sort_Permutation. Qed.

Lemma SortFunc_sorted l : StronglySorted (cmp_le cmp) (SortFunc cmp l).
Proof. apply StronglySorted_merge_sort; apply _. Qed.

(** A sorted permutation is unique when the comparison has no ties. *)
Lemma SortFunc_unique l k :
  (∀ x y, x ∈ l → y ∈ l → (cmp x y ≤ 0 → cmp y x ≤ 0 → x = y)%Z) →
  k ≡ₚ l → StronglySorted (cmp_le cmp) k → k = SortFunc cmp l.
Proof.
  intros Hanti Hperm Hsorted.
  eapply StronglySorted_unique_strong; [|done|apply SortFunc_sorted|].
  - intros x y Hx Hy. apply Hanti; [by rewrite <- Hperm|].
    by rewrite <- (SortFunc_perm l).
  - by rewrite SortFunc_perm.
Qed.

(** The result does not depend on the order of the input. *)
Lemma SortFunc_permutation_invariant l k :
  (∀ x y, x ∈ l → y ∈ l → (cmp x y ≤ 0 → cmp y x ≤ 0 → x = y)%Z) →
  k ≡ₚ l → SortFunc cmp k = SortFunc cmp l.
Proof.
  intros Hanti Hperm. apply SortFunc_unique; [done| |apply SortFunc_sorted].
  by rewrite SortFunc_perm.
Qed.

Lemma SortFunc_length l : length (SortFunc cmp l) = length l.
Proof. by rewrite SortFunc_perm. Qed.

Lemma elem_of_SortFunc x l : x ∈ SortFunc cmp l ↔ x ∈ l.
Proof. by rewrite SortFunc_perm. Qed.

End SortFunc.

(** Identifiers that are unique in a list determine its elements. *)
Lemma NoDup_fmap_elem_inj {A B} (f : A → B) (l : list A) x y :
  NoDup (f <$> l) → x ∈ l → y ∈ l → f x = f y → x = y.
Proof.
  intros Hnd Hx Hy E.
  apply list_elem_of_lookup in Hx as [i Hi]. apply list_elem_of_lookup in Hy as [j Hj].
  assert (i = j) as ->; [|congruence].
  apply (NoDup_lookup (f <$> l) i j (f x)); [done|..]; rewrite list_lookup_fmap.
  - by rewrite Hi.
  - by rewrite Hj, E.
Qed.

Lemma elem_of_range_map `{GoRuntime} seed {V} (m : gmap string V) k v :
  (k, v) ∈ range_map seed m ↔ m !! k = Some v.
Proof. rewrite range_map_perm. by rewrite elem_of_map_to_list. Qed.

Lemma elem_of_range_set `{GoRuntime} seed (s : gset string) k :
  k ∈ range_set seed s ↔ k ∈ s.
Proof. rewrite range_set_perm. apply elem_of_elements. Qed.

Lemma NoDup_fmap_filter {A B} (f : A → B) (P : A → Prop) `{!∀ x, Decision (P x)} (l : list A) :
  NoDup (f <$> l) → NoDup (f <$> filter P l).
Proof.
  induction l as [|x l IH]; [done|]. csimpl. intros [Hx Hnd]%NoDup_cons. rewrite filter_cons.
  case_decide; [|by apply IH]. csimpl. constructor; [|by apply IH].
  intros (y & E & [_ Hy]%list_elem_of_filter)%list_elem_of_fmap. apply Hx. rewrite E. by apply list_elem_of_fmap_2.
Qed.

Lemma elem_of_map {A B} (f : A → B) (l : list A) y : y ∈ map f l ↔ ∃ x, y = f x ∧ x ∈ l.
Proof.
  rewrite list_elem_of_In, in_map_iff. setoid_rewrite list_elem_of_In.
  split; intros (x & ? & ?); exists x; by split.
Qed.

(** Filtering by two exclusive conditions splits the result. *)
Lemma filter_or_perm {A} (P Q R : A → Prop)
    `{!∀ x, Decision (P x), !∀ x, Decision (Q x), !∀ x, Decision (R x)} (l : list A) :
  (∀ x, x ∈ l → (R x ↔ P x ∨ Q x)) → (∀ x, x ∈ l → P x → Q x → False) →
  filter R l ≡ₚ filter P l ++ filter Q l.
Proof.
  induction l as [|x l IH]; intros HR Hex; [done|].
  assert (filter R l ≡ₚ filter P l ++ filter Q l) as IHl.
  { apply IH; intros y Hy; [apply HR|apply Hex]; by right. }
  specialize (HR x ltac:(by left)). specialize (Hex x ltac:(by left)). rewrite !filter_cons.
  destruct (decide (R x)), (decide (P x)), (decide (Q x)); try (exfalso; tauto); simpl;
    by rewrite IHl, ?Permutation_middle.
Qed.

(** Grouping a list by distinct keys and concatenating the groups keeps the
    elements with one of the keys. *)
Lemma concat_filter_keys_perm {A K} `{EqDecision K} (f : A → K) (l : list A) (ks : list K) :
  NoDup ks →
  concat ((λ k, filter (λ x, f x = k) l) <$> ks) ≡ₚ filter (λ x, f x ∈ ks) l.
Proof.
  induction 1 as [|k ks Hk _ IH]; simpl.
  { induction l as [|x l IHl]; [done|]. rewrite filter_cons.
    destruct (decide (f x ∈ [])) as [Hx|_]; [by apply not_elem_of_nil in Hx|done]. }
  rewrite IH. symmetry. apply filter_or_perm.
  - intros x _. by rewrite elem_of_cons.
  - intros x _ <- ?. done.
Qed.

(** ** Tactics *)

(** Case split on every [match] and [if] of an equation [H] between results,
    closing the impossible branches. *)
Ltac split_result H :=
  repeat match type of H with
  | context [match ?x with _ => _ end] => destruct x eqn:?; simplify_eq/=; try done
  end.

(** Boolean tests of the code as propositions. *)
Ltac reflect_bools :=
  repeat match goal with
  | H : bool_decide _ = true |- _ => apply bool_decide_eq_true_1 in H
  | H : bool_decide _ = false |- _ => apply bool_decide_eq_false_1 in H
  | H : (_ && _) = true |- _ => apply andb_true_iff in H as [? ?]
  | H : (_ || _) = false |- _ => apply orb_false_iff in H as [? ?]
  | H : (_ && _) = false |- _ => apply andb_false_iff in H
  | H : (_ || _) = true |- _ => apply orb_true_iff in H
  | H : negb _ = true |- _ => apply negb_true_iff in H
  | H : negb _ = false |- _ => apply negb_false_iff in H
  | H : (_ =? _)%Z = true |- _ => apply Z.eqb_eq in H
  | H : (_ =? _)%Z = false |- _ => apply Z.eqb_neq in H
  | H : (_ <? _)%Z = true |- _ => apply Z.ltb_lt in H
  | H : (_ <? _)%Z = false |- _ => apply Z.ltb_ge in H
  | H : (_ <=? _)%Z = true |- _ => apply Z.leb_le in H
  | H : (_ <=? _)%Z = false |- _ => apply Z.leb_gt in H
  end.
