(* ===== verification/Strconv.v ===== *)
(** * Decimal numbers of package [strconv]

    [strconv.FormatUint(n, 10)], [strconv.ParseUint(s, 10, 64)] and
    [strconv.ParseInt(s, 10, 64)]. The callers only test whether parsing
    failed, so both errors of the package (syntax and range) are [None]. *)

From Stdlib Require Import Ascii.
From stdpp Require Import pretty.
From S2P Require Import Prelude.

#[local] Open Scope Z_scope.

(** ** Definitions *)

Definition FormatUint (n : Z) : string := pretty (Z.to_N n).

(** The digit of a character [0..9]. *)
Definition digit (c : Ascii.ascii) : option Z :=
  let n := Z.of_nat (Ascii.nat_of_ascii c) in
  if (48 <=? n) && (n <=? 57) then Some (n - 48) else None.

(** The loop of [ParseUint]: [limit] is the largest value of the bit size. *)
Fixpoint parse_digits (limit acc : Z) (s : string) : option Z :=
  match s with
  | EmptyString => Some acc
  | String c s =>
      match digit c with
      | None => None
      | Some d => if limit <? acc * 10 + d then None else parse_digits limit (acc * 10 + d) s
      end
  end.

Definition ParseUint (s : string) : option Z :=
  match s with
  | EmptyString => None
  | _ => parse_digits max_uint64 0 s
  end.

(** An optional sign, then an unsigned number within the signed range. *)
Definition ParseInt (s : string) : option Z :=
  match s with
  | EmptyString => None
  | String c rest =>
      let negative := bool_decide (c = "-"%char) in
      n ← ParseUint (if negative || bool_decide (c = "+"%char) then rest else s);
      if negative then if - min_int64 <? n then None else Some (- n)
      else if max_int64 <? n then None else Some n
  end.

(** The number with the given digits of a base, the first one leading. *)
Definition digits_value (base : Z) (digits : list Z) : Z := foldl (λ acc d, acc * base + d) 0 digits.

(** The [n] last digits of a number in base ten, and digits as text. *)
Fixpoint decimal_digits (n : nat) (z : Z) : list Z :=
  match n with O => [] | S n => decimal_digits n (z / 10) ++ [z mod 10] end.

Definition digit_char (d : Z) : Ascii.ascii := Ascii.ascii_of_nat (Z.to_nat (48 + d)).
Definition digits_text (digits : list Z) : string := foldr (λ d s, String (digit_char d) s) EmptyString digits.

(** The digits at the start of a text, and the rest. *)
Fixpoint span_digits (s : string) : list Z * string :=
  match s with
  | EmptyString => ([], EmptyString)
  | String c rest =>
      match digit c with
      | Some d => let '(digits, rest) := span_digits rest in (d :: digits, rest)
      | None => ([], s)
      end
  end.

(** ** Lemmas *)

Lemma digit_pretty n : (n < 10)%N → digit (pretty_N_char n) = Some (Z.of_N n).
Proof.
  intros Hn. assert (n ∈ [0; 1; 2; 3; 4; 5; 6; 7; 8; 9]%N) as Hin.
  { rewrite !elem_of_cons. lia. }
  clear Hn. rewrite !elem_of_cons, elem_of_nil in Hin. by destruct_or! Hin; subst.
Qed.

Lemma parse_digits_pretty limit (n : N) (s : string) :
  0 ≤ limit →
  parse_digits limit 0 (pretty_N_go n s) =
    if limit <? Z.of_N n then None else parse_digits limit (Z.of_N n) s.
Proof.
  intros Hlimit. revert s. induction (N.lt_wf_0 n) as [n _ IH]. intros s.
  destruct (decide (n = 0)%N) as [->|Hn].
  { rewrite pretty_N_go_0. by rewrite (proj2 (Z.ltb_ge _ _)) by lia. }
  rewrite pretty_N_go_step by lia. rewrite IH by (apply N.div_lt; lia). simpl.
  rewrite digit_pretty by (apply N.mod_lt; lia).
  assert (Z.of_N (n / 10) * 10 + Z.of_N (n `mod` 10) = Z.of_N n) as ->.
  { rewrite N2Z.inj_div, N2Z.inj_mod. pose proof (Z.div_mod (Z.of_N n) 10). lia. }
  destruct (Z.ltb_spec limit (Z.of_N n)).
  - by destruct (limit <? _).
  - rewrite (proj2 (Z.ltb_ge _ _)); [done|]. rewrite N2Z.inj_div.
    pose proof (Z.div_le_upper_bound (Z.of_N n) 10 (Z.of_N n)). lia.
Qed.

Lemma FormatUint_cons n : ∃ c s, FormatUint n = String c s.
Proof.
  unfold FormatUint, pretty, pretty_N. case_decide; [by eexists _, _|].
  destruct (pretty_N_go _ _) eqn:E; [|by eexists _, _]. exfalso.
  pose proof (parse_digits_pretty 0 (Z.to_N n) "" ltac:(done)) as Hp. rewrite E in Hp. simpl in Hp.
  rewrite (proj2 (Z.ltb_lt _ _)) in Hp by lia. done.
Qed.

(** Parsing a formatted number gives it back, if it fits. *)
Lemma ParseUint_FormatUint n :
  0 ≤ n → ParseUint (FormatUint n) = if max_uint64 <? n then None else Some n.
Proof.
  intros Hn. destruct (FormatUint_cons n) as (c & s & E).
  unfold ParseUint. rewrite E, <- E. unfold FormatUint, pretty, pretty_N. case_decide as Hz.
  - assert (n = 0) as -> by lia. done.
  - rewrite parse_digits_pretty by done. by rewrite Z2N.id.
Qed.

Lemma ParseUint_Format_uint64 n : in_uint64 n → ParseUint (FormatUint n) = Some n.
Proof. intros [? ?]. rewrite ParseUint_FormatUint by done. by rewrite (proj2 (Z.ltb_ge _ _)). Qed.

Lemma FormatUint_inj n m : 0 ≤ n → 0 ≤ m → FormatUint n = FormatUint m → n = m.
Proof. unfold FormatUint. intros ? ? E%(inj (pretty (A := N))). lia. Qed.

Lemma digit_range c d : digit c = Some d → 0 ≤ d ≤ 9.
Proof. unfold digit. destruct (_ && _) eqn:E; [|done]. intros [= <-]. reflect_bools. lia. Qed.

Lemma parse_digits_range limit acc s n :
  0 ≤ acc ≤ limit → parse_digits limit acc s = Some n → acc ≤ n ≤ limit.
Proof.
  revert acc. induction s as [|c s IH]; intros acc Hacc; simpl; [intros [= <-]; lia|].
  destruct (digit c) as [d|] eqn:Ed; [|done]. apply digit_range in Ed.
  destruct (Z.ltb_spec limit (acc * 10 + d)); [done|]. intros E%IH; lia.
Qed.

Lemma ParseUint_range s n : ParseUint s = Some n → in_uint64 n.
Proof.
  unfold ParseUint. destruct s; [done|]. intros E%parse_digits_range; [done|]. unfold max_uint64. lia.
Qed.

Lemma ParseInt_range s n : ParseInt s = Some n → min_int64 ≤ n ≤ max_int64.
Proof.
  destruct s as [|c s]; [done|]. unfold ParseInt.
  destruct (ParseUint _) as [m|] eqn:E; [|done]. apply ParseUint_range in E as [? ?].
  change (Some m ≫= ?f) with (f m). cbv beta. unfold min_int64, max_int64.
  destruct (bool_decide (c = "-"%char)); [destruct (Z.ltb_spec (- - 2 ^ 63) m)|destruct (Z.ltb_spec (2 ^ 63 - 1) m)];
    intros; simplify_eq; lia.
Qed.

Lemma digits_value_range base digits :
  0 < base → Forall (λ d, 0 ≤ d < base) digits → 0 ≤ digits_value base digits < base ^ Z.of_nat (length digits).
Proof.
  intros Hb Hds. unfold digits_value. induction digits as [|d digits IH] using rev_ind; [done|].
  apply Forall_app in Hds as [Hds [Hd _]%Forall_cons]. specialize (IH Hds).
  rewrite foldl_app, length_app, Nat2Z.inj_add, Z.pow_add_r, Z.pow_1_r by (simpl; lia). simpl.
  set (acc := foldl _ 0 digits) in *. set (p := base ^ Z.of_nat (length digits)) in *.
  assert (acc * base ≤ (p - 1) * base) by (apply Z.mul_le_mono_nonneg_r; lia). nia.
Qed.

Lemma digits_value_app base ds es :
  digits_value base (ds ++ es) = digits_value base ds * base ^ Z.of_nat (length es) + digits_value base es.
Proof.
  unfold digits_value. rewrite foldl_app. generalize (foldl (λ acc d, acc * base + d) 0 ds) as acc.
  induction es as [|e es IH]; intros acc; simpl foldl; [simpl; lia|].
  rewrite (IH (acc * base + e)), (IH (0 * base + e)). cbn [length]. rewrite Nat2Z.inj_succ, Z.pow_succ_r by lia. lia.
Qed.

Lemma decimal_digits_range n z : Forall (λ d, 0 ≤ d < 10) (decimal_digits n z).
Proof.
  revert z. induction n as [|n IH]; intros z; simpl; [constructor|]. apply Forall_app. split; [done|].
  constructor; [|constructor]. by apply Z.mod_pos_bound.
Qed.

Lemma decimal_digits_length n z : length (decimal_digits n z) = n.
Proof. revert z. induction n as [|n IH]; intros z; simpl; [done|]. rewrite length_app, IH. simpl. lia. Qed.

Lemma decimal_digits_value n z : 0 ≤ z < 10 ^ Z.of_nat n → digits_value 10 (decimal_digits n z) = z.
Proof.
  revert z. induction n as [|n IH]; intros z Hz; simpl; [change (10 ^ Z.of_nat 0) with 1 in Hz; unfold digits_value; simpl; lia|].
  rewrite Nat2Z.inj_succ, Z.pow_succ_r in Hz by lia. rewrite digits_value_app, IH.
  - unfold digits_value. simpl. Z.to_euclidean_division_equations. lia.
  - split; [apply Z.div_pos; lia|]. apply Z.div_lt_upper_bound; lia.
Qed.

Lemma digit_digit_char d : 0 ≤ d < 10 → digit (digit_char d) = Some d.
Proof.
  intros Hd. unfold digit, digit_char. rewrite Ascii.nat_ascii_embedding by lia. rewrite Z2Nat.id by lia.
  rewrite (proj2 (Z.leb_le _ _)), (proj2 (Z.leb_le _ _)) by lia. simpl. f_equal. lia.
Qed.

(** Digits are read back up to a text that does not start with one. *)
Lemma span_digits_text ds rest :
  Forall (λ d, 0 ≤ d < 10) ds → (∀ c s, rest = String c s → digit c = None) →
  span_digits (digits_text ds +:+ rest) = (ds, rest).
Proof.
  intros Hds Hrest. induction Hds as [|d ds Hd _ IH].
  - change (digits_text [] +:+ rest) with rest. destruct rest as [|c s]; [done|]. cbn [span_digits]. by rewrite (Hrest c s).
  - change (digits_text (d :: ds) +:+ rest) with (String (digit_char d) (digits_text ds +:+ rest)).
    cbn [span_digits]. by rewrite digit_digit_char, IH.
Qed.
