(* ===== verification/GoStrings.v ===== *)
(** * Strings of the Go standard library

    The functions of packages [strings] and [sort] that the library calls:
    [strings.HasPrefix], [strings.HasSuffix], [strings.Contains] and the binary
    search [sort.SearchStrings]. A Go string is its bytes, a [string] of
    [ascii]; the order is the bytewise one. *)

From S2P Require Import Prelude.

(** ** Definitions *)

Fixpoint strings_HasPrefix (s prefix : string) : bool :=
  match prefix, s with
  | EmptyString, _ => true
  | String a p, String b t => bool_decide (a = b) && strings_HasPrefix t p
  | String _ _, EmptyString => false
  end.

Fixpoint string_drop (n : nat) (s : string) : string :=
  match n, s with
  | S n, String _ t => string_drop n t
  | _, _ => s
  end.

(** [len(s) >= len(suffix) && s[len(s)-len(suffix):] == suffix]. *)
Definition strings_HasSuffix (s suffix : string) : bool :=
  (String.length suffix <=? String.length s)%nat &&
  bool_decide (string_drop (String.length s - String.length suffix) s = suffix).

Fixpoint strings_Contains (s substr : string) : bool :=
  strings_HasPrefix s substr ||
  match s with
  | EmptyString => false
  | String _ t => strings_Contains t substr
  end.

(** The loop [for i < j { h := (i+j)>>1; if a[h] < x { i = h+1 } else { j = h } }]
    of [sort.SearchStrings]; the fuel bounds the number of iterations. *)
Fixpoint search_loop (fuel : nat) (a : list string) (x : string) (i j : nat) : option nat :=
  if (i <? j)%nat then
    match fuel with
    | 0 => None
    | S fuel =>
        let h := Nat.div2 (i + j) in
        match a !! h with
        | Some y =>
            if String.ltb y x then search_loop fuel a x (S h) j
            else search_loop fuel a x i h
        | None => None
        end
    end
  else Some i.

(** [sort.SearchStrings(a, x)]; every iteration shrinks [j - i], so the length
    of the slice is enough fuel ([sort_SearchStrings_total]). *)
Definition sort_SearchStrings (a : list string) (x : string) : option nat :=
  search_loop (length a) a x 0 (length a).

(** ** Lemmas *)

Lemma string_app_cons a s t : String a s +:+ t = String a (s +:+ t).
Proof. done. Qed.

Lemma string_app_nil_r s : s +:+ "" = s.
Proof. induction s as [|a s IH]; [done|]. by rewrite string_app_cons, IH. Qed.

Lemma string_app_assoc s t u : (s +:+ t) +:+ u = s +:+ t +:+ u.
Proof. induction s as [|a s IH]; [done|]. by rewrite !string_app_cons, IH. Qed.

Lemma string_length_app s t : String.length (s +:+ t) = String.length s + String.length t.
Proof. induction s as [|a s IH]; [done|]. rewrite string_app_cons. simpl. by rewrite IH. Qed.

Lemma strings_HasPrefix_spec s p :
  strings_HasPrefix s p = true ↔ ∃ t, s = p +:+ t.
Proof.
  revert s. induction p as [|a p IH]; intros s; simpl.
  { destruct s; split; eauto. }
  destruct s as [|b s].
  { split; [done|]. intros [t Ht]. by rewrite string_app_cons in Ht. }
  simpl. rewrite andb_true_iff, bool_decide_eq_true, IH.
  setoid_rewrite string_app_cons. split; [intros [-> [t ->]]; eauto|].
  intros [t E]. simplify_eq. eauto.
Qed.

Lemma string_drop_app s t : string_drop (String.length s) (s +:+ t) = t.
Proof. induction s as [|a s IH]; [by destruct t|]. by rewrite string_app_cons. Qed.

Lemma string_split_at n s :
  n ≤ String.length s → ∃ t, s = t +:+ string_drop n s ∧ String.length t = n.
Proof.
  revert s. induction n as [|n IH]; intros s Hn; [exists ""; by destruct s|].
  destruct s as [|a s]; simpl in *; [lia|].
  destruct (IH s) as (t & Ht & Hl); [lia|].
  exists (String a t). rewrite string_app_cons, <- Ht. simpl. by rewrite Hl.
Qed.

Lemma strings_HasSuffix_spec s p :
  strings_HasSuffix s p = true ↔ ∃ t, s = t +:+ p.
Proof.
  unfold strings_HasSuffix. rewrite andb_true_iff, bool_decide_eq_true, Nat.leb_le.
  split.
  - intros [Hl Hd]. destruct (string_split_at (String.length s - String.length p) s)
      as (t & Ht & _); [lia|]. exists t. by rewrite Hd in Ht.
  - intros [t ->]. rewrite string_length_app. split; [lia|].
    replace (String.length t + String.length p - String.length p) with (String.length t)
      by lia. apply string_drop_app.
Qed.

Lemma strings_Contains_spec s p :
  strings_Contains s p = true ↔ ∃ t u, s = t +:+ p +:+ u.
Proof.
  induction s as [|a s IH]; cbn [strings_Contains]; rewrite orb_true_iff, strings_HasPrefix_spec.
  - split.
    + intros [[t Ht]|?]; [|done]. by exists "", t.
    + intros (t & u & E). left. exists u. destruct t; [done|].
      by rewrite string_app_cons in E.
  - rewrite IH. split.
    + intros [[t Ht]|(t & u & ->)]; [by exists "", t|].
      exists (String a t), u. by rewrite string_app_cons.
    + intros (t & u & E). destruct t as [|b t]; [left; by exists u|].
      rewrite string_app_cons in E. simplify_eq. right. by exists t, u.
Qed.

(** Bytewise order facts about [String.ltb]. *)
Lemma string_ltb_true x y : String.ltb x y = true ↔ String.le x y ∧ x ≠ y.
Proof.
  rewrite <- cmp_Compare_string_le, <- cmp_Compare_string_eq.
  unfold String.ltb, cmp_Compare_string.
  destruct (String.compare x y); simpl; split; try done; intros [? ?]; lia.
Qed.

Lemma string_ltb_false x y : String.ltb x y = false ↔ String.le y x.
Proof.
  rewrite <- not_true_iff_false, string_ltb_true. split.
  - intros H. destruct (String.le_total x y) as [Hxy|]; [|done].
    destruct (decide (x = y)) as [->|]; [done|]. exfalso. by apply H.
  - intros Hyx [Hxy Hne]. apply Hne. by apply (anti_symm String.le).
Qed.

Lemma sorted_lookup a i j y z :
  StronglySorted String.le a → i ≤ j → a !! i = Some y → a !! j = Some z → String.le y z.
Proof.
  intros Hs Hij Hy Hz. destruct (decide (i = j)) as [->|]; [by simplify_eq|].
  rewrite <- (take_drop (S i) a), StronglySorted_app in Hs. apply Hs.
  - apply list_elem_of_lookup. exists i. by rewrite lookup_take_lt by lia.
  - apply list_elem_of_lookup. exists (j - S i). rewrite lookup_drop.
    by replace (S i + (j - S i)) with j by lia.
Qed.

(** The invariant of the binary search: everything left of [i] is below [x],
    everything from [j] on is not. *)
Lemma search_loop_correct fuel a x i j :
  StronglySorted String.le a →
  i ≤ j → j ≤ length a → j - i ≤ fuel →
  (∀ k y, k < i → a !! k = Some y → String.ltb y x = true) →
  (∀ k y, j ≤ k → a !! k = Some y → String.ltb y x = false) →
  ∃ r, search_loop fuel a x i j = Some r ∧ r ≤ length a ∧
    (∀ k y, k < r → a !! k = Some y → String.ltb y x = true) ∧
    (∀ k y, r ≤ k → a !! k = Some y → String.ltb y x = false).
Proof.
  intros Hs. revert i j. induction fuel as [|fuel IH]; intros i j Hij Hj Hf Hl Hr; simpl.
  all: destruct (Nat.ltb_spec i j) as [Hlt|Hge]; [|exists i; assert (i = j) as -> by lia; eauto].
  { lia. }
  pose proof (Nat.div2_odd (i + j)) as Hodd.
  set (h := Nat.div2 (i + j)) in *.
  assert (i ≤ h < j) by (destruct (Nat.odd (i + j)); simpl in Hodd; lia).
  destruct (lookup_lt_is_Some_2 a h) as [y Hy]; [lia|]. rewrite Hy.
  destruct (String.ltb y x) eqn:Eyx.
  - apply IH; [lia..| |done].
    intros k z Hk Hz. apply string_ltb_true in Eyx as [Hyx Hne].
    assert (String.le z y) as Hzy by (apply (sorted_lookup a k h); [done|lia|done..]).
    apply string_ltb_true. split; [by etrans|]. intros ->.
    apply Hne. by apply (anti_symm String.le).
  - apply IH; [lia..|done|].
    intros k z Hk Hz. apply string_ltb_false. apply string_ltb_false in Eyx.
    etrans; [done|]. by apply (sorted_lookup a h k).
Qed.

(** On a sorted slice the search terminates and finds the insertion point. *)
Lemma sort_SearchStrings_total a x :
  StronglySorted String.le a →
  ∃ r, sort_SearchStrings a x = Some r ∧ r ≤ length a ∧ (a !! r = Some x ↔ x ∈ a).
Proof.
  intros Hs. destruct (search_loop_correct (length a) a x 0 (length a))
    as (r & Hr & Hle & Hbelow & Habove); [done|lia..| |].
  { intros k y Hk Hy. apply lookup_lt_Some in Hy. lia. }
  exists r. split; [done|]. split; [done|]. split; [apply list_elem_of_lookup_2|].
  intros [k Hk]%list_elem_of_lookup.
  destruct (decide (k < r)) as [Hkr|Hkr].
  { apply (Hbelow k x) in Hkr; [|done]. by apply string_ltb_true in Hkr as [_ ?]. }
  destruct (decide (k = r)) as [->|]; [done|].
  destruct (lookup_lt_is_Some_2 a r) as [y Hy]; [apply lookup_lt_Some in Hk; lia|].
  rewrite Hy. f_equal. apply (anti_symm String.le).
  - apply (sorted_lookup a r k); [done|lia|done..].
  - apply string_ltb_false. by apply (Habove r y).
Qed.
