(* ===== verification/NetIP.v ===== *)
(** * Addresses and prefixes of package [net/netip]

    The part of [netip] the library uses: the address families with the zone
    of an IPv6 address, [Unmap], and prefixes with [Masked], [IsValid] and
    [Contains]. An address is its 32 or 128 bits. *)

From S2P Require Import Prelude.

#[local] Open Scope Z_scope.

(** ** Definitions *)

(** [netip.Addr]: the zero (invalid) address, an IPv4 or an IPv6 address; the
    empty zone stands for no zone. *)
Inductive Addr :=
| AddrZero
| Addr4 (bits : Z)
| Addr6 (bits : Z) (zone : string).

#[global] Instance Addr_eq_dec : EqDecision Addr.
Proof. solve_decision. Defined.

Definition addr_BitLen (ip : Addr) : Z :=
  match ip with AddrZero => 0 | Addr4 _ => 32 | Addr6 _ _ => 128 end.

Definition addr_bits (ip : Addr) : Z :=
  match ip with AddrZero => 0 | Addr4 b => b | Addr6 b _ => b end.

Definition addr_hasZone (ip : Addr) : bool :=
  match ip with Addr6 _ z => negb (bool_decide (z = "")) | _ => false end.

Definition addr_withoutZone (ip : Addr) : Addr :=
  match ip with Addr6 b _ => Addr6 b "" | _ => ip end.

(** [Is4In6]: ::ffff:0:0/96. *)
Definition addr_Is4In6 (ip : Addr) : bool :=
  match ip with Addr6 b _ => Z.shiftr b 32 =? 65535 | _ => false end.

Definition addr_Unmap (ip : Addr) : Addr :=
  match ip with
  | Addr6 b _ => if addr_Is4In6 ip then Addr4 (Z.land b (Z.ones 32)) else ip
  | _ => ip
  end.

Arguments addr_Is4In6 : simpl never.
Arguments addr_Unmap : simpl never.

(** Addresses whose bits fit their family. *)
Definition addr_ok (ip : Addr) : Prop := 0 ≤ addr_bits ip < 2 ^ addr_BitLen ip.

(** [netip.Prefix] keeps the prefix length plus one, zero for an invalid one. *)
Record Prefix := mkPrefix { prefix_ip : Addr; prefix_bitsPlusOne : Z }.

#[global] Instance Prefix_eq_dec : EqDecision Prefix.
Proof. solve_decision. Defined.

Definition prefix_IsValid (p : Prefix) : bool := 0 <? prefix_bitsPlusOne p.

Definition prefix_Bits (p : Prefix) : Z := prefix_bitsPlusOne p - 1.

Definition netip_PrefixFrom (ip : Addr) (bits : Z) : Prefix :=
  mkPrefix (addr_withoutZone ip)
    (if negb (bool_decide (ip = AddrZero)) && (0 <=? bits) && (bits <=? addr_BitLen ip)
     then bits + 1 else 0).

(** The [bits] leading ones of an address of [width] bits. *)
Definition prefix_mask (width bits : Z) : Z := Z.shiftl (Z.ones bits) (width - bits).

Definition addr_mask (ip : Addr) (bits : Z) : Addr :=
  match ip with
  | AddrZero => AddrZero
  | Addr4 b => Addr4 (Z.land b (prefix_mask 32 bits))
  | Addr6 b z => Addr6 (Z.land b (prefix_mask 128 bits)) z
  end.

(** [ip.Prefix(bits)]; the zero prefix stands for the error result, which
    [Masked] discards. *)
Definition addr_Prefix (ip : Addr) (bits : Z) : Prefix :=
  if (bits <? 0) || (addr_BitLen ip <? bits) then mkPrefix AddrZero 0
  else match ip with
       | AddrZero => mkPrefix AddrZero 0
       | _ => netip_PrefixFrom (addr_mask (addr_withoutZone ip) bits) bits
       end.

Definition prefix_Masked (p : Prefix) : Prefix := addr_Prefix (prefix_ip p) (prefix_Bits p).

Definition prefix_Contains (p : Prefix) (ip : Addr) : bool :=
  if negb (prefix_IsValid p) || addr_hasZone ip then false
  else
    let f1 := addr_BitLen (prefix_ip p) in
    let f2 := addr_BitLen ip in
    if (f1 =? 0) || (f2 =? 0) || negb (f1 =? f2) then false
    else
      let diff := Z.lxor (addr_bits ip) (addr_bits (prefix_ip p)) in
      match ip with
      | Addr4 _ => Z.shiftr diff (32 - prefix_Bits p) =? 0
      | _ => Z.land diff (prefix_mask 128 (prefix_Bits p)) =? 0
      end.

(** Prefixes as [ParsePrefix] and [PrefixFrom] build them. *)
Definition prefix_ok (p : Prefix) : Prop :=
  addr_ok (prefix_ip p) ∧ addr_hasZone (prefix_ip p) = false ∧
  0 ≤ prefix_bitsPlusOne p ≤ addr_BitLen (prefix_ip p) + 1 ∧
  (prefix_ip p = AddrZero → prefix_bitsPlusOne p = 0).

(** ** Lemmas *)

Lemma prefix_mask_testbit w b i :
  0 ≤ b ≤ w → 0 ≤ i → Z.testbit (prefix_mask w b) i = (w - b <=? i) && (i <? w).
Proof.
  intros Hb Hi. unfold prefix_mask. rewrite Z.shiftl_spec by done.
  destruct (Z.leb_spec (w - b) i) as [H|H]; simpl.
  - destruct (Z.ltb_spec i w).
    + rewrite Z.ones_spec_low; [done|lia].
    + rewrite Z.ones_spec_high; [done|lia].
  - rewrite Z.testbit_neg_r; [done|lia].
Qed.

(** A value below [2^w] has no bit from [w] on. *)
Lemma testbit_above x w i : 0 ≤ x < 2 ^ w → 0 ≤ w ≤ i → Z.testbit x i = false.
Proof.
  intros Hx Hi. rewrite <- (Z.mod_small x (2 ^ w)) by done.
  rewrite Z.mod_pow2_bits_high; [done|lia].
Qed.

(** Two addresses agree on their [b] leading bits: the three ways of saying
    it that [Contains], [Masked] and the specification use. *)
Lemma leading_bits_land x y w b :
  0 ≤ x < 2 ^ w → 0 ≤ y < 2 ^ w → 0 ≤ b ≤ w →
  Z.land (Z.lxor x y) (prefix_mask w b) = 0 ↔
  Z.shiftr x (w - b) = Z.shiftr y (w - b).
Proof.
  intros Hx Hy Hb. split; intros E.
  - apply Z.bits_inj'. intros i Hi. rewrite !Z.shiftr_spec by done.
    destruct (Z.ltb_spec (i + (w - b)) w) as [H|H].
    + apply (f_equal (λ z, Z.testbit z (i + (w - b)))) in E.
      rewrite Z.land_spec, Z.lxor_spec, prefix_mask_testbit, Z.bits_0 in E by lia.
      destruct (Z.leb_spec (w - b) (i + (w - b))); [|lia].
      destruct (Z.ltb_spec (i + (w - b)) w); [|lia].
      rewrite andb_true_r in E. by apply xorb_eq.
    + rewrite !(testbit_above _ w); (done || lia).
  - apply Z.bits_inj'. intros i Hi.
    rewrite Z.land_spec, Z.lxor_spec, prefix_mask_testbit, Z.bits_0 by done.
    destruct (Z.leb_spec (w - b) i) as [H|H]; [|by rewrite andb_false_r].
    apply (f_equal (λ z, Z.testbit z (i - (w - b)))) in E.
    rewrite !Z.shiftr_spec in E by lia.
    replace (i - (w - b) + (w - b)) with i in E by lia.
    by rewrite E, xorb_nilpotent.
Qed.

Lemma leading_bits_shift x y k :
  0 ≤ x → 0 ≤ y → 0 ≤ k →
  Z.shiftr (Z.lxor x y) k = 0 ↔ Z.shiftr x k = Z.shiftr y k.
Proof.
  intros Hx Hy Hk. rewrite Z.shiftr_lxor. split; intros E.
  - by apply Z.lxor_eq.
  - by rewrite E, Z.lxor_nilpotent.
Qed.

(** Masking keeps the leading bits. *)
Lemma shiftr_mask x w b :
  0 ≤ x < 2 ^ w → 0 ≤ b ≤ w →
  Z.shiftr (Z.land x (prefix_mask w b)) (w - b) = Z.shiftr x (w - b).
Proof.
  intros Hx Hb. apply Z.bits_inj'. intros i Hi.
  rewrite !Z.shiftr_spec, Z.land_spec, prefix_mask_testbit by lia.
  destruct (Z.leb_spec (w - b) (i + (w - b))); [|lia]. simpl.
  destruct (Z.ltb_spec (i + (w - b)) w); [by rewrite andb_true_r|].
  rewrite !(testbit_above _ w); (done || lia).
Qed.

Lemma mask_range x w b : 0 ≤ x < 2 ^ w → 0 ≤ b ≤ w → 0 ≤ Z.land x (prefix_mask w b) < 2 ^ w.
Proof.
  intros Hx Hb. assert (0 ≤ Z.land x (prefix_mask w b)) by (apply Z.land_nonneg; left; lia).
  apply Z.bounded_iff_bits_nonneg'; [lia|done|]. intros i Hi.
  rewrite Z.land_spec, (testbit_above x w); (done || lia).
Qed.

(** The specification of [Contains]: same family, no zone, and equal leading
    bits. *)
Lemma prefix_Contains_spec p ip :
  prefix_ok p → addr_ok ip →
  prefix_Contains p ip = true ↔
  prefix_IsValid p = true ∧ addr_hasZone ip = false ∧
  addr_BitLen ip = addr_BitLen (prefix_ip p) ∧
  Z.shiftr (addr_bits ip) (addr_BitLen ip - prefix_Bits p) =
  Z.shiftr (addr_bits (prefix_ip p)) (addr_BitLen ip - prefix_Bits p).
Proof.
  intros (Hok & Hz & Hb & H0) Hip. unfold prefix_Contains, prefix_Bits.
  destruct (prefix_IsValid p) eqn:Hv; simpl; [|naive_solver].
  unfold prefix_IsValid in Hv. apply Z.ltb_lt in Hv.
  destruct (addr_hasZone ip) eqn:Hzip; [naive_solver|].
  destruct (prefix_ip p) as [|x|x z] eqn:Eip; [naive_solver lia|..];
    destruct ip as [|y|y u]; simpl in *; (try naive_solver lia);
    rewrite Z.eqb_eq; unfold addr_ok in *; simpl in *.
  - rewrite leading_bits_shift by lia. naive_solver.
  - rewrite leading_bits_land by lia. naive_solver.
Qed.

Lemma prefix_Masked_ok p :
  prefix_ok p → prefix_IsValid p = true →
  prefix_ok (prefix_Masked p) ∧ prefix_bitsPlusOne (prefix_Masked p) = prefix_bitsPlusOne p ∧
  addr_BitLen (prefix_ip (prefix_Masked p)) = addr_BitLen (prefix_ip p) ∧
  addr_bits (prefix_ip (prefix_Masked p)) =
    Z.land (addr_bits (prefix_ip p)) (prefix_mask (addr_BitLen (prefix_ip p)) (prefix_Bits p)).
Proof.
  intros (Hok & Hz & Hb & H0) Hv%Z.ltb_lt. unfold prefix_Masked, addr_Prefix, prefix_Bits, prefix_ok.
  destruct p as [ip n]; simpl in *.
  destruct ip as [|x|x z]; simpl in *; [naive_solver lia|..];
    (destruct (Z.ltb_spec (n - 1) 0); [lia|]); simpl;
    [destruct (Z.ltb_spec 32 (n - 1)); [lia|] | destruct (Z.ltb_spec 128 (n - 1)); [lia|]];
    unfold netip_PrefixFrom, addr_ok in *; simpl in *;
    rewrite ?bool_decide_false by done; simpl;
    (destruct (Z.leb_spec 0 (n - 1)); [|lia]); simpl;
    [destruct (Z.leb_spec (n - 1) 32); [|lia] | destruct (Z.leb_spec (n - 1) 128); [|lia]];
    simpl; (split_and!; (done || lia || apply mask_range; lia)).
Qed.

(** Masking a prefix does not change the addresses it contains. *)
Lemma prefix_Masked_Contains p ip :
  prefix_ok p → addr_ok ip → prefix_Contains (prefix_Masked p) ip = prefix_Contains p ip.
Proof.
  intros Hp Hip. destruct (prefix_IsValid p) eqn:Hv; cycle 1.
  { assert (prefix_Masked p = mkPrefix AddrZero 0) as ->.
    { unfold prefix_Masked, addr_Prefix, prefix_Bits. unfold prefix_IsValid in Hv. apply Z.ltb_ge in Hv.
      by rewrite (proj2 (Z.ltb_lt (prefix_bitsPlusOne p - 1) 0)) by lia. }
    unfold prefix_Contains. by rewrite Hv. }
  destruct (prefix_Masked_ok p Hp Hv) as (Hok & Hb & Hl & Hbits).
  apply eq_true_iff_eq. rewrite !prefix_Contains_spec by done.
  assert (prefix_IsValid (prefix_Masked p) = true) as Hv' by (unfold prefix_IsValid in *; by rewrite Hb).
  assert (prefix_Bits (prefix_Masked p) = prefix_Bits p) as Hbp by (unfold prefix_Bits; by rewrite Hb).
  rewrite Hv, Hv', Hbp, Hl, Hbits. destruct Hp as (Hpok & _ & Hr & _).
  assert (0 ≤ prefix_Bits p ≤ addr_BitLen (prefix_ip p)) as Hrange.
  { unfold prefix_Bits. unfold prefix_IsValid in Hv. apply Z.ltb_lt in Hv. lia. }
  assert (Z.shiftr (Z.land (addr_bits (prefix_ip p)) (prefix_mask (addr_BitLen (prefix_ip p)) (prefix_Bits p)))
    (addr_BitLen (prefix_ip p) - prefix_Bits p) =
    Z.shiftr (addr_bits (prefix_ip p)) (addr_BitLen (prefix_ip p) - prefix_Bits p)) as Es
    by (by apply shiftr_mask).
  split; intros (_ & Hz & El & E); (split_and!; [done|done|done|]); rewrite El in *; congruence.
Qed.
