(* ===== verification/NetIPText.v ===== *)
(** * Texts of addresses and prefixes (package [net/netip])

    [netip.ParseAddr] and [netip.ParsePrefix], as the ABAC documents use them.
    The callers only test whether parsing failed, so every error is [None].
    An IPv6 address under construction is a list of 16-bit groups. *)

From Stdlib Require Import Ascii.
From S2P Require Import Prelude Strconv GoStrings NetIP.

#[local] Open Scope Z_scope.

(** ** Definitions *)

(** [parseIPv4Fields]: the octets before the current one, the value and the
    number of digits of the current one. *)
Fixpoint parseIPv4Fields (octets : list Z) (val digLen : Z) (s : string) : option (list Z) :=
  match s with
  | EmptyString => if (length octets <? 3)%nat then None else Some (octets ++ [val])
  | String c rest =>
      match digit c with
      | Some d =>
          if (digLen =? 1) && (val =? 0) then None
          else if 255 <? val * 10 + d then None
          else parseIPv4Fields octets (val * 10 + d) (digLen + 1) rest
      | None =>
          if negb (bool_decide (c = "."%char)) then None
          else if (digLen =? 0) || bool_decide (rest = EmptyString) then None
          else if (length octets =? 3)%nat then None
          else parseIPv4Fields (octets ++ [val]) 0 0 rest
      end
  end.

Definition parseIPv4 (s : string) : option Addr :=
  octets ← parseIPv4Fields [] 0 0 s;
  Some (Addr4 (digits_value 256 octets)).

Definition hex_digit_value (c : ascii) : option Z :=
  let n := Z.of_nat (nat_of_ascii c) in
  if (48 <=? n) && (n <=? 57) then Some (n - 48)
  else if (97 <=? n) && (n <=? 102) then Some (n - 87)
  else if (65 <=? n) && (n <=? 70) then Some (n - 55)
  else None.

(** A group of hexadecimal digits: its value, its length and the rest. *)
Fixpoint parse_group (off acc : Z) (s : string) : option (Z * Z * string) :=
  match s with
  | EmptyString => Some (acc, off, s)
  | String c rest =>
      match hex_digit_value c with
      | None => Some (acc, off, s)
      | Some d => if (3 <? off) || (65535 <? acc * 16 + d) then None else parse_group (off + 1) (acc * 16 + d) rest
      end
  end.

(** The loop of [parseIPv6]: [fuel] groups are missing; returns the groups, the
    position of the ellipsis and the text that is left. *)
Fixpoint parse_groups (fuel : nat) (groups : list Z) (ellipsis : option nat) (s : string) :
    option (list Z * option nat * string) :=
  match fuel with
  | O => Some (groups, ellipsis, s)
  | S fuel =>
      '(acc, off, rest) ← parse_group 0 0 s;
      if off =? 0 then None
      else match rest with
      | EmptyString => Some (groups ++ [acc], ellipsis, EmptyString)
      | String c more =>
          if bool_decide (c = "."%char) then
            if bool_decide (ellipsis = None) && negb (length groups =? 6)%nat then None
            else if (8 <? length groups + 2)%nat then None
            else
              octets ← parseIPv4Fields [] 0 0 s;
              match octets with
              | [a; b; c; d] => Some (groups ++ [a * 256 + b; c * 256 + d], ellipsis, EmptyString)
              | _ => None
              end
          else if negb (bool_decide (c = ":"%char)) then None
          else match more with
          | EmptyString => None
          | String c' more' =>
              if bool_decide (c' = ":"%char) then
                if bool_decide (is_Some ellipsis) then None
                else
                  let groups := groups ++ [acc] in
                  if bool_decide (more' = EmptyString) then Some (groups, Some (length groups), EmptyString)
                  else parse_groups fuel groups (Some (length groups)) more'
              else parse_groups fuel (groups ++ [acc]) ellipsis more
          end
      end
  end.

(** The eight groups, the ellipsis expanded. *)
Definition expand_ellipsis (groups : list Z) (ellipsis : option nat) : option (list Z) :=
  if (length groups <? 8)%nat then
    position ← ellipsis;
    Some (take position groups ++ replicate (8 - length groups) 0 ++ drop position groups)
  else match ellipsis with Some _ => None | None => Some groups end.

(** The text before and after the first occurrence of a character. *)
Fixpoint cut_at (mark : ascii) (s : string) : string * option string :=
  match s with
  | EmptyString => (EmptyString, None)
  | String c rest =>
      if bool_decide (c = mark) then (EmptyString, Some rest)
      else let '(before, after) := cut_at mark rest in (String c before, after)
  end.

Definition parseIPv6 (input : string) : option Addr :=
  let '(s, zone) := cut_at "%"%char input in
  if bool_decide (zone = Some EmptyString) then None
  else
    let zone := default EmptyString zone in
    let leading := strings_HasPrefix s "::" in
    let s := if leading then string_drop 2 s else s in
    if leading && bool_decide (s = EmptyString) then Some (Addr6 0 zone)
    else
      '(groups, ellipsis, rest) ← parse_groups 8 [] (if leading then Some 0%nat else None) s;
      if negb (bool_decide (rest = EmptyString)) then None
      else
        groups ← expand_ellipsis groups ellipsis;
        Some (Addr6 (digits_value 65536 groups) zone).

Fixpoint ParseAddr_scan (input s : string) : option Addr :=
  match s with
  | EmptyString => None
  | String c rest =>
      if bool_decide (c = "."%char) then parseIPv4 input
      else if bool_decide (c = ":"%char) then parseIPv6 input
      else if bool_decide (c = "%"%char) then None
      else ParseAddr_scan input rest
  end.

Definition netip_ParseAddr (s : string) : option Addr := ParseAddr_scan s s.

(** The text before and after the last slash. *)
Fixpoint cut_last_slash (s : string) : option (string * string) :=
  match s with
  | EmptyString => None
  | String c rest =>
      match cut_last_slash rest with
      | Some (before, after) => Some (String c before, after)
      | None => if bool_decide (c = "/"%char) then Some (EmptyString, rest) else None
      end
  end.

Definition netip_ParsePrefix (s : string) : option Prefix :=
  '(addr, bits_text) ← cut_last_slash s;
  ip ← netip_ParseAddr addr;
  if addr_hasZone ip then None
  else
    let leading := match bits_text with
      | String c (String _ _) => negb (bool_decide (digit c = None)) && negb (bool_decide (digit c = Some 0))
      | _ => true
      end in
    if negb leading then None
    else
      bits ← ParseInt bits_text;
      if (bits <? 0) || (addr_BitLen ip <? bits) then None
      else Some (netip_PrefixFrom ip bits).

#[global] Arguments netip_ParseAddr : simpl never.
#[global] Arguments netip_ParsePrefix : simpl never.

(** ** Parsed addresses *)

Lemma parseIPv4Fields_octets octets val digLen s fields :
  Forall (λ d, 0 ≤ d < 256) octets → 0 ≤ val < 256 → (length octets ≤ 3)%nat →
  parseIPv4Fields octets val digLen s = Some fields → length fields = 4%nat ∧ Forall (λ d, 0 ≤ d < 256) fields.
Proof.
  revert octets val digLen. induction s as [|c s IH]; intros octets val digLen Ho Hv Hl; simpl.
  - destruct (Nat.ltb_spec (length octets) 3); [done|]. intros [= <-]. rewrite length_app, Forall_app, Forall_singleton.
    simpl. split; [lia|done].
  - destruct (digit c) as [d|] eqn:Ed.
    + destruct (_ && _); [done|]. destruct (Z.ltb_spec 255 (val * 10 + d)); [done|]. pose proof (digit_range _ _ Ed).
      apply IH; [done|lia|done].
    + destruct (negb _); [done|]. destruct (_ || _); [done|]. destruct (Nat.eqb_spec (length octets) 3); [done|].
      apply IH; [by apply Forall_app; split; [|constructor]|lia|rewrite length_app; simpl; lia].
Qed.

Lemma hex_digit_range c d : hex_digit_value c = Some d → 0 ≤ d < 16.
Proof. unfold hex_digit_value. repeat case_match; intros; simplify_eq; reflect_bools; lia. Qed.

Lemma parse_group_range off acc s acc' off' rest :
  0 ≤ acc < 65536 → parse_group off acc s = Some (acc', off', rest) → 0 ≤ acc' < 65536.
Proof.
  revert off acc. induction s as [|c s IH]; intros off acc Ha; simpl; [by intros [= <- _ _]|].
  destruct (hex_digit_value c) as [d|] eqn:Ed; [|by intros [= <- _ _]]. pose proof (hex_digit_range _ _ Ed).
  destruct (3 <? off); [done|]. destruct (Z.ltb_spec 65535 (acc * 16 + d)); [done|]. apply IH. lia.
Qed.

Definition groups_ok (groups : list Z) : Prop := Forall (λ g, 0 ≤ g < 65536) groups.

Lemma parse_groups_ok fuel groups ellipsis s groups' ellipsis' rest :
  groups_ok groups → (length groups + fuel = 8)%nat →
  parse_groups fuel groups ellipsis s = Some (groups', ellipsis', rest) → groups_ok groups' ∧ (length groups' ≤ 8)%nat.
Proof.
  revert groups ellipsis s. induction fuel as [|fuel IH]; intros groups ellipsis s Hg Hf.
  { simpl. intros [= <- _ _]. split; [done|lia]. }
  cbn [parse_groups]. destruct (parse_group 0 0 s) as [[[acc off] more]|] eqn:Eg; simpl; [|done].
  apply parse_group_range in Eg; [|lia]. destruct (off =? 0); [done|].
  assert (groups_ok (groups ++ [acc])) as Hg' by (apply Forall_app; by split; [|constructor]).
  assert (length (groups ++ [acc]) + fuel = 8)%nat as Hf' by (rewrite length_app; simpl; lia).
  destruct more as [|c more]; [intros [= <- _ _]; split; [done|lia]|].
  destruct (bool_decide (c = "."%char)).
  - destruct (_ && _); [done|]. destruct (Nat.ltb_spec 8 (length groups + 2)); [done|].
    destruct (parseIPv4Fields [] 0 0 s) as [octets|] eqn:Eo; simpl; [|done].
    destruct octets as [|o1 [|o2 [|o3 [|o4 [|]]]]]; try done. intros [= <- _ _].
    apply parseIPv4Fields_octets in Eo as [_ Ho]; [|done|lia|simpl; lia]. rewrite !Forall_cons in Ho.
    destruct Ho as (? & ? & ? & ? & _). rewrite length_app. split; [|simpl; lia].
    apply Forall_app. split; [done|]. repeat constructor; lia.
  - destruct (negb _); [done|]. destruct more as [|c' more]; [done|]. destruct (bool_decide (c' = ":"%char)).
    + destruct (bool_decide (is_Some ellipsis)); [done|]. destruct (bool_decide (more = EmptyString)).
      * intros [= <- _ _]. split; [done|lia].
      * by apply IH.
    + by apply IH.
Qed.

Lemma expand_ellipsis_ok groups ellipsis groups' :
  groups_ok groups → (length groups ≤ 8)%nat → expand_ellipsis groups ellipsis = Some groups' →
  groups_ok groups' ∧ length groups' = 8%nat.
Proof.
  intros Hg Hl. unfold expand_ellipsis. destruct (Nat.ltb_spec (length groups) 8).
  - destruct ellipsis as [position|]; simpl; [|done]. intros [= <-]. split.
    + apply Forall_app. split; [by apply Forall_take|]. apply Forall_app. split; [by apply Forall_replicate|by apply Forall_drop].
    + rewrite !length_app, length_replicate, length_take, length_drop. lia.
  - destruct ellipsis; [done|]. intros [= <-]. split; [done|lia].
Qed.

Lemma parseIPv4_ok s ip : parseIPv4 s = Some ip → addr_ok ip ∧ ip ≠ AddrZero.
Proof.
  unfold parseIPv4. destruct (parseIPv4Fields [] 0 0 s) as [octets|] eqn:E; simpl; [|done]. intros [= <-]. split; [|done].
  apply parseIPv4Fields_octets in E as [Hl Ho]; [|done|lia|simpl; lia].
  pose proof (digits_value_range 256 octets ltac:(lia) Ho) as Hr. rewrite Hl in Hr. exact Hr.
Qed.

Lemma parseIPv6_ok s ip : parseIPv6 s = Some ip → addr_ok ip ∧ ip ≠ AddrZero.
Proof.
  unfold parseIPv6. destruct (cut_at _ s) as [text zone]. destruct (bool_decide _); [done|].
  destruct (_ && _); [by intros [= <-]|]. destruct (parse_groups _ _ _ _) as [[[groups ellipsis] rest]|] eqn:E; simpl; [|done].
  destruct (negb _); [done|]. destruct (expand_ellipsis groups ellipsis) as [groups'|] eqn:Ee; simpl; [|done]. intros [= <-].
  split; [|done]. apply parse_groups_ok in E as [Hg Hl]; [|constructor|done].
  apply expand_ellipsis_ok in Ee as [Hg' Hl']; [|done..].
  pose proof (digits_value_range 65536 groups' ltac:(lia) Hg') as Hr. rewrite Hl' in Hr. exact Hr.
Qed.

(** Parsed addresses are addresses of their family, and never the zero value. *)
Lemma ParseAddr_ok s ip : netip_ParseAddr s = Some ip → addr_ok ip ∧ ip ≠ AddrZero.
Proof.
  unfold netip_ParseAddr. generalize s at 2 as rest. induction rest as [|c rest IH]; cbn [ParseAddr_scan]; [done|].
  destruct (bool_decide _); [apply parseIPv4_ok|]. destruct (bool_decide _); [apply parseIPv6_ok|].
  by destruct (bool_decide _).
Qed.

(** Parsed prefixes are valid, so [Contains] compares their leading bits. *)
Lemma ParsePrefix_ok s p : netip_ParsePrefix s = Some p → prefix_ok p ∧ prefix_IsValid p = true.
Proof.
  unfold netip_ParsePrefix. destruct (cut_last_slash s) as [[addr text]|]; simpl; [|done].
  destruct (netip_ParseAddr addr) as [ip|] eqn:E; simpl; [|done]. apply ParseAddr_ok in E as [Hok Hz].
  destruct (addr_hasZone ip) eqn:Hzone; [done|]. case_match; [done|]. destruct (ParseInt text) as [bits|]; simpl; [|done].
  destruct (_ || _) eqn:Hr; [done|]. intros [= <-]. reflect_bools. unfold netip_PrefixFrom, prefix_ok, prefix_IsValid. simpl.
  rewrite bool_decide_false by done. rewrite (proj2 (Z.leb_le 0 bits)), (proj2 (Z.leb_le bits _)) by lia. simpl.
  destruct ip as [|b|b z]; [done|..]; simpl in *; (split; [|by apply Z.ltb_lt; lia]); (split_and!; [done|done|lia|lia|done]).
Qed.

(** ** Examples *)

Example parse_v4 : netip_ParseAddr "192.168.0.1" = Some (Addr4 3232235521).
Proof. vm_compute. reflexivity. Qed.

Example parse_v6 : netip_ParseAddr "fe80::1%eth0" = Some (Addr6 (0xfe80 * 2 ^ 112 + 1) "eth0").
Proof. vm_compute. reflexivity. Qed.

Example parse_embedded : netip_ParseAddr "::ffff:10.0.0.1" = Some (Addr6 (0xffff * 2 ^ 32 + 0x0a000001) "").
Proof. vm_compute. reflexivity. Qed.

Example parse_rejects :
  netip_ParseAddr <$> ["1.2.3"; "01.2.3.4"; "1.2.3.256"; "1::2::3"; "::1%"; "12345::"; "1:2:3:4:5:6:7:8::"; "10"] =
  replicate 8 None.
Proof. vm_compute. reflexivity. Qed.

Example parse_prefix : netip_ParsePrefix "10.0.0.0/8" = Some (mkPrefix (Addr4 167772160) 9).
Proof. vm_compute. reflexivity. Qed.

Example parse_prefix_rejects :
  netip_ParsePrefix <$> ["10.0.0.0/33"; "10.0.0.0/08"; "10.0.0.0/+8"; "10.0.0.0"; "fe80::%a/64"] = replicate 5 None.
Proof. vm_compute. reflexivity. Qed.
