(* ===== verification/TimeText.v ===== *)
(** * Calendar dates and RFC 3339 texts (package [time])

    [time.Date] in UTC and its inverse, [time.Parse] with the layouts RFC3339
    and RFC3339Nano, which accept the same texts, and the text that
    [Time.MarshalJSON] writes. An instant is the number of nanoseconds since
    January 1 of the year 1; the location of a [time.Time] only matters for
    its text, and is given by the offset it has from UTC, in seconds. *)

From Stdlib Require Import Ascii.
From S2P Require Import Prelude Strconv GoStrings.

#[local] Open Scope Z_scope.

(** ** The calendar *)

Definition isLeap (year : Z) : bool := (year mod 4 =? 0) && (negb (year mod 100 =? 0) || (year mod 400 =? 0)).

(** Days before a year, from January 1 of the year 1. *)
Definition daysBeforeYear (year : Z) : Z :=
  365 * (year - 1) + (year - 1) / 4 - (year - 1) / 100 + (year - 1) / 400.

Definition daysInMonth (leap : bool) (month : Z) : Z :=
  if month =? 2 then if leap then 29 else 28
  else if (month =? 4) || (month =? 6) || (month =? 9) || (month =? 11) then 30 else 31.

(** Days of a year before a month. *)
Definition daysBefore (leap : bool) (month : Z) : Z :=
  foldr (λ m days, if (m <? month) then daysInMonth leap m + days else days) 0 [1; 2; 3; 4; 5; 6; 7; 8; 9; 10; 11; 12].

Definition nanos_per_second : Z := 10 ^ 9.

(** [time.Date] with all fields in range. *)
Definition time_Date (year month day hour minute sec nsec : Z) : Time :=
  let days := daysBeforeYear year + daysBefore (isLeap year) month + day - 1 in
  ((days * 86400 + hour * 3600 + minute * 60 + sec) * nanos_per_second + nsec).

(** Year and day of the year, cutting off cycles of 400, 100, 4 and 1 years;
    the last cycle of 100 or of 1 years can be a day longer. *)
Definition year_and_day (days : Z) : Z * Z :=
  let n400 := days / 146097 in
  let d := days mod 146097 in
  let n100 := Z.min 3 (d / 36524) in
  let d := d - 36524 * n100 in
  let n4 := d / 1461 in
  let d := d - 1461 * n4 in
  let n1 := Z.min 3 (d / 365) in
  (400 * n400 + 100 * n100 + 4 * n4 + n1 + 1, d - 365 * n1).

(** Month and day of a day of the year. *)
Fixpoint month_and_day (leap : bool) (months : list Z) (yday : Z) : Z * Z :=
  match months with
  | [] => (12, yday + 1)
  | m :: months =>
      if yday <? daysInMonth leap m then (m, yday + 1) else month_and_day leap months (yday - daysInMonth leap m)
  end.

(** ** Calendar lemmas *)

Lemma year_and_day_spec days year yday :
  year_and_day days = (year, yday) →
  daysBeforeYear year + yday = days ∧ 0 ≤ yday < 365 + (if isLeap year then 1 else 0).
Proof.
  unfold year_and_day. set (n400 := days / 146097). set (d := days mod 146097).
  set (n100 := Z.min 3 (d / 36524)). set (d1 := d - 36524 * n100). set (n4 := d1 / 1461). set (d2 := d1 - 1461 * n4).
  set (n1 := Z.min 3 (d2 / 365)). intros [= <- <-].
  pose proof (Z.div_mod days 146097 ltac:(lia)) as Hdays. pose proof (Z.mod_pos_bound days 146097 ltac:(lia)) as Hd.
  pose proof (Z.div_mod d 36524 ltac:(lia)) as H100. pose proof (Z.mod_pos_bound d 36524 ltac:(lia)) as Hm100.
  pose proof (Z.div_mod d1 1461 ltac:(lia)) as H4. pose proof (Z.mod_pos_bound d1 1461 ltac:(lia)) as Hm4.
  pose proof (Z.div_mod d2 365 ltac:(lia)) as H1. pose proof (Z.mod_pos_bound d2 365 ltac:(lia)) as Hm1.
  fold n400 d in Hdays. fold n4 in H4.
  assert (0 ≤ n100 ≤ 3 ∧ 0 ≤ d1 ∧ (n100 < 3 → d1 < 36524) ∧ d1 ≤ 36524) as (? & ? & ? & ?) by lia.
  assert (0 ≤ n4 ≤ 24 ∧ 0 ≤ d2 < 1461 ∧ (n4 = 24 → n100 < 3 → d2 < 1460)) as (? & ? & ?) by lia.
  assert (0 ≤ n1 ≤ 3 ∧ 0 ≤ d2 - 365 * n1 ≤ 365 ∧ (n1 < 3 → d2 - 365 * n1 < 365)) as (? & ? & ?) by lia.
  set (y := 400 * n400 + 100 * n100 + 4 * n4 + n1).
  assert (y / 4 = 100 * n400 + 25 * n100 + n4) as E4 by (symmetry; apply (Z.div_unique _ _ _ n1); lia).
  assert (y / 100 = 4 * n400 + n100) as E100 by (symmetry; apply (Z.div_unique _ _ _ (4 * n4 + n1)); lia).
  assert (y / 400 = n400) as E400 by (symmetry; apply (Z.div_unique _ _ _ (100 * n100 + 4 * n4 + n1)); lia).
  unfold daysBeforeYear. replace (y + 1 - 1) with y by lia. rewrite E4, E100, E400. split; [lia|].
  destruct (decide (d2 - 365 * n1 = 365)); [|destruct (isLeap _); lia].
  assert (isLeap (y + 1) = true) as ->; [|lia]. unfold isLeap.
  rewrite <- (Z.mod_unique (y + 1) 4 (100 * n400 + 25 * n100 + n4 + 1) 0) by lia. simpl.
  destruct (decide (n4 = 24)) as [En4|].
  - rewrite <- (Z.mod_unique (y + 1) 400 (n400 + 1) 0) by lia. apply orb_true_r.
  - rewrite <- (Z.mod_unique (y + 1) 100 (4 * n400 + n100) (4 * n4 + 4)) by lia.
    by rewrite (proj2 (Z.eqb_neq _ _)) by lia.
Qed.

(** A day of the year is found again among the months. *)
Definition all_days : list Z := Z.of_nat <$> seq 0 366.
Definition months : list Z := [1; 2; 3; 4; 5; 6; 7; 8; 9; 10; 11; 12].

Lemma month_and_day_spec (leap : bool) yday month day :
  0 ≤ yday < 365 + (if leap then 1 else 0) → month_and_day leap months yday = (month, day) →
  1 ≤ month ≤ 12 ∧ 1 ≤ day ≤ daysInMonth leap month ∧ daysBefore leap month + day - 1 = yday.
Proof.
  intros Hy E.
  assert (forallb (λ yday, let '(month, day) := month_and_day leap months yday in
    (365 + (if leap then 1 else 0) <=? yday) ||
    (1 <=? month) && (month <=? 12) && (1 <=? day) && (day <=? daysInMonth leap month) &&
    (daysBefore leap month + day - 1 =? yday)) all_days = true) as Hall by (by destruct leap; vm_compute).
  rewrite forallb_forall in Hall. specialize (Hall yday). rewrite E in Hall.
  assert (yday ∈ all_days) as Hin.
  { apply list_elem_of_fmap. exists (Z.to_nat yday). rewrite elem_of_seq. destruct leap; lia. }
  apply list_elem_of_In in Hin. specialize (Hall Hin). reflect_bools. destruct Hall as [Hall|Hall]; reflect_bools; lia.
Qed.

(** The fields of an instant in UTC. *)
Record fields := mkFields { f_year : Z; f_month : Z; f_day : Z; f_hour : Z; f_minute : Z; f_sec : Z; f_nsec : Z }.

Definition time_fields (t : Time) : fields :=
  let nsec := t mod nanos_per_second in
  let seconds := t / nanos_per_second in
  let second_of_day := seconds mod 86400 in
  let '(year, yday) := year_and_day (seconds / 86400) in
  let '(month, day) := month_and_day (isLeap year) months yday in
  mkFields year month day (second_of_day / 3600) (second_of_day mod 3600 / 60) (second_of_day mod 60) nsec.

Definition fields_time (f : fields) : Time :=
  time_Date (f_year f) (f_month f) (f_day f) (f_hour f) (f_minute f) (f_sec f) (f_nsec f).

Record fields_ok (f : fields) : Prop := {
  ok_month : 1 ≤ f_month f ≤ 12;
  ok_day : 1 ≤ f_day f ≤ daysInMonth (isLeap (f_year f)) (f_month f);
  ok_hour : 0 ≤ f_hour f < 24;
  ok_minute : 0 ≤ f_minute f < 60;
  ok_sec : 0 ≤ f_sec f < 60;
  ok_nsec : 0 ≤ f_nsec f < nanos_per_second
}.

(** [Date] inverts the decomposition of an instant. *)
Lemma time_fields_spec t : fields_ok (time_fields t) ∧ fields_time (time_fields t) = t.
Proof.
  unfold time_fields. set (seconds := t / nanos_per_second). set (sod := seconds mod 86400).
  destruct (year_and_day (seconds / 86400)) as [year yday] eqn:Ey. destruct (month_and_day _ _ yday) as [month day] eqn:Em.
  apply year_and_day_spec in Ey as [Hdays Hy]. apply month_and_day_spec in Em as (Hm & Hd & Hyday); [|done].
  pose proof (Z.mod_pos_bound t nanos_per_second eq_refl) as Hns. pose proof (Z.mod_pos_bound seconds 86400 eq_refl) as Hsod.
  fold sod in Hsod. split.
  - split; cbn [f_year f_month f_day f_hour f_minute f_sec f_nsec]; [done|done|..|done]; Z.to_euclidean_division_equations; lia.
  - unfold fields_time, time_Date. cbn [f_year f_month f_day f_hour f_minute f_sec f_nsec].
    replace (daysBeforeYear year + daysBefore (isLeap year) month + day - 1) with (seconds / 86400) by lia.
    assert (sod = sod / 3600 * 3600 + sod mod 3600 / 60 * 60 + sod mod 60) as Es by (Z.to_euclidean_division_equations; lia).
    pose proof (Z.div_mod seconds 86400 ltac:(lia)) as Eseconds. fold sod in Eseconds.
    pose proof (Z.div_mod t nanos_per_second ltac:(done)) as Et. fold seconds in Et. nia.
Qed.

(** ** Parsing *)

(** Two digits, or with [fixed] unset one. *)
Definition getnum (fixed : bool) (s : string) : option (Z * string) :=
  match s with
  | String c rest =>
      d ← digit c;
      match rest with
      | String c' rest' =>
          match digit c' with
          | Some d' => Some (10 * d + d', rest')
          | None => if fixed then None else Some (d, rest)
          end
      | EmptyString => if fixed then None else Some (d, rest)
      end
  | EmptyString => None
  end.

Definition skip (c : ascii) (s : string) : option string :=
  match s with String c' rest => if bool_decide (c' = c) then Some rest else None | EmptyString => None end.

(** [parseNanoseconds]: the first nine digits count. *)
Definition nanoseconds (digits : list Z) : Z :=
  let digits := take 9 digits in
  digits_value 10 digits * 10 ^ Z.of_nat (9 - length digits).

(** An optional fraction of a second, after a period or a comma. *)
Definition parse_fraction (s : string) : Z * string :=
  match s with
  | String c rest =>
      let '(digits, rest) := span_digits rest in
      if (bool_decide (c = "."%char) || bool_decide (c = ","%char)) && negb (bool_decide (digits = []))
      then (nanoseconds digits, rest) else (0, s)
  | EmptyString => (0, s)
  end.

(** The offset of the zone in seconds; hours up to 24 and minutes up to 60 are
    accepted. *)
Definition parse_zone (s : string) : option (Z * string) :=
  match s with
  | String c rest =>
      if bool_decide (c = "Z"%char) then Some (0, rest)
      else
        '(hours, rest) ← getnum true rest;
        rest ← skip ":" rest;
        '(minutes, rest) ← getnum true rest;
        if (24 <? hours) || (60 <? minutes) then None
        else
          let offset := (hours * 60 + minutes) * 60 in
          if bool_decide (c = "+"%char) then Some (offset, rest)
          else if bool_decide (c = "-"%char) then Some (- offset, rest) else None
  | EmptyString => None
  end.

Definition in_range (low z high : Z) : option unit := if (low <=? z) && (z <=? high) then Some () else None.

(** [time.Parse(time.RFC3339Nano, s)]; the hour may have one digit. *)
Definition time_Parse (s : string) : option Time :=
  '(century, s) ← getnum true s;
  '(rest_of_year, s) ← getnum true s;
  let year := century * 100 + rest_of_year in
  s ← skip "-" s;
  '(month, s) ← getnum true s;
  s ← skip "-" s;
  '(day, s) ← getnum true s;
  s ← skip "T" s;
  '(hour, s) ← getnum false s;
  s ← skip ":" s;
  '(minute, s) ← getnum true s;
  s ← skip ":" s;
  '(sec, s) ← getnum true s;
  let '(nsec, s) := parse_fraction s in
  '(offset, s) ← parse_zone s;
  in_range 1 month 12;;
  in_range 1 day (daysInMonth (isLeap year) month);;
  in_range 0 hour 23;;
  in_range 0 minute 59;;
  in_range 0 sec 59;;
  if bool_decide (s = EmptyString)
  then Some (time_Date year month day hour minute sec nsec - offset * nanos_per_second) else None.

#[global] Arguments time_Parse : simpl never.

(** ** Printing *)

Fixpoint trim_zeros (digits : list Z) : list Z :=
  match digits with
  | [] => []
  | d :: ds => match trim_zeros ds with [] => if d =? 0 then [] else [d] | ds => d :: ds end
  end.

Definition pad (n : nat) (z : Z) : string := digits_text (decimal_digits n z).

(** [appendNano]: no fraction, or one without trailing zeros. *)
Definition fraction_text (nsec : Z) : string :=
  match trim_zeros (decimal_digits 9 nsec) with [] => EmptyString | digits => "." +:+ digits_text digits end.

Definition zone_text (offset : Z) : string :=
  if offset =? 0 then "Z"
  else
    let zone := Z.quot offset 60 in
    (if zone <? 0 then "-" else "+") +:+ pad 2 (Z.abs zone / 60) +:+ ":" +:+ pad 2 (Z.abs zone mod 60).

(** [appendStrictRFC3339] of an instant at an offset: the year has four digits
    and the hours of the offset two. *)
Definition rfc3339 (offset : Z) (t : Time) : option string :=
  let f := time_fields (t + offset * nanos_per_second) in
  in_range 0 (f_year f) 9999;;
  in_range 0 (Z.abs (Z.quot offset 60) / 60) 23;;
  Some (pad 4 (f_year f) +:+ "-" +:+ pad 2 (f_month f) +:+ "-" +:+ pad 2 (f_day f) +:+ "T" +:+
    pad 2 (f_hour f) +:+ ":" +:+ pad 2 (f_minute f) +:+ ":" +:+ pad 2 (f_sec f) +:+
    fraction_text (f_nsec f) +:+ zone_text offset).

(** ** Round trip *)

Lemma getnum_pad fixed z s : 0 ≤ z < 100 → getnum fixed (pad 2 z +:+ s) = Some (z, s).
Proof.
  intros Hz. unfold pad. cbn [decimal_digits app digits_text foldr].
  change (String (digit_char (z / 10 mod 10)) (String (digit_char (z mod 10)) "") +:+ s)
    with (String (digit_char (z / 10 mod 10)) (String (digit_char (z mod 10)) s)).
  cbn [getnum]. rewrite !digit_digit_char by (by apply Z.mod_pos_bound). simpl. f_equal. f_equal.
  Z.to_euclidean_division_equations. lia.
Qed.

Lemma pad_4 z : pad 4 z = pad 2 (z / 100) +:+ pad 2 (z mod 100).
Proof.
  unfold pad. cbn [decimal_digits app]. rewrite !Z.div_div by lia. change (10 * 10) with 100. change (100 * 10) with 1000.
  assert (z mod 100 / 10 mod 10 = z / 10 mod 10) as -> by (Z.to_euclidean_division_equations; lia).
  assert (z mod 100 mod 10 = z mod 10) as -> by (Z.to_euclidean_division_equations; lia). done.
Qed.

Lemma skip_char c s : skip c (String c s) = Some s.
Proof. cbn. by rewrite bool_decide_eq_true_2. Qed.

Lemma trim_zeros_value ds :
  digits_value 10 (trim_zeros ds) * 10 ^ Z.of_nat (length ds - length (trim_zeros ds)) = digits_value 10 ds ∧
  (length (trim_zeros ds) ≤ length ds)%nat.
Proof.
  induction ds as [|d ds [IH Hl]]; [done|]. cbn [trim_zeros]. change (d :: ds) with ([d] ++ ds).
  rewrite digits_value_app, <- IH. destruct (trim_zeros ds) as [|d' ds'] eqn:E.
  - destruct (Z.eqb_spec d 0) as [->|]; [split; [done|simpl; lia]|]. split; [|simpl; lia]. simpl length.
    rewrite Nat.sub_0_r. change (S (length ds) - 1)%nat with (length ds - 0)%nat. rewrite Nat.sub_0_r.
    change (digits_value 10 []) with 0. lia.
  - split; [|simpl in *; lia]. change (d :: d' :: ds') with ([d] ++ (d' :: ds')). rewrite digits_value_app, length_app.
    change (length [d] + length (d' :: ds'))%nat with (S (length (d' :: ds'))). cbn [app length]. rewrite Nat.sub_succ.
    simpl length in Hl. rewrite Z.mul_add_distr_r, <- Z.mul_assoc, <- Z.pow_add_r by lia. do 3 f_equal. lia.
Qed.

Lemma trim_zeros_range ds : Forall (λ d, 0 ≤ d < 10) ds → Forall (λ d, 0 ≤ d < 10) (trim_zeros ds).
Proof.
  induction 1 as [|d ds Hd _ IH]; cbn [trim_zeros]; [constructor|].
  destruct (trim_zeros ds); [destruct (d =? 0)|]; repeat (apply Forall_nil || apply Forall_cons); done.
Qed.

Lemma fraction_read nsec s :
  0 ≤ nsec < nanos_per_second → (∀ c rest, s = String c rest → digit c = None ∧ c ≠ "."%char ∧ c ≠ ","%char) →
  parse_fraction (fraction_text nsec +:+ s) = (nsec, s).
Proof.
  intros Hn Hs. unfold fraction_text. pose proof (trim_zeros_value (decimal_digits 9 nsec)) as [Hv Hl].
  rewrite decimal_digits_value, decimal_digits_length in Hv by done. rewrite decimal_digits_length in Hl.
  pose proof (trim_zeros_range _ (decimal_digits_range 9 nsec)) as Hr.
  destruct (trim_zeros (decimal_digits 9 nsec)) as [|d ds].
  - change (digits_value 10 []) with 0 in Hv. change ("" +:+ s) with s. destruct s as [|c s]; cbn [parse_fraction]; [by rewrite <- Hv|].
    destruct (Hs c s eq_refl) as (_ & ? & ?). destruct (span_digits s). rewrite !bool_decide_eq_false_2 by done.
    simpl. by rewrite <- Hv.
  - change (("." +:+ digits_text (d :: ds)) +:+ s) with (String "."%char (digits_text (d :: ds) +:+ s)).
    cbn [parse_fraction]. rewrite span_digits_text by (done || intros; by eapply Hs).
    rewrite (bool_decide_eq_true_2 ("."%char = "."%char)), (bool_decide_eq_false_2 (_ :: _ = [])) by done. cbn [orb andb negb].
    unfold nanoseconds. rewrite take_ge by lia. by rewrite Hv.
Qed.

Lemma in_range_Some low z high : low ≤ z ≤ high → in_range low z high = Some ().
Proof. intros ?. unfold in_range. by rewrite (proj2 (Z.leb_le _ _)), (proj2 (Z.leb_le _ _)) by lia. Qed.

Lemma in_range_inv low z high u : in_range low z high = Some u → low ≤ z ≤ high.
Proof. unfold in_range. case_match; [|done]. reflect_bools. lia. Qed.

Lemma zone_read offset s :
  (60 | offset) → Z.abs (Z.quot offset 60) / 60 ≤ 23 → parse_zone (zone_text offset +:+ s) = Some (offset, s).
Proof.
  intros [zone ->] Hh. unfold zone_text. rewrite Z.quot_mul in * by done. destruct (Z.eqb_spec (zone * 60) 0) as [E|Hne].
  { change ("Z" +:+ s) with (String "Z"%char s). cbn [parse_zone]. rewrite bool_decide_eq_true_2 by done. by rewrite E. }
  pose proof (Z.mod_pos_bound (Z.abs zone) 60 ltac:(lia)). pose proof (Z.div_mod (Z.abs zone) 60 ltac:(lia)).
  assert (0 ≤ Z.abs zone / 60) by (apply Z.div_pos; lia).
  destruct (Z.ltb_spec zone 0);
    [change (("-" +:+ ?a) +:+ s) with (String "-"%char (a +:+ s))|change (("+" +:+ ?a) +:+ s) with (String "+"%char (a +:+ s))];
    cbn [parse_zone]; rewrite bool_decide_eq_false_2 by done; rewrite string_app_assoc, getnum_pad by lia; cbn [mbind option_bind];
    change ((":" +:+ ?a) +:+ s) with (String ":"%char (a +:+ s)); rewrite skip_char; cbn [mbind option_bind];
    rewrite getnum_pad by lia; cbn [mbind option_bind]; rewrite (proj2 (Z.ltb_ge 24 _)), (proj2 (Z.ltb_ge 60 _)) by lia; cbn [orb].
  - rewrite bool_decide_eq_false_2, bool_decide_eq_true_2 by done. do 2 f_equal. lia.
  - rewrite bool_decide_eq_true_2 by done. do 2 f_equal. lia.
Qed.

Lemma zone_starts offset c s rest :
  zone_text offset +:+ s = String c rest → digit c = None ∧ c ≠ "."%char ∧ c ≠ ","%char.
Proof. unfold zone_text. destruct (_ =? 0); [by intros [= <- _]|]. destruct (_ <? 0); by intros [= <- _]. Qed.

(** One step of the parser. *)
Lemma getnum_then {B} fixed z s (k : Z * string → option B) : 0 ≤ z < 100 → (getnum fixed (pad 2 z +:+ s) ≫= k) = k (z, s).
Proof. intros Hz. by rewrite getnum_pad. Qed.

Lemma skip_then {B} c s (k : string → option B) : (skip c (String c EmptyString +:+ s) ≫= k) = k s.
Proof. change (String c EmptyString +:+ s) with (String c s). by rewrite skip_char. Qed.

Lemma in_range_then {B} low z high (k : option B) : low ≤ z ≤ high → (in_range low z high ;; k) = k.
Proof. intros Hz. by rewrite in_range_Some. Qed.

Definition fields_text (f : fields) (zone : string) : string :=
  pad 2 (f_year f / 100) +:+ pad 2 (f_year f mod 100) +:+ "-" +:+ pad 2 (f_month f) +:+ "-" +:+ pad 2 (f_day f) +:+
  "T" +:+ pad 2 (f_hour f) +:+ ":" +:+ pad 2 (f_minute f) +:+ ":" +:+ pad 2 (f_sec f) +:+ fraction_text (f_nsec f) +:+ zone.

Lemma rfc3339_inv offset t text :
  rfc3339 offset t = Some text →
  let f := time_fields (t + offset * nanos_per_second) in
  0 ≤ f_year f ≤ 9999 ∧ Z.abs (Z.quot offset 60) / 60 ≤ 23 ∧
  text = fields_text f (zone_text offset +:+ "").
Proof.
  unfold rfc3339. cbn zeta. destruct (in_range 0 (f_year _) 9999) eqn:Ey; [|done]. apply in_range_inv in Ey.
  cbn [mbind option_bind]. destruct (in_range 0 (Z.abs _ / 60) 23) eqn:Eh; [|done]. apply in_range_inv in Eh.
  intros [= <-]. split; [done|]. split; [lia|]. unfold fields_text.
  by rewrite pad_4, string_app_assoc, string_app_nil_r.
Qed.

Lemma fields_text_Parse f offset :
  fields_ok f → 0 ≤ f_year f ≤ 9999 → (60 | offset) → Z.abs (Z.quot offset 60) / 60 ≤ 23 →
  time_Parse (fields_text f (zone_text offset +:+ "")) = Some (fields_time f - offset * nanos_per_second).
Proof.
  intros [Hm Hd Hh Hmi Hs Hn] Hy Hoff Hzone. assert (daysInMonth (isLeap (f_year f)) (f_month f) ≤ 31).
  { unfold daysInMonth. repeat case_match; lia. }
  assert (f_year f / 100 * 100 + f_year f mod 100 = f_year f) as Eyear by (Z.to_euclidean_division_equations; lia).
  pose proof (Z.mod_pos_bound (f_year f) 100 ltac:(lia)).
  assert (0 ≤ f_year f / 100 < 100) by (split; [apply Z.div_pos; lia|apply Z.div_lt_upper_bound; lia]).
  unfold time_Parse, fields_text. repeat (first [rewrite getnum_then by lia|rewrite skip_then]; cbv beta iota).
  rewrite fraction_read by (exact Hn || (intros ? ?; apply zone_starts)). cbv beta iota.
  rewrite zone_read by assumption. cbn [mbind option_bind]. cbv zeta. rewrite Eyear.
  rewrite !in_range_then by lia. rewrite bool_decide_eq_true_2 by reflexivity. reflexivity.
Qed.

(** What is printed parses to the same instant, unless the offset of the
    location has seconds, which are not printed. *)
Lemma rfc3339_Parse offset t text : (60 | offset) → rfc3339 offset t = Some text → time_Parse text = Some t.
Proof.
  intros Hoff (Hy & Hzone & ->)%rfc3339_inv. pose proof (time_fields_spec (t + offset * nanos_per_second)) as [Hok Ht].
  pose proof (fields_text_Parse _ offset Hok Hy Hoff Hzone) as Hp. rewrite Ht in Hp. 
  refine (eq_trans Hp _). f_equal. lia.
Qed.

(** ** Examples *)

Example parse_instants :
  time_Parse <$> ["0001-01-01T00:00:00Z"; "1970-01-01T00:00:00Z"; "2024-02-29T23:59:59.5+01:00"; "2024-02-29T3:00:00,25Z"] =
  [Some 0; Some (62135596800 * 10 ^ 9); Some (63844844399 * 10 ^ 9 + 5 * 10 ^ 8); Some (63844772400 * 10 ^ 9 + 25 * 10 ^ 7)].
Proof. vm_compute. reflexivity. Qed.

Example parse_instants_rejected :
  time_Parse <$> ["2023-02-29T00:00:00Z"; "2024-01-01 00:00:00Z"; "2024-01-01T24:00:00Z"; "2024-01-01T00:00:00"; "24-01-01T00:00:00Z"] =
  replicate 5 None.
Proof. vm_compute. reflexivity. Qed.

Example print_instants :
  rfc3339 0 (62135596800 * 10 ^ 9 + 120) = Some "1970-01-01T00:00:00.00000012Z" ∧
  rfc3339 (-19800) (62135596800 * 10 ^ 9) = Some "1969-12-31T18:30:00-05:30" ∧
  rfc3339 0 (400000 * 86400 * 10 ^ 9 * 10) = None.
Proof. vm_compute. auto. Qed.
