(* ===== verification/JSON.v ===== *)
(** * JSON syntax (encoding/json)

    [json.Valid], as the byte-driven scanner of [encoding/json]: a state, a
    stack of the enclosing objects and arrays, one transition per byte. Used
    by the manifest validation, which looks at raw documents before any
    model decodes them. Also [bytes.TrimSpace]. *)

From S2P Require Import Prelude GoStrings.
From Stdlib Require Import Ascii.

#[local] Open Scope nat_scope.

(** ** The scanner *)

(** What encloses the current position. *)
Inductive parse_state := parseObjectKey | parseObjectValue | parseArrayValue.

Inductive scan_state :=
| stateBeginValue
| stateBeginValueOrEmpty
| stateBeginString
| stateBeginStringOrEmpty
| stateEndValue
| stateEndTop
| stateInString
| stateInStringEsc
| stateInStringEscU (digits : nat)
| stateNeg
| state1
| state0
| stateDot
| stateDot0
| stateE
| stateESign
| stateE0
| stateLiteral (rest : string).

Definition maxNestingDepth : nat := 10 ^ 4.

Definition code (c : ascii) : nat := nat_of_ascii c.

Definition is_char (c : ascii) (expected : ascii) : bool := Ascii.eqb c expected.

Definition isSpace (c : ascii) : bool :=
  existsb (is_char c) [" "%char; ascii_of_nat 9; ascii_of_nat 13; ascii_of_nat 10].

Definition is_digit (c : ascii) : bool := (48 <=? code c) && (code c <=? 57).
Definition is_digit_1_9 (c : ascii) : bool := (49 <=? code c) && (code c <=? 57).

Definition is_hex (c : ascii) : bool :=
  is_digit c || ((97 <=? code c) && (code c <=? 102)) || ((65 <=? code c) && (code c <=? 70)).

(** A transition: the next state and stack, or the syntax error. *)
Definition transition : Type := option (scan_state * list parse_state).

Definition pushParseState (next : scan_state) (p : parse_state) (stack : list parse_state) : transition :=
  let stack := p :: stack in
  if length stack <=? maxNestingDepth then Some (next, stack) else None.

Definition popParseState (stack : list parse_state) : transition :=
  match stack with
  | [] | [_] => Some (stateEndTop, [])
  | _ :: stack => Some (stateEndValue, stack)
  end.

Definition step_EndTop (stack : list parse_state) (c : ascii) : transition :=
  if isSpace c then Some (stateEndTop, stack) else None.

Definition step_EndValue (stack : list parse_state) (c : ascii) : transition :=
  match stack with
  | [] => step_EndTop stack c
  | p :: enclosing =>
      if isSpace c then Some (stateEndValue, stack)
      else match p with
      | parseObjectKey =>
          if is_char c ":" then Some (stateBeginValue, parseObjectValue :: enclosing) else None
      | parseObjectValue =>
          if is_char c "," then Some (stateBeginString, parseObjectKey :: enclosing)
          else if is_char c "}" then popParseState stack else None
      | parseArrayValue =>
          if is_char c "," then Some (stateBeginValue, stack)
          else if is_char c "]" then popParseState stack else None
      end
  end.

Definition quote : ascii := ascii_of_nat 34.

Definition step_BeginString (stack : list parse_state) (c : ascii) : transition :=
  if isSpace c then Some (stateBeginString, stack)
  else if is_char c quote then Some (stateInString, stack) else None.

Definition step_BeginValue (stack : list parse_state) (c : ascii) : transition :=
  if isSpace c then Some (stateBeginValue, stack)
  else if is_char c "{" then pushParseState stateBeginStringOrEmpty parseObjectKey stack
  else if is_char c "[" then pushParseState stateBeginValueOrEmpty parseArrayValue stack
  else if is_char c quote then Some (stateInString, stack)
  else if is_char c "-" then Some (stateNeg, stack)
  else if is_char c "0" then Some (state0, stack)
  else if is_char c "t" then Some (stateLiteral "rue", stack)
  else if is_char c "f" then Some (stateLiteral "alse", stack)
  else if is_char c "n" then Some (stateLiteral "ull", stack)
  else if is_digit_1_9 c then Some (state1, stack)
  else None.

Definition is_exponent (c : ascii) : bool := is_char c "e" || is_char c "E".

Definition step_0 (stack : list parse_state) (c : ascii) : transition :=
  if is_char c "." then Some (stateDot, stack)
  else if is_exponent c then Some (stateE, stack)
  else step_EndValue stack c.

Definition step_ESign (stack : list parse_state) (c : ascii) : transition :=
  if is_digit c then Some (stateE0, stack) else None.

(** One byte. *)
Definition scan_step (st : scan_state) (stack : list parse_state) (c : ascii) : transition :=
  match st with
  | stateBeginValue => step_BeginValue stack c
  | stateBeginValueOrEmpty =>
      if isSpace c then Some (stateBeginValueOrEmpty, stack)
      else if is_char c "]" then step_EndValue stack c else step_BeginValue stack c
  | stateBeginString => step_BeginString stack c
  | stateBeginStringOrEmpty =>
      if isSpace c then Some (stateBeginStringOrEmpty, stack)
      else if is_char c "}" then step_EndValue (parseObjectValue :: tail stack) c
      else step_BeginString stack c
  | stateEndValue => step_EndValue stack c
  | stateEndTop => step_EndTop stack c
  | stateInString =>
      if is_char c quote then Some (stateEndValue, stack)
      else if is_char c "\" then Some (stateInStringEsc, stack)
      else if code c <? 32 then None
      else Some (stateInString, stack)
  | stateInStringEsc =>
      if existsb (is_char c) ["b"; "f"; "n"; "r"; "t"; "\"; "/"; quote]%char then Some (stateInString, stack)
      else if is_char c "u" then Some (stateInStringEscU 4, stack) else None
  | stateInStringEscU digits =>
      if is_hex c then
        Some (match digits with S (S digits) => stateInStringEscU (S digits) | _ => stateInString end, stack)
      else None
  | stateNeg =>
      if is_char c "0" then Some (state0, stack)
      else if is_digit_1_9 c then Some (state1, stack) else None
  | state1 => if is_digit c then Some (state1, stack) else step_0 stack c
  | state0 => step_0 stack c
  | stateDot => if is_digit c then Some (stateDot0, stack) else None
  | stateDot0 =>
      if is_digit c then Some (stateDot0, stack)
      else if is_exponent c then Some (stateE, stack) else step_EndValue stack c
  | stateE => if is_char c "+" || is_char c "-" then Some (stateESign, stack) else step_ESign stack c
  | stateESign => step_ESign stack c
  | stateE0 => if is_digit c then Some (stateE0, stack) else step_EndValue stack c
  | stateLiteral rest =>
      match rest with
      | String expected rest =>
          if is_char c expected
          then Some (match rest with EmptyString => stateEndValue | _ => stateLiteral rest end, stack)
          else None
      | EmptyString => None
      end
  end.

(** [scanner.eof]: the end of the input ends a number. *)
Definition scan_eof (st : scan_state) (stack : list parse_state) : bool :=
  match st with
  | stateEndTop => true
  | _ => match scan_step st stack " " with Some (stateEndTop, _) => true | _ => false end
  end.

Fixpoint checkValid (st : scan_state) (stack : list parse_state) (data : string) : bool :=
  match data with
  | EmptyString => scan_eof st stack
  | String c data =>
      match scan_step st stack c with
      | Some (st, stack) => checkValid st stack data
      | None => false
      end
  end.

Definition json_Valid (data : string) : bool := checkValid stateBeginValue [] data.

(** ** bytes.TrimSpace

    The encodings of the code points of [unicode.IsSpace]. *)

Definition bytes (codes : list nat) : string := foldr (λ k s, String (ascii_of_nat k) s) EmptyString codes.

Definition unicode_spaces : list string :=
  bytes <$> ([[9]; [10]; [11]; [12]; [13]; [32]; [194; 133]; [194; 160]; [225; 154; 128]] ++
             ((λ k, [226; 128; k]) <$> seq 128 11) ++
             [[226; 128; 168]; [226; 128; 169]; [226; 128; 175]; [226; 129; 159]; [227; 128; 128]]).

Fixpoint trim_left (fuel : nat) (s : string) : string :=
  match fuel with
  | O => s
  | S fuel =>
      match list_find (λ space, strings_HasPrefix s space = true) unicode_spaces with
      | Some (_, space) => trim_left fuel (string_drop (String.length space) s)
      | None => s
      end
  end.

Definition string_take (k : nat) (s : string) : string := String.substring 0 k s.

Fixpoint trim_right (fuel : nat) (s : string) : string :=
  match fuel with
  | O => s
  | S fuel =>
      match list_find (λ space, strings_HasSuffix s space = true) unicode_spaces with
      | Some (_, space) => trim_right fuel (string_take (String.length s - String.length space) s)
      | None => s
      end
  end.

(** Every round removes at least one byte. *)
Definition bytes_TrimSpace (s : string) : string :=
  let s := trim_left (String.length s) s in
  trim_right (String.length s) s.

