(* ===== verification/UTF8.v ===== *)
(** * UTF-8 (unicode/utf8)

    [utf8.DecodeRune], [utf8.EncodeRune] and [utf8.ValidString], as
    [encoding/json] uses them when it quotes and unquotes strings. A rune is
    its code point; the bit operations of the package are written as
    arithmetic on the disjoint bit fields of a code point. *)

From S2P Require Import Prelude GoStrings.
From Stdlib Require Import Ascii.

#[local] Open Scope Z_scope.

(** ** Bytes *)

Definition byte_of (c : ascii) : Z := Z.of_N (N_of_ascii c).
Definition char_of (b : Z) : ascii := ascii_of_N (Z.to_N b).

(** The string of some bytes. *)
Definition string_of_bytes (bs : list Z) : string := foldr (λ b s, String (char_of b) s) EmptyString bs.

(** ** Runes *)

Definition RuneError : Z := 65533.
Definition MaxRune : Z := 1114111.

Definition between (low b high : Z) : bool := (low <=? b) && (b <=? high).

Definition is_surrogate (r : Z) : bool := between 55296 r 57343.

(** A code point that UTF-8 encodes. *)
Definition scalar (r : Z) : bool := between 0 r MaxRune && negb (is_surrogate r).

(** [EncodeRune] writes the replacement character for what is not a scalar
    value. *)
Definition rune_bytes (r : Z) : list Z :=
  if between 0 r 127 then [r]
  else if between 128 r 2047 then [192 + r / 64; 128 + r mod 64]
  else if between 2048 r 65535 then [224 + r / 4096; 128 + r / 64 mod 64; 128 + r mod 64]
  else [240 + r / 262144; 128 + r / 4096 mod 64; 128 + r / 64 mod 64; 128 + r mod 64].

Definition EncodeRune (r : Z) : string := string_of_bytes (rune_bytes (if scalar r then r else RuneError)).

(** The continuation bytes that follow a first byte: the range of the second
    byte, and how many there are. *)
Definition first_byte (b0 : Z) : option (Z * Z * nat) :=
  if between 194 b0 223 then Some (128, 191, 1%nat)
  else if between 224 b0 239 then
    Some (if b0 =? 224 then 160 else 128, if b0 =? 237 then 159 else 191, 2%nat)
  else if between 240 b0 244 then
    Some (if b0 =? 240 then 144 else 128, if b0 =? 244 then 143 else 191, 3%nat)
  else None.

Definition continuation (b : Z) : bool := between 128 b 191.

(** The first rune of some bytes and its length: an invalid encoding is
    [(RuneError, 1)], no input [(RuneError, 0)]. *)
Definition decode_bytes (bs : list Z) : Z * nat :=
  match bs with
  | [] => (RuneError, 0%nat)
  | b0 :: bs =>
      if b0 <? 128 then (b0, 1%nat)
      else match first_byte b0, bs with
      | Some (low, high, 1%nat), b1 :: _ =>
          if between low b1 high then ((b0 - 192) * 64 + (b1 - 128), 2%nat) else (RuneError, 1%nat)
      | Some (low, high, 2%nat), b1 :: b2 :: _ =>
          if between low b1 high && continuation b2
          then ((b0 - 224) * 4096 + (b1 - 128) * 64 + (b2 - 128), 3%nat) else (RuneError, 1%nat)
      | Some (low, high, 3%nat), b1 :: b2 :: b3 :: _ =>
          if between low b1 high && continuation b2 && continuation b3
          then ((b0 - 240) * 262144 + (b1 - 128) * 4096 + (b2 - 128) * 64 + (b3 - 128), 4%nat)
          else (RuneError, 1%nat)
      | _, _ => (RuneError, 1%nat)
      end
  end.

(** The bytes at the start of a string. *)
Fixpoint leading_bytes (n : nat) (s : string) : list Z :=
  match n, s with
  | S n, String c s => byte_of c :: leading_bytes n s
  | _, _ => []
  end.

Definition UTFMax : nat := 4.

Definition DecodeRune (s : string) : Z * nat := decode_bytes (leading_bytes UTFMax s).

(** A loop over the chunks of a string: [piece] looks at what is left and
    gives its output and how many bytes it has read; [skip] counts the bytes
    of the current chunk that are still ahead. *)
Fixpoint chunks (piece : string → option (string * nat)) (skip : nat) (s : string) : option string :=
  match s with
  | EmptyString => Some EmptyString
  | String _ tail =>
      match skip with
      | S skip => chunks piece skip tail
      | O =>
          '(output, size) ← piece s;
          rest ← chunks piece (pred size) tail;
          Some (output +:+ rest)
      end
  end.

(** One rune of [ValidString]. *)
Definition valid_piece (s : string) : option (string * nat) :=
  let '(r, size) := DecodeRune s in
  if (r =? RuneError) && (size =? 1)%nat then None else Some (EmptyString, size).

Definition utf8_ValidString (s : string) : bool := bool_decide (is_Some (chunks valid_piece 0 s)).

(** ** Lemmas *)

Lemma byte_of_range c : 0 ≤ byte_of c < 256.
Proof. unfold byte_of. pose proof (N_ascii_bounded c). lia. Qed.

Lemma char_of_byte_of c : char_of (byte_of c) = c.
Proof. unfold char_of, byte_of. rewrite N2Z.id. apply ascii_N_embedding. Qed.

Lemma byte_of_char_of b : 0 ≤ b < 256 → byte_of (char_of b) = b.
Proof. intros ?. unfold char_of, byte_of. rewrite N_ascii_embedding; lia. Qed.

Lemma between_true low b high : between low b high = true ↔ low ≤ b ≤ high.
Proof. unfold between. rewrite andb_true_iff, !Z.leb_le. done. Qed.

Lemma between_false low b high : between low b high = false ↔ b < low ∨ high < b.
Proof. unfold between. rewrite andb_false_iff, !Z.leb_gt. lia. Qed.

Lemma scalar_true r : scalar r = true ↔ 0 ≤ r ≤ MaxRune ∧ ¬ (55296 ≤ r ≤ 57343).
Proof.
  unfold scalar, is_surrogate. rewrite andb_true_iff, negb_true_iff, between_true, between_false. lia.
Qed.

(** Linear arithmetic with quotients and remainders by constants. *)
Ltac quotients := Z.to_euclidean_division_equations; lia.

(** Range tests of the context as inequalities. *)
Ltac read_ranges :=
  unfold continuation in *; reflect_bools;
  repeat match goal with
  | H : between _ _ _ = true |- _ => apply between_true in H
  | H : between _ _ _ = false |- _ => apply between_false in H
  end.

(** Decides every range test of the goal. *)
Ltac decide_ranges :=
  repeat match goal with
  | |- context [between ?l ?b ?h] => destruct (between l b h) eqn:?
  | |- context [?a <? ?b] => destruct (Z.ltb_spec a b)
  | |- context [?a =? ?b] => destruct (Z.eqb_spec a b)
  end; read_ranges.

Lemma rune_bytes_range r : scalar r = true → Forall (λ b, 0 ≤ b < 256) (rune_bytes r).
Proof.
  rewrite scalar_true. intros [Hr _]. unfold MaxRune in Hr. unfold rune_bytes. decide_ranges;
    repeat constructor; quotients.
Qed.

(** The bytes of an encoded rune, with anything behind them, decode to it. *)
Lemma decode_rune_bytes r rest :
  scalar r = true → decode_bytes (rune_bytes r ++ rest) = (r, length (rune_bytes r)).
Proof.
  rewrite scalar_true. intros [Hr Hs]. unfold MaxRune in Hr. unfold rune_bytes.
  destruct (between 0 r 127) eqn:E1; [|destruct (between 128 r 2047) eqn:E2; [|destruct (between 2048 r 65535) eqn:E3]];
    read_ranges; cbn [decode_bytes app length].
  - by rewrite (proj2 (Z.ltb_lt _ _)) by lia.
  - rewrite (proj2 (Z.ltb_ge _ _)) by quotients. unfold first_byte.
    rewrite (proj2 (between_true 194 _ _)) by quotients.
    rewrite (proj2 (between_true _ _ _)) by quotients.
    f_equal. quotients.
  - rewrite (proj2 (Z.ltb_ge _ _)) by quotients. unfold first_byte, continuation.
    rewrite (proj2 (between_false 194 _ _)) by quotients.
    rewrite (proj2 (between_true 224 _ _)) by quotients.
    rewrite (proj2 (between_true _ _ _)), (proj2 (between_true 128 _ _));
      [|quotients|].
    + cbn [andb]. f_equal. quotients.
    + destruct (Z.eqb_spec (224 + r / 4096) 224), (Z.eqb_spec (224 + r / 4096) 237);
        quotients.
  - rewrite (proj2 (Z.ltb_ge _ _)) by quotients. unfold first_byte, continuation.
    rewrite (proj2 (between_false 194 _ _)) by quotients.
    rewrite (proj2 (between_false 224 _ _)) by quotients.
    rewrite (proj2 (between_true 240 _ _)) by quotients.
    rewrite (proj2 (between_true _ _ _)), !(proj2 (between_true 128 _ _));
      [|quotients..|].
    + cbn [andb]. f_equal. quotients.
    + destruct (Z.eqb_spec (240 + r / 262144) 240), (Z.eqb_spec (240 + r / 262144) 244);
        quotients.
Qed.

(** What decodes without error is the encoding of a scalar value. *)
Lemma decode_bytes_inv bs r size :
  Forall (λ b, 0 ≤ b < 256) bs → decode_bytes bs = (r, size) → ¬ (r = RuneError ∧ (size ≤ 1)%nat) →
  scalar r = true ∧ ∃ rest, bs = rune_bytes r ++ rest ∧ size = length (rune_bytes r).
Proof.
  intros Hbs. unfold decode_bytes. destruct bs as [|b0 bs]; [intros [= <- <-] []; split; [done|lia]|].
  apply Forall_cons in Hbs as [Hb0 Hbs]. rewrite scalar_true. unfold MaxRune.
  destruct (Z.ltb_spec b0 128).
  { intros [= <- <-] _. split; [lia|]. exists bs. unfold rune_bytes. by rewrite (proj2 (between_true 0 _ _)) by lia. }
  unfold first_byte. intros E Hne.
  destruct (between 194 b0 223) eqn:E1; [|destruct (between 224 b0 239) eqn:E2; [|destruct (between 240 b0 244) eqn:E3]];
    cbn in E.
  - destruct bs as [|b1 bs]; [by simplify_eq; destruct Hne|]. destruct (between 128 b1 191) eqn:E2; [|by simplify_eq; destruct Hne].
    injection E as <- <-. read_ranges. split; [lia|]. exists bs. unfold rune_bytes.
    rewrite (proj2 (between_false 0 _ _)), (proj2 (between_true 128 _ _)) by lia. split; [|done].
    cbn [app]. repeat f_equal; quotients.
  - destruct bs as [|b1 [|b2 bs]]; [by simplify_eq; destruct Hne..|].
    destruct (between _ b1 _ && _) eqn:E3; [|by simplify_eq; destruct Hne]. injection E as <- <-. read_ranges.
    assert (128 ≤ b1 ≤ 191 ∧ (b0 = 224 → 160 ≤ b1) ∧ (b0 = 237 → b1 ≤ 159)) as (? & ? & ?)
      by (destruct (Z.eqb_spec b0 224), (Z.eqb_spec b0 237); lia).
    split; [lia|]. exists bs. unfold rune_bytes.
    rewrite (proj2 (between_false 0 _ _)), (proj2 (between_false 128 _ _)), (proj2 (between_true 2048 _ _)) by lia.
    split; [|done]. cbn [app]. repeat f_equal; quotients.
  - destruct bs as [|b1 [|b2 [|b3 bs]]]; [by simplify_eq; destruct Hne..|].
    destruct (between _ b1 _ && _ && _) eqn:E4; [|by simplify_eq; destruct Hne]. injection E as <- <-. read_ranges.
    assert (128 ≤ b1 ≤ 191 ∧ (b0 = 240 → 144 ≤ b1) ∧ (b0 = 244 → b1 ≤ 143)) as (? & ? & ?)
      by (destruct (Z.eqb_spec b0 240), (Z.eqb_spec b0 244); lia).
    split; [lia|]. exists bs. unfold rune_bytes.
    rewrite (proj2 (between_false 0 _ _)), (proj2 (between_false 128 _ _)), (proj2 (between_false 2048 _ _)) by lia.
    split; [|done]. cbn [app]. repeat f_equal; quotients.
  - by simplify_eq; destruct Hne.
Qed.

(** ** Strings of runes *)

Lemma string_of_bytes_length bs : String.length (string_of_bytes bs) = length bs.
Proof. induction bs; simpl; congruence. Qed.

Lemma string_of_bytes_app bs bs' : string_of_bytes (bs ++ bs') = string_of_bytes bs +:+ string_of_bytes bs'.
Proof. induction bs as [|b bs IH]; [done|]. simpl. by rewrite IH. Qed.

Lemma leading_bytes_app n bs s :
  Forall (λ b, 0 ≤ b < 256) bs →
  leading_bytes (length bs + n) (string_of_bytes bs +:+ s) = bs ++ leading_bytes n s.
Proof.
  induction 1 as [|b bs Hb _ IH]; [done|]. simpl. by rewrite byte_of_char_of, IH.
Qed.

Lemma leading_bytes_range n s : Forall (λ b, 0 ≤ b < 256) (leading_bytes n s).
Proof.
  revert s. induction n as [|n IH]; intros [|c s]; simpl; constructor; [apply byte_of_range|apply IH].
Qed.

Lemma leading_bytes_take n s : ∃ rest, s = string_of_bytes (leading_bytes n s) +:+ rest.
Proof.
  revert s. induction n as [|n IH]; intros [|c s]; simpl; [by eexists..|].
  destruct (IH s) as [rest E]. exists rest. by rewrite char_of_byte_of, string_app_cons, <- E.
Qed.

Lemma rune_bytes_length r : (1 ≤ length (rune_bytes r) ≤ 4)%nat.
Proof. unfold rune_bytes. decide_ranges; simpl; lia. Qed.

Lemma EncodeRune_length r : (1 ≤ String.length (EncodeRune r))%nat.
Proof. unfold EncodeRune. rewrite string_of_bytes_length. apply rune_bytes_length. Qed.

Lemma DecodeRune_EncodeRune r s :
  scalar r = true → DecodeRune (EncodeRune r +:+ s) = (r, String.length (EncodeRune r)).
Proof.
  intros Hr. unfold DecodeRune, EncodeRune. rewrite Hr, string_of_bytes_length.
  pose proof (rune_bytes_length r). replace UTFMax with (length (rune_bytes r) + (4 - length (rune_bytes r)))%nat
    by (unfold UTFMax; lia).
  rewrite leading_bytes_app by by apply rune_bytes_range. by rewrite decode_rune_bytes.
Qed.

Lemma DecodeRune_inv s r size :
  DecodeRune s = (r, size) → ¬ (r = RuneError ∧ (size ≤ 1)%nat) →
  scalar r = true ∧ ∃ rest, s = EncodeRune r +:+ rest ∧ size = String.length (EncodeRune r).
Proof.
  intros E Hne. apply decode_bytes_inv in E as (Hr & rest & E & Hsize); [|apply leading_bytes_range|done].
  split; [done|]. destruct (leading_bytes_take UTFMax s) as [rest' E']. rewrite E, string_of_bytes_app in E'.
  exists (string_of_bytes rest +:+ rest'). unfold EncodeRune. rewrite Hr, string_of_bytes_length.
  split; [|done]. by rewrite E', string_app_assoc.
Qed.

Lemma DecodeRune_size c s r : DecodeRune (String c s) ≠ (r, 0%nat).
Proof.
  unfold DecodeRune. cbn [leading_bytes UTFMax]. unfold decode_bytes. destruct (_ <? _); [done|].
  destruct (first_byte _) as [[[low high] [|[|[|[|]]]]]|]; [done| | | |done..]; by repeat case_match.
Qed.

(** Valid UTF-8: a sequence of encoded scalar values. *)
Inductive utf8 : string → Prop :=
| utf8_nil : utf8 EmptyString
| utf8_rune r s : scalar r = true → utf8 s → utf8 (EncodeRune r +:+ s).

Lemma chunks_skip piece s rest : chunks piece (String.length s) (s +:+ rest) = chunks piece 0 rest.
Proof. induction s as [|c s IH]; simpl; [|done]. done. Qed.

(** A chunk that is read and its output. *)
Lemma chunks_piece piece s output rest :
  s ≠ EmptyString → piece (s +:+ rest) = Some (output, String.length s) →
  chunks piece 0 (s +:+ rest) = tail ← chunks piece 0 rest; Some (output +:+ tail).
Proof.
  destruct s as [|c s]; [done|]. intros _ E. rewrite string_app_cons in *. cbn [chunks]. rewrite E. simpl.
  by rewrite chunks_skip.
Qed.

Lemma EncodeRune_nonempty r : EncodeRune r ≠ EmptyString.
Proof. intros E. pose proof (EncodeRune_length r) as H. rewrite E in H. simpl in H. lia. Qed.

Lemma not_error_rune r size :
  ¬ (r = RuneError ∧ (size ≤ 1)%nat) → (r =? RuneError) && (size =? 1)%nat = false.
Proof. intros Hne. apply not_true_iff_false. intros [Er%Z.eqb_eq Es%Nat.eqb_eq]%andb_true_iff. apply Hne. lia. Qed.

Lemma utf8_valid s : utf8_ValidString s = true ↔ utf8 s.
Proof.
  unfold utf8_ValidString. rewrite bool_decide_eq_true. split.
  - revert s. assert (∀ n s, (String.length s ≤ n)%nat → is_Some (chunks valid_piece 0 s) → utf8 s) as H;
      [|intros s; by apply (H (String.length s))].
    induction n as [|n IH]; intros s Hn Hs; [destruct s; [constructor|simpl in Hn; lia]|].
    destruct s as [|c s']; [constructor|]. set (s := String c s') in *.
    destruct (DecodeRune s) as [r size] eqn:E.
    destruct (decide (r = RuneError ∧ (size ≤ 1)%nat)) as [[-> Hsize]|Hne].
    { destruct Hs as [out Hs]. subst s. cbn [chunks] in Hs. unfold valid_piece in Hs. rewrite E in Hs.
      destruct size as [|[|]]; [|done|lia]. exfalso. by apply DecodeRune_size in E. }
    destruct (DecodeRune_inv s r size E Hne) as (Hr & rest & Es & Hsize). rewrite Es in Hs |- *.
    constructor; [done|]. apply IH.
    + apply (f_equal String.length) in Es. rewrite string_length_app in Es. pose proof (EncodeRune_length r). lia.
    + rewrite (chunks_piece _ _ EmptyString) in Hs.
      * destruct (chunks valid_piece 0 rest) eqn:Ec; [done|]. by destruct Hs.
      * apply EncodeRune_nonempty.
      * unfold valid_piece. by rewrite <- Es, E, not_error_rune, Hsize.
  - induction 1 as [|r s Hr _ [out IH]]; [done|]. rewrite (chunks_piece _ _ EmptyString); [by rewrite IH| |].
    + apply EncodeRune_nonempty.
    + unfold valid_piece. rewrite DecodeRune_EncodeRune by done. rewrite not_error_rune; [done|].
      intros [-> H]. change (String.length _) with 3%nat in H. lia.
Qed.
