(* ===== verification/JSONText.v ===== *)
(** * JSON texts (encoding/json)

    The text level of [encoding/json]: quoting and unquoting of strings, the
    end of a value in a stream, the members of an object and the elements of
    an array as texts, and the layout of [MarshalIndent]. The grammar is the
    one of the scanner of [JSON.v]: the length of a value is found by running
    it. *)

From S2P Require Import Prelude GoStrings JSON UTF8.
From Stdlib Require Import Ascii.

#[local] Open Scope Z_scope.

(** ** Strings *)

Definition char_string (c : ascii) : string := String c EmptyString.
Definition quote_string : string := char_string quote.
Definition backslash : ascii := ascii_of_nat 92.

Definition hex_digit (n : Z) : ascii := char_of (if n <? 10 then 48 + n else 87 + n).

Definition hex_value (c : ascii) : option Z :=
  let b := byte_of c in
  if between 48 b 57 then Some (b - 48)
  else if between 97 b 102 then Some (b - 87)
  else if between 65 b 70 then Some (b - 55)
  else None.

(** The letter of a two-character escape. *)
Definition escape_letter (b : Z) : option ascii :=
  if b =? 8 then Some "b"%char
  else if b =? 12 then Some "f"%char
  else if b =? 10 then Some "n"%char
  else if b =? 13 then Some "r"%char
  else if b =? 9 then Some "t"%char
  else if (b =? 34) || (b =? 92) then Some (char_of b)
  else None.

(** A byte below [utf8.RuneSelf], with the HTML escapes of [Marshal]. *)
Definition escape_byte (b : Z) : string :=
  match escape_letter b with
  | Some letter => String backslash (char_string letter)
  | None =>
      if (b <? 32) || bool_decide (b ∈ [38; 60; 62])
      then String backslash ("u00" +:+ String (hex_digit (b / 16)) (char_string (hex_digit (b mod 16))))
      else char_string (char_of b)
  end.

(** One rune of [appendString]. *)
Definition quote_piece (s : string) : option (string * nat) :=
  match s with
  | EmptyString => None
  | String c _ =>
      if byte_of c <? 128 then Some (escape_byte (byte_of c), 1%nat)
      else
        let '(r, size) := DecodeRune s in
        if (r =? RuneError) && (size =? 1)%nat then Some (String backslash "ufffd", 1%nat)
        else if (r =? 8232) || (r =? 8233)
        then Some (String backslash ("u202" +:+ char_string (hex_digit (r mod 16))), size)
        else Some (string_take size s, size)
  end.

Definition appendString (s : string) : string :=
  quote_string +:+ default EmptyString (chunks quote_piece 0 s) +:+ quote_string.

(** The four hexadecimal digits of an escape. *)
Definition getu4 (s : string) : option Z :=
  match s with
  | String a (String b (String c (String d _))) =>
      a ← hex_value a; b ← hex_value b; c ← hex_value c; d ← hex_value d;
      Some (((a * 16 + b) * 16 + c) * 16 + d)
  | _ => None
  end.

(** [utf16.DecodeRune]: the code point of a surrogate pair. *)
Definition surrogate_pair (r1 r2 : Z) : option Z :=
  if between 55296 r1 56319 && between 56320 r2 57343
  then Some ((r1 - 55296) * 1024 + (r2 - 56320) + 65536) else None.

(** The character of an escape letter. *)
Definition unescape_letter (e : ascii) : option ascii :=
  if existsb (is_char e) [quote; backslash; "/"; "'"]%char then Some e
  else if is_char e "b" then Some (char_of 8)
  else if is_char e "f" then Some (char_of 12)
  else if is_char e "n" then Some (char_of 10)
  else if is_char e "r" then Some (char_of 13)
  else if is_char e "t" then Some (char_of 9)
  else None.

(** The rest of a [\u] escape: a surrogate needs the escape of its partner. *)
Definition unquote_u4 (digits : string) : option (string * nat) :=
  r ← getu4 digits;
  if is_surrogate r then
    Some (match string_drop 4 digits with
          | String c (String u partner) =>
              match (if is_char c backslash && is_char u "u" then getu4 partner else None) ≫= surrogate_pair r with
              | Some combined => (EncodeRune combined, 12%nat)
              | None => (EncodeRune RuneError, 6%nat)
              end
          | _ => (EncodeRune RuneError, 6%nat)
          end)
  else Some (EncodeRune r, 6%nat).

(** One character of [unquoteBytes]. *)
Definition unquote_piece (s : string) : option (string * nat) :=
  match s with
  | EmptyString => None
  | String c rest =>
      if is_char c backslash then
        match rest with
        | EmptyString => None
        | String e digits =>
            match unescape_letter e with
            | Some decoded => Some (char_string decoded, 2%nat)
            | None => if is_char e "u" then unquote_u4 digits else None
            end
        end
      else if is_char c quote || (byte_of c <? 32) then None
      else if byte_of c <? 128 then Some (char_string c, 1%nat)
      else let '(r, size) := DecodeRune s in Some (EncodeRune r, size)
  end.

(** A string without its last character, and that character. *)
Fixpoint split_last (s : string) : option (string * ascii) :=
  match s with
  | EmptyString => None
  | String c EmptyString => Some (EmptyString, c)
  | String c rest => '(front, last) ← split_last rest; Some (String c front, last)
  end.

Definition unquote (s : string) : option string :=
  match s with
  | EmptyString => None
  | String first rest =>
      if negb (is_char first quote) then None
      else
        '(body, last) ← split_last rest;
        if is_char last quote then chunks unquote_piece 0 body else None
  end.

(** The HTML escapes of [compact]: raw JSON is copied, but these characters
    are escaped wherever they occur. *)
Definition html_piece (s : string) : option (string * nat) :=
  match s with
  | EmptyString => None
  | String c _ =>
      if bool_decide (byte_of c ∈ [38; 60; 62]) then Some (escape_byte (byte_of c), 1%nat)
      else if strings_HasPrefix s (EncodeRune 8232) then Some (String backslash "u2028", 3%nat)
      else if strings_HasPrefix s (EncodeRune 8233) then Some (String backslash "u2029", 3%nat)
      else Some (char_string c, 1%nat)
  end.

Definition html_escape (s : string) : string := default EmptyString (chunks html_piece 0 s).

(** ** Values in a stream *)

Inductive verdict :=
| Continue (st : scan_state) (stack : list parse_state)
| Ended
| Rejected.

(** One byte after the start of a value: a byte that cannot continue a
    complete value ends it and is not part of it. *)
Definition take_step (st : scan_state) (stack : list parse_state) (c : ascii) : verdict :=
  match scan_step st stack c with
  | Some (stateEndTop, stack') => if scan_eof st stack then Ended else Continue stateEndTop stack'
  | Some (st', stack') => Continue st' stack'
  | None => if scan_eof st stack then Ended else Rejected
  end.

(** The text of a value that has begun, and what follows it. *)
Fixpoint take_value (st : scan_state) (stack : list parse_state) (s : string) : option (string * string) :=
  match s with
  | EmptyString => if scan_eof st stack then Some (EmptyString, EmptyString) else None
  | String c rest =>
      match take_step st stack c with
      | Continue st stack => '(text, rest) ← take_value st stack rest; Some (String c text, rest)
      | Ended => Some (EmptyString, s)
      | Rejected => None
      end
  end.

Fixpoint skip_spaces (s : string) : string :=
  match s with
  | String c rest => if isSpace c then skip_spaces rest else s
  | EmptyString => EmptyString
  end.

(** The next value: [Decoder.readValue] without the white space before it. *)
Definition next_value (s : string) : option (string * string) :=
  take_value stateBeginValue [] (skip_spaces s).

(** [expect c s] is what follows the character [c] after white space. *)
Definition expect (c : ascii) (s : string) : option string :=
  match skip_spaces s with
  | String c' rest => if is_char c' c then Some rest else None
  | EmptyString => None
  end.

(** The members of an object after its opening brace: the texts of the keys
    and of the values. *)
Fixpoint members_loop (fuel : nat) (s : string) : option (list (string * string)) :=
  match fuel with
  | O => None
  | S fuel =>
      '(key, s) ← next_value s;
      s ← expect ":" s;
      '(value, s) ← next_value s;
      match expect "," s with
      | Some s => members ← members_loop fuel s; Some ((key, value) :: members)
      | None => _ ← expect "}" s; Some [(key, value)]
      end
  end.

Definition object_members (s : string) : option (list (string * string)) :=
  s ← expect "{" s;
  match expect "}" s with
  | Some _ => Some []
  | None => members_loop (String.length s) s
  end.

Fixpoint elements_loop (fuel : nat) (s : string) : option (list string) :=
  match fuel with
  | O => None
  | S fuel =>
      '(value, s) ← next_value s;
      match expect "," s with
      | Some s => values ← elements_loop fuel s; Some (value :: values)
      | None => _ ← expect "]" s; Some [value]
      end
  end.

Definition array_elements (s : string) : option (list string) :=
  s ← expect "[" s;
  match expect "]" s with
  | Some _ => Some []
  | None => elements_loop (String.length s) s
  end.

(** ** Layout

    What [Marshal] writes, as a tree of texts: literals, arrays and objects
    (whose keys are quoted texts); [print] is the layout of [MarshalIndent]
    with an empty prefix and an indentation of two spaces. *)

#[warnings="-register-all"]
Inductive json :=
| Literal (text : string)
| Array (elements : list json)
| Object (members : list (string * json)).

Fixpoint spaces (depth : nat) : string :=
  match depth with O => EmptyString | S depth => "  " +:+ spaces depth end.

Definition newline_indent (depth : nat) : string := String (ascii_of_nat 10) (spaces depth).

Fixpoint print (depth : nat) (v : json) : string :=
  match v with
  | Literal text => text
  | Array [] => "[]"
  | Array (first :: others) =>
      "[" +:+ newline_indent (S depth) +:+ print (S depth) first +:+
      foldr (λ element rest, "," +:+ newline_indent (S depth) +:+ print (S depth) element +:+ rest)
            (newline_indent depth +:+ "]") others
  | Object [] => "{}"
  | Object ((key, first) :: others) =>
      "{" +:+ newline_indent (S depth) +:+ key +:+ ": " +:+ print (S depth) first +:+
      foldr (λ member rest, "," +:+ newline_indent (S depth) +:+ member.1 +:+ ": " +:+ print (S depth) member.2 +:+ rest)
            (newline_indent depth +:+ "}") others
  end.

Example quoted_sample :
  appendString ("<a>" +:+ string_of_bytes [10; 226; 128; 168; 195; 169; 255; 34]) =
  quote_string +:+ "\u003ca\u003e\n\u2028" +:+ string_of_bytes [195; 169] +:+ "\ufffd\" +:+ quote_string +:+ quote_string.
Proof. vm_compute. reflexivity. Qed.

Example next_value_sample : next_value " [12, {}] x" = Some ("[12, {}]", " x").
Proof. vm_compute. reflexivity. Qed.

Example members_sample :
  object_members ("{" +:+ appendString "a" +:+ " : 1.5e3 , " +:+ appendString "b" +:+ ":[true ,null]}") =
  Some [(appendString "a", "1.5e3"); (appendString "b", "[true ,null]")].
Proof. vm_compute. reflexivity. Qed.

(** ** Quoting gives texts that unquote to the same string *)

(** Every character, one by one. *)
Ltac each_char c := destruct c as [[] [] [] [] [] [] [] []].

(** What [appendString] writes for a scalar value. *)
Definition rune_text (r : Z) : string :=
  if r <? 128 then escape_byte r
  else if (r =? 8232) || (r =? 8233)
  then String backslash ("u202" +:+ char_string (hex_digit (r mod 16)))
  else EncodeRune r.

Lemma EncodeRune_ascii r : 0 ≤ r < 128 → EncodeRune r = char_string (char_of r).
Proof.
  intros Hr. unfold EncodeRune. rewrite (proj2 (scalar_true r)) by (unfold MaxRune; lia).
  unfold rune_bytes. by rewrite (proj2 (between_true 0 _ _)) by lia.
Qed.

Lemma EncodeRune_high r c s : 128 ≤ r → scalar r = true → EncodeRune r = String c s → 128 ≤ byte_of c.
Proof.
  intros Hr Hs. unfold EncodeRune. rewrite Hs. pose proof (rune_bytes_range r Hs) as Hb. revert Hb. unfold rune_bytes.
  rewrite (proj2 (between_false 0 _ _)) by lia. apply scalar_true in Hs as [Hs _]. unfold MaxRune in Hs.
  decide_ranges; intros Hb [= <- _]; apply Forall_cons in Hb as [Hb _]; rewrite byte_of_char_of by done; quotients.
Qed.

Lemma EncodeRune_bytes_high r : 128 ≤ r → scalar r = true → Forall (λ b, 128 ≤ b < 256) (rune_bytes r).
Proof.
  intros Hr [Hs _]%scalar_true. unfold MaxRune in Hs. unfold rune_bytes.
  rewrite (proj2 (between_false 0 _ _)) by lia. decide_ranges; repeat constructor; quotients.
Qed.

Lemma string_take_app s t : string_take (String.length s) (s +:+ t) = s.
Proof. unfold string_take. induction s as [|c s IH]; [by destruct t|]. simpl. by f_equal. Qed.

Lemma quote_piece_rune r s :
  scalar r = true → quote_piece (EncodeRune r +:+ s) = Some (rune_text r, String.length (EncodeRune r)).
Proof.
  intros Hr. unfold rune_text. destruct (Z.ltb_spec r 128) as [Hlow|Hhigh].
  - apply scalar_true in Hr as [Hr _]. rewrite EncodeRune_ascii by lia.
    change (char_string ?c +:+ s) with (String c s). unfold quote_piece. rewrite byte_of_char_of by lia. by rewrite (proj2 (Z.ltb_lt _ _)).
  - pose proof (DecodeRune_EncodeRune r s Hr) as Ed. pose proof (string_take_app (EncodeRune r) s) as Et.
    assert (¬ (r = RuneError ∧ (String.length (EncodeRune r) ≤ 1)%nat)) as Hne.
    { intros [-> H]. change (String.length _) with 3%nat in H. lia. }
    destruct (EncodeRune r) as [|c rest] eqn:Er; [by apply EncodeRune_nonempty in Er|].
    apply EncodeRune_high in Er; [|done..]. rewrite string_app_cons in *. unfold quote_piece.
    rewrite (proj2 (Z.ltb_ge _ _)) by done. rewrite Ed, not_error_rune, Et by done. by destruct (_ || _).
Qed.

Lemma unquote_piece_byte b s :
  0 ≤ b < 128 → unquote_piece (escape_byte b +:+ s) = Some (char_string (char_of b), String.length (escape_byte b)).
Proof.
  intros Hb. rewrite <- (byte_of_char_of b) in Hb |- * by lia. generalize (char_of b) as c, Hb. clear.
  intros c Hb. each_char c; reflexivity || (exfalso; revert Hb; vm_compute; by intros [_ ?]).
Qed.

Lemma unquote_piece_rune r s :
  scalar r = true → unquote_piece (rune_text r +:+ s) = Some (EncodeRune r, String.length (rune_text r)).
Proof.
  intros Hr. unfold rune_text. destruct (Z.ltb_spec r 128) as [Hlow|Hhigh].
  { apply scalar_true in Hr as [Hr _]. rewrite EncodeRune_ascii by lia. apply unquote_piece_byte. lia. }
  destruct (Z.eqb_spec r 8232) as [->|]; [done|]. destruct (Z.eqb_spec r 8233) as [->|]; [done|]. cbn [orb].
  pose proof (DecodeRune_EncodeRune r s Hr) as Ed.
  destruct (EncodeRune r) as [|c rest] eqn:Er; [by apply EncodeRune_nonempty in Er|].
  pose proof (EncodeRune_high _ _ _ Hhigh Hr Er) as Hc. rewrite string_app_cons in *. unfold unquote_piece. rewrite Ed.
  assert (is_char c backslash = false ∧ is_char c quote = false) as [-> ->].
  { clear -Hc. each_char c; done || (exfalso; by destruct Hc). }
  rewrite (proj2 (Z.ltb_ge _ 32)), (proj2 (Z.ltb_ge _ 128)) by lia. cbn [orb]. by rewrite Er.
Qed.

(** ** Scanning printed texts *)

(** The state after some bytes that all belong to one value. *)
Fixpoint scan_path (st : scan_state) (stack : list parse_state) (s : string) : option (scan_state * list parse_state) :=
  match s with
  | EmptyString => Some (st, stack)
  | String c s =>
      match take_step st stack c with
      | Continue st stack => scan_path st stack s
      | _ => None
      end
  end.

Lemma scan_path_app st stack s t :
  scan_path st stack (s +:+ t) = '(st, stack) ← scan_path st stack s; scan_path st stack t.
Proof.
  revert st stack. induction s as [|c s IH]; intros st stack; [done|]. rewrite string_app_cons. simpl.
  destruct (take_step st stack c); [apply IH|done..].
Qed.

Lemma take_value_path st stack st' stack' s rest :
  scan_path st stack s = Some (st', stack') →
  take_value st stack (s +:+ rest) = '(text, rest) ← take_value st' stack' rest; Some (s +:+ text, rest).
Proof.
  revert st stack. induction s as [|c s IH]; intros st stack; simpl.
  { intros [= -> ->]. change ("" +:+ rest) with rest. by destruct (take_value st' stack' rest) as [[? ?]|]. }
  destruct (take_step st stack c) as [st1 stack1| |]; [|done..].
  intros E. rewrite (IH _ _ E). by destruct (take_value st' stack' rest) as [[? ?]|].
Qed.

(** What can follow a value. *)
Definition delimiter (c : ascii) : bool := isSpace c || existsb (is_char c) [","; ":"; "]"; "}"]%char.

(** The states in which a value can end. *)
Definition complete (st : scan_state) (stack : list parse_state) : bool :=
  match st with
  | stateEndValue | state1 | state0 | stateDot0 | stateE0 => true
  | stateEndTop => bool_decide (stack = [])
  | _ => false
  end.

Lemma complete_step st stack c :
  complete st stack = true → delimiter c = true → scan_step st stack c = step_EndValue stack c.
Proof.
  intros Hst Hc. assert (is_digit c = false ∧ is_char c "." = false ∧ is_exponent c = false) as (Hd & Hdot & He).
  { clear -Hc. by each_char c. }
  destruct st; try done; simpl; unfold step_0; rewrite ?Hd, ?Hdot, ?He; try done.
  simpl in Hst. case_bool_decide; [by subst|done].
Qed.

Lemma complete_eof st stack : complete st stack = true → scan_eof st stack = bool_decide (stack = []).
Proof.
  intros Hst. assert (scan_step st stack " " = step_EndValue stack " ") as E by (by apply complete_step).
  unfold scan_eof. destruct st; try done; rewrite E; by destruct stack.
Qed.

Lemma complete_ended st c : complete st [] = true → delimiter c = true → take_step st [] c = Ended.
Proof.
  intros Hst Hc. unfold take_step. rewrite (complete_eof st []), (complete_step st []) by done. simpl.
  by destruct (step_EndTop [] c) as [[[] ?]|] eqn:E; unfold step_EndTop in E; destruct (isSpace c).
Qed.

(** Inside an enclosing value, the steps are the ones of the scanner. *)
Lemma complete_take_step st p stack c st' stack' :
  complete st (p :: stack) = true → delimiter c = true → step_EndValue (p :: stack) c = Some (st', stack') →
  take_step st (p :: stack) c = Continue st' stack'.
Proof.
  intros Hst Hc E. unfold take_step. rewrite complete_step, complete_eof, E by done. by destruct st'.
Qed.

(** A text that is one value, of at most [depth] nested objects and arrays. *)
Definition value_text (depth : nat) (text : string) : Prop :=
  (∃ c rest, text = String c rest ∧ isSpace c = false) ∧
  ∀ stack, (length stack + depth ≤ maxNestingDepth)%nat →
    ∃ st, scan_path stateBeginValue stack text = Some (st, stack) ∧ complete st stack = true.

Lemma skip_spaces_app s t :
  (∀ c rest, t = String c rest → isSpace c = false) → skip_spaces (newline_indent s +:+ t) = t.
Proof.
  intros Ht. assert (skip_spaces t = t) as E.
  { destruct t as [|c t]; [done|]. simpl. by rewrite (Ht c t eq_refl). }
  unfold newline_indent. rewrite string_app_cons. cbn [skip_spaces].
  change (isSpace (ascii_of_nat 10)) with true. cbv iota. induction s as [|s IH]; [done|]. exact IH.
Qed.

(** The next value of a stream is a value text at its start. *)
Lemma next_value_text depth text rest :
  value_text depth text → (depth ≤ maxNestingDepth)%nat →
  (∀ c rest', rest = String c rest' → delimiter c = true) → next_value (text +:+ rest) = Some (text, rest).
Proof.
  intros [(c & tail & E & Hc) Hpath] Hdepth Hrest. destruct (Hpath [] Hdepth) as (st & Hst & Hcomplete).
  unfold next_value. assert (skip_spaces (text +:+ rest) = text +:+ rest) as ->.
  { rewrite E, string_app_cons. simpl. by rewrite Hc. }
  rewrite (take_value_path _ _ _ _ _ _ Hst). destruct rest as [|d rest]; cbn [take_value].
  - rewrite complete_eof by done. simpl. by rewrite string_app_nil_r.
  - rewrite complete_ended by eauto. simpl. by rewrite string_app_nil_r.
Qed.

Lemma next_value_indent n depth text rest :
  value_text depth text → (depth ≤ maxNestingDepth)%nat →
  (∀ c rest', rest = String c rest' → delimiter c = true) →
  next_value (newline_indent n +:+ text +:+ rest) = Some (text, rest).
Proof.
  intros Ht Hdepth Hrest. rewrite <- (next_value_text depth text rest) by done. unfold next_value. f_equal.
  destruct Ht as [(c & tail & -> & Hc) _]. rewrite skip_spaces_app; simpl; [by rewrite Hc|].
  intros ? ? E. injection E as <- _. done.
Qed.

(** Quoted strings. *)
Lemma scan_string_byte b stack :
  0 ≤ b < 128 → scan_path stateInString stack (escape_byte b) = Some (stateInString, stack).
Proof.
  intros Hb. rewrite <- (byte_of_char_of b) in Hb |- * by lia. generalize (char_of b) as c, Hb. clear.
  intros c Hb. each_char c; reflexivity || (exfalso; revert Hb; vm_compute; by intros [_ ?]).
Qed.

Lemma scan_string_high bs stack :
  Forall (λ b, 128 ≤ b < 256) bs → scan_path stateInString stack (string_of_bytes bs) = Some (stateInString, stack).
Proof.
  induction 1 as [|b bs Hb _ IH]; [done|]. simpl.
  assert (take_step stateInString stack (char_of b) = Continue stateInString stack) as ->; [|done].
  rewrite <- (byte_of_char_of b) in Hb by lia. generalize (char_of b) as c, Hb. clear. intros c Hb.
  each_char c; reflexivity || (exfalso; revert Hb; vm_compute; by intros [? _]).
Qed.

Lemma scan_string_rune r stack :
  scalar r = true → scan_path stateInString stack (rune_text r) = Some (stateInString, stack).
Proof.
  intros Hr. unfold rune_text. destruct (Z.ltb_spec r 128).
  { apply scan_string_byte. apply scalar_true in Hr. lia. }
  destruct (Z.eqb_spec r 8232) as [->|]; [done|]. destruct (Z.eqb_spec r 8233) as [->|]; [done|]. cbn [orb].
  unfold EncodeRune. rewrite Hr. by apply scan_string_high, EncodeRune_bytes_high.
Qed.

Lemma rune_text_nonempty r : rune_text r ≠ EmptyString.
Proof.
  unfold rune_text. destruct (_ <? _); [|destruct (_ || _); [done|apply EncodeRune_nonempty]].
  unfold escape_byte. destruct (escape_letter r); [done|]. by destruct (_ || _).
Qed.

(** The body of a quoted string: it unquotes, and it scans as one string. *)
Lemma quoted_body s :
  utf8 s → ∃ body, chunks quote_piece 0 s = Some body ∧ chunks unquote_piece 0 body = Some s ∧
    ∀ stack, scan_path stateInString stack body = Some (stateInString, stack).
Proof.
  induction 1 as [|r s Hr _ (body & Eq & Eu & Hscan)]; [by exists EmptyString|].
  exists (rune_text r +:+ body).
  rewrite (chunks_piece _ _ (rune_text r)) by (apply EncodeRune_nonempty || by apply quote_piece_rune).
  rewrite (chunks_piece _ _ (EncodeRune r)) by (apply rune_text_nonempty || by apply unquote_piece_rune).
  rewrite Eq, Eu. split_and!; [done..|]. intros stack. rewrite scan_path_app, scan_string_rune by done. apply Hscan.
Qed.

Lemma split_last_app s c : split_last (s +:+ char_string c) = Some (s, c).
Proof.
  induction s as [|a s IH]; [done|]. rewrite string_app_cons. cbn [split_last]. rewrite IH. by destruct s.
Qed.

Lemma unquote_appendString s : utf8 s → unquote (appendString s) = Some s.
Proof.
  intros (body & Eq & Eu & _)%quoted_body. unfold appendString. rewrite Eq.
  change (unquote _) with ('(body, last) ← split_last (body +:+ quote_string);
    if is_char last quote then chunks unquote_piece 0 body else None).
  unfold quote_string. by rewrite split_last_app.
Qed.

(** Escaped texts: [compact] leaves them as they are. *)
Definition escaped (s : string) : Prop := ∀ rest,
  chunks html_piece 0 (s +:+ rest) = tail ← chunks html_piece 0 rest; Some (s +:+ tail).

Lemma escaped_nil : escaped EmptyString.
Proof. intros rest. change ("" +:+ rest) with rest. by destruct (chunks html_piece 0 rest). Qed.

Lemma escaped_app s t : escaped s → escaped t → escaped (s +:+ t).
Proof.
  intros Hs Ht rest. rewrite string_app_assoc, Hs, Ht. destruct (chunks html_piece 0 rest); [|done]. simpl.
  by rewrite string_app_assoc.
Qed.

Lemma escaped_html s : escaped s → html_escape s = s.
Proof. intros Hs. unfold html_escape. rewrite <- (string_app_nil_r s) at 1. rewrite Hs. simpl. by rewrite string_app_nil_r. Qed.

(** A character that is copied. *)
Definition plain_char (c : ascii) : bool := negb (bool_decide (byte_of c ∈ [38; 60; 62; 226])).

Lemma escaped_char c s : plain_char c = true → escaped s → escaped (String c s).
Proof.
  intros Hc Hs rest. change (String c s +:+ rest) with (char_string c +:+ (s +:+ rest)).
  rewrite (chunks_piece _ _ (char_string c)), Hs; [by destruct (chunks html_piece 0 rest)|done|].
  clear -Hc. by each_char c.
Qed.

Fixpoint plain_chars (s : string) : bool :=
  match s with EmptyString => true | String c s => plain_char c && plain_chars s end.

Lemma escaped_plain s : plain_chars s = true → escaped s.
Proof.
  induction s as [|c s IH]; [intros _; apply escaped_nil|]. cbn [plain_chars]. rewrite andb_true_iff. intros [? ?].
  by apply escaped_char; [|apply IH].
Qed.

Lemma rune_bytes_high r :
  128 ≤ r → scalar r = true →
  ∃ b0 bs, rune_bytes r = b0 :: bs ∧ 192 ≤ b0 < 256 ∧ Forall (λ b, 128 ≤ b ≤ 191) bs.
Proof.
  intros Hr [Hs _]%scalar_true. unfold MaxRune in Hs. unfold rune_bytes.
  rewrite (proj2 (between_false 0 _ _)) by lia.
  decide_ranges; eexists _, _; (split; [done|]); (split; [quotients|]); repeat constructor; quotients.
Qed.

Lemma escaped_continuation bs : Forall (λ b, 128 ≤ b ≤ 191) bs → escaped (string_of_bytes bs).
Proof.
  induction 1 as [|b bs Hb _ IH]; [apply escaped_nil|]. simpl. apply escaped_char; [|done].
  unfold plain_char. rewrite byte_of_char_of by lia. rewrite bool_decide_false; [done|].
  rewrite !elem_of_cons, elem_of_nil. lia.
Qed.

Lemma prefix_rune r r' s :
  scalar r = true → scalar r' = true → r ≠ r' → strings_HasPrefix (EncodeRune r +:+ s) (EncodeRune r') = false.
Proof.
  intros Hr Hr' Hne. apply not_true_iff_false. intros [t E]%strings_HasPrefix_spec.
  pose proof (DecodeRune_EncodeRune r s Hr) as E1. rewrite E, DecodeRune_EncodeRune in E1 by done. congruence.
Qed.

Lemma escaped_rune r : scalar r = true → escaped (rune_text r).
Proof.
  intros Hr. unfold rune_text. destruct (Z.ltb_spec r 128) as [Hlow|Hhigh].
  { apply escaped_plain. apply scalar_true in Hr as [Hr _]. assert (0 ≤ r < 128) as Hb by lia. clear -Hb.
    rewrite <- (byte_of_char_of r) in Hb |- * by lia. generalize (char_of r) as c, Hb. clear. intros c Hb.
    each_char c; reflexivity || (exfalso; revert Hb; vm_compute; by intros [_ ?]). }
  destruct (Z.eqb_spec r 8232) as [->|]; [by apply escaped_plain|].
  destruct (Z.eqb_spec r 8233) as [->|]; [by apply escaped_plain|]. cbn [orb].
  intros rest. pose proof (prefix_rune r 8232 rest Hr) as H1. pose proof (prefix_rune r 8233 rest Hr) as H2.
  destruct (rune_bytes_high r Hhigh Hr) as (b0 & bs & Eb & Hb0 & Hbs).
  assert (EncodeRune r = String (char_of b0) (string_of_bytes bs)) as Er by (unfold EncodeRune; by rewrite Hr, Eb).
  rewrite Er in *. change (String ?c ?s +:+ rest) with (char_string c +:+ (s +:+ rest)).
  rewrite (chunks_piece _ _ (char_string (char_of b0))), escaped_continuation;
    [by destruct (chunks html_piece 0 rest)|done|done|].
  rewrite string_app_cons in *. change (char_string ?c +:+ ?s) with (String c s). unfold html_piece.
  rewrite byte_of_char_of, H1, H2 by (done || lia).
  by rewrite bool_decide_false by (rewrite !elem_of_cons, elem_of_nil; lia).
Qed.

Lemma escaped_body s body : utf8 s → chunks quote_piece 0 s = Some body → escaped body.
Proof.
  intros Hs. revert body. induction Hs as [|r s Hr _ IH]; intros body; [intros [= <-]; apply escaped_nil|].
  rewrite (chunks_piece _ _ (rune_text r)) by (apply EncodeRune_nonempty || by apply quote_piece_rune).
  destruct (chunks quote_piece 0 s) as [tail|]; [|done]. intros [= <-].
  apply escaped_app; [by apply escaped_rune|by apply IH].
Qed.

(** The text of a key: a quoted string. *)
Definition key_text (text : string) : Prop :=
  value_text 0 text ∧ (∃ rest, text = String quote rest) ∧ html_escape text = text.

(** The text of a scalar: not an object or array, and already escaped. *)
Definition literal_text (text : string) : Prop :=
  value_text 0 text ∧ html_escape text = text ∧
  match text with String c _ => existsb (is_char c) ["{"; "["]%char = false | EmptyString => True end.

Lemma key_text_appendString s : utf8 s → key_text (appendString s).
Proof.
  intros Hs. destruct (quoted_body s Hs) as (body & Eq & _ & Hscan). pose proof (escaped_body s body Hs Eq) as He.
  unfold appendString. rewrite Eq. split; [|split; [by eexists|]].
  - split; [by eexists _, _|]. intros stack _. exists stateEndValue. split; [|done].
    change (scan_path _ stack _) with (scan_path stateInString stack (body +:+ quote_string)).
    by rewrite scan_path_app, Hscan.
  - apply escaped_html, escaped_app; [by apply escaped_plain|]. by apply escaped_app; [|apply escaped_plain].
Qed.

Lemma literal_text_appendString s : utf8 s → literal_text (appendString s).
Proof. by intros (? & _ & ?)%key_text_appendString. Qed.

(** ** Printed trees *)

Fixpoint nesting (v : json) : nat :=
  match v with
  | Literal _ => 0
  | Array elements => S (foldr (λ element acc, Nat.max (nesting element) acc) 0%nat elements)
  | Object members => S (foldr (λ member acc, Nat.max (nesting member.2) acc) 0%nat members)
  end.

(** The leaves of a tree are values and its keys are strings. *)
Fixpoint well_formed (v : json) : Prop :=
  match v with
  | Literal text => literal_text text
  | Array elements => foldr (λ element acc, well_formed element ∧ acc) True elements
  | Object members => foldr (λ member acc, key_text member.1 ∧ well_formed member.2 ∧ acc) True members
  end.

Section json_induction.
Context (P : json → Prop).
Context (Hliteral : ∀ text, P (Literal text)).
Context (Harray : ∀ elements, Forall P elements → P (Array elements)).
Context (Hobject : ∀ members, Forall (λ member, P member.2) members → P (Object members)).

Lemma json_tree_ind v : P v.
Proof.
  revert v. fix IH 1. intros [text|elements|members]; [apply Hliteral|apply Harray|apply Hobject].
  - induction elements as [|v elements IHl]; constructor; [apply IH|apply IHl].
  - induction members as [|[key v] members IHl]; constructor; [apply IH|apply IHl].
Qed.
End json_induction.

(** The texts after the first element and after the first member. *)
Definition more_elements (depth : nat) (elements : list json) : string :=
  foldr (λ element rest, "," +:+ newline_indent (S depth) +:+ print (S depth) element +:+ rest)
        (newline_indent depth +:+ "]") elements.

Definition more_members (depth : nat) (members : list (string * json)) : string :=
  foldr (λ member rest, "," +:+ newline_indent (S depth) +:+ member.1 +:+ ": " +:+ print (S depth) member.2 +:+ rest)
        (newline_indent depth +:+ "}") members.

(** States that skip white space. *)
Definition waits (st : scan_state) (stack : list parse_state) : bool :=
  match st with
  | stateBeginValue | stateBeginValueOrEmpty | stateBeginString | stateBeginStringOrEmpty => true
  | stateEndValue => negb (bool_decide (stack = []))
  | _ => false
  end.

Lemma waits_space st stack c : waits st stack = true → isSpace c = true → take_step st stack c = Continue st stack.
Proof.
  intros Hst Hc. unfold take_step. destruct st; try done; simpl; unfold step_BeginValue, step_BeginString; rewrite ?Hc; try done.
  destruct stack; [done|]. simpl. by rewrite Hc.
Qed.

Lemma scan_newline st stack n rest :
  waits st stack = true → scan_path st stack (newline_indent n +:+ rest) = scan_path st stack rest.
Proof.
  intros Hst. unfold newline_indent. rewrite string_app_cons. cbn [scan_path]. rewrite waits_space by done.
  induction n as [|n IH]; [done|].
  change (spaces (S n) +:+ rest) with (String " " (String " " (spaces n +:+ rest))). cbn [scan_path].
  by rewrite !waits_space.
Qed.

Lemma scan_key st stack key rest :
  key_text key → st = stateBeginString ∨ st = stateBeginStringOrEmpty → (length stack ≤ maxNestingDepth)%nat →
  ∃ st', complete st' stack = true ∧ scan_path st stack (key +:+ rest) = scan_path st' stack rest.
Proof.
  intros ([_ Hpath] & [tail ->] & _) Hst Hlen. destruct (Hpath stack) as (st' & Hp & Hc); [lia|]. exists st'. split; [done|].
  assert (scan_path st stack (String quote tail +:+ rest) = scan_path stateBeginValue stack (String quote tail +:+ rest)) as ->
    by (by destruct Hst as [-> | ->]).
  by rewrite scan_path_app, Hp.
Qed.

Lemma scan_value_or_empty stack depth text rest :
  value_text depth text → (length stack + depth ≤ maxNestingDepth)%nat →
  scan_path stateBeginValueOrEmpty stack (text +:+ rest) = scan_path stateBeginValue stack (text +:+ rest).
Proof.
  intros [(c & tail & -> & Hc) Hpath] Hlen. destruct (Hpath stack Hlen) as (st & Hp & _). rewrite string_app_cons.
  cbn [scan_path] in *. unfold take_step in *. cbn [scan_step] in *. rewrite Hc.
  destruct (is_char c "]") eqn:Ec; [|done]. apply Ascii.eqb_eq in Ec as ->. by destruct stack.
Qed.

(** A value at the place where one is expected. *)
Lemma scan_value stack depth text rest :
  value_text depth text → (length stack + depth ≤ maxNestingDepth)%nat →
  ∃ st, complete st stack = true ∧ scan_path stateBeginValue stack (text +:+ rest) = scan_path st stack rest.
Proof.
  intros [_ Hpath] Hlen. destruct (Hpath stack Hlen) as (st & Hp & Hc). exists st. split; [done|].
  by rewrite scan_path_app, Hp.
Qed.

(** A byte after a complete value inside an object or array. *)
Lemma scan_after st p stack c rest st' stack' :
  complete st (p :: stack) = true → delimiter c = true → step_EndValue (p :: stack) c = Some (st', stack') →
  scan_path st (p :: stack) (String c rest) = scan_path st' stack' rest.
Proof. intros Hst Hc E. cbn [scan_path]. by rewrite (complete_take_step _ _ _ _ st' stack'). Qed.

(** A member: the key, the colon and the value. *)
Lemma scan_member st stack n depth key text rest :
  key_text key → value_text depth text → (S (length stack) + depth ≤ maxNestingDepth)%nat →
  st = stateBeginString ∨ st = stateBeginStringOrEmpty →
  ∃ st', complete st' (parseObjectValue :: stack) = true ∧
    scan_path st (parseObjectKey :: stack) (newline_indent n +:+ key +:+ ": " +:+ text +:+ rest) =
    scan_path st' (parseObjectValue :: stack) rest.
Proof.
  intros Hkey Htext Hlen Hst. rewrite scan_newline by (by destruct Hst as [-> | ->]).
  destruct (scan_key st (parseObjectKey :: stack) key (": " +:+ text +:+ rest) Hkey Hst) as (st1 & Hc1 & ->); [simpl; lia|].
  change (": " +:+ text +:+ rest) with (String ":" (String " " (text +:+ rest))).
  rewrite (scan_after _ _ _ _ _ stateBeginValue (parseObjectValue :: stack)) by done.
  destruct (scan_value (parseObjectValue :: stack) depth text rest Htext) as (st2 & Hc2 & E); [simpl; lia|].
  exists st2. split; [done|]. rewrite <- E. cbn [scan_path]. by rewrite waits_space.
Qed.

(** The state after a closing brace or bracket. *)
Definition closed (stack : list parse_state) : scan_state :=
  match stack with [] => stateEndTop | _ => stateEndValue end.

Lemma complete_closed stack : complete (closed stack) stack = true.
Proof. by destruct stack. Qed.

(** A closing brace or bracket on its own line. *)
Lemma scan_close st p stack n c :
  complete st (p :: stack) = true → delimiter c = true →
  step_EndValue (p :: stack) c = popParseState (p :: stack) →
  scan_path st (p :: stack) (newline_indent n +:+ char_string c) = Some (closed stack, stack).
Proof.
  intros Hst Hc E. unfold newline_indent. rewrite string_app_cons.
  rewrite (scan_after _ _ _ _ _ stateEndValue (p :: stack)) by done.
  assert (∀ rest, scan_path stateEndValue (p :: stack) (spaces n +:+ rest) =
    scan_path stateEndValue (p :: stack) rest) as ->.
  { intros rest. induction n as [|n IH]; [done|].
    change (spaces (S n) +:+ rest) with (String " " (String " " (spaces n +:+ rest))). cbn [scan_path].
    by rewrite !waits_space. }
  unfold char_string. destruct stack as [|q stack]; simpl in E;
    [by rewrite (scan_after _ _ _ _ _ stateEndTop [])|by rewrite (scan_after _ _ _ _ _ stateEndValue (q :: stack))].
Qed.

Lemma scan_more_members members stack d st :
  Forall (λ member, key_text member.1 ∧ value_text (nesting member.2) (print (S d) member.2)) members →
  (S (length stack) + foldr (λ member acc, Nat.max (nesting member.2) acc) 0 members ≤ maxNestingDepth)%nat →
  complete st (parseObjectValue :: stack) = true →
  scan_path st (parseObjectValue :: stack) (more_members d members) = Some (closed stack, stack).
Proof.
  intros Hm. revert st. induction Hm as [|[key v] members [Hkey Hv] _ IH]; intros st Hlen Hst.
  { by apply scan_close. }
  cbn [foldr fst snd] in Hlen, Hkey, Hv. cbn [more_members foldr fst snd]. fold (more_members d members).
  change ("," +:+ ?t) with (String "," t).
  rewrite (scan_after _ _ _ _ _ stateBeginString (parseObjectKey :: stack)) by done.
  edestruct (scan_member stateBeginString stack (S d)) as (st1 & Hc1 & ->); [done|done|lia|by left|].
  apply IH; [lia|done].
Qed.

Lemma scan_more_elements elements stack d st :
  Forall (λ v, value_text (nesting v) (print (S d) v)) elements →
  (S (length stack) + foldr (λ v acc, Nat.max (nesting v) acc) 0 elements ≤ maxNestingDepth)%nat →
  complete st (parseArrayValue :: stack) = true →
  scan_path st (parseArrayValue :: stack) (more_elements d elements) = Some (closed stack, stack).
Proof.
  intros Hm. revert st. induction Hm as [|v elements Hv _ IH]; intros st Hlen Hst.
  { by apply scan_close. }
  cbn [foldr] in Hlen. cbn [more_elements foldr]. fold (more_elements d elements).
  change ("," +:+ ?t) with (String "," t).
  rewrite (scan_after _ _ _ _ _ stateBeginValue (parseArrayValue :: stack)) by done. rewrite scan_newline by done.
  destruct (scan_value (parseArrayValue :: stack) _ _ (more_elements d elements) Hv) as (st1 & Hc1 & ->); [cbn [length]; lia|].
  apply IH; [lia|done].
Qed.

Lemma open_step c p next stack :
  (S (length stack) ≤ maxNestingDepth)%nat → scan_step stateBeginValue stack c = pushParseState next p stack →
  next ≠ stateEndTop → take_step stateBeginValue stack c = Continue next (p :: stack).
Proof.
  intros Hlen E Hnext. unfold take_step. rewrite E. unfold pushParseState.
  rewrite (proj2 (Nat.leb_le _ _)) by (cbn [length]; lia). by destruct next.
Qed.

Lemma members_Forall (P : nat → json → Prop) d members :
  foldr (λ member acc, key_text member.1 ∧ well_formed member.2 ∧ acc) True members →
  Forall (λ member, ∀ n, well_formed member.2 → P n member.2) members →
  Forall (λ member, key_text member.1 ∧ P d member.2) members.
Proof.
  induction members as [|[key v] members IH]; [done|]. intros (Hk & Hv & Hms) [Hp Hps]%Forall_cons. constructor; [|by apply IH].
  split; [done|by apply Hp].
Qed.

Lemma elements_Forall (P : nat → json → Prop) d elements :
  foldr (λ v acc, well_formed v ∧ acc) True elements →
  Forall (λ v, ∀ n, well_formed v → P n v) elements → Forall (P d) elements.
Proof.
  induction elements as [|v elements IH]; [done|]. intros (Hv & Hvs) [Hp Hps]%Forall_cons. constructor; [by apply Hp|by apply IH].
Qed.

Lemma scan_array d elements stack :
  Forall (λ v, value_text (nesting v) (print (S d) v)) elements →
  (length stack + nesting (Array elements) ≤ maxNestingDepth)%nat →
  scan_path stateBeginValue stack (print d (Array elements)) = Some (closed stack, stack).
Proof.
  intros Hvs Hlen. cbn [nesting] in Hlen.
  assert (take_step stateBeginValue stack "[" = Continue stateBeginValueOrEmpty (parseArrayValue :: stack)) as Hopen
    by (apply open_step; [lia|done..]).
  destruct Hvs as [|v elements Hv Hvs].
  { change (print d (Array [])) with (String "[" "]"). cbn [scan_path]. rewrite Hopen. by destruct stack. }
  change (print d (Array (v :: elements))) with
    (String "[" (newline_indent (S d) +:+ print (S d) v +:+ more_elements d elements)).
  cbn [scan_path]. rewrite Hopen, scan_newline by done. cbn [foldr] in Hlen.
  rewrite (scan_value_or_empty _ _ _ _ Hv) by (cbn [length]; lia).
  destruct (scan_value (parseArrayValue :: stack) _ _ (more_elements d elements) Hv) as (st1 & Hc1 & ->); [cbn [length]; lia|].
  apply scan_more_elements; [done|lia|done].
Qed.

Lemma scan_object d members stack :
  Forall (λ member, key_text member.1 ∧ value_text (nesting member.2) (print (S d) member.2)) members →
  (length stack + nesting (Object members) ≤ maxNestingDepth)%nat →
  scan_path stateBeginValue stack (print d (Object members)) = Some (closed stack, stack).
Proof.
  intros Hms Hlen. cbn [nesting] in Hlen.
  assert (take_step stateBeginValue stack "{" = Continue stateBeginStringOrEmpty (parseObjectKey :: stack)) as Hopen
    by (apply open_step; [lia|done..]).
  destruct Hms as [|[key v] members [Hkey Hv] Hms].
  { change (print d (Object [])) with (String "{" "}"). cbn [scan_path]. rewrite Hopen. by destruct stack. }
  change (print d (Object ((key, v) :: members))) with
    (String "{" (newline_indent (S d) +:+ key +:+ ": " +:+ print (S d) v +:+ more_members d members)).
  cbn [scan_path]. rewrite Hopen. cbn [foldr fst snd] in Hkey, Hv, Hlen.
  edestruct (scan_member stateBeginStringOrEmpty stack (S d)) as (st1 & Hc1 & ->); [done|done|lia|by right|].
  apply scan_more_members; [done|lia|done].
Qed.

(** The layout of a well-formed tree is one value. *)
Lemma print_value_text d v : well_formed v → value_text (nesting v) (print d v).
Proof.
  revert d. induction v as [text|elements IH|members IH] using json_tree_ind; intros d Hwf; [apply Hwf|..].
  - split; [destruct elements; by eexists _, _|]. intros stack Hlen. exists (closed stack).
    split; [|apply complete_closed]. apply scan_array; [|done].
    by apply (elements_Forall (λ n v, value_text (nesting v) (print n v)) (S d)).
  - split; [destruct members as [|[? ?] ?]; by eexists _, _|]. intros stack Hlen. exists (closed stack).
    split; [|apply complete_closed]. apply scan_object; [|done].
    by apply (members_Forall (λ n v, value_text (nesting v) (print n v)) (S d)).
Qed.

(** ** Reading printed trees *)

Lemma expect_close n c : isSpace c = false → expect c (newline_indent n +:+ char_string c) = Some EmptyString.
Proof.
  intros Hc. unfold expect. rewrite skip_spaces_app by (intros ? ? [= <- _]; done). simpl.
  unfold is_char. by rewrite Ascii.eqb_refl.
Qed.

Lemma expect_other n c c' : isSpace c' = false → is_char c' c = false → expect c (newline_indent n +:+ char_string c') = None.
Proof.
  intros Hc Hne. unfold expect. rewrite skip_spaces_app by (intros ? ? [= <- _]; done). simpl. by rewrite Hne.
Qed.

(** The first byte of what follows an element or member is a delimiter. *)
Lemma more_members_delimiter d members c rest : more_members d members = String c rest → delimiter c = true.
Proof. by destruct members as [|[? ?] ?]; intros [= <- _]. Qed.

Lemma more_elements_delimiter d elements c rest : more_elements d elements = String c rest → delimiter c = true.
Proof. by destruct elements; intros [= <- _]. Qed.

Definition printed_members (depth : nat) (members : list (string * json)) : list (string * string) :=
  (λ member, (member.1, print depth member.2)) <$> members.

Definition shallow (v : json) : Prop := (nesting v ≤ maxNestingDepth)%nat.

Lemma members_loop_print fuel d key v members :
  key_text key → well_formed v → shallow v →
  Forall (λ member, key_text member.1 ∧ well_formed member.2 ∧ shallow member.2) members →
  (length members < fuel)%nat →
  members_loop fuel (newline_indent (S d) +:+ key +:+ ": " +:+ print (S d) v +:+ more_members d members) =
  Some (printed_members (S d) ((key, v) :: members)).
Proof.
  intros Hkey Hv Hd Hms. revert fuel key v Hkey Hv Hd.
  induction Hms as [|[key' v'] members (Hkey' & Hv' & Hd') _ IH]; intros [|fuel] key v Hkey Hv Hd Hfuel; simpl in Hfuel; try lia;
    cbn [members_loop].
  all: rewrite (next_value_indent _ 0) by (apply Hkey || apply Nat.le_0_l || (by intros ? ? [= <- _])).
  all: cbn [mbind option_bind].
  all: change (expect ":" (": " +:+ ?s)) with (Some (String " " s)); cbn [mbind option_bind].
  all: change (next_value (String " " ?s)) with (next_value s).
  all: rewrite (next_value_text (nesting v)) by (done || by apply print_value_text || apply more_members_delimiter).
  all: cbn [mbind option_bind].
  - change (more_members d []) with (newline_indent d +:+ char_string "}"). rewrite expect_other by done. by rewrite expect_close.
  - simpl in Hkey', Hv', Hd'.
    change (expect "," (more_members d ((key', v') :: members))) with
      (Some (newline_indent (S d) +:+ key' +:+ ": " +:+ print (S d) v' +:+ more_members d members)).
    cbn [mbind option_bind]. by rewrite IH by (done || lia).
Qed.

Lemma more_members_length d members : (length members < String.length (more_members d members))%nat.
Proof.
  induction members as [|[key v] members IH]; [simpl; lia|]. cbn [more_members foldr]. fold (more_members d members).
  rewrite !string_length_app. simpl. lia.
Qed.

Lemma more_elements_length d elements : (length elements < String.length (more_elements d elements))%nat.
Proof.
  induction elements as [|v elements IH]; [simpl; lia|]. cbn [more_elements foldr]. fold (more_elements d elements).
  rewrite !string_length_app. simpl. lia.
Qed.

Lemma expect_next n c text rest depth :
  value_text depth text → (depth ≤ maxNestingDepth)%nat → delimiter c = true → expect c (newline_indent n +:+ text +:+ rest) = None.
Proof.
  intros [(c' & tail & -> & Hc') Hpath] Hd Hc. unfold expect. rewrite skip_spaces_app by (intros ? ? [= <- _]; done).
  rewrite string_app_cons. destruct (is_char c' c) eqn:E; [|done]. apply Ascii.eqb_eq in E as ->.
  destruct (Hpath [] Hd) as (st & Hp & _). cbn [scan_path] in Hp.
  assert (take_step stateBeginValue [] c = Rejected ∨ isSpace c = true) as [Hr|Hs].
  { clear -Hc. each_char c; first [left; reflexivity|right; reflexivity|done]. }
  - by rewrite Hr in Hp.
  - congruence.
Qed.

Lemma object_members_print d members :
  Forall (λ member, key_text member.1 ∧ well_formed member.2 ∧ shallow member.2) members →
  object_members (print d (Object members)) = Some (printed_members (S d) members).
Proof.
  destruct members as [|[key v] members]; [done|]. intros [(Hkey & Hv & Hd) Hms]%Forall_cons.
  change (object_members _) with (let s := newline_indent (S d) +:+ key +:+ ": " +:+ print (S d) v +:+ more_members d members in
    match expect "}" s with Some _ => Some [] | None => members_loop (String.length s) s end).
  cbv zeta. rewrite (expect_next _ _ _ _ 0) by (apply Hkey || done || apply Nat.le_0_l).
  apply members_loop_print; [done..|]. rewrite !string_length_app. pose proof (more_members_length d members). lia.
Qed.

Lemma elements_loop_print fuel d v elements :
  well_formed v → shallow v → Forall (λ v, well_formed v ∧ shallow v) elements → (length elements < fuel)%nat →
  elements_loop fuel (newline_indent (S d) +:+ print (S d) v +:+ more_elements d elements) =
  Some (print (S d) <$> v :: elements).
Proof.
  intros Hv Hd Hvs. revert fuel v Hv Hd.
  induction Hvs as [|v' elements (Hv' & Hd') _ IH]; intros [|fuel] v Hv Hd Hfuel; simpl in Hfuel; try lia;
    cbn [elements_loop].
  all: rewrite (next_value_indent _ (nesting v)) by (done || by apply print_value_text || apply more_elements_delimiter).
  - cbn [mbind option_bind]. change (more_elements d []) with (newline_indent d +:+ char_string "]").
    rewrite expect_other by done. by rewrite expect_close.
  - cbn [mbind option_bind].
    change (expect "," (more_elements d (v' :: elements))) with
      (Some (newline_indent (S d) +:+ print (S d) v' +:+ more_elements d elements)).
    cbn [mbind option_bind]. by rewrite IH by (done || lia).
Qed.

Lemma array_elements_print d elements :
  Forall (λ v, well_formed v ∧ shallow v) elements →
  array_elements (print d (Array elements)) = Some (print (S d) <$> elements).
Proof.
  destruct elements as [|v elements]; [done|]. intros [[Hv Hd] Hvs]%Forall_cons.
  change (array_elements _) with (let s := newline_indent (S d) +:+ print (S d) v +:+ more_elements d elements in
    match expect "]" s with Some _ => Some [] | None => elements_loop (String.length s) s end).
  cbv zeta. rewrite (expect_next _ _ _ _ (nesting v)) by (done || by apply print_value_text).
  apply elements_loop_print; [done..|]. rewrite !string_length_app. pose proof (more_elements_length d elements). lia.
Qed.

(** An object ends at its closing brace, whatever follows. *)
Lemma next_value_object d members rest :
  Forall (λ member, key_text member.1 ∧ well_formed member.2) members → shallow (Object members) →
  next_value (print d (Object members) +:+ rest) = Some (print d (Object members), rest).
Proof.
  intros Hms Hd. unfold next_value.
  assert (skip_spaces (print d (Object members) +:+ rest) = print d (Object members) +:+ rest) as ->
    by (by destruct members as [|[? ?] ?]).
  rewrite (take_value_path _ _ stateEndTop []).
  - destruct rest as [|c rest]; cbn [take_value]; [|replace (take_step stateEndTop [] c) with Ended];
      [by cbn; rewrite string_app_nil_r..|]. unfold take_step. simpl. unfold step_EndTop. by destruct (isSpace c).
  - apply scan_object; [|done]. eapply Forall_impl; [done|]. intros m [? ?]. split; [done|]. by apply print_value_text.
Qed.

(** A printed tree is valid JSON. *)
Lemma checkValid_path st stack s st' stack' :
  scan_path st stack s = Some (st', stack') → checkValid st stack s = scan_eof st' stack'.
Proof.
  revert st stack. induction s as [|c s IH]; intros st stack; simpl; [by intros [= -> ->]|].
  unfold take_step. destruct (scan_step st stack c) as [[[] ?]|]; destruct (scan_eof st stack); try done; by apply IH.
Qed.

Lemma print_valid d v : well_formed v → shallow v → json_Valid (print d v) = true.
Proof.
  intros [_ Hpath]%(print_value_text d) Hd. destruct (Hpath [] Hd) as (st & Hp & Hc).
  unfold json_Valid. by rewrite (checkValid_path _ _ _ _ _ Hp), complete_eof.
Qed.

(** A text is longer than it is nested. *)
Lemma more_elements_nesting d elements :
  Forall (λ v, ∀ d, (nesting v ≤ String.length (print d v))%nat) elements →
  (foldr (λ v acc, Nat.max (nesting v) acc) 0 elements ≤ String.length (more_elements d elements))%nat.
Proof.
  induction 1 as [|v elements Hv _ IH]; [simpl; lia|]. cbn [more_elements foldr]. fold (more_elements d elements).
  rewrite !string_length_app. specialize (Hv (S d)). lia.
Qed.

Lemma more_members_nesting d members :
  Forall (λ member, ∀ d, (nesting member.2 ≤ String.length (print d member.2))%nat) members →
  (foldr (λ member acc, Nat.max (nesting member.2) acc) 0 members ≤ String.length (more_members d members))%nat.
Proof.
  induction 1 as [|[key v] members Hv _ IH]; [simpl; lia|]. cbn [more_members foldr fst snd] in *. fold (more_members d members).
  rewrite !string_length_app. specialize (Hv (S d)). lia.
Qed.

Lemma nesting_length d v : (nesting v ≤ String.length (print d v))%nat.
Proof.
  revert d. induction v as [text|elements IH|members IH] using json_tree_ind; intros d; [simpl; lia|..].
  - destruct elements as [|v elements]; [simpl; lia|]. apply Forall_cons in IH as [Hv Hvs].
    change (print d (Array (v :: elements))) with
      ("[" +:+ newline_indent (S d) +:+ print (S d) v +:+ more_elements d elements).
    cbn [nesting foldr]. rewrite !string_length_app. specialize (Hv (S d)). pose proof (more_elements_nesting d _ Hvs).
    change (String.length "[") with 1%nat. lia.
  - destruct members as [|[key v] members]; [simpl; lia|]. apply Forall_cons in IH as [Hv Hvs].
    change (print d (Object ((key, v) :: members))) with
      ("{" +:+ newline_indent (S d) +:+ key +:+ ": " +:+ print (S d) v +:+ more_members d members).
    cbn [nesting foldr snd]. rewrite !string_length_app. specialize (Hv (S d)). cbn [snd] in Hv.
    pose proof (more_members_nesting d _ Hvs). change (String.length "{") with 1%nat. lia.
Qed.

(** ** Raw JSON

    [compact] and [Indent] of a raw text, as the tree they lay out again: the
    literals keep their texts, up to the HTML escapes. *)

Fixpoint text_tree (fuel : nat) (text : string) : option json :=
  match fuel, text with
  | S fuel, String c _ =>
      if is_char c "{" then
        members ← object_members text;
        members ← mapM (λ '(key, value), v ← text_tree fuel value; Some (html_escape key, v)) members;
        Some (Object members)
      else if is_char c "[" then
        elements ← array_elements text;
        elements ← mapM (text_tree fuel) elements;
        Some (Array elements)
      else Some (Literal (html_escape text))
  | _, _ => None
  end.

(** One value and nothing else. *)
Definition compact_tree (text : string) : option json :=
  '(value, rest) ← next_value text;
  match skip_spaces rest with
  | EmptyString => text_tree (S (String.length value)) value
  | _ => None
  end.

Lemma foldr_and_Forall {A} (P : A → Prop) l : foldr (λ a acc, P a ∧ acc) True l ↔ Forall P l.
Proof.
  induction l as [|a l IH]; [by split|]. rewrite Forall_cons, <- IH. done.
Qed.

Lemma well_formed_elements elements : well_formed (Array elements) ↔ Forall well_formed elements.
Proof. apply foldr_and_Forall. Qed.

Lemma well_formed_members members :
  well_formed (Object members) ↔ Forall (λ member, key_text member.1 ∧ well_formed member.2) members.
Proof. rewrite <- foldr_and_Forall. induction members as [|m ms IH]; [done|]. simpl in *. tauto. Qed.

Lemma nesting_element v elements : v ∈ elements → (nesting v < nesting (Array elements))%nat.
Proof.
  cbn [nesting]. induction elements as [|x elements IH]; [by intros ?%not_elem_of_nil|].
  intros [-> | Hv]%elem_of_cons; cbn [foldr]; [lia|]. specialize (IH Hv). lia.
Qed.

Lemma nesting_member key v members : (key, v) ∈ members → (nesting v < nesting (Object members))%nat.
Proof.
  cbn [nesting]. induction members as [|[k x] members IH]; [by intros ?%not_elem_of_nil|].
  intros [[= -> ->] | Hv]%elem_of_cons; cbn [foldr snd]; [lia|]. specialize (IH Hv). lia.
Qed.

(** The children of a well-formed tree that is not too deep. *)
Lemma shallow_elements elements :
  well_formed (Array elements) → shallow (Array elements) → Forall (λ v, well_formed v ∧ shallow v) elements.
Proof.
  rewrite well_formed_elements, !Forall_forall. intros Hwf Hd v Hv. split; [by apply Hwf|].
  apply nesting_element in Hv. unfold shallow in *. lia.
Qed.

Lemma shallow_members members :
  well_formed (Object members) → shallow (Object members) →
  Forall (λ member, key_text member.1 ∧ well_formed member.2 ∧ shallow member.2) members.
Proof.
  rewrite well_formed_members, !Forall_forall. intros Hwf Hd [key v] Hv. destruct (Hwf _ Hv). split_and!; [done..|].
  apply nesting_member in Hv. unfold shallow in *. simpl. lia.
Qed.

Lemma mapM_print_elements (f : string → option json) d elements :
  Forall (λ v, f (print d v) = Some v) elements → mapM f (print d <$> elements) = Some elements.
Proof. induction 1 as [|v elements Hv _ IH]; [done|]. rewrite fmap_cons. cbn [mapM]. by rewrite Hv, IH. Qed.

Lemma mapM_print_members (f : string → option json) d members :
  Forall (λ member, key_text member.1 ∧ f (print d member.2) = Some member.2) members →
  mapM (λ '(key, value), v ← f value; Some (html_escape key, v)) (printed_members d members) = Some members.
Proof.
  induction 1 as [|[key v] members [(_ & _ & Hk) Hv] _ IH]; [done|]. unfold printed_members. rewrite fmap_cons.
  cbn [mapM fst snd] in *. rewrite Hv. cbn [mbind option_bind]. rewrite Hk. unfold printed_members in IH. by rewrite IH.
Qed.

(** A tree is recovered from its layout. *)
Lemma text_tree_print fuel d v : well_formed v → shallow v → (nesting v < fuel)%nat → text_tree fuel (print d v) = Some v.
Proof.
  revert fuel d. induction v as [text|elements IH|members IH] using json_tree_ind; intros [|fuel] d Hwf Hd Hf; try lia.
  - destruct Hwf as (((c & rest & -> & _) & _) & He & Hc). cbn [print text_tree]. cbn in Hc.
    apply orb_false_iff in Hc as [-> [-> _]%orb_false_iff]. by rewrite He.
  - pose proof (shallow_elements _ Hwf Hd) as Hes. pose proof (array_elements_print d elements Hes) as Ea.
    assert (text_tree (S fuel) (print d (Array elements)) =
      elements ← array_elements (print d (Array elements)); elements ← mapM (text_tree fuel) elements; Some (Array elements)) as ->
      by (by destruct elements).
    rewrite Ea. cbn [mbind option_bind]. rewrite mapM_print_elements; [done|].
    rewrite Forall_forall in IH, Hes |- *. intros v Hv. destruct (Hes v Hv). apply IH; [done..|].
    apply nesting_element in Hv. lia.
  - pose proof (shallow_members _ Hwf Hd) as Hms. pose proof (object_members_print d members Hms) as Eo.
    assert (text_tree (S fuel) (print d (Object members)) =
      members ← object_members (print d (Object members));
      members ← mapM (λ '(key, value), v ← text_tree fuel value; Some (html_escape key, v)) members; Some (Object members)) as ->
      by (by destruct members as [|[? ?] ?]).
    rewrite Eo. cbn [mbind option_bind]. rewrite mapM_print_members; [done|].
    rewrite Forall_forall in IH, Hms |- *. intros [key v] Hv. destruct (Hms _ Hv) as (? & ? & ?). split; [done|].
    apply (IH (key, v)); [done..|]. apply nesting_member in Hv. simpl. lia.
Qed.

Lemma compact_tree_print d v : well_formed v → shallow v → compact_tree (print d v) = Some v.
Proof.
  intros Hwf Hd. unfold compact_tree. pose proof (nesting_length d v) as Hn.
  rewrite <- (string_app_nil_r (print d v)) at 1.
  rewrite (next_value_text (nesting v)) by (done || by apply print_value_text). cbn [mbind option_bind skip_spaces].
  apply text_tree_print; [done..|lia].
Qed.
