(* ===== verification/JSONValues.v ===== *)
(** * JSON values of Go types (encoding/json)

    [Marshal] and [Unmarshal] for the kinds of types the policy documents are
    made of: strings, booleans, integers, slices, pointers and structs with
    tags. An encoder gives the tree [Marshal] writes ([None]: a value it
    rejects). A decoder gives the value of a zero variable after some texts
    have been decoded into it one after another, which is what happens to a
    field whose member is repeated in an object: [Unmarshal] does not clear a
    variable, it stores into it. *)

From Stdlib Require Import Ascii.
From stdpp Require Import pretty.
From S2P Require Import Prelude GoStrings Strconv JSON UTF8 JSONText.

#[local] Open Scope Z_scope.

Definition encoder (A : Type) : Type := A → option json.
Definition decoder (A : Type) : Type := list string → option A.

(** ** Scalars *)

Definition is_null (text : string) : bool := bool_decide (text = "null").

(** [null] leaves a scalar as it is. *)
Definition decode_scalar {A} (zero : A) (read : string → option A) : decoder A := λ texts,
  foldl (λ current text, value ← current; if is_null text then Some value else read text) (Some zero) texts.

Definition decode_string : decoder string := decode_scalar "" unquote.
Definition encode_string : encoder string := λ s, Some (Literal (appendString s)).

Definition read_bool (text : string) : option bool :=
  if bool_decide (text = "true") then Some true
  else if bool_decide (text = "false") then Some false else None.

Definition decode_bool : decoder bool := decode_scalar false read_bool.
Definition encode_bool : encoder bool := λ b, Some (Literal (if b then "true" else "false")).

Definition decode_uint64 : decoder Z := decode_scalar 0 ParseUint.
Definition encode_uint64 : encoder Z := λ n, Some (Literal (FormatUint n)).

Definition FormatInt (n : Z) : string := if n <? 0 then "-" +:+ FormatUint (- n) else FormatUint n.

Definition decode_int : decoder Z := decode_scalar 0 ParseInt.
Definition encode_int : encoder Z := λ n, Some (Literal (FormatInt n)).

(** ** Slices

    A list of the model is a slice. The empty list is the nil slice, which is
    written as [null]; a slice that was made is written as an array. An array
    replaces the length of a slice but its elements are decoded into the
    elements the slice already has; [null] and an empty array drop them. *)

Section slices.
Context {A : Type} (encode : encoder A) (decode : decoder A).

(** The texts that were decoded into each element. *)
Definition element_texts (arrays : list (list string)) : list (list string) :=
  (λ i, omap (λ array, array !! i) arrays) <$> seq 0 (max_list (length <$> arrays)).

Definition slice_elements (arrays : list (list string)) : option (list A) :=
  elements ← mapM decode (element_texts arrays);
  Some (take (default 0%nat (length <$> last arrays)) elements).

Fixpoint decode_arrays (arrays : list (list string)) (texts : list string) : option (list A) :=
  match texts with
  | [] => slice_elements arrays
  | text :: texts =>
      array ← (if is_null text then Some [] else array_elements text);
      match array with
      | [] => _ ← slice_elements arrays; decode_arrays [] texts
      | _ => decode_arrays (arrays ++ [array]) texts
      end
  end.

Definition decode_slice : decoder (list A) := decode_arrays [].

Definition encode_array : encoder (list A) := λ l, elements ← mapM encode l; Some (Array elements).

Definition encode_slice : encoder (list A) := λ l,
  match l with
  | [] => Some (Literal "null")
  | _ => encode_array l
  end.
End slices.

(** ** Pointers *)

Section pointers.
Context {A : Type} (encode : encoder A) (decode : decoder A).

(** The pointer after the texts since it was nil. *)
Definition pointee (pending : list string) : option (option A) :=
  match pending with [] => Some None | _ => value ← decode pending; Some (Some value) end.

(** [null] stores nil; the next value allocates a zero variable. *)
Fixpoint decode_pointee (pending texts : list string) : option (option A) :=
  match texts with
  | [] => pointee pending
  | text :: texts =>
      if is_null text then _ ← pointee pending; decode_pointee [] texts
      else decode_pointee (pending ++ [text]) texts
  end.

Definition decode_pointer : decoder (option A) := decode_pointee [].

Definition encode_pointer : encoder (option A) := λ o,
  match o with None => Some (Literal "null") | Some a => encode a end.
End pointers.

(** ** Structs *)

(** [foldName] for names of ASCII letters: case folding identifies two more
    code points with letters, the long s and the Kelvin sign. *)
Fixpoint fold_name (s : string) : string :=
  match s with
  | EmptyString => EmptyString
  | String c rest =>
      if strings_HasPrefix s (string_of_bytes [197; 191]) then String "S" (fold_name (string_drop 1 rest))
      else if strings_HasPrefix s (string_of_bytes [226; 132; 170]) then String "K" (fold_name (string_drop 2 rest))
      else String (if between 97 (byte_of c) 122 then char_of (byte_of c - 32) else c) (fold_name rest)
  end.

(** The field a key selects: the exact name first, then the folded one. *)
Definition find_field (names : list string) (key : string) : option string :=
  if bool_decide (key ∈ names) then Some key
  else snd <$> list_find (λ name, fold_name name = fold_name key) names.

(** The members of the objects decoded into a struct, by field: [null] leaves
    a struct as it is, and a key without a field is an error of the strict
    decoder. *)
Definition struct_members (names : list string) (text : string) : option (list (string * string)) :=
  if is_null text then Some []
  else
    members ← object_members text;
    mapM (λ '(key, value), key ← unquote key; name ← find_field names key; Some (name, value)) members.

Definition decode_fields (names : list string) (texts : list string) : option (string → list string) :=
  members ← mapM (struct_members names) texts;
  Some (λ name, snd <$> filter (λ member, member.1 = name) (concat members)).

(** A field of [Marshal]: its name, whether [omitempty] drops it, its value. *)
Record field := mkField { field_name : string; field_omitted : bool; field_value : option json }.

Definition encode_fields (fields : list field) : option json :=
  members ← mapM (λ f, value ← field_value f; Some (appendString (field_name f), value))
                 (filter (λ f, field_omitted f = false) fields);
  Some (Object members).

(** The tagged fields of a struct [S], in the order of its constructor, of
    type [C]: name, [omitempty] test, projection and codec of each. *)
Inductive schema (S : Type) : Type → Type :=
| End : schema S S
| Field {A C : Type} (name : string) (omitted : A → bool) (project : S → A)
    (encode : encoder A) (decode : decoder A) (others : schema S C) : schema S (A → C).
Arguments End {S}.
Arguments Field {S A C} name omitted project encode decode others.

Fixpoint schema_fields {S C} (sch : schema S C) (s : S) : list field :=
  match sch with
  | End => []
  | Field name omitted project encode _ others =>
      mkField name (omitted (project s)) (encode (project s)) :: schema_fields others s
  end.

Fixpoint schema_names {S C} (sch : schema S C) : list string :=
  match sch with
  | End => []
  | Field name _ _ _ _ others => name :: schema_names others
  end.

Fixpoint schema_decode {S C} (sch : schema S C) (get : string → list string) : C → option S :=
  match sch with
  | End => λ s, Some s
  | Field name _ _ _ decode others => λ make, value ← decode (get name); schema_decode others get (make value)
  end.

Definition encode_struct {S C} (sch : schema S C) : encoder S := λ s, encode_fields (schema_fields sch s).

Definition decode_struct {S C} (sch : schema S C) (make : C) : decoder S := λ texts,
  get ← decode_fields (schema_names sch) texts;
  schema_decode sch get make.

(** Fields with and without [omitempty]. *)
Definition required {S A C} (codec : encoder A * decoder A) (name : string) (project : S → A) : schema S C → schema S (A → C) :=
  Field name (λ _, false) project codec.1 codec.2.

Definition omitempty {S A C} `{EqDecision A} (zero : A) (codec : encoder A * decoder A) (name : string) (project : S → A) :
    schema S C → schema S (A → C) :=
  Field name (λ a, bool_decide (a = zero)) project codec.1 codec.2.

Definition strings : encoder string * decoder string := (encode_string, decode_string).
Definition bools : encoder bool * decoder bool := (encode_bool, decode_bool).
Definition uint64s : encoder Z * decoder Z := (encode_uint64, decode_uint64).
Definition ints : encoder Z * decoder Z := (encode_int, decode_int).

Definition slices {A} (codec : encoder A * decoder A) : encoder (list A) * decoder (list A) :=
  (encode_slice codec.1, decode_slice codec.2).
Definition pointers {A} (codec : encoder A * decoder A) : encoder (option A) * decoder (option A) :=
  (encode_pointer codec.1, decode_pointer codec.2).
Definition structs {S C} (sch : schema S C) (make : C) : encoder S * decoder S :=
  (encode_struct sch, decode_struct sch make).

(** A slice with [omitempty]. *)
Definition omitempty_slice {S A C} (codec : encoder A * decoder A) (name : string) (project : S → list A) :
    schema S C → schema S (list A → C) :=
  Field name (λ l, match l with [] => true | _ => false end) project (slices codec).1 (slices codec).2.

Definition omitempty_pointer {S A C} (codec : encoder A * decoder A) (name : string) (project : S → option A) :
    schema S C → schema S (option A → C) :=
  Field name (λ o, match o with None => true | _ => false end) project (pointers codec).1 (pointers codec).2.

(** ** Laws

    On the values that satisfy [faithful], what is encoded is well formed and
    decodes to the same value; [d] is the indentation at which it is written. *)

(** A tree of bounded nesting, within what the scanner accepts. *)
Definition within (n : nat) (v : json) : Prop := (nesting v ≤ n ∧ n ≤ maxNestingDepth)%nat.

Definition codec_law {A} (n d : nat) (encode : encoder A) (decode : decoder A) (faithful : A → Prop) : Prop :=
  ∀ a v, faithful a → encode a = Some v → within n v →
    well_formed v ∧ decode [print d v] = Some a.

Definition valid_string (s : string) : Prop := utf8_ValidString s = true.

Definition in_int64 (n : Z) : Prop := min_int64 ≤ n ≤ max_int64.

Lemma literal_text_intro text st :
  match text with String c _ => isSpace c = false ∧ existsb (is_char c) ["{"; "["]%char = false | EmptyString => False end →
  (∀ stack, scan_path stateBeginValue stack text = Some (st, stack)) → (∀ stack, complete st stack = true) →
  plain_chars text = true → literal_text text.
Proof.
  intros Hc Hp Hst Hplain. split_and!; [|by apply escaped_html, escaped_plain|destruct text; [done|apply Hc]].
  split; [destruct text; [done|by eexists _, _; split; [|apply Hc]]|]. intros stack _. exists st. done.
Qed.

Lemma appendString_not_null s : is_null (appendString s) = false.
Proof. unfold is_null. by rewrite bool_decide_false. Qed.

Lemma string_law n d : codec_law n d encode_string decode_string valid_string.
Proof.
  intros s v Hs%utf8_valid [= <-] _. split; [by apply literal_text_appendString|].
  unfold decode_string, decode_scalar. cbn [foldl print mbind option_bind].
  by rewrite appendString_not_null, unquote_appendString.
Qed.

Lemma bool_law n d : codec_law n d encode_bool decode_bool (λ _, True).
Proof.
  intros b v _ [= <-] _. split; [|by destruct b]. by destruct b; apply (literal_text_intro _ stateEndValue).
Qed.

(** Numbers: a formatted number starts with a nonzero digit or is zero, and
    digits scan as one number. *)
Fixpoint all_digits (s : string) : bool :=
  match s with EmptyString => true | String c s => is_digit c && all_digits s end.

Lemma scan_digits s stack : all_digits s = true → scan_path state1 stack s = Some (state1, stack).
Proof.
  induction s as [|c s IH]; [done|]. simpl. rewrite andb_true_iff. intros [Hc Hs]. unfold take_step. simpl.
  rewrite Hc. by apply IH.
Qed.

Lemma pretty_N_char_digit n : (n < 10)%N → is_digit (pretty_N_char n) = true ∧ ((n ≠ 0)%N → is_digit_1_9 (pretty_N_char n) = true).
Proof.
  intros Hn. assert (n ∈ [0; 1; 2; 3; 4; 5; 6; 7; 8; 9]%N) as Hin by (rewrite !elem_of_cons; lia).
  rewrite !elem_of_cons, elem_of_nil in Hin. by destruct_or! Hin; subst.
Qed.

Lemma pretty_N_go_digits n s :
  (0 < n)%N → ∃ c t, pretty_N_go n s = String c (t +:+ s) ∧ is_digit_1_9 c = true ∧ all_digits t = true.
Proof.
  revert s. induction (N.lt_wf_0 n) as [n _ IH]. intros s Hn. rewrite pretty_N_go_step by done.
  destruct (decide (n < 10)%N) as [Hlt|Hge].
  - exists (pretty_N_char n), "". rewrite N.div_small, N.mod_small, pretty_N_go_0 by done. split; [done|].
    split; [|done]. apply pretty_N_char_digit; lia.
  - destruct (IH (n / 10)%N) with (s := String (pretty_N_char (n `mod` 10)) s) as (c & t & -> & Hc & Ht).
    { apply N.div_lt; lia. }
    { apply N.div_str_pos. lia. }
    exists c, (t +:+ char_string (pretty_N_char (n `mod` 10))). rewrite string_app_assoc. split_and!; [done..|].
    assert (is_digit (pretty_N_char (n `mod` 10)) = true) as Hd by (apply pretty_N_char_digit, N.mod_lt; lia).
    clear -Ht Hd. induction t as [|a t IHt]; simpl in *; [by rewrite Hd|]. apply andb_true_iff in Ht as [-> ?]. by apply IHt.
Qed.

Lemma FormatUint_text n :
  0 ≤ n → FormatUint n = "0" ∨ ∃ c s, FormatUint n = String c s ∧ is_digit_1_9 c = true ∧ all_digits s = true.
Proof.
  intros Hn. unfold FormatUint, pretty, pretty_N. case_decide; [by left|right].
  destruct (pretty_N_go_digits (Z.to_N n) "") as (c & s & -> & Hc & Hs); [lia|]. exists c, s.
  by rewrite string_app_nil_r.
Qed.

Lemma digits_plain s : all_digits s = true → plain_chars s = true.
Proof.
  induction s as [|c s IH]; [done|]. cbn [all_digits plain_chars]. rewrite !andb_true_iff. intros [Hc Hs].
  split; [clear -Hc; by each_char c|by apply IH].
Qed.

Lemma digit_1_9_plain c : is_digit_1_9 c = true →
  (isSpace c = false ∧ existsb (is_char c) ["{"; "["]%char = false) ∧ plain_char c = true.
Proof. by each_char c. Qed.

Lemma digit_1_9_starts c stack :
  is_digit_1_9 c = true → take_step stateBeginValue stack c = Continue state1 stack ∧
    take_step stateNeg stack c = Continue state1 stack.
Proof. by each_char c. Qed.

Lemma literal_text_FormatUint n : 0 ≤ n → literal_text (FormatUint n).
Proof.
  intros [-> | (c & s & -> & Hc & Hs)]%FormatUint_text; [by apply (literal_text_intro _ state0)|].
  destruct (digit_1_9_plain c Hc) as [? Hp]. apply (literal_text_intro _ state1); [done| |done|].
  - intros stack. cbn [scan_path]. rewrite (proj1 (digit_1_9_starts c stack Hc)). by apply scan_digits.
  - cbn [plain_chars]. by rewrite Hp, digits_plain.
Qed.

Lemma literal_text_FormatInt n : literal_text (FormatInt n).
Proof.
  unfold FormatInt. destruct (Z.ltb_spec n 0); [|by apply literal_text_FormatUint].
  destruct (FormatUint_text (- n)) as [-> | (c & s & -> & Hc & Hs)]; [lia|by apply (literal_text_intro _ state0)|].
  change ("-" +:+ String c s) with (String "-" (String c s)). apply (literal_text_intro _ state1); [done| |done|].
  - intros stack. cbn [scan_path]. change (take_step stateBeginValue stack "-") with (Continue stateNeg stack). cbv iota.
    rewrite (proj2 (digit_1_9_starts c stack Hc)). by apply scan_digits.
  - cbn [plain_chars]. rewrite (proj2 (digit_1_9_plain c Hc)), digits_plain by done. done.
Qed.

Lemma digits_not_null text : match text with String c _ => is_char c "n" = false | EmptyString => True end → is_null text = false.
Proof. intros Hc. unfold is_null. apply bool_decide_false. by intros ->. Qed.

Lemma FormatUint_not_null n : 0 ≤ n → is_null (FormatUint n) = false.
Proof.
  intros [-> | (c & s & -> & Hc & _)]%FormatUint_text; [done|]. apply digits_not_null. clear -Hc. by each_char c.
Qed.

Lemma FormatInt_not_null n : is_null (FormatInt n) = false.
Proof. unfold FormatInt. destruct (Z.ltb_spec n 0); [done|by apply FormatUint_not_null]. Qed.

Lemma uint64_law n d : codec_law n d encode_uint64 decode_uint64 in_uint64.
Proof.
  intros m v Hn [= <-] _. split; [apply literal_text_FormatUint, Hn|].
  unfold decode_uint64, decode_scalar. cbn [foldl print mbind option_bind].
  by rewrite FormatUint_not_null, ParseUint_Format_uint64 by apply Hn.
Qed.

Lemma ParseInt_FormatInt n : in_int64 n → ParseInt (FormatInt n) = Some n.
Proof.
  unfold in_int64, min_int64, max_int64. intros Hn. unfold FormatInt.
  assert (∀ m, 0 ≤ m ≤ 2 ^ 63 → ParseUint (FormatUint m) = Some m) as Hu.
  { intros m Hm. apply ParseUint_Format_uint64. unfold in_uint64, max_uint64. lia. }
  destruct (Z.ltb_spec n 0) as [Hneg|Hpos].
  - change ("-" +:+ FormatUint (- n)) with (String "-" (FormatUint (- n))). cbn [ParseInt].
    rewrite bool_decide_true by done. cbn [orb]. rewrite Hu by lia. cbn [mbind option_bind].
    rewrite (proj2 (Z.ltb_ge _ _)) by (unfold min_int64; lia). f_equal. lia.
  - assert (∃ c s, FormatUint n = String c s ∧ c ≠ "-"%char ∧ c ≠ "+"%char) as (c & s & E & H1 & H2).
    { destruct (FormatUint_text n Hpos) as [-> | (c & s & -> & Hc & _)]; [by eexists _, _|]. exists c, s.
      split; [done|]. clear -Hc. by split; each_char c. }
    rewrite E. cbn [ParseInt]. rewrite !bool_decide_false by done. cbn [orb]. rewrite <- E, Hu by lia. cbn [mbind option_bind].
    by rewrite (proj2 (Z.ltb_ge _ _)) by (unfold max_int64; lia).
Qed.

Lemma int_law n d : codec_law n d encode_int decode_int in_int64.
Proof.
  intros m v Hn [= <-] _. split; [apply literal_text_FormatInt|].
  unfold decode_int, decode_scalar. cbn [foldl print mbind option_bind]. by rewrite FormatInt_not_null, ParseInt_FormatInt.
Qed.

(** ** Containers *)

Lemma is_null_Object d members : is_null (print d (Object members)) = false.
Proof. by destruct members as [|[? ?] ?]. Qed.

Lemma element_texts_single array : element_texts [array] = (λ text, [text]) <$> array.
Proof.
  unfold element_texts. cbn [fmap list_fmap]. change (max_list [length array]) with (Nat.max (length array) 0).
  rewrite Nat.max_0_r. apply list_eq. intros i. rewrite !list_lookup_fmap.
  destruct (decide (i < length array)%nat) as [Hi|Hi].
  - rewrite lookup_seq_lt by done. destruct (lookup_lt_is_Some_2 array i Hi) as [x Hx]. simpl. by rewrite Hx.
  - rewrite lookup_seq_ge, lookup_ge_None_2 by lia. done.
Qed.

Lemma mapM_compose {A B C} (f : B → option C) (g : A → B) l : mapM f (g <$> l) = mapM (λ a, f (g a)) l.
Proof. induction l as [|a l IH]; [done|]. rewrite fmap_cons. cbn [mapM]. by rewrite IH. Qed.

Lemma decode_slice_array {A} (decode : decoder A) text array l :
  is_null text = false → array_elements text = Some array →
  mapM (λ element, decode [element]) array = Some l → decode_slice decode [text] = Some l.
Proof.
  intros Hn Ea Em. unfold decode_slice. cbn [decode_arrays]. rewrite Hn, Ea. cbn [mbind option_bind].
  destruct array as [|text' array].
  { injection Em as <-. done. }
  cbn [app decode_arrays]. unfold slice_elements. rewrite element_texts_single, mapM_compose.
  rewrite Em. cbn [mbind option_bind last fmap option_fmap option_map default from_option].
  apply mapM_Some_1, Forall2_length in Em. f_equal. apply take_ge. simpl in *. lia.
Qed.

Lemma array_law {A} n d (encode : encoder A) decode faithful :
  codec_law n (S d) encode decode faithful → codec_law n d (encode_array encode) (decode_slice decode) (Forall faithful).
Proof.
  intros Hlaw l v Hl Ev Hd. unfold encode_array in Ev. destruct (mapM encode l) as [elements|] eqn:Em; [|done]. injection Ev as <-.
  apply mapM_Some_1 in Em.
  assert (Forall2 (λ a v, well_formed v ∧ within n v ∧ decode [print (S d) v] = Some a) l elements) as Hes.
  { assert (Forall (λ v, within n v) elements) as Hsh.
    { apply Forall_forall. intros v Hv%nesting_element. unfold within in *. lia. }
    clear Hd. induction Em as [|x v l elements Ex _ IH]; [constructor|].
    apply Forall_cons in Hl as [Hx Hl]. apply Forall_cons in Hsh as [Hv Hsh]. constructor; [|by apply IH].
    destruct (Hlaw x v Hx Ex Hv). done. }
  clear Em Hl Hd. assert (Forall (λ v, well_formed v ∧ within n v) elements) as Hwf.
  { induction Hes as [|? ? ? ? (? & ? & ?)]; constructor; auto. }
  split; [apply well_formed_elements; eapply Forall_impl; [done|]; by intros ? [? ?]|].
  eapply decode_slice_array; [by destruct elements|apply array_elements_print; eapply Forall_impl; [done|]; intros ? [? [? ?]]; split; [done|unfold shallow; lia]|].
  rewrite mapM_compose. apply mapM_Some_2. clear Hwf. induction Hes as [|? ? ? ? (? & ? & ?)]; constructor; auto.
Qed.

Lemma slice_law {A} n d (encode : encoder A) decode faithful :
  codec_law n (S d) encode decode faithful → codec_law n d (encode_slice encode) (decode_slice decode) (Forall faithful).
Proof.
  intros Hlaw [|a l] v; [|by apply array_law]. intros _ [= <-] _. split; [by apply (literal_text_intro _ stateEndValue)|done].
Qed.

Lemma pointer_law {A} n d (encode : encoder A) decode faithful :
  (∀ a v, encode a = Some v → is_null (print d v) = false) →
  codec_law n d encode decode faithful →
  codec_law n d (encode_pointer encode) (decode_pointer decode) (λ o, match o with Some a => faithful a | None => True end).
Proof.
  intros Hnn Hlaw [a|] v Ha Ev Hd; simpl in Ev.
  - destruct (Hlaw a v Ha Ev Hd) as [Hwf Hdec]. split; [done|]. unfold decode_pointer. cbn [decode_pointee].
    rewrite (Hnn a) by done. cbn [app pointee decode_pointee]. by rewrite Hdec.
  - injection Ev as <-. split; [by apply (literal_text_intro _ stateEndValue)|done].
Qed.

(** ** Structs *)

(** A field decodes to the value of a struct, whether it is written or not. *)
Definition field_lawful {A} (n d : nat) (omitted : A → bool) (encode : encoder A) (decode : decoder A) (a : A) : Prop :=
  if omitted a then decode [] = Some a
  else ∀ v, encode a = Some v → within n v → well_formed v ∧ decode [print d v] = Some a.

Fixpoint schema_lawful {S C} (n d : nat) (sch : schema S C) (s : S) : Prop :=
  match sch with
  | End => True
  | Field _ omitted project encode decode others =>
      field_lawful n d omitted encode decode (project s) ∧ schema_lawful n d others s
  end.

(** The constructor applied to the fields of a struct. *)
Fixpoint schema_apply {S C} (sch : schema S C) (s : S) : C → S :=
  match sch with
  | End => λ s', s'
  | Field _ _ project _ _ others => λ make, schema_apply others s (make (project s))
  end.

(** The texts of the fields that are written. *)
Definition written (d : nat) (f : field) : option (string * string) :=
  if field_omitted f then None else value ← field_value f; Some (field_name f, print d value).

(** A written field has a value, which is not too deep. *)
Definition field_ready (n : nat) (f : field) : Prop :=
  field_omitted f = false → ∃ value, field_value f = Some value ∧ within n value.

Lemma encode_fields_members n fields v :
  encode_fields fields = Some v → within n v →
  Forall (field_ready (pred n)) fields ∧ ∃ members, v = Object members ∧
    Forall (λ member, ∃ f, f ∈ fields ∧ field_omitted f = false ∧ member.1 = appendString (field_name f) ∧
                           field_value f = Some member.2 ∧ within (pred n) member.2) members ∧
    (Forall (λ f, valid_string (field_name f)) fields → ∀ d,
       mapM (λ '(key, value), key ← unquote key; Some (key, value)) (printed_members d members) =
       Some (omap (written d) fields)).
Proof.
  unfold encode_fields. destruct (mapM _ _) as [members|] eqn:Em; [|done]. intros [= <-] Hd.
  assert (Forall (λ member, within (pred n) member.2) members) as Hsh.
  { apply Forall_forall. intros [key v] Hv%nesting_member. unfold within in *. simpl. lia. }
  clear Hd. revert members Em Hsh. induction fields as [|f fields IH]; intros members Em Hsh.
  { injection Em as <-. split; [constructor|]. by exists []. }
  rewrite filter_cons in Em. case_decide as Ho.
  - cbn [mapM] in Em. destruct (field_value f) as [value|] eqn:Ev; [|done]. cbn [mbind option_bind] in Em.
    destruct (mapM _ _) as [others|]; [|done]. injection Em as <-. apply Forall_cons in Hsh as [Hs Hsh].
    destruct (IH others eq_refl Hsh) as (Hr & ? & [= <-] & Hms & Hread). split.
    { constructor; [|done]. intros _. by exists value. }
    eexists; split; [done|]. split.
    + constructor; [by exists f; split; [left|]|]. eapply Forall_impl; [done|]. intros m (g & Hg & ?). exists g. split; [by right|done].
    + intros [Hu Hus]%Forall_cons d. cbn [printed_members fmap list_fmap mapM fst snd].
      rewrite unquote_appendString by by apply utf8_valid. cbn [mbind option_bind].
      specialize (Hread Hus d). unfold printed_members in Hread. rewrite Hread. cbn [omap list_omap mbind option_bind].
      unfold written at 2. by rewrite Ho, Ev.
  - apply not_false_is_true in Ho. destruct (IH members Em Hsh) as (Hr & ? & [= <-] & Hms & Hread). split.
    { constructor; [|done]. intros Hf. congruence. }
    eexists; split; [done|]. split.
    + eapply Forall_impl; [done|]. intros m (g & Hg & ?). exists g. split; [by right|done].
    + intros [Hu Hus]%Forall_cons d. rewrite (Hread Hus). cbn [omap list_omap]. unfold written at 2. by rewrite Ho.
Qed.

Lemma written_inv d (fields : list field) name text :
  (name, text) ∈ omap (written d) fields → name ∈ (field_name <$> fields).
Proof.
  intros (f & Hf & Ew)%list_elem_of_omap. unfold written in Ew. destruct (field_omitted f), (field_value f); try done.
  injection Ew as <- _. by apply list_elem_of_fmap_2.
Qed.

Lemma written_filter_absent d (fields : list field) name :
  name ∉ (field_name <$> fields) → filter (λ member : string * string, member.1 = name) (omap (written d) fields) = [].
Proof.
  intros Hn. destruct (filter _ _) as [|[n t] l] eqn:E; [done|]. destruct Hn.
  assert ((n, t) ∈ (n, t) :: l) as Hin by left. rewrite <- E in Hin.
  apply list_elem_of_filter in Hin as [<- Hin]. by eapply written_inv.
Qed.

(** Each field gets its own text. *)
Lemma written_filter d (fields : list field) f :
  NoDup (field_name <$> fields) → f ∈ fields →
  snd <$> filter (λ member : string * string, member.1 = field_name f) (omap (written d) fields) =
  match written d f with Some (_, text) => [text] | None => [] end.
Proof.
  induction fields as [|g fields IH]; [by intros _ ?%not_elem_of_nil|]. rewrite fmap_cons, NoDup_cons.
  intros [Hg Hnd] [-> | Hf]%elem_of_cons; cbn [omap list_omap].
  - destruct (written d g) as [[n t]|] eqn:Ew; [|by rewrite written_filter_absent].
    assert (n = field_name g) as ->.
    { unfold written in Ew. destruct (field_omitted g), (field_value g); try done. by injection Ew. }
    rewrite filter_cons_True by done. by rewrite written_filter_absent.
  - assert (field_name f ∈ (field_name <$> fields)) as Hin by (by apply list_elem_of_fmap_2).
    destruct (written d g) as [[n t]|] eqn:Ew; [|by apply IH].
    assert (n = field_name g) as ->.
    { unfold written in Ew. destruct (field_omitted g), (field_value g); try done. by injection Ew. }
    rewrite filter_cons_False by (simpl; congruence). by apply IH.
Qed.

Lemma mapM_find_field names (members : list (string * string)) pairs :
  mapM (λ '(key, value), key ← unquote key; Some (key, value)) members = Some pairs →
  Forall (λ pair, pair.1 ∈ names) pairs →
  mapM (λ '(key, value), key ← unquote key; name ← find_field names key; Some (name, value)) members = Some pairs.
Proof.
  revert pairs. induction members as [|[key value] members IH]; intros pairs; [done|]. cbn [mapM].
  destruct (unquote key) as [name|]; [|done]. cbn [mbind option_bind].
  destruct (mapM _ members) as [rest|]; [|done]. intros [= <-] [Hn Hrest]%Forall_cons. simpl in Hn.
  assert (find_field names name = Some name) as -> by (unfold find_field; by rewrite bool_decide_true).
  cbn [mbind option_bind]. by rewrite (IH rest).
Qed.

Lemma schema_fields_names {S C} (sch : schema S C) s : field_name <$> schema_fields sch s = schema_names sch.
Proof. induction sch as [|A C name omitted project encode decode others IH]; [done|]. csimpl. by rewrite IH. Qed.

(** Reading the fields back. *)
Lemma schema_decode_written {S C} n d (sch : schema S C) s make get :
  schema_lawful n d sch s → Forall (field_ready n) (schema_fields sch s) →
  (∀ f, f ∈ schema_fields sch s → get (field_name f) = match written d f with Some (_, text) => [text] | None => [] end) →
  schema_decode sch get make = Some (schema_apply sch s make).
Proof.
  induction sch as [|A C name omitted project encode decode others IH]; [done|].
  intros [Hf Hlaw] [Hr Hrs]%Forall_cons Hget. cbn [schema_decode schema_apply].
  assert (decode (get name) = Some (project s)) as ->.
  { specialize (Hget _ ltac:(by left)). simpl in Hget. rewrite Hget. unfold written, field_lawful in *. simpl.
    destruct (omitted (project s)); [done|]. destruct (Hr eq_refl) as (v & Ev & Hd). simpl in Ev. rewrite Ev. simpl.
    by apply (Hf v Ev Hd). }
  cbn [mbind option_bind]. apply IH; [done..|]. intros f Hf'. apply Hget. by right.
Qed.

Lemma schema_lawful_written {S C} n d (sch : schema S C) s f value :
  schema_lawful n d sch s → f ∈ schema_fields sch s → field_omitted f = false → field_value f = Some value →
  within n value → well_formed value.
Proof.
  induction sch as [|A C name omitted project encode decode others IH]; [by intros _ ?%not_elem_of_nil|].
  intros [Hf Hlaw] [-> | Hin]%elem_of_cons; [|by apply IH]. simpl. intros Ho Ev Hd. unfold field_lawful in Hf.
  rewrite Ho in Hf. by apply (Hf value Ev Hd).
Qed.

(** A struct whose field names are distinct and whose fields are lawful. *)
Lemma struct_law {S C} n d (sch : schema S C) (make : C) (faithful : S → Prop) :
  NoDup (schema_names sch) → Forall valid_string (schema_names sch) →
  (∀ s, schema_apply sch s make = s) → (∀ s, faithful s → schema_lawful (pred n) (Datatypes.S d) sch s) →
  codec_law n d (encode_struct sch) (decode_struct sch make) faithful.
Proof.
  intros Hnd Hu Happly Hf s v Hs Ev Hd. specialize (Hf s Hs). rewrite <- (schema_fields_names sch s) in Hnd, Hu.
  destruct (encode_fields_members n _ _ Ev Hd) as (Hr & members & -> & Hms & Hread). rewrite Forall_fmap in Hu.
  assert (Forall (λ member, key_text member.1 ∧ well_formed member.2 ∧ shallow member.2) members) as Hwf.
  { eapply Forall_impl; [done|]. intros [key value] (f & Hin & Ho & Ek & Efv & Hsh). simpl in *.
    split_and!; [|by eapply schema_lawful_written|unfold within, shallow in *; lia].
    rewrite Ek. apply key_text_appendString, utf8_valid. rewrite Forall_forall in Hu. by apply Hu. }
  split; [apply well_formed_members; eapply Forall_impl; [done|]; by intros ? (? & ? & _)|].
  unfold decode_struct, decode_fields. cbn [mapM]. unfold struct_members. rewrite is_null_Object, object_members_print by done.
  cbn [mbind option_bind]. rewrite (mapM_find_field _ _ _ (Hread Hu (Datatypes.S d))).
  - cbn [mret option_ret mbind option_bind concat].
    rewrite app_nil_r, (schema_decode_written (pred n) (Datatypes.S d) sch s make); [by rewrite Happly|done..|].
    intros f Hin. by apply written_filter.
  - apply Forall_forall. intros [name text] Hin. simpl. rewrite <- (schema_fields_names sch s). by eapply written_inv.
Qed.

(** ** Lawful fields *)

Create HintDb json_laws.

Lemma required_lawful {A} n d (encode : encoder A) decode faithful a :
  codec_law n d encode decode faithful → faithful a → field_lawful n d (λ _, false) encode decode a.
Proof. intros Hlaw Ha v. by apply Hlaw. Qed.

Lemma omitted_lawful {A} n d (omitted : A → bool) (encode : encoder A) decode faithful a :
  codec_law n d encode decode faithful → faithful a → (omitted a = true → decode [] = Some a) →
  field_lawful n d omitted encode decode a.
Proof. intros Hlaw Ha Hz. unfold field_lawful. destruct (omitted a); [by apply Hz|]. intros v. by apply Hlaw. Qed.

Lemma omitempty_lawful {A} n d `{EqDecision A} (zero : A) (encode : encoder A) decode faithful a :
  codec_law n d encode decode faithful → faithful a → decode [] = Some zero →
  field_lawful n d (λ a, bool_decide (a = zero)) encode decode a.
Proof. intros Hlaw Ha Hz. apply (omitted_lawful _ _ _ _ _ faithful); [done..|]. by intros ->%bool_decide_eq_true. Qed.

Lemma omitempty_slice_lawful {A} n d (encode : encoder A) decode faithful l :
  codec_law n (S d) encode decode faithful → Forall faithful l →
  field_lawful n d (λ l, match l with [] => true | _ => false end) (encode_slice encode) (decode_slice decode) l.
Proof.
  intros Hlaw Hl. apply (omitted_lawful _ _ _ _ _ (Forall faithful)); [by apply slice_law|done|]. by destruct l.
Qed.

Lemma omitempty_pointer_lawful {A} n d (encode : encoder A) decode faithful (o : option A) :
  (∀ a v, encode a = Some v → is_null (print d v) = false) →
  codec_law n d encode decode faithful → match o with Some a => faithful a | None => True end →
  field_lawful n d (λ o, match o with None => true | _ => false end) (encode_pointer encode) (decode_pointer decode) o.
Proof.
  intros Hnn Hlaw Ho. eapply omitted_lawful; [by apply pointer_law|done|]. by destruct o.
Qed.

Lemma encode_struct_object {S C} (sch : schema S C) s v :
  encode_struct sch s = Some v → ∃ members, v = Object members.
Proof. unfold encode_struct, encode_fields. destruct (mapM _ _); [|done]. intros [= <-]. by eexists. Qed.

Lemma encode_struct_not_null {S C} (sch : schema S C) s v d :
  encode_struct sch s = Some v → is_null (print d v) = false.
Proof. intros [members ->]%encode_struct_object. apply is_null_Object. Qed.

#[export] Instance valid_string_dec s : base.Decision (valid_string s).
Proof. unfold valid_string. apply _. Defined.

(** Closed decidable facts by evaluation. *)
Ltac evaluates := apply (bool_decide_unpack _); vm_compute; exact I.

#[export] Hint Resolve string_law bool_law uint64_law int_law slice_law array_law : json_laws.
#[export] Hint Resolve encode_struct_not_null : json_laws.

Ltac head_of t := match t with ?f _ => head_of f | _ => t end.

(** Proves a schema lawful, field by field. *)
Ltac lawful_fields :=
  match goal with |- schema_lawful _ _ ?sch _ => let h := head_of sch in unfold h end;
  cbn [schema_lawful required omitempty omitempty_slice omitempty_pointer
       strings bools uint64s ints slices pointers structs fst snd];
  repeat match goal with
  | |- _ ∧ _ => split
  | |- field_lawful _ _ (λ _, false) _ _ _ => eapply required_lawful; [eauto with json_laws|]
  | |- field_lawful _ _ (λ a, bool_decide (a = _)) _ _ _ => eapply omitempty_lawful; [eauto with json_laws| |reflexivity]
  | |- field_lawful _ _ _ (encode_slice _) _ _ => eapply omitempty_slice_lawful; [eauto with json_laws|]
  | |- field_lawful _ _ _ (encode_pointer _) _ _ =>
      eapply omitempty_pointer_lawful; [eauto with json_laws|eauto with json_laws|]
  end; try done.

(** ** Documents *)

(** The texts of the errors [Decode] and [Marshal] report. *)
Class JSONErrors := {
  decode_error : string → string;
  marshal_error : error
}.

(** Strict decoding of the first value of a stream. *)
Definition Decoder_Decode {D R} `{JSONErrors} (decode : decoder D) (found : D → string → R) (failed : string → R) (s : string) : R :=
  match next_value s with
  | Some (text, rest) =>
      match decode [text] with
      | Some document => found document rest
      | None => failed (decode_error s)
      end
  | None => failed (decode_error s)
  end.

Definition MarshalIndent {D} `{JSONErrors} (encode : encoder D) (document : D) : result string :=
  match encode document with
  | Some v => Ok (print 0 v)
  | None => Err marshal_error
  end.

(** A struct that is laid out at any indentation is read back, and nothing of
    what follows it. *)
Lemma decode_laid_out {S C R} `{JSONErrors} (sch : schema S C) (decode : decoder S) (found : S → string → R) failed s v d rest :
  encode_struct sch s = Some v → shallow v → well_formed v → decode [print d v] = Some s →
  Decoder_Decode decode found failed (print d v +:+ rest) = found s rest.
Proof.
  intros Ev Hd Hwf Hdec. destruct (encode_struct_object _ _ _ Ev) as [members ->].
  unfold Decoder_Decode. by rewrite next_value_object, Hdec by (done || by apply well_formed_members).
Qed.

Lemma MarshalIndent_Ok {D} `{JSONErrors} (encode : encoder D) document encoded :
  MarshalIndent encode document = Ok encoded ↔ ∃ v, encode document = Some v ∧ encoded = print 0 v.
Proof.
  unfold MarshalIndent. destruct (encode document) as [v|]; split; [intros [= <-]; by exists v|by intros (? & [= <-] & ->)| |]; [done|].
  by intros (? & ? & _).
Qed.

(** For closed documents. *)
Lemma shallow_check (o : option json) :
  match o with Some v => (nesting v <=? maxNestingDepth)%nat | None => true end = true → ∀ v, o = Some v → shallow v.
Proof. intros E v ->. by apply Nat.leb_le. Qed.

Definition sample_errors : JSONErrors := {| decode_error := λ _, "invalid JSON"; marshal_error := errors_New "unsupported value" |}.
