(* ===== verification/Attribute.v ===== *)
(** * Typed attribute values (attribute.go)

    [Value] is the struct of attribute.go with its private fields: a kind and
    one payload per kind, the other payloads left at their zero values. The
    constructors are the only way to build a value outside the package;
    [Value_wf] is the invariant they establish. A [float64] is a [spec_float]
    with the comparisons of IEEE 754. *)

From Stdlib Require Import SpecFloat.
From S2P Require Import Prelude GoStrings NetIP.

#[local] Open Scope Z_scope.

(** ** Data *)

Definition ErrInvalidFloat := errors_New "attribute float must be finite".

Inductive ValueKind :=
| ValueMissing
| ValueNull
| ValueString
| ValueBool
| ValueInt
| ValueFloat
| ValueTime
| ValueIP
| ValueStringSet.

#[global] Instance ValueKind_eq_dec : EqDecision ValueKind.
Proof. solve_decision. Defined.

Abbreviation float64 := spec_float.

#[global] Instance float64_eq_dec : EqDecision float64.
Proof. solve_decision. Defined.

Record Value := mkValue {
  kind : ValueKind;
  stringVal : string;
  boolVal : bool;
  intVal : Z;
  floatVal : float64;
  timeVal : Time;
  ipVal : Addr;
  setVal : list string
}.

#[global] Instance Value_eq_dec : EqDecision Value.
Proof. solve_decision. Defined.

(** The zero [Value{}], with the field of one kind set. *)
Definition zeroFloat : float64 := S754_zero false.

Definition zeroValue : Value :=
  mkValue ValueMissing "" false 0 zeroFloat 0 AddrZero [].

(** ** Constructors *)

Definition NullValue : Value :=
  mkValue ValueNull "" false 0 zeroFloat 0 AddrZero [].

Definition StringValue (value : string) : Value :=
  mkValue ValueString value false 0 zeroFloat 0 AddrZero [].

Definition BoolValue (value : bool) : Value :=
  mkValue ValueBool "" value 0 zeroFloat 0 AddrZero [].

Definition IntValue (value : Z) : Value :=
  mkValue ValueInt "" false value zeroFloat 0 AddrZero [].

Definition math_IsNaN (f : float64) : bool :=
  match f with S754_nan => true | _ => false end.

Definition math_IsInf (f : float64) : bool :=
  match f with S754_infinity _ => true | _ => false end.

Definition FloatValue (value : float64) : result Value :=
  if math_IsNaN value || math_IsInf value then Err ErrInvalidFloat
  else Ok (mkValue ValueFloat "" false 0 value 0 AddrZero []).

(** Panics when [FloatValue] fails. *)
Definition MustFloatValue (value : float64) : Go Value :=
  match FloatValue value with
  | Ok attribute => Ret attribute
  | Err _ => Panic
  end.

(** [Round(0)] drops the monotonic reading and [UTC()] the location: the
    instant stays. *)
Definition TimeValue (value : Time) : Value :=
  mkValue ValueTime "" false 0 zeroFloat value AddrZero [].

Definition IPValue (value : Addr) : Value :=
  mkValue ValueIP "" false 0 zeroFloat 0 (addr_Unmap value) [].

(** The loop that keeps a sorted slice's first occurrences. The source
    appends into the prefix [set[:0]] of the slice it reads; the write index
    never passes the read index, so the elements read are the original ones. *)
Fixpoint unique_loop (unique set : list string) : list string :=
  match set with
  | [] => unique
  | value :: set =>
      if bool_decide (unique = []) || negb (bool_decide (last unique = Some value))
      then unique_loop (unique ++ [value]) set
      else unique_loop unique set
  end.

Definition StringSetValue (values : list string) : Value :=
  mkValue ValueStringSet "" false 0 zeroFloat 0 AddrZero
    (unique_loop [] (slices_Sort values)).

(** ** Accessors *)

Definition Value_Kind (value : Value) : ValueKind := kind value.

Definition Value_String (value : Value) : string * bool :=
  (stringVal value, bool_decide (kind value = ValueString)).

Definition Value_Bool (value : Value) : bool * bool :=
  (boolVal value, bool_decide (kind value = ValueBool)).

Definition Value_Int (value : Value) : Z * bool :=
  (intVal value, bool_decide (kind value = ValueInt)).

Definition Value_Float (value : Value) : float64 * bool :=
  (floatVal value, bool_decide (kind value = ValueFloat)).

Definition Value_Time (value : Value) : Time * bool :=
  (timeVal value, bool_decide (kind value = ValueTime)).

Definition Value_IP (value : Value) : Addr * bool :=
  (ipVal value, bool_decide (kind value = ValueIP)).

Definition Value_StringSet (value : Value) : list string * bool :=
  if negb (bool_decide (kind value = ValueStringSet)) then ([], false)
  else (setVal value, true).

Definition Value_CollectionLength (value : Value) : Z * bool :=
  if negb (bool_decide (kind value = ValueStringSet)) then (0, false)
  else (len (setVal value), true).

(** ** Equality and order *)

Definition Value_Equal (value other : Value) : bool :=
  if negb (bool_decide (kind value = kind other)) then false
  else match kind value with
       | ValueMissing | ValueNull => true
       | ValueString => bool_decide (stringVal value = stringVal other)
       | ValueBool => bool_decide (boolVal value = boolVal other)
       | ValueInt => intVal value =? intVal other
       | ValueFloat => SFeqb (floatVal value) (floatVal other)
       | ValueTime => time_Equal (timeVal value) (timeVal other)
       | ValueIP => bool_decide (ipVal value = ipVal other)
       | ValueStringSet => bool_decide (setVal value = setVal other)
       end.

(** [compareOrdered] at [int64] and at [float64]. *)
Definition compareOrdered_int (left right : Z) : Z :=
  if left <? right then -1 else if right <? left then 1 else 0.

Definition compareOrdered_float (left right : float64) : Z :=
  if SFltb left right then -1 else if SFltb right left then 1 else 0.

Definition Value_Compare (value other : Value) : Z * bool :=
  if negb (bool_decide (kind value = kind other)) then (0, false)
  else match kind value with
       | ValueString => (cmp_Compare_string (stringVal value) (stringVal other), true)
       | ValueInt => (compareOrdered_int (intVal value) (intVal other), true)
       | ValueFloat => (compareOrdered_float (floatVal value) (floatVal other), true)
       | ValueTime => (cmp_Compare_int (timeVal value) (timeVal other), true)
       | _ => (0, false)
       end.

(** ** The invariant of values *)

Definition float_finite (f : float64) : Prop :=
  match f with S754_zero _ | S754_finite _ _ _ => True | _ => False end.

Definition strictly_sorted (l : list string) : Prop :=
  StronglySorted (λ x y, String.le x y ∧ x ≠ y) l.

(** The payloads of the other kinds are zero, floats are finite and sets are
    strictly sorted. *)
Definition Value_wf (v : Value) : Prop :=
  match kind v with
  | ValueMissing => v = zeroValue
  | ValueNull => v = NullValue
  | ValueString => v = StringValue (stringVal v)
  | ValueBool => v = BoolValue (boolVal v)
  | ValueInt => v = IntValue (intVal v)
  | ValueFloat => FloatValue (floatVal v) = Ok v
  | ValueTime => v = TimeValue (timeVal v)
  | ValueIP => v = IPValue (ipVal v)
  | ValueStringSet => v = StringSetValue (setVal v) ∧ strictly_sorted (setVal v)
  end.

(** Kinds that [Compare] orders. *)
Definition ordered_kind (k : ValueKind) : bool :=
  match k with ValueString | ValueInt | ValueFloat | ValueTime => true | _ => false end.

(** ** Lemmas on string sets *)

Lemma strictly_sorted_nodup l : strictly_sorted l → NoDup l.
Proof.
  induction 1 as [|x l _ IH Hx]; [constructor|]. constructor; [|done].
  intros Hin. rewrite Forall_forall in Hx. by destruct (Hx x Hin).
Qed.

Lemma strictly_sorted_le l : strictly_sorted l → StronglySorted String.le l.
Proof.
  apply StronglySorted_weaken. by intros x y [? _].
Qed.

(** A strictly sorted list is determined by its elements. *)
Lemma strictly_sorted_ext l k :
  strictly_sorted l → strictly_sorted k → (∀ x, x ∈ l ↔ x ∈ k) → l = k.
Proof.
  intros Hl Hk E. apply (StronglySorted_unique String.le).
  - by apply strictly_sorted_le.
  - by apply strictly_sorted_le.
  - by apply NoDup_Permutation; [apply strictly_sorted_nodup..|].
Qed.

Lemma slices_Sort_sorted l : StronglySorted String.le (slices_Sort l).
Proof.
  eapply StronglySorted_weaken, SortFunc_sorted; [|apply _].
  intros x y. apply cmp_Compare_string_le.
Qed.

Lemma StronglySorted_le_strict l : NoDup l → StronglySorted String.le l → strictly_sorted l.
Proof.
  intros Hnd Hs. induction Hs as [|x l _ IH Hx]; [constructor|].
  apply NoDup_cons in Hnd as [Hxl Hnd]. constructor; [by apply IH|].
  rewrite Forall_forall in Hx |- *. intros y Hy. split; [by apply Hx|]. by intros ->.
Qed.

Lemma slices_Sort_strict l : NoDup l → strictly_sorted (slices_Sort l).
Proof.
  intros Hnd. apply StronglySorted_le_strict; [|apply slices_Sort_sorted].
  unfold slices_Sort. by rewrite SortFunc_perm.
Qed.

Lemma elem_of_slices_Sort x l : x ∈ slices_Sort l ↔ x ∈ l.
Proof. apply elem_of_SortFunc. Qed.

Lemma last_elem_max (u : list string) x y :
  strictly_sorted u → last u = Some y → x ∈ u → String.le x y.
Proof.
  intros Hu Hy Hx. apply last_Some in Hy as [u' ->].
  apply elem_of_app in Hx as [Hx|Hx%list_elem_of_singleton]; [|by subst].
  apply strictly_sorted_le in Hu.
  eapply StronglySorted_app_1_elem_of; [done|done|]. by left.
Qed.

(** The invariant of the deduplication loop. *)
Lemma unique_loop_spec set u :
  strictly_sorted u → StronglySorted String.le set →
  (∀ x y, x ∈ u → y ∈ set → String.le x y) →
  strictly_sorted (unique_loop u set) ∧
  ∀ z, z ∈ unique_loop u set ↔ z ∈ u ∨ z ∈ set.
Proof.
  revert u. induction set as [|v set IH]; intros u Hu Hs Hle; simpl.
  { split; [done|]. set_solver. }
  apply StronglySorted_cons in Hs as [Hv Hs]. rewrite Forall_forall in Hv.
  destruct (decide (last u = Some v)) as [Hlast|Hlast].
  - rewrite (bool_decide_false (u = [])) by (by intros ->).
    rewrite (bool_decide_true (last u = Some v)) by done. simpl.
    destruct (IH u) as [H1 H2]; [done|done|set_solver|].
    split; [done|]. intros z. rewrite H2.
    assert (v ∈ u) by (apply last_Some in Hlast as [? ->]; set_solver). set_solver.
  - rewrite (bool_decide_false (last u = Some v)), orb_true_r by done.
    destruct (IH (u ++ [v])) as [H1 H2]; [|done|set_solver|].
    { apply StronglySorted_app_2; [|done|by repeat constructor].
      intros x1 x2 Hx1 ->%list_elem_of_singleton. split; [set_solver|]. intros ->.
      destruct (last u) as [y|] eqn:Ey; [|apply last_None in Ey; set_solver].
      apply Hlast. f_equal. apply (anti_symm String.le); [|by eapply last_elem_max].
      apply Hle; [|by left]. apply last_Some in Ey as [? ->]. set_solver. }
    split; [done|]. intros z. rewrite H2. set_solver.
Qed.

Lemma StringSetValue_set values :
  strictly_sorted (setVal (StringSetValue values)) ∧
  ∀ x, x ∈ setVal (StringSetValue values) ↔ x ∈ values.
Proof.
  destruct (unique_loop_spec (slices_Sort values) []) as [H1 H2];
    [constructor|apply slices_Sort_sorted|set_solver|].
  split; [done|]. intros x. simpl. rewrite H2, elem_of_slices_Sort. set_solver.
Qed.

(** ** Lemmas on floats

    Finite floats are ordered by sign, then exponent, then mantissa: the
    lexicographic order of an integer triple. *)

Definition float_key (f : float64) : Z * Z * Z :=
  match f with
  | S754_finite false m e => (1, e, Zpos m)
  | S754_finite true m e => (-1, - e, Zneg m)
  | _ => (0, 0, 0)
  end.

Definition key_lt (x y : Z * Z * Z) : Prop :=
  x.1.1 < y.1.1 ∨ x.1.1 = y.1.1 ∧ (x.1.2 < y.1.2 ∨ x.1.2 = y.1.2 ∧ x.2 < y.2).

Lemma SFltb_key f g :
  float_finite f → float_finite g →
  SFltb f g = true ↔ key_lt (float_key f) (float_key g).
Proof.
  unfold SFltb, key_lt. destruct f as [s|s| |s m e], g as [t|t| |t n d]; simpl; try done.
  all: try (destruct s; simpl; split; [done|lia]).
  all: try (destruct t; simpl; split; done || lia).
  all: try (destruct s; simpl; split; done || lia).
  intros _ _. destruct s, t; simpl; try (split; done || lia).
  all: destruct (Z.compare_spec e d); simpl; try (split; done || lia).
  all: change (Pos.compare_cont Eq m n) with (Pos.compare m n);
    destruct (Pos.compare_spec m n); simpl; split; done || lia.
Qed.

Lemma SFeqb_key f g :
  float_finite f → float_finite g →
  SFeqb f g = true ↔ float_key f = float_key g.
Proof.
  unfold SFeqb. destruct f as [s|s| |s m e], g as [t|t| |t n d]; simpl; try done.
  all: try (destruct s; simpl; split; done).
  all: try (destruct t; simpl; split; done).
  intros _ _. destruct s, t; simpl; try (split; done).
  all: destruct (Z.compare_spec e d); simpl; try (split; [done|intros; simplify_eq; lia]).
  all: change (Pos.compare_cont Eq m n) with (Pos.compare m n);
    destruct (Pos.compare_spec m n); simpl; split; try done; intros; simplify_eq; (done || lia).
Qed.

(** The order of finite floats is total, and compared both ways it negates. *)
Lemma compareOrdered_float_spec f g :
  float_finite f → float_finite g →
  (compareOrdered_float f g ≤ 0 ↔ ¬ key_lt (float_key g) (float_key f)) ∧
  (compareOrdered_float f g = 0 ↔ SFeqb f g = true) ∧
  compareOrdered_float g f = - compareOrdered_float f g.
Proof.
  intros Hf Hg. rewrite SFeqb_key by done. unfold compareOrdered_float.
  pose proof (SFltb_key f g Hf Hg) as H1. pose proof (SFltb_key g f Hg Hf) as H2.
  destruct (float_key f) as [[a b] c], (float_key g) as [[a' b'] c'].
  unfold key_lt in *; simpl in *.
  destruct (SFltb f g), (SFltb g f); split_and!; try lia; split; intros; simplify_eq; try lia.
  all: repeat f_equal; lia.
Qed.

Lemma addr_Unmap_idempotent ip : addr_Unmap (addr_Unmap ip) = addr_Unmap ip.
Proof.
  destruct ip as [|b|b z]; [done..|]. unfold addr_Unmap at 2 3.
  destruct (addr_Is4In6 (Addr6 b z)) eqn:E; [done|]. unfold addr_Unmap. by rewrite E.
Qed.

Lemma StringSetValue_id set :
  strictly_sorted set → StringSetValue set = mkValue ValueStringSet "" false 0 zeroFloat 0 AddrZero set.
Proof.
  intros Hs. unfold StringSetValue. f_equal.
  destruct (StringSetValue_set set) as [H1 H2].
  by apply (strictly_sorted_ext _ set).
Qed.

Lemma FloatValue_finite f v : FloatValue f = Ok v → float_finite f ∧ v = mkValue ValueFloat "" false 0 f 0 AddrZero [].
Proof. unfold FloatValue. by destruct f; simpl; intros; simplify_eq. Qed.

Lemma Value_wf_finite v : Value_wf v → kind v = ValueFloat → float_finite (floatVal v).
Proof. unfold Value_wf. intros Hv E. rewrite E in Hv. by apply FloatValue_finite in Hv as [? _]. Qed.

(** ** Theorems *)

(** Every value the package can build satisfies the invariant of the
    struct: the payloads of other kinds are zero, a float is finite, an
    address is unmapped and a string set is strictly sorted. *)
Theorem Value_constructors_wf (s : string) (b : bool) (i : Z) (f : float64) (t : Time) (ip : Addr) (l : list string) :
  Value_wf zeroValue ∧ Value_wf NullValue ∧ Value_wf (StringValue s) ∧ Value_wf (BoolValue b) ∧
  Value_wf (IntValue i) ∧ Value_wf (TimeValue t) ∧ Value_wf (IPValue ip) ∧ Value_wf (StringSetValue l) ∧
  match FloatValue f with
  | Ok v => Value_wf v ∧ MustFloatValue f = Ret v
  | Err e => e = ErrInvalidFloat ∧ ¬ float_finite f ∧ MustFloatValue f = Panic
  end.
Proof.
  split_and!; try done.
  - unfold Value_wf; simpl. unfold IPValue. by rewrite addr_Unmap_idempotent.
  - destruct (StringSetValue_set l) as [H1 H2]. split; [|done].
    by rewrite (StringSetValue_id (setVal (StringSetValue l))) by done.
  - unfold MustFloatValue. destruct (FloatValue f) as [v|e] eqn:E.
    + split; [|done]. destruct (FloatValue_finite f v E) as [_ ->]. done.
    + unfold FloatValue in E. destruct f; simpl in *; simplify_eq; split_and!; (done || tauto).
Qed.

(** A string set is canonical: two slices build the same value exactly
    when they have the same elements, and the stored slice is strictly
    sorted with the elements of the argument. *)
Theorem StringSetValue_canonical (l k : list string) :
  (StringSetValue l = StringSetValue k ↔ ∀ x, x ∈ l ↔ x ∈ k) ∧
  Value_Equal (StringSetValue l) (StringSetValue k) = bool_decide (StringSetValue l = StringSetValue k) ∧
  strictly_sorted (setVal (StringSetValue l)) ∧
  (∀ x, x ∈ setVal (StringSetValue l) ↔ x ∈ l).
Proof.
  destruct (StringSetValue_set l) as [Hl El], (StringSetValue_set k) as [Hk Ek].
  assert (setVal (StringSetValue l) = setVal (StringSetValue k) ↔ ∀ x, x ∈ l ↔ x ∈ k) as E.
  { split; [intros E x; by rewrite <- El, <- Ek, E|].
    intros E. apply strictly_sorted_ext; [done..|]. intros x. by rewrite El, Ek. }
  split_and!; try done.
  - rewrite <- E. split; [by intros ->|]. unfold StringSetValue; simpl. by intros ->.
  - unfold Value_Equal. rewrite (bool_decide_true (kind _ = kind _)) by done. simpl.
    apply bool_decide_ext. unfold StringSetValue; simpl. split; [by intros ->|by injection 1].
Qed.

Lemma Value_Compare_defined v w :
  (Value_Compare v w).2 = bool_decide (kind v = kind w) && ordered_kind (kind v).
Proof.
  unfold Value_Compare. destruct (decide (kind v = kind w)) as [E|E].
  - rewrite !bool_decide_true by done. simpl. by destruct (kind v).
  - by rewrite !bool_decide_false by done.
Qed.

Lemma compareOrdered_int_spec x y : compareOrdered_int x y = cmp_Compare_int x y.
Proof.
  unfold compareOrdered_int, cmp_Compare_int.
  destruct (Z.compare_spec x y); repeat case_match; simpl; reflect_bools; lia.
Qed.

(** [Compare] of two values of one ordered kind, as an order on the kind's
    payload. *)
Lemma Value_Compare_laws v w :
  Value_wf v → Value_wf w → (Value_Compare v w).2 = true →
  ((Value_Compare v w).1 = 0 ↔ Value_Equal v w = true) ∧
  (Value_Compare w v).1 = - (Value_Compare v w).1.
Proof.
  rewrite Value_Compare_defined. intros Hv Hw [E Hk]%andb_true_iff.
  apply bool_decide_eq_true in E. unfold Value_Compare, Value_Equal.
  rewrite !bool_decide_true by done. simpl. rewrite <- E in *.
  assert (∀ x y : Z, cmp_Compare_int x y = - cmp_Compare_int y x) as Hint.
  { intros x y. unfold cmp_Compare_int. rewrite Z.compare_antisym. by destruct (y ?= x). }
  destruct (kind v) eqn:Ek; try done; simpl.
  - rewrite cmp_Compare_string_eq, bool_decide_eq_true. split; [done|].
    unfold cmp_Compare_string. rewrite String.compare_antisym. by destruct (String.compare _ _).
  - rewrite !compareOrdered_int_spec, cmp_Compare_int_eq, Z.eqb_eq. split; [done|apply Hint].
  - destruct (compareOrdered_float_spec (floatVal v) (floatVal w)) as (_ & H1 & H2);
      [by apply Value_wf_finite..|]. by split.
  - rewrite cmp_Compare_int_eq. unfold time_Equal. rewrite Z.eqb_eq. split; [done|apply Hint].
Qed.

Lemma Value_Compare_trans u v w :
  Value_wf u → Value_wf v → Value_wf w →
  (Value_Compare u v).2 = true → (Value_Compare v w).2 = true →
  (Value_Compare u v).1 ≤ 0 → (Value_Compare v w).1 ≤ 0 → (Value_Compare u w).1 ≤ 0.
Proof.
  rewrite !Value_Compare_defined. intros Hu Hv Hw [E1 Hk]%andb_true_iff [E2 _]%andb_true_iff.
  apply bool_decide_eq_true in E1, E2. unfold Value_Compare.
  rewrite !bool_decide_true by congruence. simpl. rewrite <- E1 in *.
  destruct (kind u) eqn:Ek; try done; simpl.
  - rewrite !cmp_Compare_string_le. intros. by etrans.
  - rewrite !compareOrdered_int_spec, !cmp_Compare_int_le. lia.
  - assert (float_finite (floatVal u) ∧ float_finite (floatVal v) ∧ float_finite (floatVal w))
      as (Fu & Fv & Fw) by (split_and!; apply Value_wf_finite; congruence).
    rewrite (proj1 (compareOrdered_float_spec _ _ Fu Fv)),
      (proj1 (compareOrdered_float_spec _ _ Fv Fw)), (proj1 (compareOrdered_float_spec _ _ Fu Fw)).
    unfold key_lt. lia.
  - rewrite !cmp_Compare_int_le. lia.
Qed.

(** [Compare] orders two values exactly when both have the same string,
    int, float or time kind; on the values the package builds it is a total
    order whose equality is [Equal]. *)
Theorem Value_Compare_order (u v w : Value) :
  Value_wf u → Value_wf v → Value_wf w →
  (Value_Compare u v).2 = bool_decide (kind u = kind v) && ordered_kind (kind u) ∧
  ((Value_Compare u v).2 = true →
    ((Value_Compare u v).1 = 0 ↔ Value_Equal u v = true) ∧
    (Value_Compare v u).1 = - (Value_Compare u v).1) ∧
  ((Value_Compare u v).2 = true → (Value_Compare v w).2 = true →
    (Value_Compare u v).1 ≤ 0 → (Value_Compare v w).1 ≤ 0 → (Value_Compare u w).1 ≤ 0).
Proof.
  intros Hu Hv Hw. split_and!.
  - apply Value_Compare_defined.
  - by apply Value_Compare_laws.
  - by apply Value_Compare_trans.
Qed.

Lemma Value_Compare_order_witness :
  Value_wf (IntValue 3) ∧ (Value_Compare (IntValue 3) (IntValue 9)).1 ≤ 0.
Proof.
  split; [done|].
  apply (Value_Compare_order (IntValue 3) (IntValue 7) (IntValue 9)); done.
Defined.
