(* ===== verification/FloatText.v ===== *)
(** * Decimal texts of floating-point numbers (packages [strconv], [encoding/json])

    [strconv.ParseFloat(s, 64)], which rounds the exact value of the text to
    the nearest binary64 number, and the text that [encoding/json] writes: the
    shortest decimal that parses to the number, in one of two layouts. A
    float64 is a [spec_float] of precision 53 and maximal exponent 1024. *)

From Stdlib Require Import Ascii SpecFloat.
From stdpp Require Import pretty.
From S2P Require Import Prelude Strconv GoStrings NetIPText TimeText JSON UTF8 JSONText JSONValues NetIP Attribute.

#[local] Open Scope Z_scope.

(** ** Rounding *)

(** The number nearest to [num / den], ties to even. *)
Definition round_ratio (negative : bool) (num den : Z) : float64 :=
  let '(q, e, loc) := SFdiv_core_binary 53 1024 num 0 den 0 in
  binary_round_aux 53 1024 negative q e loc.

(** ** Parsing *)

Definition lower (c : ascii) : ascii :=
  let n := nat_of_ascii c in
  if (65 <=? n)%nat && (n <=? 90)%nat then ascii_of_nat (n + 32) else c.

Fixpoint lower_string (s : string) : string :=
  match s with EmptyString => EmptyString | String c s => String (lower c) (lower_string s) end.

(** An optional sign. *)
Definition take_sign (s : string) : bool * string :=
  match s with
  | String c rest =>
      if bool_decide (c = "-"%char) then (true, rest) else if bool_decide (c = "+"%char) then (false, rest) else (false, s)
  | EmptyString => (false, s)
  end.

(** [special]: infinities and, without a sign, the NaN. *)
Definition special (s : string) : option float64 :=
  let '(negative, body) := take_sign s in
  if bool_decide (lower_string body ∈ ["inf"; "infinity"]) then Some (S754_infinity negative)
  else if bool_decide (lower_string s = "nan") then Some S754_nan else None.

(** What [readFloat] has read of a mantissa: whether there was a point, a
    digit, an underscore; the digits as a number, and how many of them follow
    the point. *)
Record mantissa := mkMantissa {
  sawdot : bool; sawdigits : bool; underscores : bool; mant : Z; fraction : Z
}.

Definition add_digit (base d : Z) (m : mantissa) : mantissa :=
  mkMantissa (sawdot m) true (underscores m) (mant m * base + d) (if sawdot m then fraction m + 1 else fraction m).

Fixpoint read_mantissa (hex : bool) (m : mantissa) (s : string) : mantissa * string :=
  match s with
  | EmptyString => (m, s)
  | String c rest =>
      if bool_decide (c = "_"%char) then
        read_mantissa hex (mkMantissa (sawdot m) (sawdigits m) true (mant m) (fraction m)) rest
      else if bool_decide (c = "."%char) then
        if sawdot m then (m, s)
        else read_mantissa hex (mkMantissa true (sawdigits m) (underscores m) (mant m) (fraction m)) rest
      else
        match (if hex then hex_digit_value c else digit c) with
        | Some d => read_mantissa hex (add_digit (if hex then 16 else 10) d m) rest
        | None => (m, s)
        end
  end.

(** The digits of an exponent; large ones stop growing. *)
Fixpoint read_exponent (underscores : bool) (e : Z) (s : string) : Z * bool * string :=
  match s with
  | EmptyString => (e, underscores, s)
  | String c rest =>
      if bool_decide (c = "_"%char) then read_exponent true e rest
      else match digit c with
      | Some d => read_exponent underscores (if e <? 10000 then e * 10 + d else e) rest
      | None => (e, underscores, s)
      end
  end.

(** The optional exponent after the mantissa. *)
Definition take_exponent (mark : ascii) (s : string) : option (option Z * bool * string) :=
  match s with
  | String c rest =>
      if bool_decide (lower c = mark) then
        let '(negative, digits) := take_sign rest in
        match digits with
        | String d _ =>
            _ ← digit d;
            let '(e, underscores, rest) := read_exponent false 0 digits in
            Some (Some (if negative then - e else e), underscores, rest)
        | EmptyString => None
        end
      else Some (None, false, s)
  | EmptyString => Some (None, false, s)
  end.

(** [underscoreOK]: underscores only between digits, or after a base prefix;
    [saw] is the last kind of character. *)
Inductive seen := SawStart | SawDigit | SawUnderscore | SawOther.

Fixpoint underscores_between (hex : bool) (saw : seen) (s : string) : bool :=
  match s with
  | EmptyString => match saw with SawUnderscore => false | _ => true end
  | String c rest =>
      if bool_decide (is_Some (if hex then hex_digit_value c else digit c)) then underscores_between hex SawDigit rest
      else if bool_decide (c = "_"%char) then
        match saw with SawDigit => underscores_between hex SawUnderscore rest | _ => false end
      else match saw with SawUnderscore => false | _ => underscores_between hex SawOther rest end
  end.

Definition underscoreOK (s : string) : bool :=
  let body := (take_sign s).2 in
  match body with
  | String c (String b rest) =>
      if bool_decide (c = "0"%char) && bool_decide (lower b ∈ ["b"; "o"; "x"]%char)
      then underscores_between (bool_decide (lower b = "x"%char)) SawDigit rest
      else underscores_between false SawStart body
  | _ => underscores_between false SawStart body
  end.

(** A hexadecimal prefix with something after it. *)
Definition take_hex (s : string) : bool * string :=
  match s with
  | String c (String x rest) =>
      if bool_decide (c = "0"%char) && bool_decide (lower x = "x"%char) && negb (bool_decide (rest = EmptyString))
      then (true, rest) else (false, s)
  | _ => (false, s)
  end.

(** The value of mantissa and exponent, rounded; out of range is an error. *)
Definition float_value (negative hex : bool) (m : mantissa) (e : Z) : option float64 :=
  if mant m =? 0 then Some (S754_zero negative)
  else
    let base := if hex then 2 else 10 in
    let e := if hex then e - 4 * fraction m else e - fraction m in
    match round_ratio negative (mant m * base ^ Z.max 0 e) (base ^ Z.max 0 (- e)) with
    | S754_infinity _ => None
    | f => Some f
    end.

Definition ParseFloat (s : string) : option float64 :=
  match special s with
  | Some f => Some f
  | None =>
      let '(negative, body) := take_sign s in
      let '(hex, digits) := take_hex body in
      let '(m, rest) := read_mantissa hex (mkMantissa false false false 0 0) digits in
      if negb (sawdigits m) then None
      else
        '(e, exponent_underscores, rest) ← take_exponent (if hex then "p"%char else "e"%char) rest;
        if hex && bool_decide (e = None) then None
        else if (underscores m || exponent_underscores) && negb (underscoreOK s) then None
        else if negb (bool_decide (rest = EmptyString)) then None
        else float_value negative hex m (default 0 e)
  end.

#[global] Arguments ParseFloat : simpl never.

(** ** Printing *)

Definition formatted (negative : bool) (s : string) : string := if negative then "-" +:+ s else s.

(** [fmtE] for digits [0.d1d2... * 10^dp], with the short exponent of JSON. *)
Definition format_e (digits : list Z) (dp : Z) : string :=
  let e := dp - 1 in
  digits_text (take 1 digits) +:+
  match drop 1 digits with [] => "" | more => "." +:+ digits_text more end +:+
  "e" +:+ (if e <? 0 then "-" else "+") +:+ FormatUint (Z.abs e).

(** [fmtF] with as many decimals as needed. *)
Definition format_f (digits : list Z) (dp : Z) : string :=
  if dp <=? 0 then "0." +:+ digits_text (replicate (Z.to_nat (- dp)) 0 ++ digits)
  else
    let whole := Z.to_nat dp in
    digits_text (take whole digits ++ replicate (whole - length digits) 0) +:+
    match drop whole digits with [] => "" | more => "." +:+ digits_text more end.

(** Numbers below 1e-6 and from 1e21 on have an exponent. *)
Definition format_float (digits : list Z) (dp : Z) : string :=
  if (dp <? -5) || (21 <? dp) then format_e digits dp else format_f digits dp.

(** The digits of a positive number. *)
Definition digits_of (z : Z) : list Z := (span_digits (FormatUint z)).1.

(** The decimal point of [num / den]: [10^(dp-1) <= num/den < 10^dp]. *)
Definition decimal_point (num den : Z) : Z :=
  if den <=? num then Z.of_nat (length (digits_of (num / den)))
  else 1 - Z.of_nat (length (digits_of ((den - 1) / num))).

(** The [n]-digit decimals next to a number, the nearer one first: digits and
    decimal point. *)
Definition candidates (num den : Z) (n : nat) : list (list Z * Z) :=
  let dp := decimal_point num den in
  let scale := Z.of_nat n - dp in
  let num := num * 10 ^ Z.max 0 scale in
  let den := den * 10 ^ Z.max 0 (- scale) in
  let below := num / den in
  let rest := num mod den in
  let nearest :=
    if rest =? 0 then [below] else if 2 * rest <=? den then [below; below + 1] else [below + 1; below] in
  (λ z, (trim_zeros (digits_of z), dp + Z.of_nat (length (digits_of z)) - Z.of_nat n)) <$> filter (λ z, 0 < z) nearest.

(** A decimal that is exactly the number [m * 2^e]. *)
Definition exact_decimal (m : positive) (e : Z) : string :=
  FormatUint (Zpos m * 2 ^ Z.max 0 e * 5 ^ Z.max 0 (- e)) +:+ "e" +:+ (if e <? 0 then "-" else "") +:+ FormatUint (Z.max 0 (- e)).

(** The shortest decimal that parses to the number; 17 digits are enough for
    every float64, and an exact decimal ends the search. *)
Definition finite_text (negative : bool) (m : positive) (e : Z) : string :=
  let num := Zpos m * 2 ^ Z.max 0 e in
  let den := 2 ^ Z.max 0 (- e) in
  let texts := (λ '(digits, dp), formatted negative (format_float digits dp)) <$> (seq 1 17 ≫= candidates num den) in
  default (formatted negative (exact_decimal m e))
    (head (filter (λ text, ParseFloat text = Some (S754_finite negative m e)) texts)).

Definition float_text (f : float64) : string :=
  match f with
  | S754_zero negative => formatted negative "0"
  | S754_finite negative m e => finite_text negative m e
  | _ => ""
  end.

(** ** Exact values are kept *)

Lemma iter_pos_nat {A} (f : A → A) n x : SpecFloat.iter_pos f n x = Nat.iter (Pos.to_nat n) f x.
Proof.
  revert x. induction n as [n IH|n IH|]; intros x; cbn [SpecFloat.iter_pos]; [| |done].
  - rewrite !IH, Pos2Nat.inj_xI, <- Nat.iter_succ_r, <- Nat.iter_add. f_equal. lia.
  - rewrite !IH, Pos2Nat.inj_xO, <- Nat.iter_add. f_equal. lia.
Qed.

Lemma shr_1_even z : shr_1 (Build_shr_record (2 * z) false false) = Build_shr_record z false false.
Proof. by destruct z. Qed.

Lemma shr_exact z e k : 0 ≤ k → shr (Build_shr_record (z * 2 ^ k) false false) e k = (Build_shr_record z false false, e + k).
Proof.
  intros Hk. destruct k as [|p|p]; [simpl; f_equal; [f_equal|]; lia| |lia]. unfold shr. f_equal. rewrite iter_pos_nat.
  rewrite <- (positive_nat_Z p). induction (Pos.to_nat p) as [|n IH]; [simpl; f_equal; lia|].
  rewrite Nat.iter_succ_r, Nat2Z.inj_succ, Z.pow_succ_r by lia.
  replace (z * (2 * 2 ^ Z.of_nat n)) with (2 * (z * 2 ^ Z.of_nat n)) by lia. by rewrite shr_1_even.
Qed.

Lemma Zdigits2_pos z : 0 < z → 0 < Zdigits2 z.
Proof. by destruct z. Qed.

Lemma Zdigits2_double z : 0 < z → Zdigits2 (2 * z) = Zdigits2 z + 1.
Proof. destruct z as [|p|p]; [lia| |lia]. intros _. change (2 * Z.pos p) with (Z.pos p~0). cbn [Zdigits2 digits2_pos]. lia. Qed.

Lemma Zdigits2_shift z k : 0 < z → 0 ≤ k → Zdigits2 (z * 2 ^ k) = Zdigits2 z + k.
Proof.
  intros Hz Hk. revert k Hk. apply natlike_ind; [rewrite Z.pow_0_r, Z.mul_1_r; lia|]. intros k Hk IH.
  rewrite Z.pow_succ_r by done. replace (z * (2 * 2 ^ k)) with (2 * (z * 2 ^ k)) by lia. rewrite Zdigits2_double, IH; [lia|].
  apply Z.mul_pos_pos; [done|]. by apply Z.pow_pos_nonneg.
Qed.

Lemma Zdigits2_bounds z : 0 < z → 2 ^ (Zdigits2 z - 1) ≤ z < 2 ^ Zdigits2 z.
Proof.
  destruct z as [|p|p]; [lia| |lia]. intros _. unfold Zdigits2. induction p as [p IH|p IH|]; cbn [digits2_pos]; [..|done].
  all: rewrite Pos2Z.inj_succ; unfold Z.succ; rewrite Z.add_simpl_r.
  all: replace (Z.pos (digits2_pos p)) with (Z.pos (digits2_pos p) - 1 + 1) at 1 by lia.
  all: rewrite !Z.pow_add_r by lia; rewrite !Z.pow_1_r; lia.
Qed.

Abbreviation fexp64 := (fexp 53 1024).

Lemma fexp64_mono x y : x ≤ y → fexp64 x ≤ fexp64 y.
Proof. unfold fexp. lia. Qed.

(** A valid float64. *)
Definition valid_float (f : float64) : Prop := valid_binary 53 1024 f = true.

Lemma bounded_spec m e : bounded 53 1024 m e = true → fexp64 (Zdigits2 (Zpos m) + e) = e ∧ e ≤ 971.
Proof. unfold bounded, canonical_mantissa. intros [H1%Z.eqb_eq H2%Z.leb_le]%andb_prop. split; [exact H1|exact H2]. Qed.

Lemma round_exact negative m e k :
  bounded 53 1024 m e = true → 0 ≤ k →
  binary_round_aux 53 1024 negative (Zpos m * 2 ^ k) (e - k) loc_Exact = S754_finite negative m e.
Proof.
  intros [Hc He]%bounded_spec Hk. unfold binary_round_aux, shr_fexp. cbn [shr_record_of_loc].
  rewrite Zdigits2_shift by lia. replace (Zdigits2 (Zpos m) + k + (e - k)) with (Zdigits2 (Zpos m) + e) by lia.
  rewrite Hc. replace (e - (e - k)) with k by lia. rewrite shr_exact by done.
  cbn [shr_m loc_of_shr_record round_nearest_even]. replace (e - k + k) with e by lia. rewrite Hc, Z.sub_diag.
  cbn [shr shr_record_of_loc shr_m]. by rewrite (proj2 (Z.leb_le e (1024 - 53))) by lia.
Qed.

(** The quotient of [num] and [den], when it is exactly [m * 2^e]. *)
Lemma div_exact m e num den :
  bounded 53 1024 m e = true → 0 < num → 0 < den → num * 2 ^ Z.max 0 (- e) = Zpos m * 2 ^ Z.max 0 e * den →
  ∃ k, 0 ≤ k ∧ SFdiv_core_binary 53 1024 num 0 den 0 = (Zpos m * 2 ^ k, e - k, loc_Exact).
Proof.
  intros [Hc He]%bounded_spec Hnum Hden Heq. unfold SFdiv_core_binary. rewrite !Z.add_0_r, Z.sub_0_r.
  set (d1 := Zdigits2 num). set (d2 := Zdigits2 den). set (e' := Z.min (fexp64 (d1 - d2)) 0).
  pose proof (Zdigits2_bounds num Hnum) as [Hn _]. pose proof (Zdigits2_bounds den Hden) as [_ Hd].
  pose proof (Zdigits2_bounds (Zpos m) ltac:(done)) as [_ Hm]. fold d1 in Hn. fold d2 in Hd. set (dm := Zdigits2 (Zpos m)) in *.
  assert (d1 - d2 ≤ dm + e) as Hdd.
  { enough (d1 - 1 + Z.max 0 (- e) < dm + Z.max 0 e + d2) by lia. pose proof (Zdigits2_pos num Hnum : 0 < d1). pose proof (Zdigits2_pos den Hden : 0 < d2).
    pose proof (Zdigits2_pos (Zpos m) eq_refl : 0 < dm).
    apply (Z.pow_lt_mono_r_iff 2); [lia..|]. rewrite !Z.pow_add_r by lia. pose proof (Z.pow_pos_nonneg 2 (Z.max 0 (- e)) ltac:(lia) ltac:(lia)).
    pose proof (Z.pow_pos_nonneg 2 (Z.max 0 e) ltac:(lia) ltac:(lia)).
    apply (Z.le_lt_trans _ (num * 2 ^ Z.max 0 (- e))); [nia|]. rewrite Heq.
    apply (Z.lt_le_trans _ (Zpos m * 2 ^ Z.max 0 e * 2 ^ d2)); [nia|]. nia. }
  assert (e' ≤ e) as He'. { pose proof (fexp64_mono _ _ Hdd). lia. }
  exists (e - e'). split; [lia|]. replace (e - (e - e')) with e' by lia.
  assert (match 0 - e' with Z0 => num | Zpos _ => Z.shiftl num (0 - e') | Zneg _ => 0 end = Zpos m * 2 ^ (e - e') * den) as ->.
  { transitivity (num * 2 ^ (0 - e')).
    { destruct (0 - e') eqn:E; [lia|by rewrite Z.shiftl_mul_pow2|lia]. }
    apply (Z.mul_reg_r _ _ (2 ^ Z.max 0 (- e))); [apply Z.pow_nonzero; lia|].
    transitivity (num * 2 ^ Z.max 0 (- e) * 2 ^ (0 - e')); [lia|]. rewrite Heq.
    assert (2 ^ Z.max 0 e * 2 ^ (0 - e') = 2 ^ (e - e') * 2 ^ Z.max 0 (- e)) as Hp
      by (rewrite <- !Z.pow_add_r by lia; f_equal; lia). nia. }
  set (q := Zpos m * 2 ^ (e - e')). pose proof (Z.div_mul q den ltac:(lia)) as Hq. pose proof (Z.mod_mul q den ltac:(lia)) as Hr.
  unfold Z.div in Hq. unfold Z.modulo in Hr. destruct (Z.div_eucl (q * den) den) as [q' r']. subst q' r'. f_equal.
  unfold new_location. by destruct (Z.even den).
Qed.

Lemma round_ratio_exact negative m e num den :
  bounded 53 1024 m e = true → 0 < num → 0 < den → num * 2 ^ Z.max 0 (- e) = Zpos m * 2 ^ Z.max 0 e * den →
  round_ratio negative num den = S754_finite negative m e.
Proof.
  intros Hb Hnum Hden Heq. unfold round_ratio. destruct (div_exact m e num den Hb Hnum Hden Heq) as (k & Hk & ->).
  by apply round_exact.
Qed.

(** ** The digits of a formatted number *)

Lemma digit_char_pretty n : (n < 10)%N → pretty_N_char n = digit_char (Z.of_N n).
Proof.
  intros Hn. assert (n ∈ [0; 1; 2; 3; 4; 5; 6; 7; 8; 9]%N) as Hin by (rewrite !elem_of_cons; lia).
  clear Hn. rewrite !elem_of_cons, elem_of_nil in Hin. by destruct_or! Hin; subst.
Qed.

(** The digits of a positive number: no zero leads them. *)
Lemma pretty_N_go_text n s :
  (0 < n)%N → ∃ d ds, pretty_N_go n s = digits_text (d :: ds) +:+ s ∧ Forall (λ d, 0 ≤ d < 10) (d :: ds) ∧
    d ≠ 0 ∧ digits_value 10 (d :: ds) = Z.of_N n.
Proof.
  revert s. induction (N.lt_wf_0 n) as [n _ IH]. intros s Hn. rewrite pretty_N_go_step by done.
  assert (n `mod` 10 < 10)%N as Hm by (by apply N.mod_lt). rewrite digit_char_pretty by done.
  pose proof (N.div_mod n 10 ltac:(done)) as Hdiv. destruct (decide (n / 10 = 0)%N) as [E|E].
  - rewrite E in *. rewrite pretty_N_go_0. exists (Z.of_N (n `mod` 10)), []. split_and!; [done| |lia|]. { constructor; [lia|constructor]. }
   
    change (digits_value 10 [?d]) with (0 * 10 + d). lia.
  - destruct (IH (n / 10)%N ltac:(apply N.div_lt; lia) (String (digit_char (Z.of_N (n `mod` 10))) s) ltac:(lia))
      as (d & ds & -> & Hr & Hd & Hv). exists d, (ds ++ [Z.of_N (n `mod` 10)]). split_and!; [..|done|].
    + change (d :: ds ++ ?l) with ((d :: ds) ++ l). unfold digits_text. rewrite foldr_app. clear.
      induction (d :: ds) as [|x xs IH]; [done|]. simpl in *. rewrite string_app_cons, IH. done.
    + change (d :: ds ++ ?l) with ((d :: ds) ++ l). apply Forall_app. split; [done|]. apply Forall_singleton. split; [apply N2Z.is_nonneg|]. apply N2Z.inj_lt in Hm. exact Hm.
    + change (d :: ds ++ ?l) with ((d :: ds) ++ l). rewrite digits_value_app, Hv. simpl length.
      change (digits_value 10 [?d]) with (0 * 10 + d). lia.
Qed.

Lemma FormatUint_digits_text n :
  0 < n → ∃ d ds, FormatUint n = digits_text (d :: ds) ∧ Forall (λ d, 0 ≤ d < 10) (d :: ds) ∧ d ≠ 0 ∧
    digits_value 10 (d :: ds) = n.
Proof.
  intros Hn. unfold FormatUint, pretty, pretty_N. rewrite decide_False by lia.
  destruct (pretty_N_go_text (Z.to_N n) "" ltac:(lia)) as (d & ds & -> & Hr & Hd & Hv). exists d, ds.
  rewrite string_app_nil_r. split_and!; [done..|]. by rewrite Hv, Z2N.id by lia.
Qed.

(** ** Texts are JSON numbers *)

Lemma scan_dot_digits s stack : all_digits s = true → scan_path stateDot0 stack s = Some (stateDot0, stack).
Proof.
  induction s as [|c s IH]; [done|]. simpl. rewrite andb_true_iff. intros [Hc Hs]. unfold take_step. simpl.
  rewrite Hc. by apply IH.
Qed.

Lemma scan_exponent_digits s stack : all_digits s = true → scan_path stateE0 stack s = Some (stateE0, stack).
Proof.
  induction s as [|c s IH]; [done|]. simpl. rewrite andb_true_iff. intros [Hc Hs]. unfold take_step. simpl.
  rewrite Hc. by apply IH.
Qed.

Lemma FormatUint_digits n : 0 ≤ n → ∃ c s, FormatUint n = String c s ∧ is_digit c = true ∧ all_digits s = true.
Proof.
  intros [-> | (c & s & -> & Hc & Hs)]%FormatUint_text; [by eexists _, _|]. exists c, s. split_and!; [done| |done].
  clear -Hc. by each_char c.
Qed.

(** The three parts of a number. *)
Definition whole_part (s : string) : Prop :=
  s = "0" ∨ ∃ c digits, s = String c digits ∧ is_digit_1_9 c = true ∧ all_digits digits = true.

Definition fraction_part (s : string) : Prop :=
  s = "" ∨ ∃ c digits, s = "." +:+ String c digits ∧ is_digit c = true ∧ all_digits digits = true.

Definition exponent_part (s : string) : Prop :=
  s = "" ∨ ∃ sign c digits, s = "e" +:+ sign +:+ String c digits ∧ sign ∈ [""; "+"; "-"] ∧ is_digit c = true ∧
    all_digits digits = true.

(** States at the end of a number. *)
Definition number_state (st : scan_state) : Prop := st ∈ [state0; state1; stateDot0; stateE0].

Lemma scan_whole st s :
  st = stateBeginValue ∨ st = stateNeg → whole_part s →
  ∃ st', (∀ stack, scan_path st stack s = Some (st', stack)) ∧ (st' = state0 ∨ st' = state1).
Proof.
  intros Hst [-> | (c & digits & -> & Hc & Hd)]; [exists state0; by destruct Hst as [-> | ->]; auto|]. exists state1. split; [|by right].
  intros stack. cbn [scan_path]. assert (take_step st stack c = Continue state1 stack) as ->
    by (by destruct Hst as [-> | ->]; apply digit_1_9_starts). by apply scan_digits.
Qed.

Lemma scan_fraction st s :
  st = state0 ∨ st = state1 → fraction_part s →
  ∃ st', (∀ stack, scan_path st stack s = Some (st', stack)) ∧ st' ∈ [state0; state1; stateDot0].
Proof.
  intros Hst [-> | (c & digits & -> & Hc & Hd)]; [exists st; split; [done|set_solver]|]. exists stateDot0. split; [|set_solver].
  intros stack. change ("." +:+ String c digits) with (String "."%char (String c digits)). cbn [scan_path].
  assert (take_step st stack "."%char = Continue stateDot stack) as -> by (by destruct Hst as [-> | ->]). cbv iota.
  assert (take_step stateDot stack c = Continue stateDot0 stack) as -> by (clear -Hc; by each_char c).
  by apply scan_dot_digits.
Qed.

Lemma scan_exponent_part st s :
  st ∈ [state0; state1; stateDot0] → exponent_part s →
  ∃ st', (∀ stack, scan_path st stack s = Some (st', stack)) ∧ number_state st'.
Proof.
  intros Hst [-> | (sign & c & digits & -> & Hsign & Hc & Hd)]; [exists st; split; [done|unfold number_state; set_solver]|].
  exists stateE0. split; [|unfold number_state; set_solver]. intros stack.
  assert (take_step st stack "e"%char = Continue stateE stack) as He
    by (rewrite !elem_of_cons, elem_of_nil in Hst; by destruct_or! Hst; subst).
  assert (take_step stateE stack c = Continue stateE0 stack) as Hc1 by (clear -Hc; by each_char c).
  assert (take_step stateESign stack c = Continue stateE0 stack) as Hc2 by (clear -Hc; by each_char c).
  change ("e" +:+ sign +:+ String c digits) with (String "e"%char (sign +:+ String c digits)). cbn [scan_path]. rewrite He.
  rewrite !elem_of_cons, elem_of_nil in Hsign. destruct_or! Hsign; subst sign; try done;
    [change ("" +:+ ?a) with a|change ("+" +:+ ?a) with (String "+"%char a)|change ("-" +:+ ?a) with (String "-"%char a)];
    cbn [scan_path]; [rewrite Hc1; by apply scan_exponent_digits|..].
  - change (take_step stateE stack "+"%char) with (Continue stateESign stack). cbv iota. rewrite Hc2. by apply scan_exponent_digits.
  - change (take_step stateE stack "-"%char) with (Continue stateESign stack). cbv iota. rewrite Hc2. by apply scan_exponent_digits.
Qed.

Lemma plain_chars_app s s' : plain_chars s = true → plain_chars s' = true → plain_chars (s +:+ s') = true.
Proof.
  induction s as [|c s IH]; [done|]. rewrite string_app_cons. cbn [plain_chars]. rewrite !andb_true_iff.
  intros [? ?] ?. split; [done|by apply IH].
Qed.

Lemma plain_number whole fraction exponent :
  whole_part whole → fraction_part fraction → exponent_part exponent → plain_chars (whole +:+ fraction +:+ exponent) = true.
Proof.
  assert (∀ c digits, is_digit c = true → all_digits digits = true → plain_chars (String c digits) = true) as Hdigits.
  { intros c digits Hc Hd. apply digits_plain. cbn [all_digits]. by rewrite Hc. }
  intros Hw Hf He. apply plain_chars_app; [|apply plain_chars_app].
  - destruct Hw as [-> | (c & digits & -> & Hc & Hd)]; [done|]. apply Hdigits; [clear -Hc; by each_char c|done].
  - destruct Hf as [-> | (c & digits & -> & Hc & Hd)]; [done|]. apply plain_chars_app; [done|by apply Hdigits].
  - destruct He as [-> | (sign & c & digits & -> & Hs & Hc & Hd)]; [done|]. apply plain_chars_app; [done|].
    apply plain_chars_app; [|by apply Hdigits]. rewrite !elem_of_cons, elem_of_nil in Hs. by destruct_or! Hs; subst.
Qed.

Definition float_literal (text : string) : Prop := literal_text text ∧ is_null text = false.

Lemma number_literal negative whole fraction exponent :
  whole_part whole → fraction_part fraction → exponent_part exponent →
  float_literal (formatted negative (whole +:+ fraction +:+ exponent)).
Proof.
  intros Hw Hf He. pose proof (plain_number _ _ _ Hw Hf He) as Hplain.
  assert (∀ st, st = stateBeginValue ∨ st = stateNeg →
    ∃ st', (∀ stack, scan_path st stack (whole +:+ fraction +:+ exponent) = Some (st', stack)) ∧ number_state st') as Hscan.
  { intros st Hst. destruct (scan_whole st whole Hst Hw) as (st1 & E1 & H1). destruct (scan_fraction st1 _ H1 Hf) as (st2 & E2 & H2).
    destruct (scan_exponent_part st2 _ H2 He) as (st3 & E3 & H3). exists st3. split; [|done]. intros stack.
    rewrite scan_path_app, E1. cbn [mbind option_bind]. rewrite scan_path_app, E2. apply E3. }
  assert (∀ st stack, number_state st → complete st stack = true) as Hcomplete.
  { intros st stack Hst. unfold number_state in Hst. rewrite !elem_of_cons, elem_of_nil in Hst. by destruct_or! Hst; subst. }
  assert (∃ c s, whole +:+ fraction +:+ exponent = String c s ∧ is_digit c = true) as (c & s & E & Hc).
  { destruct Hw as [-> | (c & digits & -> & Hc & _)]; eexists _, _; (split; [reflexivity|]); [done|clear -Hc; by each_char c]. }
  destruct negative; cbn [formatted].
  - destruct (Hscan stateNeg ltac:(by right)) as (st & Es & Hst). split; [|by rewrite E].
    apply (literal_text_intro _ st); [done|intros stack; exact (Es stack)|by intros; apply Hcomplete|exact Hplain].
  - destruct (Hscan stateBeginValue ltac:(by left)) as (st & Es & Hst). split.
    + apply (literal_text_intro _ st); [rewrite E; clear -Hc; by each_char c|done|by intros; apply Hcomplete|done].
    + apply digits_not_null. rewrite E. clear -Hc. by each_char c.
Qed.

(** Lists of digits as parts of numbers. *)
Abbreviation digit_list ds := (Forall (λ d, 0 ≤ d < 10) ds).

Lemma digit_char_digit d : 0 ≤ d < 10 → is_digit (digit_char d) = true ∧ (d ≠ 0 → is_digit_1_9 (digit_char d) = true).
Proof.
  intros Hd. assert (d ∈ [0; 1; 2; 3; 4; 5; 6; 7; 8; 9]) as Hin by (rewrite !elem_of_cons; lia).
  rewrite !elem_of_cons, elem_of_nil in Hin. by destruct_or! Hin; subst.
Qed.

Lemma digits_text_digits ds : digit_list ds → all_digits (digits_text ds) = true.
Proof.
  induction 1 as [|d ds Hd _ IH]; [done|]. change (digits_text (d :: ds)) with (String (digit_char d) (digits_text ds)).
  cbn [all_digits]. rewrite IH. by rewrite (proj1 (digit_char_digit d Hd)).
Qed.

Lemma whole_digits d ds : 0 ≤ d < 10 → d ≠ 0 → digit_list ds → whole_part (digits_text (d :: ds)).
Proof.
  intros Hd Hne Hds. right. exists (digit_char d), (digits_text ds). split_and!; [done|by apply digit_char_digit|].
  by apply digits_text_digits.
Qed.

Lemma fraction_digits ds : digit_list ds → fraction_part (match ds with [] => "" | more => "." +:+ digits_text more end).
Proof.
  destruct 1 as [|d ds Hd Hds]; [by left|right]. exists (digit_char d), (digits_text ds). split_and!; [done| |].
  - by apply digit_char_digit.
  - by apply digits_text_digits.
Qed.

Lemma exponent_FormatUint sign n : sign ∈ [""; "+"; "-"] → 0 ≤ n → exponent_part ("e" +:+ sign +:+ FormatUint n).
Proof. intros Hs (c & s & -> & Hc & Hd)%FormatUint_digits. right. by exists sign, c, s. Qed.

Lemma format_float_literal negative d ds dp :
  0 ≤ d < 10 → d ≠ 0 → digit_list ds → float_literal (formatted negative (format_float (d :: ds) dp)).
Proof.
  intros Hd Hne Hds. unfold format_float. destruct (_ || _).
  - unfold format_e. apply number_literal; [by apply whole_digits|pose proof (fraction_digits ds Hds); by destruct ds|].
    apply exponent_FormatUint; [destruct (_ <? 0); set_solver|lia].
  - unfold format_f. destruct (Z.leb_spec dp 0) as [Hdp|Hdp].
    + rewrite <- (string_app_nil_r ("0." +:+ _)). change (("0." +:+ ?a) +:+ "") with ("0" +:+ ("." +:+ a) +:+ "").
      apply number_literal; [by left| |by left].
      assert (digit_list (replicate (Z.to_nat (- dp)) 0 ++ d :: ds)) as Hall.
      { apply Forall_app. split; [by apply Forall_replicate|by constructor]. }
      pose proof (fraction_digits _ Hall) as Hf. by destruct (replicate _ _).
    + rewrite <- (string_app_nil_r (match _ with [] => _ | _ => _ end)). apply number_literal; [| |by left].
      * destruct (Z.to_nat dp) as [|whole] eqn:Ew; [lia|]. cbn [take app]. apply whole_digits; [done..|].
        apply Forall_app. split; [by apply Forall_take|by apply Forall_replicate].
      * assert (digit_list (drop (Z.to_nat dp) (d :: ds))) as Hall by (by apply Forall_drop; constructor).
        pose proof (fraction_digits _ Hall). by destruct (drop _ _).
Qed.

Lemma digits_of_positive z : 0 < z → ∃ d ds, digits_of z = d :: ds ∧ digit_list (d :: ds) ∧ d ≠ 0.
Proof.
  intros (d & ds & E & Hr & Hd & _)%FormatUint_digits_text. exists d, ds. unfold digits_of.
  rewrite E, <- (string_app_nil_r (digits_text _)), span_digits_text by done. done.
Qed.

Lemma trim_zeros_cons d ds : d ≠ 0 → trim_zeros (d :: ds) = d :: trim_zeros ds.
Proof. intros Hd. cbn [trim_zeros]. destruct (trim_zeros ds); [|done]. by rewrite (proj2 (Z.eqb_neq d 0)). Qed.

(** Every text that is tried is a number. *)
Lemma candidates_literal num den n negative digits dp :
  (digits, dp) ∈ candidates num den n → float_literal (formatted negative (format_float digits dp)).
Proof.
  unfold candidates. intros (z & [= -> ->] & [Hz _]%list_elem_of_filter)%list_elem_of_fmap.
  destruct (digits_of_positive z Hz) as (d & ds & -> & [Hd Hds]%Forall_cons & Hne). rewrite trim_zeros_cons by done.
  apply format_float_literal; [done..|]. by apply trim_zeros_range.
Qed.

Lemma exact_literal negative m e : float_literal (formatted negative (exact_decimal m e)).
Proof.
  unfold exact_decimal.
  assert (0 < Zpos m * 2 ^ Z.max 0 e * 5 ^ Z.max 0 (- e)) as Hn.
  { pose proof (Z.pow_pos_nonneg 2 (Z.max 0 e)). pose proof (Z.pow_pos_nonneg 5 (Z.max 0 (- e))). nia. }
  destruct (FormatUint_digits_text _ Hn) as (d & ds & -> & [Hd Hds]%Forall_cons & Hne & _).
  apply (number_literal negative _ ""); [by apply whole_digits|by left|].
  apply exponent_FormatUint; [destruct (_ <? 0); set_solver|lia].
Qed.

(** The shortest text is one of those tried. *)
Lemma finite_text_cases negative m e :
  (∃ n digits dp num den, (digits, dp) ∈ candidates num den n ∧ finite_text negative m e = formatted negative (format_float digits dp) ∧
     ParseFloat (finite_text negative m e) = Some (S754_finite negative m e)) ∨
  finite_text negative m e = formatted negative (exact_decimal m e).
Proof.
  unfold finite_text. set (texts := _ <$> _). destruct (filter _ texts) as [|text rest] eqn:E; [by right|left].
  assert (text ∈ filter (λ text, ParseFloat text = Some (S754_finite negative m e)) texts) as Hin by (rewrite E; left).
  apply list_elem_of_filter in Hin as [Hp Hin]. unfold texts in Hin.
  apply list_elem_of_fmap in Hin as ([digits dp] & -> & (n & Hin & _)%list_elem_of_bind). by eexists n, digits, dp, _, _.
Qed.

(** ** Every float64 is read back from its text *)

Lemma read_mantissa_digits ds m rest :
  digit_list ds → sawdot m = false →
  read_mantissa false m (digits_text ds +:+ rest) =
    read_mantissa false (foldl (λ m d, add_digit 10 d m) m ds) rest.
Proof.
  intros Hds. revert m. induction Hds as [|d ds Hd _ IH]; intros m Hm; [done|].
  change (digits_text (d :: ds) +:+ rest) with (String (digit_char d) (digits_text ds +:+ rest)). cbn [read_mantissa].
  rewrite (digit_digit_char d Hd). assert (digit_char d ≠ "_"%char ∧ digit_char d ≠ "."%char) as [H1 H2].
  { split; intros E; pose proof (digit_digit_char d Hd) as Hdig; by rewrite E in Hdig. }
  rewrite !bool_decide_eq_false_2 by done. by rewrite IH.
Qed.

Lemma add_digits ds m :
  sawdot m = false → foldl (λ m d, add_digit 10 d m) m ds =
    mkMantissa false (sawdigits m || negb (bool_decide (ds = []))) (underscores m) (foldl (λ acc d, acc * 10 + d) (mant m) ds) (fraction m).
Proof.
  revert m. induction ds as [|d ds IH]; intros m Hm; [destruct m; simpl in *; subst; by rewrite orb_false_r|].
  cbn [foldl]. rewrite IH by done. destruct m as [dot saw und n f]; simpl in *; subst. by rewrite orb_true_r.
Qed.

Lemma read_exponent_digits ds e :
  digit_list ds → 0 ≤ e → foldl (λ acc d, acc * 10 + d) e ds < 10000 →
  read_exponent false e (digits_text ds) = (foldl (λ acc d, acc * 10 + d) e ds, false, "").
Proof.
  intros Hds. revert e. induction Hds as [|d ds Hd Hds IH]; intros e He Hlt; [done|].
  change (digits_text (d :: ds)) with (String (digit_char d) (digits_text ds)). cbn [read_exponent foldl] in *.
  rewrite (digit_digit_char d Hd). assert (digit_char d ≠ "_"%char) as H1.
  { intros E; pose proof (digit_digit_char d Hd) as Hdig; by rewrite E in Hdig. }
  rewrite bool_decide_eq_false_2 by done.
  assert (∀ ds acc, digit_list ds → 0 ≤ acc → acc ≤ foldl (λ acc d, acc * 10 + d) acc ds) as Hmono.
  { clear. intros ds acc Hds. revert acc. induction Hds as [|d ds Hd _ IH]; intros acc Hacc; simpl; [done|].
    pose proof (IH (acc * 10 + d)). lia. }
  pose proof (Hmono ds (e * 10 + d) Hds ltac:(lia)). rewrite (proj2 (Z.ltb_lt e 10000)) by lia. apply IH; lia.
Qed.

Lemma FormatUint_read n :
  0 ≤ n → ∃ d ds, FormatUint n = digits_text (d :: ds) ∧ digit_list (d :: ds) ∧ digits_value 10 (d :: ds) = n.
Proof.
  intros Hn. destruct (decide (n = 0)) as [->|Hne].
  - exists 0, []. split_and!; [done|constructor; [lia|constructor]|done].
  - destruct (FormatUint_digits_text n) as (d & ds & ? & ? & ? & ?); [lia|]. by exists d, ds.
Qed.

Lemma digit_char_other d c : 0 ≤ d < 10 → digit c = None → digit_char d ≠ c.
Proof. intros Hd Hc E. pose proof (digit_digit_char d Hd). congruence. Qed.

Lemma take_sign_formatted negative d ds rest :
  0 ≤ d < 10 → take_sign (formatted negative (digits_text (d :: ds) +:+ rest)) = (negative, digits_text (d :: ds) +:+ rest).
Proof.
  intros Hd. destruct negative; [done|]. cbn [formatted].
  change (digits_text (d :: ds) +:+ rest) with (String (digit_char d) (digits_text ds +:+ rest)). cbn [take_sign].
  by rewrite !bool_decide_eq_false_2 by by apply digit_char_other.
Qed.

Lemma lower_digit d : 0 ≤ d < 10 → lower (digit_char d) = digit_char d.
Proof.
  intros Hd. assert (d ∈ [0; 1; 2; 3; 4; 5; 6; 7; 8; 9]) as Hin by (rewrite !elem_of_cons; lia).
  rewrite !elem_of_cons, elem_of_nil in Hin. by destruct_or! Hin; subst.
Qed.

(** No digit starts the name of a special value. *)
Lemma special_digits negative d ds rest :
  0 ≤ d < 10 → special (formatted negative (digits_text (d :: ds) +:+ rest)) = None.
Proof.
  intros Hd. unfold special. rewrite take_sign_formatted by done.
  change (digits_text (d :: ds) +:+ rest) with (String (digit_char d) (digits_text ds +:+ rest)). set (s := _ +:+ rest).
  assert (lower_string (String (digit_char d) s) = String (digit_char d) (lower_string s)) as E
    by (cbn [lower_string]; by rewrite lower_digit).
  assert (digit_char d ≠ "i"%char ∧ digit_char d ≠ "n"%char) as [Hi Hn] by (by split; apply digit_char_other).
  rewrite bool_decide_eq_false_2.
  - rewrite bool_decide_eq_false_2; [done|]. destruct negative; [done|]. cbn [formatted]. rewrite E. congruence.
  - rewrite E, !elem_of_cons, elem_of_nil. intros [?|[?|?]]; [congruence..|done].
Qed.

Lemma take_hex_digits d ds rest :
  0 ≤ d < 10 → d ≠ 0 → take_hex (digits_text (d :: ds) +:+ rest) = (false, digits_text (d :: ds) +:+ rest).
Proof.
  intros Hd Hne. change (digits_text (d :: ds) +:+ rest) with (String (digit_char d) (digits_text ds +:+ rest)). cbn [take_hex].
  destruct (_ +:+ _); [done|]. rewrite bool_decide_eq_false_2; [done|]. intros E.
  pose proof (digit_digit_char d Hd) as Hdig. rewrite E in Hdig. change (digit "0") with (Some 0) in Hdig. congruence.
Qed.

Lemma take_exponent_text e :
  -10000 < e < 10000 →
  take_exponent "e" ("e" +:+ (if e <? 0 then "-" else "") +:+ FormatUint (Z.abs e)) = Some (Some e, false, "").
Proof.
  intros He. destruct (FormatUint_read (Z.abs e)) as (d & ds & -> & Hr & Hv); [lia|]. pose proof Hr as [Hd _]%Forall_cons.
  change ("e" +:+ ?s) with (String "e"%char s). cbn [take_exponent]. change (bool_decide (lower "e" = "e"%char)) with true. cbv iota.
  change ((if e <? 0 then "-" else "") +:+ ?s) with (String.append (if e <? 0 then "-" else "") s).
  assert (take_sign ((if e <? 0 then "-" else "") +:+ digits_text (d :: ds)) = (e <? 0, digits_text (d :: ds))) as ->.
  { rewrite <- (string_app_nil_r (digits_text _)). pose proof (take_sign_formatted (e <? 0) d ds "" Hd) as Hs.
    by destruct (e <? 0). }
  assert (read_exponent false 0 (digits_text (d :: ds)) = (Z.abs e, false, "")) as Hread.
  { rewrite <- Hv. apply read_exponent_digits; [done..|]. fold (digits_value 10 (d :: ds)). lia. }
  revert Hread. change (digits_text (d :: ds)) with (String (digit_char d) (digits_text ds)). intros Hread. cbv iota beta.
  rewrite (digit_digit_char d Hd). cbn [mbind option_bind]. rewrite Hread. destruct (Z.ltb_spec e 0); do 3 f_equal; f_equal; lia.
Qed.

Lemma parse_whole negative n e :
  0 < n → -10000 < e < 10000 →
  ParseFloat (formatted negative (FormatUint n +:+ "e" +:+ (if e <? 0 then "-" else "") +:+ FormatUint (Z.abs e))) =
    float_value negative false (mkMantissa false true false n 0) e.
Proof.
  intros (d & ds & -> & Hr & Hne & <-)%FormatUint_digits_text He. pose proof Hr as [Hd _]%Forall_cons.
  set (exponent := "e" +:+ _). unfold ParseFloat. rewrite special_digits, take_sign_formatted by done. cbv beta iota.
  rewrite take_hex_digits by done. cbv beta iota. rewrite read_mantissa_digits, add_digits by done.
  assert (∀ m, read_mantissa false m exponent = (m, exponent)) as -> by done. cbv beta iota.
  cbn [sawdigits orb negb]. rewrite bool_decide_eq_false_2 by done. cbn [negb]. unfold exponent. by rewrite take_exponent_text.
Qed.

(** The exact decimal is read as the number. *)
Lemma ParseFloat_exact negative m e :
  bounded 53 1024 m e = true → ParseFloat (formatted negative (exact_decimal m e)) = Some (S754_finite negative m e).
Proof.
  intros Hb. pose proof (bounded_spec m e Hb) as [Hc He]. assert (-1074 ≤ e) as Hlow by (rewrite <- Hc; unfold fexp, SpecFloat.emin; lia).
  unfold exact_decimal. set (n := Zpos m * _ * _).
  pose proof (Z.pow_pos_nonneg 2 (Z.max 0 e) ltac:(lia) ltac:(lia)) as H2.
  pose proof (Z.pow_pos_nonneg 5 (Z.max 0 (- e)) ltac:(lia) ltac:(lia)) as H5.
  assert (0 < n) as Hn by (unfold n; nia).
  replace (e <? 0) with (Z.min 0 e <? 0) by (destruct (Z.ltb_spec e 0), (Z.ltb_spec (Z.min 0 e) 0); lia).
  replace (Z.max 0 (- e)) with (Z.abs (Z.min 0 e)) by lia. rewrite parse_whole by lia. unfold float_value. cbn [mant fraction].
  rewrite (proj2 (Z.eqb_neq n 0)) by lia. rewrite Z.sub_0_r.
  rewrite (round_ratio_exact negative m e); [done|done|..].
  - apply Z.mul_pos_pos; [done|]. apply Z.pow_pos_nonneg; lia.
  - apply Z.pow_pos_nonneg; lia.
  - replace (Z.max 0 (Z.min 0 e)) with 0 by lia. replace (Z.max 0 (- Z.min 0 e)) with (Z.max 0 (- e)) by lia.
    change 10 with (2 * 5) at 2. rewrite Z.pow_mul_l. unfold n. change (10 ^ 0) with 1. nia.
Qed.

(** The text of a number is a JSON number, and is read back as it. *)
Lemma float_text_literal f : float_finite f → float_literal (float_text f).
Proof.
  destruct f as [negative| | |negative m e]; try done; intros _; cbn [float_text].
  - exact (number_literal negative "0" "" "" ltac:(by left) ltac:(by left) ltac:(by left)).
  - destruct (finite_text_cases negative m e) as [(n & digits & dp & num & den & Hin & -> & _)| ->];
      [by eapply candidates_literal|apply exact_literal].
Qed.

Lemma ParseFloat_text f : valid_float f → float_finite f → ParseFloat (float_text f) = Some f.
Proof.
  destruct f as [negative| | |negative m e]; try done; intros Hv _; cbn [float_text]; [by destruct negative|].
  destruct (finite_text_cases negative m e) as [(n & digits & dp & num & den & _ & _ & Hp)| ->]; [done|].
  by apply ParseFloat_exact.
Qed.

(** ** Examples *)

Example ParseFloat_examples :
  ParseFloat "0.1" = Some (S754_finite false 7205759403792794 (-56)) ∧
  ParseFloat "-2.5e0" = Some (S754_finite true 5629499534213120 (-51)) ∧
  ParseFloat "0x1p-1_0" = ParseFloat "0.0009765625" ∧ ParseFloat "1_000" = ParseFloat "1e3" ∧
  ParseFloat "9007199254740993" = ParseFloat "9007199254740992" ∧
  ParseFloat "2e-324" = Some (S754_zero false) ∧ ParseFloat "1e309" = None ∧
  ParseFloat "-Infinity" = Some (S754_infinity true) ∧ ParseFloat "1_" = None ∧ ParseFloat "1e" = None.
Proof. by vm_compute. Qed.

(** The layouts change at 1e-6 and 1e21. *)
Example float_text_examples :
  (λ text, from_option float_text "" (ParseFloat text)) <$>
    ["0.1"; "-100"; "1e21"; "123456789012345678901"; "0.000001"; "0.0000001"; "0.30000000000000004"]
  = ["0.1"; "-100"; "1e+21"; "123456789012345680000"; "0.000001"; "1e-7"; "0.30000000000000004"].
Proof. by vm_compute. Qed.
