(* ===== verification/Request.v ===== *)
(** * Requests (request.go)

    The typed input of every policy model: subject, action, resource, tenant,
    environment and the four attribute maps, with [Request.Validate]. The
    named string types of the source are strings; an attribute map is [None]
    for the nil map. *)

From stdpp Require Import pretty.
From S2P Require Import Prelude Attribute.

(** ** Data *)

Abbreviation SubjectKind := string.
Abbreviation SubjectID := string.
Abbreviation Action := string.
Abbreviation ResourceType := string.
Abbreviation ResourceID := string.
Abbreviation TenantID := string.
Abbreviation AttributeName := string.
Abbreviation Attributes := (option (gmap string Value)).

Definition SubjectUser : SubjectKind := "user".
Definition SubjectServiceAccount : SubjectKind := "service-account".
Definition SubjectAPIKey : SubjectKind := "api-key".
Definition SubjectGroup : SubjectKind := "group".

Record Subject := mkSubject {
  Subject_Kind : SubjectKind;
  Subject_ID : SubjectID;
  Subject_Groups : list SubjectID;
  Subject_Attributes : Attributes
}.

Record Resource := mkResource {
  Resource_Type : ResourceType;
  Resource_ID : ResourceID;
  Resource_Attributes : Attributes
}.

Record Environment := mkEnvironment {
  Environment_Time : Time;
  Environment_Attributes : Attributes
}.

Record Request := mkRequest {
  Request_Subject : Subject;
  Request_Action : Action;
  Request_Resource : Resource;
  Request_Tenant : TenantID;
  Request_Environment : Environment;
  Request_Attributes : Attributes
}.

(** A lookup in an attribute map; the nil map has no keys. *)
Definition attributes_lookup (attributes : Attributes) (name : AttributeName) : option Value :=
  attributes ≫= λ m, m !! name.

(** ** Operations *)

(** [ValidationError.Error] prints the field with the sentinel's text;
    [ValidationError.Unwrap] is the [ValidationErr] case of [errors_Is]. *)
Definition ValidationError_Error (Field : string) : string :=
  Field +:+ ": " +:+ "invalid authorization request".

(** The table of required fields [Validate] walks. *)
Definition required_fields (request : Request) : list (string * string) :=
  [("subject.kind", Subject_Kind (Request_Subject request));
   ("subject.id", Subject_ID (Request_Subject request));
   ("action", Request_Action request);
   ("resource.type", Resource_Type (Request_Resource request))].

Fixpoint check_fields (fields : list (string * string)) : option error :=
  match fields with
  | [] => None
  | (name, value) :: fields =>
      if bool_decide (value = "") then Some (ValidationErr name) else check_fields fields
  end.

Definition group_field (index : nat) : string :=
  "subject.groups[" +:+ pretty index +:+ "]".

Fixpoint check_groups (index : nat) (groups : list SubjectID) : option error :=
  match groups with
  | [] => None
  | groupID :: groups =>
      if bool_decide (groupID = "") then Some (ValidationErr (group_field index))
      else check_groups (S index) groups
  end.

Definition Request_Validate (request : Request) : option error :=
  match check_fields (required_fields request) with
  | Some err => Some err
  | None => check_groups 0 (Subject_Groups (Request_Subject request))
  end.

(** ** Specification *)

Definition request_valid (request : Request) : Prop :=
  Subject_Kind (Request_Subject request) ≠ "" ∧ Subject_ID (Request_Subject request) ≠ "" ∧
  Request_Action request ≠ "" ∧ Resource_Type (Request_Resource request) ≠ "" ∧
  "" ∉ Subject_Groups (Request_Subject request).

(** ** Lemmas *)

Lemma check_groups_None index groups : check_groups index groups = None ↔ "" ∉ groups.
Proof.
  revert index. induction groups as [|g groups IH]; intros index; simpl; [set_solver|].
  case_bool_decide as E; [subst; set_solver|]. rewrite IH. set_solver.
Qed.

Lemma check_groups_Some index groups e :
  check_groups index groups = Some e →
  ∃ k, e = ValidationErr (group_field (index + k)) ∧ groups !! k = Some "" ∧
       ∀ j, j < k → groups !! j ≠ Some "".
Proof.
  revert index. induction groups as [|g groups IH]; intros index; simpl; [done|].
  case_bool_decide as E; intros H; simplify_eq.
  - exists 0. rewrite Nat.add_0_r. split_and!; [done|done|lia].
  - apply IH in H as (k & -> & Hk & Hj). exists (S k). split_and!; [f_equal; f_equal; lia|done|].
    intros [|j] Hlt; simpl; [by intros ?; simplify_eq|]. apply Hj. lia.
Qed.

(** [Validate] accepts exactly the requests with the required strings. *)
Lemma Request_Validate_None request : Request_Validate request = None ↔ request_valid request.
Proof.
  unfold Request_Validate, request_valid, required_fields; simpl.
  repeat case_bool_decide; try (by split; [done|intros (? & ? & ? & ? & ?)]).
  rewrite check_groups_None. split; [by auto|by intros (? & ? & ? & ? & ?)].
Qed.

Lemma Request_Validate_error request e :
  Request_Validate request = Some e →
  errors_Is e ErrInvalidRequest = true ∧
  ((∃ name, (name, "") ∈ required_fields request ∧ e = ValidationErr name) ∨
   (∃ k, Subject_Groups (Request_Subject request) !! k = Some "" ∧
         e = ValidationErr (group_field k))).
Proof.
  unfold Request_Validate. destruct (check_fields _) as [e'|] eqn:Ef; intros H; simplify_eq.
  - assert (∃ name, (name, "") ∈ required_fields request ∧ e = ValidationErr name) as (name & Hn & ->).
    { revert Ef. generalize (required_fields request). intros l.
      induction l as [|[name value] l IH]; simpl; [done|].
      case_bool_decide; intros; simplify_eq.
      - exists name. split; [by left|done].
      - destruct IH as (n & ? & ->); [done|]. exists n. split; [by right|done]. }
    split; [done|left; eauto].
  - apply check_groups_Some in H as (k & -> & Hk & _). split; [done|]. right. exists k. by split.
Qed.
