(* ===== verification/Decision.v ===== *)
(** * Decisions and combining algorithms (decision.go)

    Outcomes and combining algorithms are [uint8] in the source, so a value
    outside the named constants can reach the code: the last constructor of
    each type stands for those, [OutcomeOther c] for the value [3 + c] and
    [AlgorithmOther c] for [4 + c]. *)

From S2P Require Import Prelude Request.

(** ** Data *)

Definition ErrInvalidCombiningAlgorithm := errors_New "invalid combining algorithm".
Definition ErrInvalidOutcome := errors_New "invalid decision outcome".

Inductive Outcome :=
| NotApplicable
| Allow
| Deny
| OutcomeOther (code : N).

#[global] Instance Outcome_eq_dec : EqDecision Outcome.
Proof. solve_decision. Defined.

Definition outcome_code (o : Outcome) : N :=
  match o with NotApplicable => 0 | Allow => 1 | Deny => 2 | OutcomeOther c => 3 + c end.

Definition Outcome_String (outcome : Outcome) : string :=
  match outcome with
  | NotApplicable => "not-applicable"
  | Allow => "allow"
  | Deny => "deny"
  | OutcomeOther _ => "unknown"
  end.

(** [outcome > Deny]. *)
Definition outcome_above_Deny (o : Outcome) : bool := (2 <? outcome_code o)%N.

Abbreviation ReasonCode := string.
Abbreviation PolicyID := string.
Abbreviation Revision := Z.

Definition ReasonDefaultDeny : ReasonCode := "default-deny".
Definition ReasonInvalidRequest : ReasonCode := "invalid-request".
Definition ReasonEvaluationError : ReasonCode := "evaluation-error".
Definition ReasonContextCanceled : ReasonCode := "context-canceled".
Definition ReasonPolicyInactive : ReasonCode := "policy-inactive".
Definition ReasonPolicyStale : ReasonCode := "policy-stale".

Record TraceEntry := mkTraceEntry {
  Trace_PolicyID : PolicyID;
  Trace_Outcome : Outcome;
  Trace_Reason : ReasonCode
}.

Record Decision := mkDecision {
  Decision_Outcome : Outcome;
  Decision_Reason : ReasonCode;
  Decision_MatchedPolicyIDs : list PolicyID;
  Decision_MatchedPolicyIDsTruncated : bool;
  Decision_Revision : Revision;
  Decision_Trace : list TraceEntry;
  Decision_TraceTruncated : bool
}.

#[global] Instance TraceEntry_eq_dec : EqDecision TraceEntry.
Proof. solve_decision. Defined.
#[global] Instance Decision_eq_dec : EqDecision Decision.
Proof. solve_decision. Defined.

(** [Decision{Outcome: o, Reason: r, Revision: rev}]. *)
Definition bareDecision (o : Outcome) (r : ReasonCode) (rev : Revision) : Decision :=
  mkDecision o r [] false rev [] false.

(** The zero [Decision{}]. *)
Definition zeroDecision : Decision := bareDecision NotApplicable "" 0.

Inductive CombiningAlgorithm :=
| DenyOverrides
| AllowOverrides
| FirstApplicable
| PriorityOrder
| AlgorithmOther (code : N).

#[global] Instance CombiningAlgorithm_eq_dec : EqDecision CombiningAlgorithm.
Proof. solve_decision. Defined.

Definition algorithm_code (a : CombiningAlgorithm) : N :=
  match a with
  | DenyOverrides => 0 | AllowOverrides => 1 | FirstApplicable => 2
  | PriorityOrder => 3 | AlgorithmOther c => 4 + c
  end.

Definition CombiningAlgorithm_String (algorithm : CombiningAlgorithm) : string :=
  match algorithm with
  | DenyOverrides => "deny-overrides"
  | AllowOverrides => "allow-overrides"
  | FirstApplicable => "first-applicable"
  | PriorityOrder => "priority-order"
  | AlgorithmOther _ => "unknown"
  end.

(** ** Combine *)

(** The selection loop of [Combine], with its local [result]. *)
Fixpoint combine_loop (algorithm : CombiningAlgorithm) (result : Decision)
    (decisions : list Decision) : Decision :=
  match decisions with
  | [] => result
  | decision :: decisions =>
      if (bool_decide (algorithm = FirstApplicable) || bool_decide (algorithm = PriorityOrder)) &&
         negb (bool_decide (Decision_Outcome decision = NotApplicable)) then decision
      else if bool_decide (algorithm = DenyOverrides) &&
              bool_decide (Decision_Outcome decision = Deny) then decision
      else if bool_decide (algorithm = AllowOverrides) &&
              bool_decide (Decision_Outcome decision = Allow) then decision
      else if negb (bool_decide (Decision_Outcome decision = NotApplicable))
      then combine_loop algorithm decision decisions
      else combine_loop algorithm result decisions
  end.

Definition Combine (algorithm : CombiningAlgorithm) (decisions : list Decision) : result Decision :=
  if (3 <? algorithm_code algorithm)%N then Err ErrInvalidCombiningAlgorithm
  else if existsb (λ decision, outcome_above_Deny (Decision_Outcome decision)) decisions
  then Err ErrInvalidOutcome
  else Ok (combine_loop algorithm zeroDecision decisions).

(** [isDecisive] (engine.go): no later decision can change the result. *)
Definition isDecisive (algorithm : CombiningAlgorithm) (outcome : Outcome) : bool :=
  (bool_decide (algorithm = DenyOverrides) && bool_decide (outcome = Deny)) ||
  (bool_decide (algorithm = AllowOverrides) && bool_decide (outcome = Allow)) ||
  ((bool_decide (algorithm = FirstApplicable) || bool_decide (algorithm = PriorityOrder)) &&
   negb (bool_decide (outcome = NotApplicable))).

(** ** Specification *)

Definition outcome_valid (o : Outcome) : Prop :=
  match o with OutcomeOther _ => False | _ => True end.

Definition algorithm_valid (a : CombiningAlgorithm) : Prop :=
  match a with AlgorithmOther _ => False | _ => True end.

Definition has_outcome (o : Outcome) (d : Decision) : Prop := Decision_Outcome d = o.

Definition applicable (d : Decision) : Prop := Decision_Outcome d ≠ NotApplicable.

#[global] Typeclasses Opaque has_outcome applicable.

#[global] Instance has_outcome_dec o d : base.Decision (has_outcome o d) :=
  decide (Decision_Outcome d = o).
#[global] Instance applicable_dec d : base.Decision (applicable d) :=
  decide (Decision_Outcome d ≠ NotApplicable).

(** The decision an algorithm selects, declaratively: the first decision with
    the overriding outcome, else the last applicable one; for the ordered
    algorithms the first applicable one. [res] is the result when nothing
    applies. *)
Definition select (algorithm : CombiningAlgorithm) (res : Decision) (ds : list Decision) : Decision :=
  let last_applicable := default res (last (filter applicable ds)) in
  match algorithm with
  | DenyOverrides => default last_applicable (head (filter (has_outcome Deny) ds))
  | AllowOverrides => default last_applicable (head (filter (has_outcome Allow) ds))
  | _ => default res (head (filter applicable ds))
  end.

(** ** Lemmas *)

Lemma outcome_above_Deny_spec o : outcome_above_Deny o = false ↔ outcome_valid o.
Proof. destruct o; unfold outcome_above_Deny; simpl; rewrite N.ltb_ge; split; (done || lia). Qed.

Lemma algorithm_above_spec a : (3 <? algorithm_code a)%N = false ↔ algorithm_valid a.
Proof. destruct a; simpl; rewrite N.ltb_ge; split; (done || lia). Qed.

Lemma existsb_above_Deny ds :
  existsb (λ d, outcome_above_Deny (Decision_Outcome d)) ds = false ↔
  Forall (λ d, outcome_valid (Decision_Outcome d)) ds.
Proof.
  induction ds as [|d ds IH]; simpl; [by split; [constructor|]|].
  rewrite orb_false_iff, IH, outcome_above_Deny_spec. by rewrite Forall_cons.
Qed.

Lemma combine_loop_cons alg res d ds :
  combine_loop alg res (d :: ds) =
  if isDecisive alg (Decision_Outcome d) then d
  else combine_loop alg (if decide (applicable d) then d else res) ds.
Proof.
  simpl. unfold isDecisive.
  destruct (decide (applicable d)) as [H|H]; unfold applicable in H;
    destruct alg, (Decision_Outcome d); simpl; repeat case_bool_decide; simpl; try done;
    exfalso; (by apply H) || done.
Qed.

Lemma last_filter_cons (d : Decision) ds res :
  default res (last (filter applicable (d :: ds))) =
  default (if decide (applicable d) then d else res) (last (filter applicable ds)).
Proof.
  rewrite filter_cons. destruct (decide (applicable d)); [|done].
  rewrite last_cons. by destruct (last (filter applicable ds)).
Qed.

(** The loop computes the declarative selection. *)
Lemma combine_loop_select alg res ds :
  Forall (λ d, outcome_valid (Decision_Outcome d)) ds → algorithm_valid alg →
  combine_loop alg res ds = select alg res ds.
Proof.
  intros Hds Halg. revert res. induction Hds as [|d ds Hd _ IH]; intros res.
  { by destruct alg. }
  rewrite combine_loop_cons, IH. unfold select.
  rewrite !last_filter_cons, !filter_cons. unfold isDecisive.
  destruct (decide (applicable d)) as [Ha|Ha], (decide (has_outcome Deny d)) as [Hd'|Hd'],
    (decide (has_outcome Allow d)) as [Hw|Hw]; unfold applicable, has_outcome in Ha, Hd', Hw;
    destruct alg; simpl; repeat case_bool_decide; simpl; congruence || done.
Qed.

(** A decisive decision at the end of a prefix settles the rest. *)
Lemma combine_loop_decisive alg res ds d rest :
  Forall (λ d, isDecisive alg (Decision_Outcome d) = false) ds →
  isDecisive alg (Decision_Outcome d) = true →
  combine_loop alg res (ds ++ d :: rest) = combine_loop alg res (ds ++ [d]).
Proof.
  intros Hds Hd. revert res. induction Hds as [|d' ds Hd' _ IH]; intros res.
  - rewrite !app_nil_l, !combine_loop_cons. by rewrite Hd.
  - rewrite <- !app_comm_cons, !combine_loop_cons, Hd'. apply IH.
Qed.

(** The selected decision is the default or one of the input. *)
Lemma combine_loop_elem alg res ds :
  combine_loop alg res ds = res ∨
  combine_loop alg res ds ∈ ds ∧ applicable (combine_loop alg res ds).
Proof.
  revert res. induction ds as [|d ds IH]; intros res; [by left|].
  rewrite combine_loop_cons. destruct (isDecisive alg (Decision_Outcome d)) eqn:E.
  - right. split; [by left|]. unfold applicable, isDecisive in *. intros H. rewrite H in E.
    by destruct alg.
  - destruct (decide (applicable d)) as [Ha|Ha].
    + right. destruct (IH d) as [-> | [? ?]]; [by split; [left|]|]. split; [by right|done].
    + destruct (IH res) as [|[? ?]]; [by left|]. right. split; [by right|done].
Qed.

(** Some decision has the outcome [o]. *)
Definition some_outcome (o : Outcome) (ds : list Decision) : bool :=
  existsb (λ d, bool_decide (Decision_Outcome d = o)) ds.

Lemma some_outcome_spec o ds : some_outcome o ds = true ↔ ∃ d, d ∈ ds ∧ Decision_Outcome d = o.
Proof.
  unfold some_outcome. rewrite existsb_exists. setoid_rewrite bool_decide_eq_true.
  by setoid_rewrite <- list_elem_of_In.
Qed.

(** The outcome of the override algorithms depends only on which outcomes
    occur. *)
Lemma combine_loop_deny_outcome res ds :
  Forall (λ d, outcome_valid (Decision_Outcome d)) ds → Decision_Outcome res ≠ Deny →
  Decision_Outcome (combine_loop DenyOverrides res ds) =
    if some_outcome Deny ds then Deny
    else if some_outcome Allow ds then Allow else Decision_Outcome res.
Proof.
  intros Hds. revert res. induction Hds as [|d ds Hd _ IH]; intros res Hres; [done|].
  rewrite combine_loop_cons. unfold isDecisive, some_outcome in *; simpl.
  destruct (decide (applicable d)) as [Ha|Ha]; unfold applicable in Ha;
    destruct (Decision_Outcome d) eqn:E; simpl; rewrite ?orb_false_r; try done;
    try (exfalso; by apply Ha).
  - rewrite IH by congruence. rewrite E. by repeat case_match.
  - by apply IH.
Qed.

Lemma combine_loop_allow_outcome res ds :
  Forall (λ d, outcome_valid (Decision_Outcome d)) ds → Decision_Outcome res ≠ Allow →
  Decision_Outcome (combine_loop AllowOverrides res ds) =
    if some_outcome Allow ds then Allow
    else if some_outcome Deny ds then Deny else Decision_Outcome res.
Proof.
  intros Hds. revert res. induction Hds as [|d ds Hd _ IH]; intros res Hres; [done|].
  rewrite combine_loop_cons. unfold isDecisive, some_outcome in *; simpl.
  destruct (decide (applicable d)) as [Ha|Ha]; unfold applicable in Ha;
    destruct (Decision_Outcome d) eqn:E; simpl; rewrite ?orb_false_r; try done;
    try (exfalso; by apply Ha).
  - rewrite IH by congruence. rewrite E. by repeat case_match.
  - by apply IH.
Qed.

Lemma some_outcome_perm o ds ds' : ds ≡ₚ ds' → some_outcome o ds = some_outcome o ds'.
Proof.
  intros Hp. apply eq_true_iff_eq. rewrite !some_outcome_spec. by setoid_rewrite Hp.
Qed.

Lemma Combine_ok alg ds :
  algorithm_valid alg → Forall (λ d, outcome_valid (Decision_Outcome d)) ds →
  Combine alg ds = Ok (combine_loop alg zeroDecision ds).
Proof.
  intros Ha Hds. unfold Combine.
  rewrite (proj2 (algorithm_above_spec alg)) by done.
  by rewrite (proj2 (existsb_above_Deny ds)) by done.
Qed.

Lemma Combine_Ok_inv alg ds d :
  Combine alg ds = Ok d →
  algorithm_valid alg ∧ Forall (λ d, outcome_valid (Decision_Outcome d)) ds ∧
  d = combine_loop alg zeroDecision ds.
Proof.
  unfold Combine. destruct (3 <? algorithm_code alg)%N eqn:Ea; [done|].
  destruct (existsb _ ds) eqn:Eo; [done|]. intros H. simplify_eq.
  by rewrite <- algorithm_above_spec, <- existsb_above_Deny.
Qed.

(** ** Theorems *)

(** C28. [Combine] on every branch: an unknown algorithm is rejected first,
    then any outcome above [Deny]; otherwise the result is the declarative
    selection of the algorithm (first overriding decision, else last
    applicable one; first applicable one for the ordered algorithms). *)
Theorem Combine_spec (alg : CombiningAlgorithm) (ds : list Decision) :
  (¬ algorithm_valid alg → Combine alg ds = Err ErrInvalidCombiningAlgorithm) ∧
  (algorithm_valid alg → ¬ Forall (λ d, outcome_valid (Decision_Outcome d)) ds →
     Combine alg ds = Err ErrInvalidOutcome) ∧
  (algorithm_valid alg → Forall (λ d, outcome_valid (Decision_Outcome d)) ds →
     Combine alg ds = Ok (select alg zeroDecision ds)).
Proof.
  split_and!.
  - intros H. unfold Combine. by rewrite <- algorithm_above_spec, not_false_iff_true in H; rewrite H.
  - intros Ha Hds. unfold Combine. rewrite (proj2 (algorithm_above_spec alg)) by done.
    rewrite <- existsb_above_Deny, not_false_iff_true in Hds. by rewrite Hds.
  - intros Ha Hds. rewrite Combine_ok by done. by rewrite combine_loop_select.
Qed.

Lemma Combine_spec_witness :
  Combine (AlgorithmOther 0) [] = Err ErrInvalidCombiningAlgorithm ∧
  Combine DenyOverrides [bareDecision (OutcomeOther 7) "" 0] = Err ErrInvalidOutcome ∧
  Combine DenyOverrides [bareDecision Allow "a" 0; bareDecision Deny "b" 0; bareDecision Deny "c" 0] =
    Ok (bareDecision Deny "b" 0).
Proof.
  split_and!.
  - apply (proj1 (Combine_spec (AlgorithmOther 0) [])). by intros H.
  - apply (proj1 (proj2 (Combine_spec DenyOverrides [bareDecision (OutcomeOther 7) "" 0]))); [done|].
    by intros [H _]%Forall_cons.
  - refine (proj2 (proj2 (Combine_spec DenyOverrides
      [bareDecision Allow "a" 0; bareDecision Deny "b" 0; bareDecision Deny "c" 0])) I _).
    by repeat constructor.
Defined.

(** Under deny-overrides and allow-overrides the outcome depends only on
    which outcomes occur, not on their order: any deny (allow) wins, else any
    allow (deny), else nothing applies. *)
Theorem Combine_override_outcomes (ds ds' : list Decision) :
  Forall (λ d, outcome_valid (Decision_Outcome d)) ds → ds ≡ₚ ds' →
  ∃ d d' a a',
    Combine DenyOverrides ds = Ok d ∧ Combine DenyOverrides ds' = Ok d' ∧
    Decision_Outcome d = Decision_Outcome d' ∧
    Decision_Outcome d = (if some_outcome Deny ds then Deny
                          else if some_outcome Allow ds then Allow else NotApplicable) ∧
    Combine AllowOverrides ds = Ok a ∧ Combine AllowOverrides ds' = Ok a' ∧
    Decision_Outcome a = Decision_Outcome a' ∧
    Decision_Outcome a = (if some_outcome Allow ds then Allow
                          else if some_outcome Deny ds then Deny else NotApplicable).
Proof.
  intros Hds Hp. assert (Forall (λ d, outcome_valid (Decision_Outcome d)) ds') as Hds' by (by rewrite <- Hp).
  exists (combine_loop DenyOverrides zeroDecision ds), (combine_loop DenyOverrides zeroDecision ds'),
    (combine_loop AllowOverrides zeroDecision ds), (combine_loop AllowOverrides zeroDecision ds').
  rewrite !Combine_ok by done.
  rewrite !(combine_loop_deny_outcome _ ds), !(combine_loop_deny_outcome _ ds'),
    !(combine_loop_allow_outcome _ ds), !(combine_loop_allow_outcome _ ds') by done.
  by rewrite !(some_outcome_perm _ _ _ Hp).
Qed.

Lemma Combine_override_outcomes_witness :
  ∃ d d', Combine DenyOverrides [bareDecision Allow "a" 0; bareDecision Deny "b" 0] = Ok d ∧
    Combine DenyOverrides [bareDecision Deny "b" 0; bareDecision Allow "a" 0] = Ok d' ∧
    Decision_Outcome d = Decision_Outcome d'.
Proof.
  destruct (Combine_override_outcomes [bareDecision Allow "a" 0; bareDecision Deny "b" 0]
    [bareDecision Deny "b" 0; bareDecision Allow "a" 0]) as (d & d' & _ & _ & H1 & H2 & H3 & _).
  - by repeat constructor.
  - constructor.
  - by exists d, d'.
Defined.
