(* ===== verification/Snapshot.v ===== *)
(** * Policy snapshots (snapshot.go)

    [NewSnapshot] validates policy definitions and fixes their order;
    [activeAt] is the activation window of a policy. An [Evaluator] is any
    implementation of the interface: a call that may observe the context, may
    return a decision together with an error, and may panic. The nil interface
    is [None]. *)

From S2P Require Import Prelude Request Decision.

#[local] Open Scope Z_scope.

(** ** Data *)

Definition ErrInvalidPolicy := errors_New "invalid policy".
Definition ErrDuplicatePolicy := errors_New "duplicate policy".
Definition ErrInvalidActivationWindow := errors_New "invalid policy activation window".
Definition ErrInvalidRevision := errors_New "invalid policy revision".

Record Evaluator := mkEvaluator {
  Evaluate : Context → Request → M (Decision * option error)
}.

Abbreviation Metadata := (option (gmap string string)).

Record PolicyDefinition := mkPolicyDefinition {
  Definition_ID : PolicyID;
  Definition_Revision : Revision;
  Definition_Priority : Z;
  Definition_ActiveFrom : Time;
  Definition_ActiveUntil : Time;
  Definition_Metadata : Metadata;
  Definition_Evaluator : option Evaluator
}.

Record policyEntry := mkPolicyEntry {
  entry_id : PolicyID;
  entry_revision : Revision;
  entry_priority : Z;
  entry_activeFrom : Time;
  entry_activeUntil : Time;
  entry_metadata : Metadata;
  entry_evaluator : Evaluator
}.

Record PolicyInfo := mkPolicyInfo {
  Info_ID : PolicyID;
  Info_Revision : Revision;
  Info_Priority : Z;
  Info_ActiveFrom : Time;
  Info_ActiveUntil : Time;
  Info_Metadata : Metadata
}.

Record Snapshot := mkSnapshot {
  snapshot_revision : Revision;
  snapshot_algorithm : CombiningAlgorithm;
  snapshot_policies : list policyEntry
}.

(** ** Operations *)

Definition activeAt (policy : policyEntry) (at_ : Time) : bool :=
  (time_IsZero (entry_activeFrom policy) || negb (time_Before at_ (entry_activeFrom policy))) &&
  (time_IsZero (entry_activeUntil policy) || time_Before at_ (entry_activeUntil policy)).

(** [for key, value := range metadata { clone[key] = value }]. *)
Definition clone_map `{GoRuntime} {V} (m : gmap string V) : gmap string V :=
  foldl (λ clone '(key, value), <[key := value]> clone) ∅ (range_map 0 m).

Definition cloneMetadata `{GoRuntime} (metadata : Metadata) : Metadata :=
  match metadata with
  | None => None
  | Some m => Some (clone_map m)
  end.

(** [!definition.ActiveFrom.IsZero() && !definition.ActiveUntil.IsZero() &&
    !definition.ActiveUntil.After(definition.ActiveFrom)]. *)
Definition window_invalid (from until : Time) : bool :=
  negb (time_IsZero from) && negb (time_IsZero until) && negb (time_After until from).

Definition newPolicyEntry `{GoRuntime} (revision : Revision) (definition : PolicyDefinition)
    (evaluator : Evaluator) : policyEntry :=
  mkPolicyEntry (Definition_ID definition)
    (if Definition_Revision definition =? 0 then revision else Definition_Revision definition)
    (Definition_Priority definition)
    (Definition_ActiveFrom definition) (Definition_ActiveUntil definition)
    (cloneMetadata (Definition_Metadata definition)) evaluator.

Fixpoint snapshot_loop `{GoRuntime} (revision : Revision) (index : nat)
    (policyIDs : gset string) (definitions : list PolicyDefinition) : result (list policyEntry) :=
  match definitions with
  | [] => Ok []
  | definition :: definitions =>
      match Definition_Evaluator definition with
      | None => Err (fmt_Errorf "policy %d: %w" [FmtInt (Z.of_nat index)] ErrInvalidPolicy)
      | Some evaluator =>
          if bool_decide (Definition_ID definition = "") then
            Err (fmt_Errorf "policy %d: %w" [FmtInt (Z.of_nat index)] ErrInvalidPolicy)
          else if bool_decide (Definition_ID definition ∈ policyIDs) then
            Err (fmt_Errorf "policy %q: %w" [FmtString (Definition_ID definition)] ErrDuplicatePolicy)
          else if window_invalid (Definition_ActiveFrom definition) (Definition_ActiveUntil definition) then
            Err (fmt_Errorf "policy %q: %w" [FmtString (Definition_ID definition)] ErrInvalidActivationWindow)
          else
            policies ← snapshot_loop revision (S index)
                         ({[Definition_ID definition]} ∪ policyIDs) definitions;
            Ok (newPolicyEntry revision definition evaluator :: policies)
      end
  end.

(** The comparison [NewSnapshot] sorts with under [PriorityOrder]. *)
Definition compare_policies (left right : policyEntry) : Z :=
  let priority := cmp_Compare_int (entry_priority right) (entry_priority left) in
  if negb (priority =? 0) then priority
  else cmp_Compare_string (entry_id left) (entry_id right).

Definition NewSnapshot `{GoRuntime} (revision : Revision) (algorithm : CombiningAlgorithm)
    (definitions : list PolicyDefinition) : result Snapshot :=
  if revision =? 0 then Err ErrInvalidRevision
  else
    _ ← Combine algorithm [];
    policies ← snapshot_loop revision 0 ∅ definitions;
    Ok (mkSnapshot revision algorithm
          (if bool_decide (algorithm = PriorityOrder) then SortFunc compare_policies policies
           else policies)).

Definition Snapshot_Revision (snapshot : Snapshot) : Revision := snapshot_revision snapshot.

Definition Snapshot_Algorithm (snapshot : Snapshot) : CombiningAlgorithm :=
  snapshot_algorithm snapshot.

Definition Snapshot_Policies `{GoRuntime} (snapshot : Snapshot) : list PolicyInfo :=
  (λ policy, mkPolicyInfo (entry_id policy) (entry_revision policy) (entry_priority policy)
               (entry_activeFrom policy) (entry_activeUntil policy)
               (cloneMetadata (entry_metadata policy)))
    <$> snapshot_policies snapshot.

(** ** Specification *)

Definition window_ok (from until : Time) : Prop := from = 0 ∨ until = 0 ∨ from < until.

Definition definition_ok (d : PolicyDefinition) : Prop :=
  Definition_ID d ≠ "" ∧ is_Some (Definition_Evaluator d) ∧
  window_ok (Definition_ActiveFrom d) (Definition_ActiveUntil d).

(** The invariant of an accepted snapshot. *)
Record snapshot_wf (s : Snapshot) : Prop := {
  wf_revision : snapshot_revision s ≠ 0;
  wf_algorithm : algorithm_valid (snapshot_algorithm s);
  wf_unique : NoDup (entry_id <$> snapshot_policies s);
  wf_policies : Forall (λ p, entry_id p ≠ "" ∧ entry_revision p ≠ 0 ∧
    window_ok (entry_activeFrom p) (entry_activeUntil p)) (snapshot_policies s);
  wf_sorted : snapshot_algorithm s = PriorityOrder →
    StronglySorted (λ p q, entry_priority q < entry_priority p ∨
      entry_priority p = entry_priority q ∧ String.le (entry_id p) (entry_id q) ∧ entry_id p ≠ entry_id q)
      (snapshot_policies s)
}.

(** ** Lemmas *)

Lemma clone_map_id `{GoRuntime} {V} (m : gmap string V) : clone_map m = m.
Proof.
  unfold clone_map.
  assert (∀ l (acc : gmap string V), NoDup l.*1 →
    ∀ k, foldl (λ clone '(key, value), <[key := value]> clone) acc l !! k =
      match (list_to_map l : gmap string V) !! k with Some v => Some v | None => acc !! k end) as Hfold.
  { induction l as [|[k v] l IH]; intros acc Hnd k'; simpl; [done|].
    apply NoDup_cons in Hnd as [Hk Hnd]. rewrite IH by done.
    destruct (decide (k = k')) as [->|Hne].
    - by rewrite !lookup_insert_eq, not_elem_of_list_to_map_1.
    - rewrite !lookup_insert_ne by done. done. }
  assert (NoDup (range_map 0 m).*1) as Hnd.
  { rewrite range_map_perm. apply NoDup_fst_map_to_list. }
  apply map_eq. intros k. rewrite Hfold by done. rewrite lookup_empty.
  assert (list_to_map (range_map 0 m) = m) as ->.
  { rewrite (list_to_map_proper _ (map_to_list m)); [|done|apply range_map_perm].
    apply list_to_map_to_list. }
  by destruct (m !! k).
Qed.

Lemma cloneMetadata_id `{GoRuntime} metadata : cloneMetadata metadata = metadata.
Proof. destruct metadata; simpl; [by rewrite clone_map_id|done]. Qed.

Lemma window_invalid_spec from until : window_invalid from until = false ↔ window_ok from until.
Proof.
  unfold window_invalid, window_ok, time_IsZero, time_After.
  destruct (Z.eqb_spec from 0), (Z.eqb_spec until 0), (Z.ltb_spec from until); simpl; split; (done || lia).
Qed.

Lemma compare_policies_spec left right :
  compare_policies left right = by_priority entry_priority entry_id left right.
Proof. unfold compare_policies, by_priority, cmp_Or. by destruct (_ =? 0). Qed.

#[global] Instance compare_policies_comparison : Comparison compare_policies.
Proof. split; intros *; rewrite !compare_policies_spec; apply by_priority_comparison. Qed.

(** The loop accepts exactly the valid definitions with new identifiers. *)
Lemma snapshot_loop_Ok `{GoRuntime} revision index ids ds ps :
  snapshot_loop revision index ids ds = Ok ps →
  Forall definition_ok ds ∧ NoDup (Definition_ID <$> ds) ∧
  (∀ d, d ∈ ds → Definition_ID d ∉ ids) ∧
  Forall2 (λ d p, ∃ ev, Definition_Evaluator d = Some ev ∧ p = newPolicyEntry revision d ev) ds ps.
Proof.
  revert index ids ps. induction ds as [|d ds IH]; intros index ids ps; simpl.
  { intros; simplify_eq. split_and!; try constructor. set_solver. }
  destruct (Definition_Evaluator d) as [ev|] eqn:Eev; [|done].
  case_bool_decide as Eid; [done|]. case_bool_decide as Edup; [done|].
  destruct (window_invalid _ _) eqn:Ew; [done|].
  destruct (snapshot_loop revision (S index) _ ds) as [ps'|e] eqn:El; simpl; [|done].
  intros; simplify_eq. apply IH in El as (H1 & H2 & H3 & H4).
  apply window_invalid_spec in Ew.
  split_and!.
  - constructor; [|done]. split_and!; [done|by eexists|done].
  - csimpl. constructor; [|done]. intros (d' & E & Hd')%list_elem_of_fmap.
    apply (H3 d'); [done|]. rewrite <- E. set_solver.
  - intros d' [->|Hd']%elem_of_cons; [done|]. specialize (H3 d' Hd'). set_solver.
  - constructor; [|done]. eauto.
Qed.

Lemma snapshot_loop_complete `{GoRuntime} revision index ids ds :
  Forall definition_ok ds → NoDup (Definition_ID <$> ds) →
  (∀ d, d ∈ ds → Definition_ID d ∉ ids) →
  ∃ ps, snapshot_loop revision index ids ds = Ok ps.
Proof.
  revert index ids. induction ds as [|d ds IH]; intros index ids Hok Hnd Hids; simpl; [eauto|].
  apply Forall_cons in Hok as [(Hid & [ev ->] & Hw) Hok].
  csimpl in Hnd. apply NoDup_cons in Hnd as [Hd Hnd].
  rewrite (bool_decide_false (Definition_ID d = "")) by done.
  rewrite (bool_decide_false (Definition_ID d ∈ ids)) by (apply Hids; by left).
  rewrite (proj2 (window_invalid_spec _ _)) by done.
  destruct (IH (S index) ({[Definition_ID d]} ∪ ids)) as [ps ->]; [done|done| |simpl; eauto].
  intros d' Hd'. rewrite not_elem_of_union, not_elem_of_singleton. split.
  - intros E. apply Hd. rewrite <- E. by apply list_elem_of_fmap_2.
  - apply Hids. by right.
Qed.

Lemma newPolicyEntries_ids `{GoRuntime} revision ds ps :
  Forall2 (λ d p, ∃ ev, Definition_Evaluator d = Some ev ∧ p = newPolicyEntry revision d ev) ds ps →
  entry_id <$> ps = Definition_ID <$> ds.
Proof. induction 1 as [|d p ds ps (ev & _ & ->) _ IH]; [done|]. csimpl. by rewrite IH. Qed.

Lemma NewSnapshot_Ok_inv `{GoRuntime} revision alg ds s :
  NewSnapshot revision alg ds = Ok s →
  revision ≠ 0 ∧ algorithm_valid alg ∧
  ∃ ps, snapshot_loop revision 0 ∅ ds = Ok ps ∧
    s = mkSnapshot revision alg
          (if bool_decide (alg = PriorityOrder) then SortFunc compare_policies ps else ps).
Proof.
  unfold NewSnapshot. destruct (Z.eqb_spec revision 0) as [|Hr]; [done|].
  destruct (Combine alg []) as [d|e] eqn:Ec; simpl; [|done].
  apply Combine_Ok_inv in Ec as [Ha _].
  destruct (snapshot_loop _ _ _ ds) as [ps|e]; simpl; [|done].
  intros; simplify_eq. eauto 10.
Qed.

(** When construction succeeds. *)
Lemma NewSnapshot_Ok_iff `{GoRuntime} (revision : Revision) (alg : CombiningAlgorithm)
    (ds : list PolicyDefinition) :
  (∃ s, NewSnapshot revision alg ds = Ok s) ↔
  revision ≠ 0 ∧ algorithm_valid alg ∧ Forall definition_ok ds ∧ NoDup (Definition_ID <$> ds).
Proof.
  split.
  - intros [s Hs]. apply NewSnapshot_Ok_inv in Hs as (Hr & Ha & ps & Hl & _).
    apply snapshot_loop_Ok in Hl as (? & ? & _). done.
  - intros (Hr & Ha & Hok & Hnd). unfold NewSnapshot.
    destruct (Z.eqb_spec revision 0); [done|].
    rewrite Combine_ok by (done || constructor). simpl.
    destruct (snapshot_loop_complete revision 0 ∅ ds) as [ps ->]; [done|done|set_solver|].
    simpl. eauto.
Qed.

(** The policies of an accepted snapshot are the definitions, in definition
    order except under [PriorityOrder]. *)
Lemma NewSnapshot_policies `{GoRuntime} revision alg ds s :
  NewSnapshot revision alg ds = Ok s →
  ∃ ps, Forall2 (λ d p, ∃ ev, Definition_Evaluator d = Some ev ∧ p = newPolicyEntry revision d ev) ds ps ∧
    snapshot_policies s ≡ₚ ps ∧ (alg ≠ PriorityOrder → snapshot_policies s = ps).
Proof.
  intros (Hr & Ha & ps & Hl & ->)%NewSnapshot_Ok_inv.
  apply snapshot_loop_Ok in Hl as (_ & _ & _ & H2). exists ps. split; [done|]. simpl.
  case_bool_decide; [|done]. split; [|done]. apply SortFunc_perm.
Qed.

(** What an accepted snapshot satisfies. *)
Lemma NewSnapshot_wf `{GoRuntime} (revision : Revision) (alg : CombiningAlgorithm)
    (ds : list PolicyDefinition) (s : Snapshot) :
  NewSnapshot revision alg ds = Ok s →
  snapshot_wf s ∧ snapshot_revision s = revision ∧ snapshot_algorithm s = alg ∧
  entry_id <$> snapshot_policies s ≡ₚ Definition_ID <$> ds ∧
  (alg ≠ PriorityOrder → entry_id <$> snapshot_policies s = Definition_ID <$> ds).
Proof.
  intros Hs. destruct (NewSnapshot_policies _ _ _ _ Hs) as (ps & H2 & Hperm & Heq).
  pose proof (newPolicyEntries_ids _ _ _ H2) as Hids.
  apply NewSnapshot_Ok_inv in Hs as (Hr & Ha & ps' & Hl & ->).
  apply snapshot_loop_Ok in Hl as (Hok & Hnd & _ & _). simpl in *.
  assert (NoDup (entry_id <$> if bool_decide (alg = PriorityOrder)
    then SortFunc compare_policies ps' else ps')) as Hnodup by (by rewrite Hperm, Hids).
  split_and!; [|done|done|by rewrite Hperm, Hids|intros ?; by rewrite Heq, Hids].
  split; simpl; [done|done|done|..].
  - rewrite Hperm. clear Hperm Heq Hids Hnodup. induction H2 as [|d p ds ps (ev & _ & ->) _ IH]; [constructor|].
    apply Forall_cons in Hok as [(? & ? & ?) Hok]. csimpl in Hnd. apply NoDup_cons in Hnd as [_ Hnd].
    constructor; [|by apply IH]. simpl. split_and!; [done| |done]. by case_match eqn:E; reflect_bools.
  - intros ->. rewrite bool_decide_true in * by done.
    assert (StronglySorted (cmp_le compare_policies) (SortFunc compare_policies ps')) as Hs
      by (apply SortFunc_sorted; apply _).
    revert Hs Hnodup. generalize (SortFunc compare_policies ps') as l. clear.
    induction 1 as [|p l _ IH Hp]; [constructor|]. intros Hnd. csimpl in Hnd.
    apply NoDup_cons in Hnd as [Hid Hnd]. constructor; [by apply IH|].
    rewrite Forall_forall in Hp |- *. intros q Hq. specialize (Hp q Hq).
    unfold cmp_le in Hp. rewrite compare_policies_spec, by_priority_le in Hp.
    destruct Hp as [?|[? ?]]; [by left|]. right. split_and!; [done..|].
    intros E. apply Hid. rewrite E. by apply list_elem_of_fmap_2.
Qed.

(** ** Theorems *)

(** [NewSnapshot] succeeds exactly for a nonzero revision, a supported
    algorithm and definitions with unique nonempty identifiers, non-nil
    evaluators and activation windows that are open or nonempty; every
    accepted snapshot satisfies the snapshot invariant: nonzero revisions (a
    zero policy revision inherits the snapshot's), unique nonempty
    identifiers, nonempty windows, and under priority order the policies
    strictly sorted by descending priority then identifier; the policies are
    a permutation of the definitions, in definition order for the other
    algorithms. *)
Theorem NewSnapshot_spec `{GoRuntime} (revision : Revision) (alg : CombiningAlgorithm)
    (ds : list PolicyDefinition) :
  ((∃ s, NewSnapshot revision alg ds = Ok s) ↔
     revision ≠ 0 ∧ algorithm_valid alg ∧ Forall definition_ok ds ∧ NoDup (Definition_ID <$> ds)) ∧
  ∀ s, NewSnapshot revision alg ds = Ok s →
    snapshot_wf s ∧ snapshot_revision s = revision ∧ snapshot_algorithm s = alg ∧
    entry_id <$> snapshot_policies s ≡ₚ Definition_ID <$> ds ∧
    (alg ≠ PriorityOrder → entry_id <$> snapshot_policies s = Definition_ID <$> ds).
Proof. split; [apply NewSnapshot_Ok_iff|]. intros s. apply NewSnapshot_wf. Qed.

Lemma activeAt_spec policy t :
  activeAt policy t = true ↔
  (entry_activeFrom policy = 0 ∨ entry_activeFrom policy ≤ t) ∧
  (entry_activeUntil policy = 0 ∨ t < entry_activeUntil policy).
Proof.
  unfold activeAt, time_IsZero, time_Before.
  rewrite andb_true_iff, !orb_true_iff, negb_true_iff, !Z.eqb_eq, Z.ltb_ge, Z.ltb_lt. done.
Qed.

(** A fixture: an evaluator that returns a fixed decision. *)
Definition constEvaluator (d : Decision) : Evaluator :=
  mkEvaluator (λ _ _, mret (d, None)).

Definition example_definition (id : PolicyID) (priority : Z) (from until : Time) : PolicyDefinition :=
  mkPolicyDefinition id 0 priority from until None (Some (constEvaluator (bareDecision Allow "ok" 0))).

Lemma NewSnapshot_spec_witness :
  ∃ s, @NewSnapshot plain_runtime 5 PriorityOrder
         [example_definition "a" 1 0 0; example_definition "b" 2 10 20] = Ok s ∧
       entry_id <$> snapshot_policies s = ["b"; "a"] ∧ snapshot_wf s.
Proof.
  eexists. split; [reflexivity|]. split; [reflexivity|].
  apply (proj2 (@NewSnapshot_spec plain_runtime 5 PriorityOrder
    [example_definition "a" 1 0 0; example_definition "b" 2 10 20])). reflexivity.
Defined.

(** A policy of an accepted snapshot is active exactly on the half-open
    window [ActiveFrom, ActiveUntil), with a zero end unbounded, and every
    accepted window contains an instant. *)
Theorem activation_window `{GoRuntime} (revision : Revision) (alg : CombiningAlgorithm)
    (ds : list PolicyDefinition) (s : Snapshot) (p : policyEntry) :
  NewSnapshot revision alg ds = Ok s → p ∈ snapshot_policies s →
  (∀ t, activeAt p t = true ↔
    (entry_activeFrom p = 0 ∨ entry_activeFrom p ≤ t) ∧
    (entry_activeUntil p = 0 ∨ t < entry_activeUntil p)) ∧
  ∃ t, activeAt p t = true.
Proof.
  intros Hs Hp. split; [apply activeAt_spec|]. setoid_rewrite activeAt_spec.
  apply NewSnapshot_policies in Hs as Hps. destruct Hps as (ps & H2 & Hperm & _).
  apply NewSnapshot_Ok_inv in Hs as (_ & _ & ps' & Hl & _).
  apply snapshot_loop_Ok in Hl as (Hok & _ & _ & _).
  rewrite Hperm in Hp. apply list_elem_of_lookup in Hp as [i Hi].
  apply Forall2_lookup_r with (i := i) (y := p) in H2 as (d & Hd & ev & _ & ->); [|done].
  apply Forall_lookup_1 with (i := i) (x := d) in Hok as (_ & _ & Hw); [|done]. simpl.
  destruct Hw as [->|[->|Hlt]].
  - exists (Definition_ActiveUntil d - 1). lia.
  - exists (Definition_ActiveFrom d). lia.
  - exists (Definition_ActiveFrom d). lia.
Qed.

Lemma activation_window_witness :
  ∃ s p, @NewSnapshot plain_runtime 5 DenyOverrides [example_definition "b" 2 10 20] = Ok s ∧
         p ∈ snapshot_policies s ∧ (∃ t, activeAt p t = true) ∧ activeAt p 20 = false.
Proof.
  eexists _, _. split; [reflexivity|]. split; [by left|]. split; [|reflexivity].
  refine (proj2 (@activation_window plain_runtime 5 DenyOverrides
    [example_definition "b" 2 10 20] _ _ eq_refl _)). by left.
Defined.
