(* ===== verification/Engine.v ===== *)
(** * The decision engine (engine.go)

    [Engine.Decide] evaluates the active policies of one captured snapshot
    until the combining algorithm is decisive; [ReplaceSnapshot] publishes a
    newer snapshot; [DecideBatch] answers a list of requests against one
    snapshot. The engine's only mutable field is the snapshot pointer, [None]
    before [NewEngine] stores it. *)

From S2P Require Import Prelude Request Decision Snapshot.

#[local] Open Scope Z_scope.

(** ** Data *)

Definition ErrNilSnapshot := errors_New "authorization snapshot is nil".
Definition ErrBatchLimitExceeded := errors_New "authorization batch limit exceeded".
Definition ErrPolicyLimitExceeded := errors_New "authorization policy limit exceeded".
Definition ErrPolicyPanic := errors_New "authorization policy panicked".
Definition ErrRevisionConflict := errors_New "authorization revision conflict".
Definition ErrRevisionNotMonotonic := errors_New "authorization revision is not monotonic".

Definition defaultMaxBatchSize : Z := 1000.
Definition defaultMaxPolicies : Z := 1000.
Definition defaultMaxTraceSize : Z := 100.
Definition defaultMaxMatchedPolicyIDs : Z := 100.

Record Limits := mkLimits {
  MaxBatchSize : Z;
  MaxPolicies : Z;
  MaxTraceSize : Z;
  MaxMatchedPolicyIDs : Z
}.

Record Engine := mkEngine {
  engine_snapshot : option Snapshot;
  engine_limits : Limits;
  engine_clock : M Time
}.

Definition EngineOption := Engine → Engine.

(** ** Construction *)

(** [if value > 0 { field = value }]. *)
Definition positive_or (value field : Z) : Z := if 0 <? value then value else field.

Definition WithLimits (limits : Limits) : EngineOption := λ engine,
  let current := engine_limits engine in
  mkEngine (engine_snapshot engine)
    (mkLimits (positive_or (MaxBatchSize limits) (MaxBatchSize current))
              (positive_or (MaxPolicies limits) (MaxPolicies current))
              (positive_or (MaxTraceSize limits) (MaxTraceSize current))
              (positive_or (MaxMatchedPolicyIDs limits) (MaxMatchedPolicyIDs current)))
    (engine_clock engine).

Definition WithClock (clock : option (M Time)) : EngineOption := λ engine,
  match clock with
  | Some clock => mkEngine (engine_snapshot engine) (engine_limits engine) clock
  | None => engine
  end.

Definition default_limits : Limits :=
  mkLimits defaultMaxBatchSize defaultMaxPolicies defaultMaxTraceSize defaultMaxMatchedPolicyIDs.

Definition NewEngine `{GoRuntime} (snapshot : option Snapshot) (options : list EngineOption) :
    result Engine :=
  match snapshot with
  | None => Err ErrNilSnapshot
  | Some snapshot =>
      let engine := foldl (λ engine option, option engine) (mkEngine None default_limits now) options in
      if MaxPolicies (engine_limits engine) <? len (snapshot_policies snapshot)
      then Err ErrPolicyLimitExceeded
      else Ok (mkEngine (Some snapshot) (engine_limits engine) (engine_clock engine))
  end.

(** ** Decide *)

Definition failureDecision (snapshot : Snapshot) : Decision :=
  bareDecision Deny ReasonEvaluationError (snapshot_revision snapshot).

(** [evaluatePolicy] with its deferred [recover]. *)
Definition evaluatePolicy (ctx : Context) (evaluator : Evaluator) (request : Request) :
    M (Decision * option error) := λ n,
  match Evaluate evaluator ctx request n with
  | (Ret r, n') => (Ret r, n')
  | (Panic, n') => (Ret (zeroDecision, Some ErrPolicyPanic), n')
  end.

(** The local variables of [decide] that the policy loop updates. *)
Record decide_state := mkDecideState {
  st_decisions : list Decision;
  st_matched : list PolicyID;
  st_matchedTruncated : bool;
  st_trace : list TraceEntry;
  st_traceTruncated : bool
}.

Definition trace_entry (policy : policyEntry) (decision : Decision) : TraceEntry :=
  mkTraceEntry (entry_id policy) (Decision_Outcome decision) (Decision_Reason decision).

(** The identifiers a decision contributes: its own, or its policy's. *)
Definition matched_ids (policy : policyEntry) (decision : Decision) : list PolicyID :=
  match Decision_MatchedPolicyIDs decision with
  | [] => [entry_id policy]
  | matched => matched
  end.

(** The updates of one iteration after the outcome check. *)
Definition decide_record (limits : Limits) (policy : policyEntry) (decision : Decision)
    (st : decide_state) : decide_state :=
  let decisions := st_decisions st ++ [decision] in
  let '(trace, traceTruncated) :=
    if len (st_trace st) <? MaxTraceSize limits
    then (st_trace st ++ [trace_entry policy decision], st_traceTruncated st)
    else (st_trace st, true) in
  let '(matchedPolicyIDs, matchedPolicyIDsTruncated) :=
    if bool_decide (Decision_Outcome decision = NotApplicable)
    then (st_matched st, st_matchedTruncated st)
    else
      let matched := matched_ids policy decision in
      let remaining := MaxMatchedPolicyIDs limits - len (st_matched st) in
      let '(ids, truncated) :=
        if remaining <? len matched
        then (st_matched st ++ take (Z.to_nat (Z.max remaining 0)) matched, true)
        else (st_matched st ++ matched, st_matchedTruncated st) in
      (ids, truncated || Decision_MatchedPolicyIDsTruncated decision) in
  mkDecideState decisions matchedPolicyIDs matchedPolicyIDsTruncated trace traceTruncated.

(** The decision of one policy: inactive policies are not evaluated. *)
Definition policy_decision (ctx : Context) (request : Request) (evaluationTime : Time)
    (policy : policyEntry) : M (Decision * option error) :=
  if activeAt policy evaluationTime
  then evaluatePolicy ctx (entry_evaluator policy) request
  else mret (bareDecision NotApplicable ReasonPolicyInactive 0, None).

(** The policy loop: [inl] is an early return, [inr] the state at its end. *)
Fixpoint decide_loop (limits : Limits) (ctx : Context) (request : Request) (snapshot : Snapshot)
    (evaluationTime : Time) (policies : list policyEntry) (st : decide_state) :
    M (Decision * option error + decide_state) :=
  match policies with
  | [] => mret (inr st)
  | policy :: policies =>
      err ← ctx_Err ctx;
      match err with
      | Some err =>
          mret (inl (bareDecision Deny ReasonContextCanceled (snapshot_revision snapshot), Some err))
      | None =>
          '(decision, err) ← policy_decision ctx request evaluationTime policy;
          match err with
          | Some err =>
              mret (inl (failureDecision snapshot, Some (PolicyEvaluationErr (entry_id policy) err)))
          | None =>
              if outcome_above_Deny (Decision_Outcome decision)
              then mret (inl (failureDecision snapshot, Some ErrInvalidOutcome))
              else
                let st := decide_record limits policy decision st in
                if isDecisive (snapshot_algorithm snapshot) (Decision_Outcome decision)
                then mret (inr st)
                else decide_loop limits ctx request snapshot evaluationTime policies st
          end
      end
  end.

(** The statements of [decide] after the loop. *)
Definition decide_finish (snapshot : Snapshot) (st : decide_state) : Decision * option error :=
  match Combine (snapshot_algorithm snapshot) (st_decisions st) with
  | Err err => (failureDecision snapshot, Some err)
  | Ok decision =>
      let '(outcome, reason) :=
        if bool_decide (Decision_Outcome decision = NotApplicable)
        then (Deny, ReasonDefaultDeny)
        else (Decision_Outcome decision, Decision_Reason decision) in
      (mkDecision outcome reason (st_matched st) (st_matchedTruncated st)
         (snapshot_revision snapshot) (st_trace st) (st_traceTruncated st), None)
  end.

Definition evaluation_time (engine : Engine) (request : Request) : M Time :=
  let time := Environment_Time (Request_Environment request) in
  if time_IsZero time then engine_clock engine else mret time.

Definition initial_state : decide_state := mkDecideState [] [] false [] false.

Definition engine_decide (engine : Engine) (ctx : Context) (request : Request) (snapshot : Snapshot) :
    M (Decision * option error) :=
  match Request_Validate request with
  | Some err =>
      mret (bareDecision Deny ReasonInvalidRequest (snapshot_revision snapshot), Some err)
  | None =>
      err ← ctx_Err ctx;
      match err with
      | Some err =>
          mret (bareDecision Deny ReasonContextCanceled (snapshot_revision snapshot), Some err)
      | None =>
          evaluationTime ← evaluation_time engine request;
          r ← decide_loop (engine_limits engine) ctx request snapshot evaluationTime
                (snapshot_policies snapshot) initial_state;
          mret match r with
               | inl early => early
               | inr st => decide_finish snapshot st
               end
      end
  end.

(** [engine.snapshot.Load()] dereferenced: a nil pointer panics. *)
Definition load_snapshot (engine : Engine) : M Snapshot := λ n,
  match engine_snapshot engine with
  | Some snapshot => (Ret snapshot, n)
  | None => (Panic, n)
  end.

Definition Engine_Decide (engine : Engine) (ctx : Context) (request : Request) :
    M (Decision * option error) :=
  snapshot ← load_snapshot engine;
  engine_decide engine ctx request snapshot.

Definition Engine_Revision (engine : Engine) : M Revision :=
  snapshot ← load_snapshot engine;
  mret (snapshot_revision snapshot).

(** ** DecideBatch *)

(** The loop over the requests, for one way of deciding a request. The models'
    [EvaluateBatch] have the same loop. *)
Fixpoint batch_loop (decide : Request → M (Decision * option error))
    (requests : list Request) : M (list Decision * list error) :=
  match requests with
  | [] => mret ([], [])
  | request :: requests =>
      '(decision, err) ← decide request;
      '(decisions, errorsByRequest) ← batch_loop decide requests;
      mret (decision :: decisions,
            match err with Some err => err :: errorsByRequest | None => errorsByRequest end)
  end.

Definition Engine_DecideBatch (engine : Engine) (ctx : Context) (requests : list Request) :
    M (list Decision * option error) :=
  if MaxBatchSize (engine_limits engine) <? len requests
  then mret ([], Some ErrBatchLimitExceeded)
  else
    snapshot ← load_snapshot engine;
    '(decisions, errorsByRequest) ←
      batch_loop (λ request, engine_decide engine ctx request snapshot) requests;
    mret (decisions, errors_Join (Some <$> errorsByRequest)).

(** ** ReplaceSnapshot *)

(** The check before the mutex is taken. *)
Definition replace_admit (limits : Limits) (next : option Snapshot) : Snapshot + error :=
  match next with
  | None => inr ErrNilSnapshot
  | Some next =>
      if MaxPolicies limits <? len (snapshot_policies next)
      then inr ErrPolicyLimitExceeded else inl next
  end.

(** The check made while the mutex is held, against the loaded snapshot. *)
Definition replace_check (current next : Snapshot) (expected : Revision) : option error :=
  if negb (snapshot_revision current =? expected) then Some ErrRevisionConflict
  else if snapshot_revision next <=? snapshot_revision current then Some ErrRevisionNotMonotonic
  else None.

Definition store_snapshot (engine : Engine) (next : Snapshot) : Engine :=
  mkEngine (Some next) (engine_limits engine) (engine_clock engine).

(** A replacement that runs without interruption: the returned error and the
    engine after it; loading a nil snapshot panics. *)
Definition Engine_ReplaceSnapshot (engine : Engine) (next : option Snapshot) (expected : Revision) :
    Go (option error * Engine) :=
  match replace_admit (engine_limits engine) next with
  | inr err => Ret (Some err, engine)
  | inl next =>
      match engine_snapshot engine with
      | None => Panic
      | Some current =>
          match replace_check current next expected with
          | Some err => Ret (Some err, engine)
          | None => Ret (None, store_snapshot engine next)
          end
      end
  end.

(** ** Specification *)

(** One policy contributes decision [d] when asked at position [n]. *)
Definition policy_decides (ctx : Context) (request : Request) (t : Time) (p : policyEntry)
    (n : nat) (d : Decision) (n' : nat) : Prop :=
  policy_decision ctx request t p n = (Ret (d, None), n') ∧ outcome_valid (Decision_Outcome d).

(** The policies evaluated by a run that is not cut short by an error, and
    their decisions: evaluation stops at the first decisive decision. *)
Inductive policy_run (ctx : Context) (request : Request) (t : Time) (alg : CombiningAlgorithm) :
    list policyEntry → nat → list Decision → nat → Prop :=
| run_done n : policy_run ctx request t alg [] n [] n
| run_stop p ps n d n' :
    Err_at ctx n = None → policy_decides ctx request t p (S n) d n' →
    isDecisive alg (Decision_Outcome d) = true →
    policy_run ctx request t alg (p :: ps) n [d] n'
| run_next p ps n d n' ds n'' :
    Err_at ctx n = None → policy_decides ctx request t p (S n) d n' →
    isDecisive alg (Decision_Outcome d) = false →
    policy_run ctx request t alg ps n' ds n'' →
    policy_run ctx request t alg (p :: ps) n (d :: ds) n''.

(** The loop state after the evaluated policies and their decisions. *)
Definition record_all (limits : Limits) (pds : list (policyEntry * Decision)) : decide_state → decide_state :=
  λ st, foldl (λ st '(p, d), decide_record limits p d st) st pds.

(** The clock the engine borrows does not panic (documented at [WithClock]). *)
Class ClockTotal (clock : M Time) : Prop :=
  clock_total : ∀ n, ∃ t n', clock n = (Ret t, n').

#[global] Instance now_total `{GoRuntime} : ClockTotal now.
Proof. intros n. by eexists _, _. Qed.

(** What a policy model promises to the engine: it does not panic, returns a
    defined outcome, and never returns [Allow] together with an error. *)
Class EvaluatorLaws (ev : Evaluator) : Prop :=
  evaluator_laws : ∀ ctx request n, ∃ d err n',
    Evaluate ev ctx request n = (Ret (d, err), n') ∧
    outcome_valid (Decision_Outcome d) ∧ (is_Some err → Decision_Outcome d ≠ Allow).

(** A model that answers [d] to [request] whenever the context is live. *)
Class DecidesTo (ev : Evaluator) (request : Request) (d : Decision) : Prop :=
  decides_to : ∀ ctx `{!ContextLive ctx} n, ∃ n', Evaluate ev ctx request n = (Ret (d, None), n').

#[global] Instance constEvaluator_decides d request : DecidesTo (constEvaluator d) request d.
Proof. intros ctx _ n. by eexists. Qed.

(** ** Lemmas *)

Lemma evaluatePolicy_total ctx ev request n :
  ∃ d err n', evaluatePolicy ctx ev request n = (Ret (d, err), n').
Proof.
  unfold evaluatePolicy. destruct (Evaluate ev ctx request n) as [[[d err]|] n']; eauto.
Qed.

Lemma policy_decision_total ctx request t p n :
  ∃ d err n', policy_decision ctx request t p n = (Ret (d, err), n').
Proof.
  unfold policy_decision. destruct (activeAt p t); [apply evaluatePolicy_total|].
  by eexists _, _, _.
Qed.

(** An early return of the loop denies, carries an error and the revision of
    the snapshot. *)
Definition early_denial (snapshot : Snapshot) (r : Decision * option error) : Prop :=
  ∃ reason err, r = (bareDecision Deny reason (snapshot_revision snapshot), Some err).

Lemma decide_loop_total limits ctx request s t ps st n :
  ∃ r n', decide_loop limits ctx request s t ps st n = (Ret r, n') ∧
    match r with inl early => early_denial s early | inr _ => True end.
Proof.
  revert st n. induction ps as [|p ps IH]; intros st n; simpl; [by eexists _, _|].
  rewrite ctx_Err_bind. destruct (Err_at ctx n) as [err|]; simpl.
  { eexists _, _. split; [done|]. by eexists _, _. }
  unfold mbind, M_bind.
  destruct (policy_decision_total ctx request t p (S n)) as (d & [err|] & n' & ->); simpl.
  { eexists _, _. split; [done|]. by eexists _, _. }
  destruct (outcome_above_Deny _).
  { eexists _, _. split; [done|]. by eexists _, _. }
  destruct (isDecisive _ _); [by eexists _, _|]. apply IH.
Qed.

(** The loop ends normally exactly on a policy run, in the recorded state. *)
Lemma decide_loop_run limits ctx request s t ps st n st' n' :
  decide_loop limits ctx request s t ps st n = (Ret (inr st'), n') ↔
  ∃ ds, policy_run ctx request t (snapshot_algorithm s) ps n ds n' ∧
        st' = record_all limits (zip ps ds) st.
Proof.
  revert st n. induction ps as [|p ps IH]; intros st n; simpl.
  { split.
    - rewrite M_ret_run. intros; simplify_eq. exists []. split; [constructor|done].
    - intros (ds & Hr & ->). by inversion Hr. }
  rewrite ctx_Err_bind. destruct (Err_at ctx n) as [err|] eqn:Ee; simpl.
  { split; [done|]. intros (ds & Hr & _). by inversion Hr; simplify_eq. }
  unfold mbind, M_bind.
  destruct (policy_decision_total ctx request t p (S n)) as (d & err & m & E). rewrite E.
  destruct err as [err|].
  { split; [done|]. intros (ds & Hr & _).
    inversion Hr as [|? ? ? ? ? _ [E' _]|? ? ? ? ? ? ? _ [E' _]]; congruence. }
  destruct (outcome_above_Deny (Decision_Outcome d)) eqn:Eo.
  { split; [done|]. intros (ds & Hr & _).
    inversion Hr as [|? ? ? ? ? _ [E' Hv]|? ? ? ? ? ? ? _ [E' Hv]]; rewrite E in E'; simplify_eq;
      rewrite <- outcome_above_Deny_spec in Hv; congruence. }
  apply outcome_above_Deny_spec in Eo.
  destruct (isDecisive _ (Decision_Outcome d)) eqn:Ed.
  - split.
    + rewrite M_ret_run. intros; simplify_eq. exists [d]. split; [by apply run_stop|]. by destruct ps.
    + intros (ds & Hr & ->).
      inversion Hr as [|? ? ? ? ? _ [E' Hv]|? ? ? ? ? ? ? _ [E' Hv] Ed']; rewrite E in E';
        simplify_eq; [|congruence]. by destruct ps.
  - rewrite IH. split.
    + intros (ds & Hr & ->). exists (d :: ds). split; [by eapply run_next|done].
    + intros (ds & Hr & ->).
      inversion Hr as [|? ? ? ? ? _ [E' Hv] Ed'|? ? ? ? ? ? ? _ [E' Hv] Ed' Hr']; rewrite E in E';
        simplify_eq; [congruence|]. by eexists.
Qed.

Lemma policy_run_valid ctx request t alg ps n ds n' :
  policy_run ctx request t alg ps n ds n' → Forall (λ d, outcome_valid (Decision_Outcome d)) ds.
Proof. by induction 1 as [|? ? ? ? ? _ [_ ?]|? ? ? ? ? ? ? _ [_ ?]]; repeat constructor. Qed.

Lemma policy_run_length ctx request t alg ps n ds n' :
  policy_run ctx request t alg ps n ds n' → (length ds ≤ length ps)%nat.
Proof. induction 1; simpl; lia. Qed.

(** Every decision of a run comes from the policy at the same index. *)
Lemma policy_run_lookup ctx request t alg ps n ds n' i d :
  policy_run ctx request t alg ps n ds n' → ds !! i = Some d →
  ∃ p m m', ps !! i = Some p ∧ policy_decides ctx request t p m d m'.
Proof.
  intros Hr. revert i d. induction Hr as [|p ps n d0 n' _ Hp _|p ps n d0 n' ds n'' _ Hp _ _ IH];
    intros i d Hi; [done|..]; destruct i as [|i]; simpl in *; simplify_eq; eauto.
Qed.

(** A run without decisive decision evaluates every policy. *)
Lemma policy_run_full ctx request t alg ps n ds n' :
  policy_run ctx request t alg ps n ds n' →
  Forall (λ d, isDecisive alg (Decision_Outcome d) = false) ds → length ds = length ps.
Proof.
  induction 1 as [|? ? ? ? ? _ _ Hd|? ? ? ? ? ? ? _ _ _ _ IH]; intros Hall; [done|..];
    apply Forall_cons in Hall as [? ?]; [congruence|]. simpl. auto.
Qed.

(** The last decision of a partial run is decisive. *)
Lemma policy_run_shape ctx request t alg ps n ds n' :
  policy_run ctx request t alg ps n ds n' →
  Forall (λ d, isDecisive alg (Decision_Outcome d) = false) ds ∧ length ds = length ps ∨
  ∃ init d, ds = init ++ [d] ∧ isDecisive alg (Decision_Outcome d) = true ∧
    Forall (λ d, isDecisive alg (Decision_Outcome d) = false) init.
Proof.
  induction 1 as [|? ? ? d ? _ _ Hd|? ? ? d ? ? ? _ _ Hd _ IH].
  - left. by split; [constructor|].
  - right. exists [], d. by split_and!; [..|constructor].
  - destruct IH as [[? ?]|(init & d' & -> & ? & ?)].
    + left. split; [by constructor|]. simpl. lia.
    + right. exists (d :: init), d'. split_and!; [done..|by constructor].
Qed.

(** The diagnostics of an evaluated list of policies, without limits: one
    entry per policy with what it decided; and, of the policies that apply,
    the identifiers they report, or their own. *)
Definition full_trace (pds : list (policyEntry * Decision)) : list TraceEntry :=
  (λ '(p, d), mkTraceEntry (entry_id p) (Decision_Outcome d) (Decision_Reason d)) <$> pds.

Definition reported_ids (p : policyEntry) (d : Decision) : list PolicyID :=
  if bool_decide (Decision_Outcome d = NotApplicable) then []
  else if bool_decide (Decision_MatchedPolicyIDs d = []) then [entry_id p]
  else Decision_MatchedPolicyIDs d.

Definition full_matched (pds : list (policyEntry * Decision)) : list PolicyID :=
  concat ((λ '(p, d), reported_ids p d) <$> pds).

Definition some_truncated (pds : list (policyEntry * Decision)) : bool :=
  existsb (λ '(_, d), negb (bool_decide (Decision_Outcome d = NotApplicable)) &&
                      Decision_MatchedPolicyIDsTruncated d) pds.

Lemma record_all_snoc limits pds p d st :
  record_all limits (pds ++ [(p, d)]) st = decide_record limits p d (record_all limits pds st).
Proof. unfold record_all. by rewrite foldl_app. Qed.

Lemma full_matched_snoc pds p d :
  full_matched (pds ++ [(p, d)]) = full_matched pds ++
    if bool_decide (Decision_Outcome d = NotApplicable) then [] else matched_ids p d.
Proof.
  unfold full_matched. rewrite fmap_app, concat_app. simpl. rewrite app_nil_r. f_equal. unfold reported_ids, matched_ids.
  case_bool_decide; [done|]. by destruct (Decision_MatchedPolicyIDs d).
Qed.

Lemma len_take {A} (k : Z) (l : list A) : 0 ≤ k → len (take (Z.to_nat k) l) = Z.min k (len l).
Proof. intros. unfold len. rewrite length_take. lia. Qed.

(** Appending at most what is left below a bound is truncation at the bound. *)
Lemma take_append_remaining {A} (k : Z) (l m : list A) :
  0 ≤ k →
  let remaining := k - len (take (Z.to_nat k) l) in
  (if remaining <? len m then take (Z.to_nat k) l ++ take (Z.to_nat (Z.max remaining 0)) m
   else take (Z.to_nat k) l ++ m) = take (Z.to_nat k) (l ++ m) ∧
  (k <? len (l ++ m)) = (k <? len l) || (remaining <? len m).
Proof.
  intros Hk remaining. unfold remaining. rewrite len_take by done. unfold len.
  rewrite take_app, length_app. split.
  - destruct (Z.ltb_spec (k - Z.min k (Z.of_nat (length l))) (Z.of_nat (length m))).
    + do 2 f_equal. lia.
    + f_equal. symmetry. apply take_ge. lia.
  - apply eq_true_iff_eq. rewrite orb_true_iff, !Z.ltb_lt. lia.
Qed.

(** Appending one element while below a bound is truncation at the bound. *)
Lemma take_append_one {A} (k : Z) (l : list A) (x : A) :
  0 ≤ k →
  (if len (take (Z.to_nat k) l) <? k then (take (Z.to_nat k) l ++ [x], k <? len l)
   else (take (Z.to_nat k) l, true)) =
  (take (Z.to_nat k) (l ++ [x]), k <? len (l ++ [x])).
Proof.
  intros Hk. rewrite len_take, len_app, take_app by done. unfold len. simpl.
  destruct (Z.ltb_spec (Z.min k (Z.of_nat (length l))) k).
  - f_equal; [f_equal; symmetry; apply take_ge; simpl; lia|].
    apply eq_true_iff_eq. rewrite !Z.ltb_lt. lia.
  - f_equal; [|symmetry; apply Z.ltb_lt; lia].
    replace (Z.to_nat k - length l)%nat with 0%nat by lia. by rewrite app_nil_r.
Qed.

Lemma record_all_spec limits pds :
  0 ≤ MaxTraceSize limits → 0 ≤ MaxMatchedPolicyIDs limits →
  record_all limits pds initial_state =
  mkDecideState pds.*2
    (take (Z.to_nat (MaxMatchedPolicyIDs limits)) (full_matched pds))
    ((MaxMatchedPolicyIDs limits <? len (full_matched pds)) || some_truncated pds)
    (take (Z.to_nat (MaxTraceSize limits)) (full_trace pds))
    (MaxTraceSize limits <? len (full_trace pds)).
Proof.
  intros Ht Hm. induction pds as [|[p d] pds IH] using rev_ind.
  { unfold full_matched, len. simpl. rewrite !take_nil. unfold initial_state.
    by rewrite !(proj2 (Z.ltb_ge _ _)) by lia. }
  rewrite record_all_snoc, IH. unfold decide_record.
  assert (full_trace (pds ++ [(p, d)]) = full_trace pds ++ [trace_entry p d]) as ->
    by (unfold full_trace; by rewrite fmap_app).
  assert (some_truncated (pds ++ [(p, d)]) = some_truncated pds ||
    negb (bool_decide (Decision_Outcome d = NotApplicable)) && Decision_MatchedPolicyIDsTruncated d) as ->
    by (unfold some_truncated; rewrite existsb_app; simpl; by rewrite orb_false_r).
  rewrite full_matched_snoc, fmap_app. simpl. rewrite (take_append_one _ _ _ Ht).
  case_bool_decide as Eo; simpl.
  - by rewrite app_nil_r, orb_false_r.
  - destruct (take_append_remaining (MaxMatchedPolicyIDs limits) (full_matched pds)
      (matched_ids p d) Hm) as [Hids Hlt]; simpl in Hids, Hlt. rewrite Hlt, <- Hids.
    destruct (_ <? len (matched_ids p d)); simpl;
      rewrite ?orb_true_r, ?orb_false_r, ?orb_assoc; done.
Qed.

Lemma evaluation_time_total engine request n `{!ClockTotal (engine_clock engine)} :
  ∃ t n', evaluation_time engine request n = (Ret t, n').
Proof.
  unfold evaluation_time. destruct (time_IsZero _); [apply clock_total|]. by eexists _, _.
Qed.

Lemma decide_finish_cases s st :
  early_denial s (decide_finish s st) ∨
  ∃ c d, Combine (snapshot_algorithm s) (st_decisions st) = Ok c ∧ decide_finish s st = (d, None) ∧
    Decision_Revision d = snapshot_revision s ∧
    (Decision_Outcome c = NotApplicable ∧ Decision_Outcome d = Deny ∧ Decision_Reason d = ReasonDefaultDeny ∨
     Decision_Outcome c ≠ NotApplicable ∧ Decision_Outcome d = Decision_Outcome c ∧
     Decision_Reason d = Decision_Reason c).
Proof.
  unfold decide_finish. destruct (Combine _ _) as [c|e].
  - right. exists c. case_bool_decide; eexists; split_and!; try done; [by left|by right].
  - left. by eexists _, _.
Qed.

(** The successful decisions, as policy runs. *)
Lemma engine_decide_success engine ctx request s n d n' :
  engine_decide engine ctx request s n = (Ret (d, None), n') ↔
  request_valid request ∧ Err_at ctx n = None ∧
  ∃ t n1 ds, evaluation_time engine request (S n) = (Ret t, n1) ∧
    policy_run ctx request t (snapshot_algorithm s) (snapshot_policies s) n1 ds n' ∧
    decide_finish s (record_all (engine_limits engine) (zip (snapshot_policies s) ds) initial_state) = (d, None).
Proof.
  unfold engine_decide. rewrite <- Request_Validate_None.
  destruct (Request_Validate request) as [e|]; [by split; [|intros [? _]]|].
  rewrite ctx_Err_bind. destruct (Err_at ctx n) as [e|]; [by split; [|intros (_ & ? & _)]|].
  split.
  - intros (t & n1 & Et & H)%M_bind_inv. split_and!; [done..|].
    apply M_bind_inv in H as ([early|st] & n2 & El & H); rewrite M_ret_run in H; simplify_eq.
    + destruct (decide_loop_total (engine_limits engine) ctx request s t (snapshot_policies s)
        initial_state n1) as (r & n3 & E & Hr). rewrite El in E. simplify_eq.
      by destruct Hr as (? & ? & ?).
    + apply decide_loop_run in El as (ds & Hr & ->). by exists t, n1, ds.
  - intros (_ & _ & t & n1 & ds & Et & Hr & Hf). erewrite M_bind_Ret by done.
    erewrite M_bind_Ret by (apply decide_loop_run; eauto). by rewrite M_ret_run, Hf.
Qed.

Lemma engine_decide_total engine ctx request s n `{!ClockTotal (engine_clock engine)} :
  ∃ r n', engine_decide engine ctx request s n = (Ret r, n') ∧
    (early_denial s r ∨ ∃ d, r = (d, None)).
Proof.
  unfold engine_decide. destruct (Request_Validate request) as [e|].
  { eexists _, _. split; [done|]. left. by eexists _, _. }
  rewrite ctx_Err_bind. destruct (Err_at ctx n) as [e|].
  { eexists _, _. split; [done|]. left. by eexists _, _. }
  destruct (evaluation_time_total engine request (S n)) as (t & n1 & Et).
  erewrite M_bind_Ret by done.
  destruct (decide_loop_total (engine_limits engine) ctx request s t (snapshot_policies s)
    initial_state n1) as (r & n2 & El & Hr).
  erewrite M_bind_Ret by done. eexists _, _. split; [done|].
  destruct r as [early|st]; [by left|].
  destruct (decide_finish_cases s st) as [?|(c & d & _ & -> & _)]; [by left|right; by eexists].
Qed.

(** The decisions of a run are the second components of the pairs. *)
Lemma zip_run_decisions ctx request t alg ps n ds n' :
  policy_run ctx request t alg ps n ds n' → (zip ps ds).*2 = ds.
Proof. intros Hr%policy_run_length. by apply snd_zip. Qed.

Lemma record_all_decisions limits pds st :
  st_decisions (record_all limits pds st) = st_decisions st ++ pds.*2.
Proof.
  revert st. induction pds as [|[p d] pds IH]; intros st; [by rewrite app_nil_r|].
  change (record_all limits ((p, d) :: pds) st) with (record_all limits pds (decide_record limits p d st)).
  rewrite IH. csimpl. rewrite (cons_middle d), app_assoc. f_equal.
  unfold decide_record. by repeat case_match.
Qed.

Lemma run_decisions limits ctx request t alg ps n ds n' :
  policy_run ctx request t alg ps n ds n' →
  st_decisions (record_all limits (zip ps ds) initial_state) = ds.
Proof. intros Hr. rewrite record_all_decisions. simpl. by eapply zip_run_decisions. Qed.

(** What a successful decision is: the combined decisions of a run, or the
    default deny. *)
Lemma engine_decide_outcome engine ctx request s n d n' :
  engine_decide engine ctx request s n = (Ret (d, None), n') →
  ∃ t n0 n1 ds, evaluation_time engine request n0 = (Ret t, n1) ∧
    policy_run ctx request t (snapshot_algorithm s) (snapshot_policies s) n1 ds n' ∧
    Decision_Revision d = snapshot_revision s ∧
    let c := combine_loop (snapshot_algorithm s) zeroDecision ds in
    (Decision_Outcome c = NotApplicable ∧ Decision_Outcome d = Deny ∧ Decision_Reason d = ReasonDefaultDeny ∨
     c ∈ ds ∧ (Decision_Outcome c = Allow ∨ Decision_Outcome c = Deny) ∧
     Decision_Outcome d = Decision_Outcome c ∧ Decision_Reason d = Decision_Reason c).
Proof.
  intros (_ & _ & t & n1 & ds & Et & Hr & Hf)%engine_decide_success.
  exists t, (S n), n1, ds. split; [done|]. split; [done|].
  destruct (decide_finish_cases s (record_all (engine_limits engine)
    (zip (snapshot_policies s) ds) initial_state)) as [(? & ? & E)|(c & d' & Ec & E & Hrev & Hc)];
    rewrite Hf in E; [done|]. injection E as <-. split; [done|].
  rewrite (run_decisions _ _ _ _ _ _ _ _ _ Hr) in Ec.
  apply Combine_Ok_inv in Ec as (_ & Hv & ->). simpl.
  destruct Hc as [?|(Hna & Ho & Hre)]; [by left|]. right.
  destruct (combine_loop_elem (snapshot_algorithm s) zeroDecision ds) as [E|[Hin _]].
  { by rewrite E in Hna. }
  split_and!; [done| |done|done].
  rewrite Forall_forall in Hv. specialize (Hv _ Hin).
  destruct (Decision_Outcome (combine_loop _ _ _)); by auto.
Qed.

(** A decision other than "not applicable" comes from the evaluator of an
    active policy. *)
Lemma policy_decides_active ctx request t p m d m' :
  policy_decides ctx request t p m d m' → activeAt p t = true ∨ Decision_Outcome d ≠ NotApplicable →
  activeAt p t = true ∧ Evaluate (entry_evaluator p) ctx request m = (Ret (d, None), m').
Proof.
  intros [Hp _] Ha. unfold policy_decision, evaluatePolicy in Hp. destruct (activeAt p t).
  - split; [done|]. by destruct (Evaluate _ _ _ _) as [[?|] ?]; simplify_eq.
  - rewrite M_ret_run in Hp. simplify_eq. by destruct Ha.
Qed.

(** Under deny-overrides a run that combines to [Allow] evaluated every
    policy, and none of them denied. *)
Lemma deny_overrides_run ctx request t ps n ds n' p :
  policy_run ctx request t DenyOverrides ps n ds n' →
  Decision_Outcome (combine_loop DenyOverrides zeroDecision ds) = Allow →
  p ∈ ps → activeAt p t = true →
  ∃ m d m', Evaluate (entry_evaluator p) ctx request m = (Ret (d, None), m') ∧ Decision_Outcome d ≠ Deny.
Proof.
  intros Hrun Hallow Hp Ha. apply list_elem_of_lookup in Hp as [i Hi].
  assert (∀ d, d ∈ ds → Decision_Outcome d ≠ Deny) as Hnone.
  { rewrite combine_loop_deny_outcome in Hallow; [|by eapply policy_run_valid|done].
    intros d Hd E. assert (some_outcome Deny ds = true) as Hs by (apply some_outcome_spec; eauto).
    by rewrite Hs in Hallow. }
  assert (length ds = length ps) as Hlen.
  { eapply policy_run_full; [done|]. apply Forall_forall. intros d Hd.
    specialize (Hnone d Hd). unfold isDecisive. simpl. by rewrite bool_decide_false, orb_false_r. }
  destruct (lookup_lt_is_Some_2 ds i) as [d Hd]; [rewrite Hlen; by eapply lookup_lt_Some|].
  destruct (policy_run_lookup _ _ _ _ _ _ _ _ _ _ Hrun Hd) as (p' & m & m' & Hp' & Hdec).
  rewrite Hi in Hp'. simplify_eq. exists m, d, m'. split; [|apply Hnone; by eapply list_elem_of_lookup_2].
  apply policy_decides_active in Hdec as [_ ?]; [done|by left].
Qed.

(** ** Theorems *)

(** C1. [Decide] is total and fails closed: whatever the evaluators do
    (errors, panics, undefined outcomes) and whenever the context is
    cancelled, it returns [Allow] or [Deny] at the revision of the captured
    snapshot; with an error it returns [Deny]; an invalid request is denied
    before anything is observed. *)
Theorem Decide_fail_closed (engine : Engine) (s : Snapshot) `{!ClockTotal (engine_clock engine)}
    (ctx : Context) (request : Request) (n : nat) :
  engine_snapshot engine = Some s →
  ∃ d err n', Engine_Decide engine ctx request n = (Ret (d, err), n') ∧
    Decision_Revision d = snapshot_revision s ∧
    (Decision_Outcome d = Allow ∨ Decision_Outcome d = Deny) ∧
    (is_Some err → Decision_Outcome d = Deny) ∧
    (¬ request_valid request → err = Request_Validate request ∧ Decision_Outcome d = Deny ∧ n' = n).
Proof.
  intros Hs. unfold Engine_Decide.
  assert (load_snapshot engine n = (Ret s, n)) as El by (unfold load_snapshot; by rewrite Hs).
  erewrite M_bind_Ret by done.
  destruct (engine_decide_total engine ctx request s n) as ([d err] & n' & E & Hr).
  exists d, err, n'. split; [done|].
  assert (¬ request_valid request → err = Request_Validate request ∧ Decision_Outcome d = Deny ∧ n' = n)
    as Hinv.
  { rewrite <- Request_Validate_None. intros Hv. unfold engine_decide in E.
    destruct (Request_Validate request); [|done]. rewrite M_ret_run in E. by simplify_eq. }
  destruct Hr as [(reason & e & ?)|[d' ?]]; simplify_eq; [by auto|].
  apply engine_decide_outcome in E as (t & n0 & n1 & ds & _ & _ & ? & Hc).
  split_and!; [done| |by intros []|done].
  destruct Hc as [(_ & ? & _)|(_ & Ho & -> & _)]; auto.
Qed.

Definition example_request : Request :=
  mkRequest (mkSubject "user" "alice" [] None) "read" (mkResource "document" "d1" None) "acme"
    (mkEnvironment 5 None) None.

Definition panicEvaluator : Evaluator := mkEvaluator (λ _ _ n, (Panic, n)).

Definition example_policy (id : PolicyID) (ev : Evaluator) : policyEntry :=
  mkPolicyEntry id 1 0 0 0 None ev.

Definition example_engine `{GoRuntime} (s : Snapshot) : Engine :=
  mkEngine (Some s) default_limits now.

Definition panic_snapshot : Snapshot :=
  mkSnapshot 7 DenyOverrides
    [example_policy "ok" (constEvaluator (bareDecision Allow "granted" 0));
     example_policy "bad" panicEvaluator].

Lemma Decide_fail_closed_witness :
  ∃ d err n', Engine_Decide (@example_engine plain_runtime panic_snapshot) context_Background
                example_request 0%nat = (Ret (d, err), n') ∧
    is_Some err ∧ Decision_Outcome d = Deny.
Proof.
  destruct (@Decide_fail_closed (@example_engine plain_runtime panic_snapshot) panic_snapshot
    (@now_total plain_runtime) context_Background example_request 0%nat eq_refl)
    as (d & err & n' & E & _ & _ & Herr & _).
  exists d, err, n'. split; [done|]. vm_compute in E. injection E as <- <- <-. by split.
Defined.

(** An active policy of the snapshot allowed the request with the reason of
    [d]; under deny-overrides every active policy was consulted and none
    denied. *)
Definition allow_justified (engine : Engine) (s : Snapshot) (ctx : Context) (request : Request) (d : Decision) :
    Prop :=
  ∃ t n0 n1, evaluation_time engine request n0 = (Ret t, n1) ∧
    (∃ p m d' m', p ∈ snapshot_policies s ∧ activeAt p t = true ∧
       Evaluate (entry_evaluator p) ctx request m = (Ret (d', None), m') ∧
       Decision_Outcome d' = Allow ∧ Decision_Reason d' = Decision_Reason d) ∧
    (snapshot_algorithm s = DenyOverrides →
       ∀ p, p ∈ snapshot_policies s → activeAt p t = true →
       ∃ m d' m', Evaluate (entry_evaluator p) ctx request m = (Ret (d', None), m') ∧
         Decision_Outcome d' ≠ Deny).

Lemma Engine_Decide_allow (engine : Engine) (ctx : Context) (request : Request) (s : Snapshot)
    (n : nat) (d : Decision) (err : option error) (n' : nat) `{!ClockTotal (engine_clock engine)} :
  engine_snapshot engine = Some s →
  Engine_Decide engine ctx request n = (Ret (d, err), n') → Decision_Outcome d = Allow →
  err = None ∧ request_valid request ∧ allow_justified engine s ctx request d.
Proof.
  intros Hs. unfold Engine_Decide.
  assert (load_snapshot engine n = (Ret s, n)) as El by (unfold load_snapshot; by rewrite Hs).
  erewrite M_bind_Ret by done. intros E Ho.
  destruct (engine_decide_total engine ctx request s n) as (r & n2 & E' & Hr).
  rewrite E in E'. simplify_eq. destruct Hr as [(? & ? & ?)|[d' ?]]; simplify_eq.
  split; [done|]. split; [by apply engine_decide_success in E as (? & _)|].
  apply engine_decide_outcome in E as (t & n0 & n1 & ds & Et & Hrun & _ & Hc).
  exists t, n0, n1. split; [done|]. destruct Hc as [(_ & ? & _)|(Hin & _ & Hoc & Hre)]; [congruence|].
  split.
  - apply list_elem_of_lookup in Hin as [i Hi].
    destruct (policy_run_lookup _ _ _ _ _ _ _ _ _ _ Hrun Hi) as (p & m & m' & Hp & Hd).
    apply policy_decides_active in Hd as [? ?]; [|right; congruence].
    exists p, m, (combine_loop (snapshot_algorithm s) zeroDecision ds), m'.
    split_and!; [by eapply list_elem_of_lookup_2|done|done|congruence|done].
  - intros Halg p Hp Ha. rewrite Halg in *.
    eapply deny_overrides_run; [done| |done|done]. congruence.
Qed.

(** C2. No accidental grant: when [Decide] returns [Allow] there is no
    error, the request is valid, and some policy of the snapshot that is
    active at the evaluation time was evaluated and itself returned [Allow]
    with that reason and no error; under deny-overrides every policy of the
    snapshot was consulted and none denied. *)
Theorem Decide_allow_justified (engine : Engine) (ctx : Context) (request : Request) (s : Snapshot)
    (n : nat) (d : Decision) (err : option error) (n' : nat) `{!ClockTotal (engine_clock engine)} :
  engine_snapshot engine = Some s →
  Engine_Decide engine ctx request n = (Ret (d, err), n') → Decision_Outcome d = Allow →
  err = None ∧ request_valid request ∧
  ∃ t n0 n1, evaluation_time engine request n0 = (Ret t, n1) ∧
    (∃ p m d' m', p ∈ snapshot_policies s ∧ activeAt p t = true ∧
       Evaluate (entry_evaluator p) ctx request m = (Ret (d', None), m') ∧
       Decision_Outcome d' = Allow ∧ Decision_Reason d' = Decision_Reason d) ∧
    (snapshot_algorithm s = DenyOverrides →
       ∀ p, p ∈ snapshot_policies s → activeAt p t = true →
       ∃ m d' m', Evaluate (entry_evaluator p) ctx request m = (Ret (d', None), m') ∧
         Decision_Outcome d' ≠ Deny).
Proof. exact (Engine_Decide_allow engine ctx request s n d err n'). Qed.

Definition allow_snapshot : Snapshot :=
  mkSnapshot 7 DenyOverrides
    [example_policy "none" (constEvaluator (bareDecision NotApplicable "no-match" 0));
     example_policy "ok" (constEvaluator (bareDecision Allow "granted" 0))].

Lemma Decide_allow_justified_witness :
  ∃ p m d' m', p ∈ snapshot_policies allow_snapshot ∧
    Evaluate (entry_evaluator p) context_Background example_request m = (Ret (d', None), m') ∧
    Decision_Outcome d' = Allow ∧ Decision_Reason d' = "granted".
Proof.
  destruct (@Decide_allow_justified (@example_engine plain_runtime allow_snapshot) context_Background
    example_request allow_snapshot 0%nat _ _ _ (@now_total plain_runtime) eq_refl eq_refl eq_refl)
    as (_ & _ & t & n0 & n1 & _ & (p & m & d' & m' & Hp & _ & HE & Ho & Hr) & _).
  by exists p, m, d', m'.
Defined.

Lemma zip_take_prefix {A B} (l : list A) (k : list B) (i : nat) : zip l (take i k) `prefix_of` zip l k.
Proof.
  revert k i. induction l as [|x l IH]; intros [|y k] [|i]; simpl; try apply prefix_nil.
  apply prefix_cons, IH.
Qed.

(** The decision of a pure policy at time [t]. *)
Definition pure_decision (f : policyEntry → Decision) (t : Time) (p : policyEntry) : Decision :=
  if activeAt p t then f p else bareDecision NotApplicable ReasonPolicyInactive 0.

(** A run of pure policies under a live context exists and stops at the first
    decisive decision. *)
Lemma policy_run_pure f ctx request t alg ps n `{!ContextLive ctx} :
  (∀ p, p ∈ ps → DecidesTo (entry_evaluator p) request (f p)) →
  (∀ p, p ∈ ps → outcome_valid (Decision_Outcome (f p))) →
  ∃ ds n', policy_run ctx request t alg ps n ds n' ∧
    ds = take (length ds) (pure_decision f t <$> ps) ∧
    combine_loop alg zeroDecision ds = combine_loop alg zeroDecision (pure_decision f t <$> ps).
Proof.
  intros Hpure Hvalid. generalize zeroDecision as res.
  revert n. induction ps as [|p ps IH]; intros n res.
  { exists [], n. by split_and!; [constructor|..]. }
  assert (∃ n', policy_decides ctx request t p (S n) (pure_decision f t p) n') as [n1 Hd].
  { unfold policy_decides, policy_decision, pure_decision, evaluatePolicy. destruct (activeAt p t).
    - destruct (@decides_to _ _ _ (Hpure p ltac:(by left)) ctx _ (S n)) as [n' E].
      exists n'. rewrite E. split; [done|]. apply Hvalid. by left.
    - exists (S n). by split. }
  rewrite fmap_cons, combine_loop_cons.
  destruct (isDecisive alg (Decision_Outcome (pure_decision f t p))) eqn:Ed.
  - exists [pure_decision f t p], n1. split_and!; [by apply run_stop|done|].
    by rewrite combine_loop_cons, Ed.
  - destruct (IH ltac:(intros; apply Hpure; by right) ltac:(intros; apply Hvalid; by right) n1
      (if decide (applicable (pure_decision f t p)) then pure_decision f t p else res))
      as (ds & n2 & Hr & Eds & Ec).
    exists (pure_decision f t p :: ds), n2. split_and!.
    + by eapply run_next.
    + simpl. by rewrite <- Eds.
    + by rewrite combine_loop_cons, Ed.
Qed.

(** C3. Short-circuit evaluation is equivalent to full evaluation: for
    policy models that answer without error under a live context, [Decide] returns no error, and its
    outcome and reason are those of [Combine] applied to the decisions of ALL
    policies (inactive ones not applicable), with "nothing applies" turned
    into the default deny; the trace is a prefix of the trace of all
    policies. *)
Theorem Decide_short_circuit (engine : Engine) (s : Snapshot) (f : policyEntry → Decision)
    (ctx : Context) (request : Request) (n : nat)
    `{!ContextLive ctx} `{!ClockTotal (engine_clock engine)} :
  engine_snapshot engine = Some s → request_valid request → algorithm_valid (snapshot_algorithm s) →
  0 ≤ MaxTraceSize (engine_limits engine) → 0 ≤ MaxMatchedPolicyIDs (engine_limits engine) →
  (∀ p, p ∈ snapshot_policies s → DecidesTo (entry_evaluator p) request (f p)) →
  (∀ p, p ∈ snapshot_policies s → outcome_valid (Decision_Outcome (f p))) →
  ∃ t n0 n1 d n' c, evaluation_time engine request n0 = (Ret t, n1) ∧
    Engine_Decide engine ctx request n = (Ret (d, None), n') ∧
    Combine (snapshot_algorithm s) (pure_decision f t <$> snapshot_policies s) = Ok c ∧
    Decision_Outcome d = (if bool_decide (Decision_Outcome c = NotApplicable) then Deny else Decision_Outcome c) ∧
    Decision_Reason d = (if bool_decide (Decision_Outcome c = NotApplicable) then ReasonDefaultDeny
                         else Decision_Reason c) ∧
    Decision_Trace d `prefix_of`
      full_trace (zip (snapshot_policies s) (pure_decision f t <$> snapshot_policies s)).
Proof.
  intros Hs Hv Ha Hlt Hlm Hpure Hvalid.
  destruct (evaluation_time_total engine request (S n)) as (t & n1 & Et).
  destruct (policy_run_pure f ctx request t (snapshot_algorithm s) (snapshot_policies s) n1)
    as (ds & n' & Hr & Eds & Ec); [done..|].
  assert (Forall (λ d, outcome_valid (Decision_Outcome d)) (pure_decision f t <$> snapshot_policies s)) as Hval.
  { apply Forall_fmap, Forall_forall. intros p Hp. simpl. unfold pure_decision.
    destruct (activeAt p t); [by apply Hvalid|done]. }
  set (c := combine_loop (snapshot_algorithm s) zeroDecision ds) in *.
  set (st := record_all (engine_limits engine) (zip (snapshot_policies s) ds) initial_state).
  assert (decide_finish s st = (mkDecision
    (if bool_decide (Decision_Outcome c = NotApplicable) then Deny else Decision_Outcome c)
    (if bool_decide (Decision_Outcome c = NotApplicable) then ReasonDefaultDeny else Decision_Reason c)
    (st_matched st) (st_matchedTruncated st) (snapshot_revision s) (st_trace st) (st_traceTruncated st), None)) as Ef.
  { unfold decide_finish. unfold st at 1. rewrite (run_decisions _ _ _ _ _ _ _ _ _ Hr).
    rewrite Combine_ok; [|done|by eapply policy_run_valid]. fold c. by case_bool_decide. }
  eexists t, (S n), n1, (mkDecision _ _ _ _ _ _ _), n', c. split_and!; [done|..]; cycle 1.
  - rewrite Combine_ok by done. by rewrite Ec.
  - reflexivity.
  - reflexivity.
  - cbn [Decision_Trace]. instantiate (1 := st_trace st). unfold st. rewrite record_all_spec by done. simpl.
    etrans; [apply prefix_take|]. unfold full_trace. rewrite Eds.
    destruct (zip_take_prefix (snapshot_policies s)
      (pure_decision f t <$> snapshot_policies s) (length ds)) as [k ->].
    rewrite fmap_app. by apply prefix_app_r.
  - unfold Engine_Decide. erewrite M_bind_Ret by (unfold load_snapshot; by rewrite Hs).
    apply engine_decide_success. split; [done|]. split; [apply ctx_live|].
    exists t, n1, ds. split; [done|]. split; [done|]. apply Ef.
Qed.

Lemma Decide_short_circuit_witness :
  ∃ d n', Engine_Decide (@example_engine plain_runtime allow_snapshot) context_Background
            example_request 0%nat = (Ret (d, None), n') ∧ Decision_Outcome d = Allow.
Proof.
  destruct (@Decide_short_circuit (@example_engine plain_runtime allow_snapshot) allow_snapshot
    (λ p, match Evaluate (entry_evaluator p) context_Background example_request 0%nat with
            | (Ret (d, _), _) => d | _ => zeroDecision end)
    context_Background example_request 0%nat (λ _, eq_refl) (@now_total plain_runtime))
    as (t & n0 & n1 & d & n' & c & _ & E & _).
  - done.
  - by apply Request_Validate_None.
  - done.
  - done.
  - done.
  - intros p [->|[->|[]%not_elem_of_nil]%elem_of_cons]%elem_of_cons; intros ctx ? n; by eexists.
  - by intros p [->|[->|[]%not_elem_of_nil]%elem_of_cons]%elem_of_cons.
  - exists d, n'. split; [done|]. vm_compute in E. by injection E as <- <-.
Defined.

(** What a policy contributes at time [t] when it is asked at position [m]: the
    answer of its evaluator while it is active, and otherwise that it is not. *)
Definition policy_answers (ctx : Context) (request : Request) (t : Time) (p : policyEntry) (m : nat) (d : Decision)
    (m' : nat) : Prop :=
  if activeAt p t
  then Evaluate (entry_evaluator p) ctx request m = (Ret (d, None), m') ∧ outcome_valid (Decision_Outcome d)
  else d = mkDecision NotApplicable ReasonPolicyInactive [] false 0 [] false ∧ m' = m.

Lemma policy_decides_answers ctx request t p m d m' :
  policy_decides ctx request t p m d m' → policy_answers ctx request t p m d m'.
Proof.
  unfold policy_decides, policy_decision, policy_answers. destruct (activeAt p t).
  - unfold evaluatePolicy. intros [E Hv]. destruct (Evaluate _ _ _ _) as [[[d' err]|] k]; by simplify_eq.
  - rewrite M_ret_run. intros [E _]. by simplify_eq.
Qed.

(** The policies are asked one after the other, each after the context was
    found alive; the decisions, and the position after the last. *)
Inductive answers (ctx : Context) (request : Request) (t : Time) : list policyEntry → nat → list Decision → nat → Prop :=
| answers_none ps n : answers ctx request t ps n [] n
| answers_next p ps n d n' ds n'' :
    Err_at ctx n = None → policy_answers ctx request t p (S n) d n' → answers ctx request t ps n' ds n'' →
    answers ctx request t (p :: ps) n (d :: ds) n''.

Lemma policy_run_answers ctx request t alg ps n ds n' :
  policy_run ctx request t alg ps n ds n' → answers ctx request t ps n ds n'.
Proof.
  induction 1; repeat (apply answers_none || (eapply answers_next; [done|by apply policy_decides_answers|])); done.
Qed.

(** C40. The diagnostics of a successful decision: the policies were asked in
    order, and not all of them only if the last answer was decisive; trace and
    matched identifiers are those of the answers (the policy with its outcome
    and reason; the identifiers that an applicable policy reports, or its
    own), cut at the engine's limits, so their sizes never exceed the limits;
    the truncation flags are raised exactly when something was cut (or, for
    the identifiers, when an applicable policy reported a cut itself). *)
Theorem Decide_diagnostics (engine : Engine) (ctx : Context) (request : Request) (s : Snapshot)
    (n : nat) (d : Decision) (n' : nat) :
  0 ≤ MaxTraceSize (engine_limits engine) → 0 ≤ MaxMatchedPolicyIDs (engine_limits engine) →
  engine_decide engine ctx request s n = (Ret (d, None), n') →
  let maxTrace := MaxTraceSize (engine_limits engine) in
  let maxMatched := MaxMatchedPolicyIDs (engine_limits engine) in
  ∃ t n1 ds, evaluation_time engine request (S n) = (Ret t, n1) ∧
    answers ctx request t (snapshot_policies s) n1 ds n' ∧
    (length ds = length (snapshot_policies s) ∨
     ∃ decisive, list.last ds = Some decisive ∧ isDecisive (snapshot_algorithm s) (Decision_Outcome decisive) = true) ∧
    let pds := zip (snapshot_policies s) ds in
    Decision_Trace d = take (Z.to_nat maxTrace) (full_trace pds) ∧
    len (Decision_Trace d) ≤ maxTrace ∧
    (Decision_TraceTruncated d = true ↔ maxTrace < len ds) ∧
    Decision_MatchedPolicyIDs d = take (Z.to_nat maxMatched) (full_matched pds) ∧
    len (Decision_MatchedPolicyIDs d) ≤ maxMatched ∧
    (Decision_MatchedPolicyIDsTruncated d = true ↔
       maxMatched < len (full_matched pds) ∨ some_truncated pds = true).
Proof.
  intros Ht Hm (_ & _ & t & n1 & ds & Et & Hr & Hf)%engine_decide_success maxTrace maxMatched.
  pose proof (policy_run_length _ _ _ _ _ _ _ _ Hr) as Hlen.
  rewrite record_all_spec in Hf by done. unfold decide_finish in Hf. simpl in Hf.
  destruct (Combine _ _) as [c|]; [|done]. exists t, n1, ds. split; [done|].
  split; [by eapply policy_run_answers|]. split.
  { destruct (policy_run_shape _ _ _ _ _ _ _ _ Hr) as [[_ ?]|(init & last & -> & ? & _)]; [by left|right].
    exists last. by rewrite last_snoc. }
  case_match; simplify_eq; simpl; rewrite !len_take, orb_true_iff, !Z.ltb_lt by done;
    split_and!; try done; try lia;
    unfold len, full_trace; by rewrite length_fmap, length_zip_with, Nat.min_r by done.
Qed.

Definition tiny_engine `{GoRuntime} (s : Snapshot) : Engine :=
  mkEngine (Some s) (mkLimits 1 2 1 1) now.

Lemma Decide_diagnostics_witness :
  ∃ d n', engine_decide (@tiny_engine plain_runtime allow_snapshot) context_Background
            example_request allow_snapshot 0%nat = (Ret (d, None), n') ∧
    len (Decision_Trace d) ≤ 1 ∧ Decision_TraceTruncated d = true ∧
    ∃ t n1 ds, answers context_Background example_request t (snapshot_policies allow_snapshot) n1 ds n' ∧
      Decision_Trace d = take 1 (full_trace (zip (snapshot_policies allow_snapshot) ds)).
Proof.
  eexists _, _. split; [reflexivity|].
  destruct (@Decide_diagnostics (@tiny_engine plain_runtime allow_snapshot) context_Background
    example_request allow_snapshot 0%nat _ _ ltac:(done) ltac:(done) eq_refl)
    as (t & n1 & ds & _ & Ha & _ & Et & Hl & _). split; [exact Hl|]. split; [reflexivity|]. by exists t, n1, ds.
Defined.

(** ** Batches *)

(** The positions at which the requests of a batch are decided, in order. *)
Inductive batch_run (decide : Request → M (Decision * option error)) :
    list Request → nat → list (Decision * option error) → nat → Prop :=
| batch_done n : batch_run decide [] n [] n
| batch_next request requests n r n' rs n'' :
    decide request n = (Ret r, n') →
    batch_run decide requests n' rs n'' →
    batch_run decide (request :: requests) n (r :: rs) n''.

(** A way of deciding that never panics and whose results satisfy [P]. *)
Definition decides_with (P : Decision * option error → Prop)
    (decide : Request → M (Decision * option error)) : Prop :=
  ∀ request n, ∃ r n', decide request n = (Ret r, n') ∧ P r.

Lemma batch_loop_run decide P requests n :
  decides_with P decide →
  ∃ rs n', batch_run decide requests n rs n' ∧
    batch_loop decide requests n = (Ret (rs.*1, omap snd rs), n') ∧
    length rs = length requests ∧ Forall P rs.
Proof.
  intros Hdec. revert n. induction requests as [|request requests IH]; intros n.
  { exists [], n. by repeat constructor. }
  destruct (Hdec request n) as ([d err] & n1 & E & HP).
  destruct (IH n1) as (rs & n2 & Hrun & El & Hlen & Hall).
  exists ((d, err) :: rs), n2. split_and!; [by econstructor| |simpl; by rewrite Hlen|by constructor].
  simpl. erewrite M_bind_Ret by done. simpl. erewrite M_bind_Ret by done. by destruct err.
Qed.

(** Joining the collected errors is joining the errors of all results. *)
Lemma errors_Join_collected (rs : list (Decision * option error)) :
  errors_Join (Some <$> omap snd rs) = errors_Join rs.*2.
Proof.
  unfold errors_Join. assert (omap id (Some <$> omap snd rs) = omap id rs.*2) as ->; [|done].
  induction rs as [|[d [e|]] rs IH]; csimpl; [done|by rewrite IH|done].
Qed.

Lemma engine_decides_with engine ctx s `{!ClockTotal (engine_clock engine)} :
  decides_with (λ r, Decision_Revision r.1 = snapshot_revision s ∧ (is_Some r.2 → Decision_Outcome r.1 = Deny))
    (λ request, engine_decide engine ctx request s).
Proof.
  intros request n. destruct (engine_decide_total engine ctx request s n) as ([d err] & n1 & E & Hr).
  exists (d, err), n1. split; [done|]. destruct Hr as [(? & ? & ?)|[? ?]]; simplify_eq; simpl; [done|].
  split; [|by intros []]. by apply engine_decide_outcome in E as (? & ? & ? & ? & ? & ? & ? & _).
Qed.

(** Batches below and above the limit. *)
Lemma DecideBatch_cases (engine : Engine) (s : Snapshot) (ctx : Context) (requests : list Request)
    (n : nat) `{!ClockTotal (engine_clock engine)} :
  engine_snapshot engine = Some s →
  (MaxBatchSize (engine_limits engine) < len requests →
     Engine_DecideBatch engine ctx requests n = (Ret ([], Some ErrBatchLimitExceeded), n)) ∧
  (len requests ≤ MaxBatchSize (engine_limits engine) →
     ∃ rs n', batch_run (λ request, engine_decide engine ctx request s) requests n rs n' ∧
       Engine_DecideBatch engine ctx requests n = (Ret (rs.*1, errors_Join rs.*2), n') ∧
       length rs = length requests ∧
       Forall (λ r, Decision_Revision r.1 = snapshot_revision s ∧
         (is_Some r.2 → Decision_Outcome r.1 = Deny)) rs).
Proof.
  intros Hs. unfold Engine_DecideBatch. split; intros Hl.
  - by rewrite (proj2 (Z.ltb_lt _ _) Hl).
  - rewrite (proj2 (Z.ltb_ge _ _) Hl).
    erewrite M_bind_Ret by (unfold load_snapshot; by rewrite Hs).
    destruct (batch_loop_run _ _ requests n (engine_decides_with engine ctx s))
      as (rs & n' & Hrun & El & Hlen & Hall).
    exists rs, n'. split_and!; [done| |done|done].
    erewrite M_bind_Ret by done. simpl. by rewrite M_ret_run, errors_Join_collected.
Qed.

(** [DecideBatch] rejects a batch above the limit before evaluating
    anything; otherwise it returns one decision per request, in order, each
    the result of deciding that request against one captured snapshot, all
    at that snapshot's revision, with the errors of the failed (and denied)
    requests joined. *)
Theorem DecideBatch_spec (engine : Engine) (s : Snapshot) (ctx : Context) (requests : list Request)
    (n : nat) `{!ClockTotal (engine_clock engine)} :
  engine_snapshot engine = Some s →
  (MaxBatchSize (engine_limits engine) < len requests →
     Engine_DecideBatch engine ctx requests n = (Ret ([], Some ErrBatchLimitExceeded), n)) ∧
  (len requests ≤ MaxBatchSize (engine_limits engine) →
     ∃ rs n', batch_run (λ request, engine_decide engine ctx request s) requests n rs n' ∧
       Engine_DecideBatch engine ctx requests n = (Ret (rs.*1, errors_Join rs.*2), n') ∧
       length rs = length requests ∧
       Forall (λ r, Decision_Revision r.1 = snapshot_revision s ∧
         (is_Some r.2 → Decision_Outcome r.1 = Deny)) rs).
Proof. apply DecideBatch_cases, _. Qed.

Lemma DecideBatch_spec_witness :
  ∃ rs n', Engine_DecideBatch (@tiny_engine plain_runtime allow_snapshot) (context_canceled_from 0)
             [example_request] 0%nat = (Ret (rs.*1, errors_Join rs.*2), n') ∧
    length rs = 1%nat ∧
    Engine_DecideBatch (@tiny_engine plain_runtime allow_snapshot) context_Background
      [example_request; example_request] 0%nat = (Ret ([], Some ErrBatchLimitExceeded), 0%nat).
Proof.
  destruct (@DecideBatch_spec (@tiny_engine plain_runtime allow_snapshot) allow_snapshot
    (context_canceled_from 0) [example_request] 0%nat (@now_total plain_runtime) eq_refl) as [_ H].
  destruct (H ltac:(done)) as (rs & n' & _ & E & Hlen & _).
  exists rs, n'. split; [exact E|]. split; [exact Hlen|].
  by apply (@DecideBatch_spec (@tiny_engine plain_runtime allow_snapshot) allow_snapshot
      context_Background [example_request; example_request] 0%nat (@now_total plain_runtime) eq_refl).
Defined.

(** ** Construction and evaluator contract *)

(** The options the package provides. *)
Inductive library_option : EngineOption → Prop :=
| option_limits limits : library_option (WithLimits limits)
| option_clock clock : library_option (WithClock clock).

Definition limits_positive (l : Limits) : Prop :=
  0 < MaxBatchSize l ∧ 0 < MaxPolicies l ∧ 0 < MaxTraceSize l ∧ 0 < MaxMatchedPolicyIDs l.

Lemma positive_or_pos value field : 0 < field → 0 < positive_or value field.
Proof. unfold positive_or. destruct (Z.ltb_spec 0 value); lia. Qed.

Lemma library_options_positive options engine :
  Forall library_option options → limits_positive (engine_limits engine) →
  limits_positive (engine_limits (foldl (λ engine option, option engine) engine options)).
Proof.
  intros Hall. revert engine. induction Hall as [|o options Ho _ IH]; intros engine He; [done|].
  simpl. apply IH. destruct Ho as [limits|[clock|]]; [|done..].
  destruct He as (? & ? & ? & ?). unfold limits_positive; simpl.
  split_and!; by apply positive_or_pos.
Qed.

(** With the options of the package, [NewEngine] yields an engine on the
    given snapshot whose limits are all positive (zero and negative settings
    keep the defaults) and whose policy count respects its limit, or reports
    the nil snapshot or the exceeded limit. *)
Theorem NewEngine_spec `{GoRuntime} (snapshot : option Snapshot) (options : list EngineOption) :
  Forall library_option options →
  match NewEngine snapshot options with
  | Ok engine => ∃ s, snapshot = Some s ∧ engine_snapshot engine = Some s ∧
      limits_positive (engine_limits engine) ∧
      len (snapshot_policies s) ≤ MaxPolicies (engine_limits engine)
  | Err e => snapshot = None ∧ e = ErrNilSnapshot ∨
      ∃ s, snapshot = Some s ∧ 0 < len (snapshot_policies s) ∧ e = ErrPolicyLimitExceeded
  end.
Proof.
  intros Hopts. unfold NewEngine. destruct snapshot as [s|]; [|by left].
  pose proof (library_options_positive options (mkEngine None default_limits now) Hopts) as Hpos.
  destruct (Z.ltb_spec (MaxPolicies (engine_limits
    (foldl (λ engine option, option engine) (mkEngine None default_limits now) options)))
    (len (snapshot_policies s))) as [Hlt|Hle].
  - right. exists s. split_and!; [done| |done]. destruct Hpos as (_ & ? & _); [done|]. lia.
  - exists s. split_and!; [done|done|by apply Hpos|done].
Qed.

Lemma NewEngine_spec_witness :
  ∃ engine, @NewEngine plain_runtime (Some allow_snapshot)
              [WithLimits (mkLimits (-3) 2 0 5); WithClock None] = Ok engine ∧
    limits_positive (engine_limits engine) ∧ MaxBatchSize (engine_limits engine) = 1000.
Proof.
  pose proof (@NewEngine_spec plain_runtime (Some allow_snapshot)
    [WithLimits (mkLimits (-3) 2 0 5); WithClock None] ltac:(repeat constructor)) as H.
  eexists. split; [reflexivity|]. split; [|reflexivity].
  destruct H as (s & _ & _ & Hp & _). exact Hp.
Defined.

(** The error of a failed decision, when every evaluator is lawful. *)
Definition lawful_failure (ctx : Context) (request : Request) (s : Snapshot) (err : error) : Prop :=
  Request_Validate request = Some err ∨ (∃ m, Err_at ctx m = Some err) ∨
  (∃ p m d e m', p ∈ snapshot_policies s ∧
     Evaluate (entry_evaluator p) ctx request m = (Ret (d, Some e), m') ∧
     err = PolicyEvaluationErr (entry_id p) e).

Lemma decide_loop_lawful limits ctx request s t ps st n d err n' :
  (∀ p, p ∈ ps → p ∈ snapshot_policies s) →
  (∀ p, p ∈ ps → EvaluatorLaws (entry_evaluator p)) →
  decide_loop limits ctx request s t ps st n = (Ret (inl (d, Some err)), n') →
  lawful_failure ctx request s err.
Proof.
  revert st n. induction ps as [|p ps IH]; intros st n Hin Hlaws; simpl; [done|].
  rewrite ctx_Err_bind. destruct (Err_at ctx n) as [e|] eqn:Ee.
  { rewrite M_ret_run. intros; simplify_eq. right; left; eauto. }
  intros ([d1 err1] & n1 & Ep & H)%M_bind_inv.
  assert (outcome_valid (Decision_Outcome d1) ∧
    (err1 = None ∨ Evaluate (entry_evaluator p) ctx request (S n) = (Ret (d1, err1), n1))) as [Hv He].
  { unfold policy_decision, evaluatePolicy in Ep. destruct (activeAt p t).
    - destruct (@evaluator_laws _ (Hlaws p ltac:(by left)) ctx request (S n)) as (d2 & e2 & n2 & E & Hv & _).
      rewrite E in Ep. simplify_eq. auto.
    - rewrite M_ret_run in Ep. simplify_eq. by split; [|left]. }
  destruct err1 as [e|].
  - rewrite M_ret_run in H. simplify_eq. destruct He as [|He]; [done|].
    right; right. exists p, (S n), d1, e, n'. split_and!; [apply Hin; by left|done|done].
  - rewrite (proj2 (outcome_above_Deny_spec _) Hv) in H.
    destruct (isDecisive _ _); [by rewrite M_ret_run in H; simplify_eq|].
    eapply IH; [| |done]; intros; [apply Hin|apply Hlaws]; by right.
Qed.

(** When every evaluator keeps the evaluator contract (no panic, a
    defined outcome) and the algorithm is supported, the only failures of
    [Decide] are an invalid request, the context's own error, and an error
    returned by an evaluator, wrapped with its policy's identifier. *)
Theorem Decide_failures (engine : Engine) (s : Snapshot) (ctx : Context) (request : Request)
    (n : nat) (d : Decision) (err : error) (n' : nat) `{!ClockTotal (engine_clock engine)} :
  engine_snapshot engine = Some s → algorithm_valid (snapshot_algorithm s) →
  (∀ p, p ∈ snapshot_policies s → EvaluatorLaws (entry_evaluator p)) →
  Engine_Decide engine ctx request n = (Ret (d, Some err), n') →
  lawful_failure ctx request s err.
Proof.
  intros Hs Halg Hlaws. unfold Engine_Decide.
  erewrite M_bind_Ret by (unfold load_snapshot; by rewrite Hs). unfold engine_decide.
  destruct (Request_Validate request) as [e|] eqn:Ev.
  { rewrite M_ret_run. intros; simplify_eq. by left. }
  rewrite ctx_Err_bind. destruct (Err_at ctx n) as [e|] eqn:Ee.
  { rewrite M_ret_run. intros; simplify_eq. right; left; eauto. }
  intros (t & n1 & Et & H)%M_bind_inv. apply M_bind_inv in H as (r & n2 & El & H).
  rewrite M_ret_run in H. destruct r as [early|st]; simplify_eq.
  - by eapply decide_loop_lawful.
  - exfalso. apply decide_loop_run in El as (ds & Hr & ->).
    unfold decide_finish in *. rewrite (run_decisions _ _ _ _ _ _ _ _ _ Hr) in *.
    rewrite Combine_ok in *; [|done|by eapply policy_run_valid]. by case_match; simplify_eq.
Qed.

#[global] Instance constEvaluator_laws d `{!TCEq (outcome_above_Deny (Decision_Outcome d)) false} :
  EvaluatorLaws (constEvaluator d).
Proof.
  intros ctx request n. exists d, None, n. split_and!; [done| |by intros []].
  apply outcome_above_Deny_spec. by apply TCEq_eq.
Qed.

Lemma Decide_failures_witness :
  lawful_failure (context_canceled_from 1) example_request allow_snapshot context_Canceled.
Proof.
  refine (@Decide_failures (@example_engine plain_runtime allow_snapshot) allow_snapshot
    (context_canceled_from 1) example_request 0%nat _ _ _ (@now_total plain_runtime) eq_refl I _ eq_refl).
  intros p [->|[->|[]%not_elem_of_nil]%elem_of_cons]%elem_of_cons;
    apply constEvaluator_laws; constructor.
Defined.
