(* ===== verification/Publication.v ===== *)
(** * Concurrent publication of snapshots (engine.go, ReplaceSnapshot)

    Any number of goroutines call [ReplaceSnapshot] on one engine while
    others read the snapshot pointer. The statements of a call are separate
    steps, interleaved in any order: the admission checks, [replaceMu.Lock],
    the load, the revision checks, the store, the deferred [Unlock]. The log
    records each call at the step that decides its result. *)

From S2P Require Import Prelude Request Decision Snapshot Engine.

#[local] Open Scope Z_scope.

(** ** Steps *)

(** The program counter of one call. *)
Inductive writer_pc :=
| WStart
| WLock (next : Snapshot)
| WLoad (next : Snapshot)
| WCheck (next current : Snapshot)
| WStore (next : Snapshot)
| WUnlock (err : option error)
| WReturned (err : option error).

Record writer := mkWriter {
  writer_next : option Snapshot;
  writer_expected : Revision;
  writer_at : writer_pc
}.

Definition goto (w : writer) (pc : writer_pc) : writer :=
  mkWriter (writer_next w) (writer_expected w) pc.

Record log_entry := mkLogEntry {
  log_writer : nat;
  log_next : option Snapshot;
  log_expected : Revision;
  log_result : option error
}.

Definition logged (i : nat) (w : writer) (r : option error) : log_entry :=
  mkLogEntry i (writer_next w) (writer_expected w) r.

Record config := mkConfig {
  cfg_engine : Engine;
  cfg_mu : option nat;
  cfg_writers : list writer;
  cfg_log : list log_entry
}.

Inductive step : config → config → Prop :=
| step_admit i w next engine mu ws log :
    ws !! i = Some w → writer_at w = WStart →
    replace_admit (engine_limits engine) (writer_next w) = inl next →
    step (mkConfig engine mu ws log) (mkConfig engine mu (<[i := goto w (WLock next)]> ws) log)
| step_refuse i w err engine mu ws log :
    ws !! i = Some w → writer_at w = WStart →
    replace_admit (engine_limits engine) (writer_next w) = inr err →
    step (mkConfig engine mu ws log)
         (mkConfig engine mu (<[i := goto w (WReturned (Some err))]> ws) (log ++ [logged i w (Some err)]))
| step_lock i w next engine ws log :
    ws !! i = Some w → writer_at w = WLock next →
    step (mkConfig engine None ws log) (mkConfig engine (Some i) (<[i := goto w (WLoad next)]> ws) log)
| step_load i w next current engine mu ws log :
    ws !! i = Some w → writer_at w = WLoad next → engine_snapshot engine = Some current →
    step (mkConfig engine mu ws log) (mkConfig engine mu (<[i := goto w (WCheck next current)]> ws) log)
| step_conflict i w next current err engine mu ws log :
    ws !! i = Some w → writer_at w = WCheck next current →
    replace_check current next (writer_expected w) = Some err →
    step (mkConfig engine mu ws log)
         (mkConfig engine mu (<[i := goto w (WUnlock (Some err))]> ws) (log ++ [logged i w (Some err)]))
| step_accept i w next current engine mu ws log :
    ws !! i = Some w → writer_at w = WCheck next current →
    replace_check current next (writer_expected w) = None →
    step (mkConfig engine mu ws log) (mkConfig engine mu (<[i := goto w (WStore next)]> ws) log)
| step_store i w next engine mu ws log :
    ws !! i = Some w → writer_at w = WStore next →
    step (mkConfig engine mu ws log)
         (mkConfig (store_snapshot engine next) mu (<[i := goto w (WUnlock None)]> ws)
            (log ++ [logged i w None]))
| step_unlock i w err engine mu ws log :
    ws !! i = Some w → writer_at w = WUnlock err →
    step (mkConfig engine mu ws log) (mkConfig engine None (<[i := goto w (WReturned err)]> ws) log).

(** Calls that have not started, on an engine with a snapshot. *)
Definition start (engine : Engine) (calls : list (option Snapshot * Revision)) : config :=
  mkConfig engine None ((λ '(next, expected), mkWriter next expected WStart) <$> calls) [].

(** ** Specification: the same calls, one after the other *)

Inductive sequential : Engine → list log_entry → Engine → Prop :=
| seq_nil engine : sequential engine [] engine
| seq_snoc engine log engine' i next expected r engine'' :
    sequential engine log engine' →
    Engine_ReplaceSnapshot engine' next expected = Ret (r, engine'') →
    sequential engine (log ++ [mkLogEntry i next expected r]) engine''.

Definition current_revision (engine : Engine) : Revision :=
  from_option snapshot_revision 0 (engine_snapshot engine).

(** ** Lemmas on the sequential operation *)

Lemma ReplaceSnapshot_limits engine next expected r engine' :
  Engine_ReplaceSnapshot engine next expected = Ret (r, engine') →
  engine_limits engine' = engine_limits engine ∧
  (is_Some (engine_snapshot engine) → is_Some (engine_snapshot engine')).
Proof.
  unfold Engine_ReplaceSnapshot. destruct (replace_admit _ _); [|by intros; simplify_eq].
  destruct (engine_snapshot engine) as [current|] eqn:E; [|done].
  destruct (replace_check _ _ _); intros; simplify_eq; simpl; rewrite ?E; by split.
Qed.

(** A replacement succeeds exactly at the expected revision with a newer one. *)
Lemma ReplaceSnapshot_cas engine next expected r engine' :
  is_Some (engine_snapshot engine) →
  Engine_ReplaceSnapshot engine next expected = Ret (r, engine') →
  match r with
  | None => ∃ s, next = Some s ∧ engine' = store_snapshot engine s ∧
      current_revision engine = expected ∧ expected < current_revision engine'
  | Some _ => engine' = engine
  end.
Proof.
  intros [current Hs]. unfold Engine_ReplaceSnapshot, replace_admit, current_revision.
  destruct next as [next|]; [|by intros; simplify_eq].
  destruct (_ <? _); [by intros; simplify_eq|]. rewrite Hs. unfold replace_check.
  destruct (Z.eqb_spec (snapshot_revision current) expected) as [E|E]; simpl; [|by intros; simplify_eq].
  destruct (Z.leb_spec (snapshot_revision next) (snapshot_revision current));
    intros; simplify_eq; [done|]. exists next. by split_and!.
Qed.

Lemma sequential_facts engine log engine' :
  is_Some (engine_snapshot engine) → sequential engine log engine' →
  is_Some (engine_snapshot engine') ∧ engine_limits engine' = engine_limits engine ∧
  current_revision engine ≤ current_revision engine' ∧
  (∀ x, x ∈ log → log_result x = None → log_expected x < current_revision engine').
Proof.
  intros Hs. induction 1 as [|engine log e1 i next expected r e2 _ IH Hrep].
  { split_and!; [done..|lia|]. by intros x []%not_elem_of_nil. }
  destruct IH as (Hs1 & Hl & Hle & Hlog); [done|].
  destruct (ReplaceSnapshot_limits _ _ _ _ _ Hrep) as [Hl2 Hs2].
  pose proof (ReplaceSnapshot_cas _ _ _ _ _ Hs1 Hrep) as Hcas.
  destruct r as [err|].
  - subst e2. split_and!; [done..|]. intros x [Hx| ->%list_elem_of_singleton]%elem_of_app; [by apply Hlog|done].
  - destruct Hcas as (s & _ & -> & Hexp & Hlt). split_and!; [by apply Hs2|congruence|lia|].
    intros x [Hx| ->%list_elem_of_singleton]%elem_of_app Hr; [|done].
    specialize (Hlog x Hx Hr). lia.
Qed.

(** Two successful calls of a sequential history never name the same
    expected revision. *)
Lemma sequential_unique engine log engine' i j x y :
  is_Some (engine_snapshot engine) → sequential engine log engine' →
  log !! i = Some x → log !! j = Some y → log_result x = None → log_result y = None →
  log_expected x = log_expected y → i = j.
Proof.
  intros Hs Hseq. revert i j x y.
  induction Hseq as [|engine log e1 k next expected r e2 Hseq IH Hrep]; [done|].
  intros i j x y Hi Hj Hx Hy Hexp.
  destruct (sequential_facts _ _ _ Hs Hseq) as (Hs1 & _ & _ & Hlog).
  pose proof (ReplaceSnapshot_cas _ _ _ _ _ Hs1 Hrep) as Hcas.
  apply lookup_app_Some in Hi as [Hi|[Hli Hi]]; apply lookup_app_Some in Hj as [Hj|[Hlj Hj]].
  - by eapply IH.
  - apply list_lookup_singleton_Some in Hj as [Ej <-]; simpl in *; subst r.
    destruct Hcas as (s & _ & _ & ? & _).
    pose proof (Hlog x ltac:(by eapply list_elem_of_lookup_2) Hx). lia.
  - apply list_lookup_singleton_Some in Hi as [Ei <-]; simpl in *; subst r.
    destruct Hcas as (s & _ & _ & ? & _).
    pose proof (Hlog y ltac:(by eapply list_elem_of_lookup_2) Hy). lia.
  - apply list_lookup_singleton_Some in Hi as [? _], Hj as [? _]. lia.
Qed.

(** ** The invariant of the interleaved calls *)

(** The statements between [Lock] and [Unlock]. *)
Definition critical (pc : writer_pc) : bool :=
  match pc with WLoad _ | WCheck _ _ | WStore _ | WUnlock _ => true | _ => false end.

Definition admitted (engine : Engine) (w : writer) (next : Snapshot) : Prop :=
  replace_admit (engine_limits engine) (writer_next w) = inl next.

(** What a call at each statement knows. *)
Definition pc_ok (engine : Engine) (log : list log_entry) (i : nat) (w : writer) : Prop :=
  match writer_at w with
  | WStart => (i ∉ log_writer <$> log)
  | WLock next | WLoad next => (i ∉ log_writer <$> log) ∧ admitted engine w next
  | WCheck next current =>
      (i ∉ log_writer <$> log) ∧ admitted engine w next ∧ engine_snapshot engine = Some current
  | WStore next =>
      (i ∉ log_writer <$> log) ∧ admitted engine w next ∧
      ∃ current, engine_snapshot engine = Some current ∧
                 replace_check current next (writer_expected w) = None
  | WUnlock r | WReturned r => logged i w r ∈ log
  end.

Definition call_of (w : writer) : option Snapshot * Revision := (writer_next w, writer_expected w).

Record publication_inv (engine0 : Engine) (calls : list (option Snapshot * Revision)) (c : config) : Prop := {
  inv_calls : call_of <$> cfg_writers c = calls;
  inv_seq : sequential engine0 (cfg_log c) (cfg_engine c);
  inv_once : NoDup (log_writer <$> cfg_log c);
  inv_mutex : ∀ i w, cfg_writers c !! i = Some w → critical (writer_at w) = true → cfg_mu c = Some i;
  inv_holder : ∀ i, cfg_mu c = Some i → ∃ w, cfg_writers c !! i = Some w ∧ critical (writer_at w) = true;
  inv_pc : ∀ i w, cfg_writers c !! i = Some w → pc_ok (cfg_engine c) (cfg_log c) i w
}.

(** A step of another call does not invalidate what a call knows. *)
Lemma pc_ok_frame engine engine' log i r w w' j :
  i ≠ j → engine_limits engine' = engine_limits engine →
  (critical (writer_at w) = true → engine_snapshot engine' = engine_snapshot engine) →
  pc_ok engine log j w →
  pc_ok engine' log j w ∧ pc_ok engine' (log ++ [logged i w' r]) j w.
Proof.
  intros Hne Hl Hs. unfold pc_ok, admitted. rewrite Hl, fmap_app. simpl.
  assert (∀ l, j ∉ l → j ∉ l ++ [i]) by set_solver.
  destruct (writer_at w); simpl in Hs; rewrite ?Hs by done; set_solver.
Qed.

Lemma inv_update engine0 calls engine mu ws log i w pc' engine' mu' log' :
  publication_inv engine0 calls (mkConfig engine mu ws log) →
  ws !! i = Some w →
  engine_limits engine' = engine_limits engine →
  engine_snapshot engine' = engine_snapshot engine ∨ critical (writer_at w) = true →
  (if critical pc' then mu' = Some i
   else mu' = None ∧ critical (writer_at w) = true ∨ mu' = mu ∧ critical (writer_at w) = false) →
  (critical (writer_at w) = true ∨ mu' = mu ∨ mu = None) →
  (log' = log ∨ (i ∉ log_writer <$> log) ∧ ∃ r, log' = log ++ [logged i w r]) →
  sequential engine0 log' engine' →
  pc_ok engine' log' i (goto w pc') →
  publication_inv engine0 calls (mkConfig engine' mu' (<[i := goto w pc']> ws) log').
Proof.
  intros [Hcalls Hseq Honce Hmutex Hholder Hpc] Hi Hl Hsnap Hmu Hmu2 Hlog Hseq' Hok. simpl in *.
  assert (∀ j v, i ≠ j → ws !! j = Some v → critical (writer_at v) = true →
    critical (writer_at w) = false ∧ mu = Some j) as Hother.
  { intros j v Hne Hj Hc. pose proof (Hmutex _ _ Hj Hc). split; [|done].
    destruct (critical (writer_at w)) eqn:E; [|done]. pose proof (Hmutex _ _ Hi E). congruence. }
  assert (∀ j w', <[i:=goto w pc']> ws !! j = Some w' →
    j = i ∧ w' = goto w pc' ∨ i ≠ j ∧ ws !! j = Some w') as Hlk.
  { intros j w'. destruct (decide (i = j)) as [<-|Hne].
    - rewrite list_lookup_insert_eq by (by eapply lookup_lt_Some). intros; simplify_eq. by left.
    - rewrite list_lookup_insert_ne by done. by right. }
  split; simpl; [| done | | | |].
  - rewrite list_fmap_insert, list_insert_id; [done|]. by rewrite list_lookup_fmap, Hi.
  - destruct Hlog as [->|[Hnew [r ->]]]; [done|]. rewrite fmap_app. simpl.
    apply NoDup_app. split_and!; [done| |apply NoDup_singleton]. set_solver.
  - intros j w' Hj Hc. destruct (Hlk _ _ Hj) as [[-> ->]|[Hne Hj']].
    + simpl in Hc. by rewrite Hc in Hmu.
    + destruct (Hother _ _ Hne Hj' Hc) as [Hw ->].
      destruct Hmu2 as [?|[?|?]]; [congruence|done|done].
  - intros j Hj. destruct (critical pc') eqn:Ec.
    + subst mu'. simplify_eq. exists (goto w pc'). split; [|done].
      apply list_lookup_insert_eq. by eapply lookup_lt_Some.
    + destruct Hmu as [[-> ?]|[-> Hw]]; [done|]. destruct (Hholder _ Hj) as (v & Hv & Hcv).
      exists v. split; [|done]. rewrite list_lookup_insert_ne; [done|]. intros <-. congruence.
  - intros j w' Hj. destruct (Hlk _ _ Hj) as [[-> ->]|[Hne Hj']]; [done|].
    assert (critical (writer_at w') = true → engine_snapshot engine' = engine_snapshot engine) as Hsn.
    { intros Hc. destruct (Hother _ _ Hne Hj' Hc). destruct Hsnap; [done|congruence]. }
    destruct Hlog as [->|[_ [r ->]]];
      [eapply (pc_ok_frame engine engine' log i None w' w j)
      |eapply (pc_ok_frame engine engine' log i r w' w j)]; eauto.
Qed.

Lemma sequential_call engine0 log engine i w r engine' :
  sequential engine0 log engine →
  Engine_ReplaceSnapshot engine (writer_next w) (writer_expected w) = Ret (r, engine') →
  sequential engine0 (log ++ [logged i w r]) engine'.
Proof. intros. by eapply seq_snoc. Qed.

Lemma elem_of_snoc {A} (l : list A) x : x ∈ l ++ [x].
Proof. apply elem_of_app. right. by left. Qed.

Lemma publication_inv_step engine0 calls c c' :
  publication_inv engine0 calls c → step c c' → publication_inv engine0 calls c'.
Proof.
  intros Hinv Hstep. pose proof (inv_pc _ _ _ Hinv) as Hpc. pose proof (inv_seq _ _ _ Hinv) as Hseq.
  pose proof (inv_mutex _ _ _ Hinv) as Hmu.
  destruct Hstep as
    [i w next engine mu ws log Hi Hat Had|i w err engine mu ws log Hi Hat Had
    |i w next engine ws log Hi Hat|i w next current engine mu ws log Hi Hat Hs
    |i w next current err engine mu ws log Hi Hat Hck|i w next current engine mu ws log Hi Hat Hck
    |i w next engine mu ws log Hi Hat|i w err engine mu ws log Hi Hat];
    simpl in *; specialize (Hpc i w Hi); specialize (Hmu i w Hi);
    unfold pc_ok in Hpc; rewrite Hat in Hpc, Hmu; simpl in Hmu;
    eapply inv_update; try done; rewrite ?Hat; simpl; auto.
  - right. split; [done|]. by eexists.
  - apply sequential_call with (engine := engine); [done|].
    unfold Engine_ReplaceSnapshot. by rewrite Had.
  - unfold pc_ok. simpl. apply elem_of_snoc.
  - by destruct Hpc.
  - right. split; [by destruct Hpc|]. by eexists.
  - destruct Hpc as (_ & Had & Hs). apply sequential_call with (engine := engine); [done|].
    unfold Engine_ReplaceSnapshot. by rewrite Had, Hs, Hck.
  - unfold pc_ok. simpl. apply elem_of_snoc.
  - destruct Hpc as (? & ? & ?). unfold pc_ok. simpl. eauto.
  - right. split; [by destruct Hpc|]. by eexists.
  - destruct Hpc as (_ & Had & current & Hs & Hck). apply sequential_call with (engine := engine); [done|].
    unfold Engine_ReplaceSnapshot. by rewrite Had, Hs, Hck.
  - unfold pc_ok. simpl. apply elem_of_snoc.
Qed.

Lemma publication_inv_start engine calls : publication_inv engine calls (start engine calls).
Proof.
  assert (∀ i w, cfg_writers (start engine calls) !! i = Some w → writer_at w = WStart) as Hat.
  { intros i w. simpl. rewrite list_lookup_fmap.
    destruct (calls !! i) as [[next expected]|]; simpl; intros; by simplify_eq. }
  split; simpl; [|constructor|constructor| |done|].
  - rewrite <- list_fmap_compose. etrans; [|apply list_fmap_id].
    apply list_fmap_ext. by intros i [next expected].
  - intros i w Hi. by rewrite (Hat i w Hi).
  - intros i w Hi. unfold pc_ok. rewrite (Hat i w Hi). simpl. set_solver.
Qed.

Lemma publication_inv_reachable engine calls c :
  rtc step (start engine calls) c → publication_inv engine calls c.
Proof.
  intros Hr. pose proof (publication_inv_start engine calls) as Hinv. revert Hinv.
  induction Hr as [|c0 c1 c2 Hstep _ IH]; intros Hinv; [done|].
  apply IH. by eapply publication_inv_step.
Qed.

(** ** Theorems *)

(** C5. Linearizability of [ReplaceSnapshot]: in every interleaving of
    concurrent calls the engine's state is the one left by calling
    [ReplaceSnapshot] sequentially in the order of the log, every call
    appears there at most once, and a call that has returned appears there
    with the result it returned. *)
Theorem ReplaceSnapshot_linearizable (engine : Engine) (calls : list (option Snapshot * Revision))
    (c : config) :
  rtc step (start engine calls) c →
  sequential engine (cfg_log c) (cfg_engine c) ∧ NoDup (log_writer <$> cfg_log c) ∧
  ∀ i w r, cfg_writers c !! i = Some w → writer_at w = WReturned r →
    call_of w ∈ calls ∧ mkLogEntry i (writer_next w) (writer_expected w) r ∈ cfg_log c.
Proof.
  intros Hr%publication_inv_reachable. destruct Hr as [Hcalls Hseq Honce _ _ Hpc].
  split_and!; [done..|]. intros i w r Hi Hat. split.
  - rewrite <- Hcalls. apply list_elem_of_fmap_2. by eapply list_elem_of_lookup_2.
  - specialize (Hpc i w Hi). unfold pc_ok in Hpc. by rewrite Hat in Hpc.
Qed.

(** The compare-and-swap admits one winner per revision and never goes
    back: two different calls that both succeeded had different expected
    revisions, every expected revision of a success is below the current
    one, and the engine's revision never decreases along an execution. *)
Theorem ReplaceSnapshot_one_winner (engine : Engine) (calls : list (option Snapshot * Revision))
    (c c' : config) :
  is_Some (engine_snapshot engine) → rtc step (start engine calls) c → rtc step c c' →
  current_revision (cfg_engine c) ≤ current_revision (cfg_engine c') ∧
  ∀ i j w v, cfg_writers c !! i = Some w → cfg_writers c !! j = Some v →
    writer_at w = WReturned None → writer_at v = WReturned None →
    writer_expected w < current_revision (cfg_engine c) ∧
    (writer_expected w = writer_expected v → i = j).
Proof.
  intros Hs Hr Hr'. pose proof (publication_inv_reachable _ _ _ Hr) as [_ Hseq _ _ _ Hpc]. split.
  - clear Hpc Hseq. assert (rtc step (start engine calls) c) as Hreach by done.
    revert Hreach. clear Hr. induction Hr' as [|c c1 c2 Hstep _ IH]; intros Hreach; [done|].
    assert (rtc step (start engine calls) c1) as Hreach1 by (by eapply rtc_r).
    etrans; [|by apply IH].
    pose proof (publication_inv_reachable _ _ _ Hreach) as [_ _ _ _ _ Hpc].
    destruct Hstep as [| | | | | |i w next e mu ws log Hi Hat|]; simpl; try done.
    specialize (Hpc i w Hi). unfold pc_ok in Hpc. rewrite Hat in Hpc. simpl in Hpc.
    destruct Hpc as (_ & _ & current & Hcur & Hck). unfold current_revision. rewrite Hcur. simpl.
    unfold replace_check in Hck. destruct (negb _); [done|].
    destruct (Z.leb_spec (snapshot_revision next) (snapshot_revision current)); [done|lia].
  - intros i j w v Hi Hj Hw Hv.
    pose proof (Hpc i w Hi) as Hpw. pose proof (Hpc j v Hj) as Hpv.
    unfold pc_ok in Hpw, Hpv. rewrite Hw in Hpw. rewrite Hv in Hpv.
    destruct (sequential_facts _ _ _ Hs Hseq) as (_ & _ & _ & Hlog). split; [by apply (Hlog _ Hpw)|].
    intros Hexp. apply list_elem_of_lookup in Hpw as [x Hx], Hpv as [y Hy].
    assert (x = y) as -> by (by eapply sequential_unique).
    rewrite Hx in Hy. unfold logged in Hy. by simplify_eq.
Qed.

(** ** Progress *)

(** The step of call [i], when it can move. *)
Definition exec (i : nat) (c : config) : option config :=
  let '(mkConfig engine mu ws log) := c in
  w ← ws !! i;
  match writer_at w with
  | WStart =>
      match replace_admit (engine_limits engine) (writer_next w) with
      | inl next => Some (mkConfig engine mu (<[i := goto w (WLock next)]> ws) log)
      | inr err => Some (mkConfig engine mu (<[i := goto w (WReturned (Some err))]> ws)
                           (log ++ [logged i w (Some err)]))
      end
  | WLock next =>
      match mu with
      | None => Some (mkConfig engine (Some i) (<[i := goto w (WLoad next)]> ws) log)
      | Some _ => None
      end
  | WLoad next =>
      current ← engine_snapshot engine;
      Some (mkConfig engine mu (<[i := goto w (WCheck next current)]> ws) log)
  | WCheck next current =>
      match replace_check current next (writer_expected w) with
      | Some err => Some (mkConfig engine mu (<[i := goto w (WUnlock (Some err))]> ws)
                            (log ++ [logged i w (Some err)]))
      | None => Some (mkConfig engine mu (<[i := goto w (WStore next)]> ws) log)
      end
  | WStore next =>
      Some (mkConfig (store_snapshot engine next) mu (<[i := goto w (WUnlock None)]> ws)
              (log ++ [logged i w None]))
  | WUnlock err => Some (mkConfig engine None (<[i := goto w (WReturned err)]> ws) log)
  | WReturned _ => None
  end.

Lemma exec_step i c c' : exec i c = Some c' → step c c'.
Proof.
  destruct c as [engine mu ws log]. simpl. intros (w & Hi & H)%bind_Some.
  destruct (writer_at w) eqn:Hat.
  - destruct (replace_admit _ _) eqn:Had; simplify_eq; [by eapply step_admit|by eapply step_refuse].
  - destruct mu; simplify_eq. by eapply step_lock.
  - apply bind_Some in H as (current & ? & ?). simplify_eq. by eapply step_load.
  - destruct (replace_check _ _ _) eqn:Hck; simplify_eq; [by eapply step_conflict|by eapply step_accept].
  - simplify_eq. by eapply step_store.
  - simplify_eq. by eapply step_unlock.
  - done.
Qed.

(** The run of a schedule. *)
Definition schedule (order : list nat) (c : config) : option config :=
  foldl (λ oc i, oc ≫= exec i) (Some c) order.

Lemma schedule_rtc order c c' : schedule order c = Some c' → rtc step c c'.
Proof.
  unfold schedule. revert c'. induction order as [|i order IH] using rev_ind; intros c'; simpl.
  { intros; simplify_eq. apply rtc_refl. }
  rewrite foldl_app. simpl. intros (c1 & H1 & H2)%bind_Some.
  eapply rtc_r; [by apply IH|]. by eapply exec_step.
Qed.

Definition returned (w : writer) : bool :=
  match writer_at w with WReturned _ => true | _ => false end.

(** Statements left in a call. *)
Definition pc_rank (pc : writer_pc) : nat :=
  match pc with
  | WStart => 6 | WLock _ => 5 | WLoad _ => 4 | WCheck _ _ => 3
  | WStore _ => 2 | WUnlock _ => 1 | WReturned _ => 0
  end.

Definition steps_left (c : config) : nat :=
  sum_list ((λ w, pc_rank (writer_at w)) <$> cfg_writers c).

Lemma sum_list_insert (l : list nat) i x y :
  l !! i = Some x → (y < x)%nat → (sum_list (<[i := y]> l) < sum_list l)%nat.
Proof.
  revert i. induction l as [|z l IH]; intros [|i]; simpl; [done|done|intros; simplify_eq; lia|].
  intros Hi Hlt. specialize (IH i Hi Hlt). lia.
Qed.

Lemma step_decreases c c' : step c c' → (steps_left c' < steps_left c)%nat.
Proof.
  assert (∀ (ws : list writer) i w pc', ws !! i = Some w →
    (pc_rank pc' < pc_rank (writer_at w))%nat →
    (sum_list ((λ w, pc_rank (writer_at w)) <$> <[i := goto w pc']> ws) <
     sum_list ((λ w, pc_rank (writer_at w)) <$> ws))%nat) as Hdec.
  { intros ws i w pc' Hi Hlt. rewrite list_fmap_insert. simpl.
    eapply sum_list_insert; [|done]. by rewrite list_lookup_fmap, Hi. }
  unfold steps_left. intros Hstep.
  destruct Hstep as [i w|i w|i w|i w|i w|i w|i w|i w]; simpl; apply (Hdec _ i w); try done;
    match goal with H : writer_at _ = _ |- _ => rewrite H end; simpl; lia.
Qed.

Lemma reachable_progress engine calls c :
  is_Some (engine_snapshot engine) → rtc step (start engine calls) c →
  forallb returned (cfg_writers c) = false → ∃ i c', exec i c = Some c'.
Proof.
  intros Hs Hr Hnot. pose proof (publication_inv_reachable _ _ _ Hr) as [_ Hseq _ _ Hholder _].
  destruct (sequential_facts _ _ _ Hs Hseq) as ([current Hcur] & _).
  destruct c as [e mu ws log]; simpl in *.
  destruct mu as [i|].
  - destruct (Hholder i eq_refl) as (w & Hi & Hc). exists i. simpl. rewrite Hi. simpl.
    destruct (writer_at w); try done; rewrite ?Hcur; simpl; repeat case_match; eauto.
  - assert (∃ i w, ws !! i = Some w ∧ returned w = false) as (i & w & Hi & Hw).
    { clear -Hnot. induction ws as [|w ws IH]; simpl in *; [done|].
      destruct (returned w) eqn:E; [|by exists 0%nat, w].
      destruct (IH Hnot) as (i & v & ? & ?). by exists (S i), v. }
    exists i. simpl. rewrite Hi. simpl. unfold returned in Hw.
    destruct (writer_at w); try done; rewrite ?Hcur; simpl; repeat case_match; eauto.
Qed.

(** C38. Concurrent replacements always finish: from every reachable state a
    schedule leads to a state where all calls have returned, no schedule is
    longer than the number of statements left, and no reachable state with
    an unfinished call is stuck. *)
Theorem ReplaceSnapshot_progress (engine : Engine) (calls : list (option Snapshot * Revision))
    (c : config) :
  is_Some (engine_snapshot engine) → rtc step (start engine calls) c →
  (∃ order c', schedule order c = Some c' ∧ forallb returned (cfg_writers c') = true) ∧
  (∀ k c', nsteps step k c c' → (k ≤ steps_left c)%nat) ∧
  (forallb returned (cfg_writers c) = false → ∃ c', step c c').
Proof.
  intros Hs Hr. split_and!.
  - remember (steps_left c) as k eqn:Ek. revert c Hr Ek.
    induction (lt_wf k) as [k _ IH]. intros c Hr ->.
    destruct (forallb returned (cfg_writers c)) eqn:Eall; [by exists [], c|].
    destruct (reachable_progress _ _ _ Hs Hr Eall) as (i & c1 & Hi).
    pose proof (exec_step _ _ _ Hi) as Hstep.
    destruct (IH (steps_left c1) (step_decreases _ _ Hstep) c1) as (order & c' & His & Hall);
      [by eapply rtc_r|done|].
    exists (i :: order), c'. split; [|done]. unfold schedule in *. simpl. by rewrite Hi.
  - intros k c'. clear. induction 1 as [|k c c1 c2 Hstep _ IH]; [lia|].
    pose proof (step_decreases _ _ Hstep). lia.
  - intros Hnot. destruct (reachable_progress _ _ _ Hs Hr Hnot) as (i & c' & Hi).
    exists c'. by eapply exec_step.
Qed.

(** Two writers that expect the same revision: the second to take the mutex
    loses. *)
Definition empty_snapshot (revision : Revision) : Snapshot := mkSnapshot revision DenyOverrides [].

Definition race_start : config :=
  start (@example_engine plain_runtime (empty_snapshot 1))
    [(Some (empty_snapshot 2), 1); (Some (empty_snapshot 3), 1)].

Definition race_schedule : list nat := [0; 1; 0; 0; 0; 0; 0; 1; 1; 1; 1]%nat.

Lemma race_result :
  ∃ c, schedule race_schedule race_start = Some c ∧
    writer_at <$> cfg_writers c = [WReturned None; WReturned (Some ErrRevisionConflict)] ∧
    current_revision (cfg_engine c) = 2.
Proof. by eexists. Qed.

Lemma ReplaceSnapshot_linearizable_witness :
  ∃ c, rtc step race_start c ∧
    mkLogEntry 1 (Some (empty_snapshot 3)) 1 (Some ErrRevisionConflict) ∈ cfg_log c.
Proof.
  eexists. split; [apply (schedule_rtc race_schedule); reflexivity|].
  refine (proj2 (proj2 (proj2 (ReplaceSnapshot_linearizable _ _ _
    (schedule_rtc race_schedule race_start _ eq_refl))) 1%nat _ _ eq_refl eq_refl)).
Defined.

Lemma ReplaceSnapshot_one_winner_witness :
  ∃ c, rtc step race_start c ∧ 1 < current_revision (cfg_engine c).
Proof.
  eexists. split; [apply (schedule_rtc race_schedule); reflexivity|].
  refine (proj1 (proj2 (ReplaceSnapshot_one_winner (@example_engine plain_runtime (empty_snapshot 1)) _ _ _
    (mk_is_Some _ _ eq_refl) (schedule_rtc race_schedule race_start _ eq_refl) (rtc_refl _ _))
    0%nat 0%nat _ _ eq_refl eq_refl eq_refl eq_refl)).
Defined.

Lemma ReplaceSnapshot_progress_witness :
  ∃ order c', schedule order race_start = Some c' ∧ forallb returned (cfg_writers c') = true.
Proof.
  exact (proj1 (ReplaceSnapshot_progress (@example_engine plain_runtime (empty_snapshot 1))
    [(Some (empty_snapshot 2), 1); (Some (empty_snapshot 3), 1)] race_start
    (mk_is_Some _ _ eq_refl) (rtc_refl _ _))).
Defined.
