(* ===== verification/Instrumentation.v ===== *)
(** * Instrumented decisions (instrumentation.go)

    [Instrumented] decorates an authorizer with an observation: a start
    callback that may derive a context, a finish callback that receives a
    bounded event, and a clock. All three are borrowed and may panic; the
    decorator contains their panics. *)

From S2P Require Import Prelude Attribute Request Decision Snapshot Engine.

#[local] Open Scope Z_scope.

(** ** Interfaces *)

(** A Go interface value: nil, a nil pointer of a type with methods, or a
    value. *)
Inductive interface (A : Type) :=
| NilInterface
| TypedNil (methods : A)
| Implemented (methods : A).
Arguments NilInterface {A}.
Arguments TypedNil {A} methods.
Arguments Implemented {A} methods.

Definition isNilInterface {A} (value : interface A) : bool :=
  match value with NilInterface | TypedNil _ => true | Implemented _ => false end.

(** What a call on a non-nil interface value runs. *)
Definition methods_of {A} (value : interface A) : option A :=
  match value with NilInterface => None | TypedNil a | Implemented a => Some a end.

Record Authorizer := mkAuthorizer { authorizer_Decide : Context → Request → M (Decision * option error) }.

(** The engine as an authorizer. *)
Definition engine_authorizer (engine : Engine) : Authorizer := mkAuthorizer (Engine_Decide engine).

(** ** Data *)

Definition ErrNilAuthorizer := errors_New "authorization instrumented authorizer is nil".
Definition ErrNilInstrumenter := errors_New "authorization instrumenter is nil".
Definition ErrInvalidInstrumentationConfig := errors_New "authorization instrumentation config is invalid".

Definition defaultMaxInstrumentationPolicyIDs : Z := 100.

Record Event := mkEvent {
  Event_Outcome : Outcome;
  Event_Reason : ReasonCode;
  Event_Revision : Revision;
  Event_MatchedPolicyIDs : list PolicyID;
  Event_MatchedPolicyIDsTruncated : bool;
  Event_TraceCount : Z;
  Event_TraceTruncated : bool;
  Event_Duration : Z;
  Event_Failed : bool
}.

(** [Start] returns a context, nil or not, and a callback, nil or not. *)
Record Instrumenter := mkInstrumenter { Start : Context → M (option Context * option (Event → M unit)) }.

Record BeginInstrumenter := mkBeginInstrumenter { Begin : Context → M (option Context * option (Event → M unit)) }.

Record InstrumentationConfig := mkInstrumentationConfig {
  Config_Clock : option (M Time);
  Config_MaxPolicyIDs : Z
}.

Record Instrumented := mkInstrumented {
  instrumented_authorizer : Authorizer;
  instrumented_instrumenter : Instrumenter;
  instrumented_clock : M Time;
  instrumented_maxPolicyIDs : Z
}.

(** ** Construction *)

Definition newInstrumented `{GoRuntime} (authorizer : Authorizer) (instrumenter : Instrumenter)
    (config : InstrumentationConfig) : result Instrumented :=
  if Config_MaxPolicyIDs config <? 0 then Err ErrInvalidInstrumentationConfig
  else Ok (mkInstrumented authorizer instrumenter
             match Config_Clock config with None => now | Some clock => clock end
             (if Config_MaxPolicyIDs config =? 0 then defaultMaxInstrumentationPolicyIDs
              else Config_MaxPolicyIDs config)).

(** Rejects the nil interface only. *)
Definition NewInstrumented `{GoRuntime} (authorizer : interface Authorizer) (instrumenter : interface Instrumenter)
    (config : InstrumentationConfig) : result Instrumented :=
  match methods_of authorizer with
  | None => Err ErrNilAuthorizer
  | Some authorizer =>
      match methods_of instrumenter with
      | None => Err ErrNilInstrumenter
      | Some instrumenter => newInstrumented authorizer instrumenter config
      end
  end.

(** [beginInstrumenterAdapter]. *)
Definition beginInstrumenterAdapter (instrumenter : BeginInstrumenter) : Instrumenter :=
  mkInstrumenter (Begin instrumenter).

Definition NewInstrumentedWithBegin `{GoRuntime} (authorizer : interface Authorizer)
    (instrumenter : interface BeginInstrumenter) (config : InstrumentationConfig) : result Instrumented :=
  match authorizer with
  | NilInterface | TypedNil _ => Err ErrNilAuthorizer
  | Implemented authorizer =>
      match instrumenter with
      | NilInterface | TypedNil _ => Err ErrNilInstrumenter
      | Implemented instrumenter => newInstrumented authorizer (beginInstrumenterAdapter instrumenter) config
      end
  end.

(** ** Decide *)

(** A call whose panic is recovered to a value. *)
Definition recovering {A} (fallback : A) (m : M A) : M A := λ n,
  match m n with
  | (Ret a, n') => (Ret a, n')
  | (Panic, n') => (Ret fallback, n')
  end.

Definition safeInstrumentationNow (clock : M Time) (fallback : Time) : M Time := recovering fallback clock.

Definition safeInstrumentationStart (instrumenter : Instrumenter) (ctx : Context) :
    M (Context * option (Event → M unit)) :=
  recovering (ctx, None) (
    '(candidate, callback) ← Start instrumenter ctx;
    mret (default ctx candidate, callback)).

Definition safeInstrumentationFinish (finish : option (Event → M unit)) (event : Event) : M unit :=
  match finish with
  | None => mret tt
  | Some finish => recovering tt (finish event)
  end.

(** The event of a decision: at most [maxPolicyIDs] identifiers. *)
Definition decision_event (maxPolicyIDs : Z) (decision : Decision) (err : option error) (started finished : Time) :
    Event :=
  let duration := Z.max (time_Sub finished started) 0 in
  let matched := Decision_MatchedPolicyIDs decision in
  let matchedCount := Z.min (len matched) maxPolicyIDs in
  let '(matched, truncated) :=
    if negb (matchedCount =? len matched)
    then (take (Z.to_nat matchedCount) matched, true)
    else (matched, Decision_MatchedPolicyIDsTruncated decision) in
  mkEvent (Decision_Outcome decision) (Decision_Reason decision) (Decision_Revision decision)
    matched truncated (len (Decision_Trace decision)) (Decision_TraceTruncated decision)
    duration (bool_decide (is_Some err)).

Definition Instrumented_Decide (instrumented : Instrumented) (ctx : Context) (request : Request) :
    M (Decision * option error) :=
  started ← safeInstrumentationNow (instrumented_clock instrumented) 0;
  '(next, finish) ← safeInstrumentationStart (instrumented_instrumenter instrumented) ctx;
  '(decision, err) ← authorizer_Decide (instrumented_authorizer instrumented) next request;
  finished ← safeInstrumentationNow (instrumented_clock instrumented) started;
  _ ← safeInstrumentationFinish finish
        (decision_event (instrumented_maxPolicyIDs instrumented) decision err started finished);
  mret (decision, err).

(** ** Lemmas *)

Lemma recovering_run {A} (fallback : A) (m : M A) n : ∃ a n', recovering fallback m n = (Ret a, n').
Proof. unfold recovering. destruct (m n) as [[a|] n']; eauto. Qed.

Lemma newInstrumented_bound `{GoRuntime} authorizer instrumenter config inst :
  newInstrumented authorizer instrumenter config = Ok inst →
  0 < instrumented_maxPolicyIDs inst ∧ instrumented_authorizer inst = authorizer ∧
  instrumented_instrumenter inst = instrumenter.
Proof.
  unfold newInstrumented. destruct (Z.ltb_spec (Config_MaxPolicyIDs config) 0); [done|]. intros [= <-]. simpl.
  destruct (Z.eqb_spec (Config_MaxPolicyIDs config) 0); split_and!; done || lia.
Qed.

(** The event is a bounded view of the decision. *)
Definition event_reports (max : Z) (d : Decision) (err : option error) (event : Event) : Prop :=
  Event_Outcome event = Decision_Outcome d ∧ Event_Reason event = Decision_Reason d ∧
  Event_Revision event = Decision_Revision d ∧
  Event_MatchedPolicyIDs event = take (Z.to_nat max) (Decision_MatchedPolicyIDs d) ∧
  Event_MatchedPolicyIDsTruncated event =
    (Decision_MatchedPolicyIDsTruncated d || (max <? len (Decision_MatchedPolicyIDs d))) ∧
  Event_TraceCount event = len (Decision_Trace d) ∧ Event_TraceTruncated event = Decision_TraceTruncated d ∧
  0 ≤ Event_Duration event ≤ max_int64 ∧ Event_Failed event = bool_decide (is_Some err).

Lemma decision_event_reports max d err started finished :
  0 ≤ max → event_reports max d err (decision_event max d err started finished).
Proof.
  intros Hmax. unfold event_reports, decision_event. pose proof (len_nonneg (Decision_MatchedPolicyIDs d)) as Hlen.
  assert (0 ≤ Z.max (time_Sub finished started) 0 ≤ max_int64) as Hdur.
  { unfold time_Sub, max_int64, min_int64. lia. }
  destruct (Z.eqb_spec (Z.min (len (Decision_MatchedPolicyIDs d)) max) (len (Decision_MatchedPolicyIDs d))) as [E|E]; simpl.
  - split_and!; try done; try lia.
    + rewrite take_ge; [done|]. unfold len in *. lia.
    + rewrite (proj2 (Z.ltb_ge _ _)) by lia. by rewrite orb_false_r.
  - split_and!; try done; try lia.
    f_equal. lia.
Qed.

(** ** Theorems *)

(** Instrumentation is transparent and contained: whatever the clock and
    the callbacks do (panic included), an instrumented call runs the
    authorizer once, on the caller's context or the one the start callback
    derived, and returns exactly its decision and error (or its panic); the
    finish callback receives one event, with at most the configured number
    of identifiers, an exact truncation flag and a nonnegative duration. *)
Theorem Instrumented_transparent `{GoRuntime} (authorizer : interface Authorizer)
    (instrumenter : interface Instrumenter) (config : InstrumentationConfig) (inst : Instrumented)
    (ctx : Context) (request : Request) (n : nat) :
  NewInstrumented authorizer instrumenter config = Ok inst →
  0 < instrumented_maxPolicyIDs inst ∧ methods_of authorizer = Some (instrumented_authorizer inst) ∧
  ∃ next finish n1,
    ((∃ c n0, Start (instrumented_instrumenter inst) ctx n0 = (Ret (c, finish), n1) ∧ next = default ctx c) ∨
     (next = ctx ∧ finish = None)) ∧
    match authorizer_Decide (instrumented_authorizer inst) next request n1 with
    | (Panic, n2) => Instrumented_Decide inst ctx request n = (Panic, n2)
    | (Ret (d, err), n2) =>
        ∃ event n3 n4, event_reports (instrumented_maxPolicyIDs inst) d err event ∧
          safeInstrumentationFinish finish event n3 = (Ret tt, n4) ∧
          Instrumented_Decide inst ctx request n = (Ret (d, err), n4)
    end.
Proof.
  unfold NewInstrumented. destruct (methods_of authorizer) as [a|]; [|done].
  destruct (methods_of instrumenter) as [i|]; [|done]. intros (Hmax & <- & <-)%newInstrumented_bound.
  split; [done|]. split; [done|]. unfold Instrumented_Decide.
  destruct (recovering_run 0 (instrumented_clock inst) n) as (started & n0 & E0).
  unfold safeInstrumentationNow. rewrite (M_bind_Ret _ _ _ _ _ E0).
  destruct (recovering_run (ctx, None) ('(candidate, callback) ← Start (instrumented_instrumenter inst) ctx;
    mret (default ctx candidate, callback)) n0) as ([next finish] & n1 & E1).
  exists next, finish, n1. split.
  { unfold recovering in E1. unfold mbind, M_bind in E1.
    destruct (Start (instrumented_instrumenter inst) ctx n0) as [[[c f]|] n'] eqn:Es.
    - left. exists c, n0. injection E1 as <- <- <-. done.
    - right. injection E1 as <- <- _. done. }
  unfold safeInstrumentationStart. rewrite (M_bind_Ret _ _ _ _ _ E1). cbn iota beta.
  destruct (authorizer_Decide (instrumented_authorizer inst) next request n1) as [[[d err]|] n2] eqn:Ed.
  2: { by rewrite (M_bind_Panic _ _ _ _ Ed). }
  rewrite (M_bind_Ret _ _ _ _ _ Ed). cbn iota beta.
  destruct (recovering_run started (instrumented_clock inst) n2) as (finished & n3 & E3).
  rewrite (M_bind_Ret _ _ _ _ _ E3). cbn beta.
  set (event := decision_event _ d err started finished).
  assert (∃ n4, safeInstrumentationFinish finish event n3 = (Ret tt, n4)) as [n4 E4].
  { unfold safeInstrumentationFinish. destruct finish as [f|]; [|by eexists].
    destruct (recovering_run tt (f event) n3) as ([] & n4 & E4). by exists n4. }
  exists event, n3, n4. split; [by apply decision_event_reports; lia|]. split; [done|].
  by rewrite (M_bind_Ret _ _ _ _ _ E4).
Qed.

(** An observer whose callbacks all panic. *)
Definition panicking_instrumenter : Instrumenter := mkInstrumenter (λ _ n, (Panic, n)).

Definition panicking_config : InstrumentationConfig := mkInstrumentationConfig (Some (λ n, (Panic, n))) 1.

Definition two_ids : Decision := mkDecision Allow "ok" ["p1"; "p2"] false 3 [] false.

Lemma Instrumented_transparent_witness :
  ∃ inst n', @NewInstrumented plain_runtime (Implemented (mkAuthorizer (λ _ _, mret (two_ids, None))))
      (Implemented panicking_instrumenter) panicking_config = Ok inst ∧
    Instrumented_Decide inst context_Background example_request 0%nat = (Ret (two_ids, None), n') ∧
    0 < instrumented_maxPolicyIDs inst.
Proof.
  eexists _, _. split; [reflexivity|]. split; [reflexivity|].
  refine (proj1 (@Instrumented_transparent plain_runtime (Implemented (mkAuthorizer (λ _ _, mret (two_ids, None))))
    (Implemented panicking_instrumenter) panicking_config _ context_Background example_request 0%nat _)).
  reflexivity.
Defined.
