(* ===== verification/Digest.v ===== *)
(** * Digests and encodings of the Go standard library

    [crypto/sha256], [encoding/base64] (unpadded URL alphabet) and
    [binary.BigEndian], as used by the session key of an authority scope.
    Bytes and 32-bit words are integers. *)

From S2P Require Import Prelude.

#[local] Open Scope Z_scope.

Definition byte_of_ascii (c : Ascii.ascii) : Z := Z.of_nat (Ascii.nat_of_ascii c).

Fixpoint string_bytes (s : string) : list Z :=
  match s with EmptyString => [] | String c s => byte_of_ascii c :: string_bytes s end.

(** The [n] bytes of an integer, most significant first. *)
Fixpoint big_endian (n : nat) (z : Z) : list Z :=
  match n with
  | O => []
  | S n => Z.shiftr z (8 * Z.of_nat n) `mod` 256 :: big_endian n z
  end.

Module sha256.

(** ** Words *)

Definition word (z : Z) : Z := z `mod` 2 ^ 32.
Definition add (x y : Z) : Z := word (x + y).
Definition rotate (k x : Z) : Z := Z.lor (Z.shiftr x k) (word (Z.shiftl x (32 - k))).
Definition xor3 (x y z : Z) : Z := Z.lxor x (Z.lxor y z).

(** ** Constants

    The first 32 bits of the fractional parts of the square and cube roots
    of the first primes. *)

Definition primes : list Z :=
  [2; 3; 5; 7; 11; 13; 17; 19; 23; 29; 31; 37; 41; 43; 47; 53; 59; 61; 67; 71; 73; 79; 83; 89; 97; 101; 103; 107; 109;
   113; 127; 131; 137; 139; 149; 151; 157; 163; 167; 173; 179; 181; 191; 193; 197; 199; 211; 223; 227; 229; 233; 239;
   241; 251; 257; 263; 269; 271; 277; 281; 283; 293; 307; 311].

(** The cube root of [n], rounded down, from bit [k - 1] on. *)
Fixpoint cube_root (k : nat) (n root : Z) : Z :=
  match k with
  | O => root
  | S k =>
      let candidate := root + 2 ^ Z.of_nat k in
      cube_root k n (if candidate ^ 3 <=? n then candidate else root)
  end.

Definition round_constants : list Z :=
  Eval vm_compute in (λ p, word (cube_root 36 (p * 2 ^ 96) 0)) <$> primes.

Definition initial_words : list Z :=
  Eval vm_compute in (λ p, word (Z.sqrt (p * 2 ^ 64))) <$> take 8 primes.

(** ** The hash *)

(** A one bit, zeros up to 56 modulo 64, and the length in bits. *)
Definition pad (message : list Z) : list Z :=
  message ++ 128 :: repeat 0 (Z.to_nat ((55 - len message) `mod` 64)) ++ big_endian 8 (8 * len message).

Fixpoint words (bytes : list Z) : list Z :=
  match bytes with
  | a :: b :: c :: d :: bytes => (((a * 256 + b) * 256 + c) * 256 + d) :: words bytes
  | _ => []
  end.

Fixpoint blocks (fuel : nat) (ws : list Z) : list (list Z) :=
  match fuel, ws with
  | S fuel, _ :: _ => take 16 ws :: blocks fuel (drop 16 ws)
  | _, _ => []
  end.

(** The schedule: [window] holds the last sixteen words. *)
Fixpoint schedule (rounds : nat) (window : list Z) : list Z :=
  match rounds with
  | O => []
  | S rounds =>
      let at_ i := nth i window 0 in
      let x := at_ 1%nat in
      let y := at_ 14%nat in
      let next := add (add (at_ 0%nat) (xor3 (rotate 7 x) (rotate 18 x) (Z.shiftr x 3)))
                      (add (at_ 9%nat) (xor3 (rotate 17 y) (rotate 19 y) (Z.shiftr y 10))) in
      at_ 0%nat :: schedule rounds (drop 1 window ++ [next])
  end.

Record state := mkState { sa : Z; sb : Z; sc : Z; sd : Z; se : Z; sf : Z; sg : Z; sh : Z }.

Definition round (s : state) (kw : Z * Z) : state :=
  let choose := Z.lxor (Z.land (se s) (sf s)) (Z.land (2 ^ 32 - 1 - se s) (sg s)) in
  let majority := xor3 (Z.land (sa s) (sb s)) (Z.land (sa s) (sc s)) (Z.land (sb s) (sc s)) in
  let t1 := add (add (sh s) (xor3 (rotate 6 (se s)) (rotate 11 (se s)) (rotate 25 (se s))))
                (add choose (add kw.1 kw.2)) in
  let t2 := add (xor3 (rotate 2 (sa s)) (rotate 13 (sa s)) (rotate 22 (sa s))) majority in
  mkState (add t1 t2) (sa s) (sb s) (sc s) (add (sd s) t1) (se s) (sf s) (sg s).

Definition compress (s : state) (block : list Z) : state :=
  let r := foldl round s (zip round_constants (schedule 64 block)) in
  mkState (add (sa s) (sa r)) (add (sb s) (sb r)) (add (sc s) (sc r)) (add (sd s) (sd r))
          (add (se s) (se r)) (add (sf s) (sf r)) (add (sg s) (sg r)) (add (sh s) (sh r)).

Definition initial_state : state :=
  let h i := nth i initial_words 0 in
  mkState (h 0%nat) (h 1%nat) (h 2%nat) (h 3%nat) (h 4%nat) (h 5%nat) (h 6%nat) (h 7%nat).

Definition Sum (message : list Z) : list Z :=
  let ws := words (pad message) in
  let s := foldl compress initial_state (blocks (length ws) ws) in
  concat (big_endian 4 <$> [sa s; sb s; sc s; sd s; se s; sf s; sg s; sh s]).

Lemma Sum_length message : length (Sum message) = 32%nat.
Proof. reflexivity. Qed.
End sha256.

(** ** Base64 *)

Definition url_alphabet : string := "ABCDEFGHIJKLMNOPQRSTUVWXYZabcdefghijklmnopqrstuvwxyz0123456789-_".

Definition url_char (sextet : Z) : Ascii.ascii := default Ascii.Space (String.get (Z.to_nat sextet) url_alphabet).

(** [base64.RawURLEncoding.EncodeToString]. *)
Fixpoint base64_url (bytes : list Z) : string :=
  match bytes with
  | [] => EmptyString
  | [a] => String (url_char (a / 4)) (String (url_char (a `mod` 4 * 16)) EmptyString)
  | [a; b] =>
      String (url_char (a / 4)) (String (url_char (a `mod` 4 * 16 + b / 16))
        (String (url_char (b `mod` 16 * 4)) EmptyString))
  | a :: b :: c :: bytes =>
      String (url_char (a / 4)) (String (url_char (a `mod` 4 * 16 + b / 16))
        (String (url_char (b `mod` 16 * 4 + c / 64)) (String (url_char (c `mod` 64)) (base64_url bytes))))
  end.

(** The published digests of the empty string and of "abc". *)
Example sha256_empty :
  base64_url (sha256.Sum []) = "47DEQpj8HBSa-_TImW-5JCeuQeRkm5NMpJWZG3hSuFU".
Proof. vm_compute. reflexivity. Qed.

Example sha256_abc :
  base64_url (sha256.Sum (string_bytes "abc")) = "ungWv48Bz-pBQUDeXa4iI7ADYaOWF3qctBD_YfIAFa0".
Proof. vm_compute. reflexivity. Qed.

(** ** Lemmas *)

Definition is_byte (z : Z) : Prop := 0 ≤ z < 256.

Lemma string_bytes_range s : Forall is_byte (string_bytes s).
Proof.
  induction s as [|c s IH]; [constructor|]. constructor; [|done].
  unfold is_byte, byte_of_ascii. pose proof (Ascii.nat_ascii_bounded c). lia.
Qed.

Lemma string_bytes_inj s t : string_bytes s = string_bytes t → s = t.
Proof.
  revert t. induction s as [|c s IH]; intros [|d t]; [done..|]. simpl. intros [= Hc Hs]. f_equal; [|by apply IH].
  unfold byte_of_ascii in Hc. apply Nat2Z.inj in Hc. apply (f_equal Ascii.ascii_of_nat) in Hc.
  by rewrite !Ascii.ascii_nat_embedding in Hc.
Qed.

Lemma string_bytes_length s : len (string_bytes s) = Z.of_nat (String.length s).
Proof. unfold len. induction s as [|c s IH]; simpl; lia. Qed.

Lemma big_endian_range n z : Forall is_byte (big_endian n z).
Proof. induction n; constructor; [|done]. unfold is_byte. apply Z.mod_pos_bound. lia. Qed.

Lemma Sum_range message : Forall is_byte (sha256.Sum message).
Proof. apply Forall_concat, Forall_fmap, Forall_true. intros z. apply big_endian_range. Qed.

(** The position of a character in the alphabet. *)
Fixpoint index_of (c : Ascii.ascii) (s : string) : nat :=
  match s with
  | EmptyString => 0
  | String d s => if bool_decide (c = d) then 0 else S (index_of c s)
  end.

Lemma url_char_inj x y : 0 ≤ x < 64 → 0 ≤ y < 64 → url_char x = url_char y → x = y.
Proof.
  assert (Forall (λ x, Z.of_nat (index_of (url_char x) url_alphabet) = x) (seqZ 0 64)) as Hall.
  { assert (forallb (λ x, Z.of_nat (index_of (url_char x) url_alphabet) =? x) (seqZ 0 64) = true) as Hb
      by (vm_compute; reflexivity).
    apply Forall_forall. intros z Hz. apply list_elem_of_In in Hz.
    by apply (proj1 (forallb_forall _ _) Hb), Z.eqb_eq in Hz. }
  rewrite Forall_forall in Hall. intros Hx Hy E.
  rewrite <- (Hall x), <- (Hall y), E by (apply elem_of_seqZ; lia). done.
Qed.

(** The sextets of equal characters are equal. *)
Ltac sextets :=
  repeat match goal with
  | H : url_char _ = url_char _ |- _ => apply url_char_inj in H; [|Z.div_mod_to_equations; lia..]
  end.

(** Encodings of equal length determine the bytes. *)
Lemma base64_url_inj l k :
  length l = length k → Forall is_byte l → Forall is_byte k → base64_url l = base64_url k → l = k.
Proof.
  remember (length l) as n eqn:En. revert l k En. induction (lt_wf n) as [n _ IH]. intros l k -> Hlen Hl Hk E.
  unfold is_byte in *.
  destruct l as [|a [|b [|c l]]], k as [|a' [|b' [|c' k]]]; try done; simpl in Hlen; try lia;
    rewrite ?Forall_cons in Hl; rewrite ?Forall_cons in Hk; simpl in E.
  - injection E as E1 E2. sextets. f_equal. Z.div_mod_to_equations; lia.
  - injection E as E1 E2 E3. sextets. f_equal; [|f_equal]; Z.div_mod_to_equations; lia.
  - injection E as E1 E2 E3 E4 E. sextets. destruct Hl as (? & ? & ? & Hl), Hk as (? & ? & ? & Hk).
    f_equal; [|f_equal; [|f_equal]]; [Z.div_mod_to_equations; lia..|].
    apply (IH (length l)); [simpl; lia|done|lia|done..].
Qed.

Lemma base64_url_length l : String.length (base64_url l) = ((4 * length l + 2) / 3)%nat.
Proof.
  remember (length l) as n eqn:En. revert l En. induction (lt_wf n) as [n _ IH]. intros l ->.
  destruct l as [|a [|b [|c l]]]; [done..|]. cbn [base64_url String.length length].
  rewrite (IH (length l)) by (simpl; lia || done).
  replace (4 * S (S (S (length l))) + 2)%nat with (4 * length l + 2 + 4 * 3)%nat by lia.
  rewrite Nat.div_add by lia. lia.
Qed.

(** Two bytes frame a length below 2^16. *)
Lemma big_endian_2_inj x y : 0 ≤ x < 2 ^ 16 → 0 ≤ y < 2 ^ 16 → big_endian 2 x = big_endian 2 y → x = y.
Proof.
  intros Hx Hy. simpl. rewrite !Z.shiftr_div_pow2 by lia. intros [= H1 H2].
  change (2 ^ (8 * 1)) with 256 in *. change (2 ^ (8 * 0)) with 1 in *. rewrite !Z.div_1_r in H2.
  Z.div_mod_to_equations; lia.
Qed.
