(* ===== verification/HTTP.v ===== *)
(** * HTTP enforcement (adapters/http/http.go)

    Module [authorizationhttp] is the package: [NewHandler] wraps a handler
    so that only an explicit allow reaches it. The authorizer, the request
    mapper and the handlers are borrowed and may panic. Of an
    [http.Request] the code uses the context and hands the rest on; the
    response writer is a state that handlers transform. [handler_option] are
    the options that a program can give. *)

From S2P Require Import Prelude Attribute Request Decision Snapshot Engine Instrumentation.

#[local] Open Scope Z_scope.

Module authorizationhttp.

Definition ErrNilAuthorizer := errors_New "HTTP authorization authorizer is nil".
Definition ErrNilRequestMapper := errors_New "HTTP authorization request mapper is nil".
Definition ErrNilNextHandler := errors_New "HTTP authorization next handler is nil".

Definition StatusForbidden : Z := 403.
Definition StatusInternalServerError : Z := 500.

(** A context with the values of the two private keys. *)
Record valued_context := mkValued {
  base_context : Context;
  decision_value : option Decision;
  error_value : option error
}.

Definition DecisionFromContext (ctx : valued_context) : option Decision := decision_value ctx.
Definition ErrorFromContext (ctx : valued_context) : option error := error_value ctx.

(** [context.WithValue(ctx, decisionContextKey{}, decision)]. *)
Definition withDecision (ctx : valued_context) (decision : Decision) : valued_context :=
  mkValued (base_context ctx) (Some decision) (error_value ctx).

Definition withError (ctx : valued_context) (err : error) : valued_context :=
  mkValued (base_context ctx) (decision_value ctx) (Some err).

Section handler.
Context {Rest Writer : Type} (WriteHeader : Z → Writer → M Writer).

Record http_Request := mkHTTPRequest {
  request_Context : valued_context;
  request_rest : Rest
}.

Definition WithContext (request : http_Request) (ctx : valued_context) : http_Request :=
  mkHTTPRequest ctx (request_rest request).

Definition Handler : Type := Writer → http_Request → M Writer.

Definition RequestMapper : Type := http_Request → M (Request * option error).

Record options := mkOptions { denied : Handler; failed : Handler }.

Definition Option : Type := options → options.

Definition WithDeniedHandler (handler : option Handler) : Option := λ o,
  match handler with None => o | Some handler => mkOptions handler (failed o) end.

Definition WithErrorHandler (handler : option Handler) : Option := λ o,
  match handler with None => o | Some handler => mkOptions (denied o) handler end.

Definition default_options : options :=
  mkOptions (λ writer _, WriteHeader StatusForbidden writer) (λ writer _, WriteHeader StatusInternalServerError writer).

(** The returned handler. *)
Definition ServeHTTP (configured : options) (authorizer : Authorizer) (mapper : RequestMapper) (next : Handler) :
    Handler := λ writer request,
  let ctx := request_Context request in
  '(authorizationRequest, err) ← mapper request;
  match err with
  | Some err => failed configured writer (WithContext request (withError ctx err))
  | None =>
      '(decision, err) ← authorizer_Decide authorizer (base_context ctx) authorizationRequest;
      match err with
      | Some err => failed configured writer (WithContext request (withError ctx err))
      | None =>
          if outcome_above_Deny (Decision_Outcome decision)
          then failed configured writer (WithContext request (withError ctx ErrInvalidOutcome))
          else
            let request := WithContext request (withDecision ctx decision) in
            if negb (bool_decide (Decision_Outcome decision = Allow))
            then denied configured writer request
            else next writer request
      end
  end.

Definition NewHandler (authorizer : option Authorizer) (mapper : option RequestMapper) (next : option Handler)
    (handlerOptions : list Option) : result Handler :=
  match authorizer with
  | None => Err ErrNilAuthorizer
  | Some authorizer =>
      match mapper with
      | None => Err ErrNilRequestMapper
      | Some mapper =>
          match next with
          | None => Err ErrNilNextHandler
          | Some next =>
              let configured := foldl (λ o option, option o) default_options handlerOptions in
              Ok (ServeHTTP configured authorizer mapper next)
          end
      end
  end.

(** ** Specification *)

(** The options that a program can write: the two constructors are the only
    exported functions that give an [Option]. *)
Inductive handler_option :=
| Denied (handler : option Handler)
| Failed (handler : option Handler).

Definition as_option (o : handler_option) : Option :=
  match o with
  | Denied handler => WithDeniedHandler handler
  | Failed handler => WithErrorHandler handler
  end.

(** The handler of a denial: the last one that was given, or an answer with
    status 403; and the handler of a failure, or an answer with status 500. *)
Definition denial_handler (os : list handler_option) : Handler :=
  default (λ writer _, WriteHeader 403 writer)
    (list.last (omap (λ o, match o with Denied handler => handler | Failed _ => None end) os)).

Definition failure_handler (os : list handler_option) : Handler :=
  default (λ writer _, WriteHeader 500 writer)
    (list.last (omap (λ o, match o with Failed handler => handler | Denied _ => None end) os)).

(** The request is mapped and decided [Allow] without error, up to position
    [n'] of the run. *)
Definition granted (authorizer : Authorizer) (mapper : RequestMapper) (request : http_Request) (n : nat)
    (mapped : Request) (m : nat) (decision : Decision) (n' : nat) : Prop :=
  mapper request n = (Ret (mapped, None), m) ∧
  authorizer_Decide authorizer (base_context (request_Context request)) mapped m = (Ret (decision, None), n') ∧
  Decision_Outcome decision = Allow.

(** The failure that a run reports: the mapper's, the authorizer's, or an
    undefined outcome. *)
Definition failure (authorizer : Authorizer) (mapper : RequestMapper) (request : http_Request) (n : nat)
    (err : error) (n' : nat) : Prop :=
  (∃ mapped, mapper request n = (Ret (mapped, Some err), n')) ∨
  (∃ mapped m decision, mapper request n = (Ret (mapped, None), m) ∧
     (authorizer_Decide authorizer (base_context (request_Context request)) mapped m = (Ret (decision, Some err), n') ∨
      authorizer_Decide authorizer (base_context (request_Context request)) mapped m = (Ret (decision, None), n') ∧
      ¬ outcome_valid (Decision_Outcome decision) ∧ err = ErrInvalidOutcome)).

(** How a run ends: with the panic of the mapper or the authorizer, or in
    exactly one of the three handlers. *)
Inductive enforced (onDenied onFailed : Handler) (authorizer : Authorizer) (mapper : RequestMapper) (next : Handler)
    (writer : Writer) (request : http_Request) (n : nat) : Go Writer * nat → Prop :=
| enforced_panic n' :
    mapper request n = (Panic, n') ∨
    (∃ mapped m, mapper request n = (Ret (mapped, None), m) ∧
       authorizer_Decide authorizer (base_context (request_Context request)) mapped m = (Panic, n')) →
    enforced onDenied onFailed authorizer mapper next writer request n (Panic, n')
| enforced_failed err n' :
    failure authorizer mapper request n err n' →
    enforced onDenied onFailed authorizer mapper next writer request n
      (onFailed writer (WithContext request (withError (request_Context request) err)) n')
| enforced_denied mapped m decision n' :
    mapper request n = (Ret (mapped, None), m) →
    authorizer_Decide authorizer (base_context (request_Context request)) mapped m = (Ret (decision, None), n') →
    Decision_Outcome decision = Deny ∨ Decision_Outcome decision = NotApplicable →
    enforced onDenied onFailed authorizer mapper next writer request n
      (onDenied writer (WithContext request (withDecision (request_Context request) decision)) n')
| enforced_granted mapped m decision n' :
    granted authorizer mapper request n mapped m decision n' →
    enforced onDenied onFailed authorizer mapper next writer request n
      (next writer (WithContext request (withDecision (request_Context request) decision)) n').

(** The options that are configured. *)
Lemma configured_handlers os :
  foldl (λ o option, option o) default_options (as_option <$> os) = mkOptions (denial_handler os) (failure_handler os).
Proof.
  unfold denial_handler, failure_handler. induction os as [|o os IH] using rev_ind; [done|].
  rewrite fmap_app, foldl_app, IH, !omap_app. by destruct o as [[handler|]|[handler|]]; simpl; rewrite ?app_nil_r, ?last_snoc.
Qed.

Lemma ServeHTTP_enforced configured authorizer mapper next writer request n :
  enforced (denied configured) (failed configured) authorizer mapper next writer request n
    (ServeHTTP configured authorizer mapper next writer request n).
Proof.
  unfold ServeHTTP, mbind, M_bind. destruct (mapper request n) as [[[mapped err]|] m] eqn:Em; [|by apply enforced_panic; left].
  destruct err as [err|]; [by apply enforced_failed; left; exists mapped|].
  destruct (authorizer_Decide _ _ _ _) as [[[decision err]|] n'] eqn:Ed.
  2: { apply enforced_panic. right. by exists mapped, m. }
  destruct err as [err|]; [by apply enforced_failed; right; eauto 10|].
  destruct (outcome_above_Deny (Decision_Outcome decision)) eqn:Eo.
  { apply enforced_failed. right. exists mapped, m, decision. split; [done|]. right. split_and!; [done| |done].
    by rewrite <- outcome_above_Deny_spec, Eo. }
  case_bool_decide as Ha; simpl.
  - by apply enforced_granted with mapped m.
  - apply enforced_denied with mapped m; [done..|].
    apply outcome_above_Deny_spec in Eo. destruct (Decision_Outcome decision); try done; [by right|by left].
Qed.

(** Without a grant the downstream handler does not matter. *)
Lemma ServeHTTP_not_granted configured authorizer mapper next next' writer request n :
  (∀ mapped m decision n', ¬ granted authorizer mapper request n mapped m decision n') →
  ServeHTTP configured authorizer mapper next writer request n =
  ServeHTTP configured authorizer mapper next' writer request n.
Proof.
  intros Hno. unfold ServeHTTP, mbind, M_bind. destruct (mapper request n) as [[[mapped [err|]]|] m] eqn:Em; [done| |done].
  destruct (authorizer_Decide _ _ _ _) as [[[decision [err|]]|] n'] eqn:Ed; [done| |done].
  destruct (outcome_above_Deny _); [done|]. case_bool_decide as Ha; [|done].
  by destruct (Hno mapped m decision n').
Qed.

(** ** Theorems *)

(** C12. Only an explicit allow reaches the protected handler: for every
    constructed handler a run ends in exactly one of the failure handler
    (with the mapper's or authorizer's error, or an undefined outcome,
    attached), the denial handler (with the decision attached) and the
    protected handler, the last exactly after an [Allow] without error, with
    that decision attached; denial and failure handler are the last ones that
    were configured, or answer 403 and 500; a panic of the mapper or
    authorizer reaches no handler; and without such an allow the response
    does not depend on the protected handler at all. *)
Theorem http_enforces (authorizer : Authorizer) (mapper : RequestMapper) (next : Handler)
    (os : list handler_option) (handler : Handler) (writer : Writer) (request : http_Request) (n : nat) :
  NewHandler (Some authorizer) (Some mapper) (Some next) (as_option <$> os) = Ok handler →
  enforced (denial_handler os) (failure_handler os) authorizer mapper next writer request n (handler writer request n) ∧
  ((∀ mapped m decision n', ¬ granted authorizer mapper request n mapped m decision n') →
   ∀ next' handler', NewHandler (Some authorizer) (Some mapper) (Some next') (as_option <$> os) = Ok handler' →
     handler' writer request n = handler writer request n).
Proof.
  intros [= <-]. rewrite configured_handlers. split; [exact (ServeHTTP_enforced (mkOptions _ _) authorizer mapper next writer request n)|]. intros Hno next' handler' [= <-].
  rewrite configured_handlers. by apply ServeHTTP_not_granted.
Qed.

(** Over an engine, a response that depends on the protected handler was
    allowed by an active policy of the engine's snapshot. *)
Theorem http_engine_justified (engine : Engine) (s : Snapshot) `{!ClockTotal (engine_clock engine)}
    (mapper : RequestMapper) (next next' : Handler) (handlerOptions : list Option) (handler handler' : Handler)
    (writer : Writer) (request : http_Request) (n : nat) :
  engine_snapshot engine = Some s →
  NewHandler (Some (engine_authorizer engine)) (Some mapper) (Some next) handlerOptions = Ok handler →
  NewHandler (Some (engine_authorizer engine)) (Some mapper) (Some next') handlerOptions = Ok handler' →
  handler writer request n ≠ handler' writer request n →
  ∃ mapped m d, mapper request n = (Ret (mapped, None), m) ∧ request_valid mapped ∧ Decision_Outcome d = Allow ∧
    allow_justified engine s (base_context (request_Context request)) mapped d.
Proof.
  intros Hs [= <-] [= <-] Hne. set (ctx := base_context (request_Context request)) in *.
  destruct (mapper request n) as [[[mapped [err|]]|] m] eqn:Em.
  1,3: destruct Hne; apply ServeHTTP_not_granted; intros ? ? ? ? (Em' & _); congruence.
  destruct (Engine_Decide engine ctx mapped m) as [[[d [err|]]|] n'] eqn:Ed.
  1,3: destruct Hne; apply ServeHTTP_not_granted; intros ? ? ? ? (Em' & Ed' & _); rewrite Em in Em';
    injection Em' as <- <-; simpl in Ed'; fold ctx in Ed'; congruence.
  destruct (decide (Decision_Outcome d = Allow)) as [Ha|Ha].
  - exists mapped, m, d. split; [done|]. by destruct (Engine_Decide_allow engine ctx mapped s m d None n' Hs Ed Ha) as (_ & ? & ?).
  - destruct Hne; apply ServeHTTP_not_granted; intros ? ? ? ? (Em' & Ed' & ?); rewrite Em in Em';
      injection Em' as <- <-; simpl in Ed'; fold ctx in Ed'; congruence.
Qed.
End handler.

(** The response of a handler as the list of statuses written. *)
Definition write_status (status : Z) (writer : list Z) : M (list Z) := mret (writer ++ [status]).

Definition example_mapper : RequestMapper (Rest := unit) := λ _, mret (example_request, None).

Definition document_handler : Handler (Rest := unit) (Writer := list Z) := λ writer _, mret (writer ++ [200]).

Definition example_http : http_Request (Rest := unit) := mkHTTPRequest (mkValued context_Background None None) tt.

Definition forbidden_handler : Handler (Rest := unit) (Writer := list Z) := λ writer _, mret (writer ++ [451]).

Lemma http_enforces_witness :
  ∃ handler, NewHandler write_status (Some (engine_authorizer (@example_engine plain_runtime allow_snapshot)))
      (Some example_mapper) (Some document_handler)
      (as_option <$> [Denied (Some forbidden_handler); Failed None; Denied None]) = Ok handler ∧
    enforced forbidden_handler (λ writer _, write_status 500 writer)
      (engine_authorizer (@example_engine plain_runtime allow_snapshot))
      example_mapper document_handler [] example_http 0 (handler [] example_http 0%nat) ∧
    ∃ n', handler [] example_http 0%nat = (Ret [200], n').
Proof.
  eexists. split; [reflexivity|].
  destruct (http_enforces write_status (engine_authorizer (@example_engine plain_runtime allow_snapshot)) example_mapper
    document_handler [Denied (Some forbidden_handler); Failed None; Denied None] _ [] example_http 0 eq_refl) as [He _].
  split; [exact He|]. eexists. vm_compute. reflexivity.
Defined.
End authorizationhttp.
