(* ===== verification/JSONRPC.v ===== *)
(** * JSON-RPC enforcement (adapters/jsonrpc/jsonrpc.go)

    Module [authorizationjsonrpc] is the package: [NewMiddleware] wraps a
    method handler so that only an explicit allow reaches it. The error
    values of the JSON-RPC module are a parameter. *)

From S2P Require Import Prelude Attribute Request Decision Snapshot Engine Instrumentation.

#[local] Open Scope Z_scope.

(** What the package uses of the errors of go-jsonrpc. *)
Class RPCErrors (E : Type) := {
  NewError : Z → string → E;
  InternalError : E;
  WithCause : E → error → E
}.

Module authorizationjsonrpc.

Definition CodeForbidden : Z := -32001.

Definition ErrNilAuthorizer := errors_New "JSON-RPC authorization authorizer is nil".
Definition ErrNilRequestMapper := errors_New "JSON-RPC authorization request mapper is nil".

(** A context with the value of the private key. *)
Record valued_context := mkValued { base_context : Context; decision_value : option Decision }.

Definition DecisionFromContext (ctx : valued_context) : option Decision := decision_value ctx.

(** [context.WithValue(ctx, decisionContextKey{}, decision)]. *)
Definition withDecision (ctx : valued_context) (decision : Decision) : valued_context :=
  mkValued (base_context ctx) (Some decision).

Section middleware.
Context {E Any : Type} `{RPCErrors E}.

(** A returned error: one of the module's, or any other. *)
Inductive returned_error := RPCError (e : E) | OtherError (err : error).

Definition Handler : Type := valued_context → string → M (option Any * option returned_error).

Definition RequestMapper : Type := valued_context → string → M (Request * option error).

(** Mappers return nil or an error. *)
Definition DeniedError : Type := Decision → M (option E).
Definition ErrorMapper : Type := error → M (option E).

Record options := mkOptions { denied : DeniedError; failed : ErrorMapper }.

Definition Option : Type := options → options.

Definition WithDeniedError (mapper : option DeniedError) : Option := λ o,
  match mapper with None => o | Some mapper => mkOptions mapper (failed o) end.

Definition WithErrorMapper (mapper : option ErrorMapper) : Option := λ o,
  match mapper with None => o | Some mapper => mkOptions (denied o) mapper end.

Definition default_options : options :=
  mkOptions (λ _, mret (Some (NewError CodeForbidden "Forbidden")))
            (λ err, mret (Some (WithCause InternalError err))).

Definition mapFailure (mapper : ErrorMapper) (err : error) : M E :=
  mapped ← mapper err;
  mret match mapped with None => WithCause InternalError err | Some mapped => mapped end.

(** The handler of the middleware; a nil next handler panics when called. *)
Definition middleware (configured : options) (authorizer : Authorizer) (mapper : RequestMapper)
    (next : option Handler) : Handler := λ ctx params,
  '(request, err) ← mapper ctx params;
  match err with
  | Some err => e ← mapFailure (failed configured) err; mret (None, Some (RPCError e))
  | None =>
      '(decision, err) ← authorizer_Decide authorizer (base_context ctx) request;
      match err with
      | Some err => e ← mapFailure (failed configured) err; mret (None, Some (RPCError e))
      | None =>
          if outcome_above_Deny (Decision_Outcome decision)
          then e ← mapFailure (failed configured) ErrInvalidOutcome; mret (None, Some (RPCError e))
          else
            let ctx := withDecision ctx decision in
            if negb (bool_decide (Decision_Outcome decision = Allow)) then
              e ← denied configured decision;
              mret (None, Some (RPCError match e with
                                         | None => WithCause InternalError ErrInvalidOutcome
                                         | Some e => e
                                         end))
            else
              match next with
              | None => go_call Panic
              | Some next => next ctx params
              end
      end
  end.

Definition NewMiddleware (authorizer : option Authorizer) (mapper : option RequestMapper)
    (middlewareOptions : list Option) : result (option Handler → Handler) :=
  match authorizer with
  | None => Err ErrNilAuthorizer
  | Some authorizer =>
      match mapper with
      | None => Err ErrNilRequestMapper
      | Some mapper =>
          let configured := foldl (λ o option, option o) default_options middlewareOptions in
          Ok (middleware configured authorizer mapper)
      end
  end.

(** ** Specification *)

Definition granted (authorizer : Authorizer) (mapper : RequestMapper) (ctx : valued_context) (params : string)
    (n : nat) (request : Request) (m : nat) (decision : Decision) (n' : nat) : Prop :=
  mapper ctx params n = (Ret (request, None), m) ∧
  authorizer_Decide authorizer (base_context ctx) request m = (Ret (decision, None), n') ∧
  Decision_Outcome decision = Allow.

(** A run without a grant: an error of the module without a result, or the
    panic of a borrowed function. *)
Definition refused (r : Go (option Any * option returned_error) * nat) : Prop :=
  match r.1 with
  | Ret (a, err) => a = None ∧ ∃ e, err = Some (RPCError e)
  | Panic => True
  end.

Lemma middleware_cases configured authorizer mapper next ctx params n :
  (∃ request m decision n', granted authorizer mapper ctx params n request m decision n' ∧
     middleware configured authorizer mapper (Some next) ctx params n = next (withDecision ctx decision) params n') ∨
  (∀ request m decision n', ¬ granted authorizer mapper ctx params n request m decision n') ∧
  refused (middleware configured authorizer mapper (Some next) ctx params n) ∧
  ∀ next', middleware configured authorizer mapper next' ctx params n =
           middleware configured authorizer mapper (Some next) ctx params n.
Proof.
  assert (∀ err k, refused (match mapFailure (failed configured) err k with
    | (Ret e, k') => (Ret (None, Some (RPCError e)), k') | (Panic, k') => (Panic, k') end)) as Hfail.
  { intros err k. destruct (mapFailure _ _ _) as [[e|] k']; unfold refused; simpl; [|done]. split; [done|by exists e]. }
  unfold middleware, granted. unfold mbind, M_bind.
  destruct (mapper ctx params n) as [[[request [err|]]|] m] eqn:Em.
  1,3: right; split_and!; [by intros ? ? ? ? (? & _)|first [apply Hfail|done]|done].
  destruct (authorizer_Decide _ _ _ _) as [[[decision [err|]]|] n'] eqn:Ed.
  1,3: right; split_and!; [|first [apply Hfail|done]|done]; intros ? ? ? ? ([= <- <-] & Ed' & _); congruence.
  destruct (outcome_above_Deny _) eqn:Eo.
  { right; split_and!; [|apply Hfail|done]. intros ? ? ? ? ([= <- <-] & Ed' & Ha). rewrite Ed in Ed'. simplify_eq.
    by rewrite Ha in Eo. }
  case_bool_decide as Ha; simpl; [left; by exists request, m, decision, n'|].
  right; split_and!; [|unfold refused|done].
  - intros ? ? ? ? ([= <- <-] & Ed' & Ha'). rewrite Ed in Ed'. by simplify_eq.
  - destruct (denied configured decision n') as [[e|] k]; simpl; [|done]. split; [done|by eexists].
Qed.

(** ** Theorems *)

(** Only an explicit allow reaches the method handler: a run of a
    constructed middleware either continues as the method handler, on the
    caller's parameters with the decision attached, exactly after an [Allow]
    without error; or returns no result together with an error of the
    module (nil results of the error mappers included), the same whatever
    the method handler is, a nil one included; or panics with a borrowed
    function. *)
Theorem jsonrpc_enforces (authorizer : Authorizer) (mapper : RequestMapper) (middlewareOptions : list Option)
    (wrap : option Handler → Handler) (next : Handler) (ctx : valued_context) (params : string) (n : nat) :
  NewMiddleware (Some authorizer) (Some mapper) middlewareOptions = Ok wrap →
  (∀ request m decision n', granted authorizer mapper ctx params n request m decision n' →
     wrap (Some next) ctx params n = next (withDecision ctx decision) params n') ∧
  ((∀ request m decision n', ¬ granted authorizer mapper ctx params n request m decision n') →
     refused (wrap (Some next) ctx params n) ∧
     ∀ next', wrap next' ctx params n = wrap (Some next) ctx params n).
Proof.
  intros [= <-].
  destruct (middleware_cases (foldl (λ o option, option o) default_options middlewareOptions) authorizer mapper next ctx
    params n) as [(request & m & decision & n' & Hg & Hrun)|(Hno & Href & Hsame)]; split.
  - intros request' m' decision' n'' (Em & Ed & _). rewrite Hrun. destruct Hg as (Em' & Ed' & _). rewrite Em in Em'.
    simplify_eq. rewrite Ed in Ed'. by simplify_eq.
  - intros Hno. by destruct (Hno request m decision n').
  - intros request m decision n' Hg. by destruct (Hno request m decision n').
  - done.
Qed.
End middleware.

Definition text_errors : RPCErrors string :=
  {| NewError _ message := message; InternalError := "Internal error"; WithCause e _ := e |}.

Definition example_mapper : RequestMapper := λ _ _, mret (example_request, None).

Definition method : Handler (E := string) (Any := string) := λ _ params, mret (Some params, None).

Definition deny_everything : Authorizer := mkAuthorizer (λ _ _, mret (bareDecision Deny "no" 1, None)).

Definition example_context : valued_context := mkValued context_Background None.

Lemma jsonrpc_enforces_witness :
  ∃ wrap, @NewMiddleware string string text_errors (Some deny_everything) (Some example_mapper) [] = Ok wrap ∧
    refused (wrap (Some method) example_context "{}" 0%nat) ∧
    wrap (Some method) example_context "{}" 0%nat = (Ret (None, Some (RPCError "Forbidden")), 0%nat).
Proof.
  eexists. split; [reflexivity|].
  destruct (@jsonrpc_enforces string string text_errors deny_everything example_mapper [] _ method example_context "{}"
    0%nat eq_refl) as [_ Hno].
  split; [|reflexivity]. apply Hno. intros request m decision n' (E & Ed & Ha). vm_compute in Ed.
  injection Ed as <- <-. discriminate Ha.
Defined.
End authorizationjsonrpc.
