(* ===== verification/DecisionService.v ===== *)
(** * The revision-fenced decision service (decision_service.go)

    [decisionService] adapts an authorizer: it validates and copies the
    request, contains panics, redacts dependency errors, and grants only an
    explicit allow at the requested policy revision. *)

From S2P Require Import Prelude Attribute Request Decision Snapshot Engine Instrumentation.

#[local] Open Scope Z_scope.

(** ** UTF-8

    [utf8.ValidString]: the ranges of the second byte exclude overlong forms,
    surrogates and code points above U+10FFFF. *)

Definition byte_of (c : Ascii.ascii) : Z := Z.of_N (Ascii.N_of_ascii c).

Definition in_range (low high b : Z) : bool := (low <=? b) && (b <=? high).

(** The number of continuation bytes after a first byte and the range of the
    first of them; [None] for a byte that cannot start a sequence. *)
Definition utf8_first (b : Z) : option (nat * Z * Z) :=
  if b <? 128 then Some (0%nat, 128, 191)
  else if b <? 194 then None
  else if b <? 224 then Some (1%nat, 128, 191)
  else if b =? 224 then Some (2%nat, 160, 191)
  else if b =? 237 then Some (2%nat, 128, 159)
  else if b <? 240 then Some (2%nat, 128, 191)
  else if b =? 240 then Some (3%nat, 144, 191)
  else if b <? 244 then Some (3%nat, 128, 191)
  else if b =? 244 then Some (3%nat, 128, 143)
  else None.

(** [pending] continuation bytes are expected, the next one within a range. *)
Fixpoint utf8_valid_from (pending : nat) (low high : Z) (s : string) : bool :=
  match s with
  | EmptyString => match pending with O => true | _ => false end
  | String c s =>
      match pending with
      | O => match utf8_first (byte_of c) with
             | None => false
             | Some (pending, low, high) => utf8_valid_from pending low high s
             end
      | S pending => in_range low high (byte_of c) && utf8_valid_from pending 128 191 s
      end
  end.

Definition utf8_ValidString (s : string) : bool := utf8_valid_from 0 128 191 s.

(** ** Data *)

Definition ErrDecisionUnavailable := errors_New "authorization decision unavailable".

Record DecisionContext := mkDecisionContext {
  DC_Request : Request;
  DC_CorrelationID : string;
  DC_PolicyRevision : Revision
}.

Definition DecisionContext_Validate (decisionContext : DecisionContext) : option error :=
  match Request_Validate (DC_Request decisionContext) with
  | Some err => Some err
  | None =>
      if DC_PolicyRevision decisionContext =? 0 then Some ErrInvalidRevision
      else if (128 <? Z.of_nat (String.length (DC_CorrelationID decisionContext))) ||
              negb (utf8_ValidString (DC_CorrelationID decisionContext))
      then Some (ValidationErr "decision.correlation")
      else None
  end.

(** ** Copies *)

Section copies.
Context `{GoRuntime}.

Definition cloneAttributes (attributes : Attributes) : Attributes :=
  match attributes with
  | None => None
  | Some m => Some (clone_map m)
  end.

Definition cloneSubject (subject : Subject) : Subject :=
  mkSubject (Subject_Kind subject) (Subject_ID subject) ([] ++ Subject_Groups subject)
    (cloneAttributes (Subject_Attributes subject)).

Definition cloneRequest (request : Request) : Request :=
  let resource := Request_Resource request in
  let environment := Request_Environment request in
  mkRequest (cloneSubject (Request_Subject request)) (Request_Action request)
    (mkResource (Resource_Type resource) (Resource_ID resource) (cloneAttributes (Resource_Attributes resource)))
    (Request_Tenant request)
    (mkEnvironment (Environment_Time environment) (cloneAttributes (Environment_Attributes environment)))
    (cloneAttributes (Request_Attributes request)).

Definition cloneDecision (decision : Decision) : Decision :=
  mkDecision (Decision_Outcome decision) (Decision_Reason decision) ([] ++ Decision_MatchedPolicyIDs decision)
    (Decision_MatchedPolicyIDsTruncated decision) (Decision_Revision decision) ([] ++ Decision_Trace decision)
    (Decision_TraceTruncated decision).

Definition DecisionContext_Clone (decisionContext : DecisionContext) : DecisionContext :=
  mkDecisionContext (cloneRequest (DC_Request decisionContext)) (DC_CorrelationID decisionContext)
    (DC_PolicyRevision decisionContext).

Lemma cloneAttributes_id attributes : cloneAttributes attributes = attributes.
Proof. destruct attributes; simpl; [by rewrite clone_map_id|done]. Qed.

(** Copies have the content of the original. *)
Lemma cloneRequest_id request : cloneRequest request = request.
Proof.
  destruct request as [[? ? ? ?] ? [? ? ?] ? [? ?] ?]. unfold cloneRequest, cloneSubject. simpl.
  by rewrite !cloneAttributes_id.
Qed.

Lemma cloneDecision_id decision : cloneDecision decision = decision.
Proof. by destruct decision. Qed.

(** ** Decide *)

Record decisionService := mkDecisionService { service_authorizer : Authorizer }.

Definition NewDecisionService (authorizer : interface Authorizer) : result decisionService :=
  match authorizer with
  | NilInterface | TypedNil _ => Err ErrNilAuthorizer
  | Implemented authorizer => Ok (mkDecisionService authorizer)
  end.

(** The body without its deferred [recover]; [None] is a nil context. *)
Definition service_body (service : decisionService) (ctx : option Context) (request : DecisionContext)
    (denied : Decision) : M (Decision * option error) :=
  match DecisionContext_Validate request with
  | Some err => mret (denied, Some err)
  | None =>
      match ctx with
      | None => mret (denied, Some ErrInvalidRequest)
      | Some ctx =>
          err ← ctx_Err ctx;
          match err with
          | Some err => mret (denied, Some err)
          | None =>
              '(decision, err) ← authorizer_Decide (service_authorizer service) ctx (cloneRequest (DC_Request request));
              contextError ← ctx_Err ctx;
              mret match contextError with
              | Some contextError => (denied, Some contextError)
              | None =>
                  if bool_decide (is_Some err) then (denied, Some ErrDecisionUnavailable)
                  else if negb (Decision_Revision decision =? DC_PolicyRevision request)
                  then (bareDecision Deny ReasonPolicyStale (DC_PolicyRevision request), Some ErrRevisionConflict)
                  else if negb (bool_decide (Decision_Outcome decision = Allow)) &&
                          negb (bool_decide (Decision_Outcome decision = Deny))
                  then (denied, Some ErrInvalidOutcome)
                  else (cloneDecision decision, None)
              end
          end
      end
  end.

Definition Service_Decide (service : decisionService) (ctx : option Context) (request : DecisionContext) :
    M (Decision * option error) :=
  let denied := bareDecision Deny ReasonEvaluationError (DC_PolicyRevision request) in
  recovering (denied, Some ErrPolicyPanic) (service_body service ctx request denied).

(** ** Theorems *)

(** The errors the service reports. *)
Definition service_error (ctx : option Context) (request : DecisionContext) (e : error) : Prop :=
  DecisionContext_Validate request = Some e ∨ (ctx = None ∧ e = ErrInvalidRequest) ∨
  (∃ c m, ctx = Some c ∧ Err_at c m = Some e) ∨
  e ∈ [ErrDecisionUnavailable; ErrRevisionConflict; ErrInvalidOutcome; ErrPolicyPanic].
End copies.

(** C25. The service is total and fails closed for any authorizer, even one
    that panics: every call returns a decision; an error comes with a deny
    at the requested revision, is never a raw dependency error, and an
    answer without error is an explicit allow or deny, equal to what the
    authorizer returned without error for the request, at exactly the
    requested revision, under a context live before and after. *)
Theorem Service_fail_closed `{GoRuntime} (service : decisionService) (ctx : option Context)
    (request : DecisionContext) (n : nat) :
  ∃ d err n', Service_Decide service ctx request n = (Ret (d, err), n') ∧
    Decision_Revision d = DC_PolicyRevision request ∧
    match err with
    | Some e => Decision_Outcome d = Deny ∧ Decision_MatchedPolicyIDs d = [] ∧ service_error ctx request e
    | None => (Decision_Outcome d = Allow ∨ Decision_Outcome d = Deny) ∧
        DecisionContext_Validate request = None ∧
        ∃ c m, ctx = Some c ∧ Err_at c n = None ∧ Err_at c m = None ∧
          authorizer_Decide (service_authorizer service) c (DC_Request request) (S n) = (Ret (d, None), m)
    end.
Proof.
  unfold Service_Decide, recovering, service_body.
  destruct (DecisionContext_Validate request) as [e|] eqn:Ev.
  { eexists _, (Some e), n. split_and!; [done..|]. by left. }
  destruct ctx as [c|].
  2: { eexists _, (Some _), n. split_and!; [done..|]. by right; left. }
  rewrite ctx_Err_bind. destruct (Err_at c n) as [e|] eqn:Ec.
  { eexists _, (Some e), (S n). split_and!; [done..|]. right; right; left. by exists c, n. }
  rewrite cloneRequest_id.
  destruct (authorizer_Decide (service_authorizer service) c (DC_Request request) (S n)) as [[[d err]|] m] eqn:Ed.
  2: { rewrite (M_bind_Panic _ _ _ _ Ed). eexists _, (Some _), m. split_and!; [done..|]. do 3 right. set_solver. }
  rewrite (M_bind_Ret _ _ _ _ _ Ed). cbn iota beta. rewrite ctx_Err_bind. cbn.
  destruct (Err_at c m) as [e|] eqn:Ec'.
  { eexists _, (Some e), (S m). split_and!; [done..|]. right; right; left. by exists c, m. }
  destruct err as [e|].
  { eexists _, (Some _), (S m). split_and!; [done..|]. do 3 right. set_solver. }
  cbn. destruct (Z.eqb_spec (Decision_Revision d) (DC_PolicyRevision request)) as [Er|Er]; cbn.
  2: { eexists _, (Some _), (S m). split_and!; [done..|]. do 3 right. set_solver. }
  rewrite cloneDecision_id. repeat case_bool_decide; cbn.
  4: { eexists _, (Some _), (S m). split_and!; [done..|]. do 3 right. set_solver. }
  all: eexists _, None, (S m); split_and!; [done|done|by auto|done|exists c, m; by split_and!].
Qed.

(** The service fences revisions: over an engine whose clock returns, a
    request for a revision other than the active snapshot's is never
    allowed; whatever the policies say, the call ends in a deny with an
    error. *)
Theorem Service_fences_revision `{GoRuntime} (engine : Engine) (s : Snapshot) (service : decisionService)
    (ctx : option Context) (request : DecisionContext) (n : nat) `{!ClockTotal (engine_clock engine)} :
  engine_snapshot engine = Some s →
  NewDecisionService (Implemented (engine_authorizer engine)) = Ok service →
  DC_PolicyRevision request ≠ snapshot_revision s →
  ∃ d e n', Service_Decide service ctx request n = (Ret (d, Some e), n') ∧ Decision_Outcome d = Deny.
Proof.
  intros Hs [= <-] Hne.
  destruct (Service_Decide (mkDecisionService (engine_authorizer engine)) ctx request n) as [r n'] eqn:E.
  revert E. unfold Service_Decide, recovering, service_body.
  destruct (DecisionContext_Validate request) as [e|].
  { intros [= <- <-]. by eexists _, e, n. }
  destruct ctx as [c|]; [|intros [= <- <-]; by eexists _, _, n].
  rewrite ctx_Err_bind. destruct (Err_at c n) as [e|]; [intros [= <- <-]; by eexists _, e, (S n)|].
  rewrite cloneRequest_id. simpl.
  destruct (engine_decides_with engine c s (DC_Request request) (S n)) as ([d err] & m & Ed & Hrev & _).
  assert (Engine_Decide engine c (DC_Request request) (S n) = (Ret (d, err), m)) as Ed'
    by (unfold Engine_Decide, load_snapshot; rewrite Hs; done).
  rewrite (M_bind_Ret _ _ _ _ _ Ed'). cbn iota beta. rewrite ctx_Err_bind. cbn. simpl in Hrev.
  destruct (Err_at c m) as [e|]; [intros [= <- <-]; by eexists _, e, (S m)|].
  destruct err as [e|]; [intros [= <- <-]; by eexists _, _, (S m)|]. cbn.
  rewrite (proj2 (Z.eqb_neq _ _)) by congruence. cbn. intros [= <- <-]. by eexists _, _, (S m).
Qed.

Lemma Service_fences_revision_witness :
  ∃ d e n', @Service_Decide plain_runtime (mkDecisionService (engine_authorizer (@example_engine plain_runtime allow_snapshot)))
      (Some context_Background) (mkDecisionContext example_request "" 99) 0%nat = (Ret (d, Some e), n') ∧
    Decision_Outcome d = Deny.
Proof.
  apply (@Service_fences_revision plain_runtime (@example_engine plain_runtime allow_snapshot) allow_snapshot
    _ (Some context_Background) (mkDecisionContext example_request "" 99) 0%nat (@now_total plain_runtime) eq_refl eq_refl).
  vm_compute. discriminate.
Defined.
