(* ===== verification/Authn.v ===== *)
(** * Subjects of authenticated principals (authn/authn.go)

    Module [authn] is the package: [Subject] maps a principal's claims to the
    attributes and groups of a subject. A claim has the Go type [any], of
    which the code distinguishes the types below; the order in which the
    mapping visits the configured claims comes from the runtime. *)

From Stdlib Require Import SpecFloat.
From S2P Require Import Prelude Strconv GoStrings NetIP Attribute FloatText Request.

#[local] Open Scope Z_scope.

Module authn.

(** ** Data *)

Definition defaultMaxGroups : Z := 100.

Definition ErrNilPrincipal := errors_New "authorization authentication principal is nil".
Definition ErrAnonymousPrincipal := errors_New "authorization authentication principal is anonymous".
Definition ErrInvalidPrincipal := errors_New "authorization authentication principal is invalid".
Definition ErrInvalidConfig := errors_New "authorization authentication mapping config is invalid".
Definition ErrMissingClaim := errors_New "authorization authentication claim is missing".
Definition ErrUnsupportedClaim := errors_New "authorization authentication claim type is unsupported".
Definition ErrInvalidGroups := errors_New "authorization authentication groups are invalid".
Definition ErrGroupLimitExceeded := errors_New "authorization authentication group limit exceeded".

Inductive signed_type := Int | Int8 | Int16 | Int32 | Int64.

Inductive unsigned_type := Uint | Uint8 | Uint16 | Uint32 | Uint64.

(** The dynamic types of a claim; [ClaimOther] is any other type. *)
#[warnings="-register-all"]
Inductive claim :=
| ClaimNil
| ClaimString (s : string)
| ClaimBool (b : bool)
| ClaimSigned (type : signed_type) (z : Z)
| ClaimUnsigned (type : unsigned_type) (z : Z)
| ClaimFloat32 (f : spec_float)
| ClaimFloat64 (f : float64)
| ClaimNumber (text : string)
| ClaimTime (t : Time)
| ClaimAddr (a : Addr)
| ClaimStrings (values : list string)
| ClaimList (values : list claim)
| ClaimOther.

Record Principal := mkPrincipal {
  IsAnonymous : M bool;
  principal_Subject : M string;
  Claims : M (gmap string claim)
}.

Record Config := mkConfig {
  Kind : SubjectKind;
  AttributeClaims : gmap string string;
  GroupsClaim : string;
  MaxGroups : Z
}.

(** ** Claims *)

(** [float64(value)] for a [float32]: exact, so only the form changes. *)
Definition float64_of_float32 (f : spec_float) : float64 :=
  match f with
  | S754_finite s m e => binary_normalize 53 1024 (if s then Zneg m else Zpos m) e s
  | _ => f
  end.

Definition unsignedValue (value : Z) : result Value :=
  if max_int64 <? value then Err ErrUnsupportedClaim else Ok (IntValue value).

(** The strings of a [[]any], all of whose elements must be strings. *)
Fixpoint string_elements (values : list claim) : option (list string) :=
  match values with
  | [] => Some []
  | ClaimString s :: values => strings ← string_elements values; Some (s :: strings)
  | _ :: _ => None
  end.

Definition stringCollection (raw : claim) : option (list string) :=
  match raw with
  | ClaimStrings values => Some values
  | ClaimList values => string_elements values
  | _ => None
  end.

Definition claimValue (raw : claim) : result Value :=
  match raw with
  | ClaimNil => Ok NullValue
  | ClaimString value => Ok (StringValue value)
  | ClaimBool value => Ok (BoolValue value)
  | ClaimSigned _ value => Ok (IntValue value)
  | ClaimUnsigned (Uint | Uint64) value => unsignedValue value
  | ClaimUnsigned (Uint8 | Uint16 | Uint32) value => Ok (IntValue value)
  | ClaimFloat32 value => FloatValue (float64_of_float32 value)
  | ClaimFloat64 value => FloatValue value
  | ClaimNumber text =>
      match ParseInt text with
      | Some integer => Ok (IntValue integer)
      | None =>
          match ParseFloat text with
          | None => Err ErrUnsupportedClaim
          | Some floating => FloatValue floating
          end
      end
  | ClaimTime value => Ok (TimeValue value)
  | ClaimAddr value => Ok (IPValue value)
  | ClaimStrings value => Ok (StringSetValue value)
  | ClaimList _ =>
      match stringCollection raw with
      | None => Err ErrUnsupportedClaim
      | Some strings => Ok (StringSetValue strings)
      end
  | ClaimOther => Err ErrUnsupportedClaim
  end.

(** ** Subject *)

(** The loop that checks the names of the mapping. *)
Fixpoint names_invalid (mapping : list (string * string)) : bool :=
  match mapping with
  | [] => false
  | (attribute, claim) :: mapping =>
      bool_decide (attribute = "") || bool_decide (claim = "") || names_invalid mapping
  end.

Fixpoint attribute_loop (claims : gmap string claim) (attributes : gmap string Value)
    (mapping : list (string * string)) : result (gmap string Value) :=
  match mapping with
  | [] => Ok attributes
  | (attribute, name) :: mapping =>
      match claims !! name with
      | None => Err (fmt_Errorf "claim %q: %w" [FmtString name] ErrMissingClaim)
      | Some raw =>
          match claimValue raw with
          | Err err => Err (fmt_Errorf "claim %q: %w" [FmtString name] err)
          | Ok value => attribute_loop claims (<[attribute := value]> attributes) mapping
          end
      end
  end.

(** The groups of the claim: every name nonempty. *)
Definition subject_groups (claims : gmap string claim) (config : Config) (maxGroups : Z) : result (list SubjectID) :=
  if bool_decide (GroupsClaim config = "") then Ok []
  else
    match claims !! GroupsClaim config with
    | None => Err (fmt_Errorf "claim %q: %w" [FmtString (GroupsClaim config)] ErrMissingClaim)
    | Some raw =>
        match stringCollection raw with
        | None => Err ErrInvalidGroups
        | Some values =>
            if maxGroups <? len values then Err ErrGroupLimitExceeded
            else if existsb (λ value, bool_decide (value = "")) values then Err ErrInvalidGroups
            else Ok values
        end
    end.

(** The identity is read twice: for the check and for the result. *)
Definition Subject `{GoRuntime} (principal : option Principal) (config : Config) :
    M (result Request.Subject) :=
  match principal with
  | None => mret (Err ErrNilPrincipal)
  | Some principal =>
      anonymous ← IsAnonymous principal;
      if (anonymous : bool) then mret (Err ErrAnonymousPrincipal)
      else
        id ← principal_Subject principal;
        if bool_decide (id = "") then mret (Err ErrInvalidPrincipal)
        else if bool_decide (Kind config = "") || (MaxGroups config <? 0) then mret (Err ErrInvalidConfig)
        else
          let maxGroups := if MaxGroups config =? 0 then defaultMaxGroups else MaxGroups config in
          if names_invalid (range_map 0 (AttributeClaims config)) then mret (Err ErrInvalidConfig)
          else
            claims ← Claims principal;
            match attribute_loop claims ∅ (range_map 1 (AttributeClaims config)) with
            | Err err => mret (Err err)
            | Ok attributes =>
                match subject_groups claims config maxGroups with
                | Err err => mret (Err err)
                | Ok groups =>
                    id ← principal_Subject principal;
                    mret (Ok (mkSubject (Kind config) id groups (Some attributes)))
                end
            end
  end.

(** ** Specification *)

(** A principal whose methods return the same values on every call. *)
Record stable (p : Principal) (anonymous : bool) (id : string) (claims : gmap string claim) : Prop := {
  stable_anonymous : ∀ n, ∃ n', IsAnonymous p n = (Ret anonymous, n');
  stable_subject : ∀ n, ∃ n', principal_Subject p n = (Ret id, n');
  stable_claims : ∀ n, ∃ n', Claims p n = (Ret claims, n')
}.

Record config_ok (config : Config) : Prop := {
  ok_kind : Kind config ≠ "";
  ok_groups : 0 ≤ MaxGroups config;
  ok_names : ∀ attribute name, AttributeClaims config !! attribute = Some name → attribute ≠ "" ∧ name ≠ ""
}.

(** The widths of the integer types. *)
Definition signed_width (type : signed_type) : Z :=
  match type with Int8 => 8 | Int16 => 16 | Int32 => 32 | Int | Int64 => 64 end.

Definition unsigned_width (type : unsigned_type) : Z :=
  match type with Uint8 => 8 | Uint16 => 16 | Uint32 => 32 | Uint | Uint64 => 64 end.

(** A claim holds a value of its Go type: integers of their width, floats of
    their format. *)
Definition claim_ok (raw : claim) : Prop :=
  match raw with
  | ClaimSigned type z => - 2 ^ (signed_width type - 1) ≤ z < 2 ^ (signed_width type - 1)
  | ClaimUnsigned type z => 0 ≤ z < 2 ^ unsigned_width type
  | ClaimFloat32 f => valid_binary 24 128 f = true
  | ClaimFloat64 f => valid_float f
  | _ => True
  end.

(** The same number, with at least as many bits of mantissa. *)
Definition same_number (f g : spec_float) : Prop :=
  match f, g with
  | S754_finite s m e, S754_finite t n d => s = t ∧ d ≤ e ∧ Zpos n = Zpos m * 2 ^ (e - d)
  | _, _ => f = g
  end.

(** A claim that is a list of strings. *)
Definition string_list (raw : claim) (l : list string) : Prop :=
  raw = ClaimStrings l ∨ raw = ClaimList (ClaimString <$> l).

(** The value that a claim stands for: null, string, boolean, time and address
    as they are; an integer that fits int64; a finite float64, which a float32
    is exactly; a JSON number as an integer if its text is one and else as a
    float; a list of strings as the set of its elements. *)
Inductive claim_means : claim → Value → Prop :=
| means_nil : claim_means ClaimNil (mkValue ValueNull "" false 0 zeroFloat 0 AddrZero [])
| means_string s : claim_means (ClaimString s) (mkValue ValueString s false 0 zeroFloat 0 AddrZero [])
| means_bool b : claim_means (ClaimBool b) (mkValue ValueBool "" b 0 zeroFloat 0 AddrZero [])
| means_signed type z : claim_means (ClaimSigned type z) (mkValue ValueInt "" false z zeroFloat 0 AddrZero [])
| means_unsigned type z :
    z < 2 ^ 63 → claim_means (ClaimUnsigned type z) (mkValue ValueInt "" false z zeroFloat 0 AddrZero [])
| means_float32 f g :
    float_finite f → same_number f g → valid_float g →
    claim_means (ClaimFloat32 f) (mkValue ValueFloat "" false 0 g 0 AddrZero [])
| means_float64 f : float_finite f → claim_means (ClaimFloat64 f) (mkValue ValueFloat "" false 0 f 0 AddrZero [])
| means_integer text z :
    ParseInt text = Some z → claim_means (ClaimNumber text) (mkValue ValueInt "" false z zeroFloat 0 AddrZero [])
| means_number text f :
    ParseInt text = None → ParseFloat text = Some f → float_finite f →
    claim_means (ClaimNumber text) (mkValue ValueFloat "" false 0 f 0 AddrZero [])
| means_time t : claim_means (ClaimTime t) (mkValue ValueTime "" false 0 zeroFloat t AddrZero [])
| means_addr a : claim_means (ClaimAddr a) (mkValue ValueIP "" false 0 zeroFloat 0 (addr_Unmap a) [])
| means_strings raw l set :
    string_list raw l → strictly_sorted set → (∀ x, x ∈ set ↔ x ∈ l) →
    claim_means raw (mkValue ValueStringSet "" false 0 zeroFloat 0 AddrZero set).

(** The float that a claim gives, finite or not. *)
Definition claim_float (raw : claim) : option spec_float :=
  match raw with
  | ClaimFloat32 f | ClaimFloat64 f => Some f
  | ClaimNumber text => match ParseInt text with Some _ => None | None => ParseFloat text end
  | _ => None
  end.

(** A claim that stands for no value: a float that is not finite, or a type
    or text that is not supported. *)
Definition rejected (raw : claim) (err : error) : Prop :=
  (∀ v, ¬ claim_means raw v) ∧
  err = match claim_float raw with Some _ => ErrInvalidFloat | None => ErrUnsupportedClaim end.

(** The attributes of a subject: one for each configured claim, with the value
    that the claim stands for. *)
Definition attributes_of (claims : gmap string claim) (config : Config) (attributes : gmap string Value) : Prop :=
  ∀ attribute, match AttributeClaims config !! attribute with
               | None => attributes !! attribute = None
               | Some name => ∃ raw v, claims !! name = Some raw ∧ claim_means raw v ∧ attributes !! attribute = Some v
               end.

Definition max_groups (config : Config) : Z := if MaxGroups config =? 0 then 100 else MaxGroups config.

Definition groups_of (claims : gmap string claim) (config : Config) (groups : list string) : Prop :=
  (GroupsClaim config = "" ∧ groups = []) ∨
  (GroupsClaim config ≠ "" ∧ (∃ raw, claims !! GroupsClaim config = Some raw ∧ string_list raw groups) ∧
   len groups ≤ max_groups config ∧ "" ∉ groups).

(** The subject that a principal with these claims maps to. *)
Record subject_of (id : string) (claims : gmap string claim) (config : Config)
    (s : Request.Subject) : Prop := {
  of_kind : Subject_Kind s = Kind config;
  of_id : Subject_ID s = id;
  of_groups : groups_of claims config (Subject_Groups s);
  of_attributes : ∃ attributes, Subject_Attributes s = Some attributes ∧ attributes_of claims config attributes
}.

(** Why the groups cannot be mapped. *)
Inductive groups_failure (claims : gmap string claim) (config : Config) : error → Prop :=
| groups_missing :
    GroupsClaim config ≠ "" → claims !! GroupsClaim config = None →
    groups_failure claims config (fmt_Errorf "claim %q: %w" [FmtString (GroupsClaim config)] ErrMissingClaim)
| groups_type raw :
    GroupsClaim config ≠ "" → claims !! GroupsClaim config = Some raw → (∀ l, ¬ string_list raw l) →
    groups_failure claims config ErrInvalidGroups
| groups_limit raw l :
    GroupsClaim config ≠ "" → claims !! GroupsClaim config = Some raw → string_list raw l → max_groups config < len l →
    groups_failure claims config ErrGroupLimitExceeded
| groups_unnamed raw l :
    GroupsClaim config ≠ "" → claims !! GroupsClaim config = Some raw → string_list raw l → len l ≤ max_groups config →
    "" ∈ l → groups_failure claims config ErrInvalidGroups.

(** Why a mapping fails after its configuration is admitted: a configured claim
    is missing or rejected, or else the groups cannot be mapped. *)
Inductive mapping_failure (claims : gmap string claim) (config : Config) : error → Prop :=
| failure_missing attribute name :
    AttributeClaims config !! attribute = Some name → claims !! name = None →
    mapping_failure claims config (fmt_Errorf "claim %q: %w" [FmtString name] ErrMissingClaim)
| failure_rejected attribute name raw err :
    AttributeClaims config !! attribute = Some name → claims !! name = Some raw → rejected raw err →
    mapping_failure claims config (fmt_Errorf "claim %q: %w" [FmtString name] err)
| failure_groups err attributes :
    attributes_of claims config attributes → groups_failure claims config err → mapping_failure claims config err.

(** A value of an attribute: well formed, an integer within int64. *)
Definition value_typed (v : Value) : Prop :=
  Value_wf v ∧ (kind v = ValueInt → - 2 ^ 63 ≤ intVal v < 2 ^ 63).

(** ** Lemmas *)

Section lemmas.

Lemma names_invalid_false mapping :
  names_invalid mapping = false ↔ ∀ attribute name, (attribute, name) ∈ mapping → attribute ≠ "" ∧ name ≠ "".
Proof.
  induction mapping as [|[a c] mapping IH]; simpl.
  { split; [|done]. intros _ a c ?%elem_of_nil. done. }
  rewrite !orb_false_iff, !bool_decide_eq_false, IH. setoid_rewrite elem_of_cons. split.
  - intros [[? ?] Hm] a' c' [[= -> ->]|Hin]; [done|]. by apply Hm.
  - intros Hm. split; [by apply Hm; left|]. intros a' c' Hin. apply Hm. by right.
Qed.

(** *** Claims *)

(** Converting a float32 shifts its mantissa to the precision of float64. *)
Lemma float64_of_float32_exact f :
  valid_binary 24 128 f = true → same_number f (float64_of_float32 f) ∧ valid_float (float64_of_float32 f).
Proof.
  destruct f as [s|s| |s m e]; try by split. cbn [valid_binary float64_of_float32]. intros Hb.
  unfold bounded, canonical_mantissa in Hb. apply andb_prop in Hb as [H1%Z.eqb_eq H2%Z.leb_le].
  set (d := Z.pos (digits2_pos m)) in *. set (t := fexp64 (d + e)).
  assert (t < e ∧ 0 < d) as [Ht Hd] by (unfold t, fexp, SpecFloat.emin in *; lia).
  assert (∃ n, Zpos n = Zpos m * 2 ^ (e - t) ∧ shl_align m e t = (n, t)) as (n & Hn & Eshl).
  { unfold shl_align. destruct (t - e) as [|q|q] eqn:E; [lia|lia|]. exists (Zpower.shift_pos q m). split; [|done].
    replace (e - t) with (Z.pos q) by lia. rewrite Zpower.shift_pos_correct. apply Z.mul_comm. }
  assert (bounded 53 1024 n t = true) as Hbn.
  { unfold bounded, canonical_mantissa. apply andb_true_intro. rewrite Z.eqb_eq, Z.leb_le. split.
    - change (Z.pos (digits2_pos n)) with (Zdigits2 (Z.pos n)). rewrite Hn, Zdigits2_shift by lia.
      change (Zdigits2 (Z.pos m)) with d. replace (d + (e - t) + t) with (d + e) by lia. done.
    - unfold fexp, SpecFloat.emin in *. lia. }
  assert (binary_normalize 53 1024 (if s then Z.neg m else Z.pos m) e s = S754_finite s n t) as ->.
  { transitivity (binary_round 53 1024 s m e); [by destruct s|]. unfold binary_round. fold d. fold t. rewrite Eshl.
    pose proof (round_exact s n t 0 Hbn ltac:(lia)) as Hr. by rewrite Z.mul_1_r, Z.sub_0_r in Hr. }
  split; [by split_and!; [|lia|]|exact Hbn].
Qed.

Lemma string_elements_spec values l : string_elements values = Some l ↔ values = ClaimString <$> l.
Proof.
  revert l. induction values as [|raw values IH]; intros l; destruct l as [|str l]; csimpl; try done.
  - destruct raw; try done. by destruct (string_elements values).
  - destruct raw as [|str'| | | | | | | | | | |]; try done. specialize (IH l).
    destruct (string_elements values) as [k|]; simpl.
    + split; [intros [= -> ->]; f_equal; by apply IH|]. intros [= -> E]. apply IH in E. by simplify_eq.
    + split; [done|]. intros [= -> E]. apply IH in E. by simplify_eq.
Qed.

Lemma stringCollection_spec raw l : stringCollection raw = Some l ↔ string_list raw l.
Proof.
  unfold string_list. destruct raw; simpl; try (split; [done|by intros [?|?]]).
  - split; [intros [= ->]; by left|by intros [[= ->]|?]].
  - rewrite string_elements_spec. split; [intros ->; by right|by intros [?|[= ->]]].
Qed.

Lemma FloatValue_cases f :
  match FloatValue f with
  | Ok v => float_finite f ∧ v = mkValue ValueFloat "" false 0 f 0 AddrZero []
  | Err e => e = ErrInvalidFloat ∧ ¬ float_finite f
  end.
Proof. by destruct f; simpl; split; tauto. Qed.

Lemma means_collection raw l : string_list raw l → claim_means raw (StringSetValue l).
Proof.
  intros Hl. destruct (StringSetValue_set l) as [Hs Hin]. by apply (means_strings raw l (setVal (StringSetValue l))).
Qed.

(** The mapping of one claim. *)
Lemma claimValue_spec raw :
  claim_ok raw → match claimValue raw with Ok v => claim_means raw v | Err e => rejected raw e end.
Proof.
  destruct raw as [|str|b|type z|type z|f|f|text|t|a|values|values|]; cbn [claimValue claim_ok]; intros Hok;
    try (by constructor).
  - assert (z < 2 ^ 63 ∨ (type = Uint ∨ type = Uint64)) as Hz by (destruct type; cbn in Hok; auto; left; lia).
    assert (match unsignedValue z with
            | Ok v => claim_means (ClaimUnsigned type z) v | Err e => rejected (ClaimUnsigned type z) e end) as Hu.
    { unfold unsignedValue. change max_int64 with (2 ^ 63 - 1). destruct (Z.ltb_spec (2 ^ 63 - 1) z); [|constructor; lia].
      split; [|done]. intros v Hv. inversion Hv as [| | | |? ? ?| | | | | | |? ? ? [?|?]]; [lia|done..]. }
    destruct type; try exact Hu; constructor; destruct Hz as [?|[?|?]]; done.
  - destruct (float64_of_float32_exact f Hok) as [Hn Hv]. pose proof (FloatValue_cases (float64_of_float32 f)) as Hf.
    assert (float_finite (float64_of_float32 f) → float_finite f) as Hfin.
    { destruct f as [?|?| |? ? ?]; simpl; done. }
    destruct (FloatValue _) as [v|e].
    + destruct Hf as [Hg ->]. constructor; auto.
    + destruct Hf as [-> Hno]. split; [|done]. intros v Hm. inversion Hm as [| | | | |? g Hff Hgn Hgv| | | | | |? ? ? [?|?]]; [|done..]. subst.
      apply Hno. by destruct f as [?|?| |? ? ?], (float64_of_float32 _) as [?|?| |? ? ?].
  - pose proof (FloatValue_cases f) as Hf. destruct (FloatValue f) as [v|e]; [destruct Hf as [? ->]; by constructor|].
    destruct Hf as [-> Hno]. split; [|done]. intros v Hm. by inversion Hm as [| | | | | | | | | | |? ? ? [?|?]].
  - destruct (ParseInt text) as [z|] eqn:Ei; [by constructor|]. destruct (ParseFloat text) as [f|] eqn:Ef.
    + pose proof (FloatValue_cases f) as Hf. destruct (FloatValue f) as [v|e]; [destruct Hf as [? ->]; by constructor|].
      destruct Hf as [-> Hno]. split; [|simpl; by rewrite Ei, Ef]. intros v Hm.
      inversion Hm as [| | | | | | | | | | |? ? ? [?|?]]; by simplify_eq.
    + split; [|simpl; by rewrite Ei, Ef]. intros v Hm. inversion Hm as [| | | | | | | | | | |? ? ? [?|?]]; simplify_eq.
  - apply means_collection. by left.
  - pose proof (stringCollection_spec (ClaimList values)) as Hc. destruct (stringCollection (ClaimList values)) as [l|].
    + apply means_collection. by apply Hc.
    + split; [|done]. intros v Hm. inversion Hm as [| | | | | | | | | | |? l ? Hl]. subst. by apply Hc in Hl.
  - split; [|done]. intros v Hm. by inversion Hm as [| | | | | | | | | | |? ? ? [?|?]].
Qed.

Lemma string_list_unique raw l k : string_list raw l → string_list raw k → l = k.
Proof. rewrite <- !stringCollection_spec. congruence. Qed.

(** A float32 has one canonical form as a float64. *)
Lemma same_number_unique f g h : same_number f g → same_number f h → valid_float g → valid_float h → g = h.
Proof.
  destruct f as [s|s| |s m e]; simpl; try congruence.
  destruct g as [| | |t n d], h as [| | |t' n' d']; try done. intros (<- & Hd & Hn) (<- & Hd' & Hn') [Hc _]%bounded_spec [Hc' _]%bounded_spec.
  assert (d = d') as <-; [|f_equal; lia].
  rewrite Hn, Zdigits2_shift in Hc by lia. rewrite Hn', Zdigits2_shift in Hc' by lia.
  replace (Zdigits2 (Z.pos m) + (e - d) + d) with (Zdigits2 (Z.pos m) + (e - d') + d') in Hc by lia. congruence.
Qed.

Lemma claim_means_unique raw v w : claim_means raw v → claim_means raw w → v = w.
Proof.
  intros Hv Hw. destruct Hv as [| | | | |f g ? ? ?| | | | | |raw l set Hl Hs Hin]; inversion Hw as [| | | | |? g' ? ? ?| | | | | |? l' set' Hl' Hs' Hin']; simplify_eq; try done;
    try (by destruct Hl as [?|?]); try (by destruct Hl' as [?|?]).
  - by rewrite (same_number_unique f g g').
  - rewrite (string_list_unique _ _ _ Hl Hl') in Hin. f_equal. apply strictly_sorted_ext; [done..|]. intros x. by rewrite Hin, Hin'.
Qed.

Lemma claim_means_typed raw v : claim_ok raw → claim_means raw v → value_typed v.
Proof.
  assert (∀ type, signed_width type - 1 ≤ 63) as Hwidth by (by intros []).
  intros Hok Hv. destruct Hv as [| | |type z|type z ?|f g ? Hg ?|f ?|text z Hz|text f ? ? ?| |a|raw l set ? Hs ?]; split; try done; try (intros _; simpl).
  - specialize (Hwidth type). simpl in Hok. assert (2 ^ (signed_width type - 1) ≤ 2 ^ 63) by (by apply Z.pow_le_mono_r). lia.
  - simpl in Hok. lia.
  - by destruct f, g.
  - by destruct f.
  - apply ParseInt_range in Hz. unfold min_int64, max_int64 in Hz. lia.
  - by destruct f.
  - unfold Value_wf. simpl. unfold IPValue. by rewrite addr_Unmap_idempotent.
  - unfold Value_wf. simpl. by rewrite StringSetValue_id.
Qed.

(** The loop over the mapping, in any order with distinct attributes. *)
Lemma attribute_loop_cases claims attributes mapping :
  map_Forall (λ _, claim_ok) claims → NoDup mapping.*1 →
  match attribute_loop claims attributes mapping with
  | Ok attributes' =>
      (∀ a c, (a, c) ∈ mapping → ∃ raw v, claims !! c = Some raw ∧ claim_means raw v ∧ attributes' !! a = Some v) ∧
      (∀ a, a ∉ mapping.*1 → attributes' !! a = attributes !! a)
  | Err e => ∃ a c, (a, c) ∈ mapping ∧
      ((claims !! c = None ∧ e = fmt_Errorf "claim %q: %w" [FmtString c] ErrMissingClaim) ∨
       ∃ raw err, claims !! c = Some raw ∧ rejected raw err ∧ e = fmt_Errorf "claim %q: %w" [FmtString c] err)
  end.
Proof.
  intros Hok. revert attributes. induction mapping as [|[a c] mapping IH]; intros attributes Hnd; simpl.
  { split; [|done]. intros a c ?%elem_of_nil. done. }
  csimpl in Hnd. apply NoDup_cons in Hnd as [Ha Hnd].
  destruct (claims !! c) as [raw|] eqn:Ec; [|exists a, c; split; [by left|by left]].
  pose proof (claimValue_spec raw (Hok _ _ Ec)) as Hv. destruct (claimValue raw) as [v|e].
  2: { exists a, c. split; [by left|]. right. by exists raw, e. }
  specialize (IH (<[a:=v]> attributes) Hnd). destruct (attribute_loop _ _ _) as [attributes'|e].
  - destruct IH as [Hin Hout]. split.
    + intros a' c' [[= -> ->]|Hac]%elem_of_cons; [|by apply Hin]. exists raw, v. split; [done|]. split; [done|].
      rewrite Hout by done. apply lookup_insert_eq.
    + intros a' Ha'. csimpl in Ha'. apply not_elem_of_cons in Ha' as [Hne Ha'].
      rewrite Hout by done. by apply lookup_insert_ne.
  - destruct IH as (a' & c' & Hin & He). exists a', c'. split; [by right|done].
Qed.

Lemma subject_groups_cases claims config :
  match subject_groups claims config (max_groups config) with
  | Ok groups => groups_of claims config groups
  | Err e => groups_failure claims config e ∧ ∀ groups, ¬ groups_of claims config groups
  end.
Proof.
  unfold subject_groups, groups_of. case_bool_decide as Hg; [by left|].
  destruct (claims !! GroupsClaim config) as [raw|] eqn:Er; simpl.
  2: { split; [by constructor|]. by intros groups [[? _]|(_ & (? & ? & _) & _)]. }
  pose proof (stringCollection_spec raw) as Hc. destruct (stringCollection raw) as [values|].
  2: { assert (∀ l, ¬ string_list raw l) as Hno by (by intros l ?%Hc). split; [by eapply groups_type|].
       intros groups [[? _]|(_ & (? & [= <-] & Hl) & _)]; [done|by apply Hno in Hl]. }
  assert (string_list raw values) as Hl by (by apply Hc).
  assert (∀ l, string_list raw l → l = values) as Huniq by (intros l ?; by eapply string_list_unique).
  destruct (Z.ltb_spec (max_groups config) (len values)).
  { split; [by eapply groups_limit|]. intros groups [[? _]|(_ & (? & [= <-] & ->%Huniq) & ? & _)]; [done|lia]. }
  destruct (existsb _ values) eqn:Ee.
  - apply existsb_exists in Ee as (x & Hx & ->%bool_decide_eq_true_1). apply list_elem_of_In in Hx.
    split; [by eapply groups_unnamed|]. by intros groups [[? _]|(_ & (? & [= <-] & ->%Huniq) & _ & ?)].
  - right. split; [done|]. split; [by exists raw|]. split; [done|]. intros Hin. apply (not_true_iff_false (existsb _ _)) in Ee. apply Ee.
    apply existsb_exists. exists "". split; [by apply list_elem_of_In|by apply bool_decide_eq_true_2].
Qed.
End lemmas.

Lemma range_map_fst `{GoRuntime} seed {V} (m : gmap string V) : NoDup (range_map seed m).*1.
Proof. rewrite range_map_perm. apply NoDup_fst_map_to_list. Qed.

Lemma config_names `{GoRuntime} seed config :
  names_invalid (range_map seed (AttributeClaims config)) = false ↔
  ∀ attribute name, AttributeClaims config !! attribute = Some name → attribute ≠ "" ∧ name ≠ "".
Proof. rewrite names_invalid_false. by setoid_rewrite elem_of_range_map. Qed.

#[global] Instance config_ok_dec `{GoRuntime} config : Decision (config_ok config).
Proof.
  destruct (decide (Kind config ≠ "")) as [Hk|Hk]; [|right; by intros [? _ _]].
  destruct (decide (0 ≤ MaxGroups config)) as [Hg|Hg]; [|right; by intros [_ ? _]].
  destruct (names_invalid (range_map 0 (AttributeClaims config))) eqn:E.
  - right. intros [_ _ Hn]. apply (config_names 0) in Hn. congruence.
  - left. split; [done..|]. by apply (config_names 0).
Defined.

Lemma attributes_mapped `{GoRuntime} claims config seed :
  map_Forall (λ _, claim_ok) claims →
  match attribute_loop claims ∅ (range_map seed (AttributeClaims config)) with
  | Ok attributes => attributes_of claims config attributes
  | Err e => mapping_failure claims config e ∧ ∀ attributes, ¬ attributes_of claims config attributes
  end.
Proof.
  intros Hok. pose proof (attribute_loop_cases claims ∅ _ Hok (range_map_fst seed (AttributeClaims config))) as Hl.
  destruct (attribute_loop _ _ _) as [attributes|e].
  - destruct Hl as [Hin Hout]. intros a. destruct (AttributeClaims config !! a) as [c|] eqn:E.
    + apply (Hin a c). by apply elem_of_range_map.
    + rewrite Hout; [by rewrite lookup_empty|].
      rewrite list_elem_of_fmap. intros ([a' c] & -> & Hac%elem_of_range_map). simpl in E. congruence.
  - destruct Hl as (a & c & Hac%elem_of_range_map & He). split.
    + destruct He as [[Hn ->]|(raw & err & Hr & Hrej & ->)]; [by eapply failure_missing|by eapply failure_rejected].
    + intros attributes Hat. specialize (Hat a). rewrite Hac in Hat. destruct Hat as (raw & v & Hr & Hm & _).
      destruct He as [[Hn _]|(raw' & err & Hr' & [Hno _] & _)]; [congruence|]. rewrite Hr in Hr'. injection Hr' as <-. by apply (Hno v).
Qed.

Lemma attributes_of_unique claims config attributes attributes' :
  attributes_of claims config attributes → attributes_of claims config attributes' → attributes = attributes'.
Proof.
  intros H1 H2. apply map_eq. intros a. specialize (H1 a). specialize (H2 a). destruct (AttributeClaims config !! a); [|congruence].
  destruct H1 as (raw & v & Hr & Hv & ->), H2 as (raw' & w & Hr' & Hw & ->). f_equal. rewrite Hr in Hr'. injection Hr' as <-.
  by eapply claim_means_unique.
Qed.

Lemma attributes_of_typed claims config attributes a v :
  map_Forall (λ _, claim_ok) claims → attributes_of claims config attributes → attributes !! a = Some v → value_typed v.
Proof.
  intros Hok Hat Hv. specialize (Hat a). destruct (AttributeClaims config !! a); [|congruence].
  destruct Hat as (raw & w & Hr & Hw & E). rewrite Hv in E. injection E as <-. eapply claim_means_typed; [by eapply Hok|done].
Qed.

Lemma groups_of_unique claims config groups groups' :
  groups_of claims config groups → groups_of claims config groups' → groups = groups'.
Proof.
  intros [[? ->]|(? & (raw & Hr & Hl) & _)] [[? ->]|(? & (raw' & Hr' & Hl') & _)]; try done.
  rewrite Hr in Hr'. injection Hr' as <-. by eapply string_list_unique.
Qed.

(** ** Theorems *)

(** C21. [Subject] maps exactly the admissible principals, whatever the order
    in which the mapping is visited: for a principal with stable methods, an
    anonymous or unnamed one and an invalid configuration are rejected
    first; otherwise the result is a subject iff every configured claim
    exists and stands for a value and the groups are nonempty names within
    the limit, and it is then the described one, all of whose attribute
    values are well formed and whose integers fit int64; every other failure
    names its cause: a missing or rejected claim, or else the groups. *)
Theorem authn_Subject_spec `{GoRuntime} (p : Principal) (config : Config) (anonymous : bool)
    (id : string) (claims : gmap string claim) (n : nat) :
  stable p anonymous id claims → map_Forall (λ _, claim_ok) claims →
  ∃ r n', Subject (Some p) config n = (Ret r, n') ∧
    if anonymous then r = Err ErrAnonymousPrincipal
    else if decide (id = "") then r = Err ErrInvalidPrincipal
    else if decide (config_ok config) then
      (∀ s, r = Ok s ↔ subject_of id claims config s) ∧
      (∀ s attribute v, r = Ok s → attributes_lookup (Subject_Attributes s) attribute = Some v → value_typed v) ∧
      (∀ e, r = Err e → mapping_failure claims config e)
    else r = Err ErrInvalidConfig.
Proof.
  intros [Ha Hi Hc] Hok. unfold Subject. destruct (Ha n) as [n1 E1]. rewrite (M_bind_Ret _ _ _ _ _ E1).
  destruct anonymous; [by eexists _, _|]. destruct (Hi n1) as [n2 E2]. rewrite (M_bind_Ret _ _ _ _ _ E2).
  destruct (decide (id = "")) as [->|Hid]; [by eexists _, _|]. rewrite bool_decide_eq_false_2 by done.
  destruct (decide (config_ok config)) as [[Hk Hg Hn]|Hbad].
  2: { destruct (_ || _) eqn:E; [by eexists _, _|]. destruct (names_invalid _) eqn:En; [by eexists _, _|].
       destruct Hbad. reflect_bools. split; [done|done|by apply (config_names 0)]. }
  rewrite bool_decide_eq_false_2, (proj2 (Z.ltb_ge _ _)), (proj2 (config_names 0 config)) by done. simpl.
  destruct (Hc n2) as [n3 E3]. rewrite (M_bind_Ret _ _ _ _ _ E3).
  change (if MaxGroups config =? 0 then defaultMaxGroups else MaxGroups config) with (max_groups config).
  pose proof (attributes_mapped claims config 1 Hok) as Hat. destruct (attribute_loop _ _ _) as [attributes|e].
  2: { destruct Hat as [He Hno]. eexists _, _. split; [done|]. split_and!; [|done|by intros e' [= <-]].
       intros s. split; [done|]. intros [_ _ _ (attributes & _ & Hat)]. by destruct (Hno attributes). }
  pose proof (subject_groups_cases claims config) as Hgr. destruct (subject_groups _ _ _) as [groups|e].
  2: { destruct Hgr as [He Hno]. eexists _, _. split; [done|]. split_and!; [|done|intros e' [= <-]; by eapply failure_groups].
       intros s. split; [done|]. intros [_ _ Hgs _]. by destruct (Hno (Subject_Groups s)). }
  destruct (Hi n3) as [n4 E4]. rewrite (M_bind_Ret _ _ _ _ _ E4). eexists _, _. split; [done|]. split_and!; [|..|done].
  - intros [k i gs as_]. split.
    + intros [= <- <- <- <-]. split; [done..|]. by exists attributes.
    + intros [Hsk Hsi Hsg (attributes' & Hsa & Hat')]; simpl in *. subst k i as_. f_equal.
      by rewrite (groups_of_unique _ _ _ _ Hgr Hsg), (attributes_of_unique _ _ _ _ Hat Hat').
  - intros s a v [= <-]. simpl. by apply (attributes_of_typed claims config).
Qed.

Definition example_claims : gmap string claim :=
  {["dept" := ClaimString "engineering"; "level" := ClaimNumber "-7"; "score" := ClaimNumber "2.5";
    "active" := ClaimBool true; "seat" := ClaimUnsigned Uint64 12; "teams" := ClaimList [ClaimString "core"]]}.

Lemma example_claims_ok : map_Forall (λ _, claim_ok) example_claims.
Proof. unfold example_claims. repeat apply map_Forall_insert_2; try apply map_Forall_singleton; done. Qed.

Definition example_principal : Principal := mkPrincipal (mret false) (mret "alice") (mret example_claims).

Definition example_config : Config :=
  mkConfig SubjectUser {["department" := "dept"; "grade" := "level"; "rating" := "score"; "current" := "active"; "seat" := "seat"]}
    "teams" 0.

Definition example_subject : Request.Subject :=
  mkSubject SubjectUser "alice" ["core"]
    (Some {["department" := StringValue "engineering"; "grade" := IntValue (-7); "current" := BoolValue true;
            "seat" := IntValue 12;
            "rating" := mkValue ValueFloat "" false 0 (S754_finite false 5629499534213120 (-51)) 0 AddrZero []]}).

Lemma authn_Subject_spec_witness :
  ∃ r n', @Subject reverse_runtime (Some example_principal) example_config 0%nat = (Ret r, n') ∧
    r = Ok example_subject ∧ subject_of "alice" example_claims example_config example_subject ∧ value_typed (IntValue (-7)).
Proof.
  destruct (@authn_Subject_spec reverse_runtime example_principal example_config false "alice" example_claims 0%nat
    ltac:(split; intros n; by exists n) example_claims_ok) as (r & n' & E & Hr).
  assert (r = Ok example_subject) as Hok by (vm_compute in E; injection E as <- <-; vm_compute; reflexivity).
  exists r, n'. split; [exact E|]. split; [exact Hok|]. clear E. subst r. cbv iota in Hr.
  destruct (decide ("alice" = "")) as [|_]; [done|].
  destruct (decide (config_ok example_config)) as [_|_]; [|discriminate Hr].
  destruct Hr as (Hs & Ht & _). split; [apply Hs; reflexivity|].
  apply (Ht example_subject "grade"); [reflexivity|]. vm_compute. reflexivity.
Defined.
End authn.
