(* ===== verification/Matching.v ===== *)
(** * Collecting matches, deny overriding allow

    The loop shared by [acl.Evaluate] and [rbac.Evaluate]: walk candidates,
    skip the ones that do not match, stop above a match limit, record the
    identifier of each match and let any deny override the allows. The class
    [Matched] says what the loop reads of a candidate. *)

From S2P Require Import Prelude Request Decision.

#[local] Open Scope Z_scope.

Class Matched (A : Type) := {
  match_effect : A → Outcome;
  match_id : A → PolicyID;
  match_allow : ReasonCode;
  match_deny : ReasonCode
}.

(** ** The loop *)

(** [decision.MatchedPolicyIDs = append(...)] and the outcome update. *)
Definition add_match `{Matched A} (decision : Decision) (a : A) : Decision :=
  let '(outcome, reason) :=
    if bool_decide (match_effect a = Deny) then (Deny, match_deny)
    else if bool_decide (Decision_Outcome decision = NotApplicable) then (Allow, match_allow)
    else (Decision_Outcome decision, Decision_Reason decision) in
  mkDecision outcome reason (Decision_MatchedPolicyIDs decision ++ [match_id a])
    (Decision_MatchedPolicyIDsTruncated decision) (Decision_Revision decision)
    (Decision_Trace decision) (Decision_TraceTruncated decision).

(** [None] is the early return with the match-limit error. *)
Fixpoint match_loop `{Matched A} (maxMatches : Z) (skip : A → bool) (decision : Decision)
    (l : list A) : option Decision :=
  match l with
  | [] => Some decision
  | a :: l =>
      if skip a then match_loop maxMatches skip decision l
      else if maxMatches <=? len (Decision_MatchedPolicyIDs decision) then None
      else match_loop maxMatches skip (add_match decision a) l
  end.

(** ** Specification *)

Definition denies `{Matched A} (a : A) : Prop := match_effect a = Deny.

Definition decisive_effect `{Matched A} (a : A) : Prop := match_effect a = Allow ∨ match_effect a = Deny.

#[global] Typeclasses Opaque denies.
#[global] Instance denies_dec `{Matched A} (a : A) : base.Decision (denies a) :=
  decide (match_effect a = Deny).

(** The outcome and reason of a list of matches: deny overrides. *)
Definition verdict `{Matched A} (l : list A) : Outcome * ReasonCode :=
  if decide (Exists denies l) then (Deny, match_deny)
  else match l with [] => (NotApplicable, "") | _ => (Allow, match_allow) end.

(** The decision that reports a list of matches. *)
Definition match_decision `{Matched A} (l : list A) : Decision :=
  mkDecision (verdict l).1 (verdict l).2 (match_id <$> l) false 0 [] false.

(** ** Lemmas *)

Section matching.
Context {A : Type} `{Matched A}.
Implicit Types (a : A) (l : list A).

Lemma add_match_ids d a :
  Decision_MatchedPolicyIDs (add_match d a) = Decision_MatchedPolicyIDs d ++ [match_id a].
Proof. unfold add_match. by repeat case_bool_decide. Qed.

Lemma add_match_outcome d a :
  outcome_valid (Decision_Outcome d) → outcome_valid (Decision_Outcome (add_match d a)).
Proof. unfold add_match. by repeat case_bool_decide. Qed.

Lemma match_loop_outcome max skip d l d' :
  outcome_valid (Decision_Outcome d) → match_loop max skip d l = Some d' →
  outcome_valid (Decision_Outcome d').
Proof.
  revert d. induction l as [|a l IH]; intros d Hd; simpl; [by intros; simplify_eq|].
  destruct (skip a); [by apply IH|]. destruct (_ <=? _); [done|]. apply IH. by apply add_match_outcome.
Qed.

(** The loop adds every candidate it does not skip, or stops above the limit. *)
Lemma match_loop_spec max skip d l :
  len (Decision_MatchedPolicyIDs d) ≤ max →
  match_loop max skip d l =
    if max <? len (Decision_MatchedPolicyIDs d) + len (filter (λ a, skip a = false) l)
    then None else Some (foldl add_match d (filter (λ a, skip a = false) l)).
Proof.
  revert d. induction l as [|a l IH]; intros d Hd.
  { simpl. rewrite (proj2 (Z.ltb_ge _ _)); [done|]. unfold len in *; simpl. lia. }
  simpl. rewrite filter_cons. destruct (skip a); [by apply IH|]. rewrite decide_True by done.
  autorewrite with go. pose proof (len_nonneg (filter (λ a, skip a = false) l)).
  destruct (Z.leb_spec max (len (Decision_MatchedPolicyIDs d))).
  - rewrite (proj2 (Z.ltb_lt _ _)); [done|lia].
  - rewrite IH; rewrite add_match_ids; autorewrite with go; [|lia].
    by rewrite <- Z.add_assoc.
Qed.

Lemma match_loop_app max skip d l1 l2 :
  match_loop max skip d (l1 ++ l2) = match_loop max skip d l1 ≫= λ d', match_loop max skip d' l2.
Proof.
  revert d. induction l1 as [|a l1 IH]; intros d; [done|]. simpl.
  destruct (skip a); [apply IH|]. destruct (_ <=? _); [done|apply IH].
Qed.

Lemma verdict_snoc l a :
  decisive_effect a →
  verdict (l ++ [a]) =
    if bool_decide (match_effect a = Deny) then (Deny, match_deny)
    else if bool_decide ((verdict l).1 = NotApplicable) then (Allow, match_allow) else verdict l.
Proof.
  intros Ha. unfold verdict, decisive_effect in *.
  assert (Exists denies (l ++ [a]) ↔ Exists denies l ∨ match_effect a = Deny) as Hx.
  { rewrite Exists_app, Exists_cons, Exists_nil. unfold denies. tauto. }
  destruct (decide (Exists denies (l ++ [a]))) as [H1|H1], (decide (Exists denies l)) as [H2|H2];
    case_bool_decide; try done; try tauto; simpl; by destruct l.
Qed.

(** Folding the matches from the initial decision reports them. *)
Lemma add_match_verdict l :
  Forall decisive_effect l → foldl add_match (bareDecision NotApplicable "" 0) l = match_decision l.
Proof.
  induction l as [|a l IH] using rev_ind; [done|].
  intros [Hl Ha]%Forall_app. rewrite Forall_singleton in Ha.
  rewrite foldl_app, IH by done. simpl. unfold add_match, match_decision. simpl.
  rewrite fmap_app, (verdict_snoc _ _ Ha). by repeat case_bool_decide.
Qed.

#[global] Instance verdict_proper : Proper ((≡ₚ) ==> (=)) verdict.
Proof.
  intros l l' Hp. unfold verdict.
  destruct (decide (Exists denies l)) as [Hl|Hl], (decide (Exists denies l')) as [Hl'|Hl']; try done.
  - by rewrite Hp in Hl.
  - by rewrite Hp in Hl.
  - destruct l, l'; [done|by apply Permutation_nil_cons in Hp| |done].
    symmetry in Hp. by apply Permutation_nil_cons in Hp.
Qed.

Lemma verdict_allow l : (verdict l).1 = Allow ↔ (0 < length l)%nat ∧ ¬ Exists denies l.
Proof.
  unfold verdict. destruct (decide (Exists denies l)) as [Hl|Hl]; [by split; [|intros [_ ?]]|].
  destruct l; simpl; split; try done; [by intros [?%Nat.lt_irrefl _]|]. intros _. split; [lia|done].
Qed.

Lemma verdict_deny l : (verdict l).1 = Deny ↔ Exists denies l.
Proof. unfold verdict. by destruct (decide _), l. Qed.

Lemma verdict_valid l : outcome_valid (verdict l).1.
Proof. unfold verdict. by destruct (decide _), l. Qed.

End matching.

(** Matches that together grant within a limit; their order does not matter. *)
Definition grant `{Matched A} (max : Z) (l : list A) : Prop :=
  len l ≤ max ∧ (0 < length l)%nat ∧ ¬ Exists denies l.

#[global] Instance grant_proper `{Matched A} max : Proper ((≡ₚ) ==> iff) (grant (A := A) max).
Proof. intros l l' Hp. unfold grant, len. by rewrite Hp. Qed.
