(* ===== verification/ACL.v ===== *)
(** * Access control lists (acl/acl.go)

    Module [acl] is the package: [New] indexes entries by subject, action and
    resource type; [Evaluate] collects the matching entries of the subject and
    its groups, any deny winning; [ListResourceIDs] enumerates the resources a
    subject may act on. *)

From S2P Require Import Prelude Attribute Request Decision Snapshot Engine Matching.

#[local] Open Scope Z_scope.

Module acl.

(** ** Data *)

Definition ErrInvalidEntry := errors_New "invalid ACL entry".
Definition ErrDuplicateEntry := errors_New "duplicate ACL entry".
Definition ErrEntryLimitExceeded := errors_New "ACL entry limit exceeded".
Definition ErrGroupLimitExceeded := errors_New "ACL group limit exceeded".
Definition ErrMatchLimitExceeded := errors_New "ACL match limit exceeded".
Definition ErrBatchLimitExceeded := errors_New "ACL batch limit exceeded".
Definition ErrUnboundedResourceSet := errors_New "ACL resource set is unbounded".

Definition ReasonAllow : ReasonCode := "acl-allow".
Definition ReasonExplicitDeny : ReasonCode := "acl-explicit-deny".
Definition ReasonLimitExceeded : ReasonCode := "acl-limit-exceeded".

Record Limits := mkLimits {
  MaxEntries : Z;
  MaxGroups : Z;
  MaxMatches : Z;
  MaxBatchSize : Z
}.

Definition default_limits : Limits := mkLimits 10000 100 100 1000.

Record Entry := mkEntry {
  Entry_ID : PolicyID;
  Entry_Subject : Subject;
  Entry_Action : Action;
  Entry_ResourceType : ResourceType;
  Entry_ResourceID : ResourceID;
  Entry_Tenant : TenantID;
  Entry_Effect : Outcome
}.

Record entryKey := mkEntryKey {
  key_subjectKind : SubjectKind;
  key_subjectID : SubjectID;
  key_action : Action;
  key_resourceType : ResourceType
}.

#[global] Instance entryKey_eq_dec : EqDecision entryKey.
Proof. solve_decision. Defined.

#[global] Instance entryKey_countable : Countable entryKey.
Proof.
  refine (inj_countable'
    (λ k, (key_subjectKind k, key_subjectID k, key_action k, key_resourceType k))
    (λ '(kind, id, action, type), mkEntryKey kind id action type) _).
  by intros [].
Defined.

Record Evaluator := mkACLEvaluator {
  entries : gmap entryKey (list Entry);
  inheritGlobal : bool;
  limits : Limits
}.

Definition Option := Evaluator → Evaluator.

(** ** Construction *)

Definition WithGlobalInheritance : Option := λ evaluator,
  mkACLEvaluator (entries evaluator) true (limits evaluator).

Definition WithLimits (ls : Limits) : Option := λ evaluator,
  let current := limits evaluator in
  mkACLEvaluator (entries evaluator) (inheritGlobal evaluator)
    (mkLimits (positive_or (MaxEntries ls) (MaxEntries current))
              (positive_or (MaxGroups ls) (MaxGroups current))
              (positive_or (MaxMatches ls) (MaxMatches current))
              (positive_or (MaxBatchSize ls) (MaxBatchSize current))).

Definition entry_invalid (entry : Entry) : bool :=
  bool_decide (Entry_ID entry = "") || bool_decide (Subject_Kind (Entry_Subject entry) = "") ||
  bool_decide (Subject_ID (Entry_Subject entry) = "") || bool_decide (Entry_Action entry = "") ||
  bool_decide (Entry_ResourceType entry = "") ||
  (negb (bool_decide (Entry_Effect entry = Allow)) && negb (bool_decide (Entry_Effect entry = Deny))).

Definition entry_key (entry : Entry) : entryKey :=
  mkEntryKey (Subject_Kind (Entry_Subject entry)) (Subject_ID (Entry_Subject entry))
    (Entry_Action entry) (Entry_ResourceType entry).

(** [indexed[key]]: a missing key is the nil slice. *)
Definition at_key (indexed : gmap entryKey (list Entry)) (key : entryKey) : list Entry :=
  default [] (indexed !! key).

(** The loop of [New] over the entries. *)
Fixpoint index_loop (index : nat) (entryIDs : gset string) (indexed : gmap entryKey (list Entry))
    (es : list Entry) : result (gmap entryKey (list Entry)) :=
  match es with
  | [] => Ok indexed
  | entry :: es =>
      if entry_invalid entry then
        Err (fmt_Errorf "entry %d: %w" [FmtInt (Z.of_nat index)] ErrInvalidEntry)
      else if bool_decide (Entry_ID entry ∈ entryIDs) then
        Err (fmt_Errorf "entry %q: %w" [FmtString (Entry_ID entry)] ErrDuplicateEntry)
      else
        index_loop (S index) ({[Entry_ID entry]} ∪ entryIDs)
          (<[entry_key entry := at_key indexed (entry_key entry) ++ [entry]]> indexed) es
  end.

Definition New (es : list Entry) (options : list Option) : result Evaluator :=
  let evaluator := foldl (λ evaluator option, option evaluator)
                     (mkACLEvaluator ∅ false default_limits) options in
  if MaxEntries (limits evaluator) <? len es then Err ErrEntryLimitExceeded
  else
    indexed ← index_loop 0 ∅ ∅ es;
    Ok (mkACLEvaluator indexed (inheritGlobal evaluator) (limits evaluator)).

(** ** Evaluate *)

Definition limitDecision : Decision := bareDecision Deny ReasonLimitExceeded 0.

Definition canceledDecision : Decision := bareDecision Deny ReasonContextCanceled 0.

Definition matchesTenant (evaluator : Evaluator) (entryTenant requestTenant : TenantID) : bool :=
  if bool_decide (entryTenant = requestTenant) then true
  else if bool_decide (requestTenant = "") then false
  else if negb (bool_decide (entryTenant = "")) then false
  else inheritGlobal evaluator.

(** The subject followed by its groups. *)
Definition principals (subject : Subject) : list (SubjectKind * SubjectID) :=
  (Subject_Kind subject, Subject_ID subject) :: ((λ groupID, (SubjectGroup, groupID)) <$> Subject_Groups subject).

Definition principal_key (action : Action) (type : ResourceType) (principal : SubjectKind * SubjectID) : entryKey :=
  mkEntryKey principal.1 principal.2 action type.

#[global] Instance entry_matched : Matched Entry := {|
  match_effect := Entry_Effect;
  match_id := Entry_ID;
  match_allow := ReasonAllow;
  match_deny := ReasonExplicitDeny
|}.

(** The condition of the [continue] of the entry loop. *)
Definition entry_skip (evaluator : Evaluator) (request : Request) (entry : Entry) : bool :=
  negb (matchesTenant evaluator (Entry_Tenant entry) (Request_Tenant request)) ||
  (negb (bool_decide (Entry_ResourceID entry = "")) &&
   negb (bool_decide (Entry_ResourceID entry = Resource_ID (Request_Resource request)))).

(** The loop over the entries of one principal: [None] is the early return
    with [ErrMatchLimitExceeded]. *)
Definition entry_loop (evaluator : Evaluator) (request : Request) : Decision → list Entry → option Decision :=
  match_loop (MaxMatches (limits evaluator)) (entry_skip evaluator request).

Fixpoint principal_loop (evaluator : Evaluator) (ctx : Context) (request : Request)
    (seenPrincipals : gset entryKey) (decision : Decision)
    (ps : list (SubjectKind * SubjectID)) : M (Decision * option error) :=
  match ps with
  | [] => mret (decision, None)
  | principal :: ps =>
      err ← ctx_Err ctx;
      match err with
      | Some err => mret (canceledDecision, Some err)
      | None =>
          let key := principal_key (Request_Action request) (Resource_Type (Request_Resource request)) principal in
          if bool_decide (key ∈ seenPrincipals)
          then principal_loop evaluator ctx request seenPrincipals decision ps
          else match entry_loop evaluator request decision (at_key (entries evaluator) key) with
               | None => mret (limitDecision, Some ErrMatchLimitExceeded)
               | Some decision =>
                   principal_loop evaluator ctx request ({[key]} ∪ seenPrincipals) decision ps
               end
      end
  end.

Definition Evaluate (evaluator : Evaluator) (ctx : Context) (request : Request) :
    M (Decision * option error) :=
  err ← ctx_Err ctx;
  match err with
  | Some err => mret (canceledDecision, Some err)
  | None =>
      if MaxGroups (limits evaluator) <? len (Subject_Groups (Request_Subject request))
      then mret (limitDecision, Some ErrGroupLimitExceeded)
      else principal_loop evaluator ctx request ∅ (bareDecision NotApplicable "" 0)
             (principals (Request_Subject request))
  end.

(** The evaluator as an implementation of [authorization.Evaluator]. *)
Definition as_evaluator (evaluator : Evaluator) : Snapshot.Evaluator :=
  mkEvaluator (Evaluate evaluator).

(** ** EvaluateBatch *)

Definition EvaluateBatch (evaluator : Evaluator) (ctx : Context) (requests : list Request) :
    M (list Decision * option error) :=
  if MaxBatchSize (limits evaluator) <? len requests
  then mret ([], Some ErrBatchLimitExceeded)
  else
    '(decisions, evaluationErrors) ← batch_loop (Evaluate evaluator ctx) requests;
    mret (decisions, errors_Join (Some <$> evaluationErrors)).

(** ** ListResourceIDs *)

Fixpoint keys_loop (seen : gset entryKey) (ks : list entryKey) : list entryKey :=
  match ks with
  | [] => []
  | key :: ks => if bool_decide (key ∈ seen) then keys_loop seen ks
                 else key :: keys_loop ({[key]} ∪ seen) ks
  end.

Definition principalKeys (subject : Subject) (action : Action) (resourceType : ResourceType) : list entryKey :=
  keys_loop ∅ (principal_key action resourceType <$> principals subject).

(** The locals of [ListResourceIDs]. *)
Record list_state := mkListState {
  resourceEffects : gmap string Outcome;
  typeWideAllow : bool;
  matches : Z
}.

(** The loop over the entries of one key: [inl] is an early return. *)
Fixpoint list_entries (evaluator : Evaluator) (tenant : TenantID) (st : list_state) (es : list Entry) :
    (list ResourceID * option error) + list_state :=
  match es with
  | [] => inr st
  | entry :: es =>
      if matchesTenant evaluator (Entry_Tenant entry) tenant then
        if MaxMatches (limits evaluator) <=? matches st then inl ([], Some ErrMatchLimitExceeded)
        else if bool_decide (Entry_ResourceID entry = "") then
          if bool_decide (Entry_Effect entry = Deny) then inl ([], None)
          else list_entries evaluator tenant (mkListState (resourceEffects st) true (matches st + 1)) es
        else if bool_decide (Entry_Effect entry = Deny) ||
                bool_decide (default NotApplicable (resourceEffects st !! Entry_ResourceID entry) = NotApplicable)
        then list_entries evaluator tenant
               (mkListState (<[Entry_ResourceID entry := Entry_Effect entry]> (resourceEffects st))
                  (typeWideAllow st) (matches st + 1)) es
        else list_entries evaluator tenant
               (mkListState (resourceEffects st) (typeWideAllow st) (matches st + 1)) es
      else list_entries evaluator tenant st es
  end.

Fixpoint list_keys (evaluator : Evaluator) (ctx : Context) (tenant : TenantID) (st : list_state)
    (keys : list entryKey) : M ((list ResourceID * option error) + list_state) :=
  match keys with
  | [] => mret (inr st)
  | key :: keys =>
      err ← ctx_Err ctx;
      match err with
      | Some err => mret (inl ([], Some err))
      | None =>
          match list_entries evaluator tenant st (at_key (entries evaluator) key) with
          | inl early => mret (inl early)
          | inr st => list_keys evaluator ctx tenant st keys
          end
      end
  end.

(** The resources of the map whose effect is [Allow], sorted. *)
Definition allowed_ids `{GoRuntime} (effects : gmap string Outcome) : list ResourceID :=
  slices_Sort (omap (λ '(resourceID, effect), if bool_decide (effect = Allow) then Some resourceID else None)
                 (range_map 0 effects)).

Definition ListResourceIDs `{GoRuntime} (evaluator : Evaluator) (ctx : Context) (subject : Subject)
    (action : Action) (resourceType : ResourceType) (tenant : TenantID) :
    M (list ResourceID * option error) :=
  err ← ctx_Err ctx;
  match err with
  | Some err => mret ([], Some err)
  | None =>
      if MaxGroups (limits evaluator) <? len (Subject_Groups subject)
      then mret ([], Some ErrGroupLimitExceeded)
      else
        r ← list_keys evaluator ctx tenant (mkListState ∅ false 0) (principalKeys subject action resourceType);
        mret match r with
             | inl early => early
             | inr st =>
                 if typeWideAllow st then ([], Some ErrUnboundedResourceSet)
                 else (allowed_ids (resourceEffects st), None)
             end
  end.

(** ** Specification *)

(** An entry concerns a request: it names the subject or one of its groups,
    the action and the type; its tenant is the request's, or it is global and
    inheritance is on; its resource is the request's or type-wide. *)
Definition names_principal (subject : Subject) (e : Entry) : Prop :=
  (Subject_Kind (Entry_Subject e) = Subject_Kind subject ∧ Subject_ID (Entry_Subject e) = Subject_ID subject) ∨
  (Subject_Kind (Entry_Subject e) = SubjectGroup ∧ Subject_ID (Entry_Subject e) ∈ Subject_Groups subject).

Definition tenant_applies (inherit : bool) (entryTenant requestTenant : TenantID) : Prop :=
  entryTenant = requestTenant ∨ inherit = true ∧ entryTenant = "".

Definition addresses (inherit : bool) (subject : Subject) (action : Action) (type : ResourceType)
    (tenant : TenantID) (e : Entry) : Prop :=
  names_principal subject e ∧ Entry_Action e = action ∧ Entry_ResourceType e = type ∧
  tenant_applies inherit (Entry_Tenant e) tenant.

Definition covers (rid : ResourceID) (e : Entry) : Prop :=
  Entry_ResourceID e = "" ∨ Entry_ResourceID e = rid.

Definition concerns (inherit : bool) (request : Request) (e : Entry) : Prop :=
  addresses inherit (Request_Subject request) (Request_Action request)
    (Resource_Type (Request_Resource request)) (Request_Tenant request) e ∧
  covers (Resource_ID (Request_Resource request)) e.

#[global] Typeclasses Opaque names_principal tenant_applies addresses covers concerns.

#[global] Instance names_principal_dec subject e : base.Decision (names_principal subject e).
Proof. unfold names_principal. apply _. Defined.
#[global] Instance tenant_applies_dec inherit t t' : base.Decision (tenant_applies inherit t t').
Proof. unfold tenant_applies. apply _. Defined.
#[global] Instance addresses_dec inherit subject action type tenant e :
  base.Decision (addresses inherit subject action type tenant e).
Proof. unfold addresses. apply _. Defined.
#[global] Instance covers_dec rid e : base.Decision (covers rid e).
Proof. unfold covers. apply _. Defined.
#[global] Instance concerns_dec inherit request e : base.Decision (concerns inherit request e).
Proof. unfold concerns. apply _. Defined.

Definition entry_ok (e : Entry) : Prop :=
  Entry_ID e ≠ "" ∧ Subject_Kind (Entry_Subject e) ≠ "" ∧ Subject_ID (Entry_Subject e) ≠ "" ∧
  Entry_Action e ≠ "" ∧ Entry_ResourceType e ≠ "" ∧ (Entry_Effect e = Allow ∨ Entry_Effect e = Deny).

(** ** Lemmas *)

Lemma entry_invalid_spec e : entry_invalid e = false ↔ entry_ok e.
Proof.
  unfold entry_invalid, entry_ok. rewrite !orb_false_iff, andb_false_iff, !negb_false_iff,
    !bool_decide_eq_false, !bool_decide_eq_true. tauto.
Qed.

Lemma acl_matchesTenant_spec evaluator t t' :
  matchesTenant evaluator t t' = true ↔ tenant_applies (inheritGlobal evaluator) t t'.
Proof.
  unfold matchesTenant, tenant_applies. repeat case_bool_decide; simpl; subst; try tauto.
  - split; [done|]. by intros [?|[_ ?]].
  - split; [done|]. by intros [?|[_ ?]].
Qed.

Lemma at_key_insert m k k' es :
  at_key (<[k := es]> m) k' = if decide (k = k') then es else at_key m k'.
Proof.
  unfold at_key. destruct (decide (k = k')) as [->|Hne].
  - by rewrite lookup_insert_eq.
  - by rewrite lookup_insert_ne.
Qed.

(** The index holds the valid entries of each key, in input order. *)
Lemma index_loop_Ok index ids indexed es m :
  index_loop index ids indexed es = Ok m →
  Forall entry_ok es ∧ NoDup (Entry_ID <$> es) ∧ (∀ e, e ∈ es → Entry_ID e ∉ ids) ∧
  ∀ k, at_key m k = at_key indexed k ++ filter (λ e, entry_key e = k) es.
Proof.
  revert index ids indexed. induction es as [|e es IH]; intros index ids indexed; simpl.
  { intros; simplify_eq. split_and!; [constructor|constructor|set_solver|]. intros k. by rewrite app_nil_r. }
  destruct (entry_invalid e) eqn:Ei; [done|]. case_bool_decide as Ed; [done|].
  intros (H1 & H2 & H3 & H4)%IH. apply entry_invalid_spec in Ei. split_and!.
  - by constructor.
  - csimpl. constructor; [|done]. intros (e' & E & He')%list_elem_of_fmap.
    apply (H3 e' He'). rewrite E. set_solver.
  - intros e' [->|He']%elem_of_cons; [done|]. specialize (H3 e' He'). set_solver.
  - intros k. rewrite H4, at_key_insert, filter_cons.
    destruct (decide (entry_key e = k)) as [->|]; [by rewrite <- app_assoc|done].
Qed.

Lemma index_loop_complete index ids indexed es :
  Forall entry_ok es → NoDup (Entry_ID <$> es) → (∀ e, e ∈ es → Entry_ID e ∉ ids) →
  ∃ m, index_loop index ids indexed es = Ok m.
Proof.
  revert index ids indexed. induction es as [|e es IH]; intros index ids indexed Hok Hnd Hids; simpl; [eauto|].
  apply Forall_cons in Hok as [He Hok]. csimpl in Hnd. apply NoDup_cons in Hnd as [Hid Hnd].
  rewrite (proj2 (entry_invalid_spec e) He).
  rewrite (bool_decide_false (Entry_ID e ∈ ids)) by (apply Hids; by left).
  apply IH; [done|done|]. intros e' He'. rewrite not_elem_of_union, not_elem_of_singleton. split.
  - intros E. apply Hid. rewrite <- E. by apply list_elem_of_fmap_2.
  - apply Hids. by right.
Qed.

(** What [New] guarantees. *)
Lemma acl_New_Ok es options ev :
  New es options = Ok ev →
  Forall entry_ok es ∧ NoDup (Entry_ID <$> es) ∧ len es ≤ MaxEntries (limits ev) ∧
  ∀ k, at_key (entries ev) k = filter (λ e, entry_key e = k) es.
Proof.
  unfold New. destruct (Z.ltb_spec (MaxEntries (limits (foldl (λ evaluator option, option evaluator)
    (mkACLEvaluator ∅ false default_limits) options))) (len es)); [done|].
  destruct (index_loop 0 ∅ ∅ es) as [m|] eqn:E; simpl; [|done]. intros; simplify_eq; simpl.
  apply index_loop_Ok in E as (? & ? & _ & Hk). split_and!; [done..|]. intros k. by rewrite Hk.
Qed.

Lemma keys_loop_spec seen ks :
  NoDup (keys_loop seen ks) ∧ ∀ k, k ∈ keys_loop seen ks ↔ k ∈ ks ∧ k ∉ seen.
Proof.
  revert seen. induction ks as [|k ks IH]; intros seen; simpl.
  { split; [constructor|]. set_solver. }
  case_bool_decide as Ek.
  - destruct (IH seen) as [? Hin]. split; [done|]. intros k'. rewrite Hin. set_solver.
  - destruct (IH ({[k]} ∪ seen)) as [Hnd Hin]. split.
    + constructor; [rewrite Hin; set_solver|done].
    + intros k'. rewrite elem_of_cons, Hin. destruct (decide (k' = k)); set_solver.
Qed.

Lemma acl_principals_elem subject action type e :
  entry_key e ∈ principal_key action type <$> principals subject ↔
  names_principal subject e ∧ Entry_Action e = action ∧ Entry_ResourceType e = type.
Proof.
  unfold principals, names_principal. csimpl. rewrite <- list_fmap_compose, elem_of_cons.
  unfold entry_key, principal_key; simpl. rewrite list_elem_of_fmap. split.
  - intros [E|(g & E & Hg)]; simplify_eq; simpl in *; simplify_eq; [tauto|].
    split_and!; [|done|done]. right. split; [done|congruence].
  - intros ([[-> ->]|[Hk Hg]] & -> & ->); [by left|]. right. eexists. split; [|done]. simpl. by rewrite Hk.
Qed.

(** ** The loops of Evaluate *)

(** The test an entry of the right key passes. *)
Definition applies (evaluator : Evaluator) (request : Request) (e : Entry) : Prop :=
  tenant_applies (inheritGlobal evaluator) (Entry_Tenant e) (Request_Tenant request) ∧
  covers (Resource_ID (Request_Resource request)) e.

#[global] Typeclasses Opaque applies.
#[global] Instance applies_dec evaluator request e : base.Decision (applies evaluator request e).
Proof. unfold applies. apply _. Defined.

Lemma applies_spec ev request e : entry_skip ev request e = false ↔ applies ev request e.
Proof.
  unfold entry_skip, applies, covers. rewrite <- acl_matchesTenant_spec.
  rewrite orb_false_iff, andb_false_iff, !negb_false_iff, !bool_decide_eq_true. done.
Qed.

(** The entry loop adds every applying entry, or stops above the limit. *)
Lemma entry_loop_spec ev request d es :
  len (Decision_MatchedPolicyIDs d) ≤ MaxMatches (limits ev) →
  entry_loop ev request d es =
    if MaxMatches (limits ev) <? len (Decision_MatchedPolicyIDs d) + len (filter (applies ev request) es)
    then None else Some (foldl add_match d (filter (applies ev request) es)).
Proof.
  intros Hd. unfold entry_loop. rewrite match_loop_spec by done.
  by rewrite (list_filter_iff _ _ es (applies_spec ev request)).
Qed.

(** The result for the entries collected over all principals. *)
Definition loop_result (r : option Decision) : Decision * option error :=
  match r with
  | None => (limitDecision, Some ErrMatchLimitExceeded)
  | Some d => (d, None)
  end.

Definition request_keys (seen : gset entryKey) (request : Request) (ps : list (SubjectKind * SubjectID)) : list entryKey :=
  keys_loop seen (principal_key (Request_Action request) (Resource_Type (Request_Resource request)) <$> ps).

(** Under a live context the principal loop is the entry loop over the
    entries of the distinct keys. *)
Lemma principal_loop_live ev ctx request seen d ps n `{!ContextLive ctx} :
  ∃ n', principal_loop ev ctx request seen d ps n =
    (Ret (loop_result (entry_loop ev request d (concat (at_key (entries ev) <$> request_keys seen request ps)))), n').
Proof.
  revert seen d n. induction ps as [|p ps IH]; intros seen d n; simpl; [by eexists|].
  rewrite ctx_Err_bind, ctx_live. unfold request_keys. csimpl. case_bool_decide; [apply IH|].
  csimpl. unfold entry_loop. rewrite match_loop_app. destruct (match_loop _ _ d _) as [d'|]; simpl; [apply IH|by eexists].
Qed.

(** The principal loop under any context. *)
Lemma principal_loop_total ev ctx request seen d ps n :
  outcome_valid (Decision_Outcome d) →
  ∃ d' err n', principal_loop ev ctx request seen d ps n = (Ret (d', err), n') ∧
    outcome_valid (Decision_Outcome d') ∧ (is_Some err → Decision_Outcome d' = Deny).
Proof.
  revert seen d n. induction ps as [|p ps IH]; intros seen d n Hd; simpl.
  { eexists d, None, _. split_and!; [done|done|by intros []]. }
  rewrite ctx_Err_bind. destruct (Err_at ctx n); [by eexists _, _, _|].
  case_bool_decide; [by apply IH|].
  destruct (entry_loop _ _ _ _) as [d'|] eqn:E; [|by eexists _, _, _].
  apply IH. by eapply match_loop_outcome.
Qed.

(** The entries collected for distinct keys are, up to order, the entries
    of the input that address the subject. *)
Lemma collected_perm ev es subject action type tenant :
  (∀ k, at_key (entries ev) k = filter (λ e, entry_key e = k) es) →
  filter (λ e, tenant_applies (inheritGlobal ev) (Entry_Tenant e) tenant)
    (concat (at_key (entries ev) <$> keys_loop ∅ (principal_key action type <$> principals subject))) ≡ₚ
  filter (addresses (inheritGlobal ev) subject action type tenant) es.
Proof.
  intros Hk. destruct (keys_loop_spec ∅ (principal_key action type <$> principals subject)) as [Hnd Hin].
  assert (at_key (entries ev) <$> keys_loop ∅ (principal_key action type <$> principals subject) =
    (λ k, filter (λ e, entry_key e = k) es) <$> keys_loop ∅ (principal_key action type <$> principals subject))
    as -> by (apply list_fmap_ext; intros; apply Hk).
  rewrite concat_filter_keys_perm by done. rewrite list_filter_filter.
  erewrite list_filter_iff; [done|]. intros e. unfold addresses. rewrite Hin, acl_principals_elem. set_solver.
Qed.

Lemma applies_collected_perm ev es request :
  (∀ k, at_key (entries ev) k = filter (λ e, entry_key e = k) es) →
  filter (applies ev request) (concat (at_key (entries ev) <$>
    request_keys ∅ request (principals (Request_Subject request)))) ≡ₚ
  filter (concerns (inheritGlobal ev) request) es.
Proof.
  intros Hk.
  assert (∀ l : list Entry, filter (applies ev request) l = filter (covers (Resource_ID (Request_Resource request)))
    (filter (λ e, tenant_applies (inheritGlobal ev) (Entry_Tenant e) (Request_Tenant request)) l)) as E1.
  { intros l. rewrite list_filter_filter. apply list_filter_iff. intros e. unfold applies. tauto. }
  assert (∀ l : list Entry, filter (concerns (inheritGlobal ev) request) l =
    filter (covers (Resource_ID (Request_Resource request))) (filter (addresses (inheritGlobal ev)
      (Request_Subject request) (Request_Action request) (Resource_Type (Request_Resource request))
      (Request_Tenant request)) l)) as E2.
  { intros l. rewrite list_filter_filter. apply list_filter_iff. intros e. unfold concerns. tauto. }
  rewrite E1, E2. unfold request_keys. by rewrite (collected_perm ev es) by done.
Qed.

(** The options the package provides, and the limits they leave. *)
Inductive library_option : Option → Prop :=
| option_global : library_option WithGlobalInheritance
| option_limits ls : library_option (WithLimits ls).

Definition limits_positive (l : Limits) : Prop :=
  0 < MaxEntries l ∧ 0 < MaxGroups l ∧ 0 < MaxMatches l ∧ 0 < MaxBatchSize l.

Lemma acl_New_limits es options ev :
  Forall library_option options → New es options = Ok ev → limits_positive (limits ev).
Proof.
  intros Hopts. unfold New.
  assert (limits_positive (limits (foldl (λ evaluator option, option evaluator)
    (mkACLEvaluator ∅ false default_limits) options))) as Hpos.
  { assert (limits_positive (limits (mkACLEvaluator ∅ false default_limits))) as H by done.
    revert H. generalize (mkACLEvaluator ∅ false default_limits) as ev0.
    induction Hopts as [|o options Ho _ IH]; intros ev0 H; [done|]. simpl. apply IH.
    destruct Ho as [|ls]; [done|]. destruct H as (? & ? & ? & ?).
    unfold limits_positive; simpl. split_and!; by apply positive_or_pos. }
  destruct (_ <? _); [done|]. destruct (index_loop _ _ _ _); simpl; [|done]. by intros; simplify_eq.
Qed.

(** ** Theorems *)

(** The evaluator keeps the engine's evaluator contract. *)
#[global] Instance acl_evaluator_laws ev : EvaluatorLaws (as_evaluator ev).
Proof.
  intros ctx request n. simpl. unfold Evaluate. rewrite ctx_Err_bind.
  destruct (Err_at ctx n); [by eexists _, _, _|]. destruct (_ <? _); [by eexists _, _, _|].
  destruct (principal_loop_total ev ctx request ∅ (bareDecision NotApplicable "" 0)
    (principals (Request_Subject request)) (S n)) as (d & err & n' & E & Hv & Herr); [done|].
  exists d, err, n'. split_and!; [done|done|]. intros ->%Herr. done.
Qed.

(** Evaluation under a live context, case by case. *)
Lemma acl_evaluate_cases (es : list Entry) (options : list Option) (ev : Evaluator)
    (ctx : Context) (request : Request) (n : nat) `{!ContextLive ctx} :
  Forall library_option options → New es options = Ok ev →
  let ms := filter (concerns (inheritGlobal ev) request) es in
  ∃ n' d err, Evaluate ev ctx request n = (Ret (d, err), n') ∧
    if decide (MaxGroups (limits ev) < len (Subject_Groups (Request_Subject request)))
    then d = limitDecision ∧ err = Some ErrGroupLimitExceeded
    else if decide (MaxMatches (limits ev) < len ms)
    then d = limitDecision ∧ err = Some ErrMatchLimitExceeded
    else err = None ∧ (Decision_Outcome d, Decision_Reason d) = verdict ms ∧
         Decision_MatchedPolicyIDs d ≡ₚ Entry_ID <$> ms ∧ Decision_MatchedPolicyIDsTruncated d = false.
Proof.
  intros Hopts Hnew ms. destruct (acl_New_limits _ _ _ Hopts Hnew) as (_ & _ & Hpos & _).
  apply acl_New_Ok in Hnew as (Hok & _ & _ & Hk).
  unfold Evaluate. rewrite ctx_Err_bind, ctx_live.
  destruct (decide (MaxGroups (limits ev) < len (Subject_Groups (Request_Subject request)))) as [Hg|Hg].
  { rewrite (proj2 (Z.ltb_lt _ _) Hg). by eexists _, _, _. }
  rewrite (proj2 (Z.ltb_ge _ _)) by lia.
  destruct (principal_loop_live ev ctx request ∅ (bareDecision NotApplicable "" 0)
    (principals (Request_Subject request)) (S n)) as [n' ->].
  rewrite entry_loop_spec by (unfold len; simpl; lia).
  pose proof (applies_collected_perm ev es request Hk) as Hperm.
  set (collected := filter (applies ev request) _) in *.
  assert (len collected = len ms) as Hlen by (unfold len; by rewrite Hperm).
  simpl. autorewrite with go. rewrite Hlen.
  destruct (decide (MaxMatches (limits ev) < len ms)) as [Hm|Hm].
  { rewrite (proj2 (Z.ltb_lt _ _)) by lia. by eexists _, _, _. }
  rewrite (proj2 (Z.ltb_ge _ _)) by lia.
  eexists _, _, _. split; [done|]. split; [done|].
  assert (Forall decisive_effect collected) as Heff.
  { rewrite Hperm. apply Forall_forall. intros e [_ He]%list_elem_of_filter.
    rewrite Forall_forall in Hok. by destruct (Hok e He) as (_ & _ & _ & _ & _ & ?). }
  rewrite add_match_verdict by done. simpl. rewrite <- surjective_pairing, Hperm. by split_and!.
Qed.

(** C16. ACL evaluation is deny-overrides over the entries that concern the
    request: for a constructed evaluator under a live context, too many
    groups or matches are errors that deny; otherwise the decision denies
    when some concerning entry denies, allows when some concerning entry
    exists and none denies, does not apply when there is none, and reports
    exactly the identifiers of the concerning entries. *)
Theorem acl_Evaluate_spec (es : list Entry) (options : list Option) (ev : Evaluator)
    (ctx : Context) (request : Request) (n : nat) `{!ContextLive ctx} :
  Forall library_option options → New es options = Ok ev →
  let ms := filter (concerns (inheritGlobal ev) request) es in
  ∃ n' d err, Evaluate ev ctx request n = (Ret (d, err), n') ∧
    if decide (MaxGroups (limits ev) < len (Subject_Groups (Request_Subject request)))
    then d = limitDecision ∧ err = Some ErrGroupLimitExceeded
    else if decide (MaxMatches (limits ev) < len ms)
    then d = limitDecision ∧ err = Some ErrMatchLimitExceeded
    else err = None ∧ (Decision_Outcome d, Decision_Reason d) = verdict ms ∧
         Decision_MatchedPolicyIDs d ≡ₚ Entry_ID <$> ms ∧ Decision_MatchedPolicyIDsTruncated d = false.
Proof. intros. by eapply acl_evaluate_cases. Qed.

Definition example_entry (id : PolicyID) (kind subject : string) (rid tenant : string) (effect : Outcome) : Entry :=
  mkEntry id (mkSubject kind subject [] None) "read" "document" rid tenant effect.

Definition example_entries : list Entry :=
  [example_entry "e1" "user" "alice" "" "acme" Allow;
   example_entry "e2" "group" "staff" "d2" "" Deny;
   example_entry "e3" "user" "alice" "d1" "other" Deny].

Definition staff_request (rid : ResourceID) : Request :=
  mkRequest (mkSubject "user" "alice" ["staff"] None) "read" (mkResource "document" rid None) "acme"
    (mkEnvironment 5 None) None.

Lemma acl_Evaluate_spec_witness :
  ∃ ev d n', New example_entries [WithGlobalInheritance] = Ok ev ∧
    Evaluate ev context_Background (staff_request "d2") 0%nat = (Ret (d, None), n') ∧
    Decision_MatchedPolicyIDs d ≡ₚ ["e1"; "e2"] ∧ Decision_Outcome d = Deny.
Proof.
  eexists. destruct (@acl_Evaluate_spec example_entries [WithGlobalInheritance] _ context_Background
    (staff_request "d2") 0%nat (λ _, eq_refl) ltac:(repeat constructor) eq_refl)
    as (n' & d & err & E & H).
  vm_compute in H. destruct H as (-> & Hv & Hp & _).
  exists d, n'. split; [reflexivity|]. split; [exact E|]. split; [exact Hp|]. by injection Hv.
Defined.

(** Tenant isolation: entries of other tenants (and global entries,
    unless inheritance is on) never influence a decision. Two evaluators
    built with the same options from entry lists that agree on the entries
    visible to the request's tenant give the same error, outcome and reason
    and the same matched identifiers up to order. *)
Theorem acl_tenant_isolation (es es' : list Entry) (options : list Option) (ev ev' : Evaluator)
    (ctx : Context) (request : Request) (n : nat) `{!ContextLive ctx} :
  Forall library_option options → New es options = Ok ev → New es' options = Ok ev' →
  let visible := λ e, tenant_applies (inheritGlobal ev) (Entry_Tenant e) (Request_Tenant request) in
  filter visible es = filter visible es' →
  ∃ n1 n2 d d' err,
    Evaluate ev ctx request n = (Ret (d, err), n1) ∧ Evaluate ev' ctx request n = (Ret (d', err), n2) ∧
    Decision_Outcome d = Decision_Outcome d' ∧ Decision_Reason d = Decision_Reason d' ∧
    Decision_MatchedPolicyIDs d ≡ₚ Decision_MatchedPolicyIDs d'.
Proof.
  intros Hopts Hnew Hnew' visible Hvis.
  assert (inheritGlobal ev' = inheritGlobal ev ∧ limits ev' = limits ev) as [Hi Hl].
  { unfold New in *. destruct (_ <? len es); [done|]. destruct (_ <? len es'); [done|].
    destruct (index_loop _ _ _ es), (index_loop _ _ _ es'); simplify_eq/=. done. }
  assert (∀ l : list Entry, filter (concerns (inheritGlobal ev) request) l =
    filter (concerns (inheritGlobal ev) request) (filter visible l)) as Hcv.
  { intros l. rewrite list_filter_filter_l; [done|]. intros e [[_ (_ & _ & ?)] _]. done. }
  destruct (acl_evaluate_cases es options ev ctx request n Hopts Hnew) as (n1 & d & err & E1 & H1).
  destruct (acl_evaluate_cases es' options ev' ctx request n Hopts Hnew') as (n2 & d' & err' & E2 & H2).
  rewrite Hi, Hl, Hcv, <- Hvis, <- Hcv in H2.
  exists n1, n2, d, d', err. destruct (decide (_ < len (Subject_Groups _))).
  { destruct H1 as [-> ->], H2 as [-> ->]. done. }
  destruct (decide (_ < len (filter _ _))).
  { destruct H1 as [-> ->], H2 as [-> ->]. done. }
  destruct H1 as (-> & V1 & P1 & _), H2 as (-> & V2 & P2 & _).
  rewrite <- V2 in V1. simplify_eq. rewrite P1, P2. done.
Qed.

Lemma acl_tenant_isolation_witness :
  ∃ ev ev' n1 n2 d d' err,
    New (example_entries) [WithGlobalInheritance] = Ok ev ∧
    New (take 2 example_entries) [WithGlobalInheritance] = Ok ev' ∧
    Evaluate ev context_Background (staff_request "d1") 0%nat = (Ret (d, err), n1) ∧
    Evaluate ev' context_Background (staff_request "d1") 0%nat = (Ret (d', err), n2) ∧
    Decision_Outcome d = Decision_Outcome d'.
Proof.
  eexists _, _.
  destruct (@acl_tenant_isolation example_entries (take 2 example_entries) [WithGlobalInheritance] _ _
    context_Background (staff_request "d1") 0%nat (λ _, eq_refl) ltac:(repeat constructor) eq_refl eq_refl eq_refl)
    as (n1 & n2 & d & d' & err & E1 & E2 & Ho & _).
  exists n1, n2, d, d', err. split; [reflexivity|]. split; [reflexivity|]. by split.
Defined.

(** ** Listing *)

(** The entries that name one resource, and the effect they have together. *)
Definition naming (rid : ResourceID) (ms : list Entry) : list Entry :=
  filter (λ e, Entry_ResourceID e = rid) ms.

Definition effect_of (rid : ResourceID) (ms : list Entry) : option Outcome :=
  match naming rid ms with [] => None | _ => Some (verdict (naming rid ms)).1 end.

(** What a listing has established from the visible entries [ms]. *)
Record list_inv (st : list_state) (ms : list Entry) : Prop := {
  li_matches : matches st = len ms;
  li_no_wide_deny : ¬ Exists denies (naming "" ms);
  li_wide : typeWideAllow st = true ↔ naming "" ms ≠ [];
  li_effects : ∀ rid, resourceEffects st !! rid = if decide (rid = "") then None else effect_of rid ms
}.

Lemma naming_snoc rid ms e :
  naming rid (ms ++ [e]) = naming rid ms ++ if decide (Entry_ResourceID e = rid) then [e] else [].
Proof. unfold naming. by rewrite filter_app, filter_cons. Qed.

Lemma effect_of_snoc rid ms e :
  Entry_ResourceID e = rid → Entry_Effect e = Allow ∨ Entry_Effect e = Deny →
  effect_of rid (ms ++ [e]) =
    if bool_decide (Entry_Effect e = Deny) || bool_decide (default NotApplicable (effect_of rid ms) = NotApplicable)
    then Some (Entry_Effect e) else effect_of rid ms.
Proof.
  intros <- He. unfold effect_of. rewrite naming_snoc, decide_True by done.
  assert (decisive_effect e) as He' by exact He.
  rewrite (verdict_snoc _ e He'). simpl (match_effect e). destruct (naming (Entry_ResourceID e) ms) as [|x l] eqn:El.
  { simpl. destruct He as [->| ->]; done. }
  rewrite <- app_comm_cons. cbn [default from_option]. unfold id.
  destruct He as [->| ->]; simpl; [|done]. by destruct (bool_decide _).
Qed.

Lemma list_inv_nil : list_inv (mkListState ∅ false 0) [].
Proof.
  split; simpl; [done|by intros ?%Exists_nil|by split|]. intros rid. rewrite lookup_empty. by case_decide.
Qed.

(** One visible entry more. *)
Lemma list_inv_snoc st ms e :
  list_inv st ms → Entry_Effect e = Allow ∨ Entry_Effect e = Deny →
  (Entry_ResourceID e = "" → ¬ denies e) →
  list_inv (mkListState
    (if bool_decide (Entry_ResourceID e = "") then resourceEffects st
     else if bool_decide (Entry_Effect e = Deny) ||
             bool_decide (default NotApplicable (resourceEffects st !! Entry_ResourceID e) = NotApplicable)
     then <[Entry_ResourceID e := Entry_Effect e]> (resourceEffects st) else resourceEffects st)
    (bool_decide (Entry_ResourceID e = "") || typeWideAllow st) (matches st + 1)) (ms ++ [e]).
Proof.
  intros [Hm Hnd Hw He] Heff Hwide. split; simpl.
  - by rewrite Hm, len_app.
  - rewrite naming_snoc, Exists_app. intros [?|Hx]; [done|].
    case_decide; [|by rewrite Exists_nil in Hx]. rewrite Exists_cons, Exists_nil in Hx. tauto.
  - rewrite naming_snoc. case_bool_decide as E; [rewrite decide_True by done|rewrite decide_False by done]; simpl.
    + split; [intros _; by destruct (naming "" ms)|done].
    + by rewrite app_nil_r.
  - intros rid. pose proof (He rid) as Hrid. destruct (decide (rid = "")) as [->|Hne].
    { case_bool_decide; [done|]. case_match; [by rewrite lookup_insert_ne|done]. }
    destruct (decide (Entry_ResourceID e = rid)) as [E|E].
    + rewrite (effect_of_snoc rid ms e E Heff), <- Hrid, E, (bool_decide_false (rid = "")) by done.
      case_match; [by rewrite lookup_insert_eq|done].
    + assert (effect_of rid (ms ++ [e]) = effect_of rid ms) as ->.
      { unfold effect_of. rewrite naming_snoc, decide_False, app_nil_r by done. done. }
      rewrite <- Hrid. case_bool_decide; [done|]. case_match; [by rewrite lookup_insert_ne|done].
Qed.

(** The outcome of the loops over entries [es] after visible entries [ms]. *)
Lemma list_entries_spec ev tenant st ms es :
  let visible := λ e, tenant_applies (inheritGlobal ev) (Entry_Tenant e) tenant in
  Forall decisive_effect es →
  list_inv st ms → len ms ≤ MaxMatches (limits ev) →
  match list_entries ev tenant st es with
  | inl (ids, err) => ids = [] ∧ (err = Some ErrMatchLimitExceeded ∨
      err = None ∧ Exists denies (naming "" (ms ++ filter visible es)))
  | inr st' => list_inv st' (ms ++ filter visible es) ∧
      len (ms ++ filter visible es) ≤ MaxMatches (limits ev)
  end.
Proof.
  intros visible Heff. revert st ms.
  induction Heff as [|e es He _ IH]; intros st ms Hinv Hle; simpl; [by rewrite app_nil_r|].
  rewrite filter_cons. destruct (matchesTenant ev (Entry_Tenant e) tenant) eqn:Et; cycle 1.
  { rewrite decide_False; [by apply IH|]. unfold visible. rewrite <- acl_matchesTenant_spec. congruence. }
  rewrite decide_True by (unfold visible; by rewrite <- acl_matchesTenant_spec).
  destruct (Z.leb_spec (MaxMatches (limits ev)) (matches st)) as [Hmax|Hmax]; [by auto|].
  rewrite (li_matches _ _ Hinv) in Hmax.
  pose proof (list_inv_snoc st ms e Hinv He) as Hstep.
  assert (len (ms ++ [e]) ≤ MaxMatches (limits ev)) as Hle' by (rewrite len_app; unfold len in *; simpl; lia).
  rewrite cons_middle, app_assoc.
  case_bool_decide as Erid.
  - case_bool_decide as Ed.
    + split; [done|]. right. split; [done|]. unfold naming. rewrite !filter_app, !Exists_app. left. right.
      rewrite filter_cons, decide_True by done. by left.
    + apply IH; [|done]. apply Hstep. by intros _.
  - case_match; (apply IH; [apply Hstep; by intros ?|done]).
Qed.

Lemma list_entries_app ev tenant st es1 es2 :
  list_entries ev tenant st (es1 ++ es2) =
  match list_entries ev tenant st es1 with
  | inl early => inl early
  | inr st' => list_entries ev tenant st' es2
  end.
Proof.
  revert st. induction es1 as [|e es1 IH]; intros st; [done|]. simpl.
  destruct (matchesTenant _ _ _); [|apply IH]. destruct (_ <=? _); [done|].
  destruct (bool_decide (Entry_ResourceID e = "")); [destruct (bool_decide _); done || apply IH|].
  destruct (_ || _); apply IH.
Qed.

Lemma list_keys_live ev ctx tenant st keys n `{!ContextLive ctx} :
  ∃ n', list_keys ev ctx tenant st keys n =
    (Ret (list_entries ev tenant st (concat (at_key (entries ev) <$> keys))), n').
Proof.
  revert st n. induction keys as [|key keys IH]; intros st n; simpl; [by eexists|].
  rewrite ctx_Err_bind, ctx_live. csimpl. rewrite list_entries_app.
  destruct (list_entries ev tenant st _); [by eexists|apply IH].
Qed.

Lemma elem_of_allowed_ids `{GoRuntime} effects rid :
  rid ∈ allowed_ids effects ↔ effects !! rid = Some Allow.
Proof.
  unfold allowed_ids, slices_Sort. rewrite elem_of_SortFunc, list_elem_of_omap. split.
  - intros ([rid' o] & Hin & E). apply elem_of_range_map in Hin. case_bool_decide; by simplify_eq.
  - intros E. exists (rid, Allow). split; [by apply elem_of_range_map|]. by rewrite bool_decide_true.
Qed.

(** The request for one resource of a listing. *)
Definition resource_request (subject : Subject) (action : Action) (type : ResourceType)
    (tenant : TenantID) (rid : ResourceID) : Request :=
  mkRequest subject action (mkResource type rid None) tenant (mkEnvironment 0 None) None.

(** The entries that concern a resource, from those that address its type. *)
Lemma concerns_naming inherit subject action type tenant rid (es : list Entry) :
  rid ≠ "" →
  filter (concerns inherit (resource_request subject action type tenant rid)) es ≡ₚ
  naming "" (filter (addresses inherit subject action type tenant) es) ++
  naming rid (filter (addresses inherit subject action type tenant) es).
Proof.
  intros Hrid. unfold naming.
  rewrite <- (filter_or_perm _ _ (covers rid)).
  - rewrite list_filter_filter. erewrite list_filter_iff; [done|]. intros e. unfold concerns. simpl. tauto.
  - intros e _. done.
  - intros e _ H1 H2. congruence.
Qed.

(** When evaluation allows. *)
Lemma acl_allow_iff es options ev ctx request n `{!ContextLive ctx} :
  Forall library_option options → New es options = Ok ev →
  len (Subject_Groups (Request_Subject request)) ≤ MaxGroups (limits ev) →
  (∃ d n', Evaluate ev ctx request n = (Ret (d, None), n') ∧ Decision_Outcome d = Allow) ↔
  grant (MaxMatches (limits ev)) (filter (concerns (inheritGlobal ev) request) es).
Proof.
  intros Hopts Hnew Hg. unfold grant. rewrite <- verdict_allow.
  destruct (acl_evaluate_cases es options ev ctx request n Hopts Hnew) as (n' & d & err & -> & H).
  rewrite decide_False in H by lia. case_decide as Hm.
  - destruct H as [-> ->]. split; [intros (? & ? & ? & ?); simplify_eq|intros [? _]; lia].
  - destruct H as (-> & Hv & _). rewrite <- Hv. simpl. split.
    + intros (? & ? & ? & ?); simplify_eq. split; [lia|done].
    + intros [_ ?]. by eexists _, _.
Qed.

(** The listing as a fold over the entries that address the subject. *)
Lemma list_result es options ev ctx subject action type tenant n `{!ContextLive ctx} :
  Forall library_option options → New es options = Ok ev →
  let A := filter (addresses (inheritGlobal ev) subject action type tenant) es in
  ∃ r n', list_keys ev ctx tenant (mkListState ∅ false 0) (principalKeys subject action type) n = (Ret r, n') ∧
    match r with
    | inl (ids, err) => ids = [] ∧ (err = Some ErrMatchLimitExceeded ∨
        err = None ∧ Exists denies (naming "" A))
    | inr st => ∃ V, V ≡ₚ A ∧ list_inv st V ∧ len V ≤ MaxMatches (limits ev)
    end.
Proof.
  intros Hopts Hnew A. pose proof (acl_New_limits _ _ _ Hopts Hnew) as (_ & _ & Hpos & _).
  apply acl_New_Ok in Hnew as (Hok & _ & _ & Hk).
  destruct (list_keys_live ev ctx tenant (mkListState ∅ false 0) (principalKeys subject action type) n) as [n' ->].
  eexists _, _. split; [done|]. unfold principalKeys.
  pose proof (collected_perm ev es subject action type tenant Hk) as Hperm.
  set (C := concat _) in *.
  assert (Forall decisive_effect C) as Heff.
  { apply Forall_forall. intros e He. unfold C in He.
    apply list_elem_of_In, in_concat in He as (l & Hl & He). apply list_elem_of_In in Hl, He.
    apply list_elem_of_fmap in Hl as (k & -> & _). rewrite Hk in He.
    apply list_elem_of_filter in He as [_ He]. rewrite Forall_forall in Hok.
    by destruct (Hok e He) as (_ & _ & _ & _ & _ & ?). }
  pose proof (list_entries_spec ev tenant _ [] C Heff list_inv_nil) as Hspec. simpl in Hspec.
  specialize (Hspec ltac:(unfold len; simpl; lia)).
  destruct (list_entries _ _ _ _) as [[ids err]|st].
  - destruct Hspec as [-> [->|[-> Hx]]]; [by auto|]. split; [done|]. right. split; [done|].
    unfold naming in *. by rewrite Hperm in Hx.
  - by exists (filter (λ e, tenant_applies (inheritGlobal ev) (Entry_Tenant e) tenant) C).
Qed.

Lemma allowed_ids_sorted `{GoRuntime} effects : strictly_sorted (allowed_ids effects).
Proof.
  apply slices_Sort_strict. assert (NoDup (range_map 0 effects).*1) as Hnd.
  { rewrite range_map_perm. apply NoDup_fst_map_to_list. }
  revert Hnd. generalize (range_map 0 effects) as l. intros l.
  induction l as [|[k o] l IH]; csimpl; [constructor|]. intros [Hk Hnd]%NoDup_cons.
  case_bool_decide; [|by apply IH]. constructor; [|by apply IH].
  intros ([k' o'] & Hin & E)%list_elem_of_omap. apply Hk. case_bool_decide; simplify_eq.
  by apply (list_elem_of_fmap_2 fst _ (k, Allow)).
Qed.

Lemma naming_perm V A : V ≡ₚ A → ∀ rid, naming rid V ≡ₚ naming rid A.
Proof. intros HV rid. unfold naming. by rewrite HV. Qed.

Lemma naming_unnamed rid V : (∀ e, e ∈ V → Entry_ResourceID e ≠ rid) → naming rid V = [].
Proof.
  intros Hun. unfold naming. induction V as [|e V IH]; [done|].
  rewrite filter_cons, decide_False by (apply Hun; by left). apply IH. intros x Hx. apply Hun. by right.
Qed.

Lemma len_naming rid V : len (naming rid V) ≤ len V.
Proof. unfold len, naming. pose proof (length_filter (λ e, Entry_ResourceID e = rid) V). lia. Qed.

Lemma list_inv_grant_wide st V max :
  list_inv st V → typeWideAllow st = true → len V ≤ max → grant max (naming "" V).
Proof.
  intros [_ Hnd Hw _] E Hlen. pose proof (len_naming "" V). split_and!; [lia| |done].
  apply Hw in E. destruct (naming "" V); [done|simpl; lia].
Qed.

Lemma list_inv_grant_named st V max rid :
  list_inv st V → typeWideAllow st = false → len V ≤ max → rid ≠ "" →
  resourceEffects st !! rid = Some Allow ↔ grant max (naming "" V ++ naming rid V).
Proof.
  intros [_ _ Hw He] E Hlen Hrid.
  assert (naming "" V = []) as ->.
  { destruct (naming "" V) eqn:En; [done|]. exfalso. assert (typeWideAllow st = true) by (by apply Hw). congruence. }
  rewrite He, decide_False by done. pose proof (len_naming rid V). unfold grant, effect_of. simpl.
  rewrite <- verdict_allow. destruct (naming rid V) as [|e l] eqn:En.
  - split; [done|]. intros (_ & ?). done.
  - split; [intros; simplify_eq; split; [lia|done]|]. intros (_ & ->). done.
Qed.

(** C37. Listing agrees with evaluation: when [ListResourceIDs] succeeds its
    result is sorted without duplicates and holds exactly the resources for
    which [Evaluate] returns [Allow]; when it reports an unbounded set,
    [Evaluate] allows every resource that no entry names. *)
Theorem acl_ListResourceIDs_spec `{GoRuntime} (es : list Entry) (options : list Option) (ev : Evaluator)
    (ctx : Context) (subject : Subject) (action : Action) (type : ResourceType) (tenant : TenantID)
    (n m : nat) `{!ContextLive ctx} :
  Forall library_option options → New es options = Ok ev →
  ∃ ids err n', ListResourceIDs ev ctx subject action type tenant n = (Ret (ids, err), n') ∧
    (err = None → strictly_sorted ids ∧
      ∀ rid, rid ≠ "" →
        (rid ∈ ids ↔ ∃ d m', Evaluate ev ctx (resource_request subject action type tenant rid) m =
                              (Ret (d, None), m') ∧ Decision_Outcome d = Allow)) ∧
    (err = Some ErrUnboundedResourceSet →
      ∀ rid, rid ≠ "" → (∀ e, e ∈ es → Entry_ResourceID e ≠ rid) →
        ∃ d m', Evaluate ev ctx (resource_request subject action type tenant rid) m = (Ret (d, None), m') ∧
          Decision_Outcome d = Allow).
Proof.
  intros Hopts Hnew. unfold ListResourceIDs. rewrite ctx_Err_bind, ctx_live.
  destruct (Z.ltb_spec (MaxGroups (limits ev)) (len (Subject_Groups subject))) as [Hg|Hg].
  { eexists _, _, _. by split_and!; [done|..]. }
  destruct (list_result es options ev ctx subject action type tenant (S n) Hopts Hnew) as (r & n' & Er & Hr).
  erewrite M_bind_Ret by done. rewrite M_ret_run.
  set (A := filter (addresses _ _ _ _ _) es) in *.
  assert (∀ rid, rid ≠ "" →
    (∃ d m', Evaluate ev ctx (resource_request subject action type tenant rid) m = (Ret (d, None), m') ∧
             Decision_Outcome d = Allow) ↔
    grant (MaxMatches (limits ev)) (naming "" A ++ naming rid A)) as Hev.
  { intros rid Hrid. rewrite (acl_allow_iff es options) by done. unfold A. by rewrite concerns_naming. }
  destruct r as [[ids err]|st].
  - eexists _, _, _. split; [done|]. destruct Hr as [-> [->|[-> Hx]]]; [done|]. split; [|done]. intros _.
    split; [constructor|]. intros rid Hrid. rewrite Hev by done. unfold grant. rewrite Exists_app.
    split; [set_solver|tauto].
  - destruct Hr as (V & HV & Hinv & Hlen). setoid_rewrite <- (naming_perm _ _ HV) in Hev.
    destruct (typeWideAllow st) eqn:Ew; eexists _, _, _; (split; [done|]); split; try done.
    + intros _ rid Hrid Hun. apply Hev; [done|].
      rewrite (naming_unnamed rid V), app_nil_r by (intros e He; apply Hun; rewrite HV in He;
        by apply list_elem_of_filter in He as [_ ?]).
      apply (list_inv_grant_wide st); done.
    + intros _. split; [apply allowed_ids_sorted|]. intros rid Hrid.
      rewrite Hev, elem_of_allowed_ids by done. by apply (list_inv_grant_named st).
Qed.

Lemma acl_ListResourceIDs_spec_witness :
  ∃ ev ids n', New [example_entry "e1" "user" "alice" "d1" "acme" Allow;
                    example_entry "e2" "group" "staff" "d2" "acme" Allow;
                    example_entry "e3" "user" "alice" "d2" "acme" Deny] [] = Ok ev ∧
    @ListResourceIDs plain_runtime ev context_Background (mkSubject "user" "alice" ["staff"] None)
      "read" "document" "acme" 0%nat = (Ret (ids, None), n') ∧ ids = ["d1"] ∧ strictly_sorted ids.
Proof.
  eexists.
  destruct (@acl_ListResourceIDs_spec plain_runtime
    [example_entry "e1" "user" "alice" "d1" "acme" Allow; example_entry "e2" "group" "staff" "d2" "acme" Allow;
     example_entry "e3" "user" "alice" "d2" "acme" Deny] [] _ context_Background
    (mkSubject "user" "alice" ["staff"] None) "read" "document" "acme" 0%nat 0%nat (λ _, eq_refl)
    ltac:(repeat constructor) eq_refl) as (ids & err & n' & E & Hs & _).
  vm_compute in E. injection E as <- <- <-. eexists _, _.
  split; [reflexivity|]. split; [vm_compute; reflexivity|]. split; [reflexivity|]. by apply Hs.
Defined.

End acl.
