(* ===== verification/RoleGraph.v ===== *)
(** * The role graph (rbac/rbac.go)

    Roles point to their parents. [validateInheritance] checks that parents
    exist in the same tenant, that inheritance is acyclic (a depth-first
    search with three states per role) and that no chain is longer than the
    configured depth (a memoised search); [addRoleClosure] collects the roles
    reachable from one role. The recursive searches take fuel; a search that
    runs out reports [diverged], and the theorems show that the fuel the
    definitions supply, one more than the number of roles, is enough. The
    order in which a [range] visits the role map comes from the runtime. *)

From S2P Require Import Prelude Request Decision Snapshot.

#[local] Open Scope Z_scope.

(** ** Data *)

Definition ErrRoleCycle := errors_New "RBAC role inheritance cycle".
Definition ErrInheritanceDepthExceeded := errors_New "RBAC inheritance depth exceeded".
Definition ErrUnknownParentRole := errors_New "RBAC parent role does not exist".
Definition ErrCrossTenantInheritance := errors_New "RBAC inheritance crosses tenants".

Abbreviation RoleID := string.

Record Role := mkRole {
  Role_ID : RoleID;
  Role_Tenant : TenantID;
  Role_Parents : list RoleID
}.

(** [roles[id].Parents]: the zero role of a missing key has none. *)
Definition parents_of (roles : gmap string Role) (id : RoleID) : list RoleID :=
  match roles !! id with Some role => Role_Parents role | None => [] end.

(** ** validateInheritance *)

(** The checks of the parents of one role. *)
Fixpoint check_parents (roles : gmap string Role) (role : Role) (parents : list RoleID) : option error :=
  match parents with
  | [] => None
  | parentID :: parents =>
      match roles !! parentID with
      | None => Some (fmt_Errorf "role %q parent %q: %w"
                        [FmtString (Role_ID role); FmtString parentID] ErrUnknownParentRole)
      | Some parent =>
          if negb (bool_decide (Role_Tenant parent = Role_Tenant role))
          then Some (fmt_Errorf "role %q parent %q: %w"
                       [FmtString (Role_ID role); FmtString parentID] ErrCrossTenantInheritance)
          else check_parents roles role parents
      end
  end.

Fixpoint check_roles (roles : gmap string Role) (l : list (string * Role)) : option error :=
  match l with
  | [] => None
  | (_, role) :: l =>
      match check_parents roles role (Role_Parents role) with
      | Some err => Some err
      | None => check_roles roles l
      end
  end.

(** [for ... { if err := visit(id); err != nil { return err } }]. *)
Fixpoint visit_list (visit : gmap string Z → RoleID → result (gmap string Z))
    (states : gmap string Z) (ids : list RoleID) : result (gmap string Z) :=
  match ids with
  | [] => Ok states
  | id :: ids => states ← visit states id; visit_list visit states ids
  end.

(** The closure [visit]: 0 unvisited, 1 on the path, 2 done. *)
Fixpoint visit (fuel : nat) (roles : gmap string Role) (states : gmap string Z) (roleID : RoleID) :
    result (gmap string Z) :=
  match fuel with
  | O => Err diverged
  | S fuel =>
      if default 0 (states !! roleID) =? 1 then Err ErrRoleCycle
      else if default 0 (states !! roleID) =? 2 then Ok states
      else
        states ← visit_list (visit fuel roles) (<[roleID := 1]> states) (parents_of roles roleID);
        Ok (<[roleID := 2]> states)
  end.

(** The loop of the closure [depth] over the parents. *)
Fixpoint depth_list (depth : gmap string Z → RoleID → result (Z * gmap string Z))
    (depths : gmap string Z) (maximum : Z) (ids : list RoleID) : result (Z * gmap string Z) :=
  match ids with
  | [] => Ok (maximum, depths)
  | id :: ids =>
      '(d, depths) ← depth depths id;
      depth_list depth depths (Z.max maximum (1 + d)) ids
  end.

(** The closure [depth] with its memo table. *)
Fixpoint depth (fuel : nat) (roles : gmap string Role) (depths : gmap string Z) (roleID : RoleID) :
    result (Z * gmap string Z) :=
  match fuel with
  | O => Err diverged
  | S fuel =>
      match depths !! roleID with
      | Some known => Ok (known, depths)
      | None =>
          '(maximum, depths) ← depth_list (depth fuel roles) depths 0 (parents_of roles roleID);
          Ok (maximum, <[roleID := maximum]> depths)
      end
  end.

Fixpoint check_depths (fuel : nat) (roles : gmap string Role) (maxDepth : Z)
    (depths : gmap string Z) (ids : list RoleID) : option error :=
  match ids with
  | [] => None
  | roleID :: ids =>
      match depth fuel roles depths roleID with
      | Err err => Some err
      | Ok (d, depths) =>
          if maxDepth <? d
          then Some (fmt_Errorf "role %q: %w" [FmtString roleID] ErrInheritanceDepthExceeded)
          else check_depths fuel roles maxDepth depths ids
      end
  end.

Definition graph_fuel (roles : gmap string Role) : nat := S (size roles).

Definition validateInheritance `{GoRuntime} (roles : gmap string Role) (maxDepth : Z) : option error :=
  match check_roles roles (range_map 0 roles) with
  | Some err => Some err
  | None =>
      match visit_list (visit (graph_fuel roles) roles) ∅ (range_map 1 roles).*1 with
      | Err err => Some err
      | Ok _ => check_depths (graph_fuel roles) roles maxDepth ∅ (range_map 2 roles).*1
      end
  end.

(** ** addRoleClosure *)

Fixpoint addRoleClosure (fuel : nat) (roles : gmap string Role) (roleID : RoleID)
    (acc : gset string) : gset string :=
  match fuel with
  | O => acc
  | S fuel =>
      if bool_decide (roleID ∈ acc) then acc
      else foldl (λ acc parentID, addRoleClosure fuel roles parentID acc)
             ({[roleID]} ∪ acc) (parents_of roles roleID)
  end.

(** ** Specification *)

Definition edge (roles : gmap string Role) (r p : RoleID) : Prop := p ∈ parents_of roles r.

Definition parents_ok (roles : gmap string Role) : Prop :=
  ∀ r role p, roles !! r = Some role → p ∈ Role_Parents role →
    ∃ parent, roles !! p = Some parent ∧ Role_Tenant parent = Role_Tenant role.

Definition acyclic (roles : gmap string Role) : Prop := ∀ r, ¬ tc (edge roles) r r.

Definition depth_bounded (roles : gmap string Role) (maxDepth : Z) : Prop :=
  ∀ m r x, nsteps (edge roles) m r x → Z.of_nat m ≤ maxDepth.

Definition inherits (roles : gmap string Role) : RoleID → RoleID → Prop := rtc (edge roles).

(** ** Lemmas on the checks of parents *)

Lemma check_parents_None roles role ps :
  check_parents roles role ps = None ↔
  ∀ p, p ∈ ps → ∃ parent, roles !! p = Some parent ∧ Role_Tenant parent = Role_Tenant role.
Proof.
  induction ps as [|p ps IH]; simpl; [split; [set_solver|done]|].
  destruct (roles !! p) as [parent|] eqn:E.
  - case_bool_decide as Et; simpl.
    + rewrite IH. split; [|set_solver]. intros H q [->|Hq]%elem_of_cons; eauto.
    + split; [done|]. intros H. destruct (H p ltac:(by left)) as (? & ? & ?). congruence.
  - split; [done|]. intros H. destruct (H p ltac:(by left)) as (? & ? & ?). congruence.
Qed.

Lemma check_roles_None roles l :
  check_roles roles l = None ↔ ∀ k role, (k, role) ∈ l → check_parents roles role (Role_Parents role) = None.
Proof.
  induction l as [|[k role] l IH]; simpl; [split; [set_solver|done]|].
  destruct (check_parents roles role _) eqn:E.
  - split; [done|]. intros H. rewrite <- (H k role); [done|by left].
  - rewrite IH. split; [|set_solver]. intros H k' role' [?|?]%elem_of_cons; simplify_eq; eauto.
Qed.

Lemma check_roles_range `{GoRuntime} roles seed : check_roles roles (range_map seed roles) = None ↔ parents_ok roles.
Proof.
  rewrite check_roles_None. setoid_rewrite elem_of_range_map. setoid_rewrite check_parents_None.
  unfold parents_ok. set_solver.
Qed.

Lemma check_parents_error roles role ps e :
  check_parents roles role ps = Some e →
  errors_Is e ErrUnknownParentRole = true ∨ errors_Is e ErrCrossTenantInheritance = true.
Proof.
  induction ps as [|p ps IH]; simpl; [done|].
  destruct (roles !! p); [|by intros; simplify_eq; left].
  destruct (negb _); [by intros; simplify_eq; right|done].
Qed.

Lemma check_roles_error roles l e :
  check_roles roles l = Some e →
  errors_Is e ErrUnknownParentRole = true ∨ errors_Is e ErrCrossTenantInheritance = true.
Proof.
  induction l as [|[k role] l IH]; simpl; [done|].
  destruct (check_parents _ _ _) eqn:E; [|done]. intros; simplify_eq. by eapply check_parents_error.
Qed.

Lemma edge_dom roles r p : edge roles r p → r ∈ dom roles.
Proof.
  unfold edge, parents_of. destruct (roles !! r) eqn:E; [by apply elem_of_dom_2 in E|by intros ?%not_elem_of_nil].
Qed.

(** ** The depth-first search *)

(** Every state is one of the three, and inheritance is well-founded above
    the roles that are done. *)
Definition search_inv (roles : gmap string Role) (states : gmap string Z) : Prop :=
  ∀ r z, states !! r = Some z → z = 1 ∨ z = 2 ∧ Acc (flip (edge roles)) r.

(** From [states] to [states'] the roles on the path are the same and the
    roles that were done still are. *)
Definition search_step (states states' : gmap string Z) : Prop :=
  (∀ g, states' !! g = Some 1 ↔ states !! g = Some 1) ∧
  (∀ b, states !! b = Some 2 → states' !! b = Some 2).

(** The unvisited roles bound the recursion. *)
Definition unvisited (roles : gmap string Role) (states : gmap string Z) : nat :=
  size (dom roles ∖ dom states).

Definition search_pre (roles : gmap string Role) (fuel : nat) (states : gmap string Z) (r : RoleID) : Prop :=
  search_inv roles states ∧ (unvisited roles states < fuel)%nat ∧
  ∀ g, states !! g = Some 1 → tc (edge roles) g r.

(** What a search from the roles [rs] returns. *)
Definition search_post (roles : gmap string Role) (states : gmap string Z) (rs : list RoleID)
    (res : result (gmap string Z)) : Prop :=
  match res with
  | Ok states' => search_inv roles states' ∧ search_step states states' ∧
      ∀ r, r ∈ rs → states' !! r = Some 2
  | Err e => e = ErrRoleCycle ∧ ∃ x, tc (edge roles) x x
  end.

Lemma search_step_refl states : search_step states states.
Proof. by split. Qed.

Lemma search_step_trans s1 s2 s3 : search_step s1 s2 → search_step s2 s3 → search_step s1 s3.
Proof. intros [G1 B1] [G2 B2]. split; [intros g; by rewrite G2|eauto]. Qed.

Lemma search_step_dom roles s1 s2 :
  search_inv roles s1 → search_step s1 s2 → (unvisited roles s2 ≤ unvisited roles s1)%nat.
Proof.
  intros Hinv [G B]. apply subseteq_size. intros x [Hx Hn]%elem_of_difference.
  apply elem_of_difference. split; [done|]. intros [z Hz]%elem_of_dom. apply Hn, elem_of_dom.
  destruct (Hinv _ _ Hz) as [->|[-> _]]; eexists; [by apply G|by apply B].
Qed.

Lemma visit_list_post roles fuel states rs :
  (∀ states r, search_pre roles fuel states r →
     search_post roles states [r] (visit fuel roles states r)) →
  (∀ r, r ∈ rs → search_pre roles fuel states r) → search_inv roles states →
  search_post roles states rs (visit_list (visit fuel roles) states rs).
Proof.
  intros Hvisit. revert states. induction rs as [|r rs IH]; intros states Hpre Hinv; simpl.
  { split_and!; [done|apply search_step_refl|]. by intros r []%not_elem_of_nil. }
  pose proof (Hvisit states r (Hpre r ltac:(by left))) as Hr.
  destruct (visit fuel roles states r) as [states1|e]; simpl; [|done].
  destruct Hr as (Hinv1 & Hstep1 & Hdone1). pose proof (search_step_dom _ _ _ Hinv Hstep1).
  assert (search_post roles states1 rs (visit_list (visit fuel roles) states1 rs)) as Hrs.
  { apply IH; [|done]. intros r' Hr'. destruct (Hpre r' ltac:(by right)) as (_ & ? & Hg).
    split_and!; [done|lia|]. intros g Hg1. apply Hg. by apply Hstep1. }
  destruct (visit_list _ _ _) as [states2|e]; [|done]. destruct Hrs as (Hinv2 & Hstep2 & Hdone2).
  split_and!; [done|by eapply search_step_trans|].
  intros r' [->|Hr']%elem_of_cons; [|by apply Hdone2]. apply Hstep2, Hdone1. by left.
Qed.

Lemma visit_post roles fuel states r :
  search_pre roles fuel states r → search_post roles states [r] (visit fuel roles states r).
Proof.
  revert states r. induction fuel as [|fuel IH]; intros states r (Hinv & Hfuel & Hgray); [lia|]. simpl.
  destruct (states !! r) as [z|] eqn:Er; simpl.
  { destruct (Hinv _ _ Er) as [->|[-> _]]; simpl.
    - split; [done|]. exists r. by apply Hgray.
    - split_and!; [done|apply search_step_refl|]. by intros r' ->%list_elem_of_singleton. }
  set (states1 := <[r := 1]> states).
  assert (search_inv roles states1) as Hinv1.
  { intros x z. unfold states1. destruct (decide (r = x)) as [<-|Hne].
    - rewrite lookup_insert_eq. intros; simplify_eq. by left.
    - rewrite lookup_insert_ne by done. apply Hinv. }
  assert (search_post roles states1 (parents_of roles r)
    (visit_list (visit fuel roles) states1 (parents_of roles r))) as Hpost.
  { apply visit_list_post; [done| |done]. intros p Hp. split_and!; [done| |].
    - assert (unvisited roles states1 < unvisited roles states)%nat; [|lia].
      apply subset_size. pose proof (edge_dom roles r p Hp). apply not_elem_of_dom in Er.
      unfold states1. rewrite dom_insert_L. set_solver.
    - intros g. unfold states1. destruct (decide (r = g)) as [<-|Hne].
      + intros _. by apply tc_once.
      + rewrite lookup_insert_ne by done. intros Hg. eapply tc_r; [by apply Hgray|done]. }
  destruct (visit_list _ _ _) as [states2|e]; simpl; [|done].
  destruct Hpost as (Hinv2 & [Hg2 Hb2] & Hdone2). split_and!.
  - intros x z. destruct (decide (r = x)) as [<-|Hne].
    + rewrite lookup_insert_eq. intros; simplify_eq. right. split; [done|]. constructor. intros p Hp.
      destruct (Hinv2 p 2) as [?|[_ ?]]; [by apply Hdone2|lia|done].
    + rewrite lookup_insert_ne by done. apply Hinv2.
  - split.
    + intros g. destruct (decide (r = g)) as [<-|Hne].
      * rewrite lookup_insert_eq, Er. split; intros; simplify_eq.
      * rewrite lookup_insert_ne, Hg2 by done. unfold states1. by rewrite lookup_insert_ne.
    + intros b Hb. destruct (decide (r = b)) as [<-|Hne]; [congruence|].
      rewrite lookup_insert_ne by done. apply Hb2. unfold states1. by rewrite lookup_insert_ne.
  - intros r' ->%list_elem_of_singleton. by rewrite lookup_insert_eq.
Qed.

Lemma Acc_no_cycle {A} (R : relation A) x : Acc (flip R) x → ¬ tc R x x.
Proof.
  intros Hacc. assert (Acc (flip (tc R)) x) as Hacc'.
  { clear -Hacc. induction Hacc as [x _ IH]. constructor. intros y Hy.
    inversion Hy as [? ? Hxy|? z ? Hxz Hzy]; subst; [by apply IH|].
    destruct (IH z Hxz) as [Hz]. by apply Hz. }
  induction Hacc' as [x _ IH]. intros Hx. by apply (IH x).
Qed.

(** The search over all roles decides acyclicity, in any order. *)
Lemma visit_all_spec `{GoRuntime} roles seed :
  parents_ok roles →
  match visit_list (visit (graph_fuel roles) roles) ∅ (range_map seed roles).*1 with
  | Ok _ => acyclic roles
  | Err e => e = ErrRoleCycle ∧ ¬ acyclic roles
  end.
Proof.
  intros Hok.
  assert (search_post roles ∅ (range_map seed roles).*1
    (visit_list (visit (graph_fuel roles) roles) ∅ (range_map seed roles).*1)) as Hpost.
  { apply visit_list_post; [apply visit_post| |by intros ?]. intros r _. split_and!; [by intros ?| |done].
    unfold unvisited, graph_fuel. rewrite dom_empty_L, difference_empty_L, size_dom. lia. }
  destruct (visit_list _ _ _) as [states|e].
  - destruct Hpost as (Hinv & _ & Hdone). intros r Hr.
    assert (r ∈ dom roles) as [role Hrole]%elem_of_dom.
    { inversion Hr as [? ? Hrp|? ? ? Hrp]; by eapply edge_dom. }
    destruct (Hinv r 2) as [?|[_ Hacc]]; [|lia|by apply (Acc_no_cycle _ _ Hacc)].
    apply Hdone. apply (list_elem_of_fmap_2 fst _ (r, role)). by apply elem_of_range_map.
  - destruct Hpost as [-> [x Hx]]. split; [done|]. intros Ha. by apply (Ha x).
Qed.

(** ** Depths *)

(** The length of the longest chain of parents above a role. *)
Definition is_height (roles : gmap string Role) (r : RoleID) (d : nat) : Prop :=
  (∃ x, nsteps (edge roles) d r x) ∧ ∀ m x, nsteps (edge roles) m r x → (m ≤ d)%nat.

Definition memo_inv (roles : gmap string Role) (depths : gmap string Z) : Prop :=
  ∀ r z, depths !! r = Some z → ∃ d, z = Z.of_nat d ∧ is_height roles r d.

Definition chains_below (roles : gmap string Role) (fuel : nat) (r : RoleID) : Prop :=
  ∀ m x, nsteps (edge roles) m r x → (m < fuel)%nat.

Lemma memo_inv_empty roles : memo_inv roles ∅.
Proof. intros r z. by rewrite lookup_empty. Qed.

Lemma depth_list_spec roles fuel depths mx ids :
  (∀ depths r, chains_below roles fuel r → memo_inv roles depths →
     ∃ d depths', depth fuel roles depths r = Ok (Z.of_nat d, depths') ∧
       is_height roles r d ∧ memo_inv roles depths') →
  (∀ r, r ∈ ids → chains_below roles fuel r) → memo_inv roles depths →
  ∃ d depths', depth_list (depth fuel roles) depths (Z.of_nat mx) ids = Ok (Z.of_nat d, depths') ∧
    memo_inv roles depths' ∧ (mx ≤ d)%nat ∧
    (∀ r, r ∈ ids → ∃ h, is_height roles r h ∧ (S h ≤ d)%nat) ∧
    (d = mx ∨ ∃ r h, r ∈ ids ∧ is_height roles r h ∧ d = S h).
Proof.
  intros Hdepth. revert depths mx. induction ids as [|r ids IH]; intros depths mx Hb Hm; simpl.
  { exists mx, depths. split_and!; [done|done|lia|by intros r []%not_elem_of_nil|by left]. }
  destruct (Hdepth depths r (Hb r ltac:(by left)) Hm) as (h & depths1 & -> & Hh & Hm1). simpl.
  destruct (IH depths1 (Nat.max mx (S h))) as (d & depths2 & E & Hm2 & Hle & Hall & Hd);
    [intros r' Hr'; apply Hb; by right|done|].
  exists d, depths2. split_and!; [|done|lia| |].
  - rewrite <- E. f_equal. lia.
  - intros r' [->|Hr']%elem_of_cons; [exists h; split; [done|lia]|by apply Hall].
  - destruct Hd as [->|(r' & h' & ? & ? & ->)]; [|right; exists r', h'; split_and!; [by right|done|done]].
    destruct (Nat.max_spec mx (S h)) as [[_ ->]|[_ ->]]; [|by left].
    right. exists r, h. split_and!; [by left|done|done].
Qed.

Lemma depth_spec roles fuel depths r :
  chains_below roles fuel r → memo_inv roles depths →
  ∃ d depths', depth fuel roles depths r = Ok (Z.of_nat d, depths') ∧
    is_height roles r d ∧ memo_inv roles depths'.
Proof.
  revert depths r. induction fuel as [|fuel IH]; intros depths r Hb Hm.
  { specialize (Hb 0%nat r ltac:(constructor)). lia. }
  simpl. destruct (depths !! r) as [z|] eqn:Er.
  { destruct (Hm _ _ Er) as (d & -> & Hd). by exists d, depths. }
  destruct (depth_list_spec roles fuel depths 0 (parents_of roles r) IH) as (d & depths1 & E & Hm1 & _ & Hall & Hd).
  - intros p Hp m x Hx. assert (S m < S fuel)%nat; [|lia]. apply (Hb (S m) x). by eapply nsteps_l.
  - done.
  - change (Z.of_nat 0) with 0 in E. rewrite E. simpl. assert (is_height roles r d) as Hh.
    { split.
      - destruct Hd as [->|(p & h & Hp & [[x Hx] _] & ->)]; [exists r; constructor|].
        exists x. by eapply nsteps_l.
      - intros m x Hx. inversion Hx as [|m' ? p ? Hp Hx']; simplify_eq; [lia|].
        destruct (Hall p Hp) as (h & [_ Hh] & Hle). specialize (Hh _ _ Hx'). lia. }
    eexists d, _. split_and!; [done|done|]. intros r' z.
    destruct (decide (r = r')) as [<-|Hne].
    + rewrite lookup_insert_eq. intros; simplify_eq. by exists d.
    + rewrite lookup_insert_ne by done. apply Hm1.
Qed.

(** A chain of an acyclic graph visits distinct roles. *)
Lemma chain_nodes roles m r x :
  acyclic roles → nsteps (edge roles) m r x →
  ∃ l, length l = m ∧ NoDup l ∧ ∀ y, y ∈ l → y ∈ dom roles ∧ rtc (edge roles) r y.
Proof.
  intros Ha. induction 1 as [r|m r p x Hrp _ IH].
  { exists []. split_and!; [done|constructor|by intros y []%not_elem_of_nil]. }
  destruct IH as (l & <- & Hnd & Hl). exists (r :: l). split_and!; [done| |].
  - constructor; [|done]. intros Hr. destruct (Hl r Hr) as [_ Hpr]. apply (Ha r).
    by eapply tc_rtc_r; [apply tc_once|].
  - intros y [->|Hy]%elem_of_cons.
    + split; [by eapply edge_dom|apply rtc_refl].
    + destruct (Hl y Hy). split; [done|]. by eapply rtc_l.
Qed.

Lemma acyclic_chains roles r : acyclic roles → chains_below roles (graph_fuel roles) r.
Proof.
  intros Ha m x Hx. destruct (chain_nodes _ _ _ _ Ha Hx) as (l & <- & Hnd & Hl).
  assert (length l ≤ size (dom roles))%nat as Hle; [|rewrite size_dom in Hle; unfold graph_fuel; lia].
  rewrite <- (size_list_to_set (C := gset string)) by done. apply subseteq_size. intros y Hy.
  apply Hl. by apply elem_of_list_to_set in Hy.
Qed.

Lemma check_depths_spec roles maxDepth depths ids :
  acyclic roles → memo_inv roles depths →
  match check_depths (graph_fuel roles) roles maxDepth depths ids with
  | None => ∀ r d, r ∈ ids → is_height roles r d → Z.of_nat d ≤ maxDepth
  | Some e => errors_Is e ErrInheritanceDepthExceeded = true ∧
      ∃ r d, is_height roles r d ∧ maxDepth < Z.of_nat d
  end.
Proof.
  intros Ha. revert depths. induction ids as [|r ids IH]; intros depths Hm; cbn [check_depths].
  { by intros r d []%not_elem_of_nil. }
  destruct (depth_spec roles (graph_fuel roles) depths r (acyclic_chains roles r Ha) Hm)
    as (d & depths1 & -> & Hd & Hm1).
  destruct (Z.ltb_spec maxDepth (Z.of_nat d)) as [Hlt|Hle].
  { split; [done|]. by exists r, d. }
  specialize (IH depths1 Hm1). destruct (check_depths _ _ _ _ ids); [done|].
  intros r' d' [->|Hr']%elem_of_cons Hd'; [|by eapply IH].
  destruct Hd as [_ Hd], Hd' as [[x Hx] _]. specialize (Hd _ _ Hx). lia.
Qed.

(** ** Closure *)

(** What one call of [addRoleClosure] adds: roles above the start, closed
    under parents as far as they are new. *)
Definition closure_step (roles : gmap string Role) (rs : list RoleID) (acc acc' : gset string) : Prop :=
  acc ⊆ acc' ∧ (∀ r, r ∈ rs → r ∈ acc') ∧
  (∀ x, x ∈ acc' → x ∈ acc ∨ ∃ r, r ∈ rs ∧ inherits roles r x) ∧
  (∀ x p, x ∈ acc' → x ∉ acc → edge roles x p → p ∈ acc').

Lemma closure_list roles fuel rs acc :
  (∀ r acc, (size (dom roles ∖ acc) < fuel)%nat → closure_step roles [r] acc (addRoleClosure fuel roles r acc)) →
  (size (dom roles ∖ acc) < fuel)%nat →
  closure_step roles rs acc (foldl (λ acc p, addRoleClosure fuel roles p acc) acc rs).
Proof.
  intros Hone. revert acc. induction rs as [|r rs IH]; intros acc Hfuel; simpl.
  { split_and!; [done|set_solver|by left|set_solver]. }
  destruct (Hone r acc Hfuel) as (Hsub & Hin & Hreach & Hclosed).
  destruct (IH (addRoleClosure fuel roles r acc)) as (Hsub' & Hin' & Hreach' & Hclosed').
  { eapply Nat.le_lt_trans; [|done]. apply subseteq_size. set_solver. }
  split_and!; [set_solver|set_solver| |].
  - intros x [Hx|(r' & ? & ?)]%Hreach'; [|right; exists r'; split; [by right|done]].
    apply Hreach in Hx as [?|(r' & ->%list_elem_of_singleton & ?)]; [by left|].
    right. exists r. split; [by left|done].
  - intros x p Hx Hn Hp. destruct (decide (x ∈ addRoleClosure fuel roles r acc)) as [Hx'|Hx'].
    + apply Hsub'. by eapply Hclosed.
    + by eapply Hclosed'.
Qed.

Lemma addRoleClosure_step roles fuel r acc :
  (size (dom roles ∖ acc) < fuel)%nat → closure_step roles [r] acc (addRoleClosure fuel roles r acc).
Proof.
  revert r acc. induction fuel as [|fuel IH]; intros r acc Hfuel; [lia|]. simpl.
  case_bool_decide as Hr.
  { split_and!; [done|set_solver|by left|set_solver]. }
  assert (closure_step roles (parents_of roles r) ({[r]} ∪ acc)
    (foldl (λ acc p, addRoleClosure fuel roles p acc) ({[r]} ∪ acc) (parents_of roles r)))
    as (Hsub & Hin & Hreach & Hclosed).
  { destruct (parents_of roles r) as [|p ps] eqn:Ep.
    { split_and!; [done|set_solver|by left|set_solver]. }
    apply closure_list; [done|]. assert (edge roles r p) as He by (unfold edge; rewrite Ep; by left).
    apply edge_dom in He. eapply Nat.lt_le_trans; [|apply Nat.lt_succ_r, Hfuel]. apply subset_size. set_solver. }
  split_and!; [set_solver|set_solver| |].
  - intros x [Hx|(p & Hp & Hx)]%Hreach; [|right; exists r; split; [by left|by eapply rtc_l]].
    apply elem_of_union in Hx as [->%elem_of_singleton|?]; [|by left].
    right. exists r. split; [by left|apply rtc_refl].
  - intros x p Hx Hn Hp. destruct (decide (x = r)) as [->|Hne]; [by apply Hin|].
    eapply Hclosed; [done| |done]. set_solver.
Qed.

Definition closed (roles : gmap string Role) (acc : gset string) : Prop :=
  ∀ x p, x ∈ acc → edge roles x p → p ∈ acc.

Lemma closed_inherits roles acc r x : closed roles acc → r ∈ acc → inherits roles r x → x ∈ acc.
Proof. intros Hcl Hr Hx. induction Hx as [|y p z Hyp _ IH]; [done|]. apply IH. by eapply Hcl. Qed.

(** From a closed set, the closure adds exactly the inherited roles. *)
Lemma addRoleClosure_spec roles r acc :
  closed roles acc →
  closed roles (addRoleClosure (graph_fuel roles) roles r acc) ∧
  ∀ x, x ∈ addRoleClosure (graph_fuel roles) roles r acc ↔ x ∈ acc ∨ inherits roles r x.
Proof.
  intros Hcl. destruct (addRoleClosure_step roles (graph_fuel roles) r acc) as (Hsub & Hin & Hreach & Hnew).
  { unfold graph_fuel. rewrite <- (size_dom (D := gset string)). apply Nat.lt_succ_r, subseteq_size. set_solver. }
  assert (closed roles (addRoleClosure (graph_fuel roles) roles r acc)) as Hcl'.
  { intros x p Hx Hp. destruct (decide (x ∈ acc)); [apply Hsub; by eapply Hcl|by eapply Hnew]. }
  split; [done|]. intros x. split.
  - intros [?|(r' & ->%list_elem_of_singleton & ?)]%Hreach; auto.
  - intros [?|Hx]; [by apply Hsub|]. eapply closed_inherits; [done| |done]. apply Hin. by left.
Qed.

(** The closure of several roles. *)
Lemma closure_all roles rs x :
  x ∈ foldl (λ acc r, addRoleClosure (graph_fuel roles) roles r acc) ∅ rs ↔
  ∃ r, r ∈ rs ∧ inherits roles r x.
Proof.
  assert (∀ acc, closed roles acc →
    x ∈ foldl (λ acc r, addRoleClosure (graph_fuel roles) roles r acc) acc rs ↔
    x ∈ acc ∨ ∃ r, r ∈ rs ∧ inherits roles r x) as Hall.
  { induction rs as [|r rs IH]; intros acc Hcl; simpl; [set_solver|].
    destruct (addRoleClosure_spec roles r acc Hcl) as [Hcl' Hin]. rewrite IH, Hin by done. set_solver. }
  rewrite Hall by (by intros ? ? ?%not_elem_of_empty). set_solver.
Qed.

(** ** Theorems *)

Lemma depth_bounded_heights roles maxDepth :
  acyclic roles →
  depth_bounded roles maxDepth ∧ 0 ≤ maxDepth ↔
  (∀ r d, r ∈ dom roles → is_height roles r d → Z.of_nat d ≤ maxDepth) ∧ 0 ≤ maxDepth.
Proof.
  intros Ha. split; intros [Hb Hpos]; (split; [|done]).
  - intros r d _ [[x Hx] _]. by eapply Hb.
  - intros m r x Hx. destruct m as [|m]; [lia|].
    assert (r ∈ dom roles) as Hr by (inversion Hx; by eapply edge_dom).
    destruct (depth_spec roles (graph_fuel roles) ∅ r (acyclic_chains roles r Ha)) as (d & _ & _ & Hd & _);
      [apply memo_inv_empty|]. pose proof (Hb r d Hr Hd). destruct Hd as [_ Hd]. specialize (Hd _ _ Hx). lia.
Qed.

(** [validateInheritance] on every branch. *)
Lemma validateInheritance_cases `{GoRuntime} (roles : gmap string Role) (maxDepth : Z) :
  0 ≤ maxDepth →
  (validateInheritance roles maxDepth = None ↔
     parents_ok roles ∧ acyclic roles ∧ depth_bounded roles maxDepth) ∧
  (∀ e, validateInheritance roles maxDepth = Some e →
     ¬ parents_ok roles ∧ (errors_Is e ErrUnknownParentRole = true ∨ errors_Is e ErrCrossTenantInheritance = true) ∨
     parents_ok roles ∧ ¬ acyclic roles ∧ e = ErrRoleCycle ∨
     parents_ok roles ∧ acyclic roles ∧ ¬ depth_bounded roles maxDepth ∧
       errors_Is e ErrInheritanceDepthExceeded = true).
Proof.
  intros Hpos. unfold validateInheritance.
  destruct (check_roles roles _) as [e|] eqn:Ec.
  { assert (¬ parents_ok roles) as Hno by (rewrite <- (check_roles_range roles 0); congruence).
    split; [split; [done|tauto]|]. intros e' ?; simplify_eq. left. split; [done|]. by eapply check_roles_error. }
  apply check_roles_range in Ec. pose proof (visit_all_spec roles 1 Ec) as Hv.
  destruct (visit_list _ _ _) as [states|e]; cycle 1.
  { destruct Hv as [-> Hcyc]. split; [split; [done|tauto]|]. intros e ?; simplify_eq. by right; left. }
  pose proof (check_depths_spec roles maxDepth ∅ (range_map 2 roles).*1 Hv (memo_inv_empty roles)) as Hd.
  destruct (check_depths _ _ _ _ _) as [e|].
  - destruct Hd as (He & r & d & [[x Hx] _] & Hlt).
    assert (¬ depth_bounded roles maxDepth) as Hnd by (intros Hb; specialize (Hb _ _ _ Hx); lia).
    split; [split; [done|tauto]|]. intros e' ?; simplify_eq. right; right. by split_and!.
  - split; [|done]. split; [intros _|done]. split_and!; [done|done|].
    apply (proj2 (depth_bounded_heights roles maxDepth Hv)). split; [|done].
    intros r d [role Hr]%elem_of_dom. apply Hd. apply (list_elem_of_fmap_2 fst _ (r, role)).
    by apply elem_of_range_map.
Qed.

Lemma graph_valid `{GoRuntime} roles maxDepth :
  0 ≤ maxDepth → validateInheritance roles maxDepth = None ↔
  parents_ok roles ∧ acyclic roles ∧ depth_bounded roles maxDepth.
Proof. intros Hpos. apply (validateInheritance_cases roles maxDepth Hpos). Qed.

(** C30. [validateInheritance] decides the conditions on the role graph,
    whatever the order in which the role map is visited: it accepts exactly
    when every parent exists in the same tenant, inheritance has no cycle and
    no chain of parents is longer than the limit; a graph with valid parents
    and a cycle is reported as a cycle, an acyclic one that is too deep as
    too deep. The searches always finish. *)
Theorem validateInheritance_spec `{GoRuntime} (roles : gmap string Role) (maxDepth : Z) :
  0 ≤ maxDepth →
  (validateInheritance roles maxDepth = None ↔
     parents_ok roles ∧ acyclic roles ∧ depth_bounded roles maxDepth) ∧
  (∀ e, validateInheritance roles maxDepth = Some e →
     ¬ parents_ok roles ∧ (errors_Is e ErrUnknownParentRole = true ∨ errors_Is e ErrCrossTenantInheritance = true) ∨
     parents_ok roles ∧ ¬ acyclic roles ∧ e = ErrRoleCycle ∨
     parents_ok roles ∧ acyclic roles ∧ ¬ depth_bounded roles maxDepth ∧
       errors_Is e ErrInheritanceDepthExceeded = true).
Proof. apply validateInheritance_cases. Qed.

Definition example_roles : gmap string Role :=
  {["admin" := mkRole "admin" "acme" ["editor"]; "editor" := mkRole "editor" "acme" ["viewer"];
    "viewer" := mkRole "viewer" "acme" []]}.

Lemma validateInheritance_spec_witness :
  acyclic example_roles ∧ ¬ depth_bounded example_roles 1.
Proof.
  destruct (@validateInheritance_spec plain_runtime example_roles 32 ltac:(done)) as [[H _] _].
  destruct (@validateInheritance_spec reverse_runtime example_roles 1 ltac:(done)) as [_ H'].
  split; [apply H; reflexivity|].
  edestruct H' as [(_ & [?|?])|[(_ & _ & ?)|(_ & _ & ? & _)]]; [vm_compute; reflexivity|done..].
Defined.

(** [addRoleClosure] collects exactly the inherited roles: started from
    the empty set, the set holds the roles reachable through parents. *)
Theorem addRoleClosure_reachable (roles : gmap string Role) (rs : list RoleID) (x : RoleID) :
  x ∈ foldl (λ acc r, addRoleClosure (graph_fuel roles) roles r acc) ∅ rs ↔
  ∃ r, r ∈ rs ∧ inherits roles r x.
Proof.
  apply closure_all.
Qed.
