(* ===== verification/RBAC.v ===== *)
(** * Role-based access control (rbac/rbac.go)

    Module [rbac] is the package: [New] checks and indexes roles, permissions
    and assignments; [EffectivePermissions] collects the permissions of every
    role a subject or its groups reach; [Evaluate] lets denies override. *)

From S2P Require Import Prelude Attribute Request Decision Snapshot Engine Matching RoleGraph.

#[local] Open Scope Z_scope.

Module rbac.

(** ** Data *)

Definition ErrInvalidRole := errors_New "invalid RBAC role".
Definition ErrDuplicateRole := errors_New "duplicate RBAC role".
Definition ErrInvalidPermission := errors_New "invalid RBAC permission".
Definition ErrDuplicatePermission := errors_New "duplicate RBAC permission".
Definition ErrInvalidAssignment := errors_New "invalid RBAC assignment".
Definition ErrDuplicateAssignment := errors_New "duplicate RBAC assignment".
Definition ErrUnknownRole := errors_New "RBAC role does not exist".
Definition ErrRoleTenantMismatch := errors_New "RBAC role tenant mismatch".
Definition ErrRoleLimitExceeded := errors_New "RBAC role limit exceeded".
Definition ErrPermissionLimitExceeded := errors_New "RBAC permission limit exceeded".
Definition ErrAssignmentLimitExceeded := errors_New "RBAC assignment limit exceeded".
Definition ErrGroupLimitExceeded := errors_New "RBAC group limit exceeded".
Definition ErrMatchLimitExceeded := errors_New "RBAC match limit exceeded".
Definition ErrBatchLimitExceeded := errors_New "RBAC batch limit exceeded".

Definition ReasonAllow : ReasonCode := "rbac-allow".
Definition ReasonExplicitDeny : ReasonCode := "rbac-explicit-deny".
Definition ReasonLimitExceeded : ReasonCode := "rbac-limit-exceeded".

Record Limits := mkLimits {
  MaxInheritanceDepth : Z;
  MaxRoles : Z;
  MaxPermissions : Z;
  MaxAssignments : Z;
  MaxGroups : Z;
  MaxMatches : Z;
  MaxBatchSize : Z
}.

Definition default_limits : Limits := mkLimits 32 1000 10000 10000 100 100 1000.

Record Permission := mkPermission {
  Permission_ID : PolicyID;
  Permission_RoleID : RoleID;
  Permission_Tenant : TenantID;
  Permission_Action : Action;
  Permission_ResourceType : ResourceType;
  Permission_ResourceID : ResourceID;
  Permission_Effect : Outcome;
  Permission_Priority : Z
}.

Record Assignment := mkAssignment {
  Assignment_ID : PolicyID;
  Assignment_Subject : Subject;
  Assignment_RoleID : RoleID;
  Assignment_Tenant : TenantID
}.

(** [subjectKey]: kind and identifier. *)
Abbreviation subjectKey := (SubjectKind * SubjectID)%type.

Record Evaluator := mkRBACEvaluator {
  roles : gmap string Role;
  permissions : gmap string (list Permission);
  assignments : gmap subjectKey (list Assignment);
  limits : Limits;
  inheritGlobal : bool
}.

Definition Option := Evaluator → Evaluator.

(** ** Construction *)

Definition WithLimits (ls : Limits) : Option := λ evaluator,
  let current := limits evaluator in
  mkRBACEvaluator (roles evaluator) (permissions evaluator) (assignments evaluator)
    (mkLimits (positive_or (MaxInheritanceDepth ls) (MaxInheritanceDepth current))
              (positive_or (MaxRoles ls) (MaxRoles current))
              (positive_or (MaxPermissions ls) (MaxPermissions current))
              (positive_or (MaxAssignments ls) (MaxAssignments current))
              (positive_or (MaxGroups ls) (MaxGroups current))
              (positive_or (MaxMatches ls) (MaxMatches current))
              (positive_or (MaxBatchSize ls) (MaxBatchSize current)))
    (inheritGlobal evaluator).

Definition WithGlobalInheritance : Option := λ evaluator,
  mkRBACEvaluator (roles evaluator) (permissions evaluator) (assignments evaluator) (limits evaluator) true.

(** The loop of [New] over the roles. *)
Fixpoint role_loop (index : nat) (acc : gmap string Role) (rs : list Role) : result (gmap string Role) :=
  match rs with
  | [] => Ok acc
  | role :: rs =>
      if bool_decide (Role_ID role = "") then
        Err (fmt_Errorf "role %d: %w" [FmtInt (Z.of_nat index)] ErrInvalidRole)
      else if bool_decide (is_Some (acc !! Role_ID role)) then
        Err (fmt_Errorf "role %q: %w" [FmtString (Role_ID role)] ErrDuplicateRole)
      else role_loop (S index) (<[Role_ID role := role]> acc) rs
  end.

Definition validPermission (permission : Permission) : bool :=
  if bool_decide ("" ∈ [Permission_ID permission; Permission_RoleID permission;
                        Permission_Action permission; Permission_ResourceType permission])
  then false
  else match Permission_Effect permission with Allow | Deny => true | _ => false end.

Definition validAssignment (assignment : Assignment) : bool :=
  negb (bool_decide ("" ∈ [Assignment_ID assignment; Subject_Kind (Assignment_Subject assignment);
                           Subject_ID (Assignment_Subject assignment); Assignment_RoleID assignment])).

(** The loop of [New] over the permissions. *)
Fixpoint permission_loop (rs : gmap string Role) (index : nat) (permissionIDs : gset string)
    (acc : gmap string (list Permission)) (ps : list Permission) : result (gmap string (list Permission)) :=
  match ps with
  | [] => Ok acc
  | permission :: ps =>
      if negb (validPermission permission) then
        Err (fmt_Errorf "permission %d: %w" [FmtInt (Z.of_nat index)] ErrInvalidPermission)
      else if bool_decide (Permission_ID permission ∈ permissionIDs) then
        Err (fmt_Errorf "permission %q: %w" [FmtString (Permission_ID permission)] ErrDuplicatePermission)
      else match rs !! Permission_RoleID permission with
      | None => Err (fmt_Errorf "permission %q role %q: %w"
                       [FmtString (Permission_ID permission); FmtString (Permission_RoleID permission)] ErrUnknownRole)
      | Some role =>
          if negb (bool_decide (Role_Tenant role = Permission_Tenant permission)) then
            Err (fmt_Errorf "permission %q: %w" [FmtString (Permission_ID permission)] ErrRoleTenantMismatch)
          else
            permission_loop rs (S index) ({[Permission_ID permission]} ∪ permissionIDs)
              (<[Permission_RoleID permission :=
                   default [] (acc !! Permission_RoleID permission) ++ [permission]]> acc) ps
      end
  end.

Definition assignment_key (assignment : Assignment) : subjectKey :=
  (Subject_Kind (Assignment_Subject assignment), Subject_ID (Assignment_Subject assignment)).

(** The loop of [New] over the assignments. *)
Fixpoint assignment_loop (rs : gmap string Role) (index : nat) (assignmentIDs : gset string)
    (acc : gmap subjectKey (list Assignment)) (asgs : list Assignment) : result (gmap subjectKey (list Assignment)) :=
  match asgs with
  | [] => Ok acc
  | assignment :: asgs =>
      if negb (validAssignment assignment) then
        Err (fmt_Errorf "assignment %d: %w" [FmtInt (Z.of_nat index)] ErrInvalidAssignment)
      else if bool_decide (Assignment_ID assignment ∈ assignmentIDs) then
        Err (fmt_Errorf "assignment %q: %w" [FmtString (Assignment_ID assignment)] ErrDuplicateAssignment)
      else match rs !! Assignment_RoleID assignment with
      | None => Err (fmt_Errorf "assignment %q role %q: %w"
                       [FmtString (Assignment_ID assignment); FmtString (Assignment_RoleID assignment)] ErrUnknownRole)
      | Some role =>
          if negb (bool_decide (Role_Tenant role = Assignment_Tenant assignment)) then
            Err (fmt_Errorf "assignment %q: %w" [FmtString (Assignment_ID assignment)] ErrRoleTenantMismatch)
          else
            assignment_loop rs (S index) ({[Assignment_ID assignment]} ∪ assignmentIDs)
              (<[assignment_key assignment :=
                   default [] (acc !! assignment_key assignment) ++ [assignment]]> acc) asgs
      end
  end.

Definition New `{GoRuntime} (rs : list Role) (ps : list Permission) (asgs : list Assignment)
    (options : list Option) : result Evaluator :=
  let evaluator := foldl (λ evaluator option, option evaluator)
                     (mkRBACEvaluator ∅ ∅ ∅ default_limits false) options in
  let ls := limits evaluator in
  if MaxRoles ls <? len rs then Err ErrRoleLimitExceeded
  else if MaxPermissions ls <? len ps then Err ErrPermissionLimitExceeded
  else if MaxAssignments ls <? len asgs then Err ErrAssignmentLimitExceeded
  else
    roleMap ← role_loop 0 (roles evaluator) rs;
    match validateInheritance roleMap (MaxInheritanceDepth ls) with
    | Some err => Err err
    | None =>
        permissionMap ← permission_loop roleMap 0 ∅ (permissions evaluator) ps;
        assignmentMap ← assignment_loop roleMap 0 ∅ (assignments evaluator) asgs;
        Ok (mkRBACEvaluator roleMap permissionMap assignmentMap ls (inheritGlobal evaluator))
    end.

(** ** EffectivePermissions *)

Definition matchesTenant (evaluator : Evaluator) (policyTenant requestTenant : TenantID) : bool :=
  if bool_decide (policyTenant = requestTenant) then true
  else inheritGlobal evaluator && bool_decide (policyTenant = "") && negb (bool_decide (requestTenant = "")).

(** The subject followed by its groups. *)
Definition principals (subject : Subject) : list subjectKey :=
  (Subject_Kind subject, Subject_ID subject) :: ((λ groupID, (SubjectGroup, groupID)) <$> Subject_Groups subject).

(** The inner loop over the assignments of one principal. *)
Definition assigned_roles (evaluator : Evaluator) (tenant : TenantID) (roleIDs : gset string)
    (asgs : list Assignment) : gset string :=
  foldl (λ roleIDs assignment,
           if matchesTenant evaluator (Assignment_Tenant assignment) tenant
           then addRoleClosure (graph_fuel (roles evaluator)) (roles evaluator) (Assignment_RoleID assignment) roleIDs
           else roleIDs) roleIDs asgs.

Definition role_ids (evaluator : Evaluator) (subject : Subject) (tenant : TenantID) : gset string :=
  foldl (λ roleIDs principal,
           assigned_roles evaluator tenant roleIDs (default [] (assignments evaluator !! principal)))
    ∅ (principals subject).

(** The comparison of [slices.SortFunc]. *)
Definition compare_permissions : Permission → Permission → Z :=
  by_priority Permission_Priority Permission_ID.

Definition EffectivePermissions `{GoRuntime} (evaluator : Evaluator) (ctx : Context) (subject : Subject)
    (tenant : TenantID) : M (list Permission * option error) :=
  err ← ctx_Err ctx;
  match err with
  | Some err => mret ([], Some err)
  | None =>
      if MaxGroups (limits evaluator) <? len (Subject_Groups subject)
      then mret ([], Some ErrGroupLimitExceeded)
      else
        let roleIDs := role_ids evaluator subject tenant in
        let collected := concat ((λ roleID, default [] (permissions evaluator !! roleID)) <$> range_set 0 roleIDs) in
        mret (SortFunc compare_permissions collected, None)
  end.

(** ** Evaluate *)

#[global] Instance permission_matched : Matched Permission := {|
  match_effect := Permission_Effect;
  match_id := Permission_ID;
  match_allow := ReasonAllow;
  match_deny := ReasonExplicitDeny
|}.

Definition permissionMatchesRequest (permission : Permission) (request : Request) : bool :=
  if negb (bool_decide (Permission_Action permission = Request_Action request)) then false
  else if negb (bool_decide (Permission_ResourceType permission = Resource_Type (Request_Resource request))) then false
  else if bool_decide (Permission_ResourceID permission = "") then true
  else bool_decide (Permission_ResourceID permission = Resource_ID (Request_Resource request)).

Definition limitDecision : Decision := bareDecision Deny ReasonLimitExceeded 0.

Definition Evaluate `{GoRuntime} (evaluator : Evaluator) (ctx : Context) (request : Request) :
    M (Decision * option error) :=
  '(ps, err) ← EffectivePermissions evaluator ctx (Request_Subject request) (Request_Tenant request);
  match err with
  | Some err =>
      let reason :=
        if errors_Is err context_Canceled || errors_Is err context_DeadlineExceeded
        then ReasonContextCanceled else ReasonLimitExceeded in
      mret (bareDecision Deny reason 0, Some err)
  | None =>
      match match_loop (MaxMatches (limits evaluator))
              (λ permission, negb (permissionMatchesRequest permission request))
              (bareDecision NotApplicable "" 0) ps with
      | None => mret (limitDecision, Some ErrMatchLimitExceeded)
      | Some decision => mret (decision, None)
      end
  end.

(** The evaluator as an implementation of [authorization.Evaluator]. *)
Definition as_evaluator `{GoRuntime} (evaluator : Evaluator) : Snapshot.Evaluator :=
  mkEvaluator (Evaluate evaluator).

(** ** EvaluateBatch *)

Definition EvaluateBatch `{GoRuntime} (evaluator : Evaluator) (ctx : Context) (requests : list Request) :
    M (list Decision * option error) :=
  if MaxBatchSize (limits evaluator) <? len requests
  then mret ([], Some ErrBatchLimitExceeded)
  else
    '(decisions, evaluationErrors) ← batch_loop (Evaluate evaluator ctx) requests;
    mret (decisions, errors_Join (Some <$> evaluationErrors)).

(** ** Specification *)

Definition tenant_applies (inherit : bool) (policyTenant requestTenant : TenantID) : Prop :=
  policyTenant = requestTenant ∨ inherit = true ∧ policyTenant = "" ∧ requestTenant ≠ "".

(** A permission is effective for a subject in a tenant: an applicable
    assignment of the subject or of a group leads to its role. *)
Definition effective (ev : Evaluator) (ps : list Permission) (asgs : list Assignment) (subject : Subject)
    (tenant : TenantID) (p : Permission) : Prop :=
  p ∈ ps ∧ ∃ a, a ∈ asgs ∧ assignment_key a ∈ principals subject ∧
    tenant_applies (inheritGlobal ev) (Assignment_Tenant a) tenant ∧
    inherits (roles ev) (Assignment_RoleID a) (Permission_RoleID p).

Definition permission_ok (rs : gmap string Role) (p : Permission) : Prop :=
  Permission_ID p ≠ "" ∧ Permission_RoleID p ≠ "" ∧ Permission_Action p ≠ "" ∧ Permission_ResourceType p ≠ "" ∧
  (Permission_Effect p = Allow ∨ Permission_Effect p = Deny) ∧
  ∃ role, rs !! Permission_RoleID p = Some role ∧ Role_Tenant role = Permission_Tenant p.

Definition assignment_ok (rs : gmap string Role) (a : Assignment) : Prop :=
  Assignment_ID a ≠ "" ∧ Subject_Kind (Assignment_Subject a) ≠ "" ∧ Subject_ID (Assignment_Subject a) ≠ "" ∧
  Assignment_RoleID a ≠ "" ∧
  ∃ role, rs !! Assignment_RoleID a = Some role ∧ Role_Tenant role = Assignment_Tenant a.

(** The state [New] publishes. *)
Record evaluator_wf (ev : Evaluator) (rs : list Role) (ps : list Permission) (asgs : list Assignment) : Prop := {
  wf_roles : ∀ r role, roles ev !! r = Some role ↔ role ∈ rs ∧ Role_ID role = r;
  wf_role_ids : NoDup (Role_ID <$> rs);
  wf_graph : parents_ok (roles ev) ∧ acyclic (roles ev) ∧ depth_bounded (roles ev) (MaxInheritanceDepth (limits ev));
  wf_permission_index : ∀ r, default [] (permissions ev !! r) = filter (λ p, Permission_RoleID p = r) ps;
  wf_permissions_ok : Forall (permission_ok (roles ev)) ps;
  wf_permission_ids : NoDup (Permission_ID <$> ps);
  wf_assignment_index : ∀ k, default [] (assignments ev !! k) = filter (λ a, assignment_key a = k) asgs;
  wf_assignments_ok : Forall (assignment_ok (roles ev)) asgs;
  wf_assignment_ids : NoDup (Assignment_ID <$> asgs)
}.

(** ** Lemmas on construction *)

Lemma rbac_matchesTenant_spec ev t t' : matchesTenant ev t t' = true ↔ tenant_applies (inheritGlobal ev) t t'.
Proof.
  unfold matchesTenant, tenant_applies. case_bool_decide as E; [by split; [left|]|].
  rewrite !andb_true_iff, negb_true_iff, bool_decide_eq_true, bool_decide_eq_false. tauto.
Qed.

Lemma role_loop_Ok index acc rs m :
  role_loop index acc rs = Ok m →
  NoDup (Role_ID <$> rs) ∧ (∀ role, role ∈ rs → Role_ID role ≠ "" ∧ acc !! Role_ID role = None) ∧
  ∀ r role, m !! r = Some role ↔ acc !! r = Some role ∨ role ∈ rs ∧ Role_ID role = r.
Proof.
  revert index acc. induction rs as [|x rs IH]; intros index acc; simpl.
  { intros; simplify_eq. split_and!; [constructor|set_solver|set_solver]. }
  case_bool_decide as Eid; [done|]. case_bool_decide as Edup; [done|].
  apply eq_None_not_Some in Edup. intros (Hnd & Hnew & Hm)%IH. split_and!.
  - csimpl. constructor; [|done]. intros (y & E & Hy)%list_elem_of_fmap.
    destruct (Hnew y Hy) as [_ Hn]. rewrite E, lookup_insert_eq in Hn. done.
  - intros y [->|Hy]%elem_of_cons; [done|]. destruct (Hnew y Hy) as [? Hn]. split; [done|].
    by apply lookup_insert_None in Hn as [? _].
  - intros r role. rewrite Hm, elem_of_cons. destruct (decide (Role_ID x = r)) as [<-|Hne].
    + rewrite lookup_insert_eq. split.
      * intros [?|[? ?]]; [simplify_eq; auto|auto].
      * intros [?|[[->|?] ?]]; [congruence|by left|by right].
    + rewrite lookup_insert_ne by done. split; [intros [?|[? ?]]; auto|].
      intros [?|[[->|?] ?]]; [by left|done|by right].
Qed.

Lemma validPermission_spec p :
  validPermission p = true ↔
  Permission_ID p ≠ "" ∧ Permission_RoleID p ≠ "" ∧ Permission_Action p ≠ "" ∧ Permission_ResourceType p ≠ "" ∧
  (Permission_Effect p = Allow ∨ Permission_Effect p = Deny).
Proof.
  unfold validPermission. case_bool_decide as E.
  - split; [done|]. intros (? & ? & ? & ? & _). rewrite !elem_of_cons in E.
    destruct E as [E|[E|[E|[E|E%not_elem_of_nil]]]]; congruence || done.
  - rewrite !not_elem_of_cons in E. destruct E as (? & ? & ? & ? & _).
    destruct (Permission_Effect p); split; try done; auto 10; intros (_ & _ & _ & _ & [?|?]); done.
Qed.

Lemma validAssignment_spec a :
  validAssignment a = true ↔
  Assignment_ID a ≠ "" ∧ Subject_Kind (Assignment_Subject a) ≠ "" ∧ Subject_ID (Assignment_Subject a) ≠ "" ∧
  Assignment_RoleID a ≠ "".
Proof.
  unfold validAssignment. rewrite negb_true_iff, bool_decide_eq_false, !not_elem_of_cons.
  split; [intros (? & ? & ? & ? & _); auto 10|].
  intros (? & ? & ? & ?). split_and!; try done. apply not_elem_of_nil.
Qed.

Lemma permission_loop_Ok rs index ids acc ps m :
  permission_loop rs index ids acc ps = Ok m →
  Forall (permission_ok rs) ps ∧ NoDup (Permission_ID <$> ps) ∧ (∀ p, p ∈ ps → Permission_ID p ∉ ids) ∧
  ∀ r, default [] (m !! r) = default [] (acc !! r) ++ filter (λ p, Permission_RoleID p = r) ps.
Proof.
  revert index ids acc. induction ps as [|p ps IH]; intros index ids acc; simpl.
  { intros; simplify_eq. split_and!; [constructor|constructor|set_solver|]. intros r. by rewrite app_nil_r. }
  destruct (validPermission p) eqn:Ev; simpl; [|done]. case_bool_decide as Ed; [done|].
  destruct (rs !! Permission_RoleID p) as [role|] eqn:Er; [|done]. case_bool_decide as Et; simpl; [|done].
  intros (H1 & H2 & H3 & H4)%IH. apply validPermission_spec in Ev as (? & ? & ? & ? & ?). split_and!.
  - constructor; [|done]. split_and!; [done..|eauto].
  - csimpl. constructor; [|done]. intros (q & E & Hq)%list_elem_of_fmap. apply (H3 q Hq). rewrite E. set_solver.
  - intros q [->|Hq]%elem_of_cons; [done|]. specialize (H3 q Hq). set_solver.
  - intros r. rewrite H4, filter_cons. destruct (decide (Permission_RoleID p = r)) as [<-|Hne].
    + rewrite lookup_insert_eq. simpl. by rewrite <- app_assoc.
    + by rewrite lookup_insert_ne.
Qed.

Lemma assignment_loop_Ok rs index ids acc asgs m :
  assignment_loop rs index ids acc asgs = Ok m →
  Forall (assignment_ok rs) asgs ∧ NoDup (Assignment_ID <$> asgs) ∧ (∀ a, a ∈ asgs → Assignment_ID a ∉ ids) ∧
  ∀ k, default [] (m !! k) = default [] (acc !! k) ++ filter (λ a, assignment_key a = k) asgs.
Proof.
  revert index ids acc. induction asgs as [|a asgs IH]; intros index ids acc; simpl.
  { intros; simplify_eq. split_and!; [constructor|constructor|set_solver|]. intros k. by rewrite app_nil_r. }
  destruct (validAssignment a) eqn:Ev; simpl; [|done]. case_bool_decide as Ed; [done|].
  destruct (rs !! Assignment_RoleID a) as [role|] eqn:Er; [|done]. case_bool_decide as Et; simpl; [|done].
  intros (H1 & H2 & H3 & H4)%IH. apply validAssignment_spec in Ev as (? & ? & ? & ?). split_and!.
  - constructor; [|done]. split_and!; [done..|eauto].
  - csimpl. constructor; [|done]. intros (q & E & Hq)%list_elem_of_fmap. apply (H3 q Hq). rewrite E. set_solver.
  - intros q [->|Hq]%elem_of_cons; [done|]. specialize (H3 q Hq). set_solver.
  - intros k. rewrite H4, filter_cons. destruct (decide (assignment_key a = k)) as [<-|Hne].
    + rewrite lookup_insert_eq. simpl. by rewrite <- app_assoc.
    + by rewrite lookup_insert_ne.
Qed.

(** The options the package provides, and the limits they leave. *)
Inductive library_option : Option → Prop :=
| option_global : library_option WithGlobalInheritance
| option_limits ls : library_option (WithLimits ls).

Definition limits_positive (l : Limits) : Prop :=
  0 < MaxInheritanceDepth l ∧ 0 < MaxRoles l ∧ 0 < MaxPermissions l ∧ 0 < MaxAssignments l ∧
  0 < MaxGroups l ∧ 0 < MaxMatches l ∧ 0 < MaxBatchSize l.

Definition configured (options : list Option) : Evaluator :=
  foldl (λ evaluator option, option evaluator) (mkRBACEvaluator ∅ ∅ ∅ default_limits false) options.

Lemma configured_spec options :
  Forall library_option options →
  roles (configured options) = ∅ ∧ permissions (configured options) = ∅ ∧ assignments (configured options) = ∅ ∧
  limits_positive (limits (configured options)).
Proof.
  unfold configured. intros Hopts.
  assert (∀ ev, roles ev = ∅ ∧ permissions ev = ∅ ∧ assignments ev = ∅ ∧ limits_positive (limits ev) →
    let ev' := foldl (λ evaluator option, option evaluator) ev options in
    roles ev' = ∅ ∧ permissions ev' = ∅ ∧ assignments ev' = ∅ ∧ limits_positive (limits ev')) as Hall.
  { induction Hopts as [|o options Ho _ IH]; intros ev Hev; [done|]. simpl. apply IH.
    destruct Hev as (? & ? & ? & (? & ? & ? & ? & ? & ? & ?)).
    destruct Ho as [|ls]; simpl; (split_and!; [done..|]); [by split_and!|].
    unfold limits_positive; simpl. split_and!; by apply positive_or_pos. }
  apply Hall. by split_and!.
Qed.

(** What [New] guarantees. *)
Lemma rbac_New_Ok `{GoRuntime} rs ps asgs options ev :
  Forall library_option options → New rs ps asgs options = Ok ev →
  evaluator_wf ev rs ps asgs ∧ limits_positive (limits ev).
Proof.
  intros Hopts. destruct (configured_spec options Hopts) as (Hr & Hp & Ha & Hl).
  unfold New. fold (configured options). destruct (_ <? len rs); [done|]. destruct (_ <? len ps); [done|].
  destruct (_ <? len asgs); [done|]. rewrite Hr, Hp, Ha.
  destruct (role_loop _ _ _) as [rm|] eqn:Er; simpl; [|done].
  destruct (validateInheritance _ _) eqn:Ei; [done|].
  destruct (permission_loop _ _ _ _ _) as [pm|] eqn:Ep; simpl; [|done].
  destruct (assignment_loop _ _ _ _ _) as [am|] eqn:Ea; simpl; [|done]. intros; simplify_eq.
  apply role_loop_Ok in Er as (? & _ & Hrm). apply permission_loop_Ok in Ep as (? & ? & _ & Hpm).
  apply assignment_loop_Ok in Ea as (? & ? & _ & Ham).
  apply graph_valid in Ei; [|destruct Hl; lia]. split; [|done]. split; simpl; try done.
  intros r role. rewrite Hrm, lookup_empty. split; [by intros [?|?]|by right].
Qed.

(** ** Lemmas on effective permissions *)

Lemma assigned_roles_spec ev tenant acc asgs :
  closed (roles ev) acc →
  closed (roles ev) (assigned_roles ev tenant acc asgs) ∧
  ∀ x, x ∈ assigned_roles ev tenant acc asgs ↔
    x ∈ acc ∨ ∃ a, a ∈ asgs ∧ tenant_applies (inheritGlobal ev) (Assignment_Tenant a) tenant ∧
                   inherits (roles ev) (Assignment_RoleID a) x.
Proof.
  unfold assigned_roles. revert acc. induction asgs as [|a asgs IH]; intros acc Hcl; cbn [foldl].
  { split; [done|]. set_solver. }
  destruct (matchesTenant ev (Assignment_Tenant a) tenant) eqn:Et.
  - apply rbac_matchesTenant_spec in Et.
    destruct (addRoleClosure_spec (roles ev) (Assignment_RoleID a) acc Hcl) as [Hcl' Hin].
    destruct (IH _ Hcl') as [? Hx]. split; [done|]. intros x. rewrite Hx, Hin. set_solver.
  - assert (¬ tenant_applies (inheritGlobal ev) (Assignment_Tenant a) tenant)
      by (rewrite <- rbac_matchesTenant_spec; congruence).
    destruct (IH _ Hcl) as [? Hx]. split; [done|]. intros x. rewrite Hx. set_solver.
Qed.

Lemma role_ids_spec ev rs ps asgs subject tenant x :
  evaluator_wf ev rs ps asgs →
  x ∈ role_ids ev subject tenant ↔
  ∃ a, a ∈ asgs ∧ assignment_key a ∈ principals subject ∧
    tenant_applies (inheritGlobal ev) (Assignment_Tenant a) tenant ∧
    inherits (roles ev) (Assignment_RoleID a) x.
Proof.
  intros Hwf. unfold role_ids.
  assert (∀ ks acc, closed (roles ev) acc →
    x ∈ foldl (λ roleIDs k, assigned_roles ev tenant roleIDs (default [] (assignments ev !! k))) acc ks ↔
    x ∈ acc ∨ ∃ a, a ∈ asgs ∧ assignment_key a ∈ ks ∧
      tenant_applies (inheritGlobal ev) (Assignment_Tenant a) tenant ∧
      inherits (roles ev) (Assignment_RoleID a) x) as Hall.
  { induction ks as [|k ks IH]; intros acc Hcl; simpl; [set_solver|].
    destruct (assigned_roles_spec ev tenant acc (default [] (assignments ev !! k)) Hcl) as [Hcl' Hin].
    rewrite IH, Hin, (wf_assignment_index _ _ _ _ Hwf) by done.
    setoid_rewrite list_elem_of_filter. setoid_rewrite elem_of_cons.
    split; [intros [[?|(a & [? ?] & ? & ?)]|(a & ? & ? & ? & ?)]; [by left|right; exists a; auto 10..]|].
    intros [?|(a & ? & [?|?] & ? & ?)]; [auto|left; right; exists a; auto|right; exists a; auto]. }
  rewrite Hall by (by intros ? ? ?%not_elem_of_empty). set_solver.
Qed.

(** The canonical list of effective permissions. *)
Definition effective_list (ev : Evaluator) (ps : list Permission) (subject : Subject) (tenant : TenantID) :
    list Permission :=
  SortFunc compare_permissions (filter (λ p, Permission_RoleID p ∈ role_ids ev subject tenant) ps).

#[global] Instance compare_permissions_comparison : Comparison compare_permissions.
Proof. apply by_priority_comparison. Qed.

Lemma permissions_no_ties (l : list Permission) p q :
  NoDup (Permission_ID <$> l) → p ∈ l → q ∈ l →
  compare_permissions p q ≤ 0 → compare_permissions q p ≤ 0 → p = q.
Proof.
  intros Hnd Hp Hq H1 H2. eapply NoDup_fmap_elem_inj; [done..|]. by eapply by_priority_antisym.
Qed.

(** Under a live context, and whatever the order in which the role set is
    visited, the result is the canonical list. *)
Lemma EffectivePermissions_list `{GoRuntime} ev rs ps asgs ctx subject tenant n `{!ContextLive ctx} :
  evaluator_wf ev rs ps asgs →
  EffectivePermissions ev ctx subject tenant n =
    (Ret (if MaxGroups (limits ev) <? len (Subject_Groups subject) then ([], Some ErrGroupLimitExceeded)
          else (effective_list ev ps subject tenant, None)), S n).
Proof.
  intros Hwf. unfold EffectivePermissions. rewrite ctx_Err_bind, ctx_live.
  destruct (_ <? _); [done|]. rewrite M_ret_run. do 3 f_equal. unfold effective_list.
  apply SortFunc_permutation_invariant; [apply _| |].
  - intros p q Hp Hq. apply (permissions_no_ties ps); [apply (wf_permission_ids _ _ _ _ Hwf)|..];
      by apply list_elem_of_filter in Hp as [_ ?], Hq as [_ ?].
  - assert ((λ r, default [] (permissions ev !! r)) <$> range_set 0 (role_ids ev subject tenant) =
      (λ r, filter (λ p, Permission_RoleID p = r) ps) <$> range_set 0 (role_ids ev subject tenant)) as ->.
    { apply list_fmap_ext. intros i r _. apply (wf_permission_index _ _ _ _ Hwf). }
    rewrite concat_filter_keys_perm.
    + erewrite list_filter_iff; [done|]. intros p. apply elem_of_range_set.
    + rewrite range_set_perm. apply NoDup_elements.
Qed.

(** ** Theorems *)

(** [EffectivePermissions] returns exactly the permissions of the roles
    reached, through inheritance, from an applicable assignment of the
    subject or one of its groups, each once, in descending priority then
    ascending identifier; too many groups are an error. *)
Theorem rbac_EffectivePermissions_spec `{GoRuntime} (rs : list Role) (ps : list Permission)
    (asgs : list Assignment) (options : list Option) (ev : Evaluator) (ctx : Context)
    (subject : Subject) (tenant : TenantID) (n : nat) `{!ContextLive ctx} :
  Forall library_option options → New rs ps asgs options = Ok ev →
  ∃ l err n', EffectivePermissions ev ctx subject tenant n = (Ret (l, err), n') ∧
    (MaxGroups (limits ev) < len (Subject_Groups subject) → l = [] ∧ err = Some ErrGroupLimitExceeded) ∧
    (len (Subject_Groups subject) ≤ MaxGroups (limits ev) →
       err = None ∧ (∀ p, p ∈ l ↔ effective ev ps asgs subject tenant p) ∧
       NoDup (Permission_ID <$> l) ∧
       StronglySorted (λ p q, Permission_Priority q < Permission_Priority p ∨
         Permission_Priority p = Permission_Priority q ∧ String.le (Permission_ID p) (Permission_ID q)) l).
Proof.
  intros Hopts Hnew. destruct (rbac_New_Ok _ _ _ _ _ Hopts Hnew) as [Hwf _].
  rewrite (EffectivePermissions_list ev rs ps asgs) by done.
  destruct (Z.ltb_spec (MaxGroups (limits ev)) (len (Subject_Groups subject))).
  - eexists _, _, _. split; [done|]. split; [done|]. lia.
  - eexists _, _, _. split; [done|]. split; [lia|]. intros _. split; [done|]. unfold effective_list. split_and!.
    + intros p. rewrite elem_of_SortFunc, list_elem_of_filter, (role_ids_spec _ _ _ _ _ _ _ Hwf).
      unfold effective. tauto.
    + rewrite SortFunc_perm. apply NoDup_fmap_filter, (wf_permission_ids _ _ _ _ Hwf).
    + eapply StronglySorted_weaken, SortFunc_sorted; [|apply _]. intros p q. apply by_priority_le.
Qed.

Definition example_role_list : list Role :=
  [mkRole "admin" "acme" ["editor"]; mkRole "editor" "acme" ["viewer"]; mkRole "viewer" "acme" []].

Definition example_permissions : list Permission :=
  [mkPermission "p-read" "viewer" "acme" "read" "document" "" Allow 0;
   mkPermission "p-write" "editor" "acme" "write" "document" "" Allow 5;
   mkPermission "p-secret" "admin" "acme" "read" "document" "secret" Deny 9].

Definition example_assignments : list Assignment :=
  [mkAssignment "a1" (mkSubject "user" "alice" [] None) "admin" "acme";
   mkAssignment "a2" (mkSubject "group" "staff" [] None) "viewer" "acme"].

Definition alice : Subject := mkSubject "user" "alice" ["staff"] None.

Definition example_evaluator : Evaluator :=
  match @New plain_runtime example_role_list example_permissions example_assignments [] with
  | Ok ev => ev
  | Err _ => mkRBACEvaluator ∅ ∅ ∅ default_limits false
  end.

Lemma example_evaluator_New :
  @New plain_runtime example_role_list example_permissions example_assignments [] = Ok example_evaluator.
Proof. vm_compute. reflexivity. Qed.

Lemma example_evaluator_New_reverse :
  @New reverse_runtime example_role_list example_permissions example_assignments [] = Ok example_evaluator.
Proof. vm_compute. reflexivity. Qed.

Lemma example_effective :
  @EffectivePermissions reverse_runtime example_evaluator context_Background alice "acme" 0%nat =
    (Ret ([mkPermission "p-secret" "admin" "acme" "read" "document" "secret" Deny 9;
           mkPermission "p-write" "editor" "acme" "write" "document" "" Allow 5;
           mkPermission "p-read" "viewer" "acme" "read" "document" "" Allow 0], None), 1%nat).
Proof. vm_compute. reflexivity. Qed.

Lemma rbac_EffectivePermissions_spec_witness :
  ∃ l, @EffectivePermissions reverse_runtime example_evaluator context_Background alice "acme" 0%nat =
      (Ret (l, None), 1%nat) ∧
    NoDup (Permission_ID <$> l) ∧ Permission_ID <$> l = ["p-secret"; "p-write"; "p-read"].
Proof.
  destruct (@rbac_EffectivePermissions_spec reverse_runtime example_role_list example_permissions
    example_assignments [] example_evaluator context_Background alice "acme" 0%nat (λ _, eq_refl) ltac:(constructor)
    example_evaluator_New_reverse) as (l & err & n' & E & _ & H).
  destruct (H ltac:(vm_compute; discriminate)) as (-> & _ & Hnd & _). exists l.
  rewrite example_effective in E. injection E as <- <-. split; [exact example_effective|]. by split.
Defined.

(** A permission matches a request: same action and type, and the request's
    resource or every resource. *)
Definition permission_matches (request : Request) (p : Permission) : Prop :=
  Permission_Action p = Request_Action request ∧
  Permission_ResourceType p = Resource_Type (Request_Resource request) ∧
  (Permission_ResourceID p = "" ∨ Permission_ResourceID p = Resource_ID (Request_Resource request)).

#[global] Typeclasses Opaque permission_matches.
#[global] Instance permission_matches_dec request p : base.Decision (permission_matches request p).
Proof. unfold permission_matches. apply _. Defined.

Lemma permissionMatchesRequest_spec request p :
  negb (permissionMatchesRequest p request) = false ↔ permission_matches request p.
Proof.
  rewrite negb_false_iff. unfold permissionMatchesRequest, permission_matches.
  repeat case_bool_decide; simpl; split; try done; try tauto.
Qed.

(** The canonical matches of a request. *)
Definition request_matches (ev : Evaluator) (ps : list Permission) (request : Request) : list Permission :=
  filter (permission_matches request) (effective_list ev ps (Request_Subject request) (Request_Tenant request)).

(** Evaluation under a live context, case by case. *)
Lemma rbac_Evaluate_list `{GoRuntime} ev rs ps asgs ctx request n `{!ContextLive ctx} :
  evaluator_wf ev rs ps asgs → 0 < MaxMatches (limits ev) →
  Evaluate ev ctx request n =
    (Ret (if MaxGroups (limits ev) <? len (Subject_Groups (Request_Subject request))
          then (limitDecision, Some ErrGroupLimitExceeded)
          else if MaxMatches (limits ev) <? len (request_matches ev ps request)
          then (limitDecision, Some ErrMatchLimitExceeded)
          else (match_decision (request_matches ev ps request), None)), S n).
Proof.
  intros Hwf Hmax. unfold Evaluate. erewrite M_bind_Ret by (by eapply EffectivePermissions_list).
  destruct (_ <? len (Subject_Groups _)); [done|]. cbn iota beta.
  rewrite match_loop_spec by (unfold len; simpl; lia). simpl.
  rewrite (list_filter_iff _ _ _ (permissionMatchesRequest_spec request)). fold (request_matches ev ps request).
  autorewrite with go. rewrite Z.add_0_l. destruct (_ <? len (request_matches _ _ _)); [done|].
  rewrite add_match_verdict; [done|]. apply Forall_forall. intros p [_ Hp]%list_elem_of_filter.
  unfold effective_list in Hp. rewrite elem_of_SortFunc in Hp. apply list_elem_of_filter in Hp as [_ Hp].
  pose proof (wf_permissions_ok _ _ _ _ Hwf) as Hok. rewrite Forall_forall in Hok.
  by destruct (Hok p Hp) as (_ & _ & _ & _ & ? & _).
Qed.

(** The evaluator keeps the engine's evaluator contract. *)
#[global] Instance rbac_evaluator_laws `{GoRuntime} ev : EvaluatorLaws (as_evaluator ev).
Proof.
  intros ctx request n. simpl. unfold Evaluate, EffectivePermissions. unfold mbind, M_bind. simpl.
  destruct (Err_at ctx n); [by eexists _, _, _|]. destruct (_ <? _); [by eexists _, _, _|]. simpl.
  destruct (match_loop _ _ _ _) as [d|] eqn:E; [|by eexists _, _, _].
  eexists d, None, _. split_and!; [done| |by intros []]. by refine (match_loop_outcome _ _ _ _ _ _ E).
Qed.

(** C13. RBAC evaluation is deny-overrides over the effective permissions
    that match the request: for a constructed evaluator under a live context
    too many groups or matches are errors that deny; otherwise the decision
    denies when an effective matching permission denies, allows when one
    exists and none denies, does not apply when there is none, and lists the
    matching identifiers by descending priority then identifier. *)
Theorem rbac_Evaluate_spec `{GoRuntime} (rs : list Role) (ps : list Permission) (asgs : list Assignment)
    (options : list Option) (ev : Evaluator) (ctx : Context) (request : Request) (n : nat) `{!ContextLive ctx} :
  Forall library_option options → New rs ps asgs options = Ok ev →
  ∃ ms, (∀ p, p ∈ ms ↔ effective ev ps asgs (Request_Subject request) (Request_Tenant request) p ∧
                        permission_matches request p) ∧ NoDup ms ∧
    StronglySorted (λ p q, Permission_Priority q < Permission_Priority p ∨
      Permission_Priority p = Permission_Priority q ∧ String.le (Permission_ID p) (Permission_ID q)) ms ∧
    Evaluate ev ctx request n =
      (Ret (if MaxGroups (limits ev) <? len (Subject_Groups (Request_Subject request))
            then (limitDecision, Some ErrGroupLimitExceeded)
            else if MaxMatches (limits ev) <? len ms then (limitDecision, Some ErrMatchLimitExceeded)
            else (match_decision ms, None)), S n) ∧
    (Decision_Outcome (match_decision ms) = Deny ↔ ∃ p, p ∈ ms ∧ Permission_Effect p = Deny) ∧
    (Decision_Outcome (match_decision ms) = Allow ↔
       ms ≠ [] ∧ ∀ p, p ∈ ms → Permission_Effect p = Allow).
Proof.
  intros Hopts Hnew. destruct (rbac_New_Ok _ _ _ _ _ Hopts Hnew) as [Hwf Hl].
  assert (∀ p, p ∈ request_matches ev ps request ↔
    effective ev ps asgs (Request_Subject request) (Request_Tenant request) p ∧ permission_matches request p) as Hin.
  { intros p. unfold request_matches, effective_list, effective.
    rewrite list_elem_of_filter, elem_of_SortFunc, list_elem_of_filter, (role_ids_spec _ _ _ _ _ _ _ Hwf). tauto. }
  exists (request_matches ev ps request). split_and!; [done|..]; simpl.
  - apply (NoDup_fmap_1 Permission_ID). unfold request_matches, effective_list.
    apply NoDup_fmap_filter. rewrite SortFunc_perm. apply NoDup_fmap_filter, (wf_permission_ids _ _ _ _ Hwf).
  - apply StronglySorted_filter. eapply StronglySorted_weaken, SortFunc_sorted; [|apply _].
    intros p q. apply by_priority_le.
  - by rewrite (rbac_Evaluate_list ev rs ps asgs) by (done || apply Hl).
  - rewrite verdict_deny, Exists_exists. done.
  - rewrite verdict_allow, <- Forall_Exists_neg, Forall_forall. split; intros [Hne Hd].
    + split; [by intros E; rewrite E in Hne; apply Nat.lt_irrefl in Hne|]. intros p Hp. specialize (Hd p Hp).
      apply Hin in Hp as [[Hp _] _]. pose proof (wf_permissions_ok _ _ _ _ Hwf) as Hok.
      rewrite Forall_forall in Hok. by destruct (Hok p Hp) as (_ & _ & _ & _ & [?|?] & _).
    + split; [destruct (request_matches ev ps request); [done|simpl; lia]|]. intros p Hp Hden.
      unfold denies in Hden. simpl in Hden. rewrite (Hd p Hp) in Hden. done.
Qed.

Definition alice_request (action rid : string) : Request :=
  mkRequest alice action (mkResource "document" rid None) "acme" (mkEnvironment 5 None) None.

Lemma example_decision :
  @Evaluate plain_runtime example_evaluator context_Background (alice_request "read" "secret") 0%nat =
    (Ret (mkDecision Deny ReasonExplicitDeny ["p-secret"; "p-read"] false 0 [] false, None), 1%nat).
Proof. vm_compute. reflexivity. Qed.

Lemma rbac_Evaluate_spec_witness :
  ∃ ms, @Evaluate plain_runtime example_evaluator context_Background (alice_request "read" "secret") 0%nat =
      (Ret (match_decision ms, None), 1%nat) ∧
    Decision_MatchedPolicyIDs (match_decision ms) = ["p-secret"; "p-read"] ∧
    ∃ p, p ∈ ms ∧ Permission_Effect p = Deny.
Proof.
  destruct (@rbac_Evaluate_spec plain_runtime example_role_list example_permissions
    example_assignments [] example_evaluator context_Background (alice_request "read" "secret") 0%nat (λ _, eq_refl)
    ltac:(constructor) example_evaluator_New) as (ms & _ & _ & _ & E & Hd & _).
  exists ms. rewrite example_decision in E |- *. destruct (_ <? _); [discriminate E|]. destruct (_ <? _); [discriminate E|].
  assert (match_decision ms = mkDecision Deny ReasonExplicitDeny ["p-secret"; "p-read"] false 0 [] false) as Em by congruence.
  clear E. rewrite Em in Hd |- *. split; [reflexivity|]. split; [reflexivity|]. by apply Hd.
Defined.

(** Construction does not depend on the order of map visits. *)
Lemma rbac_New_order (rt1 rt2 : GoRuntime) rs ps asgs options ev :
  Forall library_option options →
  @New rt1 rs ps asgs options = Ok ev → @New rt2 rs ps asgs options = Ok ev.
Proof.
  intros Hopts. destruct (configured_spec options Hopts) as (_ & _ & _ & Hl).
  unfold New. fold (configured options). destruct (_ <? len rs); [done|]. destruct (_ <? len ps); [done|].
  destruct (_ <? len asgs); [done|]. destruct (role_loop _ _ _) as [rm|]; simpl; [|done].
  assert (0 ≤ MaxInheritanceDepth (limits (configured options))) as Hd by (destruct Hl; lia).
  destruct (@validateInheritance rt1 rm _) eqn:E1; [done|].
  apply (@graph_valid rt1) in E1; [|done]. by rewrite (proj2 (@graph_valid rt2 _ _ Hd) E1).
Qed.

(** Results do not depend on the order in which Go visits maps: a
    construction that succeeds under one order succeeds with the same
    evaluator under any other, and effective permissions and decisions are
    the same in every run. *)
Theorem rbac_order_independent (rt1 rt2 : GoRuntime) (rs : list Role) (ps : list Permission)
    (asgs : list Assignment) (options : list Option) (ev : Evaluator) :
  Forall library_option options → @New rt1 rs ps asgs options = Ok ev →
  @New rt2 rs ps asgs options = Ok ev ∧
  (∀ ctx subject tenant n, @EffectivePermissions rt1 ev ctx subject tenant n =
                           @EffectivePermissions rt2 ev ctx subject tenant n) ∧
  (∀ ctx request n, @Evaluate rt1 ev ctx request n = @Evaluate rt2 ev ctx request n).
Proof.
  intros Hopts Hnew. destruct (rbac_New_Ok _ _ _ _ _ Hopts Hnew) as [Hwf _].
  split; [exact (rbac_New_order rt1 rt2 _ _ _ _ _ Hopts Hnew)|].
  assert (∀ ctx subject tenant n, @EffectivePermissions rt1 ev ctx subject tenant n =
                           @EffectivePermissions rt2 ev ctx subject tenant n) as Heff.
  { intros ctx subject tenant n. destruct (Err_at ctx n) eqn:Ec.
    - unfold EffectivePermissions. by rewrite !ctx_Err_bind, Ec.
    - assert (∀ rt : GoRuntime, @EffectivePermissions rt ev ctx subject tenant n =
        @EffectivePermissions rt ev context_Background subject tenant n) as Hbg.
      { intros rt. unfold EffectivePermissions. by rewrite !ctx_Err_bind, Ec. }
      rewrite (Hbg rt1), (Hbg rt2). assert (ContextLive context_Background) by done.
      by rewrite (@EffectivePermissions_list rt1 ev rs ps asgs), (@EffectivePermissions_list rt2 ev rs ps asgs). }
  split; [done|]. intros ctx request n. unfold Evaluate, mbind, M_bind. by rewrite Heff.
Qed.

Lemma rbac_order_independent_witness :
  @New plain_runtime example_role_list example_permissions example_assignments [] = Ok example_evaluator ∧
  @New reverse_runtime example_role_list example_permissions example_assignments [] = Ok example_evaluator.
Proof.
  split; [exact example_evaluator_New|].
  apply (rbac_order_independent plain_runtime reverse_runtime example_role_list example_permissions
    example_assignments [] _ ltac:(constructor)). exact example_evaluator_New.
Defined.

(** Inheritance stays in the tenant. *)
Lemma inherits_tenant rs r x role :
  parents_ok rs → inherits rs r x → rs !! r = Some role →
  ∃ role', rs !! x = Some role' ∧ Role_Tenant role' = Role_Tenant role.
Proof.
  intros Hok Hx. revert role. induction Hx as [|r p x Hrp _ IH]; intros role Hr; [eauto|].
  unfold edge, parents_of in Hrp. rewrite Hr in Hrp. destruct (Hok _ _ _ Hr Hrp) as (parent & Hp & <-).
  by apply IH.
Qed.

(** C36. Tenant isolation: every permission effective in a tenant belongs to
    that tenant, or is global while the request is tenant-scoped and global
    inheritance was switched on. *)
Theorem rbac_tenant_isolation `{GoRuntime} (rs : list Role) (ps : list Permission) (asgs : list Assignment)
    (options : list Option) (ev : Evaluator) (ctx : Context) (subject : Subject) (tenant : TenantID)
    (n : nat) (l : list Permission) (n' : nat) (p : Permission) `{!ContextLive ctx} :
  Forall library_option options → New rs ps asgs options = Ok ev →
  EffectivePermissions ev ctx subject tenant n = (Ret (l, None), n') → p ∈ l →
  Permission_Tenant p = tenant ∨
  inheritGlobal ev = true ∧ Permission_Tenant p = "" ∧ tenant ≠ "".
Proof.
  intros Hopts Hnew. destruct (rbac_New_Ok _ _ _ _ _ Hopts Hnew) as [Hwf _].
  rewrite (EffectivePermissions_list ev rs ps asgs) by done. destruct (_ <? _); intros E Hp; simplify_eq.
  unfold effective_list in Hp. rewrite elem_of_SortFunc in Hp. apply list_elem_of_filter in Hp as [Hr Hp].
  rewrite (role_ids_spec _ _ _ _ _ _ _ Hwf) in Hr. destruct Hr as (a & Ha & _ & Ht & Hinh).
  pose proof (wf_permissions_ok _ _ _ _ Hwf) as Hpok. pose proof (wf_assignments_ok _ _ _ _ Hwf) as Haok.
  rewrite Forall_forall in Hpok. rewrite Forall_forall in Haok.
  destruct (Hpok p Hp) as (_ & _ & _ & _ & _ & prole & Hprole & <-).
  destruct (Haok a Ha) as (_ & _ & _ & _ & arole & Harole & Eat).
  destruct (inherits_tenant _ _ _ _ (proj1 (wf_graph _ _ _ _ Hwf)) Hinh Harole) as (r' & Hr' & Et).
  rewrite Hprole in Hr'. simplify_eq. rewrite Et, Eat. done.
Qed.

Definition alice_permissions : list Permission :=
  [mkPermission "p-secret" "admin" "acme" "read" "document" "secret" Deny 9;
   mkPermission "p-write" "editor" "acme" "write" "document" "" Allow 5;
   mkPermission "p-read" "viewer" "acme" "read" "document" "" Allow 0].

Lemma alice_effective :
  @EffectivePermissions plain_runtime example_evaluator context_Background alice "acme" 0%nat = (Ret (alice_permissions, None), 1%nat).
Proof. vm_compute. reflexivity. Qed.

Lemma rbac_tenant_isolation_witness :
  ∃ p, p ∈ alice_permissions ∧
    (Permission_Tenant p = "acme" ∨ inheritGlobal example_evaluator = true ∧ Permission_Tenant p = "" ∧ "acme" ≠ "").
Proof.
  eexists. split; [by left|].
  refine (@rbac_tenant_isolation plain_runtime example_role_list example_permissions example_assignments []
    example_evaluator context_Background alice "acme" 0%nat _ _ _ (λ _, eq_refl) ltac:(constructor) example_evaluator_New
    alice_effective _). by left.
Defined.

End rbac.
