(* ===== verification/RBACManager.v ===== *)
(** * Assignment administration (rbac/manager.go)

    A [Manager] holds roles, permissions, assignments and options behind a
    mutex; every operation runs under it, so an operation is one step from a
    state to a state. *)

From S2P Require Import Prelude Request Decision Snapshot Engine RoleGraph RBAC.
Import rbac.

#[local] Open Scope Z_scope.

(** ** Data and operations *)

Record Manager := mkManager {
  manager_roles : list Role;
  manager_permissions : list Permission;
  manager_assignments : list Assignment;
  manager_options : list Option;
  manager_revision : Revision
}.

Definition cloneRoles (rs : list Role) : list Role :=
  (λ role, mkRole (Role_ID role) (Role_Tenant role) ([] ++ Role_Parents role)) <$> rs.

Definition cloneAssignment (assignment : Assignment) : Assignment :=
  let subject := Assignment_Subject assignment in
  mkAssignment (Assignment_ID assignment)
    (mkSubject (Subject_Kind subject) (Subject_ID subject) ([] ++ Subject_Groups subject) (Subject_Attributes subject))
    (Assignment_RoleID assignment) (Assignment_Tenant assignment).

Definition cloneAssignments (asgs : list Assignment) : list Assignment := cloneAssignment <$> asgs.

Definition NewManager `{GoRuntime} (rs : list Role) (ps : list Permission) (asgs : list Assignment)
    (options : list Option) : result Manager :=
  _ ← New rs ps asgs options;
  Ok (mkManager (cloneRoles rs) ([] ++ ps) (cloneAssignments asgs) ([] ++ options) 1).

Definition Manager_Assign `{GoRuntime} (manager : Manager) (assignment : Assignment) : option error * Manager :=
  let candidate := cloneAssignments (manager_assignments manager) ++ [cloneAssignment assignment] in
  match New (manager_roles manager) (manager_permissions manager) candidate (manager_options manager) with
  | Err err => (Some err, manager)
  | Ok _ =>
      (None, mkManager (manager_roles manager) (manager_permissions manager) candidate
               (manager_options manager) (uint64_add (manager_revision manager) 1))
  end.

(** The index of the first assignment with the identifier. *)
Fixpoint find_assignment (id : PolicyID) (index : nat) (asgs : list Assignment) : option nat :=
  match asgs with
  | [] => None
  | assignment :: asgs =>
      if negb (bool_decide (Assignment_ID assignment = id)) then find_assignment id (S index) asgs
      else Some index
  end.

Definition Manager_RevokeAssignment (manager : Manager) (id : PolicyID) : bool * Manager :=
  match find_assignment id 0 (manager_assignments manager) with
  | Some index =>
      (true, mkManager (manager_roles manager) (manager_permissions manager)
               (take index (manager_assignments manager) ++ drop (index + 1) (manager_assignments manager))
               (manager_options manager) (uint64_add (manager_revision manager) 1))
  | None => (false, manager)
  end.

Definition Manager_Assignments (manager : Manager) (subject : Subject) (tenant : TenantID) : list Assignment :=
  omap (λ assignment,
          if bool_decide (Subject_Kind (Assignment_Subject assignment) = Subject_Kind subject) &&
             bool_decide (Subject_ID (Assignment_Subject assignment) = Subject_ID subject) &&
             bool_decide (Assignment_Tenant assignment = tenant)
          then Some (cloneAssignment assignment) else None) (manager_assignments manager).

Definition Manager_Evaluator `{GoRuntime} (manager : Manager) : result Evaluator :=
  New (manager_roles manager) (manager_permissions manager) (manager_assignments manager) (manager_options manager).

Definition Manager_Revision (manager : Manager) : Revision := manager_revision manager.

(** ** Steps *)

Inductive manager_step `{GoRuntime} : Manager → Manager → Prop :=
| step_assign manager assignment manager' :
    Manager_Assign manager assignment = (None, manager') → manager_step manager manager'
| step_revoke manager id manager' :
    Manager_RevokeAssignment manager id = (true, manager') → manager_step manager manager'.

(** ** Lemmas *)

Lemma cloneAssignment_id a : cloneAssignment a = a.
Proof. by destruct a as [? [] ? ?]. Qed.

Lemma cloneAssignments_id asgs : cloneAssignments asgs = asgs.
Proof.
  unfold cloneAssignments. etrans; [|apply list_fmap_id]. apply list_fmap_ext. intros. apply cloneAssignment_id.
Qed.

Lemma cloneRoles_id rs : cloneRoles rs = rs.
Proof. unfold cloneRoles. etrans; [|apply list_fmap_id]. apply list_fmap_ext. by intros ? []. Qed.

Lemma assignment_loop_complete rm index ids acc asgs :
  Forall (assignment_ok rm) asgs → NoDup (Assignment_ID <$> asgs) → (∀ a, a ∈ asgs → Assignment_ID a ∉ ids) →
  ∃ m, assignment_loop rm index ids acc asgs = Ok m.
Proof.
  revert index ids acc. induction asgs as [|a asgs IH]; intros index ids acc Hok Hnd Hids; simpl; [eauto|].
  apply Forall_cons in Hok as [(? & ? & ? & ? & role & Hr & Ht) Hok].
  csimpl in Hnd. apply NoDup_cons in Hnd as [Ha Hnd].
  rewrite (proj2 (validAssignment_spec a)) by done. simpl.
  rewrite (bool_decide_false (Assignment_ID a ∈ ids)) by (apply Hids; by left).
  rewrite Hr, (bool_decide_true (Role_Tenant role = _)) by done. simpl.
  apply IH; [done|done|]. intros b Hb. rewrite not_elem_of_union, not_elem_of_singleton. split.
  - intros E. apply Ha. rewrite <- E. by apply list_elem_of_fmap_2.
  - apply Hids. by right.
Qed.

(** A valid configuration stays valid with fewer assignments. *)
Lemma New_fewer_assignments `{GoRuntime} rs ps asgs asgs' options ev :
  Forall library_option options → New rs ps asgs options = Ok ev → asgs' `sublist_of` asgs →
  ∃ ev', New rs ps asgs' options = Ok ev'.
Proof.
  intros Hopts Hnew Hsub. destruct (rbac_New_Ok _ _ _ _ _ Hopts Hnew) as [Hwf _].
  pose proof (wf_assignments_ok _ _ _ _ Hwf) as Hok. pose proof (wf_assignment_ids _ _ _ _ Hwf) as Hnd.
  revert Hnew. unfold New. destruct (_ <? len rs); [done|]. destruct (_ <? len ps); [done|].
  destruct (Z.ltb_spec (MaxAssignments (limits (foldl (λ evaluator option, option evaluator)
    (mkRBACEvaluator ∅ ∅ ∅ default_limits false) options))) (len asgs)) as [|Hle]; [done|].
  rewrite (proj2 (Z.ltb_ge _ _)) by (apply sublist_length in Hsub; unfold len in *; lia).
  destruct (role_loop _ _ _) as [rm|]; simpl; [|done]. destruct (validateInheritance _ _); [done|].
  destruct (permission_loop _ _ _ _ _) as [pm|]; simpl; [|done].
  destruct (assignment_loop _ _ _ _ asgs) as [am|] eqn:Ea; simpl; [|done]. intros E. injection E as <-. simpl in Hok.
  destruct (assignment_loop_complete rm 0 ∅ (assignments (foldl (λ evaluator option, option evaluator)
    (mkRBACEvaluator ∅ ∅ ∅ default_limits false) options)) asgs') as [am' ->].
  - rewrite Forall_forall in Hok |- *. intros a Ha. apply Hok. by eapply elem_of_sublist.
  - clear -Hnd Hsub. induction Hsub as [|a l1 l2 Hsub IH|a l1 l2 Hsub IH]; csimpl in *; [done|..];
      apply NoDup_cons in Hnd as [Ha Hnd]; [|by apply IH]. constructor; [|by apply IH].
    intros (b & E & Hb)%list_elem_of_fmap. apply Ha. rewrite E. apply list_elem_of_fmap_2. by eapply elem_of_sublist.
  - set_solver.
  - simpl. eauto.
Qed.

Lemma find_assignment_Some id index asgs k :
  find_assignment id index asgs = Some k →
  ∃ l1 a l2, asgs = l1 ++ a :: l2 ∧ k = (index + length l1)%nat ∧ Assignment_ID a = id ∧
    Forall (λ b, Assignment_ID b ≠ id) l1.
Proof.
  revert index. induction asgs as [|a asgs IH]; intros index; simpl; [done|].
  case_bool_decide as E; simpl; intros H.
  - simplify_eq. exists [], a, asgs. split_and!; [done|simpl; lia|done|constructor].
  - apply IH in H as (l1 & b & l2 & -> & -> & ? & ?). exists (a :: l1), b, l2.
    split_and!; [done|simpl; lia|done|by constructor].
Qed.

Lemma find_assignment_None id index asgs :
  find_assignment id index asgs = None ↔ id ∉ Assignment_ID <$> asgs.
Proof.
  revert index. induction asgs as [|a asgs IH]; intros index; csimpl; [set_solver|].
  case_bool_decide as E; simpl.
  - split; [done|]. intros []. rewrite E. by left.
  - rewrite IH, not_elem_of_cons. naive_solver.
Qed.

(** What a revocation leaves. *)
Lemma RevokeAssignment_cases manager id :
  match Manager_RevokeAssignment manager id with
  | (true, manager') => ∃ l1 a l2, manager_assignments manager = l1 ++ a :: l2 ∧ Assignment_ID a = id ∧
      manager' = mkManager (manager_roles manager) (manager_permissions manager) (l1 ++ l2)
                   (manager_options manager) (uint64_add (manager_revision manager) 1)
  | (false, manager') => manager' = manager ∧ id ∉ Assignment_ID <$> manager_assignments manager
  end.
Proof.
  unfold Manager_RevokeAssignment. destruct (find_assignment _ _ _) as [k|] eqn:E.
  - apply find_assignment_Some in E as (l1 & a & l2 & El & -> & Hid & _).
    exists l1, a, l2. split_and!; [done|done|]. rewrite El. simpl.
    by rewrite take_app_length, Nat.add_1_r, cons_middle, app_assoc, drop_app_length' by (rewrite length_app; simpl; lia).
  - split; [done|]. by apply find_assignment_None in E.
Qed.

(** The state a manager keeps: its configuration builds an evaluator. *)
Definition manager_inv `{GoRuntime} (manager : Manager) : Prop :=
  Forall library_option (manager_options manager) ∧ in_uint64 (manager_revision manager) ∧
  ∃ ev, Manager_Evaluator manager = Ok ev.

Lemma uint64_add_range x y : in_uint64 (uint64_add x y).
Proof. unfold in_uint64, uint64_add, max_uint64. pose proof (Z.mod_pos_bound (x + y) (2 ^ 64)). lia. Qed.

Lemma manager_inv_step `{GoRuntime} manager manager' :
  manager_inv manager → manager_step manager manager' →
  manager_inv manager' ∧ manager_revision manager' = uint64_add (manager_revision manager) 1.
Proof.
  intros (Hopts & Hrev & ev & Hev) Hstep. destruct Hstep as [manager a manager' E|manager id manager' E].
  - unfold Manager_Assign in E. destruct (New _ _ _ _) as [ev'|] eqn:En; simplify_eq. simpl.
    split; [|done]. split_and!; [done|apply uint64_add_range|]. by exists ev'.
  - pose proof (RevokeAssignment_cases manager id) as Hc. rewrite E in Hc.
    destruct Hc as (l1 & a & l2 & El & _ & ->). simpl. split; [|done].
    split_and!; [done|apply uint64_add_range|]. unfold Manager_Evaluator in *. simpl. rewrite El in Hev.
    eapply New_fewer_assignments; [done..|]. apply sublist_app; [done|]. by apply sublist_cons.
Qed.

(** ** Theorems *)

(** A manager is always able to build its evaluator: from a successful
    [NewManager], after any sequence of accepted assignments and revocations,
    [Evaluator] succeeds, and the revision counts the accepted changes from 1
    modulo 2^64. *)
Theorem manager_always_builds `{GoRuntime} (rs : list Role) (ps : list Permission) (asgs : list Assignment)
    (options : list Option) (manager manager' : Manager) (k : nat) :
  Forall library_option options → NewManager rs ps asgs options = Ok manager →
  nsteps manager_step k manager manager' →
  (∃ ev, Manager_Evaluator manager' = Ok ev) ∧
  Manager_Revision manager' = (1 + Z.of_nat k) `mod` 2 ^ 64.
Proof.
  intros Hopts Hnew Hsteps.
  assert (manager_inv manager ∧ manager_revision manager = 1) as [Hinv Hrev].
  { unfold NewManager in Hnew. destruct (New rs ps asgs options) as [ev|] eqn:E; simplify_eq/=.
    split; [|done]. split_and!; [done|done|]. exists ev. unfold Manager_Evaluator. simpl.
    by rewrite cloneRoles_id, cloneAssignments_id. }
  assert (∀ r, manager_revision manager = r `mod` 2 ^ 64 →
    manager_inv manager' ∧ manager_revision manager' = (r + Z.of_nat k) `mod` 2 ^ 64) as Hall.
  { clear Hnew Hrev. induction Hsteps as [m|k m m1 m2 Hstep _ IH]; intros r Hr.
    - rewrite Z.add_0_r. done.
    - destruct (manager_inv_step _ _ Hinv Hstep) as [Hinv1 Hrev1].
      destruct (IH Hinv1 (r + 1)) as [? ->].
      + rewrite Hrev1, Hr. unfold uint64_add. by rewrite Zplus_mod_idemp_l.
      + split; [done|]. f_equal. lia. }
  destruct (Hall 1) as [(_ & _ & ?) ?]; [by rewrite Hrev|]. done.
Qed.

(** Assign and revoke are inverse: an accepted assignment appends it,
    and revoking its identifier then succeeds and restores the assignments;
    a rejected assignment and a revocation of an unknown identifier leave the
    manager unchanged. *)
Theorem manager_assign_revoke `{GoRuntime} (manager : Manager) (a : Assignment) :
  Forall library_option (manager_options manager) →
  match Manager_Assign manager a with
  | (Some _, manager') => manager' = manager
  | (None, manager') =>
      manager_assignments manager' = manager_assignments manager ++ [a] ∧
      ∃ manager'', Manager_RevokeAssignment manager' (Assignment_ID a) = (true, manager'') ∧
        manager_assignments manager'' = manager_assignments manager ∧
        Manager_RevokeAssignment manager'' (Assignment_ID a) = (false, manager'')
  end.
Proof.
  intros Hopts. unfold Manager_Assign. rewrite cloneAssignments_id, cloneAssignment_id.
  destruct (New _ _ _ _) as [ev|] eqn:E; [|done]. split; [done|].
  destruct (rbac_New_Ok _ _ _ _ _ Hopts E) as [Hwf _].
  pose proof (wf_assignment_ids _ _ _ _ Hwf) as Hnd. rewrite fmap_app in Hnd.
  apply NoDup_app in Hnd as (_ & Hfresh & _).
  assert (Assignment_ID a ∉ Assignment_ID <$> manager_assignments manager) as Hnew.
  { intros Hin. apply (Hfresh _ Hin). by left. }
  set (m1 := mkManager _ _ _ _ _). pose proof (RevokeAssignment_cases m1 (Assignment_ID a)) as Hr.
  destruct (Manager_RevokeAssignment m1 (Assignment_ID a)) as [[] m2]; cycle 1.
  { exfalso. destruct Hr as [_ Hn]. apply Hn. simpl. rewrite fmap_app. apply elem_of_app. right. by left. }
  exists m2. split; [done|]. destruct Hr as (l1 & b & l2 & El & Hb & ->). simpl in *.
  assert (l2 = [] ∧ l1 = manager_assignments manager) as [-> ->].
  { destruct l2 as [|c l2 _] using rev_ind.
    - apply app_inj_tail in El as [-> _]. done.
    - exfalso. rewrite app_comm_cons, app_assoc in El. apply app_inj_tail in El as [El _].
      apply Hnew. rewrite El, <- Hb. apply list_elem_of_fmap_2, elem_of_app. right. by left. }
  rewrite app_nil_r. split; [done|]. unfold Manager_RevokeAssignment. simpl.
  by rewrite (proj2 (find_assignment_None _ _ _) Hnew).
Qed.

Definition example_manager : Manager :=
  mkManager example_role_list example_permissions example_assignments [] 1.

Definition bob_assignment : Assignment :=
  mkAssignment "a3" (mkSubject "user" "bob" [] None) "editor" "acme".

Lemma manager_always_builds_witness :
  ∃ manager', (∃ ev, @Manager_Evaluator plain_runtime manager' = Ok ev) ∧ Manager_Revision manager' = 2.
Proof.
  eexists. refine (@manager_always_builds plain_runtime example_role_list example_permissions
    example_assignments [] example_manager _ 1%nat ltac:(constructor) ltac:(vm_compute; reflexivity) _).
  eapply nsteps_once, (step_assign _ bob_assignment). vm_compute. reflexivity.
Defined.

Lemma manager_assign_revoke_witness :
  ∃ manager', @Manager_Assign plain_runtime example_manager bob_assignment = (None, manager') ∧
    manager_assignments manager' = example_assignments ++ [bob_assignment].
Proof.
  pose proof (@manager_assign_revoke plain_runtime example_manager bob_assignment ltac:(constructor)) as H.
  destruct (@Manager_Assign plain_runtime example_manager bob_assignment) as [[e|] m] eqn:E.
  - exfalso. vm_compute in E. done.
  - exists m. split; [done|]. apply H.
Defined.
