(* ===== verification/GoMemory.v ===== *)
(** * Slices in memory

    The other files treat slices as values. Where the code overwrites an array
    in place or promises that a copy is independent of its original, the
    arrays matter: here a memory maps locations to blocks, and a slice is a
    window of an array. [append] writes into the spare capacity of the array
    when there is some and allocates otherwise. *)

From S2P Require Import Prelude.

(** ** Memory *)

Definition loc := positive.

Abbreviation memory B := (gmap loc B).

(** A slice: its array ([None] for the nil slice), the offset of its first
    element and its length. *)
Record slice := mkSlice { s_base : option loc; s_off : nat; s_len : nat }.

Definition nil_slice : slice := mkSlice None 0 0.

(** Blocks of [B] can be arrays of [E]. *)
Class ArrayOf (B E : Type) := {
  array : list E → B;
  elements : B → option (list E);
  zero : E;
  elements_array xs : elements (array xs) = Some xs
}.

(** How many spare cells [append] allocates for an array of a length. *)
Class Growth := spare : nat → nat.

Section slices.
Context {B E : Type} `{ArrayOf B E, Growth}.
Implicit Types (h : memory B) (s : slice) (xs : list E).

Definition array_at h s : list E := default [] (l ← s_base s; b ← h !! l; elements b).

(** The elements of a slice. *)
Definition contents h s : list E := take (s_len s) (drop (s_off s) (array_at h s)).

Definition alloc (b : B) h : loc * memory B := let l := fresh (dom h) in (l, <[l := b]> h).

(** A slice of a new array, with some zero cells after its elements. *)
Definition new_slice (cells : nat) xs h : slice * memory B :=
  let '(l, h) := alloc (array (xs ++ replicate cells zero)) h in (mkSlice (Some l) 0 (length xs), h).

(** [append(s, xs...)] *)
Definition append s xs h : slice * memory B :=
  match xs with
  | [] => (s, h)
  | _ =>
      let last := s_off s + s_len s in
      let arr := array_at h s in
      match s_base s with
      | Some l =>
          if bool_decide (last + length xs ≤ length arr) then
            (mkSlice (Some l) (s_off s) (s_len s + length xs),
             <[l := array (take last arr ++ xs ++ drop (last + length xs) arr)]> h)
          else new_slice (spare (s_len s + length xs)) (contents h s ++ xs) h
      | None => new_slice (spare (length xs)) xs h
      end
  end.

End slices.

(** [s[:n]] and [s[n:]] *)
Definition slice_to (n : nat) (s : slice) : slice := mkSlice (s_base s) (s_off s) n.
Definition slice_from (n : nat) (s : slice) : slice := mkSlice (s_base s) (s_off s + n) (s_len s - n).

(** The array of a slice is in a set of locations. *)
Definition slice_in (X : gset loc) (s : slice) : Prop := ∀ l, s_base s = Some l → l ∈ X.

(** ** Memories that only grew *)

Definition extends {B} (h h' : memory B) : Prop := h ⊆ h'.

(** The locations allocated since. *)
Definition since {B} (h0 h : memory B) : gset loc := dom h ∖ dom h0.

(** ** Lemmas *)

Lemma slice_in_nil X : slice_in X nil_slice.
Proof. done. Qed.

Lemma slice_in_mono X Y s : X ⊆ Y → slice_in X s → slice_in Y s.
Proof. intros HXY Hs l E. by apply HXY, Hs. Qed.

#[export] Hint Resolve slice_in_nil slice_in_mono : core.

Lemma extends_dom {B} (h h' : memory B) : extends h h' → dom h ⊆ dom h'.
Proof. apply subseteq_dom. Qed.

Lemma extends_lookup {B} (h h' : memory B) l b : extends h h' → h !! l = Some b → h' !! l = Some b.
Proof. intros. by eapply lookup_weaken. Qed.

Lemma elem_of_since {B} (h0 h : memory B) l : l ∈ since h0 h ↔ l ∈ dom h ∧ h0 !! l = None.
Proof. unfold since. by rewrite elem_of_difference, not_elem_of_dom. Qed.

Lemma since_dom {B} (h0 h : memory B) : since h0 h ⊆ dom h.
Proof. unfold since. set_solver. Qed.

Lemma slice_in_since {B} (h0 h : memory B) s : slice_in (since h0 h) s → slice_in (dom h) s.
Proof. apply slice_in_mono, since_dom. Qed.

Lemma since_mono {B} (h0 h h' : memory B) : extends h h' → since h0 h ⊆ since h0 h'.
Proof. intros He%extends_dom. unfold since. set_solver. Qed.

Lemma since_extends {B} (h0 h h' : memory B) : extends h0 h → since h h' ⊆ since h0 h'.
Proof. intros He%extends_dom. unfold since. set_solver. Qed.

Lemma alloc_spec {B} (b : B) h l h' :
  alloc b h = (l, h') → h !! l = None ∧ h' = <[l := b]> h ∧ extends h h' ∧ l ∈ since h h'.
Proof.
  intros E. injection E as <- <-. assert (h !! fresh (dom h) = None) as Hn.
  { apply not_elem_of_dom, is_fresh. }
  split_and!; [done|done|by apply insert_subseteq|]. unfold since. rewrite dom_insert_L.
  apply elem_of_difference. split; [set_solver|by apply not_elem_of_dom].
Qed.

Section slice_lemmas.
Context {B E : Type} `{ArrayOf B E, Growth}.
Implicit Types (h : memory B) (s : slice) (xs : list E).

(** A slice keeps its elements while its array does. *)
Lemma array_at_frame h h' s :
  (∀ l, s_base s = Some l → h' !! l = h !! l) → array_at (E := E) h' s = array_at h s.
Proof. intros Hl. unfold array_at. destruct (s_base s) as [l|]; [|done]. simpl. by rewrite Hl. Qed.

Lemma contents_frame h h' s :
  (∀ l, s_base s = Some l → h' !! l = h !! l) → contents (E := E) h' s = contents h s.
Proof. intros Hl. unfold contents. by rewrite (array_at_frame h h'). Qed.

Lemma contents_extends h h' s : extends h h' → slice_in (dom h) s → contents (E := E) h' s = contents h s.
Proof.
  intros He Hs. apply contents_frame. intros l Hl. apply Hs in Hl. apply elem_of_dom in Hl as [b Hb].
  rewrite Hb. by eapply extends_lookup.
Qed.

Lemma contents_array h s xs l :
  s_base s = Some l → h !! l = Some (array xs) → contents h s = take (s_len s) (drop (s_off s) xs).
Proof. intros Es Hl. unfold contents, array_at. rewrite Es. simpl. rewrite Hl. simpl. by rewrite elements_array. Qed.

Lemma contents_nil h s : s_base s = None → contents (E := E) h s = [].
Proof. intros Es. unfold contents, array_at. rewrite Es. simpl. by rewrite drop_nil, take_nil. Qed.

Lemma new_slice_spec cells xs h s h' :
  new_slice cells xs h = (s, h') →
  ∃ l, h !! l = None ∧ h' = <[l := array (xs ++ replicate cells zero)]> h ∧ extends h h' ∧ s = mkSlice (Some l) 0 (length xs) ∧
    contents h' s = xs ∧ slice_in (since h h') s.
Proof.
  unfold new_slice. destruct (alloc _ h) as [l h1] eqn:Ea. intros [= <- <-]. apply alloc_spec in Ea as (Hn & -> & He & Hs).
  exists l. split_and!; [done|done|done|done| |].
  - erewrite (contents_array _ _ _ l); [|done|apply lookup_insert_eq]. simpl. apply take_app_length.
  - by intros l' [= <-].
Qed.

(** [append([]T(nil), xs...)] is a copy. *)
Lemma append_nil_spec xs h s h' :
  append nil_slice xs h = (s, h') →
  contents h' s = xs ∧ extends h h' ∧ slice_in (since h h') s ∧
  (h' = h ∨ ∃ l cells, h !! l = None ∧ h' = <[l := array (xs ++ replicate cells zero)]> h).
Proof.
  destruct xs as [|x xs]; simpl.
  - intros [= <- <-]. split_and!; [by apply contents_nil|by unfold extends|done|by left].
  - intros (l & Hn & -> & He & -> & Hc & Hs)%new_slice_spec. split_and!; [done..|]. right. by eexists _, _.
Qed.

(** [append] to a slice whose elements are at the front of its array keeps
    them and adds the new ones. *)
Lemma append_contents s xs h s' h' :
  append s xs h = (s', h') → (s_off s + s_len s ≤ length (array_at (E := E) h s))%nat ∨ s_base s = None ∧ s_len s = 0 →
  contents h' s' = contents h s ++ xs.
Proof.
  intros Ea Hlen. unfold append in Ea. destruct xs as [|x xs]; [simplify_eq; by rewrite app_nil_r|].
  remember (x :: xs) as ys eqn:Ey. clear Ey. destruct (s_base s) as [l|] eqn:Es.
  - destruct Hlen as [Hlen|[? _]]; [|done]. case_bool_decide as Hcap; [|by apply new_slice_spec in Ea as (? & _ & _ & _ & _ & -> & _)].
    injection Ea as <- <-. erewrite (contents_array _ _ _ l); [|done|apply lookup_insert_eq]. simpl.
    unfold contents. set (arr := array_at h s) in *.
    rewrite drop_app_le by (rewrite length_take; lia). rewrite skipn_firstn_comm.
    replace (s_off s + s_len s - s_off s)%nat with (s_len s) by lia.
    assert (length (take (s_len s) (drop (s_off s) arr)) = s_len s) as Hl by (rewrite length_take, length_drop; lia).
    rewrite take_app_ge by lia. rewrite Hl. f_equal. replace (s_len s + length ys - s_len s)%nat with (length ys) by lia.
    apply take_app_length.
  - rewrite (contents_nil h s) by done. by apply new_slice_spec in Ea as (? & _ & _ & _ & _ & -> & _).
Qed.

Lemma append_in_place s xs h l s' h' :
  append s xs h = (s', h') → s_base s = Some l → (s_off s + s_len s + length xs ≤ length (array_at (E := E) h s))%nat →
  s_base s' = Some l ∧
  (h' = h ∨ h' = <[l := array (take (s_off s + s_len s) (array_at h s) ++ xs ++
                               drop (s_off s + s_len s + length xs) (array_at h s))]> h).
Proof.
  intros Ea Es Hcap. unfold append in Ea. destruct xs as [|x xs]; [simplify_eq; by split; [|left]|].
  rewrite Es, bool_decide_true in Ea by done. injection Ea as <- <-. by split; [|right].
Qed.

Lemma contents_slice_to n h s : (n ≤ s_len s)%nat → contents (E := E) h (slice_to n s) = take n (contents h s).
Proof.
  intros Hn. unfold contents. change (array_at h (slice_to n s)) with (array_at (E := E) h s). simpl. rewrite take_take. f_equal. lia.
Qed.

Lemma contents_slice_from n h s : contents (E := E) h (slice_from n s) = drop n (contents h s).
Proof.
  unfold contents. change (array_at h (slice_from n s)) with (array_at (E := E) h s). simpl.
  by rewrite skipn_firstn_comm, drop_drop.
Qed.

(** [append(s[:i], s[i+1:]...)] deletes an element in place: nothing is
    allocated, and the array of the slice gets a permutation of parts of its
    elements. *)
Lemma delete_in_place h s i s' h' :
  (i < length (contents (E := E) h s))%nat →
  append (slice_to i s) (contents (E := E) h (slice_from (i + 1) s)) h = (s', h') →
  s_base s' = s_base s ∧ contents h' s' = take i (contents h s) ++ drop (i + 1) (contents (E := E) h s) ∧
  (h' = h ∨ ∃ l arr', s_base s = Some l ∧ h' = <[l := array arr']> h ∧ arr' ⊆ array_at h s).
Proof.
  intros Hi Ea. set (arr := array_at (E := E) h s). set (rest := contents (E := E) h (slice_from (i + 1) s)) in *.
  assert (i < s_len s ∧ s_off s + i < length arr)%nat as [Hlen Harr].
  { unfold contents in Hi. fold arr in Hi. rewrite length_take, length_drop in Hi. lia. }
  assert (s_off s + i + length rest ≤ length arr)%nat as Hcap.
  { unfold rest, contents. change (array_at h (slice_from (i + 1) s)) with arr. simpl. rewrite length_take, length_drop. lia. }
  assert (contents h' s' = take i (contents h s) ++ drop (i + 1) (contents (E := E) h s)) as Hc.
  { rewrite (append_contents _ _ _ _ _ Ea); [|left; change (array_at h (slice_to i s)) with arr; simpl; lia].
    rewrite contents_slice_to by lia. unfold rest. by rewrite contents_slice_from. }
  destruct (s_base s) as [l|] eqn:Es; [|unfold arr, array_at in Harr; rewrite Es in Harr; simpl in Harr; lia].
  apply (append_in_place _ _ _ l) in Ea as [Hb Hh]; [|done|exact Hcap]. split_and!; [by rewrite Hb|done|].
  destruct Hh as [-> | ->]; [by left|]. right. eexists l, _. split_and!; [done|done|].
  change (array_at h (slice_to i s)) with arr. simpl. intros y. rewrite !elem_of_app. intros [Hy|[Hy|Hy]].
  - eapply elem_of_sublist; [exact Hy|apply sublist_take].
  - eapply elem_of_sublist; [exact Hy|]. unfold rest, contents. change (array_at h (slice_from (i + 1) s)) with arr.
    etrans; [apply sublist_take|apply sublist_drop].
  - eapply elem_of_sublist; [exact Hy|apply sublist_drop].
Qed.

End slice_lemmas.

Arguments slice_in : simpl never.
Arguments append : simpl never.
Arguments new_slice : simpl never.
