(* ===== verification/ServiceMemory.v ===== *)
(** * The decision service in memory (decision_service.go)

    The service hands an authorizer a copy of the request and gives its
    caller a copy of the decision. Here requests and decisions have their
    slices and maps in a memory, and the authorizer is any code that writes
    to what it can reach: what it had before, what it is given and what it
    allocates. The theorem shows that the copies are deep enough: the caller
    keeps its request, and nothing the authorizer does later changes the
    decision that was returned. *)

From S2P Require Import Prelude Attribute Request Decision Snapshot Engine Instrumentation DecisionService GoMemory.

#[local] Open Scope Z_scope.

Module service_memory.

(** ** Data *)

Inductive block :=
| Strings (l : list string)
| Traces (l : list TraceEntry)
| AttributeMap (m : gmap AttributeName Value).

#[global] Instance strings_array : ArrayOf block string :=
  {| array := Strings; elements b := match b with Strings l => Some l | _ => None end; zero := ""; elements_array xs := eq_refl |}.
#[global] Instance traces_array : ArrayOf block TraceEntry :=
  {| array := Traces; elements b := match b with Traces l => Some l | _ => None end;
     zero := mkTraceEntry "" NotApplicable ""; elements_array xs := eq_refl |}.

Abbreviation heap := (memory block).

(** Requests and decisions with references. *)
Record request_ref := mkRequestRef {
  q_kind : SubjectKind; q_subject : SubjectID; q_groups : slice; q_subject_attributes : option loc;
  q_action : Action;
  q_type : ResourceType; q_resource : ResourceID; q_resource_attributes : option loc;
  q_tenant : TenantID;
  q_time : Time; q_environment_attributes : option loc;
  q_attributes : option loc
}.

Record decision_ref := mkDecisionRef {
  d_outcome : Outcome; d_reason : ReasonCode; d_matched : slice; d_matched_truncated : bool;
  d_revision : Revision; d_trace : slice; d_trace_truncated : bool
}.

Definition read_map (h : heap) (l : option loc) : Attributes :=
  l ← l; match h !! l with Some (AttributeMap m) => Some m | _ => None end.

Definition read_request (h : heap) (q : request_ref) : Request :=
  mkRequest (mkSubject (q_kind q) (q_subject q) (contents h (q_groups q)) (read_map h (q_subject_attributes q)))
    (q_action q) (mkResource (q_type q) (q_resource q) (read_map h (q_resource_attributes q))) (q_tenant q)
    (mkEnvironment (q_time q) (read_map h (q_environment_attributes q))) (read_map h (q_attributes q)).

Definition read_decision (h : heap) (d : decision_ref) : Decision :=
  mkDecision (d_outcome d) (d_reason d) (contents h (d_matched d)) (d_matched_truncated d) (d_revision d)
    (contents h (d_trace d)) (d_trace_truncated d).

(** A [Decision] literal without slices. *)
Definition bare_ref (o : Outcome) (r : ReasonCode) (revision : Revision) : decision_ref :=
  mkDecisionRef o r nil_slice false revision nil_slice false.

(** ** Operations *)

Section operations.
Context `{GoRuntime, Growth}.

(** [slices.Clone]: nil stays nil; the copy of an empty slice has no cells. *)
Definition slices_Clone {E} `{ArrayOf block E} (s : slice) (h : heap) : slice * heap :=
  match s_base s with
  | None => (nil_slice, h)
  | Some _ => new_slice (spare (s_len s)) (contents (E := E) h s) h
  end.

Definition cloneAttributes (attributes : option loc) (h : heap) : option loc * heap :=
  match read_map h attributes with
  | None => (None, h)
  | Some m => let '(l, h) := alloc (AttributeMap (clone_map m)) h in (Some l, h)
  end.

(** [cloneSubject] and the rest of [cloneRequest]. *)
Definition cloneRequest (q : request_ref) (h : heap) : request_ref * heap :=
  let '(groups, h) := slices_Clone (E := string) (q_groups q) h in
  let '(subject_attributes, h) := cloneAttributes (q_subject_attributes q) h in
  let '(resource_attributes, h) := cloneAttributes (q_resource_attributes q) h in
  let '(environment_attributes, h) := cloneAttributes (q_environment_attributes q) h in
  let '(attributes, h) := cloneAttributes (q_attributes q) h in
  (mkRequestRef (q_kind q) (q_subject q) groups subject_attributes (q_action q) (q_type q) (q_resource q)
     resource_attributes (q_tenant q) (q_time q) environment_attributes attributes, h).

Definition cloneDecision (d : decision_ref) (h : heap) : decision_ref * heap :=
  let '(matched, h) := slices_Clone (E := string) (d_matched d) h in
  let '(trace, h) := slices_Clone (E := TraceEntry) (d_trace d) h in
  (mkDecisionRef (d_outcome d) (d_reason d) matched (d_matched_truncated d) (d_revision d) trace (d_trace_truncated d), h).

(** An authorizer that works on the memory: the result of a call, the memory
    and the position of the run after it. *)
Definition mem_authorizer : Type := Context → request_ref → heap → nat → Go (decision_ref * option error) * heap * nat.

Definition Decide (authorizer : mem_authorizer) (ctx : option Context) (q : request_ref) (correlation : string)
    (revision : Revision) (h : heap) (n : nat) : decision_ref * option error * heap * nat :=
  let denied := bare_ref Deny ReasonEvaluationError revision in
  match DecisionContext_Validate (mkDecisionContext (read_request h q) correlation revision) with
  | Some err => (denied, Some err, h, n)
  | None =>
      match ctx with
      | None => (denied, Some ErrInvalidRequest, h, n)
      | Some ctx =>
          match Err_at ctx n with
          | Some err => (denied, Some err, h, S n)
          | None =>
              let '(copy, h) := cloneRequest q h in
              let '(called, h, n) := authorizer ctx copy h (S n) in
              match called with
              | Panic => (denied, Some ErrPolicyPanic, h, n)
              | Ret (result, err) =>
                  match Err_at ctx n with
                  | Some contextError => (denied, Some contextError, h, S n)
                  | None =>
                      if bool_decide (is_Some err) then (denied, Some ErrDecisionUnavailable, h, S n)
                      else if negb (d_revision result =? revision)
                      then (bare_ref Deny ReasonPolicyStale revision, Some ErrRevisionConflict, h, S n)
                      else if negb (bool_decide (d_outcome result = Allow)) && negb (bool_decide (d_outcome result = Deny))
                      then (denied, Some ErrInvalidOutcome, h, S n)
                      else let '(result, h) := cloneDecision result h in (result, None, h, S n)
                  end
              end
          end
      end
  end.

End operations.

(** ** Reach *)

Definition map_in (X : gset loc) (l : option loc) : Prop := ∀ l', l = Some l' → l' ∈ X.

Definition request_in (X : gset loc) (q : request_ref) : Prop :=
  slice_in X (q_groups q) ∧ map_in X (q_subject_attributes q) ∧ map_in X (q_resource_attributes q) ∧
  map_in X (q_environment_attributes q) ∧ map_in X (q_attributes q).

Definition decision_in (X : gset loc) (d : decision_ref) : Prop := slice_in X (d_matched d) ∧ slice_in X (d_trace d).

(** Writes to [X] and allocations. *)
Definition writes (X : gset loc) (h h' : heap) : Prop :=
  dom h ⊆ dom h' ∧ ∀ l b, l ∉ X → h !! l = Some b → h' !! l = Some b.

(** An authorizer that has the locations [A] writes only to what it can reach,
    and its decisions refer to nothing else. *)
Definition confined (A : gset loc) (authorizer : mem_authorizer) : Prop :=
  ∀ ctx q h n X, request_in X q → A ∪ X ⊆ dom h →
    let '(called, h', _) := authorizer ctx q h n in
    writes (A ∪ X) h h' ∧ match called with Ret (d, _) => decision_in (A ∪ X ∪ since h h') d | Panic => True end.

(** ** Lemmas *)

Lemma read_map_frame h h' l : (∀ l', l = Some l' → h' !! l' = h !! l') → read_map h' l = read_map h l.
Proof. destruct l as [l|]; [|done]. intros Hl. simpl. by rewrite (Hl l). Qed.

Lemma read_request_frame h h' X q :
  request_in X q → (∀ l, l ∈ X → h' !! l = h !! l) → read_request h' q = read_request h q.
Proof.
  intros (H1 & H2 & H3 & H4 & H5) Hf. unfold read_request.
  rewrite (contents_frame h h') by auto. by rewrite !(read_map_frame h h') by auto.
Qed.

Lemma read_decision_frame h h' X d :
  decision_in X d → (∀ l, l ∈ X → h' !! l = h !! l) → read_decision h' d = read_decision h d.
Proof.
  intros [H1 H2] Hf. unfold read_decision.
  by rewrite (contents_frame (E := string) h h'), (contents_frame (E := TraceEntry) h h') by auto.
Qed.

Lemma slices_Clone_spec {E} `{ArrayOf block E, Growth} (s : slice) h s' h' :
  slices_Clone (E := E) s h = (s', h') → extends h h' ∧ slice_in (since h h') s' ∧ contents (E := E) h' s' = contents h s.
Proof.
  unfold slices_Clone. destruct (s_base s) as [l|] eqn:Es.
  - intros (l' & _ & _ & He & _ & Hc & Hs)%new_slice_spec. done.
  - intros [= <- <-]. split_and!; [by unfold extends|done|]. by rewrite (contents_nil h s), contents_nil.
Qed.

Lemma map_in_mono X Y l : X ⊆ Y → map_in X l → map_in Y l.
Proof. intros HXY Hl l' E. by apply HXY, Hl. Qed.

Lemma cloneAttributes_spec `{GoRuntime} l h l' h' :
  cloneAttributes l h = (l', h') → extends h h' ∧ map_in (since h h') l' ∧ read_map h' l' = read_map h l.
Proof.
  unfold cloneAttributes. destruct (read_map h l) as [m|] eqn:Em.
  - destruct (alloc _ h) as [k h1] eqn:Ea. intros [= <- <-]. apply alloc_spec in Ea as (_ & -> & He & Hk).
    split_and!; [done|by intros ? [= <-]|]. simpl. rewrite lookup_insert_eq. by rewrite clone_map_id.
  - intros [= <- <-]. split_and!; [by unfold extends|done|done].
Qed.

(** Reads of old references do not see allocations. *)
Lemma extends_frame (h h' : heap) l : extends h h' → l ∈ dom h → h' !! l = h !! l.
Proof. intros He [b Hb]%elem_of_dom. rewrite Hb. by eapply extends_lookup. Qed.

Lemma read_map_extends h h' l : extends h h' → map_in (dom h) l → read_map h' l = read_map h l.
Proof. intros He Hl. apply read_map_frame. intros l' E. apply extends_frame; auto. Qed.

Lemma cloneRequest_spec `{GoRuntime, Growth} X q h q' h' :
  cloneRequest q h = (q', h') → request_in X q → X ⊆ dom h →
  extends h h' ∧ request_in (since h h') q' ∧ read_request h' q' = read_request h q.
Proof.
  intros E (R1 & R2 & R3 & R4 & R5) HX. unfold cloneRequest in E.
  destruct (slices_Clone _ h) as [g h1] eqn:E1. destruct (cloneAttributes _ h1) as [a1 h2] eqn:E2.
  destruct (cloneAttributes _ h2) as [a2 h3] eqn:E3. destruct (cloneAttributes _ h3) as [a3 h4] eqn:E4.
  destruct (cloneAttributes _ h4) as [a4 h5] eqn:E5. injection E as <- <-.
  apply slices_Clone_spec in E1 as (He1 & S1 & C1). apply cloneAttributes_spec in E2 as (He2 & S2 & C2), E3 as (He3 & S3 & C3),
    E4 as (He4 & S4 & C4), E5 as (He5 & S5 & C5).
  assert (extends h h2) as Hh2 by (by transitivity h1). assert (extends h h3) as Hh3 by (by transitivity h2).
  assert (extends h h4) as Hh4 by (by transitivity h3). assert (extends h h5) as Hh5 by (by transitivity h4).
  assert (extends h3 h5) as H35 by (by transitivity h4). assert (extends h2 h5) as H25 by (by transitivity h3).
  assert (extends h1 h5) as H15 by (by transitivity h2).
  assert (∀ hi hj, extends h hi → extends hj h5 → since hi hj ⊆ since h h5) as Hsince.
  { intros hi hj Hi Hj. etrans; [by apply since_extends|by apply since_mono]. }
  split_and!; [done|..].
  - assert (extends h h) by (by unfold extends). assert (extends h5 h5) by (by unfold extends).
    split_and!; simpl; [eapply slice_in_mono; [|exact S1]|eapply map_in_mono; [|exact S2]|eapply map_in_mono; [|exact S3]
      |eapply map_in_mono; [|exact S4]|eapply map_in_mono; [|exact S5]]; by apply Hsince.
  - assert (∀ l, map_in X l → map_in (dom h) l) as Hdom by (intros l; by apply map_in_mono).
    unfold read_request. simpl. f_equal; [f_equal|f_equal|f_equal|].
    + rewrite <- C1. apply contents_extends; [done|]. by eapply slice_in_since.
    + rewrite (read_map_extends h2 h5); [|done|eapply map_in_mono; [apply since_dom|done]]. rewrite C2. apply read_map_extends; auto.
    + rewrite (read_map_extends h3 h5); [|done|eapply map_in_mono; [apply since_dom|done]]. rewrite C3. apply read_map_extends; auto.
    + rewrite (read_map_extends h4 h5); [|done|eapply map_in_mono; [apply since_dom|done]]. rewrite C4. apply read_map_extends; auto.
    + rewrite C5. apply read_map_extends; auto.
Qed.

Lemma cloneDecision_spec `{Growth} d h d' h' :
  cloneDecision d h = (d', h') → decision_in (dom h) d →
  extends h h' ∧ decision_in (since h h') d' ∧ read_decision h' d' = read_decision h d.
Proof.
  unfold cloneDecision. destruct (slices_Clone (E := string) _ h) as [matched h1] eqn:E1.
  destruct (slices_Clone (E := TraceEntry) _ h1) as [trace h2] eqn:E2. intros [= <- <-] [D1 D2].
  apply slices_Clone_spec in E1 as (He1 & S1 & C1), E2 as (He2 & S2 & C2).
  assert (extends h h2) as He by (by transitivity h1). split_and!; [done|..].
  - split; simpl; (eapply slice_in_mono; [|eassumption]); [by apply since_mono|by apply since_extends].
  - unfold read_decision. simpl. f_equal.
    + rewrite <- C1. apply contents_extends; [done|]. by eapply slice_in_since.
    + rewrite C2. by apply contents_extends.
Qed.

(** ** Theorem *)

Section theorem.
Context `{GoRuntime, Growth}.

(** The memory when the authorizer has returned. *)
Definition after_call (authorizer : mem_authorizer) (ctx : Context) (q : request_ref) (h : heap) (n : nat) : heap :=
  let '(copy, h) := cloneRequest q h in (authorizer ctx copy h (S n)).1.2.

(** The answers of the authorizer to the copy of a request, as values. *)
Definition on_copy (authorizer : mem_authorizer) (q : request_ref) (h : heap) : Authorizer :=
  mkAuthorizer (λ ctx _ n,
    let '(copy, h) := cloneRequest q h in
    let '(called, h, n) := authorizer ctx copy h n in
    (match called with Ret (d, err) => Ret (read_decision h d, err) | Panic => Panic end, n)).

End theorem.

(** C15. The service isolates caller and authorizer. The authorizer is any
    code that writes to what it can reach, which does not include the
    caller's memory before the call. Then the call leaves the caller's memory
    as it was; the authorizer is given a copy with the content of the
    request; the outcome is that of [Decide] on values, for the answers of
    the authorizer; and nothing that is later written to the memory that
    existed when the authorizer returned changes the decision. *)
Theorem Service_isolated `{GoRuntime, Growth} (A C : gset loc) (authorizer : mem_authorizer) (ctx : option Context)
    (q : request_ref) (correlation : string) (revision : Revision) (h : heap) (n : nat) :
  confined A authorizer → A ∪ C ⊆ dom h → A ## C → request_in C q →
  let '(d, err, h', n') := Decide authorizer ctx q correlation revision h n in
  (∀ l, l ∈ C → h' !! l = h !! l) ∧
  (let '(copy, h1) := cloneRequest q h in read_request h1 copy = read_request h q ∧ request_in (since h h1) copy) ∧
  Service_Decide (mkDecisionService (on_copy authorizer q h)) ctx
    (mkDecisionContext (read_request h q) correlation revision) n = (Ret (read_decision h' d, err), n') ∧
  ∀ c h'', ctx = Some c → writes (dom (after_call authorizer c q h n)) h' h'' → read_decision h'' d = read_decision h' d.
Proof.
  intros Hconf Hdom Hdisj Hq. unfold Decide, Service_Decide, recovering, service_body, on_copy, after_call.
  destruct (cloneRequest q h) as [copy h1] eqn:Ec. apply (cloneRequest_spec C) in Ec as (He & Hcopy & Hread); [|done|set_solver].
  assert (∀ h' o r, (∀ l, l ∈ C → h' !! l = h !! l) → (∀ l, l ∈ C → h' !! l = h !! l) ∧
    read_decision h' (bare_ref o r revision) = bareDecision o r revision) as Hbare by done.
  assert (∀ o r h' h'', read_decision h'' (bare_ref o r revision) = read_decision h' (bare_ref o r revision)) as Hkeep by done.
  destruct (DecisionContext_Validate _) as [e|]; [by split_and!|]. destruct ctx as [c|]; [|by split_and!].
  rewrite ctx_Err_bind. destruct (Err_at c n) as [e|]; [by split_and!|]. cbn [authorizer_Decide service_authorizer].
  pose proof (Hconf c copy h1 (S n) (since h h1) Hcopy) as Hcall.
  destruct (authorizer c copy h1 (S n)) as [[called h2] n2] eqn:Ea.
  destruct Hcall as [[Hgrow Hw] Hd]. { apply extends_dom in He. pose proof (since_dom h h1). set_solver. }
  assert (∀ l, l ∈ C → h2 !! l = h !! l) as Hcaller.
  { intros l Hl. assert (l ∈ dom h) as [b Hb]%elem_of_dom by set_solver. rewrite Hb. apply Hw; [|by eapply extends_lookup].
    intros [?|[_ Hn]%elem_of_since]%elem_of_union; [set_solver|congruence]. }
  unfold mbind, M_bind, ctx_Err. rewrite Ea. cbv beta iota.
  destruct called as [[result err]|]; cbv beta iota; [|by split_and!]. cbn [fst snd]. destruct (Err_at c n2) as [e|]; [by split_and!|].
  destruct (bool_decide (is_Some err)) eqn:Eerr; [by split_and!|]. cbn [Decision_Revision read_decision Decision_Outcome DC_PolicyRevision].
  destruct (negb (d_revision result =? revision)); [by split_and!|]. destruct (_ && _); [by split_and!|].
  assert (decision_in (dom h2) result) as Hresult.
  { apply extends_dom in He. pose proof (since_dom h h1). pose proof (since_dom h1 h2). destruct Hd as [? ?].
    split; (eapply slice_in_mono; [|eassumption]); set_solver. }
  destruct (cloneDecision result h2) as [d h3] eqn:Ed. apply cloneDecision_spec in Ed as (He3 & Hfresh & Hsame); [|done].
  split_and!; [|done|done| |].
  - intros l Hl. rewrite <- Hcaller by done. apply extends_frame; [done|]. assert (l ∈ dom h) as [b Hb]%elem_of_dom by set_solver.
    apply elem_of_dom. rewrite Hcaller by done. by exists b.
  - rewrite Hsame, DecisionService.cloneDecision_id. done.
  - intros c' h'' [= <-] [_ Hlater]. rewrite ?Ea in Hlater. simpl in Hlater.
    apply (read_decision_frame _ _ (since h2 h3)); [done|]. intros l [[b Hb]%elem_of_dom Hn]%elem_of_since. rewrite Hb.
    apply Hlater; [by apply not_elem_of_dom|done].
Qed.

(** An authorizer that empties the groups it is given and keeps the array of
    the policies it reports. *)
Definition tampering : mem_authorizer := λ _ q h n,
  let h := match s_base (q_groups q) with Some l => <[l := Strings []]> h | None => h end in
  (Ret (mkDecisionRef Allow "granted" (mkSlice (Some 10%positive) 0 1) false 7 nil_slice false, None), h, n).

Lemma tampering_confined : confined {[10%positive]} tampering.
Proof.
  intros ctx q h n X Hq HX. unfold tampering. split.
  - destruct (s_base (q_groups q)) as [l|] eqn:El; [|by split].
    assert (l ∈ X) as Hl by (by apply (proj1 Hq)). split; [rewrite dom_insert_L; set_solver|].
    intros l' b Hl' Hb. rewrite lookup_insert_ne by set_solver. done.
  - split; [|done]. intros l [= <-]. set_solver.
Qed.

Definition shared_heap : heap := {[1 := Strings ["staff"]; 10 := Strings ["p1"]]}%positive.

Definition staff_request : request_ref :=
  mkRequestRef "user" "alice" (mkSlice (Some 1%positive) 0 1) None "read" "document" "d1" None "acme" 5 None None.

Lemma shared_heap_dom : {[10%positive]} ∪ {[1%positive]} ⊆ dom shared_heap.
Proof. unfold shared_heap. rewrite dom_insert_L, dom_singleton_L. set_solver. Qed.

Lemma staff_request_in : request_in {[1%positive]} staff_request.
Proof. split_and!; [|done..]. intros l [= <-]. set_solver. Qed.

Lemma Service_isolated_witness :
  ∃ d h' n', @Decide plain_runtime (λ n, n) tampering (Some context_Background) staff_request "" 7 shared_heap 0%nat = (d, None, h', n') ∧
    h' !! 1%positive = Some (Strings ["staff"]) ∧
    Decision_MatchedPolicyIDs (read_decision (<[10%positive := Strings ["forged"]]> h') d) = ["p1"].
Proof.
  pose proof (@Service_isolated plain_runtime (λ n, n) {[10%positive]} {[1%positive]} tampering (Some context_Background)
    staff_request "" 7 shared_heap 0%nat tampering_confined shared_heap_dom ltac:(set_solver) staff_request_in) as Hok.
  destruct (Decide tampering _ _ _ _ _ _) as [[[d err] h'] n'] eqn:E. destruct Hok as (Hcaller & _ & _ & Hlater).
  assert (err = None ∧ read_decision h' d = mkDecision Allow "granted" ["p1"] false 7 [] false ∧ is_Some (h' !! 10%positive))
    as (-> & Hread & Hkept) by (vm_compute in E; injection E as <- <- <- <-; vm_compute; eauto).
  exists d, h', n'. split; [reflexivity|]. split; [rewrite Hcaller by set_solver; reflexivity|].
  rewrite (Hlater context_Background); [by rewrite Hread|done|]. split; [rewrite dom_insert_L; set_solver|].
  intros l b Hl Hb. rewrite lookup_insert_ne; [done|]. intros <-. apply Hl. vm_compute. reflexivity.
Defined.

End service_memory.
