(* ===== verification/ManagerMemory.v ===== *)
(** * The RBAC manager in memory (rbac/manager.go)

    [RBACManager] treats roles and assignments as values. The code keeps them
    in arrays: it copies what it is given and what it returns, and
    [RevokeAssignment] deletes by moving elements of its array in place. Here
    the manager runs on a memory that it shares with its clients, who keep the
    slices they passed and received and write to them at any time. The theorem
    shows that the manager still behaves like its value: the copies are deep
    enough, and the array that is overwritten belongs to nobody else. The
    attribute maps of subjects are shared, as the comments of the source say;
    nothing the manager decides depends on them. *)

From S2P Require Import Prelude Attribute Request Decision Snapshot Engine Matching RoleGraph RBAC RBACManager GoMemory.
Import rbac.

Module manager_memory.

(** ** Data *)

Record role_ref := mkRoleRef {
  rr_id : RoleID; rr_tenant : TenantID; rr_parents : slice
}.

Record subject_ref := mkSubjectRef {
  sr_kind : SubjectKind; sr_id : SubjectID; sr_groups : slice; sr_attributes : option loc
}.

Record assignment_ref := mkAssignmentRef {
  ar_id : PolicyID; ar_subject : subject_ref; ar_role : RoleID; ar_tenant : TenantID
}.

Inductive block :=
| Strings (l : list string)
| Roles (l : list role_ref)
| Permissions (l : list Permission)
| Assignments (l : list assignment_ref)
| Options (l : list Option)
| AttributeMap (m : gmap AttributeName Value).

Definition zero_role : role_ref := mkRoleRef "" "" nil_slice.
Definition zero_permission : Permission := mkPermission "" "" "" "" "" "" NotApplicable 0.
Definition zero_assignment : assignment_ref := mkAssignmentRef "" (mkSubjectRef "" "" nil_slice None) "" "".

#[global] Instance strings_array : ArrayOf block string :=
  {| array := Strings; elements b := match b with Strings l => Some l | _ => None end; zero := ""; elements_array xs := eq_refl |}.
#[global] Instance roles_array : ArrayOf block role_ref :=
  {| array := Roles; elements b := match b with Roles l => Some l | _ => None end; zero := zero_role; elements_array xs := eq_refl |}.
#[global] Instance permissions_array : ArrayOf block Permission :=
  {| array := Permissions; elements b := match b with Permissions l => Some l | _ => None end; zero := zero_permission; elements_array xs := eq_refl |}.
#[global] Instance assignments_array : ArrayOf block assignment_ref :=
  {| array := Assignments; elements b := match b with Assignments l => Some l | _ => None end; zero := zero_assignment; elements_array xs := eq_refl |}.
#[global] Instance options_array : ArrayOf block Option :=
  {| array := Options; elements b := match b with Options l => Some l | _ => None end; zero := id; elements_array xs := eq_refl |}.

Abbreviation heap := (memory block).

Record manager_ref := mkManagerRef {
  mr_roles : slice; mr_permissions : slice; mr_assignments : slice; mr_options : slice; mr_revision : Revision
}.

(** ** Values in a memory *)

Definition read_strings (h : heap) (s : slice) : list string := contents h s.

Definition read_role (h : heap) (r : role_ref) : Role := mkRole (rr_id r) (rr_tenant r) (read_strings h (rr_parents r)).

Definition read_attributes (h : heap) (l : option loc) : Attributes :=
  l ← l; match h !! l with Some (AttributeMap m) => Some m | _ => None end.

Definition read_subject (h : heap) (s : subject_ref) : Subject :=
  mkSubject (sr_kind s) (sr_id s) (read_strings h (sr_groups s)) (read_attributes h (sr_attributes s)).

Definition read_assignment (h : heap) (a : assignment_ref) : Assignment :=
  mkAssignment (ar_id a) (read_subject h (ar_subject a)) (ar_role a) (ar_tenant a).

Definition read_roles (h : heap) (s : slice) : list Role := read_role h <$> contents h s.
Definition read_permissions (h : heap) (s : slice) : list Permission := contents h s.
Definition read_assignments (h : heap) (s : slice) : list Assignment := read_assignment h <$> contents h s.
Definition read_options (h : heap) (s : slice) : list Option := contents h s.

Definition read_manager (h : heap) (m : manager_ref) : Manager :=
  mkManager (read_roles h (mr_roles m)) (read_permissions h (mr_permissions m))
    (read_assignments h (mr_assignments m)) (read_options h (mr_options m)) (mr_revision m).

(** ** Operations *)

Section operations.
Context `{GoRuntime, Growth}.

(** [append([]string(nil), s...)] *)
Definition copy_strings (s : slice) (h : heap) : slice * heap := append nil_slice (read_strings h s) h.

(** The loop of [cloneRoles]. *)
Fixpoint clone_roles (rs : list role_ref) (h : heap) : list role_ref * heap :=
  match rs with
  | [] => ([], h)
  | r :: rs =>
      let '(parents, h) := copy_strings (rr_parents r) h in
      let '(clone, h) := clone_roles rs h in
      (mkRoleRef (rr_id r) (rr_tenant r) parents :: clone, h)
  end.

Definition cloneRoles (s : slice) (h : heap) : slice * heap :=
  let '(clone, h) := clone_roles (contents h s) h in new_slice 0 clone h.

Definition cloneAssignment (a : assignment_ref) (h : heap) : assignment_ref * heap :=
  let subject := ar_subject a in
  let '(groups, h) := copy_strings (sr_groups subject) h in
  (mkAssignmentRef (ar_id a) (mkSubjectRef (sr_kind subject) (sr_id subject) groups (sr_attributes subject))
     (ar_role a) (ar_tenant a), h).

(** The loop of [cloneAssignments]. *)
Fixpoint clone_assignments (asgs : list assignment_ref) (h : heap) : list assignment_ref * heap :=
  match asgs with
  | [] => ([], h)
  | a :: asgs =>
      let '(a, h) := cloneAssignment a h in
      let '(clone, h) := clone_assignments asgs h in (a :: clone, h)
  end.

Definition cloneAssignments (s : slice) (h : heap) : slice * heap :=
  let '(clone, h) := clone_assignments (contents h s) h in new_slice 0 clone h.

(** [New] on the values in a memory; the evaluator has its own copies. *)
Definition New_in (h : heap) (rs ps asgs options : slice) : result Evaluator :=
  New (read_roles h rs) (read_permissions h ps) (read_assignments h asgs) (read_options h options).

Definition NewManager (rs ps asgs options : slice) (h : heap) : result manager_ref * heap :=
  match New_in h rs ps asgs options with
  | Err err => (Err err, h)
  | Ok _ =>
      let '(rs, h) := cloneRoles rs h in
      let '(ps, h) := append nil_slice (read_permissions h ps) h in
      let '(asgs, h) := cloneAssignments asgs h in
      let '(options, h) := append nil_slice (read_options h options) h in
      (Ok (mkManagerRef rs ps asgs options 1), h)
  end.

Definition set_assignments (m : manager_ref) (asgs : slice) : manager_ref :=
  mkManagerRef (mr_roles m) (mr_permissions m) asgs (mr_options m) (uint64_add (mr_revision m) 1).

Definition Assign (m : manager_ref) (a : assignment_ref) (h : heap) : option error * manager_ref * heap :=
  let '(clone, h) := cloneAssignments (mr_assignments m) h in
  let '(a, h) := cloneAssignment a h in
  let '(candidate, h) := append clone [a] h in
  match New_in h (mr_roles m) (mr_permissions m) candidate (mr_options m) with
  | Err err => (Some err, m, h)
  | Ok _ => (None, set_assignments m candidate, h)
  end.

(** The index of the first assignment with the identifier. *)
Fixpoint find_ref (id : PolicyID) (index : nat) (asgs : list assignment_ref) : option nat :=
  match asgs with
  | [] => None
  | a :: asgs => if negb (bool_decide (ar_id a = id)) then find_ref id (S index) asgs else Some index
  end.

Definition RevokeAssignment (m : manager_ref) (id : PolicyID) (h : heap) : bool * manager_ref * heap :=
  let s := mr_assignments m in
  match find_ref id 0 (contents h s) with
  | Some index =>
      let '(asgs, h) := append (slice_to index s) (contents (E := assignment_ref) h (slice_from (index + 1) s)) h in
      (true, set_assignments m asgs, h)
  | None => (false, m, h)
  end.

(** The loop of [Assignments]. *)
Fixpoint list_assignments (subject : subject_ref) (tenant : TenantID) (acc : slice) (asgs : list assignment_ref)
    (h : heap) : slice * heap :=
  match asgs with
  | [] => (acc, h)
  | a :: asgs =>
      if bool_decide (sr_kind (ar_subject a) = sr_kind subject) && bool_decide (sr_id (ar_subject a) = sr_id subject) &&
         bool_decide (ar_tenant a = tenant)
      then
        let '(a, h) := cloneAssignment a h in
        let '(acc, h) := append acc [a] h in
        list_assignments subject tenant acc asgs h
      else list_assignments subject tenant acc asgs h
  end.

Definition Manager_Assignments_in (m : manager_ref) (subject : subject_ref) (tenant : TenantID) (h : heap) : slice * heap :=
  let '(acc, h) := new_slice (E := assignment_ref) 0 [] h in
  list_assignments subject tenant acc (contents h (mr_assignments m)) h.

Definition Evaluator_in (m : manager_ref) (h : heap) : result Evaluator :=
  New_in h (mr_roles m) (mr_permissions m) (mr_assignments m) (mr_options m).

End operations.

(** ** Ownership

    The manager owns a set of locations that its clients cannot reach. *)

(** The references in a block: to locations of [P], attribute maps to
    locations of [A]. *)
Definition attributes_in (A : gset loc) (l : option loc) : Prop := ∀ l', l = Some l' → l' ∈ A.

Definition assignment_in (P A : gset loc) (a : assignment_ref) : Prop :=
  slice_in P (sr_groups (ar_subject a)) ∧ attributes_in A (sr_attributes (ar_subject a)).

Definition block_in (P A : gset loc) (b : block) : Prop :=
  match b with
  | Roles rs => Forall (λ r, slice_in P (rr_parents r)) rs
  | Assignments asgs => Forall (assignment_in P A) asgs
  | _ => True
  end.

(** A set of allocated locations from which nothing else is reachable, except
    attribute maps in [A]. *)
Definition region (h : heap) (P A : gset loc) : Prop := ∀ l, l ∈ P → ∃ b, h !! l = Some b ∧ block_in P A b.

Definition manager_in (P : gset loc) (m : manager_ref) : Prop :=
  slice_in P (mr_roles m) ∧ slice_in P (mr_permissions m) ∧ slice_in P (mr_assignments m) ∧ slice_in P (mr_options m).

(** What was allocated since [h0] refers only to what was allocated since,
    and to attribute maps in [A]. *)
Definition grown (h0 : heap) (A : gset loc) (h : heap) : Prop :=
  extends h0 h ∧ ∀ l b, h0 !! l = None → h !! l = Some b → block_in (since h0 h) A b.

(** ** Lemmas on ownership *)

Lemma assignment_in_mono P P' A A' a : P ⊆ P' → A ⊆ A' → assignment_in P A a → assignment_in P' A' a.
Proof. intros ? ? [? ?]. split; [by eapply slice_in_mono|]. intros l E. set_solver. Qed.

Lemma block_in_mono P P' A A' b : P ⊆ P' → A ⊆ A' → block_in P A b → block_in P' A' b.
Proof.
  intros HP HA. destruct b; simpl; try done; intros Hb; eapply Forall_impl; try done; simpl.
  - intros r. by apply slice_in_mono.
  - intros a. by apply assignment_in_mono.
Qed.

Lemma grown_refl h A : grown h A h.
Proof. split; [by unfold extends|]. intros l b Hn Hb. congruence. Qed.

Lemma grown_dom h0 A h : grown h0 A h → dom h0 ⊆ dom h.
Proof. intros [He _]. by apply extends_dom. Qed.

(** A block is allocated. *)
Lemma grown_insert h0 A h l b :
  grown h0 A h → h !! l = None → block_in (since h0 (<[l := b]> h)) A b → grown h0 A (<[l := b]> h).
Proof.
  intros [He Hg] Hn Hb. assert (extends h (<[l := b]> h)) as He' by (by apply insert_subseteq).
  split; [by etrans|]. intros l' b' Hl' Hb'. apply lookup_insert_Some in Hb' as [[<- <-]|[Hne Hb']]; [done|].
  eapply block_in_mono; [by apply since_mono|done|]. by eapply Hg.
Qed.

(** A block that was allocated since is overwritten. *)
Lemma grown_overwrite h0 A h l b b' :
  grown h0 A h → h !! l = Some b → h0 !! l = None → block_in (since h0 h) A b' → grown h0 A (<[l := b']> h).
Proof.
  intros [He Hg] Hl Hn Hb. assert (since h0 (<[l := b']> h) = since h0 h) as Es.
  { unfold since. rewrite dom_insert_L. apply elem_of_dom_2 in Hl. set_solver. }
  split; [apply insert_subseteq_r; [done|exact He]|]. intros l' b1 Hl' Hb'. rewrite Es.
  apply lookup_insert_Some in Hb' as [[<- <-]|[Hne Hb']]; [done|]. by eapply Hg.
Qed.

(** What was allocated since goes to the owner of a region. *)
Lemma region_grown h P A h' :
  region h P A → grown h A h' → region h' (P ∪ since h h') A.
Proof.
  intros Hr Hg l [Hl|Hl]%elem_of_union.
  - destruct (Hr l Hl) as (b & Hb & Hin). exists b. split; [eapply extends_lookup; [apply Hg|done]|].
    eapply block_in_mono; [| |done]; set_solver.
  - unfold since in Hl. apply elem_of_difference in Hl as [[b Hb]%elem_of_dom Hn%not_elem_of_dom]. exists b. split; [done|].
    eapply block_in_mono; [| |by eapply Hg]; set_solver.
Qed.

Lemma region_extends h P A A' h' : region h P A → extends h h' → A ⊆ A' → region h' P A'.
Proof.
  intros Hr He HA l Hl. destruct (Hr l Hl) as (b & Hb & Hin). exists b. split; [by eapply extends_lookup|].
  by eapply block_in_mono.
Qed.

Lemma region_dom h P A : region h P A → P ⊆ dom h.
Proof. intros Hr l (b & Hb & _)%Hr. by eapply elem_of_dom_2. Qed.

(** Elements of slices of a region. *)
Lemma contents_at {E} `{ArrayOf block E} (h : heap) s x :
  x ∈ contents h s → ∃ l b xs, s_base s = Some l ∧ h !! l = Some b ∧ elements b = Some xs ∧ x ∈ xs.
Proof.
  unfold contents, array_at. destruct (s_base s) as [l|]; simpl; [|by rewrite drop_nil, take_nil; intros ?%elem_of_nil].
  destruct (h !! l) as [b|] eqn:Eb; simpl; [|by rewrite drop_nil, take_nil; intros ?%elem_of_nil].
  destruct (elements b) as [xs|] eqn:Ex; simpl; [|by rewrite drop_nil, take_nil; intros ?%elem_of_nil].
  intros Hx. exists l, b, xs. split_and!; [done..|]. eapply elem_of_sublist; [exact Hx|].
  etrans; [apply sublist_take|apply sublist_drop].
Qed.

Lemma region_assignments h P A s : region h P A → slice_in P s → Forall (assignment_in P A) (contents h s).
Proof.
  intros Hr Hs. apply Forall_forall. intros a (l & b & xs & El & Hb & Ex & Hx)%contents_at.
  destruct (Hr l (Hs l El)) as (b' & Hb' & Hin). rewrite Hb in Hb'. injection Hb' as <-.
  destruct b; try discriminate. injection Ex as ->. simpl in Hin. rewrite Forall_forall in Hin. by apply Hin.
Qed.

Lemma region_roles h P A s : region h P A → slice_in P s → Forall (λ r, slice_in P (rr_parents r)) (contents h s).
Proof.
  intros Hr Hs. apply Forall_forall. intros a (l & b & xs & El & Hb & Ex & Hx)%contents_at.
  destruct (Hr l (Hs l El)) as (b' & Hb' & Hin). rewrite Hb in Hb'. injection Hb' as <-.
  destruct b; try discriminate. injection Ex as ->. simpl in Hin. rewrite Forall_forall in Hin. by apply Hin.
Qed.

(** ** Without attribute maps *)

Definition erase_assignment (a : Assignment) : Assignment :=
  let subject := Assignment_Subject a in
  mkAssignment (Assignment_ID a) (mkSubject (Subject_Kind subject) (Subject_ID subject) (Subject_Groups subject) None)
    (Assignment_RoleID a) (Assignment_Tenant a).

Definition erase_manager (m : Manager) : Manager :=
  mkManager (manager_roles m) (manager_permissions m) (erase_assignment <$> manager_assignments m)
    (manager_options m) (manager_revision m).

Definition erase_evaluator (ev : Evaluator) : Evaluator :=
  mkRBACEvaluator (roles ev) (permissions ev) (map erase_assignment <$> assignments ev) (limits ev) (inheritGlobal ev).

Definition erase_result (r : result Evaluator) : result Evaluator :=
  match r with Ok ev => Ok (erase_evaluator ev) | Err err => Err err end.

(** An assignment in memory without its attributes. *)
Definition plain (h : heap) (a : assignment_ref) : Assignment := erase_assignment (read_assignment h a).

(** Arrays of strings survive, and arrays of assignments stay arrays of
    assignments. *)
Definition keeps (h h' : heap) : Prop :=
  ∀ l b, h !! l = Some b → h' !! l = Some b ∨ ∃ xs ys, b = Assignments xs ∧ h' !! l = Some (Assignments ys).

Lemma keeps_extends h h' : extends h h' → keeps h h'.
Proof. intros He l b Hb. left. by eapply extends_lookup. Qed.

Lemma keeps_overwrite h l xs ys : h !! l = Some (Assignments xs) → keeps h (<[l := Assignments ys]> h).
Proof.
  intros Hl l' b Hb. destruct (decide (l = l')) as [<-|Hne].
  - right. exists xs, ys. rewrite lookup_insert_eq. split; [congruence|done].
  - left. by rewrite lookup_insert_ne.
Qed.

Lemma keeps_trans h1 h2 h3 : keeps h1 h2 → keeps h2 h3 → keeps h1 h3.
Proof.
  intros H1 H2 l b Hb. destruct (H1 l b Hb) as [Hb2|(xs & ys & -> & Hb2)].
  - by apply H2.
  - right. destruct (H2 l _ Hb2) as [Hb3|(xs' & ys' & _ & Hb3)]; eauto.
Qed.

Lemma keeps_dom h h' : keeps h h' → dom h ⊆ dom h'.
Proof.
  intros Hk l [b Hb]%elem_of_dom. apply elem_of_dom. destruct (Hk l b Hb) as [?|(? & ? & _ & ?)]; by eexists.
Qed.

(** Elements other than assignments are kept. *)
Lemma keeps_contents {E} `{ArrayOf block E} h h' s :
  (∀ xs, elements (E := E) (Assignments xs) = None) → keeps h h' → slice_in (dom h) s → contents (E := E) h' s = contents h s.
Proof.
  intros Hother Hk Hs. unfold contents, array_at. destruct (s_base s) as [l|] eqn:El; [|done]. simpl.
  apply Hs, elem_of_dom in El as [b Hb]. destruct (Hk l b Hb) as [Hb'|(xs & ys & -> & Hb')]; rewrite Hb, Hb'; [done|].
  simpl. by rewrite !Hother.
Qed.

Lemma keeps_plain h h' a : keeps h h' → slice_in (dom h) (sr_groups (ar_subject a)) → plain h' a = plain h a.
Proof.
  intros Hk Hs. unfold plain, read_assignment, read_subject, erase_assignment. simpl. unfold read_strings.
  by rewrite (keeps_contents h h').
Qed.

Lemma keeps_plains h h' P A asgs :
  keeps h h' → P ⊆ dom h → Forall (assignment_in P A) asgs → plain h' <$> asgs = plain h <$> asgs.
Proof.
  intros Hk HP Hall. apply Forall_fmap_ext_1. eapply Forall_impl; [exact Hall|]. intros a [Ha _].
  apply keeps_plain; [done|by eapply slice_in_mono].
Qed.

Lemma keeps_roles h h' P rs :
  keeps h h' → P ⊆ dom h → Forall (λ r, slice_in P (rr_parents r)) rs → read_role h' <$> rs = read_role h <$> rs.
Proof.
  intros Hk HP Hall. apply Forall_fmap_ext_1. eapply Forall_impl; [exact Hall|]. intros r Hr. unfold read_role, read_strings.
  rewrite (keeps_contents h h'); [done|done|done|by eapply slice_in_mono].
Qed.

(** ** Lemmas on copies *)

Section copies.
Context `{Growth}.

Lemma copy_strings_spec h0 A h s s' h' :
  copy_strings s h = (s', h') → grown h0 A h →
  grown h0 A h' ∧ extends h h' ∧ slice_in (since h0 h') s' ∧ read_strings h' s' = read_strings h s.
Proof.
  intros (Hc & He & Hs & Hh)%append_nil_spec Hg. split_and!; [|done| |done].
  - destruct Hh as [-> | (l & cells & Hn & ->)]; [done|]. by apply grown_insert.
  - eapply slice_in_mono; [|done]. apply since_extends, Hg.
Qed.

Lemma clone_roles_spec h0 A h rs rs' h' :
  clone_roles rs h = (rs', h') → grown h0 A h → Forall (λ r, slice_in (dom h) (rr_parents r)) rs →
  grown h0 A h' ∧ extends h h' ∧ Forall (λ r, slice_in (since h0 h') (rr_parents r)) rs' ∧
  read_role h' <$> rs' = read_role h <$> rs.
Proof.
  revert h rs'. induction rs as [|r rs IH]; intros h rs' E Hg Hin; simpl in E.
  { simplify_eq. split_and!; [done|by unfold extends|constructor|done]. }
  destruct (copy_strings _ h) as [parents h1] eqn:E1. destruct (clone_roles rs h1) as [clone h2] eqn:E2. simplify_eq.
  apply Forall_cons in Hin as [Hr Hin]. apply (copy_strings_spec h0 A) in E1 as (Hg1 & He1 & Hs1 & Hc1); [|done].
  apply IH in E2 as (Hg2 & He2 & Hs2 & Hc2); [|done|].
  2: { eapply Forall_impl; [exact Hin|]. intros r'. apply slice_in_mono. by apply extends_dom. }
  split_and!; [done|by etrans| |].
  - constructor; [|done]. simpl. eapply slice_in_mono; [|exact Hs1]. by apply since_mono.
  - csimpl. f_equal.
    + unfold read_role. simpl. f_equal. rewrite <- Hc1. apply contents_extends; [done|].
      eapply slice_in_mono; [|exact Hs1]. unfold since. set_solver.
    + rewrite Hc2. apply (keeps_roles _ _ (dom h)); [by apply keeps_extends|done|done].
Qed.

Lemma cloneAssignment_spec h0 A h a a' h' :
  cloneAssignment a h = (a', h') → grown h0 A h → attributes_in A (sr_attributes (ar_subject a)) →
  grown h0 A h' ∧ extends h h' ∧ assignment_in (since h0 h') A a' ∧ plain h' a' = plain h a.
Proof.
  unfold cloneAssignment. destruct (copy_strings _ h) as [groups h1] eqn:E. intros [= <- <-] Hg Ha.
  apply (copy_strings_spec h0 A) in E as (Hg1 & He & Hs & Hc); [|done]. split_and!; [done..|].
  unfold plain, read_assignment, read_subject, erase_assignment. simpl. by rewrite Hc.
Qed.

Lemma clone_assignments_spec h0 A h P asgs asgs' h' :
  clone_assignments asgs h = (asgs', h') → grown h0 A h → P ⊆ dom h → Forall (assignment_in P A) asgs →
  grown h0 A h' ∧ extends h h' ∧ Forall (assignment_in (since h0 h') A) asgs' ∧ plain h' <$> asgs' = plain h <$> asgs.
Proof.
  revert h asgs'. induction asgs as [|a asgs IH]; intros h asgs' E Hg HP Hin; simpl in E.
  { simplify_eq. split_and!; [done|by unfold extends|constructor|done]. }
  destruct (cloneAssignment a h) as [a1 h1] eqn:E1. destruct (clone_assignments asgs h1) as [clone h2] eqn:E2. simplify_eq.
  apply Forall_cons in Hin as [Ha Hin]. apply (cloneAssignment_spec h0 A) in E1 as (Hg1 & He1 & Hs1 & Hc1); [|done|apply Ha].
  pose proof (extends_dom _ _ He1). apply IH in E2 as (Hg2 & He2 & Hs2 & Hc2); [|done|set_solver|done].
  split_and!; [done|by etrans| |].
  - constructor; [|done]. eapply assignment_in_mono; [by apply since_mono|done|done].
  - csimpl. f_equal.
    + rewrite <- Hc1. apply keeps_plain; [by apply keeps_extends|]. destruct Hs1 as [Hs1 _].
      eapply slice_in_mono; [|exact Hs1]. unfold since. set_solver.
    + rewrite Hc2. by apply (keeps_plains _ _ P A); [apply keeps_extends|..].
Qed.

(** A slice at the front of a new array of assignments. *)
Definition new_assignments (h0 h : heap) (s : slice) : Prop :=
  ∃ l xs, s_base s = Some l ∧ s_off s = 0%nat ∧ h !! l = Some (Assignments xs) ∧ (s_len s ≤ length xs)%nat ∧ h0 !! l = None.

Lemma new_assignments_in h0 h s : new_assignments h0 h s → slice_in (since h0 h) s.
Proof.
  intros (l & xs & El & _ & Hl & _ & Hn) l' E. rewrite El in E. injection E as <-. unfold since.
  apply elem_of_difference. split; [by eapply elem_of_dom_2|by apply not_elem_of_dom].
Qed.

Lemma new_assignments_elements h0 A h s :
  grown h0 A h → new_assignments h0 h s → Forall (assignment_in (since h0 h) A) (contents h s).
Proof.
  intros [_ Hg] (l & xs & El & _ & Hl & _ & Hn). unfold contents, array_at. rewrite El. simpl. rewrite Hl. simpl.
  apply Forall_take, Forall_drop. exact (Hg l _ Hn Hl).
Qed.

Lemma new_assignments_extends h0 h h' s : new_assignments h0 h s → extends h h' → new_assignments h0 h' s.
Proof.
  intros (l & xs & ? & ? & Hl & ? & ?) He. exists l, xs. split_and!; try done. by eapply extends_lookup.
Qed.

Lemma new_slice_assignments h0 A h cells xs s h' :
  new_slice cells xs h = (s, h') → grown h0 A h → Forall (assignment_in (since h0 h) A) xs →
  grown h0 A h' ∧ extends h h' ∧ new_assignments h0 h' s ∧ contents h' s = xs.
Proof.
  intros (l & Hn & -> & He & -> & Hc & _)%new_slice_spec Hg Hxs. split_and!; [|done| |done].
  - apply grown_insert; [done|done|]. simpl. apply Forall_app. split.
    + eapply Forall_impl; [exact Hxs|]. intros a. apply assignment_in_mono; [by apply since_mono|done].
    + apply Forall_replicate. by split.
  - exists l, (xs ++ replicate cells zero_assignment). simpl. split_and!; [done|done|apply lookup_insert_eq| |].
    + rewrite length_app. lia.
    + destruct Hg as [Hg _]. destruct (h0 !! l) eqn:E; [|done]. eapply extends_lookup in E; [|done]. congruence.
Qed.

Lemma append_new_assignment h0 A h s a s' h' :
  append s [a] h = (s', h') → grown h0 A h → new_assignments h0 h s → assignment_in (since h0 h) A a →
  grown h0 A h' ∧ keeps h h' ∧ new_assignments h0 h' s' ∧ plain h' <$> contents h' s' = (plain h <$> contents h s) ++ [plain h a].
Proof.
  intros Ea Hg Hnew Ha. pose proof (new_assignments_elements _ _ _ _ Hg Hnew) as Hcs.
  enough (grown h0 A h' ∧ keeps h h' ∧ new_assignments h0 h' s' ∧ contents h' s' = contents h s ++ [a]) as (? & Hk & ? & ->).
  { split_and!; [done..|]. rewrite fmap_app. f_equal; [apply (keeps_plains _ _ (since h0 h) A); [done|apply since_dom|done]|].
    apply (keeps_plains _ _ (since h0 h) A [a]); [done|apply since_dom|by constructor]. }
  destruct Hnew as (l & xs & El & Eo & Hl & Hlen & Hn).
  assert (array_at h s = xs) as Harr by (unfold array_at; rewrite El; simpl; rewrite Hl; done).
  assert (Forall (assignment_in (since h0 h) A) xs) as Hxs by (destruct Hg as [_ Hg]; exact (Hg l _ Hn Hl)).
  pose proof (append_contents _ _ _ _ _ Ea) as Hc. unfold append in Ea. rewrite El, Harr, Eo in Ea.
  case_bool_decide as Hcap.
  - injection Ea as <- <-. split_and!; [| | |by apply Hc; left; rewrite Harr; lia].
    + eapply grown_overwrite; [done..|]. simpl. apply Forall_app. split; [by apply Forall_take|]. constructor; [done|by apply Forall_drop].
    + by eapply keeps_overwrite.
    + eexists l, _. simpl. split_and!; [done|done|apply lookup_insert_eq| |done]. rewrite length_app, length_take. simpl. lia.
  - apply (new_slice_assignments h0 A) in Ea as (Hg' & He & Hnew & Hc'); [|done|]; cycle 1.
    { apply Forall_app. split; [done|by constructor]. }
    split_and!; [done|by apply keeps_extends|done|done].
Qed.

End copies.

(** ** Attributes do not matter *)

Lemma erase_idemp a : erase_assignment (erase_assignment a) = erase_assignment a.
Proof. done. Qed.

Lemma map_erase_idemp (l : list Assignment) : map erase_assignment (map erase_assignment l) = map erase_assignment l.
Proof. induction l as [|a l IH]; [done|]. simpl. by rewrite IH. Qed.

Definition erase_index (r : result (gmap subjectKey (list Assignment))) : result (gmap subjectKey (list Assignment)) :=
  match r with Ok m => Ok (map erase_assignment <$> m) | Err err => Err err end.

Lemma assignment_loop_erase rs index ids acc acc' asgs :
  map erase_assignment <$> acc = map erase_assignment <$> acc' →
  erase_index (assignment_loop rs index ids acc (map erase_assignment asgs)) = erase_index (assignment_loop rs index ids acc' asgs).
Proof.
  revert index ids acc acc'. induction asgs as [|a asgs IH]; intros index ids acc acc' Hacc; simpl; [by rewrite Hacc|].
  change (validAssignment (erase_assignment a)) with (validAssignment a). destruct (validAssignment a); [|done]. simpl.
  case_bool_decide; [done|]. destruct (rs !! Assignment_RoleID a) as [role|]; [|done]. case_bool_decide; [|done]. simpl.
  apply IH. change (assignment_key (erase_assignment a)) with (assignment_key a). rewrite !fmap_insert. f_equal; [|done].
  rewrite !map_app. f_equal. apply (f_equal (lookup (assignment_key a))) in Hacc. rewrite !lookup_fmap in Hacc.
  destruct (acc !! _), (acc' !! _); simplify_eq/=; auto.
Qed.

Lemma New_erase `{GoRuntime} rs ps asgs options :
  erase_result (New rs ps (map erase_assignment asgs) options) = erase_result (New rs ps asgs options).
Proof.
  unfold New. set (evaluator := foldl (λ (evaluator : Evaluator) (option : Option), option evaluator) (mkRBACEvaluator ∅ ∅ ∅ default_limits false) options).
  assert (len (map erase_assignment asgs) = len asgs) as -> by (unfold len; by rewrite length_map).
  destruct (_ <? _)%Z; [done|]. destruct (_ <? _)%Z; [done|]. destruct (_ <? _)%Z; [done|].
  destruct (role_loop _ _ _) as [rm|]; [|done]. simpl. destruct (validateInheritance _ _); [done|].
  destruct (permission_loop _ _ _ _ _) as [pm|]; [|done]. simpl.
  pose proof (assignment_loop_erase rm 0 ∅ (assignments evaluator) (assignments evaluator) asgs eq_refl) as Hl.
  destruct (assignment_loop _ _ _ _ (map _ _)), (assignment_loop _ _ _ _ asgs); simplify_eq/=; [|done].
  unfold erase_evaluator. simpl. congruence.
Qed.

Lemma New_erased `{GoRuntime} rs ps asgs asgs' options :
  map erase_assignment asgs = map erase_assignment asgs' →
  erase_result (New rs ps asgs options) = erase_result (New rs ps asgs' options).
Proof. intros E. by rewrite <- New_erase, E, New_erase. Qed.

(** An evaluator decides the same without them. *)
Lemma Evaluate_erase `{GoRuntime} ev ctx request n : Evaluate (erase_evaluator ev) ctx request n = Evaluate ev ctx request n.
Proof.
  assert (∀ subject tenant, role_ids (erase_evaluator ev) subject tenant = role_ids ev subject tenant) as Hr.
  { intros subject tenant. unfold role_ids. generalize (∅ : gset string) as acc.
    induction (principals subject) as [|p ps IH]; intros acc; simpl; [done|]. rewrite IH. f_equal. rewrite lookup_fmap.
    destruct (assignments ev !! p) as [asgs|]; [|done]. simpl. unfold assigned_roles. clear.
    revert acc. induction asgs as [|a asgs IH]; intros acc; simpl; [done|]. by rewrite IH. }
  assert (∀ subject tenant n, EffectivePermissions (erase_evaluator ev) ctx subject tenant n =
    EffectivePermissions ev ctx subject tenant n) as He.
  { intros subject tenant n'. unfold EffectivePermissions. rewrite !ctx_Err_bind, Hr. done. }
  unfold Evaluate, mbind, M_bind. by rewrite He.
Qed.

(** ** The system *)

(** The memory, the locations the clients can reach, and the manager. *)
Record system := mkSystem { sys_heap : heap; sys_known : gset loc; sys_manager : manager_ref }.

(** What is seen of a step. *)
Inductive event :=
| Wrote
| Assigned (a : Assignment) (err : option error)
| Revoked (id : PolicyID) (found : bool)
| Listed (subject : Subject) (tenant : TenantID) (listed : list Assignment)
| Evaluated (r : result Evaluator)
| Counted (r : Revision).

(** Clients write what they like to the blocks they can reach, and allocate. *)
Definition client_writes (h : heap) (K : gset loc) (h' : heap) (K' : gset loc) : Prop :=
  (∀ l b, l ∉ K → h !! l = Some b → h' !! l = Some b) ∧ K ⊆ K' ∧ (∀ l, l ∈ K' → l ∈ dom h → l ∈ K) ∧ region h' K' K'.

(** They pass references they have, and get the ones in a result. *)
Inductive step `{GoRuntime, Growth} : system → event → system → Prop :=
| step_write h K m h' K' : client_writes h K h' K' → step (mkSystem h K m) Wrote (mkSystem h' K' m)
| step_assign h K m a err m' h' :
    assignment_in K K a → Assign m a h = (err, m', h') →
    step (mkSystem h K m) (Assigned (read_assignment h a) err) (mkSystem h' K m')
| step_revoke h K m id found m' h' :
    RevokeAssignment m id h = (found, m', h') → step (mkSystem h K m) (Revoked id found) (mkSystem h' K m')
| step_list h K m subject tenant s h' :
    Manager_Assignments_in m subject tenant h = (s, h') →
    step (mkSystem h K m) (Listed (read_subject h subject) tenant (plain h' <$> contents h' s)) (mkSystem h' (K ∪ since h h') m)
| step_evaluator h K m :
    step (mkSystem h K m) (Evaluated (erase_result (Evaluator_in m h))) (mkSystem h K m)
| step_revision h K m : step (mkSystem h K m) (Counted (mr_revision m)) (mkSystem h K m).

(** The same events of the manager as a value. *)
Inductive value_step `{GoRuntime} : Manager → event → Manager → Prop :=
| value_write m : value_step m Wrote m
| value_assign m a err m' : Manager_Assign m a = (err, m') → value_step m (Assigned a err) m'
| value_revoke m id found m' : Manager_RevokeAssignment m id = (found, m') → value_step m (Revoked id found) m'
| value_list m subject tenant :
    value_step m (Listed subject tenant (erase_assignment <$> Manager_Assignments m subject tenant)) m
| value_evaluator m : value_step m (Evaluated (erase_result (Manager_Evaluator m))) m
| value_revision m : value_step m (Counted (Manager_Revision m)) m.

Inductive trace {S E} (step : S → E → S → Prop) : S → list E → S → Prop :=
| trace_nil s : trace step s [] s
| trace_cons s e s' es s'' : step s e s' → trace step s' es s'' → trace step s (e :: es) s''.

(** The manager in memory is a value, in locations of its own. *)
Record represents (sys : system) (P : gset loc) (value : Manager) : Prop := {
  rep_private : region (sys_heap sys) P (sys_known sys);
  rep_known : region (sys_heap sys) (sys_known sys) (sys_known sys);
  rep_manager : manager_in P (sys_manager sys);
  rep_disjoint : P ## sys_known sys;
  rep_value : erase_manager (read_manager (sys_heap sys) (sys_manager sys)) = erase_manager value
}.

(** ** The simulation *)

(** A manager depends only on its region. *)
Lemma read_manager_frame h h' P A m :
  region h P A → manager_in P m → (∀ l b, l ∈ P → h !! l = Some b → h' !! l = Some b) →
  erase_manager (read_manager h' m) = erase_manager (read_manager h m).
Proof.
  intros Hr (H1 & H2 & H3 & H4) Hframe.
  assert (∀ s, slice_in P s → ∀ l, s_base s = Some l → h' !! l = h !! l) as Hl.
  { intros s Hs l El. destruct (Hr l (Hs l El)) as (b & Hb & _). rewrite Hb. apply Hframe; [by apply Hs|done]. }
  unfold erase_manager, read_manager, read_roles, read_permissions, read_assignments, read_options. simpl.
  rewrite !(contents_frame h h') by (by eapply Hl). f_equal.
  - apply Forall_fmap_ext_1. eapply Forall_impl; [by eapply (region_roles h P A)|]. intros r Hs. unfold read_role, read_strings.
    by rewrite (contents_frame h h') by (by eapply Hl).
  - rewrite <- !list_fmap_compose. apply Forall_fmap_ext_1. eapply Forall_impl; [by eapply (region_assignments h P A)|].
    intros a [Hs _]. unfold compose, erase_assignment, read_assignment, read_subject, read_strings. simpl.
    by rewrite (contents_frame h h') by (by eapply Hl).
Qed.

Lemma read_manager_extends h h' P A m :
  region h P A → manager_in P m → extends h h' → erase_manager (read_manager h' m) = erase_manager (read_manager h m).
Proof. intros ? ? He. apply (read_manager_frame h h' P A); [done..|]. intros l b _. by apply extends_lookup. Qed.

Lemma manager_in_mono P P' m : P ⊆ P' → manager_in P m → manager_in P' m.
Proof. intros HP (? & ? & ? & ?). split_and!; by eapply slice_in_mono. Qed.

(** What is allocated in a call belongs to the manager or to the clients. *)
Lemma represents_private h K m P value h' m' value' :
  represents (mkSystem h K m) P value → grown h K h' → manager_in (P ∪ since h h') m' →
  erase_manager (read_manager h' m') = erase_manager value' → represents (mkSystem h' K m') (P ∪ since h h') value'.
Proof.
  intros [Hp Hk _ Hd _] Hg Hm Hv. simpl in *. split; simpl; [by apply region_grown| |done| |done].
  - eapply region_extends; [done|apply Hg|done].
  - apply region_dom in Hk. unfold since. set_solver.
Qed.

Lemma represents_returned h K m P value h' :
  represents (mkSystem h K m) P value → grown h K h' → represents (mkSystem h' (K ∪ since h h') m) P value.
Proof.
  intros [Hp Hk Hm Hd Hv] Hg. simpl in *. split; simpl; [| |done| |].
  - eapply region_extends; [done|apply Hg|set_solver].
  - intros l Hl. destruct (region_grown _ _ _ _ Hk Hg l Hl) as (b & Hb & Hin). exists b. split; [done|].
    eapply block_in_mono; [| |exact Hin]; set_solver.
  - apply region_dom in Hp. unfold since. set_solver.
  - rewrite <- Hv. apply (read_manager_extends h h' P K); [done..|apply Hg].
Qed.

Section simulation.
Context `{GoRuntime, Growth}.

(** [New] sees the value of a manager. *)
Lemma New_in_value h rs ps asgs options value asgs' :
  read_roles h rs = manager_roles value → read_permissions h ps = manager_permissions value →
  read_options h options = manager_options value → plain h <$> contents h asgs = erase_assignment <$> asgs' →
  erase_result (New_in h rs ps asgs options) =
    erase_result (New (manager_roles value) (manager_permissions value) asgs' (manager_options value)).
Proof.
  intros E1 E2 E3 E4. unfold New_in. rewrite E1, E2, E3. apply New_erased. unfold read_assignments.
  change (erase_assignment <$> (read_assignment h <$> contents h asgs) = erase_assignment <$> asgs').
  rewrite <- E4, <- list_fmap_compose. done.
Qed.

Lemma erase_result_same r r' : erase_result r = erase_result r' →
  match r, r' with Ok _, Ok _ => True | Err err, Err err' => err = err' | _, _ => False end.
Proof. destruct r, r'; simpl; intros; simplify_eq; done. Qed.

Lemma represents_fields h K m P value :
  represents (mkSystem h K m) P value →
  read_roles h (mr_roles m) = manager_roles value ∧ read_permissions h (mr_permissions m) = manager_permissions value ∧
  plain h <$> contents h (mr_assignments m) = erase_assignment <$> manager_assignments value ∧
  read_options h (mr_options m) = manager_options value ∧ mr_revision m = manager_revision value.
Proof.
  intros [_ _ _ _ Hv]. unfold erase_manager, read_manager, read_assignments in Hv. simpl in Hv.
  injection Hv as E1 E2 E3 E4 E5. split_and!; [done..| |done|done]. rewrite <- E3, <- list_fmap_compose. done.
Qed.

Lemma cloneAssignments_spec h0 A h P s s' h' :
  cloneAssignments s h = (s', h') → grown h0 A h → P ⊆ dom h → Forall (assignment_in P A) (contents h s) →
  grown h0 A h' ∧ extends h h' ∧ new_assignments h0 h' s' ∧ plain h' <$> contents h' s' = plain h <$> contents h s.
Proof.
  unfold cloneAssignments. destruct (clone_assignments _ h) as [clone h1] eqn:E1. intros E2 Hg HP Hin.
  apply (clone_assignments_spec h0 A _ P) in E1 as (Hg1 & He1 & Hin1 & Hc1); [|done..].
  apply (new_slice_assignments h0 A) in E2 as (Hg2 & He2 & Hn & Hc2); [|done..].
  split_and!; [done|by etrans|done|]. rewrite Hc2, <- Hc1.
  apply (keeps_plains _ _ (since h0 h1) A); [by apply keeps_extends|apply since_dom|done].
Qed.

Lemma assign_simulated h K m P value a err m' h' :
  represents (mkSystem h K m) P value → assignment_in K K a → Assign m a h = (err, m', h') →
  ∃ value', Manager_Assign value (read_assignment h a) = (err, value') ∧
    represents (mkSystem h' K m') (P ∪ since h h') value'.
Proof.
  intros Hrep [Ha1 Ha2] E. pose proof (represents_fields _ _ _ _ _ Hrep) as (E1 & E2 & E3 & E4 & E5).
  pose proof Hrep as [Hp Hk Hm _ _]. simpl in Hp, Hk, Hm. pose proof (region_dom _ _ _ Hp). pose proof (region_dom _ _ _ Hk).
  unfold Assign in E. destruct (cloneAssignments _ h) as [clone h1] eqn:Ec. destruct (cloneAssignment a h1) as [a' h2] eqn:Ea.
  destruct (append clone [a'] h2) as [candidate h3] eqn:Ep.
  apply (cloneAssignments_spec h K _ P) in Ec as (Hg1 & He1 & Hn1 & Hc1);
    [|apply grown_refl|done|by apply region_assignments, Hm].
  apply (cloneAssignment_spec h K) in Ea as (Hg2 & He2 & Hin2 & Hc2); [|done..].
  pose proof (new_assignments_extends _ _ _ _ Hn1 He2) as Hn2. pose proof (new_assignments_elements _ _ _ _ Hg1 Hn1) as Hin1.
  apply (append_new_assignment h K) in Ep as (Hg3 & Hk3 & Hn3 & Hc3); [|done..].
  assert (extends h h3) as He3 by apply Hg3.
  assert (plain h3 <$> contents h3 candidate = erase_assignment <$> manager_assignments value ++ [read_assignment h a]) as Hcand.
  { rewrite Hc3, fmap_app. f_equal.
    - rewrite (contents_extends h1 h2 clone), (keeps_plains h1 h2 (since h h1) K), Hc1;
        auto using keeps_extends, since_dom. by eapply slice_in_since, new_assignments_in.
    - simpl. f_equal. rewrite Hc2. apply (keeps_plain h h1); [by apply keeps_extends|by eapply slice_in_mono]. }
  pose proof (read_manager_extends h h3 P K m Hp Hm He3) as Hread.
  assert (represents (mkSystem h3 K m) (P ∪ since h h3) value) as Hrep3.
  { eapply represents_private; [done|done| |]; [eapply manager_in_mono; [|done]; set_solver|].
    rewrite Hread. apply Hrep. }
  pose proof (represents_fields _ _ _ _ _ Hrep3) as (F1 & F2 & F3 & F4 & F5).
  pose proof (New_in_value h3 _ _ candidate _ value _ F1 F2 F4 Hcand) as Hnew. apply erase_result_same in Hnew.
  unfold Manager_Assign. rewrite cloneAssignments_id, cloneAssignment_id.
  destruct (New_in _ _ _ _ _) as [ev|e], (New _ _ _ _) as [ev'|e']; try done; simplify_eq.
  - eexists. split; [done|]. destruct Hm as (? & ? & ? & ?). eapply represents_private; [done|done| |].
    + split_and!; simpl; try (eapply slice_in_mono; [|done]; set_solver).
      eapply slice_in_mono; [|by apply new_assignments_in]. set_solver.
    + unfold erase_manager, read_manager, read_assignments. simpl. rewrite F1, F2, F4, F5. f_equal.
      rewrite <- Hcand, <- list_fmap_compose. done.
  - by eexists.
Qed.

Lemma find_ref_plain id h index asgs : find_ref id index asgs = find_assignment id index (plain h <$> asgs).
Proof. revert index. induction asgs as [|a asgs IH]; intros index; csimpl; [done|]. by rewrite IH. Qed.

Lemma find_assignment_erase id index asgs : find_assignment id index (erase_assignment <$> asgs) = find_assignment id index asgs.
Proof. revert index. induction asgs as [|a asgs IH]; intros index; csimpl; [done|]. by rewrite IH. Qed.

(** The array of the manager is overwritten, so nobody else may have it. *)
Lemma region_overwrite h l xs ys P A A' :
  region h P A → h !! l = Some (Assignments xs) → (l ∈ P → Forall (assignment_in P A) xs → Forall (assignment_in P A) ys) →
  A ⊆ A' → region (<[l := Assignments ys]> h) P A'.
Proof.
  intros Hr Hl Hys HA l' Hl'. destruct (Hr l' Hl') as (b & Hb & Hin). destruct (decide (l = l')) as [<-|Hne].
  - exists (Assignments ys). split; [apply lookup_insert_eq|]. rewrite Hl in Hb. injection Hb as <-. simpl in *.
    eapply Forall_impl; [by apply Hys|]. intros a. by apply assignment_in_mono.
  - exists b. split; [by rewrite lookup_insert_ne|]. by eapply block_in_mono.
Qed.

Lemma overwrite_represents h K m P value l xs ys asgs :
  represents (mkSystem h K m) P value → s_base (mr_assignments m) = Some l → h !! l = Some (Assignments xs) → ys ⊆ xs →
  s_base asgs = Some l →
  let m' := set_assignments m asgs in let h' := <[l := Assignments ys]> h in
  Forall (assignment_in P K) (contents h' asgs) →
  represents (mkSystem h' K m') P
    (mkManager (manager_roles value) (manager_permissions value) (plain h <$> contents h' asgs) (manager_options value)
       (uint64_add (manager_revision value) 1)).
Proof.
  intros Hrep El Hl Hsub Eb m' h' Hin. pose proof (represents_fields _ _ _ _ _ Hrep) as (E1 & E2 & _ & E4 & E5).
  destruct Hrep as [Hp Hk (H1 & H2 & H3 & H4) Hd _]. simpl in *. pose proof (region_dom _ _ _ Hp) as HP.
  assert (keeps h h') as Hkeep by (by eapply keeps_overwrite). assert (l ∈ P) as HlP by (by apply H3).
  split; simpl.
  - eapply region_overwrite; [done|done| |done]. intros _ Hxs. rewrite Forall_forall in Hxs |- *. auto.
  - eapply region_overwrite; [done|done| |done]. intros HlK. set_solver.
  - split_and!; simpl; [done..| |done]. intros l' E. rewrite Eb in E. by injection E as <-.
  - done.
  - assert (∀ s, slice_in P s → slice_in (dom h) s) as Hdom by (intros s; by apply slice_in_mono).
    unfold erase_manager, read_manager, read_roles, read_permissions, read_options, read_assignments. simpl.
    rewrite (keeps_contents (E := role_ref) h h'), (keeps_contents (E := Permission) h h'), (keeps_contents (E := Option) h h')
      by auto. rewrite (keeps_roles h h' P); [|done|done|by eapply region_roles].
    unfold read_roles, read_permissions, read_options in *. rewrite E1, E2, E4, E5. f_equal.
    etrans; [symmetry; apply list_fmap_compose|]. change (erase_assignment ∘ read_assignment h') with (plain h').
    rewrite (keeps_plains h h' P K) by done. rewrite <- list_fmap_compose. by apply list_fmap_ext.
Qed.

Lemma revoke_simulated h K m P value id found m' h' :
  represents (mkSystem h K m) P value → RevokeAssignment m id h = (found, m', h') →
  ∃ value', Manager_RevokeAssignment value id = (found, value') ∧ represents (mkSystem h' K m') P value'.
Proof.
  intros Hrep E. pose proof (represents_fields _ _ _ _ _ Hrep) as (_ & _ & E3 & _ & _).
  pose proof Hrep as [Hp _ (_ & _ & Hs & _) _ _]. simpl in Hp, Hs. unfold RevokeAssignment in E. unfold Manager_RevokeAssignment.
  rewrite (find_ref_plain id h), E3, find_assignment_erase in E.
  destruct (find_assignment id 0 (manager_assignments value)) as [i|] eqn:Ef; [|simplify_eq; by eexists].
  destruct (append _ _ h) as [asgs h1] eqn:Ea. simplify_eq. eexists. split; [done|].
  set (xs := contents (E := assignment_ref) h (mr_assignments m)) in *.
  assert (i < length xs)%nat as Hi.
  { apply find_assignment_Some in Ef as (l1 & a & l2 & El & -> & _). rewrite <- (length_fmap (plain h) xs), E3, length_fmap, El, length_app.
    simpl. lia. }
  apply delete_in_place in Ea as (Hb & Hc & Hh); [|done]. fold xs in Hc.
  assert (Forall (assignment_in P K) xs) as Hxs by (by eapply region_assignments).
  assert (∃ l arr, s_base (mr_assignments m) = Some l ∧ h !! l = Some (Assignments arr) ∧ array_at h (mr_assignments m) = arr)
    as (l & arr & El & Hl & Harr).
  { destruct xs as [|x xs'] eqn:Ex; [simpl in Hi; lia|]. assert (x ∈ contents h (mr_assignments m)) as Hx by (fold xs; rewrite Ex; left).
    apply contents_at in Hx as (l & b & ys & El & Hbl & Ey & _). destruct b; try discriminate. exists l, l0.
    unfold array_at. rewrite El. simpl. rewrite Hbl. done. }
  assert (∃ ys, ys ⊆ arr ∧ h' = <[l := Assignments ys]> h) as (ys & Hsub & Eh).
  { destruct Hh as [-> | (l' & ys & El' & -> & Hsub)]; [exists arr; split; [done|by rewrite insert_id]|].
    rewrite El in El'. injection El' as <-. exists ys. split; [by rewrite <- Harr|done]. }
  assert (Forall (assignment_in P K) (contents h' asgs)) as Hin.
  { rewrite Hc. apply Forall_app. split; [by apply Forall_take|by apply Forall_drop]. }
  subst h'. pose proof (overwrite_represents _ _ _ _ _ l arr ys asgs Hrep El Hl Hsub ltac:(by rewrite Hb) Hin) as [G1 G2 G3 G4 G5].
  split; [done..|]. rewrite G5. unfold erase_manager. simpl. f_equal. rewrite Hc, !fmap_app, !fmap_take, !fmap_drop.
  rewrite E3, <- !list_fmap_compose. done.
Qed.

Lemma list_simulated h0 K P subject tenant asgs : ∀ acc h s h',
  list_assignments subject tenant acc asgs h = (s, h') →
  grown h0 K h → new_assignments h0 h acc → P ⊆ dom h0 → Forall (assignment_in P K) asgs →
  grown h0 K h' ∧ new_assignments h0 h' s ∧
  plain h' <$> contents h' s = (plain h <$> contents h acc) ++
    omap (λ a, if bool_decide (Subject_Kind (Assignment_Subject a) = sr_kind subject) &&
                  bool_decide (Subject_ID (Assignment_Subject a) = sr_id subject) && bool_decide (Assignment_Tenant a = tenant)
               then Some a else None) (plain h0 <$> asgs).
Proof.
  induction asgs as [|a asgs IH]; intros acc h s h' E Hg Hn HP Hin; simpl in E.
  { simplify_eq. rewrite app_nil_r. done. }
  apply Forall_cons in Hin as [Ha Hin]. csimpl. destruct (_ && _) eqn:Em; [|by apply IH in E].
  destruct (cloneAssignment a h) as [a1 h1] eqn:E1. destruct (append acc [a1] h1) as [acc1 h2] eqn:E2.
  pose proof (new_assignments_elements _ _ _ _ Hg Hn) as Hels.
  apply (cloneAssignment_spec h0 K) in E1 as (Hg1 & He1 & Hin1 & Hc1); [|done|apply Ha].
  apply (append_new_assignment h0 K) in E2 as (Hg2 & _ & Hn2 & Hc2); [|done|by eapply new_assignments_extends|done].
  apply IH in E as (Hg3 & Hn3 & ->); [|done..]. split_and!; [done..|]. rewrite Hc2, <- app_assoc. f_equal.
  - rewrite (contents_extends h h1 acc); [|done|by eapply slice_in_since, new_assignments_in].
    apply (keeps_plains h h1 (since h0 h) K); [by apply keeps_extends|apply since_dom|done].
  - simpl. f_equal. rewrite Hc1. apply (keeps_plain h0 h); [apply keeps_extends, Hg|]. eapply slice_in_mono; [exact HP|apply Ha].
Qed.

Lemma listing_simulated h K m P value subject tenant s h' :
  represents (mkSystem h K m) P value → Manager_Assignments_in m subject tenant h = (s, h') →
  plain h' <$> contents h' s = erase_assignment <$> Manager_Assignments value (read_subject h subject) tenant ∧
  represents (mkSystem h' (K ∪ since h h') m) P value.
Proof.
  intros Hrep E. pose proof (represents_fields _ _ _ _ _ Hrep) as (_ & _ & E3 & _ & _).
  pose proof Hrep as [Hp _ (_ & _ & Hs & _) _ _]. simpl in Hp, Hs. pose proof (region_dom _ _ _ Hp) as HP.
  unfold Manager_Assignments_in in E. destruct (new_slice 0 [] h) as [acc h1] eqn:En.
  apply (new_slice_assignments h K) in En as (Hg1 & He1 & Hn1 & Hc1); [|apply grown_refl|constructor].
  assert (slice_in (dom h) (mr_assignments m)) as Hdom by (by eapply slice_in_mono).
  apply (list_simulated h K P) in E as (Hg2 & _ & ->); [|done|done|done|]; cycle 1.
  { rewrite (contents_extends h h1) by done. by eapply region_assignments. }
  split; [|by apply represents_returned]. rewrite Hc1, (contents_extends h h1), E3 by done. simpl. unfold Manager_Assignments. clear.
  induction (manager_assignments value) as [|a asgs IH]; csimpl; [done|]. destruct (_ && _); csimpl; rewrite IH; [|done].
  by rewrite cloneAssignment_id.
Qed.

(** A copied array of values without references. *)
Lemma append_flat {E} `{ArrayOf block E} h0 A h xs s h' :
  (∀ P xs, block_in P A (array xs)) → append nil_slice xs h = (s, h') → grown h0 A h →
  grown h0 A h' ∧ extends h h' ∧ slice_in (since h0 h') s ∧ contents h' s = xs.
Proof.
  intros Hflat (Hc & He & Hs & Hh)%append_nil_spec Hg. split_and!; [|done| |done].
  - destruct Hh as [-> | (l & cells & Hn & ->)]; [done|]. by apply grown_insert.
  - eapply slice_in_mono; [|done]. apply since_extends, Hg.
Qed.

Lemma cloneRoles_spec h0 A h s s' h' :
  cloneRoles s h = (s', h') → grown h0 A h → Forall (λ r, slice_in (dom h) (rr_parents r)) (contents h s) →
  grown h0 A h' ∧ extends h h' ∧ slice_in (since h0 h') s' ∧ read_roles h' s' = read_roles h s.
Proof.
  unfold cloneRoles. destruct (clone_roles _ h) as [clone h1] eqn:E1. intros E2 Hg Hin.
  apply (clone_roles_spec h0 A) in E1 as (Hg1 & He1 & Hin1 & Hc1); [|done..].
  apply new_slice_spec in E2 as (l & Hn & -> & He2 & -> & Hc2 & Hs2). split_and!; [|by etrans| |].
  - apply grown_insert; [done..|]. simpl. rewrite app_nil_r. eapply Forall_impl; [exact Hin1|]. intros r.
    apply slice_in_mono, since_mono. by apply insert_subseteq.
  - eapply slice_in_mono; [|done]. apply since_extends, Hg1.
  - unfold read_roles. rewrite Hc2, <- Hc1. apply (keeps_roles _ _ (since h0 h1)); [by apply keeps_extends|apply since_dom|done].
Qed.

Lemma new_simulated h K rs ps asgs options r h' :
  region h K K → slice_in K rs → slice_in K ps → slice_in K asgs → slice_in K options →
  NewManager rs ps asgs options h = (r, h') →
  match RBACManager.NewManager (read_roles h rs) (read_permissions h ps) (read_assignments h asgs) (read_options h options) with
  | Err err => r = Err err ∧ h' = h
  | Ok value => ∃ m, r = Ok m ∧ represents (mkSystem h' K m) (since h h') value
  end.
Proof.
  intros Hk H1 H2 H3 H4 E. unfold NewManager, New_in in E. unfold RBACManager.NewManager.
  destruct (New _ _ _ _) as [ev|err]; simpl; [|by simplify_eq]. pose proof (region_dom _ _ _ Hk) as HK.
  assert (∀ s, slice_in K s → slice_in (dom h) s) as Hdom by (intros s; by apply slice_in_mono).
  assert (∀ h' s, extends h h' → slice_in K s → slice_in (dom h') s) as Hdom'.
  { intros h2 s He Hs. eapply slice_in_mono; [by apply extends_dom|auto]. }
  destruct (cloneRoles rs h) as [rs1 h1] eqn:E1. destruct (append nil_slice (read_permissions h1 ps) h1) as [ps1 h2] eqn:E2.
  destruct (cloneAssignments asgs h2) as [asgs1 h3] eqn:E3.
  destruct (append nil_slice (read_options h3 options) h3) as [options1 h4] eqn:E4. injection E as <- <-.
  apply (cloneRoles_spec h K) in E1 as (Hg1 & He1 & Hs1 & Hc1); [|apply grown_refl|].
  2: { eapply Forall_impl; [by eapply region_roles|]. intros r. apply Hdom. }
  apply (append_flat h K) in E2 as (Hg2 & He2 & Hs2 & Hc2); [|done..].
  apply (cloneAssignments_spec h K _ K) in E3 as (Hg3 & He3 & Hn3 & Hc3); [|done|etrans; [done|apply extends_dom, Hg2]|].
  2: { rewrite (contents_extends h h2); [by eapply region_assignments|apply Hg2|auto]. }
  apply (append_flat h K) in E4 as (Hg4 & He4 & Hs4 & Hc4); [|done..].
  exists (mkManagerRef rs1 ps1 asgs1 options1 1). split; [done|].
  assert (region h4 (since h h4) K) as Hp.
  { pose proof (region_grown h ∅ K h4 ltac:(by intros l ?%elem_of_empty) Hg4) as Hr. by rewrite union_empty_l_L in Hr. }
  pose proof (new_assignments_in _ _ _ Hn3) as Hs3. pose proof (new_assignments_elements _ _ _ _ Hg3 Hn3) as Hin3.
  assert (extends h2 h4) as He24 by (by transitivity h3). assert (extends h1 h4) as He14 by (by transitivity h2).
  split; simpl; [done|eapply region_extends; [done|apply Hg4|done]| |unfold since; set_solver|].
  - split_and!; simpl; [..|done]; (eapply slice_in_mono; [|eassumption]; by apply since_mono).
  - unfold erase_manager, read_manager. simpl. f_equal.
    + rewrite RBACManager.cloneRoles_id, <- Hc1. unfold read_roles.
      rewrite (contents_extends h1 h4) by eauto using slice_in_since.
      apply (keeps_roles _ _ (dom h1)); [by apply keeps_extends|done|]. apply Forall_forall. intros r Hr.
      apply contents_at in Hr as (l & b & xs & El & Hb & Ex & Hx). destruct b; try discriminate. injection Ex as ->.
      pose proof (Hs1 l El) as [_ Hn]%elem_of_since. pose proof (proj2 Hg1 l _ Hn Hb) as Hf. simpl in Hf.
      rewrite Forall_forall in Hf. eapply slice_in_since. by apply Hf.
    + unfold read_permissions in *. rewrite (contents_extends h2 h4) by eauto using slice_in_since.
      rewrite Hc2. apply contents_extends; [apply Hg1|auto].
    + rewrite RBACManager.cloneAssignments_id. unfold read_assignments. rewrite <- !list_fmap_compose.
      change (erase_assignment ∘ read_assignment ?h) with (plain h).
      rewrite (contents_extends h3 h4) by eauto using slice_in_since.
      rewrite (keeps_plains h3 h4 (since h h3) K) by (done || apply since_dom || by apply keeps_extends). rewrite Hc3.
      rewrite (contents_extends h h2) by (apply Hg2 || auto).
      apply (keeps_plains h h2 K K); [apply keeps_extends, Hg2|done|by eapply region_assignments].
    + unfold read_options in *. rewrite Hc4. apply contents_extends; [apply Hg3|auto].
Qed.

Lemma step_simulated sys e sys' P value :
  represents sys P value → step sys e sys' → ∃ P' value', value_step value e value' ∧ represents sys' P' value'.
Proof.
  intros Hrep Hstep. destruct Hstep as [h K m h' K' (Hf & HK & Hnew & Hr)|h K m a err m' h' Ha E|h K m id found m' h' E
    |h K m subject tenant s h' E|h K m|h K m].
  - exists P, value. split; [constructor|]. destruct Hrep as [Hp Hk Hm Hd Hv]. simpl in *.
    assert (∀ l b, l ∈ P → h !! l = Some b → h' !! l = Some b) as Hkeep.
    { intros l b Hl. apply Hf. set_solver. }
    split; simpl; [|done|done| |].
    + intros l Hl. destruct (Hp l Hl) as (b & Hb & Hin). exists b. split; [by apply Hkeep|]. by eapply block_in_mono.
    + intros l Hl Hl'. apply (Hd l); [done|]. apply Hnew; [done|]. by apply (region_dom h P K Hp).
    + rewrite <- Hv. by apply (read_manager_frame h h' P K).
  - destruct (assign_simulated _ _ _ _ _ _ _ _ _ Hrep Ha E) as (value' & Ev & Hrep'). eexists _, value'. split; [by constructor|done].
  - destruct (revoke_simulated _ _ _ _ _ _ _ _ _ Hrep E) as (value' & Ev & Hrep'). eexists _, value'. split; [by constructor|done].
  - destruct (listing_simulated _ _ _ _ _ _ _ _ _ Hrep E) as [-> Hrep']. exists P, value. split; [constructor|done].
  - exists P, value. split; [|done]. pose proof (represents_fields _ _ _ _ _ Hrep) as (E1 & E2 & E3 & E4 & _).
    unfold Evaluator_in. rewrite (New_in_value h _ _ _ _ value _ E1 E2 E4 E3). constructor.
  - exists P, value. split; [|done]. pose proof (represents_fields _ _ _ _ _ Hrep) as (_ & _ & _ & _ & ->). constructor.
Qed.

Lemma trace_simulated sys es sys' P value :
  represents sys P value → trace step sys es sys' →
  ∃ P' value', trace value_step value es value' ∧ represents sys' P' value'.
Proof.
  intros Hrep Ht. revert P value Hrep. induction Ht as [sys|sys e sys1 es sys2 Hstep _ IH]; intros P value Hrep.
  { exists P, value. split; [constructor|done]. }
  destruct (step_simulated _ _ _ _ _ Hrep Hstep) as (P1 & value1 & Hv & Hrep1).
  destruct (IH _ _ Hrep1) as (P2 & value2 & Ht & Hrep2). exists P2, value2. split; [|done]. by econstructor.
Qed.

End simulation.

(** ** Theorem *)

(** C14. The manager is isolated from its clients' memory. A manager is built
    from slices of the clients, in a memory they share, and is used while the
    clients write to everything they can reach: the arrays they passed, the
    arrays they were given by [Assignments], and what they allocate. Whatever
    happens, its answers are those of the manager as a value: the calls with
    their results form a run of the operations of [RBACManager] from
    [NewManager], up to the attribute maps of subjects, which are shared; and
    evaluators that differ only there decide alike. When [NewManager] fails
    it fails like its value, and nothing has changed. *)
Theorem manager_isolated `{GoRuntime, Growth} (h : heap) (K : gset loc) (rs ps asgs options : slice) :
  region h K K → slice_in K rs → slice_in K ps → slice_in K asgs → slice_in K options →
  match RBACManager.NewManager (read_roles h rs) (read_permissions h ps) (read_assignments h asgs) (read_options h options) with
  | Err err => NewManager rs ps asgs options h = (Err err, h)
  | Ok value => ∃ m h1, NewManager rs ps asgs options h = (Ok m, h1) ∧
      ∀ es sys, trace step (mkSystem h1 K m) es sys →
        ∃ value', trace value_step value es value' ∧
          erase_manager (read_manager (sys_heap sys) (sys_manager sys)) = erase_manager value'
  end ∧
  ∀ ev ev' ctx request n, erase_evaluator ev = erase_evaluator ev' → Evaluate ev ctx request n = Evaluate ev' ctx request n.
Proof.
  intros Hk H1 H2 H3 H4. split.
  - destruct (NewManager rs ps asgs options h) as [r h1] eqn:E.
    pose proof (new_simulated h K _ _ _ _ _ _ Hk H1 H2 H3 H4 E) as Hnew. destruct (RBACManager.NewManager _ _ _ _) as [value|err].
    + destruct Hnew as (m & -> & Hrep). exists m, h1. split; [done|]. intros es sys Ht.
      destruct (trace_simulated _ _ _ _ _ Hrep Ht) as (P & value' & Hv & [_ _ _ _ Hread]). by exists value'.
    + by destruct Hnew as [-> ->].
  - intros ev ev' ctx request n E. by rewrite <- (Evaluate_erase ev), <- (Evaluate_erase ev'), E.
Qed.

(** A client that empties the arrays it passed does not take the assignment
    away, and revoking it then works. *)
Definition example_known : gset loc := {[1; 2; 3; 4]}%positive.

Definition example_heap : heap :=
  {[1 := Roles [mkRoleRef "reader" "" nil_slice];
    2 := Permissions [mkPermission "read" "reader" "" "document.read" "document" "" Allow 0];
    3 := Strings ["staff"];
    4 := Assignments [mkAssignmentRef "a1" (mkSubjectRef "user" "alice" (mkSlice (Some 3) 0 1) None) "reader" ""]]}%positive.

Definition first_of (l : loc) : slice := mkSlice (Some l) 0 1.

Definition doubling : Growth := λ n, n.

Definition example_run : result manager_ref * heap :=
  Eval vm_compute in @NewManager plain_runtime doubling (first_of 1%positive) (first_of 2%positive) (first_of 4%positive) nil_slice example_heap.

Definition example_manager_ref : manager_ref := match example_run.1 with Ok m => m | Err _ => mkManagerRef nil_slice nil_slice nil_slice nil_slice 0 end.

Definition emptied : heap := <[3%positive := Strings []]> (<[4%positive := Assignments []]> example_run.2).

Lemma example_writes : client_writes example_run.2 example_known emptied example_known.
Proof.
  split_and!; [|done|done|].
  - intros l b Hl. unfold emptied, example_known in *. rewrite !lookup_insert_ne by set_solver. done.
  - intros l Hl. unfold example_known in Hl. rewrite !elem_of_union, !elem_of_singleton in Hl.
    destruct_or! Hl; subst; eexists; (split; [vm_compute; reflexivity|]); repeat constructor; by intros ? [= <-].
Qed.

Lemma example_region : region example_heap example_known example_known.
Proof.
  intros l Hl. unfold example_known in Hl. rewrite !elem_of_union, !elem_of_singleton in Hl.
  destruct_or! Hl; subst; eexists; (split; [vm_compute; reflexivity|]); repeat constructor; intros ? [= <-]; set_solver.
Qed.

Definition example_value : Manager :=
  mkManager [mkRole "reader" "" []] [mkPermission "read" "reader" "" "document.read" "document" "" Allow 0]
    [mkAssignment "a1" (mkSubject "user" "alice" ["staff"] None) "reader" ""] [] 1.

Lemma example_new :
  @RBACManager.NewManager plain_runtime (read_roles example_heap (first_of 1%positive))
    (read_permissions example_heap (first_of 2%positive)) (read_assignments example_heap (first_of 4%positive))
    (read_options example_heap nil_slice) = Ok example_value.
Proof. vm_compute. reflexivity. Qed.

Lemma example_trace :
  ∃ sys, trace (@step plain_runtime doubling) (mkSystem example_run.2 example_known example_manager_ref)
    [Wrote; Revoked "a1" true; Counted 2; Revoked "a1" false] sys.
Proof.
  eexists. econstructor; [apply step_write, example_writes|]. econstructor; [apply step_revoke; vm_compute; reflexivity|].
  econstructor; [refine (step_revision _ _ _)|]. econstructor; [apply step_revoke; vm_compute; reflexivity|]. constructor.
Qed.

Lemma manager_isolated_witness :
  ∃ sys value', trace (@step plain_runtime doubling) (mkSystem example_run.2 example_known example_manager_ref)
      [Wrote; Revoked "a1" true; Counted 2; Revoked "a1" false] sys ∧
    trace (@value_step plain_runtime) example_value [Wrote; Revoked "a1" true; Counted 2; Revoked "a1" false] value'.
Proof.
  destruct (@manager_isolated plain_runtime doubling example_heap example_known (first_of 1%positive) (first_of 2%positive) (first_of 4%positive) nil_slice
    example_region ltac:(by intros l [= <-]) ltac:(by intros l [= <-]) ltac:(by intros l [= <-]) ltac:(done)) as [Hrun _].
  rewrite example_new in Hrun. destruct Hrun as (m & h1 & Enew & Hrun). assert (example_run = (Ok m, h1)) as Em.
  { rewrite <- Enew. vm_compute. reflexivity. }
  destruct example_trace as [sys Ht]. exists sys.
  destruct (Hrun [Wrote; Revoked "a1" true; Counted 2; Revoked "a1" false] sys) as (value' & Hv & _).
  { unfold example_manager_ref in Ht. rewrite Em in Ht. exact Ht. }
  exists value'. exact (conj Ht Hv).
Defined.

End manager_memory.
