(* ===== verification/Conditions.v ===== *)
(** * ABAC conditions (abac/conditions.go, abac/abac.go)

    Conditions are trees whose children can be the nil interface ([None]).
    Evaluation runs in a state with one cost counter: every node visited
    observes the context and consumes one unit. Calling a method of a nil
    condition, and reading the first candidate of an empty [In], panic.
    [leaf_meaning] and [truth] say what conditions mean on the facts of a
    request, apart from how they are evaluated. *)

From Stdlib Require Import SpecFloat.
From S2P Require Import Prelude GoStrings NetIP Attribute Request Decision.

#[local] Open Scope Z_scope.

(** ** Data *)

Definition ErrInvalidCondition := errors_New "invalid ABAC condition".
Definition ErrCostExceeded := errors_New "ABAC evaluation cost exceeded".
Definition ErrDepthExceeded := errors_New "ABAC condition depth exceeded".
Definition ErrSetLimitExceeded := errors_New "ABAC set limit exceeded".

(** [Source] is a [uint8]; the last constructor stands for the values above
    [Environment]. *)
Inductive Source :=
| SourceSubject
| SourceResource
| SourceRequest
| SourceEnvironment
| SourceOther (code : N).

Definition source_code (s : Source) : N :=
  match s with
  | SourceSubject => 0 | SourceResource => 1 | SourceRequest => 2 | SourceEnvironment => 3
  | SourceOther c => 4 + c
  end.

Record Reference := mkReference {
  Reference_Source : Source;
  Reference_Name : AttributeName
}.

Inductive Status :=
| StatusNoMatch
| StatusMatch
| StatusMissing
| StatusNull
| StatusTypeMismatch.

#[global] Instance Status_eq_dec : EqDecision Status.
Proof. solve_decision. Defined.

Record Result := mkResult {
  Result_Matched : bool;
  Result_Status : Status;
  Result_Cost : Z
}.

Inductive comparison_operator := compareGreater | compareLess.

Inductive stringOperator := stringPrefix | stringSuffix | stringContains.

#[warnings="-register-all"]
Inductive Condition :=
| existsCondition (reference : Reference)
| nullCondition (reference : Reference)
| anyCondition (conditions : list (option Condition))
| notCondition (condition : option Condition)
| comparisonCondition (reference : Reference) (want : Value) (operator : comparison_operator)
| inCondition (reference : Reference) (values : list Value)
| setContainsCondition (reference : Reference) (value : string)
| stringCondition (reference : Reference) (value : string) (operator : stringOperator)
| ipCondition (reference : Reference) (prefix : Prefix)
| equalCondition (reference : Reference) (want : Value)
| allCondition (conditions : list (option Condition)).

(** ** Constructors *)

Definition Exists_ (reference : Reference) : Condition := existsCondition reference.
Definition IsNull (reference : Reference) : Condition := nullCondition reference.
Definition Any_ (conditions : list (option Condition)) : Condition := anyCondition ([] ++ conditions).
Definition Not_ (condition : option Condition) : Condition := notCondition condition.
Definition GreaterThan (reference : Reference) (want : Value) : Condition :=
  comparisonCondition reference want compareGreater.
Definition LessThan (reference : Reference) (want : Value) : Condition :=
  comparisonCondition reference want compareLess.
Definition In_ (reference : Reference) (values : list Value) : Condition :=
  inCondition reference ([] ++ values).
Definition SetContains (reference : Reference) (value : string) : Condition :=
  setContainsCondition reference value.
Definition HasPrefix (reference : Reference) (value : string) : Condition :=
  stringCondition reference value stringPrefix.
Definition HasSuffix (reference : Reference) (value : string) : Condition :=
  stringCondition reference value stringSuffix.
Definition StringContains (reference : Reference) (value : string) : Condition :=
  stringCondition reference value stringContains.
Definition IPIn (reference : Reference) (prefix : Prefix) : Condition :=
  ipCondition reference (prefix_Masked prefix).
Definition Equal (reference : Reference) (want : Value) : Condition := equalCondition reference want.
Definition All_ (conditions : list (option Condition)) : Condition := allCondition ([] ++ conditions).

(** ** The evaluation state *)

(** The fields of [evaluationState] that do not change; the cost is threaded. *)
Record evaluationState := mkEvaluationState {
  state_ctx : Context;
  state_request : Request;
  state_maxCost : Z;
  state_maxSetSize : Z
}.

(** A computation that reads and updates the cost. *)
Definition Eval (A : Type) : Type := Z → M (A * Z).

#[global] Instance Eval_ret : MRet Eval := λ A a cost, mret (a, cost).
#[global] Instance Eval_bind : MBind Eval := λ A B f m cost, '(a, cost) ← m cost; f a cost.

Definition panic {A} : Eval A := λ _ n, (Panic, n).

Definition consume (state : evaluationState) : Eval (option error) := λ cost,
  err ← ctx_Err (state_ctx state);
  match err with
  | Some err => mret (Some err, cost)
  | None => if state_maxCost state <=? cost then mret (Some ErrCostExceeded, cost)
            else mret (None, cost + 1)
  end.

Definition source_attributes (request : Request) (source : Source) : Attributes :=
  match source with
  | SourceSubject => Subject_Attributes (Request_Subject request)
  | SourceResource => Resource_Attributes (Request_Resource request)
  | SourceRequest => Request_Attributes request
  | SourceEnvironment => Environment_Attributes (Request_Environment request)
  | SourceOther _ => None
  end.

(** The value, the zero value when the attribute does not exist. *)
Definition state_attribute (request : Request) (reference : Reference) : Value * bool :=
  match attributes_lookup (source_attributes request (Reference_Source reference)) (Reference_Name reference) with
  | Some value => (value, true)
  | None => (zeroValue, false)
  end.

Definition validateValue (state : evaluationState) (value : Value) : option error :=
  let '(length, collection) := Value_CollectionLength value in
  if collection && (state_maxSetSize state <? length) then Some ErrSetLimitExceeded else None.

Definition isMissingValue (value : Value) (exists_ : bool) : bool :=
  if negb exists_ then true else bool_decide (Value_Kind value = ValueMissing).

(** ** Evaluation *)

Definition zeroResult : Result := mkResult false StatusNoMatch 0.
Definition status_result (status : Status) : Result := mkResult false status 0.
Definition matchResult : Result := mkResult true StatusMatch 0.

(** [if matched { match } else { no match }]. *)
Definition decided (matched : bool) : Result := if matched then matchResult else status_result StatusNoMatch.

Definition loadValue (state : evaluationState) (reference : Reference) :
    Eval (Value * Status * option error) :=
  err ← consume state;
  match err with
  | Some err => mret (zeroValue, StatusNoMatch, Some err)
  | None =>
      let '(value, exists_) := state_attribute (state_request state) reference in
      if isMissingValue value exists_ then mret (zeroValue, StatusMissing, None)
      else match validateValue state value with
      | Some err => mret (zeroValue, StatusNoMatch, Some err)
      | None =>
          if bool_decide (Value_Kind value = ValueNull) then mret (zeroValue, StatusNull, None)
          else mret (value, StatusMatch, None)
      end
  end.

(** The prologue shared by the operators that load a value: an error or a
    status other than match returns at once. *)
Definition with_value (state : evaluationState) (reference : Reference)
    (test : Value → Eval (Result * option error)) : Eval (Result * option error) :=
  '(got, status, err) ← loadValue state reference;
  match err with
  | Some err => mret (status_result status, Some err)
  | None => if negb (bool_decide (status = StatusMatch)) then mret (status_result status, None) else test got
  end.

(** The prologue shared by the operators that consume first. *)
Definition with_consume (state : evaluationState) (body : Eval (Result * option error)) :
    Eval (Result * option error) :=
  err ← consume state;
  match err with
  | Some err => mret (zeroResult, Some err)
  | None => body
  end.

Definition exists_body (request : Request) (reference : Reference) : Result :=
  let '(value, exists_) := state_attribute request reference in
  if negb exists_ then status_result StatusNoMatch
  else if bool_decide (Value_Kind value = ValueMissing) then status_result StatusNoMatch
  else matchResult.

Definition null_body (request : Request) (reference : Reference) : Result :=
  let '(value, exists_) := state_attribute request reference in
  if exists_ && bool_decide (Value_Kind value = ValueNull) then matchResult
  else status_result StatusNoMatch.

Definition comparison_test (want : Value) (operator : comparison_operator) (got : Value) : Result :=
  if negb (bool_decide (Value_Kind got = Value_Kind want)) then status_result StatusTypeMismatch
  else
    let '(comparisonResult, _) := Value_Compare got want in
    decided match operator with
            | compareGreater => 0 <? comparisonResult
            | compareLess => comparisonResult <? 0
            end.

Definition in_test (values : list Value) (got : Value) : Eval (Result * option error) :=
  match values with
  | [] => panic
  | first :: _ =>
      if negb (bool_decide (Value_Kind got = Value_Kind first))
      then mret (status_result StatusTypeMismatch, None)
      else mret (decided (existsb (λ candidate, Value_Equal got candidate) values), None)
  end.

(** [index < len(set) && set[index] == value]. *)
Definition set_test (value : string) (got : Value) : Result :=
  let '(set, ok) := Value_StringSet got in
  if negb ok then status_result StatusTypeMismatch
  else decided match sort_SearchStrings set value with
               | Some index => bool_decide (set !! index = Some value)
               | None => false
               end.

Definition string_test (value : string) (operator : stringOperator) (got : Value) : Result :=
  let '(s, ok) := Value_String got in
  if negb ok then status_result StatusTypeMismatch
  else decided match operator with
               | stringPrefix => strings_HasPrefix s value
               | stringSuffix => strings_HasSuffix s value
               | stringContains => strings_Contains s value
               end.

Definition ip_test (prefix : Prefix) (got : Value) : Result :=
  let '(ip, ok) := Value_IP got in
  if negb ok then status_result StatusTypeMismatch else decided (prefix_Contains prefix ip).

Definition equal_body (state : evaluationState) (reference : Reference) (want : Value) :
    Result * option error :=
  let '(got, exists_) := state_attribute (state_request state) reference in
  if isMissingValue got exists_ then (status_result StatusMissing, None)
  else match validateValue state got with
  | Some err => (zeroResult, Some err)
  | None =>
      if bool_decide (Value_Kind got = ValueNull) then
        if bool_decide (Value_Kind want = ValueNull) then (matchResult, None) else (status_result StatusNull, None)
      else if negb (bool_decide (Value_Kind got = Value_Kind want)) then (status_result StatusTypeMismatch, None)
      else if Value_Equal got want then (matchResult, None)
      else (status_result StatusNoMatch, None)
  end.

(** The negation of a result; statuses other than match and no match stay. *)
Definition negate (result : Result) : Result :=
  if negb (bool_decide (Result_Status result = StatusMatch)) && negb (bool_decide (Result_Status result = StatusNoMatch))
  then result
  else
    let matched := negb (Result_Matched result) in
    mkResult matched (if matched then StatusMatch else StatusNoMatch) (Result_Cost result).

Section loops.
Context (evaluate : Condition → Eval (Result * option error)).

(** [child.evaluate(state)]: a nil child panics. *)
Definition evaluate_child (child : option Condition) : Eval (Result * option error) :=
  match child with Some condition => evaluate condition | None => panic end.

Fixpoint all_loop (children : list (option Condition)) : Eval (Result * option error) :=
  match children with
  | [] => mret (matchResult, None)
  | child :: children =>
      '(result, err) ← evaluate_child child;
      if bool_decide (is_Some err) || negb (Result_Matched result) then mret (result, err)
      else all_loop children
  end.

Fixpoint any_loop (status : Status) (children : list (option Condition)) : Eval (Result * option error) :=
  match children with
  | [] => mret (status_result status, None)
  | child :: children =>
      '(result, err) ← evaluate_child child;
      if bool_decide (is_Some err) || Result_Matched result then mret (result, err)
      else any_loop (if bool_decide (status = StatusNoMatch) then
                       if negb (bool_decide (Result_Status result = StatusNoMatch)) then Result_Status result else status
                     else status) children
  end.
End loops.

Fixpoint evaluate (state : evaluationState) (condition : Condition) {struct condition} : Eval (Result * option error) :=
  match condition with
  | existsCondition reference => with_consume state (mret (exists_body (state_request state) reference, None))
  | nullCondition reference => with_consume state (mret (null_body (state_request state) reference, None))
  | anyCondition conditions => with_consume state (any_loop (evaluate state) StatusNoMatch conditions)
  | notCondition condition =>
      with_consume state (
        '(result, err) ← evaluate_child (evaluate state) condition;
        match err with
        | Some err => mret (result, Some err)
        | None => mret (negate result, None)
        end)
  | comparisonCondition reference want operator =>
      with_value state reference (λ got, mret (comparison_test want operator got, None))
  | inCondition reference values => with_value state reference (in_test values)
  | setContainsCondition reference value => with_value state reference (λ got, mret (set_test value got, None))
  | stringCondition reference value operator =>
      with_value state reference (λ got, mret (string_test value operator got, None))
  | ipCondition reference prefix => with_value state reference (λ got, mret (ip_test prefix got, None))
  | equalCondition reference want => with_consume state (mret (equal_body state reference want))
  | allCondition conditions => with_consume state (all_loop (evaluate state) conditions)
  end.

(** ** Validation of one node *)

Definition validateReference (reference : Reference) : option error :=
  if (3 <? source_code (Reference_Source reference))%N || bool_decide (Reference_Name reference = "")
  then Some ErrInvalidCondition else None.

Definition validateChildren (children : list (option Condition)) : option error :=
  match children with
  | [] => Some ErrInvalidCondition
  | _ => if existsb (λ child, bool_decide (child = None)) children then Some ErrInvalidCondition else None
  end.

(** The candidates of an [In]: not empty, not null, of one kind. *)
Definition validateCandidates (values : list Value) : option error :=
  match values with
  | [] => Some ErrInvalidCondition
  | first :: _ =>
      if bool_decide (Value_Kind first = ValueMissing) || bool_decide (Value_Kind first = ValueNull)
      then Some ErrInvalidCondition
      else if existsb (λ value, negb (bool_decide (Value_Kind value = Value_Kind first))) values
      then Some ErrInvalidCondition else None
  end.

Definition comparison_validate (reference : Reference) (want : Value) : option error :=
  match validateReference reference with
  | Some err => Some err
  | None =>
      match Value_Kind want with
      | ValueString | ValueInt | ValueFloat | ValueTime => None
      | _ => Some ErrInvalidCondition
      end
  end.

Definition equal_validate (reference : Reference) (want : Value) : option error :=
  match validateReference reference with
  | Some err => Some err
  | None => if bool_decide (Value_Kind want = ValueMissing) then Some ErrInvalidCondition else None
  end.

(** [condition.validate()] of each condition type. *)
Definition validate (condition : Condition) : option error :=
  match condition with
  | existsCondition reference | nullCondition reference
  | setContainsCondition reference _ | stringCondition reference _ _ => validateReference reference
  | anyCondition conditions | allCondition conditions => validateChildren conditions
  | notCondition condition => match condition with None => Some ErrInvalidCondition | Some _ => None end
  | comparisonCondition reference want _ => comparison_validate reference want
  | inCondition reference values =>
      match validateReference reference with
      | Some _ => Some ErrInvalidCondition
      | None => validateCandidates values
      end
  | ipCondition reference prefix =>
      if negb (prefix_IsValid prefix) then Some ErrInvalidCondition else validateReference reference
  | equalCondition reference want => equal_validate reference want
  end.

(** ** Specification *)

Definition conditionChildren (condition : Condition) : list (option Condition) :=
  match condition with
  | allCondition conditions | anyCondition conditions => conditions
  | notCondition (Some condition) => [Some condition]
  | _ => []
  end.

Definition conditionLocalCardinality (condition : Condition) : Z :=
  match condition with
  | inCondition _ values => len values
  | equalCondition _ want => let '(values, ok) := Value_StringSet want in if ok then len values else 0
  | _ => 0
  end.

(** Every node passes its own validation and no child is nil. *)
Fixpoint cond_valid (c : Condition) : Prop :=
  validate c = None ∧
  match c with
  | allCondition cs | anyCondition cs =>
      foldr (λ child acc, match child with Some c => cond_valid c | None => False end ∧ acc) True cs
  | notCondition (Some c) => cond_valid c
  | _ => True
  end.

(** The number of nodes, the depth and the literal cardinality of a tree. *)
Fixpoint cond_size (c : Condition) : Z :=
  1 + match c with
      | allCondition cs | anyCondition cs =>
          foldr (λ child acc, match child with Some c => cond_size c | None => 0 end + acc) 0 cs
      | notCondition (Some c) => cond_size c
      | _ => 0
      end.

Fixpoint cond_depth (c : Condition) : Z :=
  1 + match c with
      | allCondition cs | anyCondition cs =>
          foldr (λ child acc, Z.max match child with Some c => cond_depth c | None => 0 end acc) 0 cs
      | notCondition (Some c) => cond_depth c
      | _ => 0
      end.

Fixpoint cond_cardinality (c : Condition) : Z :=
  conditionLocalCardinality c +
  match c with
  | allCondition cs | anyCondition cs =>
      foldr (λ child acc, match child with Some c => cond_cardinality c | None => 0 end + acc) 0 cs
  | notCondition (Some c) => cond_cardinality c
  | _ => 0
  end.

(** The status of loading a value and testing it. *)
Definition value_status (request : Request) (reference : Reference) (test : Value → Status) : Status :=
  let '(value, exists_) := state_attribute request reference in
  if isMissingValue value exists_ then StatusMissing
  else if bool_decide (Value_Kind value = ValueNull) then StatusNull
  else test value.

Definition in_status (values : list Value) (got : Value) : Status :=
  match values with
  | [] => StatusTypeMismatch
  | first :: _ =>
      if negb (bool_decide (Value_Kind got = Value_Kind first)) then StatusTypeMismatch
      else Result_Status (decided (existsb (λ candidate, Value_Equal got candidate) values))
  end.

Definition equal_status (request : Request) (reference : Reference) (want : Value) : Status :=
  let '(got, exists_) := state_attribute request reference in
  if isMissingValue got exists_ then StatusMissing
  else if bool_decide (Value_Kind got = ValueNull) then
    if bool_decide (Value_Kind want = ValueNull) then StatusMatch else StatusNull
  else if negb (bool_decide (Value_Kind got = Value_Kind want)) then StatusTypeMismatch
  else if Value_Equal got want then StatusMatch else StatusNoMatch.

(** The first child that does not match decides a conjunction. *)
Definition all_status (statuses : list Status) : Status :=
  foldr (λ s acc, if decide (s = StatusMatch) then acc else s) StatusMatch statuses.

(** A disjunction matches when a child does; otherwise it keeps the first
    status that is not a plain mismatch. *)
Definition any_status (statuses : list Status) : Status :=
  if decide (StatusMatch ∈ statuses) then StatusMatch
  else default StatusNoMatch (head (filter (λ s, s ≠ StatusNoMatch) statuses)).

Definition not_status (s : Status) : Status :=
  match s with StatusMatch => StatusNoMatch | StatusNoMatch => StatusMatch | s => s end.

(** The status a condition has for a request, without budgets. *)
Fixpoint cond_status (request : Request) (c : Condition) : Status :=
  match c with
  | existsCondition reference => Result_Status (exists_body request reference)
  | nullCondition reference => Result_Status (null_body request reference)
  | anyCondition cs =>
      any_status (map (λ child, match child with Some c => cond_status request c | None => StatusNoMatch end) cs)
  | notCondition child =>
      not_status match child with Some c => cond_status request c | None => StatusMissing end
  | comparisonCondition reference want operator =>
      value_status request reference (λ got, Result_Status (comparison_test want operator got))
  | inCondition reference values => value_status request reference (in_status values)
  | setContainsCondition reference value =>
      value_status request reference (λ got, Result_Status (set_test value got))
  | stringCondition reference value operator =>
      value_status request reference (λ got, Result_Status (string_test value operator got))
  | ipCondition reference prefix => value_status request reference (λ got, Result_Status (ip_test prefix got))
  | equalCondition reference want =>
      equal_status request reference want
  | allCondition cs =>
      all_status (map (λ child, match child with Some c => cond_status request c | None => StatusNoMatch end) cs)
  end.

Definition status_of (child : option Condition) (request : Request) : Status :=
  match child with Some c => cond_status request c | None => StatusNoMatch end.

(** The result that reports a status. *)
Definition report (s : Status) : Result := mkResult (bool_decide (s = StatusMatch)) s 0.

(** ** Induction on conditions *)

Section condition_ind.
Context (P : Condition → Prop).
Context (Hleaf : ∀ c, conditionChildren c = [] → (∀ cs, c ≠ anyCondition cs) → (∀ cs, c ≠ allCondition cs) → P c).
Context (Hany : ∀ cs, (∀ c, Some c ∈ cs → P c) → P (anyCondition cs)).
Context (Hall : ∀ cs, (∀ c, Some c ∈ cs → P c) → P (allCondition cs)).
Context (Hnot : ∀ c, P c → P (notCondition (Some c))).

Lemma Condition_tree_ind (c : Condition) : P c.
Proof.
  revert c. fix IH 1. intros c.
  assert (∀ cs : list (option Condition),
    (fix go (cs : list (option Condition)) : Prop :=
       match cs with [] => True | Some c :: cs => P c ∧ go cs | None :: cs => go cs end) cs →
    ∀ c, Some c ∈ cs → P c) as Hgo.
  { clear IH. intros cs. induction cs as [|[c'|] cs IHcs]; intros H c'' Hin.
    - by apply not_elem_of_nil in Hin.
    - destruct H as [H1 H2]. apply elem_of_cons in Hin as [?|Hin]; [by simplify_eq|by apply IHcs].
    - apply elem_of_cons in Hin as [?|Hin]; [done|by apply IHcs]. }
  destruct c as [r|r|cs|[c|]|r w o|r vs|r v|r v o|r p|r w|cs];
    try (apply Hleaf; [done|by intros ?|by intros ?]).
  - apply Hany, Hgo. induction cs as [|[c|] cs IHcs]; [done|split; [apply IH|apply IHcs]|apply IHcs].
  - apply Hnot, IH.
  - apply Hall, Hgo. induction cs as [|[c|] cs IHcs]; [done|split; [apply IH|apply IHcs]|apply IHcs].
Qed.
End condition_ind.

(** ** What an evaluation returns *)

Definition eval_error (state : evaluationState) (e : error) : Prop :=
  (∃ m, Err_at (state_ctx state) m = Some e) ∨ e = ErrCostExceeded ∨ e = ErrSetLimitExceeded.

(** Every collection among the request's attributes is within the limit. *)
Definition sets_admitted (state : evaluationState) : Prop :=
  ∀ reference, validateValue state (state_attribute (state_request state) reference).1 = None.

(** A computation of [size] nodes whose status is [s]: it returns, consumes
    at most [size] units and never above the budget; without error it
    reports [s]; with enough budget, a live context and admitted sets there
    is no error. *)
Definition evaluates (state : evaluationState) (s : Status) (size : Z) (m : Eval (Result * option error)) : Prop :=
  ∀ cost n, ∃ r err cost' n', m cost n = (Ret ((r, err), cost'), n') ∧
    cost ≤ cost' ≤ cost + size ∧ cost' ≤ Z.max cost (state_maxCost state) ∧
    match err with
    | None => r = report s
    | Some e => Result_Matched r = false ∧ eval_error state e ∧
        ¬ (ContextLive (state_ctx state) ∧ sets_admitted state ∧ cost + size ≤ state_maxCost state)
    end.

Lemma Eval_bind_run {A B} (m : Eval A) (f : A → Eval B) cost n a cost' n' :
  m cost n = (Ret (a, cost'), n') → (m ≫= f) cost n = f a cost' n'.
Proof. intros E. unfold mbind, Eval_bind. by erewrite M_bind_Ret by done. Qed.

(** Consuming one unit before a body that returns. *)
Lemma consume_then {A} state (f : option error → Eval A) cost n :
  (consume state ≫= f) cost n =
  match Err_at (state_ctx state) n with
  | Some e => f (Some e) cost (S n)
  | None => if state_maxCost state <=? cost then f (Some ErrCostExceeded) cost (S n) else f None (cost + 1) (S n)
  end.
Proof.
  unfold mbind, Eval_bind, consume. unfold mbind, M_bind. simpl.
  destruct (Err_at (state_ctx state) n); [done|]. by destruct (_ <=? _).
Qed.

Lemma evaluates_ret state s : evaluates state s 0 (mret (report s, None)).
Proof. intros cost n. exists (report s), None, cost, n. split_and!; [done|lia|lia|lia|done]. Qed.

(** The errors of [consume]. *)
Lemma consume_error state size cost n (res : Result) :
  0 ≤ size → Result_Matched res = false →
  (∃ e, Err_at (state_ctx state) n = Some e) ∨ state_maxCost state ≤ cost →
  let e := match Err_at (state_ctx state) n with Some e => e | None => ErrCostExceeded end in
  eval_error state e ∧
  ¬ (ContextLive (state_ctx state) ∧ sets_admitted state ∧ cost + (1 + size) ≤ state_maxCost state).
Proof.
  intros Hsize _ Hcase e. split.
  - unfold e, eval_error. destruct (Err_at (state_ctx state) n) eqn:E; [left; by exists n|by right; left].
  - intros (Hlive & _ & Hle). destruct Hcase as [[e' He']|?]; [|lia]. by rewrite (Hlive n) in He'.
Qed.

Lemma with_consume_evaluates state s size body :
  0 ≤ size → evaluates state s size body → evaluates state s (1 + size) (with_consume state body).
Proof.
  intros Hsize Hbody cost n. unfold with_consume. rewrite consume_then.
  pose proof (consume_error state size cost n zeroResult Hsize eq_refl) as Herr.
  destruct (Err_at (state_ctx state) n) as [e|] eqn:Ec.
  { destruct Herr as [? ?]; [by left; exists e|]. eexists _, _, _, _. split_and!; [done|lia|lia|lia|done..]. }
  destruct (Z.leb_spec (state_maxCost state) cost) as [Hle|Hlt].
  { destruct Herr as [? ?]; [by right|]. eexists _, _, _, _. split_and!; [done|lia|lia|lia|done..]. }
  destruct (Hbody (cost + 1) (S n)) as (r & err & cost' & n' & E & [? ?] & ? & H).
  exists r, err, cost', n'. split_and!; [done|lia|lia|lia|]. destruct err as [e|]; [|done].
  destruct H as (? & ? & Hno). split_and!; [done|done|]. intros (? & ? & ?). apply Hno. split_and!; [done|done|lia].
Qed.

(** Loading a value is consuming a unit, then looking at the attribute. *)
Lemma with_value_unfold state reference test cost n :
  with_value state reference test cost n =
  with_consume state (
    let '(value, exists_) := state_attribute (state_request state) reference in
    if isMissingValue value exists_ then mret (status_result StatusMissing, None)
    else match validateValue state value with
    | Some err => mret (zeroResult, Some err)
    | None => if bool_decide (Value_Kind value = ValueNull) then mret (status_result StatusNull, None) else test value
    end) cost n.
Proof.
  unfold with_value, loadValue, with_consume. unfold mbind at 1, Eval_bind at 1. unfold mbind at 1, M_bind at 1.
  rewrite !consume_then. destruct (Err_at _ n); [done|]. destruct (_ <=? _); [done|].
  destruct (state_attribute _ _) as [value exists_]. destruct (isMissingValue _ _); [done|].
  destruct (validateValue _ _); [done|]. by destruct (bool_decide _).
Qed.

Lemma evaluates_ext state s size m m' :
  (∀ cost n, m cost n = m' cost n) → evaluates state s size m' → evaluates state s size m.
Proof. intros E H cost n. rewrite E. apply H. Qed.

Lemma evaluates_set_error state s value :
  validateValue state value = Some ErrSetLimitExceeded →
  (∃ reference, value = (state_attribute (state_request state) reference).1) →
  evaluates state s 0 (mret (zeroResult, Some ErrSetLimitExceeded)).
Proof.
  intros Hv [reference ->] cost n. exists zeroResult, (Some ErrSetLimitExceeded), cost, n. split_and!; [done|lia|lia|lia|done|by right; right|].
  intros (_ & Hsets & _). by rewrite (Hsets reference) in Hv.
Qed.

Lemma validateValue_cases state value :
  validateValue state value = None ∨ validateValue state value = Some ErrSetLimitExceeded.
Proof. unfold validateValue. destruct (Value_CollectionLength value). destruct (_ && _); auto. Qed.

(** Loading a value, then testing it. *)
Lemma with_value_evaluates state reference test ftest :
  (∀ got, evaluates state (ftest got) 0 (test got)) →
  evaluates state (value_status (state_request state) reference ftest) 1 (with_value state reference test).
Proof.
  intros Htest. eapply evaluates_ext; [apply with_value_unfold|]. apply (with_consume_evaluates _ _ 0); [done|].
  unfold value_status. destruct (state_attribute (state_request state) reference) as [value exists_] eqn:Ea.
  destruct (isMissingValue value exists_); [apply (evaluates_ret _ StatusMissing)|].
  destruct (validateValue_cases state value) as [->|Hv]; [|rewrite Hv].
  - destruct (bool_decide _); [apply (evaluates_ret _ StatusNull)|apply Htest].
  - eapply evaluates_set_error; [done|]. exists reference. by rewrite Ea.
Qed.

Lemma report_decided b : decided b = report (Result_Status (decided b)).
Proof. by destruct b. Qed.

Lemma decided_matched b : Result_Matched (decided b) = b.
Proof. by destruct b. Qed.

Lemma equal_body_evaluates state reference want :
  evaluates state (equal_status (state_request state) reference want) 0 (mret (equal_body state reference want)).
Proof.
  unfold equal_status, equal_body.
  destruct (state_attribute (state_request state) reference) as [got exists_] eqn:Ea.
  destruct (isMissingValue got exists_); [apply (evaluates_ret _ StatusMissing)|].
  destruct (validateValue_cases state got) as [->|Hv]; [|rewrite Hv].
  - destruct (bool_decide (Value_Kind got = ValueNull)).
    { destruct (bool_decide _); [apply (evaluates_ret _ StatusMatch)|apply (evaluates_ret _ StatusNull)]. }
    destruct (negb _); [apply (evaluates_ret _ StatusTypeMismatch)|].
    destruct (Value_Equal got want); [apply (evaluates_ret _ StatusMatch)|apply (evaluates_ret _ StatusNoMatch)].
  - eapply evaluates_set_error; [done|]. exists reference. by rewrite Ea.
Qed.

Lemma in_test_evaluates state values got :
  values ≠ [] → evaluates state (in_status values got) 0 (in_test values got).
Proof.
  intros Hne. unfold in_status, in_test. destruct values as [|first values]; [done|].
  destruct (negb _); [apply (evaluates_ret _ StatusTypeMismatch)|]. rewrite report_decided at 2. apply evaluates_ret.
Qed.

(** ** The loops *)

Definition sizes (cs : list (option Condition)) : Z :=
  foldr (λ child acc, match child with Some c => cond_size c | None => 0 end + acc) 0 cs.

Lemma foldr_sizes_nonneg cs : (∀ c, Some c ∈ cs → 0 ≤ cond_size c) → 0 ≤ sizes cs.
Proof.
  induction cs as [|[c|] cs IH]; intros H; simpl; [done|..].
  - assert (0 ≤ cond_size c) by (apply H; by left). assert (0 ≤ sizes cs) by (apply IH; intros; apply H; by right). lia.
  - apply IH. intros. apply H. by right.
Qed.

Lemma cond_size_pos c : 1 ≤ cond_size c.
Proof.
  induction c as [c Hc Hany Hall|cs IH|cs IH|c IH] using Condition_tree_ind.
  - destruct c as [r|r|cs|[c|]|r w o|r vs|r v|r v o|r p|r w|cs]; simpl; try lia; try done;
      [by destruct (Hany cs)|by destruct (Hall cs)].
  - assert (0 ≤ sizes cs) by (apply foldr_sizes_nonneg; intros c Hc; specialize (IH c Hc); lia).
    simpl. fold (sizes cs). lia.
  - assert (0 ≤ sizes cs) by (apply foldr_sizes_nonneg; intros c Hc; specialize (IH c Hc); lia).
    simpl. fold (sizes cs). lia.
  - simpl. lia.
Qed.

Lemma sizes_nonneg cs : 0 ≤ sizes cs.
Proof. apply foldr_sizes_nonneg. intros c _. pose proof (cond_size_pos c). lia. Qed.

(** The children of a valid node evaluate, and the loop over them does. *)
Definition children_evaluate (state : evaluationState) (cs : list (option Condition)) : Prop :=
  ∀ child, child ∈ cs → ∃ c, child = Some c ∧
    evaluates state (cond_status (state_request state) c) (cond_size c) (evaluate state c).

Lemma all_loop_evaluates state cs :
  children_evaluate state cs →
  evaluates state (all_status (map (λ child, status_of child (state_request state)) cs)) (sizes cs)
    (all_loop (evaluate state) cs).
Proof.
  induction cs as [|child cs IH]; intros Hcs; [apply (evaluates_ret _ StatusMatch)|].
  destruct (Hcs child ltac:(by left)) as (c & -> & Hc).
  assert (children_evaluate state cs) as Hcs' by (intros child' ?; apply Hcs; by right).
  specialize (IH Hcs'). intros cost n. simpl. pose proof (sizes_nonneg cs).
  destruct (Hc cost n) as (r & err & cost1 & n1 & E & [? ?] & ? & Hr).
  rewrite (Eval_bind_run _ _ _ _ _ _ _ E). cbn iota beta.
  destruct err as [e|].
  { rewrite bool_decide_true by done. simpl. destruct Hr as (Hm & He & Hno).
    exists r, (Some e), cost1, n1. split_and!; [done|lia|lia|lia|done|done|].
    intros (? & ? & ?). apply Hno. split_and!; [done|done|lia]. }
  subst r. rewrite bool_decide_false by (by intros []). simpl. unfold all_status. simpl.
  destruct (decide (cond_status (state_request state) c = StatusMatch)) as [Em|Em].
  - rewrite bool_decide_true by done. simpl.
    destruct (IH cost1 n1) as (r & err & cost2 & n2 & E2 & [? ?] & ? & Hr). exists r, err, cost2, n2.
    split_and!; [done|lia|lia|lia|]. destruct err as [e|]; [|done]. destruct Hr as (? & ? & Hno).
    split_and!; [done|done|]. intros (? & ? & ?). apply Hno. split_and!; [done|done|lia].
  - rewrite bool_decide_false by done. simpl. eexists _, None, cost1, n1. split_and!; [done|lia|lia|lia|].
    unfold report. by rewrite bool_decide_false.
Qed.

(** The status [Any] carries from child to child. *)
Definition any_from (status : Status) (statuses : list Status) : Status :=
  if decide (StatusMatch ∈ statuses) then StatusMatch
  else if decide (status = StatusNoMatch) then default StatusNoMatch (head (filter (λ s, s ≠ StatusNoMatch) statuses))
  else status.

Lemma any_from_cons status s statuses :
  status ≠ StatusMatch →
  any_from status (s :: statuses) =
  if decide (s = StatusMatch) then StatusMatch
  else any_from (if decide (status = StatusNoMatch) then s else status) statuses.
Proof.
  intros Hst. unfold any_from. rewrite filter_cons.
  destruct (decide (s = StatusMatch)) as [->|Hs].
  { by rewrite decide_True by (by left). }
  destruct (decide (StatusMatch ∈ s :: statuses)) as [Hin|Hin];
    [apply elem_of_cons in Hin as [?|Hin]; [congruence|by rewrite decide_True]|].
  rewrite (decide_False (P := StatusMatch ∈ statuses)) by (intros ?; apply Hin; by right).
  destruct (decide (status = StatusNoMatch)) as [->|?].
  - destruct (decide (s = StatusNoMatch)) as [->|?]; [by rewrite decide_False by (by intros [])|].
    by rewrite decide_True.
  - by rewrite decide_False.
Qed.

Lemma any_loop_evaluates state status cs :
  status ≠ StatusMatch → children_evaluate state cs →
  evaluates state (any_from status (map (λ child, status_of child (state_request state)) cs)) (sizes cs)
    (any_loop (evaluate state) status cs).
Proof.
  revert status. induction cs as [|child cs IH]; intros status Hst Hcs.
  { assert (any_from status (map (λ child, status_of child (state_request state)) []) = status) as ->.
    { unfold any_from. simpl. by case_decide. }
    intros cost n. exists (report status), None, cost, n. split_and!; [|lia|simpl; lia|lia|done].
    simpl. unfold report. by rewrite bool_decide_false. }
  destruct (Hcs child ltac:(by left)) as (c & -> & Hc).
  assert (children_evaluate state cs) as Hcs' by (intros child' ?; apply Hcs; by right).
  intros cost n. simpl. pose proof (sizes_nonneg cs). rewrite any_from_cons by done.
  destruct (Hc cost n) as (r & err & cost1 & n1 & E & [? ?] & ? & Hr).
  rewrite (Eval_bind_run _ _ _ _ _ _ _ E). cbn iota beta.
  destruct err as [e|].
  { rewrite bool_decide_true by done. simpl. destruct Hr as (Hm & He & Hno).
    exists r, (Some e), cost1, n1. split_and!; [done|lia|lia|lia|done|done|].
    intros (? & ? & ?). apply Hno. split_and!; [done|done|lia]. }
  subst r. rewrite bool_decide_false by (by intros []). simpl.
  destruct (decide (cond_status (state_request state) c = StatusMatch)) as [Em|Em].
  - rewrite bool_decide_true by done. eexists _, None, cost1, n1. split_and!; [done|lia|lia|lia|]. by rewrite Em.
  - rewrite bool_decide_false by done.
    set (status' := if bool_decide (status = StatusNoMatch) then _ else _).
    assert (status' = if decide (status = StatusNoMatch) then cond_status (state_request state) c else status) as <-.
    { unfold status'. repeat case_bool_decide; simpl; repeat case_decide; congruence || done. }
    destruct (IH status') with (cost := cost1) (n := n1) as (r & err & cost2 & n2 & E2 & [? ?] & ? & Hr).
    { unfold status'. repeat case_bool_decide; simpl; congruence || done. }
    { done. }
    exists r, err, cost2, n2. split_and!; [done|lia|lia|lia|]. destruct err as [e|]; [|done].
    destruct Hr as (? & ? & Hno). split_and!; [done|done|]. intros (? & ? & ?). apply Hno. split_and!; [done|done|lia].
Qed.

Lemma cond_valid_children cs :
  foldr (λ child acc, match child with Some c => cond_valid c | None => False end ∧ acc) True cs →
  ∀ child, child ∈ cs → ∃ c, child = Some c ∧ cond_valid c.
Proof.
  induction cs as [|[c|] cs IH]; simpl; [|intros [Hc Hcs]|by intros [[] _]].
  - by intros _ child ?%not_elem_of_nil.
  - intros child [->|?]%elem_of_cons; [by exists c|by apply IH].
Qed.

(** The negation of a child's result. *)
Lemma not_evaluates state s size (m : Eval (Result * option error)) :
  evaluates state s size m →
  evaluates state (not_status s) size (
    '(result, err) ← m;
    match err with
    | Some err => mret (result, Some err)
    | None => mret (negate result, None)
    end).
Proof.
  intros Hm cost n. destruct (Hm cost n) as (r & err & cost' & n' & E & [? ?] & ? & Hr).
  rewrite (Eval_bind_run _ _ _ _ _ _ _ E). cbn iota beta. destruct err as [e|].
  - exists r, (Some e), cost', n'. split; [done|]. split; [done|]. split; [done|]. exact Hr.
  - subst r. exists (report (not_status s)), None, cost', n'. split_and!; [|lia|lia|lia|done]. by destruct s.
Qed.

(** A valid condition evaluates to its status. *)
Lemma evaluate_evaluates state c :
  cond_valid c → evaluates state (cond_status (state_request state) c) (cond_size c) (evaluate state c).
Proof.
  induction c as [c Hleaf Hany Hall|cs IH|cs IH|c IH] using Condition_tree_ind; intros Hv.
  - destruct c as [r|r|cs|[c|]|r w o|r vs|r v|r v o|r p|r w|cs];
      [..|by destruct (Hall cs)]; try (by destruct (Hany cs)); simpl; rewrite ?Z.add_0_r;
      try (apply with_value_evaluates; intros got).
    + apply (with_consume_evaluates _ _ 0); [done|]. unfold exists_body. destruct (state_attribute _ _) as [v e].
      destruct e; simpl; [|apply (evaluates_ret _ StatusNoMatch)].
      destruct (bool_decide _); [apply (evaluates_ret _ StatusNoMatch)|apply (evaluates_ret _ StatusMatch)].
    + apply (with_consume_evaluates _ _ 0); [done|]. unfold null_body. destruct (state_attribute _ _) as [v e].
      destruct (_ && _); [apply (evaluates_ret _ StatusMatch)|apply (evaluates_ret _ StatusNoMatch)].
    + done.
    + by destruct Hv.
    + unfold comparison_test. destruct (negb _); [apply (evaluates_ret _ StatusTypeMismatch)|].
      destruct (Value_Compare got w). rewrite report_decided at 2. apply evaluates_ret.
    + apply in_test_evaluates. intros ->. destruct Hv as [Hv _]. simpl in Hv. by destruct (validateReference r).
    + unfold set_test. destruct (Value_StringSet got) as [set ok].
      destruct ok; [|apply (evaluates_ret _ StatusTypeMismatch)]. simpl. rewrite report_decided at 2. apply evaluates_ret.
    + unfold string_test. destruct (Value_String got) as [str ok].
      destruct ok; [|apply (evaluates_ret _ StatusTypeMismatch)]. simpl. rewrite report_decided at 2. apply evaluates_ret.
    + unfold ip_test. destruct (Value_IP got) as [ip ok].
      destruct ok; [|apply (evaluates_ret _ StatusTypeMismatch)]. simpl. rewrite report_decided at 2. apply evaluates_ret.
    + apply (with_consume_evaluates _ _ 0); [done|]. apply equal_body_evaluates.
  - destruct Hv as [_ Hv]. apply with_consume_evaluates; [apply sizes_nonneg|].
    apply (any_loop_evaluates _ StatusNoMatch); [done|]. intros child Hin.
    destruct (cond_valid_children _ Hv _ Hin) as (c & -> & Hc). exists c. split; [done|by apply IH].
  - destruct Hv as [_ Hv]. apply with_consume_evaluates; [apply sizes_nonneg|].
    apply all_loop_evaluates. intros child Hin.
    destruct (cond_valid_children _ Hv _ Hin) as (c & -> & Hc). exists c. split; [done|by apply IH].
  - destruct Hv as [_ Hv]. simpl. pose proof (cond_size_pos c).
    apply with_consume_evaluates; [lia|]. by apply not_evaluates, IH.
Qed.

(** ** Theorems *)

(** Evaluating a valid condition always returns, whatever the context
    and the budgets: it never panics, never consumes more than the budget or
    one unit per node, and without error its result is the status the
    condition has for the request; the only errors are the context's, the
    cost limit and the set limit, they report no match, and none occurs with
    a live context, admitted sets and a budget of one unit per node. *)
Theorem condition_evaluation (state : evaluationState) (c : Condition) (cost : Z) (n : nat) :
  cond_valid c →
  ∃ r err cost' n', evaluate state c cost n = (Ret ((r, err), cost'), n') ∧
    cost ≤ cost' ≤ cost + cond_size c ∧ cost' ≤ Z.max cost (state_maxCost state) ∧
    (err = None → r = report (cond_status (state_request state) c)) ∧
    (∀ e, err = Some e → Result_Matched r = false ∧ eval_error state e) ∧
    (ContextLive (state_ctx state) → sets_admitted state → cost + cond_size c ≤ state_maxCost state → err = None).
Proof.
  intros Hv. destruct (evaluate_evaluates state c Hv cost n) as (r & err & cost' & n' & E & ? & ? & H).
  exists r, err, cost', n'. split_and!; [done|lia|lia|lia|..].
  - by intros ->.
  - intros e ->. by destruct H as (? & ? & _).
  - intros. destruct err; [|done]. destruct H as (_ & _ & []). done.
Qed.

Definition department : Reference := mkReference SourceSubject "department".
Definition clearance : Reference := mkReference SourceSubject "clearance".

(** Department is "eng" and clearance is not below 3. *)
Definition example_condition : Condition :=
  All_ [Some (Equal department (StringValue "eng")); Some (Not_ (Some (LessThan clearance (IntValue 3))))].

Definition facts_request (attributes : list (string * Value)) : Request :=
  mkRequest (mkSubject "user" "alice" [] (Some (list_to_map attributes))) "read"
    (mkResource "document" "d1" None) "acme" (mkEnvironment 5 None) None.

Definition example_state (attributes : list (string * Value)) : evaluationState :=
  mkEvaluationState context_Background (facts_request attributes) 10 10.

Lemma condition_evaluation_witness :
  ∃ r cost' n', evaluate (example_state [("department", StringValue "eng"); ("clearance", IntValue 4)])
                  example_condition 0 0%nat = (Ret ((r, None), cost'), n') ∧
    cost' ≤ 4 ∧ Result_Matched r = true.
Proof.
  destruct (condition_evaluation (example_state [("department", StringValue "eng"); ("clearance", IntValue 4)])
    example_condition 0 0%nat ltac:(by repeat split)) as (r & err & cost' & n' & E & [_ Hc] & _ & Hr & _).
  exists r, cost', n'. vm_compute in E. injection E as <- <- <- <-.
  split; [vm_compute; reflexivity|]. split; [exact Hc|]. by rewrite (Hr eq_refl).
Defined.

(** *** Unknown facts *)

(** The truth value of a condition when an oracle supplies the leaves whose
    attribute is missing, null or of the wrong kind. *)
Fixpoint holds (request : Request) (oracle : Condition → bool) (c : Condition) : bool :=
  match c with
  | allCondition cs => forallb (λ child, match child with Some c => holds request oracle c | None => false end) cs
  | anyCondition cs => existsb (λ child, match child with Some c => holds request oracle c | None => false end) cs
  | notCondition child => negb match child with Some c => holds request oracle c | None => false end
  | leaf => match cond_status request leaf with
            | StatusMatch => true
            | StatusNoMatch => false
            | _ => oracle leaf
            end
  end.

Lemma all_status_cases statuses :
  match all_status statuses with
  | StatusMatch => Forall (eq StatusMatch) statuses
  | s => s ∈ statuses
  end.
Proof.
  induction statuses as [|s statuses IH]; [constructor|]. unfold all_status in *. simpl.
  destruct (decide (s = StatusMatch)) as [->|Hs].
  - destruct (foldr _ _ statuses); [by right|by constructor|by right..].
  - destruct s; done || by left.
Qed.

Lemma any_status_cases statuses :
  match any_status statuses with
  | StatusMatch => StatusMatch ∈ statuses
  | StatusNoMatch => Forall (eq StatusNoMatch) statuses
  | _ => True
  end.
Proof.
  unfold any_status. destruct (decide (StatusMatch ∈ statuses)) as [Hm|Hm]; [done|].
  assert (filter (λ s, s ≠ StatusNoMatch) statuses = [] → Forall (eq StatusNoMatch) statuses) as Hnil.
  { intros E. apply Forall_forall. intros s Hs. destruct (decide (s = StatusNoMatch)) as [->|Hne]; [done|].
    assert (s ∈ filter (λ s, s ≠ StatusNoMatch) statuses) as Hin by (by apply list_elem_of_filter).
    rewrite E in Hin. by apply not_elem_of_nil in Hin. }
  destruct (filter _ statuses) as [|s rest] eqn:E; simpl; [by apply Hnil|].
  assert (s ∈ filter (λ s, s ≠ StatusNoMatch) statuses) as [Hs Hin]%list_elem_of_filter by (rewrite E; by left).
  by destruct s.
Qed.

(** What a status says about the truth value. *)
Definition status_sound (s : Status) (b : bool) : Prop :=
  match s with StatusMatch => b = true | StatusNoMatch => b = false | _ => True end.

Lemma holds_sound request oracle c :
  cond_valid c → status_sound (cond_status request c) (holds request oracle c).
Proof.
  induction c as [c Hleaf Hany Hall|cs IH|cs IH|c IH] using Condition_tree_ind; intros Hv.
  - destruct c as [r|r|cs|[c|]|r w o|r vs|r v|r v o|r p|r w|cs]; try (by destruct (Hany cs));
      try (by destruct (Hall cs)); try done; try (by destruct Hv);
      cbn [holds]; unfold status_sound; by destruct (cond_status _ _).
  - destruct Hv as [_ Hv]. cbn [cond_status holds].
    pose proof (any_status_cases (map (λ child, status_of child request) cs)) as Hany.
    change (map (λ child, match child with Some c => cond_status request c | None => StatusNoMatch end) cs)
      with (map (λ child, status_of child request) cs).
    destruct (any_status _) eqn:Es; simpl; try done.
    + apply not_true_is_false. intros (child & Hin & Hb)%existsb_exists. apply list_elem_of_In in Hin.
      destruct (cond_valid_children _ Hv _ Hin) as (c & -> & Hc). specialize (IH c Hin Hc).
      rewrite Forall_forall in Hany.
      assert (StatusNoMatch = cond_status request c) as E by (apply Hany, elem_of_map; by exists (Some c)).
      rewrite <- E in IH. simpl in IH. congruence.
    + apply elem_of_map in Hany as (child & E & Hin).
      destruct (cond_valid_children _ Hv _ Hin) as (c & -> & Hc). specialize (IH c Hin Hc). simpl in E.
      rewrite <- E in IH. apply existsb_exists. exists (Some c). split; [by apply list_elem_of_In|done].
  - destruct Hv as [_ Hv]. cbn [cond_status holds].
    pose proof (all_status_cases (map (λ child, status_of child request) cs)) as Hall.
    change (map (λ child, match child with Some c => cond_status request c | None => StatusNoMatch end) cs)
      with (map (λ child, status_of child request) cs).
    destruct (all_status _) eqn:Es; simpl; try done.
    + apply elem_of_map in Hall as (child & E & Hin).
      destruct (cond_valid_children _ Hv _ Hin) as (c & -> & Hc). specialize (IH c Hin Hc). simpl in E.
      rewrite <- E in IH. simpl in IH. apply not_true_is_false. rewrite forallb_forall. intros Hb.
      specialize (Hb (Some c) ltac:(by apply list_elem_of_In)). simpl in Hb. congruence.
    + apply forallb_forall. intros child Hin%list_elem_of_In.
      destruct (cond_valid_children _ Hv _ Hin) as (c & -> & Hc). specialize (IH c Hin Hc).
      rewrite Forall_forall in Hall.
      assert (StatusMatch = cond_status request c) as E by (apply Hall, elem_of_map; by exists (Some c)).
      rewrite <- E in IH. done.
  - destruct Hv as [_ Hv]. cbn [cond_status holds]. specialize (IH Hv).
    destruct (cond_status request c); simpl in *; by rewrite ?IH.
Qed.

(** *** What a condition means

    The meaning of conditions on the facts of a request, without the
    evaluation: a leaf means a proposition on the payload of its fact when the
    fact has the kind that the leaf asks for, and otherwise nothing. *)

(** The attribute that a reference names, if it has a value. *)
Definition fact (request : Request) (reference : Reference) : option Value :=
  value ← match Reference_Source reference with
          | SourceSubject => attributes_lookup (Subject_Attributes (Request_Subject request)) (Reference_Name reference)
          | SourceResource => attributes_lookup (Resource_Attributes (Request_Resource request)) (Reference_Name reference)
          | SourceRequest => attributes_lookup (Request_Attributes request) (Reference_Name reference)
          | SourceEnvironment =>
              attributes_lookup (Environment_Attributes (Request_Environment request)) (Reference_Name reference)
          | SourceOther _ => None
          end;
  if decide (kind value = ValueMissing) then None else Some value.

Definition typed_fact (k : ValueKind) (request : Request) (reference : Reference) : option Value :=
  value ← fact request reference; if decide (kind value = k) then Some value else None.

(** Two values of one kind are the same; one precedes the other. *)
Definition same_value (v w : Value) : Prop :=
  match kind v with
  | ValueMissing | ValueNull => True
  | ValueString => stringVal v = stringVal w
  | ValueBool => boolVal v = boolVal w
  | ValueInt => intVal v = intVal w
  | ValueFloat => SFeqb (floatVal v) (floatVal w) = true
  | ValueTime => timeVal v = timeVal w
  | ValueIP => ipVal v = ipVal w
  | ValueStringSet => setVal v = setVal w
  end.

Definition precedes (v w : Value) : Prop :=
  match kind v with
  | ValueString => String.ltb (stringVal v) (stringVal w) = true
  | ValueInt => intVal v < intVal w
  | ValueFloat => SFltb (floatVal v) (floatVal w) = true
  | ValueTime => timeVal v < timeVal w
  | _ => False
  end.

Definition leaf_meaning (request : Request) (leaf : Condition) : option Prop :=
  match leaf with
  | existsCondition reference => Some (is_Some (fact request reference))
  | nullCondition reference => Some (∃ v, fact request reference = Some v ∧ kind v = ValueNull)
  | comparisonCondition reference want operator =>
      got ← typed_fact (kind want) request reference;
      Some match operator with compareGreater => precedes want got | compareLess => precedes got want end
  | inCondition reference values =>
      first ← head values; got ← typed_fact (kind first) request reference;
      Some (∃ candidate, candidate ∈ values ∧ same_value got candidate)
  | setContainsCondition reference value =>
      got ← typed_fact ValueStringSet request reference; Some (value ∈ setVal got)
  | stringCondition reference value operator =>
      got ← typed_fact ValueString request reference;
      Some match operator with
           | stringPrefix => ∃ rest, stringVal got = value +:+ rest
           | stringSuffix => ∃ rest, stringVal got = rest +:+ value
           | stringContains => ∃ before after, stringVal got = before +:+ value +:+ after
           end
  | ipCondition reference prefix =>
      got ← typed_fact ValueIP request reference; Some (prefix_Contains prefix (ipVal got) = true)
  | equalCondition reference want => got ← typed_fact (kind want) request reference; Some (same_value got want)
  | _ => None
  end.

(** The truth of a condition when an oracle supplies the leaves that mean
    nothing: their fact is missing, null or of another kind. *)
Fixpoint truth (request : Request) (oracle : Condition → Prop) (c : Condition) : Prop :=
  match c with
  | allCondition cs => foldr (λ child acc, match child with Some c => truth request oracle c | None => False end ∧ acc) True cs
  | anyCondition cs => foldr (λ child acc, match child with Some c => truth request oracle c | None => False end ∨ acc) False cs
  | notCondition child => ¬ match child with Some c => truth request oracle c | None => False end
  | leaf => default (oracle leaf) (leaf_meaning request leaf)
  end.

(** The facts are values that the package built. *)
Definition facts_wf (request : Request) : Prop := ∀ reference v, fact request reference = Some v → Value_wf v.

(** A status that decides a proposition. *)
Definition settles (s : Status) (P : Prop) : Prop :=
  match s with StatusMatch => P | StatusNoMatch => ¬ P | _ => False end.

(** What a status says of a meaning: a leaf that means nothing reports one of
    the other statuses. *)
Definition meaning_status (s : Status) (meaning : option Prop) : Prop :=
  match meaning with Some P => settles s P | None => s ≠ StatusMatch ∧ s ≠ StatusNoMatch end.

Lemma state_attribute_fact request reference :
  let '(value, exists_) := state_attribute request reference in
  (isMissingValue value exists_ = true ∧ fact request reference = None) ∨
  (isMissingValue value exists_ = false ∧ exists_ = true ∧ fact request reference = Some value).
Proof.
  unfold state_attribute, fact, source_attributes, isMissingValue, Value_Kind.
  assert (∀ attributes : Attributes, let '(value, exists_) :=
    match attributes_lookup attributes (Reference_Name reference) with Some value => (value, true) | None => (zeroValue, false) end in
    let found := value ← attributes_lookup attributes (Reference_Name reference);
                 if decide (kind value = ValueMissing) then None else Some value in
    ((if negb exists_ then true else bool_decide (kind value = ValueMissing)) = true ∧ found = None) ∨
    ((if negb exists_ then true else bool_decide (kind value = ValueMissing)) = false ∧ exists_ = true ∧ found = Some value)) as Hfound.
  { intros attributes. destruct (attributes_lookup attributes (Reference_Name reference)) as [value|]; simpl; [|by left].
    case_bool_decide as Hk; [left|right]; by rewrite ?decide_True, ?decide_False by done. }
  destruct (Reference_Source reference); apply Hfound || by left.
Qed.

Lemma settles_decided b (P : Prop) : (b = true ↔ P) → settles (Result_Status (decided b)) P.
Proof. intros HP. destruct b; simpl; [by apply HP|]. intros Hp. by apply HP in Hp. Qed.

(** Loading and testing a value of kind [k] has a meaning when the test asks
    for that kind. *)
Lemma value_status_meaning request reference k (test : Value → Status) (P : Value → Prop) :
  facts_wf request → k ≠ ValueNull →
  (∀ got, Value_wf got → kind got ≠ k → test got ≠ StatusMatch ∧ test got ≠ StatusNoMatch) →
  (∀ got, Value_wf got → kind got = k → settles (test got) (P got)) →
  meaning_status (value_status request reference test) (got ← typed_fact k request reference; Some (P got)).
Proof.
  intros Hwf Hk Hother Htest. unfold value_status, typed_fact. pose proof (state_attribute_fact request reference) as Hf.
  destruct (state_attribute request reference) as [value exists_]. destruct Hf as [[-> ->]|(-> & _ & Ef)]; [done|].
  specialize (Hwf _ _ Ef). rewrite Ef. simpl. unfold Value_Kind. case_bool_decide as Hn.
  - rewrite decide_False by congruence. done.
  - case_decide as Hkind; simpl; [by apply Htest|by apply Hother].
Qed.

Lemma SFltb_antisym f g : SFltb f g = true → SFltb g f = false.
Proof.
  unfold SFltb. destruct f as [[]|[]| |[] m e], g as [[]|[]| |[] n d]; simpl; try done.
  all: rewrite (Z.compare_antisym e d). all: change (Pos.compare_cont Eq m n) with (Pos.compare m n).
  all: change (Pos.compare_cont Eq n m) with (Pos.compare n m). all: rewrite (Pos.compare_antisym m n).
  all: destruct (e ?= d); simpl; try done; by destruct (Pos.compare m n).
Qed.

Lemma Value_Compare_precedes got want :
  kind got = kind want →
  ((Value_Compare got want).1 < 0 ↔ precedes got want) ∧ (0 < (Value_Compare got want).1 ↔ precedes want got).
Proof.
  intros E. unfold Value_Compare, precedes. rewrite E, bool_decide_true by done. simpl.
  destruct (kind want); simpl; try (split; split; done || lia).
  - unfold cmp_Compare_string, String.ltb. rewrite (String.compare_antisym (stringVal got) (stringVal want)).
    destruct (String.compare (stringVal want) (stringVal got)); simpl; split; split; done || lia.
  - rewrite compareOrdered_int_spec. unfold cmp_Compare_int.
    destruct (Z.compare_spec (intVal got) (intVal want)); simpl; split; split; done || lia.
  - unfold compareOrdered_float. destruct (SFltb (floatVal got) (floatVal want)) eqn:E1.
    + rewrite (SFltb_antisym _ _ E1). split; split; done || lia.
    + destruct (SFltb (floatVal want) (floatVal got)); split; split; done || lia.
  - unfold cmp_Compare_int. destruct (Z.compare_spec (timeVal got) (timeVal want)); simpl; split; split; done || lia.
Qed.

Lemma Value_Equal_same got want : kind got = kind want → Value_Equal got want = true ↔ same_value got want.
Proof.
  intros E. unfold Value_Equal, same_value. rewrite E, bool_decide_true by done. simpl.
  destruct (kind want); rewrite ?bool_decide_eq_true, ?Z.eqb_eq; try done.
Qed.

Lemma exists_means request r : settles (Result_Status (exists_body request r)) (is_Some (fact request r)).
Proof.
  unfold exists_body. pose proof (state_attribute_fact request r) as Hf.
  destruct (state_attribute request r) as [value [|]]; unfold isMissingValue in Hf; simpl in *.
  - destruct Hf as [[-> ->]|(-> & _ & ->)]; simpl; [by intros []|by eexists].
  - destruct Hf as [[_ ->]|(? & ? & _)]; [by intros []|done].
Qed.

Lemma null_means request r :
  settles (Result_Status (null_body request r)) (∃ v, fact request r = Some v ∧ kind v = ValueNull).
Proof.
  unfold null_body. pose proof (state_attribute_fact request r) as Hf.
  destruct (state_attribute request r) as [value [|]]; unfold isMissingValue, Value_Kind in *; simpl in *.
  - destruct Hf as [[Hm%bool_decide_eq_true ->]|(_ & _ & ->)].
    + rewrite bool_decide_false by congruence. by intros (? & ? & _).
    + case_bool_decide as Hn; simpl; [by exists value|]. by intros (? & [= <-] & ?).
  - destruct Hf as [[_ ->]|(? & ? & _)]; [by intros (? & ? & _)|done].
Qed.

Lemma equal_means request r want :
  meaning_status (equal_status request r want) (got ← typed_fact (kind want) request r; Some (same_value got want)).
Proof.
  unfold equal_status, typed_fact. pose proof (state_attribute_fact request r) as Hf.
  destruct (state_attribute request r) as [got exists_]. destruct Hf as [[-> ->]|(-> & _ & ->)]; [done|]. simpl.
  unfold Value_Kind. case_bool_decide as Hn.
  - case_bool_decide as Hw; [|by rewrite decide_False by congruence]. rewrite decide_True by congruence. simpl.
    unfold same_value. by rewrite Hn.
  - case_bool_decide as Hk; simpl; [|by rewrite decide_False]. rewrite decide_True by done. simpl.
    pose proof (Value_Equal_same got want Hk) as He. destruct (Value_Equal got want); simpl; [by apply He|].
    intros Hs. by apply He in Hs.
Qed.

Lemma set_test_settles value got :
  Value_wf got → kind got = ValueStringSet → settles (Result_Status (set_test value got)) (value ∈ setVal got).
Proof.
  intros Hwf Hk. unfold set_test, Value_StringSet. rewrite Hk. simpl. apply settles_decided.
  unfold Value_wf in Hwf. rewrite Hk in Hwf. destruct Hwf as [_ Hs].
  destruct (sort_SearchStrings_total (setVal got) value (strictly_sorted_le _ Hs)) as (index & -> & _ & <-).
  apply bool_decide_eq_true.
Qed.

Lemma validateCandidates_kinds values :
  validateCandidates values = None →
  ∃ first, head values = Some first ∧ kind first ≠ ValueNull ∧ ∀ candidate, candidate ∈ values → kind candidate = kind first.
Proof.
  destruct values as [|first values]; [done|]. unfold validateCandidates, Value_Kind.
  destruct (_ || _) eqn:En; [done|]. destruct (existsb _ _) eqn:Ek; [done|]. intros _. reflect_bools.
  exists first. split; [done|]. split; [done|]. intros candidate Hin. apply not_true_iff_false in Ek. rewrite existsb_exists in Ek.
  destruct (decide (kind candidate = kind first)) as [|Hne]; [done|]. destruct Ek. exists candidate.
  split; [by apply list_elem_of_In|by rewrite bool_decide_false].
Qed.

Lemma in_means request r values :
  facts_wf request → validateCandidates values = None →
  meaning_status (value_status request r (in_status values)) (leaf_meaning request (inCondition r values)).
Proof.
  intros Hwf (first & Hfirst & Hnull & Hkinds)%validateCandidates_kinds. cbn [leaf_meaning]. rewrite Hfirst. simpl.
  destruct values as [|first' values]; [done|]. injection Hfirst as ->.
  apply (value_status_meaning _ _ (kind first) _ (λ got, ∃ candidate, candidate ∈ first :: values ∧ same_value got candidate)); [done..| |];
    intros got _ Hk; unfold in_status, Value_Kind; [by rewrite bool_decide_false|].
  rewrite bool_decide_true by done. simpl negb. cbn iota. apply settles_decided. rewrite existsb_exists.
  setoid_rewrite <- list_elem_of_In.
  split; intros (candidate & Hin & Hc); exists candidate; (split; [done|]);
    (assert (kind got = kind candidate) by (by rewrite (Hkinds candidate Hin))); by apply Value_Equal_same.
Qed.

(** The tests ask for the kinds that the meaning names, and decide it. *)
Lemma leaf_means request c :
  facts_wf request → cond_valid c → (∀ child, c ≠ notCondition child) →
  (∀ cs, c ≠ anyCondition cs) → (∀ cs, c ≠ allCondition cs) →
  meaning_status (cond_status request c) (leaf_meaning request c).
Proof.
  intros Hwf Hc Hnot Hany Hall. assert (validate c = None) as Hv by (by destruct c; destruct Hc). clear Hc. destruct c as [r|r|cs|child|r want op|r values|r value|r value op|r prefix|r want|cs];
    try (by destruct (Hnot child)); try (by destruct (Hany cs)); try (by destruct (Hall cs)); cbn [cond_status leaf_meaning].
  - apply exists_means.
  - apply null_means.
  - apply value_status_meaning; [done|..].
    + intros Hk. simpl in Hv. unfold comparison_validate, Value_Kind in Hv. rewrite Hk in Hv. by destruct (validateReference r).
    + intros got _ Hk. unfold comparison_test, Value_Kind. by rewrite bool_decide_false.
    + intros got _ Hk. unfold comparison_test, Value_Kind. rewrite bool_decide_true by done. simpl.
      destruct (Value_Compare_precedes got want Hk) as [Hlt Hgt]. destruct (Value_Compare got want) as [z b]; simpl in *.
      destruct op; apply settles_decided; by rewrite Z.ltb_lt.
  - apply in_means; [done|]. simpl in Hv. by destruct (validateReference r).
  - apply value_status_meaning; [done|done| |].
    + intros got _ Hk. unfold set_test, Value_StringSet. by rewrite bool_decide_false.
    + intros got. apply set_test_settles.
  - apply value_status_meaning; [done|done| |]; intros got _ Hk; unfold string_test, Value_String.
    + by rewrite bool_decide_false.
    + rewrite bool_decide_true by done. simpl. destruct op; apply settles_decided;
        [apply strings_HasPrefix_spec|apply strings_HasSuffix_spec|apply strings_Contains_spec].
  - apply value_status_meaning; [done|done| |]; intros got _ Hk; unfold ip_test, Value_IP.
    + by rewrite bool_decide_false.
    + rewrite bool_decide_true by done. simpl. by apply settles_decided.
  - apply equal_means.
Qed.

(** What a status says of the truth of a whole condition. *)
Definition status_true (s : Status) (P : Prop) : Prop :=
  match s with StatusMatch => P | StatusNoMatch => ¬ P | _ => True end.

Lemma truth_all request oracle cs : truth request oracle (allCondition cs) ↔
  ∀ child, child ∈ cs → match child with Some c => truth request oracle c | None => False end.
Proof.
  cbn [truth]. induction cs as [|child cs IH]; simpl; [by split; [intros _ ? ?%not_elem_of_nil|]|]. rewrite IH. split.
  - intros [Hc Hcs] child' [->|Hin]%elem_of_cons; [done|by apply Hcs].
  - intros Hcs. split; [apply Hcs; by left|]. intros child' Hin. apply Hcs. by right.
Qed.

Lemma truth_any request oracle cs : truth request oracle (anyCondition cs) ↔
  ∃ child, child ∈ cs ∧ match child with Some c => truth request oracle c | None => False end.
Proof.
  cbn [truth]. induction cs as [|child cs IH]; simpl; [by split; [|intros (? & ?%not_elem_of_nil & _)]|]. rewrite IH. split.
  - intros [Hc|(child' & Hin & Hc)]; [exists child; by split; [left|]|exists child'; by split; [right|]].
  - intros (child' & [->|Hin]%elem_of_cons & Hc); [by left|right; by exists child'].
Qed.

Lemma truth_sound request oracle c :
  facts_wf request → cond_valid c → status_true (cond_status request c) (truth request oracle c).
Proof.
  intros Hwf. induction c as [c Hleaf Hany Hall|cs IH|cs IH|c IH] using Condition_tree_ind; intros Hv.
  - assert (∀ child, c ≠ notCondition child) as Hnot.
    { intros [child|] ->; [done|]. by destruct Hv. }
    pose proof (leaf_means request c Hwf Hv Hnot Hany Hall) as Hm.
    assert (truth request oracle c = default (oracle c) (leaf_meaning request c)) as ->.
    { destruct c as [| |cs|child| | | | | | |cs]; try done; [by destruct (Hany cs)|by destruct (Hnot child)|by destruct (Hall cs)]. }
    destruct (leaf_meaning request c), (cond_status request c); simpl in *; tauto.
  - destruct Hv as [_ Hv]. pose proof (any_status_cases (map (λ child, status_of child request) cs)) as Hs.
    change (cond_status request (anyCondition cs)) with (any_status (map (λ child, status_of child request) cs)).
    destruct (any_status _); cbn [status_true]; rewrite ?truth_any; try done.
    + intros (child & Hin & Ht). destruct (cond_valid_children _ Hv _ Hin) as (c & -> & Hc). specialize (IH c Hin Hc).
      rewrite Forall_forall in Hs.
      assert (StatusNoMatch = cond_status request c) as E by (apply Hs, elem_of_map; by exists (Some c)). by rewrite <- E in IH.
    + apply elem_of_map in Hs as (child & E & Hin). destruct (cond_valid_children _ Hv _ Hin) as (c & -> & Hc).
      specialize (IH c Hin Hc). simpl in E. rewrite <- E in IH. by exists (Some c).
  - destruct Hv as [_ Hv]. pose proof (all_status_cases (map (λ child, status_of child request) cs)) as Hs.
    change (cond_status request (allCondition cs)) with (all_status (map (λ child, status_of child request) cs)).
    destruct (all_status _); cbn [status_true]; rewrite ?truth_all; try done.
    + apply elem_of_map in Hs as (child & E & Hin). destruct (cond_valid_children _ Hv _ Hin) as (c & -> & Hc).
      specialize (IH c Hin Hc). simpl in E. rewrite <- E in IH. intros Ht. by apply IH, (Ht (Some c)).
    + intros child Hin. destruct (cond_valid_children _ Hv _ Hin) as (c & -> & Hc). specialize (IH c Hin Hc).
      rewrite Forall_forall in Hs.
      assert (StatusMatch = cond_status request c) as E by (apply Hs, elem_of_map; by exists (Some c)). by rewrite <- E in IH.
  - destruct Hv as [_ Hv]. cbn [cond_status truth]. specialize (IH Hv). destruct (cond_status request c); simpl in *; tauto.
Qed.

(** C22. Missing, null and ill-typed facts never grant. A leaf means something
    only when the fact it names is there, is not null, and has the kind that
    its operator asks for. When evaluation of a valid condition matches, the
    condition is true whatever is supposed of the leaves that mean nothing,
    and when it reports a plain mismatch it is false for all suppositions; so
    negation never turns an unknown into a match. A leaf that means nothing
    reports neither, and one that means something reports whether it holds. *)
Theorem condition_fail_closed (state : evaluationState) (c : Condition) (cost : Z) (n : nat)
    (r : Result) (cost' : Z) (n' : nat) :
  facts_wf (state_request state) → cond_valid c → evaluate state c cost n = (Ret ((r, None), cost'), n') →
  (∀ oracle, (Result_Matched r = true → truth (state_request state) oracle c) ∧
             (Result_Status r = StatusNoMatch → ¬ truth (state_request state) oracle c)) ∧
  (Result_Matched r = true ↔ Result_Status r = StatusMatch) ∧
  ((∀ child, c ≠ notCondition child) → (∀ cs, c ≠ anyCondition cs) → (∀ cs, c ≠ allCondition cs) →
   meaning_status (Result_Status r) (leaf_meaning (state_request state) c)).
Proof.
  intros Hwf Hv E. destruct (evaluate_evaluates state c Hv cost n) as (r' & err & c1 & n1 & E' & _ & _ & Hr).
  rewrite E in E'. simplify_eq. split_and!; [|simpl; apply bool_decide_eq_true|by intros; apply leaf_means].
  intros oracle. pose proof (truth_sound (state_request state) oracle c Hwf Hv) as Hs.
  destruct (cond_status (state_request state) c); simpl in *; by split.
Qed.

(** The clearance is a string where a number is asked for, also under [Not]. *)
Definition ill_typed : list (string * Value) := [("department", StringValue "eng"); ("clearance", StringValue "high")].

Lemma ill_typed_wf : facts_wf (facts_request ill_typed).
Proof.
  intros [[] name] v; unfold fact; simpl; try done. unfold attributes_lookup. simpl. intros E.
  destruct (decide (name = "department")) as [->|]; [vm_compute in E; by injection E as <-|].
  destruct (decide (name = "clearance")) as [->|]; [vm_compute in E; by injection E as <-|].
  by rewrite !lookup_insert_ne in E by done.
Qed.

Lemma condition_fail_closed_witness :
  ∃ r cost' n', evaluate (example_state ill_typed) example_condition 0 0%nat = (Ret ((r, None), cost'), n') ∧
    Result_Matched r = false ∧ Result_Status r = StatusTypeMismatch ∧
    (∀ oracle, Result_Matched r = true → truth (facts_request ill_typed) oracle example_condition).
Proof.
  eexists _, _, _. split; [vm_compute; reflexivity|]. split; [reflexivity|]. split; [reflexivity|]. intros oracle.
  apply (condition_fail_closed (example_state ill_typed) example_condition 0 0%nat
    _ _ _ ill_typed_wf ltac:(by repeat split) ltac:(vm_compute; reflexivity)).
Defined.

(** *** Leaves *)

(** The leaf operators decide what they name: on a well-formed set
    [SetContains] (a binary search) is membership; the string operators are
    the existence of the surrounding strings; [IPIn], which masks its prefix
    when built, accepts the addresses of the unmasked prefix. *)
Theorem leaf_semantics (got : Value) (s : string) (prefix : Prefix) :
  Value_wf got →
  (Value_Kind got = ValueStringSet → Result_Matched (set_test s got) = true ↔ s ∈ setVal got) ∧
  (Value_Kind got = ValueString →
     (Result_Matched (string_test s stringPrefix got) = true ↔ ∃ t, stringVal got = s +:+ t) ∧
     (Result_Matched (string_test s stringSuffix got) = true ↔ ∃ t, stringVal got = t +:+ s) ∧
     (Result_Matched (string_test s stringContains got) = true ↔ ∃ t u, stringVal got = t +:+ s +:+ u)) ∧
  (Value_Kind got = ValueIP → prefix_ok prefix → addr_ok (ipVal got) →
     Result_Matched (ip_test (prefix_Masked prefix) got) = prefix_Contains prefix (ipVal got)).
Proof.
  intros Hwf. split_and!.
  - intros Hk. unfold Value_Kind in Hk. unfold set_test, Value_StringSet. rewrite Hk. simpl.
    unfold Value_wf in Hwf. rewrite Hk in Hwf. destruct Hwf as [_ Hs].
    destruct (sort_SearchStrings_total (setVal got) s (strictly_sorted_le _ Hs)) as (i & -> & _ & Hi).
    rewrite <- Hi. case_bool_decide; by split.
  - intros Hk. unfold Value_Kind in Hk. unfold string_test, Value_String. rewrite Hk. simpl.
    rewrite !decided_matched, strings_HasPrefix_spec, strings_HasSuffix_spec, strings_Contains_spec. done.
  - intros Hk Hp Ha. unfold Value_Kind in Hk. unfold ip_test, Value_IP. rewrite Hk. simpl.
    by rewrite decided_matched, prefix_Masked_Contains.
Qed.

Lemma leaf_semantics_witness :
  Result_Matched (set_test "b" (StringSetValue ["c"; "b"; "a"; "b"])) = true ∧
  "b" ∈ setVal (StringSetValue ["c"; "b"; "a"; "b"]).
Proof.
  assert (Value_wf (StringSetValue ["c"; "b"; "a"; "b"])) as Hwf.
  { split; [reflexivity|]. change (strictly_sorted ["a"; "b"; "c"]).
    repeat constructor; done. }
  split; [vm_compute; reflexivity|].
  apply (leaf_semantics _ "b" (mkPrefix AddrZero 0) Hwf); vm_compute; reflexivity.
Defined.
