(* ===== verification/ABAC.v ===== *)
(** * Attribute-based access control (abac/abac.go)

    Module [abac] is the package: [New] resolves named conditions, validates
    and sorts the rules; [Evaluate] evaluates the conditions of the rules in
    scope with one shared cost counter and lets denies override. *)

From S2P Require Import Prelude Attribute Request Decision Snapshot Engine Matching Conditions.

#[local] Open Scope Z_scope.

Module abac.

(** ** Data *)

Definition ErrInvalidRule := errors_New "invalid ABAC rule".
Definition ErrRuleLimitExceeded := errors_New "ABAC rule limit exceeded".
Definition ErrMatchLimitExceeded := errors_New "ABAC match limit exceeded".
Definition ErrBatchLimitExceeded := errors_New "ABAC batch limit exceeded".
Definition ErrUnknownNamedCondition := errors_New "unknown named ABAC condition".
Definition ErrDuplicateNamedCondition := errors_New "duplicate named ABAC condition".

Definition ReasonAllow : ReasonCode := "abac-allow".
Definition ReasonExplicitDeny : ReasonCode := "abac-explicit-deny".
Definition ReasonLimitExceeded : ReasonCode := "abac-limit-exceeded".

Record Rule := mkRule {
  Rule_ID : PolicyID;
  Rule_Priority : Z;
  Rule_Tenant : TenantID;
  Rule_Action : Action;
  Rule_ResourceType : ResourceType;
  Rule_ResourceID : ResourceID;
  Rule_Effect : Outcome;
  Rule_Condition : option Condition;
  Rule_ConditionName : string;
  Rule_ConditionVersion : Z
}.

Record NamedCondition := mkNamedCondition {
  Named_Name : string;
  Named_Version : Z;
  Named_Condition : option Condition
}.

Record Limits := mkLimits {
  MaxRules : Z;
  MaxDepth : Z;
  MaxCost : Z;
  MaxMatches : Z;
  MaxSetSize : Z;
  MaxBatchSize : Z;
  MaxNamedConditions : Z
}.

Record Evaluator := mkABACEvaluator {
  rules : list Rule;
  limits : Limits
}.

Definition Option := Evaluator → Evaluator.

Definition zero_limits : Limits := mkLimits 0 0 0 0 0 0 0.

Definition default_limits : Limits := mkLimits 1000 32 1000 100 1000 1000 1000.

(** ** Construction *)

Definition WithLimits (ls : Limits) : Option := λ evaluator,
  let current := limits evaluator in
  mkABACEvaluator (rules evaluator)
    (mkLimits (positive_or (MaxRules ls) (MaxRules current))
              (positive_or (MaxDepth ls) (MaxDepth current))
              (positive_or (MaxCost ls) (MaxCost current))
              (positive_or (MaxMatches ls) (MaxMatches current))
              (positive_or (MaxSetSize ls) (MaxSetSize current))
              (positive_or (MaxBatchSize ls) (MaxBatchSize current))
              (positive_or (MaxNamedConditions ls) (MaxNamedConditions current))).

Definition normalizedLimits (ls : Limits) : Limits :=
  limits (WithLimits ls (mkABACEvaluator [] default_limits)).

(** The loop of [validateConditionLimits]; the head of the list is the top of
    the stack. A nil condition on the stack panics. *)
Fixpoint validate_loop (fuel : nat) (ls : Limits) (stack : list (option Condition * Z)) (cardinality : Z) :
    Go (option error) :=
  match stack with
  | [] => Ret None
  | (current, depth) :: stack =>
      match fuel with
      | O => Ret (Some diverged)
      | S fuel =>
          if MaxDepth ls <? depth then Ret (Some ErrDepthExceeded)
          else match current with
          | None => Panic
          | Some condition =>
              match validate condition with
              | Some err => Ret (Some err)
              | None =>
                  let stack := map (λ child, (child, depth + 1)) (conditionChildren condition) ++ stack in
                  let localCardinality := conditionLocalCardinality condition in
                  if MaxSetSize ls - cardinality <? localCardinality then Ret (Some ErrSetLimitExceeded)
                  else validate_loop fuel ls stack (cardinality + localCardinality)
              end
          end
      end
  end.

(** One iteration per node of the tree. *)
Definition validateConditionLimits (condition : Condition) (ls : Limits) : Go (option error) :=
  validate_loop (Z.to_nat (cond_size condition)) ls [(Some condition, 1)] 0.

(** The loop of [New] over the named conditions. *)
Fixpoint named_loop (ls : Limits) (index : nat) (named : gmap (string * Z) Condition)
    (definitions : list NamedCondition) : Go (result (gmap (string * Z) Condition)) :=
  match definitions with
  | [] => Ret (Ok named)
  | definition :: definitions =>
      let args := [FmtString (Named_Name definition); FmtInt (Named_Version definition)] in
      match Named_Condition definition with
      | None => Ret (Err (fmt_Errorf "named condition %d: %w" [FmtInt (Z.of_nat index)] ErrInvalidCondition))
      | Some condition =>
          if bool_decide (Named_Name definition = "") || (Named_Version definition =? 0) then
            Ret (Err (fmt_Errorf "named condition %d: %w" [FmtInt (Z.of_nat index)] ErrInvalidCondition))
          else
            let key := (Named_Name definition, Named_Version definition) in
            if bool_decide (is_Some (named !! key)) then
              Ret (Err (fmt_Errorf "named condition %q version %d: %w" args ErrDuplicateNamedCondition))
            else
              err ← validateConditionLimits condition ls;
              match err with
              | Some err => Ret (Err (fmt_Errorf "named condition %q version %d: %w" args err))
              | None => named_loop ls (S index) (<[key := condition]> named) definitions
              end
      end
  end.

(** The condition a rule ends up with: its own, or the named one. *)
Definition resolve_condition (named : gmap (string * Z) Condition) (index : nat) (rule : Rule) :
    result (option Condition) :=
  if negb (bool_decide (Rule_ConditionName rule = "")) then
    if bool_decide (is_Some (Rule_Condition rule)) || (Rule_ConditionVersion rule =? 0) then
      Err (fmt_Errorf "rule %d: %w" [FmtInt (Z.of_nat index)] ErrInvalidRule)
    else match named !! (Rule_ConditionName rule, Rule_ConditionVersion rule) with
    | None => Err (fmt_Errorf "rule %q: %w" [FmtString (Rule_ID rule)] ErrUnknownNamedCondition)
    | Some condition => Ok (Some condition)
    end
  else if negb (Rule_ConditionVersion rule =? 0) then
    Err (fmt_Errorf "rule %d: %w" [FmtInt (Z.of_nat index)] ErrInvalidRule)
  else Ok (Rule_Condition rule).

Definition with_condition (rule : Rule) (condition : option Condition) : Rule :=
  mkRule (Rule_ID rule) (Rule_Priority rule) (Rule_Tenant rule) (Rule_Action rule) (Rule_ResourceType rule)
    (Rule_ResourceID rule) (Rule_Effect rule) condition (Rule_ConditionName rule) (Rule_ConditionVersion rule).

Definition rule_fields_invalid (rule : Rule) : bool :=
  bool_decide (Rule_ID rule = "") || bool_decide (Rule_Action rule = "") ||
  bool_decide (Rule_ResourceType rule = "") ||
  (negb (bool_decide (Rule_Effect rule = Allow)) && negb (bool_decide (Rule_Effect rule = Deny))).

(** The loop of [New] over the rules: returns them with their conditions. *)
Fixpoint rule_loop (ls : Limits) (named : gmap (string * Z) Condition) (index : nat) (ruleIDs : gset string)
    (rs : list Rule) : Go (result (list Rule)) :=
  match rs with
  | [] => Ret (Ok [])
  | rule :: rs =>
      match resolve_condition named index rule with
      | Err err => Ret (Err err)
      | Ok None => Ret (Err (fmt_Errorf "rule %d: %w" [FmtInt (Z.of_nat index)] ErrInvalidRule))
      | Ok (Some condition) =>
          if rule_fields_invalid rule then
            Ret (Err (fmt_Errorf "rule %d: %w" [FmtInt (Z.of_nat index)] ErrInvalidRule))
          else if bool_decide (Rule_ID rule ∈ ruleIDs) then
            Ret (Err (fmt_Errorf "rule %q: %w" [FmtString (Rule_ID rule)] ErrInvalidRule))
          else
            err ← validateConditionLimits condition ls;
            match err with
            | Some err => Ret (Err (fmt_Errorf "rule %q: %w" [FmtString (Rule_ID rule)] err))
            | None =>
                rest ← rule_loop ls named (S index) ({[Rule_ID rule]} ∪ ruleIDs) rs;
                Ret (rest ← rest; Ok (with_condition rule (Some condition) :: rest))
            end
      end
  end.

(** The comparison of [slices.SortFunc]. *)
Definition compare_rules (left right : Rule) : Z :=
  let priority := cmp_Compare_int (Rule_Priority right) (Rule_Priority left) in
  if negb (priority =? 0) then priority else cmp_Compare_string (Rule_ID left) (Rule_ID right).

Definition New (rs : list Rule) (namedConditions : list NamedCondition) (options : list Option) :
    Go (result Evaluator) :=
  let evaluator := foldl (λ evaluator option, option evaluator)
                     (mkABACEvaluator [] (normalizedLimits zero_limits)) options in
  let ls := limits evaluator in
  if MaxRules ls <? len rs then Ret (Err ErrRuleLimitExceeded)
  else if MaxNamedConditions ls <? len namedConditions then Ret (Err ErrRuleLimitExceeded)
  else
    named ← named_loop ls 0 ∅ namedConditions;
    match named with
    | Err err => Ret (Err err)
    | Ok named =>
        resolved ← rule_loop ls named 0 ∅ rs;
        Ret (resolved ← resolved; Ok (mkABACEvaluator (SortFunc compare_rules resolved) ls))
    end.

(** ** Evaluate *)

#[global] Instance rule_matched : Matched Rule := {|
  match_effect := Rule_Effect;
  match_id := Rule_ID;
  match_allow := ReasonAllow;
  match_deny := ReasonExplicitDeny
|}.

(** The condition of the [continue] of the rule loop. *)
Definition out_of_scope (request : Request) (rule : Rule) : bool :=
  negb (bool_decide (Rule_Tenant rule = Request_Tenant request)) ||
  negb (bool_decide (Rule_Action rule = Request_Action request)) ||
  negb (bool_decide (Rule_ResourceType rule = Resource_Type (Request_Resource request))) ||
  (negb (bool_decide (Rule_ResourceID rule = "")) &&
   negb (bool_decide (Rule_ResourceID rule = Resource_ID (Request_Resource request)))).

Definition limitDecision : Decision := bareDecision Deny ReasonLimitExceeded 0.

Fixpoint rules_loop (ls : Limits) (state : evaluationState) (decision : Decision) (rs : list Rule) :
    Eval (Decision * option error) :=
  match rs with
  | [] => mret (decision, None)
  | rule :: rs =>
      if out_of_scope (state_request state) rule then rules_loop ls state decision rs
      else
        '(result, err) ← evaluate_child (evaluate state) (Rule_Condition rule);
        match err with
        | Some err =>
            let reason :=
              if errors_Is err context_Canceled || errors_Is err context_DeadlineExceeded
              then ReasonContextCanceled else ReasonLimitExceeded in
            mret (bareDecision Deny reason 0, Some err)
        | None =>
            if Result_Matched result then
              if MaxMatches ls <=? len (Decision_MatchedPolicyIDs decision)
              then mret (limitDecision, Some ErrMatchLimitExceeded)
              else rules_loop ls state (add_match decision rule) rs
            else rules_loop ls state decision rs
        end
  end.

Definition Evaluate (evaluator : Evaluator) (ctx : Context) (request : Request) : M (Decision * option error) :=
  let state := mkEvaluationState ctx request (MaxCost (limits evaluator)) (MaxSetSize (limits evaluator)) in
  '(r, _) ← rules_loop (limits evaluator) state (bareDecision NotApplicable "" 0) (rules evaluator) 0;
  mret r.

(** The evaluator as an implementation of [authorization.Evaluator]. *)
Definition as_evaluator (evaluator : Evaluator) : Snapshot.Evaluator := mkEvaluator (Evaluate evaluator).

Definition EvaluateBatch (evaluator : Evaluator) (ctx : Context) (requests : list Request) :
    M (list Decision * option error) :=
  if MaxBatchSize (limits evaluator) <? len requests
  then mret ([], Some ErrBatchLimitExceeded)
  else
    '(decisions, evaluationErrors) ← batch_loop (Evaluate evaluator ctx) requests;
    mret (decisions, errors_Join (Some <$> evaluationErrors)).

(** ** EvaluateCondition *)

Definition EvaluateCondition (ctx : Context) (condition : option Condition) (request : Request) (ls : Limits) :
    M (Result * option error) :=
  match condition with
  | None => mret (zeroResult, Some ErrInvalidCondition)
  | Some condition =>
      let ls := normalizedLimits ls in
      err ← go_call (validateConditionLimits condition ls);
      match err with
      | Some err => mret (zeroResult, Some err)
      | None =>
          let state := mkEvaluationState ctx request (MaxCost ls) (MaxSetSize ls) in
          '((result, err), cost) ← evaluate state condition 0;
          mret (mkResult (Result_Matched result) (Result_Status result) cost, err)
      end
  end.

(** ** Validation of condition trees *)

(** Facts of a tree in terms of the children of its root. *)
Lemma cond_size_children c : cond_size c = 1 + sizes (conditionChildren c).
Proof. destruct c as [| |cs|[c|]| | | | | | |cs]; simpl; try done. lia. Qed.

Definition child_depth (child : option Condition) : Z := match child with Some c => cond_depth c | None => 0 end.

Definition depths (cs : list (option Condition)) : Z := foldr (λ child acc, Z.max (child_depth child) acc) 0 cs.

Lemma depths_nonneg cs : 0 ≤ depths cs.
Proof. induction cs as [|child cs IH]; simpl; lia. Qed.

Lemma cond_depth_pos c : 1 ≤ cond_depth c.
Proof.
  induction c as [c Hleaf Hany Hall|cs IH|cs IH|c IH] using Condition_tree_ind.
  - destruct c as [| |cs|[c|]| | | | | | |cs]; simpl; try done; [by destruct (Hany cs)|by destruct (Hall cs)].
  - simpl. fold (child_depth) (depths cs). pose proof (depths_nonneg cs). unfold depths, child_depth in *. lia.
  - simpl. pose proof (depths_nonneg cs). unfold depths, child_depth in *. lia.
  - simpl. lia.
Qed.

Lemma cond_depth_children c : cond_depth c = 1 + depths (conditionChildren c).
Proof.
  destruct c as [| |cs|[c|]| | | | | | |cs]; simpl; try done. pose proof (cond_depth_pos c). lia.
Qed.

Definition child_cardinality (child : option Condition) : Z :=
  match child with Some c => cond_cardinality c | None => 0 end.

Definition cardinalities (cs : list (option Condition)) : Z :=
  foldr (λ child acc, child_cardinality child + acc) 0 cs.

Lemma cond_cardinality_children c :
  cond_cardinality c = conditionLocalCardinality c + cardinalities (conditionChildren c).
Proof. destruct c as [| |cs|[c|]| | | | | | |cs]; simpl; try done. lia. Qed.

Lemma localCardinality_nonneg c : 0 ≤ conditionLocalCardinality c.
Proof.
  destruct c; simpl; try done; [apply len_nonneg|].
  destruct (Value_StringSet want) as [set []]; [apply len_nonneg|done].
Qed.

Lemma cond_cardinality_nonneg c : 0 ≤ cond_cardinality c.
Proof.
  assert (∀ cs, (∀ c, Some c ∈ cs → 0 ≤ cond_cardinality c) → 0 ≤ cardinalities cs) as Hcs.
  { induction cs as [|[c'|] cs IH]; intros H; simpl; [done|..].
    - assert (0 ≤ cond_cardinality c') by (apply H; by left).
      assert (0 ≤ cardinalities cs) by (apply IH; intros; apply H; by right). lia.
    - apply IH. intros. apply H. by right. }
  induction c as [c Hleaf Hany Hall|cs IH|cs IH|c IH] using Condition_tree_ind; rewrite cond_cardinality_children.
  - rewrite Hleaf. simpl. pose proof (localCardinality_nonneg c). lia.
  - simpl. by apply Hcs.
  - simpl. by apply Hcs.
  - simpl. lia.
Qed.

Lemma cardinalities_nonneg cs : 0 ≤ cardinalities cs.
Proof.
  induction cs as [|[c|] cs IH]; simpl; [done| |done]. pose proof (cond_cardinality_nonneg c). lia.
Qed.

Lemma cond_valid_unfold c :
  cond_valid c ↔ validate c = None ∧ ∀ child, child ∈ conditionChildren c → ∃ c', child = Some c' ∧ cond_valid c'.
Proof.
  assert (∀ cs, (∀ child, child ∈ cs → ∃ c', child = Some c' ∧ cond_valid c') →
    foldr (λ child acc, match child with Some c => cond_valid c | None => False end ∧ acc) True cs) as Hfold.
  { induction cs as [|child cs IH]; intros H; simpl; [done|].
    destruct (H child ltac:(by left)) as (c' & -> & Hc'). split; [done|]. apply IH. intros. apply H. by right. }
  split.
  - intros Hv. destruct c as [| |cs|[c|]| | | | | | |cs]; simpl in *; destruct Hv as [? Hv]; (split; [done|]);
      try (by intros child ?%not_elem_of_nil); try by apply cond_valid_children.
  - intros [Hv Hch]. destruct c as [| |cs|[c|]| | | | | | |cs]; simpl in *; (split; [done|]); try done; try by apply Hfold.
    destruct (Hch (Some c) ltac:(by left)) as (c' & ? & ?). by simplify_eq.
Qed.

(** A node that passes its own validation has no nil child. *)
Lemma validate_children c : validate c = None → ∀ child, child ∈ conditionChildren c → is_Some child.
Proof.
  assert (∀ cs, validateChildren cs = None → ∀ child, child ∈ cs → is_Some child) as Hcs.
  { intros cs Hv child Hin. destruct child; [done|]. exfalso. unfold validateChildren in Hv.
    destruct cs as [|x cs]; [done|].
    destruct (existsb (λ child, bool_decide (child = None)) (x :: cs)) eqn:E; [done|].
    apply not_true_iff_false in E. apply E, existsb_exists. exists None. split; [by apply list_elem_of_In|done]. }
  intros Hv child Hin. destruct c as [| |cs|[c|]| | | | | | |cs]; simpl in *;
    try (by apply not_elem_of_nil in Hin); try by eapply Hcs.
  by apply list_elem_of_singleton in Hin as ->.
Qed.

(** The stack of the loop, as a requirement on the trees it holds. *)
Definition frame_ok (ls : Limits) (frame : option Condition * Z) : Prop :=
  ∃ c, frame.1 = Some c ∧ cond_valid c ∧ frame.2 - 1 + cond_depth c ≤ MaxDepth ls.

Definition stack_size (stack : list (option Condition * Z)) : Z := sizes stack.*1.

Lemma frames_children ls c depth :
  validate c = None → depth ≤ MaxDepth ls →
  frame_ok ls (Some c, depth) ↔
  Forall (frame_ok ls) (map (λ child, (child, depth + 1)) (conditionChildren c)).
Proof.
  intros Hv Hd. rewrite Forall_forall. setoid_rewrite elem_of_map. unfold frame_ok; simpl.
  assert (∀ cs, depth + depths cs ≤ MaxDepth ls ↔ ∀ child, child ∈ cs → depth + child_depth child ≤ MaxDepth ls) as Hdep.
  { induction cs as [|child cs IH]; simpl; [split; [by intros _ child ?%not_elem_of_nil|lia]|].
    split.
    - intros H child' [->|?]%elem_of_cons; [lia|]. apply IH; [lia|done].
    - intros H. assert (depth + child_depth child ≤ MaxDepth ls) by (apply H; by left).
      assert (depth + depths cs ≤ MaxDepth ls) by (apply IH; intros; apply H; by right). lia. }
  split.
  - intros (c' & ? & [_ Hch]%cond_valid_unfold & Hle) [x d] (child & ? & Hin). simplify_eq. simpl.
    destruct (Hch child Hin) as (c'' & -> & Hc''). exists c''. split_and!; [done|done|].
    rewrite cond_depth_children in Hle. specialize (proj1 (Hdep (conditionChildren c')) ltac:(lia) _ Hin). simpl. lia.
  - intros H. exists c. split_and!; [done| |].
    + apply cond_valid_unfold. split; [done|]. intros child Hin.
      destruct (H (child, depth + 1)) as (c' & ? & ? & _); [by exists child|]. by exists c'.
    + rewrite cond_depth_children. assert (depth + depths (conditionChildren c) ≤ MaxDepth ls); [|lia].
      apply Hdep. intros child Hin. destruct (H (child, depth + 1)) as (c' & E & _ & Hle); [by exists child|].
      simpl in *. subst child. simpl. lia.
Qed.

Lemma validate_error c e : validate c = Some e → e = ErrInvalidCondition.
Proof.
  assert (∀ r e, validateReference r = Some e → e = ErrInvalidCondition) as Hr.
  { intros r e'. unfold validateReference. destruct (_ || _); by intros [= <-]. }
  assert (∀ cs e, validateChildren cs = Some e → e = ErrInvalidCondition) as Hc.
  { intros cs e'. unfold validateChildren. destruct cs; [by intros [= <-]|]. destruct (existsb _ _); by intros [= <-]. }
  destruct c as [r|r|cs|[c|]|r w o|r vs|r v|r v o|r p|r w|cs]; simpl; try by eauto.
  - by intros [= <-].
  - unfold comparison_validate.
    destruct (validateReference r) eqn:E; [intros [= <-]; by eapply Hr|]. destruct (Value_Kind w); by intros [= <-].
  - destruct (validateReference r) eqn:E; [by intros [= <-]|]. unfold validateCandidates.
    destruct vs; [by intros [= <-]|]. destruct (_ || _); [by intros [= <-]|]. destruct (existsb _ _); by intros [= <-].
  - destruct (negb _); [by intros [= <-]|by eauto].
  - unfold equal_validate.
    destruct (validateReference r) eqn:E; [intros [= <-]; by eapply Hr|]. destruct (bool_decide _); by intros [= <-].
Qed.

Definition limit_errors : list error := [ErrDepthExceeded; ErrInvalidCondition; ErrSetLimitExceeded].

Lemma sizes_app cs1 cs2 : sizes (cs1 ++ cs2) = sizes cs1 + sizes cs2.
Proof. induction cs1 as [|child cs1 IH]; simpl; [done|]. rewrite IH. lia. Qed.

Lemma cardinalities_app cs1 cs2 : cardinalities (cs1 ++ cs2) = cardinalities cs1 + cardinalities cs2.
Proof. induction cs1 as [|child cs1 IH]; simpl; [done|]. rewrite IH. lia. Qed.

Lemma push_fst (depth : Z) (cs : list (option Condition)) : (map (λ child, (child, depth)) cs).*1 = cs.
Proof. induction cs as [|child cs IH]; [done|]. exact (f_equal (cons child) IH). Qed.

(** The loop never runs out of fuel: the nodes on the stack bound it. *)
Lemma validate_loop_spec fuel ls (stack : list (option Condition * Z)) cardinality :
  Forall (λ frame, is_Some frame.1) stack → stack_size stack ≤ Z.of_nat fuel → cardinality ≤ MaxSetSize ls →
  ∃ err, validate_loop fuel ls stack cardinality = Ret err ∧ (∀ e, err = Some e → e ∈ limit_errors) ∧
    (err = None ↔ Forall (frame_ok ls) stack ∧ cardinality + cardinalities stack.*1 ≤ MaxSetSize ls).
Proof.
  revert stack cardinality. induction fuel as [|fuel IH]; intros [|[[c|] depth] stack] cardinality Hsome Hfuel Hcard.
  1, 4: exists None; split_and!; [done..|simpl; split; [intros _; split; [constructor|lia]|done]].
  2, 4: by apply Forall_cons in Hsome as [[? ?] _].
  all: apply Forall_cons in Hsome as [_ Hsome]; change (stack_size ((Some c, depth) :: stack)) with (cond_size c + sizes stack.*1) in Hfuel;
    pose proof (cond_size_pos c) as Hpos; pose proof (sizes_nonneg stack.*1) as Hnn.
  { lia. }
  cbn [validate_loop]. setoid_rewrite Forall_cons. 
  change (cardinalities ((Some c, depth) :: stack).*1) with (cond_cardinality c + cardinalities stack.*1).
  pose proof (cardinalities_nonneg stack.*1) as Hcs. pose proof (cond_cardinality_nonneg c) as Hcx.
  destruct (Z.ltb_spec (MaxDepth ls) depth) as [Hd|Hd].
  { eexists. split; [done|]. split; [intros e [= <-]; by left|]. split; [done|].
    intros [[(c' & ? & _ & Hle) _] _]. simpl in *. simplify_eq. pose proof (cond_depth_pos c'). lia. }
  destruct (validate c) as [e|] eqn:Hv.
  { eexists. split; [done|]. split; [pose proof (validate_error _ _ Hv) as ->; intros ? [= <-]; by right; left|]. split; [done|].
    intros [[(c' & ? & Hval & _) _] _]. simpl in *. simplify_eq. apply cond_valid_unfold in Hval as [? _]. congruence. }
  setoid_rewrite (frames_children ls c depth Hv Hd). rewrite cond_cardinality_children.
  pose proof (cardinalities_nonneg (conditionChildren c)) as Hcc.
  destruct (Z.ltb_spec (MaxSetSize ls - cardinality) (conditionLocalCardinality c)) as [Hl|Hl].
  { eexists. split; [done|]. split; [intros ? [= <-]; by right; right; left|]. split; [done|]. lia. }
  destruct (IH (map (λ child, (child, depth + 1)) (conditionChildren c) ++ stack)
    (cardinality + conditionLocalCardinality c)) as (err & E & Herr & Hiff).
  - apply Forall_app. split; [|done]. apply Forall_forall. intros frame (child & -> & Hin)%elem_of_map.
    by eapply validate_children.
  - unfold stack_size. rewrite fmap_app, push_fst, sizes_app. rewrite cond_size_children in Hfuel. lia.
  - lia.
  - exists err. split; [done|]. split; [done|]. rewrite Hiff, Forall_app, fmap_app, push_fst, cardinalities_app.
    split; intros [[? ?] ?]; (split; [done|lia]).
Qed.

(** A condition is admitted when every node is valid and the tree respects
    the depth and literal cardinality limits. *)
Definition admitted (ls : Limits) (c : Condition) : Prop :=
  cond_valid c ∧ cond_depth c ≤ MaxDepth ls ∧ cond_cardinality c ≤ MaxSetSize ls.

Lemma validateConditionLimits_cases c ls :
  0 ≤ MaxSetSize ls →
  ∃ err, validateConditionLimits c ls = Ret err ∧ (∀ e, err = Some e → e ∈ limit_errors) ∧
    (err = None ↔ admitted ls c).
Proof.
  intros Hls. unfold validateConditionLimits. pose proof (cond_size_pos c).
  destruct (validate_loop_spec (Z.to_nat (cond_size c)) ls [(Some c, 1)] 0) as (err & E & Herr & Hiff).
  - by repeat constructor.
  - unfold stack_size. simpl. lia.
  - done.
  - exists err. split; [done|]. split; [done|]. rewrite Hiff, Forall_singleton. unfold frame_ok, admitted. simpl.
    split.
    + intros [(c' & ? & ? & ?) ?]. simplify_eq. split_and!; [done|lia|lia].
    + intros (? & ? & ?). split; [exists c; split_and!; [done|done|lia]|lia].
Qed.

(** ** Construction *)

Definition named_key (definition : NamedCondition) : string * Z := (Named_Name definition, Named_Version definition).

Definition named_ok (ls : Limits) (definition : NamedCondition) : Prop :=
  Named_Name definition ≠ "" ∧ Named_Version definition ≠ 0 ∧
  ∃ c, Named_Condition definition = Some c ∧ admitted ls c.

(** The condition a rule is given: embedded, or found by name and version. *)
Definition resolves (definitions : list NamedCondition) (rule : Rule) (c : Condition) : Prop :=
  (Rule_ConditionName rule = "" ∧ Rule_ConditionVersion rule = 0 ∧ Rule_Condition rule = Some c) ∨
  (Rule_ConditionName rule ≠ "" ∧ Rule_ConditionVersion rule ≠ 0 ∧ Rule_Condition rule = None ∧
   ∃ definition, definition ∈ definitions ∧
     named_key definition = (Rule_ConditionName rule, Rule_ConditionVersion rule) ∧
     Named_Condition definition = Some c).

Definition rule_ok (ls : Limits) (definitions : list NamedCondition) (rule resolved : Rule) : Prop :=
  Rule_ID rule ≠ "" ∧ Rule_Action rule ≠ "" ∧ Rule_ResourceType rule ≠ "" ∧ decisive_effect rule ∧
  ∃ c, resolves definitions rule c ∧ admitted ls c ∧ resolved = with_condition rule (Some c).

Lemma named_loop_spec ls index acc definitions :
  0 ≤ MaxSetSize ls →
  ∃ r, named_loop ls index acc definitions = Ret r ∧
    match r with
    | Ok m =>
        Forall (named_ok ls) definitions ∧ NoDup (named_key <$> definitions) ∧
        (∀ d, d ∈ definitions → acc !! named_key d = None) ∧
        (∀ k c, m !! k = Some c ↔ acc !! k = Some c ∨
          ∃ d, d ∈ definitions ∧ named_key d = k ∧ Named_Condition d = Some c)
    | Err _ =>
        ¬ (Forall (named_ok ls) definitions ∧ NoDup (named_key <$> definitions) ∧
           ∀ d, d ∈ definitions → acc !! named_key d = None)
    end.
Proof.
  intros Hls. revert index acc. induction definitions as [|d definitions IH]; intros index acc; simpl.
  { eexists. split; [done|]. split_and!; [by apply Forall_nil|by apply NoDup_nil|set_solver..]. }
  destruct (Named_Condition d) as [c|] eqn:Ec.
  2: { eexists. split; [done|]. intros [[(_ & _ & c & ? & _) _]%Forall_cons _]. congruence. }
  destruct (bool_decide (Named_Name d = "") || (Named_Version d =? 0)) eqn:Eb.
  { eexists. split; [done|]. intros [[(? & ? & _) _]%Forall_cons _]. reflect_bools. destruct Eb; reflect_bools; done. }
  reflect_bools. change (Named_Name d, Named_Version d) with (named_key d).
  case_bool_decide as Edup.
  { eexists. split; [done|]. intros (_ & _ & Hfresh). destruct Edup as [? E]. rewrite Hfresh in E; [done|by left]. }
  apply eq_None_not_Some in Edup.
  destruct (validateConditionLimits_cases c ls Hls) as (err & Ev & _ & Hadm). rewrite Ev. simpl.
  destruct err as [e|].
  { eexists. split; [done|]. intros [[(_ & _ & c' & ? & Ha) _]%Forall_cons _]. simplify_eq. by apply Hadm in Ha. }
  destruct (IH (S index) (<[named_key d := c]> acc)) as (r & E & Hr). exists r. split; [done|].
  assert (named_ok ls d) as Hd by (split_and!; [done|done|exists c; split; [done|by apply Hadm]]).
  destruct r as [m|e].
  - destruct Hr as (Hok & Hnd & Hfresh & Hm). split_and!.
    + by constructor.
    + csimpl. constructor; [|done]. intros (d' & E' & Hd')%list_elem_of_fmap. apply Hfresh in Hd'.
      by rewrite E', lookup_insert_eq in Hd'.
    + intros d' [->|Hd']%elem_of_cons; [done|]. by apply Hfresh, lookup_insert_None in Hd' as [? _].
    + intros k c'. rewrite Hm, lookup_insert_Some. setoid_rewrite elem_of_cons. naive_solver.
  - intros ([_ ?]%Forall_cons & Hnd & Hfresh). csimpl in Hnd. apply NoDup_cons in Hnd as [Hnew Hnd]. apply Hr.
    split_and!; [done|done|]. intros d' Hd'. apply lookup_insert_None. split; [apply Hfresh; by right|].
    intros E'. apply Hnew. rewrite E'. by apply list_elem_of_fmap_2.
Qed.

Definition represents (named : gmap (string * Z) Condition) (definitions : list NamedCondition) : Prop :=
  ∀ k c, named !! k = Some c ↔ ∃ d, d ∈ definitions ∧ named_key d = k ∧ Named_Condition d = Some c.

Lemma resolve_condition_spec named definitions index rule c :
  represents named definitions →
  resolve_condition named index rule = Ok (Some c) ↔ resolves definitions rule c.
Proof.
  intros Hm. unfold resolve_condition, resolves. case_bool_decide as En; simpl.
  - destruct (Z.eqb_spec (Rule_ConditionVersion rule) 0) as [Ev|Ev]; simpl.
    + split; [intros [= E]; by left|]. intros [(_ & _ & ->)|(? & _)]; done.
    + split; [done|]. intros [(_ & ? & _)|(? & _)]; done.
  - destruct (Rule_Condition rule) as [c'|] eqn:Ec; simpl.
    { split; [done|]. intros [(? & _)|(_ & _ & ? & _)]; done. }
    destruct (Z.eqb_spec (Rule_ConditionVersion rule) 0) as [Ev|Ev]; simpl.
    { split; [done|]. intros [(? & _)|(_ & ? & _)]; done. }
    destruct (named !! _) as [c'|] eqn:El.
    + split.
      * intros [= <-]. right. split_and!; [done..|]. by apply Hm.
      * intros [(? & _)|(_ & _ & _ & Hd)]; [done|]. apply Hm in Hd. congruence.
    + split; [done|]. intros [(? & _)|(_ & _ & _ & Hd)]; [done|]. apply Hm in Hd. congruence.
Qed.

Lemma rule_fields_invalid_spec rule :
  rule_fields_invalid rule = false ↔
  Rule_ID rule ≠ "" ∧ Rule_Action rule ≠ "" ∧ Rule_ResourceType rule ≠ "" ∧ decisive_effect rule.
Proof.
  unfold rule_fields_invalid, decisive_effect. simpl. repeat case_bool_decide; simpl; naive_solver.
Qed.

Lemma rule_loop_spec ls named definitions index ids rs :
  0 ≤ MaxSetSize ls → represents named definitions →
  ∃ r, rule_loop ls named index ids rs = Ret r ∧
    match r with
    | Ok resolved =>
        Forall2 (rule_ok ls definitions) rs resolved ∧ NoDup (Rule_ID <$> rs) ∧ (∀ rule, rule ∈ rs → Rule_ID rule ∉ ids)
    | Err _ =>
        ¬ ((∃ resolved, Forall2 (rule_ok ls definitions) rs resolved) ∧ NoDup (Rule_ID <$> rs) ∧
           ∀ rule, rule ∈ rs → Rule_ID rule ∉ ids)
    end.
Proof.
  intros Hls Hm. revert index ids. induction rs as [|rule rs IH]; intros index ids; simpl.
  { eexists. split; [done|]. split_and!; [by constructor|by apply NoDup_nil|set_solver]. }
  assert (∀ resolved c, Forall2 (rule_ok ls definitions) (rule :: rs) resolved →
    resolve_condition named index rule = Ok c → ∃ c', c = Some c' ∧ rule_fields_invalid rule = false ∧ admitted ls c') as Hhd.
  { intros resolved c (y & k & (? & ? & ? & ? & c' & Hc & Ha & _) & _ & _)%Forall2_cons_inv_l E.
    rewrite <- (resolve_condition_spec named definitions index rule c' Hm) in Hc. exists c'.
    split_and!; [congruence|by apply rule_fields_invalid_spec|done]. }
  destruct (resolve_condition named index rule) as [[c|]|e] eqn:Er.
  2: { eexists. split; [done|]. intros [[? Hrs] _]. by destruct (Hhd _ _ Hrs eq_refl) as (? & ? & _). }
  2: { eexists. split; [done|]. intros [[? (y & k & (? & ? & ? & ? & c' & Hc & _) & _)%Forall2_cons_inv_l] _].
       rewrite <- (resolve_condition_spec named definitions index rule c' Hm) in Hc. congruence. }
  destruct (rule_fields_invalid rule) eqn:Ef.
  { eexists. split; [done|]. intros [[? Hrs] _]. by destruct (Hhd _ _ Hrs eq_refl) as (? & _ & ? & _). }
  case_bool_decide as Eid.
  { eexists. split; [done|]. intros (_ & _ & H). by apply (H rule ltac:(by left)). }
  destruct (validateConditionLimits_cases c ls Hls) as (err & Ev & _ & Hadm). rewrite Ev. simpl.
  destruct err as [e|].
  { eexists. split; [done|]. intros [[? Hrs] _]. destruct (Hhd _ _ Hrs eq_refl) as (? & [= <-] & _ & Ha).
    by apply Hadm in Ha. }
  destruct (IH (S index) ({[Rule_ID rule]} ∪ ids)) as (r & E & Hr). rewrite E. simpl. eexists. split; [done|].
  destruct r as [resolved|e]; simpl.
  - destruct Hr as (Hrs & Hnd & Hids). csimpl. split_and!.
    + constructor; [|done]. apply rule_fields_invalid_spec in Ef as (? & ? & ? & ?). split_and!; [done..|].
      exists c. split_and!; [by eapply resolve_condition_spec|by apply Hadm|done].
    + constructor; [|done]. intros (y & E' & Hy)%list_elem_of_fmap. apply Hids in Hy. set_solver.
    + intros y [->|Hy]%elem_of_cons; [done|]. apply Hids in Hy. set_solver.
  - intros [[? (y & k & _ & Hk & _)%Forall2_cons_inv_l] [Hnd Hids]]. csimpl in Hnd.
    apply NoDup_cons in Hnd as [Hnew Hnd]. apply Hr. split_and!; [by exists k|done|].
    intros z Hz. specialize (Hids z ltac:(by right)).
    assert (Rule_ID z ≠ Rule_ID rule); [|set_solver]. intros E'. apply Hnew. rewrite <- E'. by apply list_elem_of_fmap_2.
Qed.

(** The options the package provides, and the limits they leave. *)
Inductive library_option : Option → Prop :=
| option_limits ls : library_option (WithLimits ls).

Definition limits_positive (l : Limits) : Prop :=
  0 < MaxRules l ∧ 0 < MaxDepth l ∧ 0 < MaxCost l ∧ 0 < MaxMatches l ∧ 0 < MaxSetSize l ∧
  0 < MaxBatchSize l ∧ 0 < MaxNamedConditions l.

Definition configured (options : list Option) : Limits :=
  limits (foldl (λ evaluator option, option evaluator) (mkABACEvaluator [] (normalizedLimits zero_limits)) options).

Lemma WithLimits_positive ls ev : limits_positive (limits ev) → limits_positive (limits (WithLimits ls ev)).
Proof. intros (? & ? & ? & ? & ? & ? & ?). split_and!; simpl; by apply positive_or_pos. Qed.

Lemma normalizedLimits_positive ls : limits_positive (normalizedLimits ls).
Proof. by apply WithLimits_positive. Qed.

Lemma configured_positive options : Forall library_option options → limits_positive (configured options).
Proof.
  intros Hopts. unfold configured.
  assert (∀ ev, limits_positive (limits ev) →
    limits_positive (limits (foldl (λ evaluator option, option evaluator) ev options))) as Hall.
  { induction Hopts as [|o options Ho _ IH]; intros ev Hev; simpl; [done|]. apply IH.
    destruct Ho. by apply WithLimits_positive. }
  apply Hall, normalizedLimits_positive.
Qed.

(** What [New] accepts. *)
Record accepted (ls : Limits) (rs : list Rule) (definitions : list NamedCondition) (resolved : list Rule) : Prop := {
  accepted_rules : len rs ≤ MaxRules ls;
  accepted_definitions : len definitions ≤ MaxNamedConditions ls;
  accepted_named : Forall (named_ok ls) definitions;
  accepted_keys : NoDup (named_key <$> definitions);
  accepted_resolved : Forall2 (rule_ok ls definitions) rs resolved;
  accepted_ids : NoDup (Rule_ID <$> rs)
}.

Lemma resolves_unique definitions rule c c' :
  NoDup (named_key <$> definitions) → resolves definitions rule c → resolves definitions rule c' → c = c'.
Proof.
  intros Hnd [(?&?&?)|(?&?&?&d&?&?&?)] [(?&?&?)|(?&?&?&d'&?&?&?)]; try congruence.
  assert (d = d') as ->; [|congruence]. eapply (NoDup_fmap_elem_inj named_key); [done..|congruence].
Qed.

Lemma accepted_unique ls rs definitions resolved resolved' :
  accepted ls rs definitions resolved → accepted ls rs definitions resolved' → resolved = resolved'.
Proof.
  intros [_ _ _ Hk H1 _] [_ _ _ _ H2 _]. clear -Hk H1 H2. revert resolved' H2.
  induction H1 as [|rule rule' rs resolved Hr _ IH]; intros [|y resolved'] H2; inversion H2; subst; [done|].
  destruct Hr as (_ & _ & _ & _ & c & Hc & _ & ->). f_equal; [|by apply IH].
  match goal with H : rule_ok _ _ rule y |- _ => destruct H as (_ & _ & _ & _ & c' & Hc' & _ & ->) end.
  by rewrite (resolves_unique definitions rule c c').
Qed.

Lemma abac_New_cases rs definitions options :
  Forall library_option options →
  ∃ r, New rs definitions options = Ret r ∧
    match r with
    | Ok ev => ∃ resolved, accepted (configured options) rs definitions resolved ∧
        ev = mkABACEvaluator (SortFunc compare_rules resolved) (configured options)
    | Err _ => ∀ resolved, ¬ accepted (configured options) rs definitions resolved
    end.
Proof.
  intros Hopts. unfold New. fold (configured options).
  pose proof (configured_positive options Hopts) as Hpos. set (ls := configured options) in *.
  assert (0 ≤ MaxSetSize ls) as Hset by (unfold limits_positive in Hpos; lia).
  destruct (Z.ltb_spec (MaxRules ls) (len rs)).
  { eexists. split; [done|]. intros ? [? _ _ _ _ _]. lia. }
  destruct (Z.ltb_spec (MaxNamedConditions ls) (len definitions)).
  { eexists. split; [done|]. intros ? [_ ? _ _ _ _]. lia. }
  destruct (named_loop_spec ls 0 ∅ definitions Hset) as (r & E & Hr). rewrite E. simpl. destruct r as [named|e].
  2: { eexists. split; [done|]. intros ? [_ _ ? ? _ _]. by apply Hr. }
  destruct Hr as (Hok & Hnd & _ & Hm).
  assert (represents named definitions) as Hrep.
  { intros k c. rewrite Hm, lookup_empty. naive_solver. }
  destruct (rule_loop_spec ls named definitions 0 ∅ rs Hset Hrep) as (r & E2 & Hr). rewrite E2. simpl.
  eexists. split; [done|]. destruct r as [resolved|e]; simpl.
  - destruct Hr as (? & ? & _). exists resolved. split; [by split|done].
  - intros resolved [_ _ _ _ ? ?]. apply Hr. split_and!; [by exists resolved|done|set_solver].
Qed.

(** ** Evaluation *)

(** A rule speaks about a request: same tenant, action and resource type, and
    either any resource or this one. *)
Definition in_scope (request : Request) (rule : Rule) : Prop :=
  Rule_Tenant rule = Request_Tenant request ∧ Rule_Action rule = Request_Action request ∧
  Rule_ResourceType rule = Resource_Type (Request_Resource request) ∧
  (Rule_ResourceID rule = "" ∨ Rule_ResourceID rule = Resource_ID (Request_Resource request)).

#[global] Instance in_scope_dec request rule : base.Decision (in_scope request rule).
Proof. unfold in_scope. apply _. Defined.

Lemma out_of_scope_spec request rule : out_of_scope request rule = false ↔ in_scope request rule.
Proof. unfold out_of_scope, in_scope. repeat case_bool_decide; simpl; naive_solver. Qed.

Definition rule_status (request : Request) (rule : Rule) : Status := status_of (Rule_Condition rule) request.

(** The rules in scope whose condition matches. *)
Definition applies (request : Request) (rule : Rule) : Prop :=
  in_scope request rule ∧ rule_status request rule = StatusMatch.

#[global] Instance applies_dec request rule : base.Decision (applies request rule).
Proof. unfold applies. apply _. Defined.

(** The nodes of the conditions in scope. *)
Definition scope_size (request : Request) (rs : list Rule) : Z :=
  sizes (Rule_Condition <$> filter (in_scope request) rs).

Definition usable (rule : Rule) : Prop :=
  decisive_effect rule ∧ ∃ c, Rule_Condition rule = Some c ∧ cond_valid c.

Definition deny_reason (e : error) : ReasonCode :=
  if errors_Is e context_Canceled || errors_Is e context_DeadlineExceeded then ReasonContextCanceled
  else ReasonLimitExceeded.

(** What the loop over the rules returns. *)
Definition rules_result (ls : Limits) (state : evaluationState) (d : Decision) (rs : list Rule) (cost : Z)
    (d' : Decision) (err : option error) : Prop :=
  let ms := filter (applies (state_request state)) rs in
  let total := len (Decision_MatchedPolicyIDs d) + len ms in
  match err with
  | None => total ≤ MaxMatches ls ∧ d' = foldl add_match d ms
  | Some e =>
      d' = bareDecision Deny (deny_reason e) 0 ∧
      (e = ErrMatchLimitExceeded ∧ MaxMatches ls < total ∨ eval_error state e) ∧
      ¬ (ContextLive (state_ctx state) ∧ sets_admitted state ∧
         cost + scope_size (state_request state) rs ≤ state_maxCost state ∧ total ≤ MaxMatches ls)
  end.

Lemma applies_status request rule c :
  in_scope request rule → Rule_Condition rule = Some c → applies request rule ↔ cond_status request c = StatusMatch.
Proof. intros Hs Ec. unfold applies, rule_status. rewrite Ec. simpl. tauto. Qed.

Lemma rules_loop_spec ls state d rs cost n :
  Forall usable rs → len (Decision_MatchedPolicyIDs d) ≤ MaxMatches ls →
  ∃ d' err cost' n', rules_loop ls state d rs cost n = (Ret ((d', err), cost'), n') ∧
    cost ≤ cost' ≤ cost + scope_size (state_request state) rs ∧
    cost' ≤ Z.max cost (state_maxCost state) ∧ rules_result ls state d rs cost d' err.
Proof.
  revert d cost n. induction rs as [|rule rs IH]; intros d cost n Hrs Hd.
  { exists d, None, cost, n. split_and!; [done|unfold scope_size; simpl; lia..|]. split; [|done].
    change (filter _ []) with (@nil Rule). autorewrite with go. lia. }
  apply Forall_cons in Hrs as [[Heff (c & Ec & Hc)] Hrs]. cbn [rules_loop].
  unfold rules_result, scope_size. rewrite !filter_cons.
  destruct (out_of_scope (state_request state) rule) eqn:Es.
  { assert (¬ in_scope (state_request state) rule) as Hs by (rewrite <- out_of_scope_spec, Es; done).
    rewrite !decide_False by (done || by intros [? _]). by apply IH. }
  apply out_of_scope_spec in Es. rewrite (decide_True (P := in_scope _ rule)) by done.
  csimpl. rewrite Ec. cbn [evaluate_child sizes foldr]. fold (scope_size (state_request state) rs).
  fold (sizes (Rule_Condition <$> filter (in_scope (state_request state)) rs)).
  change (sizes (Rule_Condition <$> filter (in_scope (state_request state)) rs))
    with (scope_size (state_request state) rs).
  assert (0 ≤ scope_size (state_request state) rs) as Hnn by apply sizes_nonneg.
  pose proof (len_nonneg (filter (applies (state_request state)) rs)) as Hml.
  pose proof (applies_status (state_request state) rule c Es Ec) as Happ.
  destruct (evaluate_evaluates state c Hc cost n) as (r & err & cost1 & n1 & E & [? ?] & ? & Hr).
  rewrite (Eval_bind_run _ _ _ _ _ _ _ E). cbn iota beta. destruct err as [e|].
  { destruct Hr as (_ & He & Hno). eexists _, (Some e), cost1, n1. split_and!; [done|lia|lia|lia|done|by right|].
    intros (? & ? & ? & _). apply Hno. split_and!; [done|done|lia]. }
  subst r. cbn [report Result_Matched].
  destruct (decide (cond_status (state_request state) c = StatusMatch)) as [Em|Em].
  - rewrite bool_decide_true by done. rewrite (decide_True (P := applies _ rule)) by (by apply Happ). autorewrite with go.
    destruct (Z.leb_spec (MaxMatches ls) (len (Decision_MatchedPolicyIDs d))).
    { eexists _, (Some ErrMatchLimitExceeded), cost1, n1. split_and!; [done|lia|lia|lia|done|left; split; [done|lia]|].
      intros (_ & _ & _ & ?). lia. }
    destruct (IH (add_match d rule) cost1 n1 Hrs) as (d' & err & cost2 & n2 & E2 & [? ?] & ? & Hr);
      [rewrite add_match_ids; autorewrite with go; lia|].
    exists d', err, cost2, n2. split_and!; [done|lia|lia|lia|]. unfold rules_result in Hr.
    rewrite add_match_ids in Hr. autorewrite with go in Hr. destruct err as [e|].
    + destruct Hr as (? & He & Hno). split_and!; [done| |].
      * destruct He as [[? ?]|?]; [left; split; [done|lia]|by right].
      * intros (? & ? & ? & ?). apply Hno. split_and!; [done|done|lia|lia].
    + destruct Hr as [? ?]. split; [lia|done].
  - rewrite bool_decide_false by done. rewrite (decide_False (P := applies _ rule)) by (by rewrite Happ).
    destruct (IH d cost1 n1 Hrs Hd) as (d' & err & cost2 & n2 & E2 & [? ?] & ? & Hr).
    exists d', err, cost2, n2. split_and!; [done|lia|lia|lia|]. unfold rules_result in Hr. destruct err as [e|]; [|done].
    destruct Hr as (? & He & Hno). split_and!; [done|done|].
    intros (? & ? & ? & ?). apply Hno. split_and!; [done|done|lia|done].
Qed.

(** The order of the rules is the one of the other models. *)
Lemma compare_rules_by_priority left right : compare_rules left right = by_priority Rule_Priority Rule_ID left right.
Proof. unfold compare_rules, by_priority, cmp_Or. by destruct (_ =? 0). Qed.

#[global] Instance compare_rules_comparison : Comparison compare_rules.
Proof.
  split; intros *; rewrite !compare_rules_by_priority; [apply comparison_total|apply comparison_trans].
Qed.

(** The rules of a constructed evaluator. *)
Lemma constructed_rules rs definitions options ev :
  Forall library_option options → New rs definitions options = Ret (Ok ev) →
  limits_positive (limits ev) ∧ Forall usable (rules ev) ∧
  ∀ rule', rule' ∈ rules ev ↔ ∃ rule c, rule ∈ rs ∧ resolves definitions rule c ∧ rule' = with_condition rule (Some c).
Proof.
  intros Hopts Hnew. destruct (abac_New_cases rs definitions options Hopts) as (r & E & Hr).
  rewrite Hnew in E. simplify_eq. destruct Hr as (resolved & Hacc & ->). simpl.
  split; [by apply configured_positive|]. destruct Hacc as [_ _ _ Hk Hres _]. split.
  - rewrite SortFunc_perm. clear Hnew Hk. induction Hres as [|rule rule' rs resolved Hr _ IH]; constructor; [|done].
    destruct Hr as (_ & _ & _ & Heff & c & _ & [Hc _] & ->). split; [done|by exists c].
  - intros rule'. rewrite elem_of_SortFunc. clear Hnew. induction Hres as [|rule rule'' rs resolved Hr _ IH].
    { split; [by intros ?%not_elem_of_nil|by intros (? & ? & ?%not_elem_of_nil & _)]. }
    destruct Hr as (_ & _ & _ & _ & c & Hc & _ & ->). rewrite elem_of_cons, IH. setoid_rewrite elem_of_cons.
    split; [naive_solver|]. intros (x & c' & [->|Hx] & Hc' & ->); [|right; by eauto].
    left. by rewrite (resolves_unique definitions rule c c').
Qed.

(** The state [Evaluate] starts from. *)
Definition initial_state (ev : Evaluator) (ctx : Context) (request : Request) : evaluationState :=
  mkEvaluationState ctx request (MaxCost (limits ev)) (MaxSetSize (limits ev)).

Lemma abac_evaluate_cases ev ctx request n :
  Forall usable (rules ev) → 0 ≤ MaxMatches (limits ev) →
  ∃ d err n', Evaluate ev ctx request n = (Ret (d, err), n') ∧
    rules_result (limits ev) (initial_state ev ctx request) (bareDecision NotApplicable "" 0) (rules ev) 0 d err.
Proof.
  intros Hrs Hm. unfold Evaluate.
  destruct (rules_loop_spec (limits ev) (initial_state ev ctx request) (bareDecision NotApplicable "" 0) (rules ev) 0 n)
    as (d & err & cost' & n' & E & _ & _ & Hr); [done|done|].
  exists d, err, n'. split; [|done]. fold (initial_state ev ctx request). by erewrite M_bind_Ret by done.
Qed.

(** Evaluators whose rules [New] admitted. *)
Class Constructed (ev : Evaluator) : Prop := {
  constructed_usable : Forall usable (rules ev);
  constructed_matches : 0 ≤ MaxMatches (limits ev)
}.

Lemma New_Constructed rs definitions options ev :
  Forall library_option options → New rs definitions options = Ret (Ok ev) → Constructed ev.
Proof.
  intros Hopts Hnew. destruct (constructed_rules _ _ _ _ Hopts Hnew) as (Hl & Hu & _).
  split; [done|]. unfold limits_positive in Hl. lia.
Qed.

Lemma usable_filter (P : Rule → Prop) `{!∀ x, base.Decision (P x)} rs :
  Forall usable rs → Forall decisive_effect (filter P rs).
Proof.
  rewrite !Forall_forall. intros Hall rule [_ Hin]%list_elem_of_filter. by destruct (Hall rule Hin).
Qed.

#[global] Instance abac_evaluator_laws ev `{!Constructed ev} : EvaluatorLaws (as_evaluator ev).
Proof.
  intros ctx request n. simpl.
  destruct (abac_evaluate_cases ev ctx request n constructed_usable constructed_matches) as (d & err & n' & E & Hr).
  exists d, err, n'. split; [done|]. destruct err as [e|].
  - destruct Hr as (-> & _). by split.
  - destruct Hr as (_ & ->). split; [|by intros []].
    rewrite add_match_verdict by (apply usable_filter, constructed_usable). apply verdict_valid.
Qed.

(** ** Theorems *)

(** [New] accepts exactly the valid configurations: within the rule and
    named-condition limits, named definitions complete, pairwise distinct
    and admitted, rules complete with distinct identifiers and each with an
    admitted condition that is either embedded or found by name and version.
    It never panics, resolves every rule, and sorts by descending priority
    then identifier. *)
Theorem abac_New_spec (rs : list Rule) (definitions : list NamedCondition) (options : list Option) :
  Forall library_option options →
  ∃ r, New rs definitions options = Ret r ∧
    ∀ ev, r = Ok ev ↔ ∃ resolved, accepted (configured options) rs definitions resolved ∧
      limits ev = configured options ∧ rules ev ≡ₚ resolved ∧
      StronglySorted (λ x y, by_priority Rule_Priority Rule_ID x y ≤ 0) (rules ev).
Proof.
  intros Hopts. destruct (abac_New_cases rs definitions options Hopts) as (r & E & Hr). exists r. split; [done|].
  intros ev. destruct r as [ev'|e].
  2: { split; [done|]. intros (resolved & Hacc & _). by apply Hr in Hacc. }
  destruct Hr as (resolved & Hacc & ->).
  assert (StronglySorted (λ x y, by_priority Rule_Priority Rule_ID x y ≤ 0) (SortFunc compare_rules resolved)) as Hs.
  { eapply StronglySorted_weaken; [|apply (SortFunc_sorted compare_rules)]. intros x y. unfold cmp_le.
    by rewrite compare_rules_by_priority. }
  split.
  - intros [= <-]. exists resolved. split_and!; [done|done|simpl; by rewrite SortFunc_perm|done].
  - intros (resolved' & Hacc' & Hl & Hp & Hsort). rewrite (accepted_unique _ _ _ _ _ Hacc' Hacc) in Hp.
    destruct ev as [evr evl]. simpl in *. subst evl. f_equal. f_equal. symmetry. apply SortFunc_unique; [apply _| |done|].
    + intros x y Hx Hy Hxy Hyx. rewrite compare_rules_by_priority in Hxy. rewrite compare_rules_by_priority in Hyx.
      eapply (NoDup_fmap_elem_inj Rule_ID); [|done..|by eapply by_priority_antisym].
      destruct Hacc as [_ _ _ _ Hres Hnd]. clear -Hres Hnd.
      assert (Rule_ID <$> resolved = Rule_ID <$> rs) as ->; [|done].
      induction Hres as [|x y ? ? (_ & _ & _ & _ & c & _ & _ & ->) _ IH]; csimpl in *; [done|].
      apply NoDup_cons in Hnd as [_ Hnd]. by rewrite IH.
    + eapply StronglySorted_weaken; [|done]. intros x y. unfold cmp_le. by rewrite compare_rules_by_priority.
Qed.

Definition engineering : NamedCondition := mkNamedCondition "engineering" 1 (Some example_condition).

Definition read_rule (ident : string) (priority : Z) (effect : Outcome) (c : option Condition) (name : string)
    (version : Z) : Rule :=
  mkRule ident priority "acme" "read" "document" "" effect c name version.

Definition suspended : Condition := Equal (mkReference SourceSubject "suspended") (BoolValue true).

Definition example_rules : list Rule :=
  [read_rule "r-allow" 0 Allow None "engineering" 1; read_rule "r-suspended" 10 Deny (Some suspended) "" 0].

Definition no_evaluator : Evaluator := mkABACEvaluator [] zero_limits.

Definition example_evaluator : Evaluator :=
  match New example_rules [engineering] [] with Ret (Ok ev) => ev | _ => no_evaluator end.

Lemma abac_New_spec_witness :
  New example_rules [engineering] [] = Ret (Ok example_evaluator) ∧
  Rule_ID <$> rules example_evaluator = ["r-suspended"; "r-allow"] ∧
  ∃ resolved, accepted (configured []) example_rules [engineering] resolved ∧ rules example_evaluator ≡ₚ resolved.
Proof.
  split; [vm_compute; reflexivity|]. split; [vm_compute; reflexivity|].
  destruct (abac_New_spec example_rules [engineering] [] ltac:(constructor)) as (r & E & Hr).
  destruct (proj1 (Hr example_evaluator)) as (resolved & Hacc & _ & Hp & _).
  { assert (New example_rules [engineering] [] = Ret (Ok example_evaluator)) as E' by (vm_compute; reflexivity).
    rewrite E' in E. by injection E. }
  exists resolved. by split.
Defined.

(** C17. ABAC evaluation is deny-overrides over the rules in scope whose
    condition matches: for a constructed evaluator every run returns;
    without error the decision is exactly the one of the applicable rules,
    in priority order; an error (cancellation, cost, set size, matches)
    denies and reports no policy; and there is no error when the context
    stays live, the sets are within the limit, and the conditions in scope
    and the matches fit the budgets. *)
Theorem abac_Evaluate_spec (rs : list Rule) (definitions : list NamedCondition) (options : list Option)
    (ev : Evaluator) (ctx : Context) (request : Request) (n : nat) :
  Forall library_option options → New rs definitions options = Ret (Ok ev) →
  let ms := filter (applies request) (rules ev) in
  let state := initial_state ev ctx request in
  ∃ d err n', Evaluate ev ctx request n = (Ret (d, err), n') ∧
    (err = None → d = match_decision ms ∧ len ms ≤ MaxMatches (limits ev)) ∧
    (∀ e, err = Some e → d = bareDecision Deny (deny_reason e) 0 ∧
       (e = ErrMatchLimitExceeded ∧ MaxMatches (limits ev) < len ms ∨ eval_error state e)) ∧
    (ContextLive ctx → sets_admitted state → scope_size request (rules ev) ≤ MaxCost (limits ev) →
       len ms ≤ MaxMatches (limits ev) → err = None).
Proof.
  intros Hopts Hnew ms state. pose proof (New_Constructed _ _ _ _ Hopts Hnew) as [Hu Hm].
  destruct (abac_evaluate_cases ev ctx request n Hu Hm) as (d & err & n' & E & Hr).
  exists d, err, n'. split; [done|]. split_and!.
  - intros ->. destruct Hr as [Hle ->]. simpl in Hle. rewrite add_match_verdict by by apply usable_filter. done.
  - intros e ->. destruct Hr as (-> & He & _). done.
  - intros. destruct err as [e|]; [|done]. destruct Hr as (_ & _ & []). done.
Qed.

Definition employee (suspended_ : bool) : Request :=
  facts_request [("department", StringValue "eng"); ("clearance", IntValue 4); ("suspended", BoolValue suspended_)].

Lemma abac_Evaluate_spec_witness :
  ∃ d n', Evaluate example_evaluator context_Background (employee true) 0%nat = (Ret (d, None), n') ∧
    d = match_decision (filter (applies (employee true)) (rules example_evaluator)) ∧
    Decision_Outcome d = Deny ∧ Decision_MatchedPolicyIDs d = ["r-suspended"; "r-allow"].
Proof.
  destruct (abac_Evaluate_spec example_rules [engineering] [] example_evaluator context_Background (employee true)
    0%nat ltac:(constructor) ltac:(vm_compute; reflexivity)) as (d & err & n' & E & Hd & _ & _).
  exists d, n'. assert (err = None) as -> by (vm_compute in E; by injection E).
  split; [exact E|]. split; [by apply Hd|]. vm_compute in E. injection E as <- _. by split.
Defined.

(** C26. An ABAC allow is justified in the configuration: some configured
    allow rule of the request's tenant, action and resource has a condition
    that is true whatever the missing, null or ill-typed attributes are
    taken to be, and no configured deny rule in scope has a matching
    condition. Whatever the run (cancelled or over budget), allowing comes
    without an error. *)
Theorem abac_allow_justified (rs : list Rule) (definitions : list NamedCondition) (options : list Option)
    (ev : Evaluator) (ctx : Context) (request : Request) (n n' : nat) (d : Decision) (err : option error) :
  Forall library_option options → New rs definitions options = Ret (Ok ev) →
  Evaluate ev ctx request n = (Ret (d, err), n') → Decision_Outcome d = Allow →
  err = None ∧
  (∃ rule c, rule ∈ rs ∧ in_scope request rule ∧ Rule_Effect rule = Allow ∧ resolves definitions rule c ∧
     ∀ oracle, holds request oracle c = true) ∧
  (∀ rule c, rule ∈ rs → in_scope request rule → resolves definitions rule c → Rule_Effect rule = Deny →
     cond_status request c ≠ StatusMatch).
Proof.
  intros Hopts Hnew E Hallow. destruct (constructed_rules _ _ _ _ Hopts Hnew) as (Hl & Hu & Hin).
  destruct (abac_evaluate_cases ev ctx request n Hu ltac:(unfold limits_positive in Hl; lia))
    as (d' & err' & n1 & E' & Hr). rewrite E in E'. simplify_eq.
  destruct err' as [e|]; [by destruct Hr as (-> & _)|]. destruct Hr as [_ ->]. simpl in Hallow.
  rewrite add_match_verdict in Hallow by by apply usable_filter. apply verdict_allow in Hallow as [Hne Hnd].
  rewrite <- Forall_Exists_neg, Forall_forall in Hnd. split; [done|]. split.
  - destruct (filter (applies request) (rules ev)) as [|m ms] eqn:Em; [by apply Nat.lt_irrefl in Hne|].
    assert (m ∈ filter (applies request) (rules ev)) as [[Hs Hst] Hm]%list_elem_of_filter by (rewrite Em; by left).
    specialize (Hnd m ltac:(by left)). rewrite Forall_forall in Hu. destruct (Hu m Hm) as [Heff (c' & Ec' & Hv)].
    apply Hin in Hm as (rule & c & Hrule & Hres & ->). simpl in *. simplify_eq. exists rule, c'.
    split_and!; [done|done|by destruct Heff|done|]. intros oracle. pose proof (holds_sound request oracle c' Hv) as Hh.
    unfold rule_status in Hst. simpl in Hst. by rewrite Hst in Hh.
  - intros rule c Hrule Hs Hres Hdeny Hst. apply (Hnd (with_condition rule (Some c))); [|done].
    apply list_elem_of_filter. split; [done|]. apply Hin. by exists rule, c.
Qed.

Lemma abac_allow_justified_witness :
  ∃ d n', Evaluate example_evaluator context_Background (employee false) 0%nat = (Ret (d, None), n') ∧
    Decision_Outcome d = Allow ∧
    ∃ rule c, rule ∈ example_rules ∧ Rule_Effect rule = Allow ∧ resolves [engineering] rule c ∧
      ∀ oracle, holds (employee false) oracle c = true.
Proof.
  eexists _, _. split; [vm_compute; reflexivity|]. split; [reflexivity|].
  destruct (abac_allow_justified example_rules [engineering] [] example_evaluator context_Background (employee false)
    0%nat _ _ None ltac:(constructor) ltac:(vm_compute; reflexivity) ltac:(vm_compute; reflexivity) eq_refl)
    as (_ & (rule & c & Hin & _ & Ha & Hres & Hh) & _).
  exists rule, c. by split_and!.
Defined.

(** [EvaluateCondition] admits before it evaluates: a nil condition and
    a tree that is invalid, too deep or with too many literals are rejected
    without consuming cost; an admitted tree always returns, at a reported
    cost of at most one unit per node and never above [MaxCost], with the
    status of the condition when there is no error. *)
Theorem EvaluateCondition_spec (ctx : Context) (c : Condition) (request : Request) (ls : Limits) (n : nat) :
  EvaluateCondition ctx None request ls n = (Ret (zeroResult, Some ErrInvalidCondition), n) ∧
  (¬ admitted (normalizedLimits ls) c → ∃ e, e ∈ limit_errors ∧
     EvaluateCondition ctx (Some c) request ls n = (Ret (zeroResult, Some e), n)) ∧
  (admitted (normalizedLimits ls) c → ∃ r err n',
     EvaluateCondition ctx (Some c) request ls n = (Ret (r, err), n') ∧
     0 ≤ Result_Cost r ≤ Z.min (cond_size c) (MaxCost (normalizedLimits ls)) ∧
     (err = None → Result_Status r = cond_status request c ∧
        (Result_Matched r = true ↔ cond_status request c = StatusMatch)) ∧
     (is_Some err → Result_Matched r = false)).
Proof.
  pose proof (normalizedLimits_positive ls) as (_ & _ & Hcost & _ & Hset & _).
  split; [done|]. unfold EvaluateCondition.
  destruct (validateConditionLimits_cases c (normalizedLimits ls) ltac:(lia)) as (err & E & Herr & Hadm).
  rewrite E. split.
  - intros Hno. destruct err as [e|]; [|by destruct Hno; apply Hadm]. exists e. split; [by apply Herr|done].
  - intros Ha. apply Hadm in Ha as Hn. subst err. destruct Ha as [Hv _].
    set (state := mkEvaluationState _ _ _ _).
    destruct (evaluate_evaluates state c Hv 0 n) as (r & err & cost' & n' & Ev & [? ?] & ? & Hr).
    exists (mkResult (Result_Matched r) (Result_Status r) cost'), err, n'. split.
    { unfold go_call. unfold mbind at 1, M_bind at 1. by erewrite M_bind_Ret by done. }
    simpl. split; [split; [lia|]; unfold state in *; simpl in *; lia|]. split.
    + intros ->. subst r. simpl. by rewrite bool_decide_eq_true.
    + intros [e ->]. by destruct Hr as [? _].
Qed.

Lemma EvaluateCondition_spec_witness :
  admitted (normalizedLimits zero_limits) example_condition ∧
  ∃ r n', EvaluateCondition context_Background (Some example_condition) (employee false) zero_limits 0%nat =
      (Ret (r, None), n') ∧ Result_Matched r = true ∧ 0 ≤ Result_Cost r ≤ 4.
Proof.
  assert (admitted (normalizedLimits zero_limits) example_condition) as Ha.
  { split; [by repeat split|]. split; vm_compute; done. }
  split; [exact Ha|].
  destruct (EvaluateCondition_spec context_Background example_condition (employee false) zero_limits 0%nat)
    as (_ & _ & H). destruct (H Ha) as (r & err & n' & E & Hc & _). exists r, n'.
  assert (err = None) as -> by (vm_compute in E; by injection E). split; [exact E|].
  vm_compute in E. injection E as <- _. split; [reflexivity|]. exact Hc.
Defined.

End abac.
