(* ===== verification/Documents.v ===== *)
(** * Policy documents of the ACL and RBAC models (acl/document.go, rbac/document.go)

    The editable documents, their translation to a model ([Build]) and the
    bounded JSON entry points. The three model packages repeat the same
    decoding and encoding code; it is stated once, over what the packages use
    of [encoding/json], and instantiated per package. *)

From S2P Require Import Prelude GoStrings Attribute Request Decision Snapshot Engine Matching ACL RoleGraph RBAC.

#[local] Open Scope Z_scope.

(** ** JSON

    [json_Decode] is the first [Decode] of a strict decoder: the value and
    the input left in the stream, or the text of the error. [json_Marshal]
    is [MarshalIndent]. *)

Inductive decoded (D : Type) :=
| Decoded (document : D) (rest : string)
| NotDecoded (message : string).
Arguments Decoded {D} document rest.
Arguments NotDecoded {D} message.

Class JSONCodec (D : Type) := {
  json_Decode : string → decoded D;
  json_Marshal : D → result string
}.

(** The documents JSON represents exactly: [encoding/json] replaces invalid
    UTF-8 and drops empty optional fields, so a document is faithful when its
    strings are valid and its optional containers are nil or nonempty. All
    documents here are JSON objects, which end at their closing brace: the
    decoder gives a marshalled document back and leaves what follows it. *)
Class JSONFaithful (D : Type) `{JSONCodec D} (faithful : D → Prop) : Prop :=
  json_roundtrip : ∀ document encoded rest, faithful document → json_Marshal document = Ok encoded →
    json_Decode (encoded +:+ rest) = Decoded document rest.

Definition is_json_space (c : Ascii.ascii) : bool :=
  bool_decide (Ascii.nat_of_ascii c ∈ [32; 9; 13; 10]%nat).

(** The second [Decode] reports [io.EOF]: only white space is left. *)
Fixpoint at_EOF (rest : string) : bool :=
  match rest with
  | EmptyString => true
  | String c rest => is_json_space c && at_EOF rest
  end.

Definition maxEncodedDocumentBytes : Z := Z.shiftl 1 20.

Definition byte_len (s : string) : Z := Z.of_nat (String.length s).

(** A codec that knows one document. *)
Definition single_codec {D} (text : string) (document : D) : JSONCodec D := {|
  json_Decode := λ s, if strings_HasPrefix s text then Decoded document (string_drop (String.length text) s)
                      else NotDecoded "unexpected text";
  json_Marshal := λ _, Ok text
|}.

Lemma single_faithful {D} (text : string) (document : D) :
  @JSONFaithful D (single_codec text document) (λ d, d = document).
Proof.
  intros d encoded rest -> [= <-]. simpl.
  assert (strings_HasPrefix (text +:+ rest) text = true ∧ string_drop (String.length text) (text +:+ rest) = rest) as [-> ->];
    [|done].
  induction text as [|c text IH]; simpl; [by destruct rest|]. rewrite bool_decide_true by done. done.
Qed.

(** ** DecodeDocument and EncodeDocument *)

Section codec.
Context {D E : Type} `{JSONCodec D} (Build : D → Go (result E)).
Context (ErrInvalidDocument ErrDocumentLimitExceeded : error).

Definition DecodeDocument (encoded : string) : Go (result E) :=
  if maxEncodedDocumentBytes <? byte_len encoded then Ret (Err ErrDocumentLimitExceeded)
  else match json_Decode encoded with
  | NotDecoded message => Ret (Err (fmt_Errorf "%w: %v" [FmtString message] ErrInvalidDocument))
  | Decoded document rest =>
      if negb (at_EOF rest) then Ret (Err ErrInvalidDocument) else Build document
  end.

Definition EncodeDocument (document : D) : Go (result string) :=
  built ← Build document;
  match built with
  | Err err => Ret (Err err)
  | Ok _ =>
      match json_Marshal document with
      | Err err => Ret (Err err)
      | Ok encoded =>
          if maxEncodedDocumentBytes <? byte_len encoded then Ret (Err ErrDocumentLimitExceeded)
          else Ret (Ok encoded)
      end
  end.

(** What is encoded builds, is within the size limit, and decodes to the same
    evaluator. *)
Lemma encode_decode (faithful : D → Prop) `{!JSONFaithful D faithful} document encoded :
  faithful document → EncodeDocument document = Ret (Ok encoded) →
  ∃ ev, Build document = Ret (Ok ev) ∧ DecodeDocument encoded = Ret (Ok ev) ∧
    byte_len encoded ≤ maxEncodedDocumentBytes.
Proof.
  intros Hf. unfold EncodeDocument, DecodeDocument. destruct (Build document) as [[ev|e]|] eqn:Eb; [|done..].
  simpl. destruct (json_Marshal document) as [s|e] eqn:Em; [|done].
  destruct (Z.ltb_spec maxEncodedDocumentBytes (byte_len s)); [done|]. intros; simplify_eq.
  exists ev. rewrite (proj2 (Z.ltb_ge _ _)) by done. pose proof (json_roundtrip document encoded "" Hf Em) as Ej.
  rewrite string_app_nil_r in Ej. rewrite Ej. split_and!; [done|by rewrite Eb|lia].
Qed.

(** Nothing decodes without passing [Build]. *)
Lemma decode_built encoded ev :
  DecodeDocument encoded = Ret (Ok ev) →
  byte_len encoded ≤ maxEncodedDocumentBytes ∧
  ∃ document rest, json_Decode encoded = Decoded document rest ∧ at_EOF rest = true ∧ Build document = Ret (Ok ev).
Proof.
  unfold DecodeDocument. destruct (Z.ltb_spec maxEncodedDocumentBytes (byte_len encoded)); [done|].
  destruct (json_Decode encoded) as [d rest|]; [|done]. destruct (at_EOF rest) eqn:Er; simpl; [|done].
  intros. split; [lia|]. by exists d, rest.
Qed.
End codec.

(** ** Effects *)

Definition DocumentVersion : Z := 1.
Definition EffectAllow : string := "allow".
Definition EffectDeny : string := "deny".

Definition parse_effect (ErrInvalidDocument : error) (effect : string) : result Outcome :=
  if bool_decide (effect = EffectAllow) then Ok Allow
  else if bool_decide (effect = EffectDeny) then Ok Deny
  else Err ErrInvalidDocument.

(** The label of an effect. *)
Definition effect_label (outcome : Outcome) : string :=
  match outcome with Allow => EffectAllow | Deny => EffectDeny | _ => "" end.

Lemma parse_effect_Ok e effect outcome :
  parse_effect e effect = Ok outcome ↔ (outcome = Allow ∨ outcome = Deny) ∧ effect = effect_label outcome.
Proof.
  unfold parse_effect. repeat case_bool_decide; subst.
  - split; [intros [= <-]; auto|]. intros [[->| ->] ?]; done.
  - split; [intros [= <-]; auto|]. intros [[->| ->] ?]; done.
  - split; [done|]. intros [[->| ->] ->]; done.
Qed.

(** A loop that converts the elements of a slice and stops at the first
    error. *)
Fixpoint convert_loop {A B} (convert : nat → A → result B) (index : nat) (l : list A) : result (list B) :=
  match l with
  | [] => Ok []
  | a :: l =>
      b ← convert index a;
      bs ← convert_loop convert (S index) l;
      Ok (b :: bs)
  end.

Lemma convert_loop_Ok {A B} (convert : nat → A → result B) (R : A → B → Prop) index l bs :
  (∀ i a b, convert i a = Ok b ↔ R a b) → convert_loop convert index l = Ok bs ↔ Forall2 R l bs.
Proof.
  intros HR. revert index bs. induction l as [|a l IH]; intros index bs; simpl.
  { split; [by intros [= <-]|]. by intros ->%Forall2_nil_inv_l. }
  split.
  - destruct (convert index a) as [b|] eqn:Ea; simpl; [|done].
    destruct (convert_loop convert (S index) l) as [bs'|] eqn:El; simpl; [|done]. intros [= <-].
    constructor; [by eapply HR|by eapply IH].
  - intros (b & bs' & Hb & Hbs & ->)%Forall2_cons_inv_l. rewrite <- (HR index) in Hb. rewrite Hb. simpl.
    rewrite <- (IH (S index)) in Hbs. by rewrite Hbs.
Qed.

(** ** ACL documents *)

Module acl_document.

Definition ErrInvalidDocument := errors_New "invalid ACL document".
Definition ErrUnsupportedDocumentVersion := errors_New "unsupported ACL document version".
Definition ErrDocumentLimitExceeded := errors_New "ACL document size limit exceeded".

Record EntryDocument := mkEntryDocument {
  ID : PolicyID;
  SubjectKind : Request.SubjectKind;
  SubjectID : Request.SubjectID;
  Action : Request.Action;
  ResourceType : Request.ResourceType;
  ResourceID : Request.ResourceID;
  Tenant : TenantID;
  Effect : string
}.

Record Document := mkDocument {
  Version : Z;
  GlobalInheritance : bool;
  Limits : acl.Limits;
  Entries : list EntryDocument
}.

Definition parseEffect : string → result Outcome := parse_effect ErrInvalidDocument.

Definition build_entry (index : nat) (entry : EntryDocument) : result acl.Entry :=
  match parseEffect (Effect entry) with
  | Err err => Err (fmt_Errorf "entry %d: %w" [FmtInt (Z.of_nat index)] err)
  | Ok effect =>
      Ok (acl.mkEntry (ID entry) (mkSubject (SubjectKind entry) (SubjectID entry) [] None)
            (Action entry) (ResourceType entry) (ResourceID entry) (Tenant entry) effect)
  end.

Definition document_options (document : Document) : list acl.Option :=
  [acl.WithLimits (Limits document)] ++ (if GlobalInheritance document then [acl.WithGlobalInheritance] else []).

Definition Build (document : Document) : result acl.Evaluator :=
  if negb (Version document =? DocumentVersion) then Err ErrUnsupportedDocumentVersion
  else
    entries ← convert_loop build_entry 0 (Entries document);
    acl.New entries (document_options document).

Definition DecodeDocument `{JSONCodec Document} : string → Go (result acl.Evaluator) :=
  Documents.DecodeDocument (λ document, Ret (Build document)) ErrInvalidDocument ErrDocumentLimitExceeded.

Definition EncodeDocument `{JSONCodec Document} : Document → Go (result string) :=
  Documents.EncodeDocument (λ document, Ret (Build document)) ErrDocumentLimitExceeded.

(** [Decoder.Decode]. *)
Definition Decode `{JSONCodec Document} (document : string) : Go (result Snapshot.Evaluator) :=
  decoded ← DecodeDocument document;
  Ret (ev ← decoded; Ok (acl.as_evaluator ev)).

(** The document that describes an entry. *)
Definition entry_document (entry : acl.Entry) : EntryDocument :=
  mkEntryDocument (acl.Entry_ID entry) (Subject_Kind (acl.Entry_Subject entry)) (Subject_ID (acl.Entry_Subject entry))
    (acl.Entry_Action entry) (acl.Entry_ResourceType entry) (acl.Entry_ResourceID entry) (acl.Entry_Tenant entry)
    (effect_label (acl.Entry_Effect entry)).

Definition plain_subject (subject : Subject) : Prop :=
  Subject_Groups subject = [] ∧ Subject_Attributes subject = None.

Definition describes (document : EntryDocument) (entry : acl.Entry) : Prop :=
  document = entry_document entry ∧ plain_subject (acl.Entry_Subject entry) ∧
  (acl.Entry_Effect entry = Allow ∨ acl.Entry_Effect entry = Deny).

Lemma build_entry_Ok index document entry : build_entry index document = Ok entry ↔ describes document entry.
Proof.
  unfold build_entry, describes. destruct (parseEffect (Effect document)) as [o|e] eqn:Ep.
  - apply parse_effect_Ok in Ep as [Ho Ee]. split.
    + intros [= <-]. split_and!; [|done|done]. unfold entry_document. simpl. rewrite <- Ee. by destruct document.
    + intros (-> & [Hg Ha] & Hent). simpl in *. destruct entry as [i [k sid g a] ac rt ri t eff]; simpl in *. subst.
      repeat f_equal. destruct Ho as [->| ->], Hent as [->| ->]; done.
  - split; [done|]. intros (-> & _ & Hent).
    assert (parseEffect (effect_label (acl.Entry_Effect entry)) = Ok (acl.Entry_Effect entry)) as E
      by (by apply parse_effect_Ok). simpl in Ep. congruence.
Qed.

(** What [Build] builds. *)
Lemma acl_Build_iff document ev :
  Build document = Ok ev ↔ Version document = 1 ∧
    ∃ entries, Forall2 describes (Entries document) entries ∧ acl.New entries (document_options document) = Ok ev.
Proof.
  unfold Build. destruct (Z.eqb_spec (Version document) DocumentVersion) as [Ev|Ev]; simpl.
  2: { split; [done|]. by intros [? _]. }
  destruct (convert_loop build_entry 0 (Entries document)) as [es|e] eqn:El; simpl.
  - rewrite (convert_loop_Ok _ describes) in El by apply build_entry_Ok. split.
    + intros Hn. split; [done|]. by exists es.
    + intros (_ & es' & Hes' & Hn). assert (es' = es) as ->; [|done].
      rewrite <- (convert_loop_Ok build_entry _ 0) in El by apply build_entry_Ok.
      rewrite <- (convert_loop_Ok build_entry _ 0) in Hes' by apply build_entry_Ok. congruence.
  - split; [done|]. intros (_ & es & Hes & _).
    rewrite <- (convert_loop_Ok build_entry _ 0) in Hes by apply build_entry_Ok. congruence.
Qed.

End acl_document.

(** ** RBAC documents *)

Module rbac_document.

Definition ErrInvalidDocument := errors_New "invalid RBAC document".
Definition ErrUnsupportedDocumentVersion := errors_New "unsupported RBAC document version".
Definition ErrDocumentLimitExceeded := errors_New "RBAC document size limit exceeded".

Record RoleDocument := mkRoleDocument {
  RoleDocument_ID : RoleID;
  RoleDocument_Tenant : TenantID;
  RoleDocument_Parents : list RoleID
}.

Record PermissionDocument := mkPermissionDocument {
  PermissionDocument_ID : PolicyID;
  PermissionDocument_RoleID : RoleID;
  PermissionDocument_Tenant : TenantID;
  PermissionDocument_Action : Action;
  PermissionDocument_ResourceType : ResourceType;
  PermissionDocument_ResourceID : ResourceID;
  PermissionDocument_Effect : string;
  PermissionDocument_Priority : Z
}.

Record AssignmentDocument := mkAssignmentDocument {
  AssignmentDocument_ID : PolicyID;
  AssignmentDocument_SubjectKind : SubjectKind;
  AssignmentDocument_SubjectID : SubjectID;
  AssignmentDocument_RoleID : RoleID;
  AssignmentDocument_Tenant : TenantID
}.

Record Document := mkDocument {
  Version : Z;
  GlobalInheritance : bool;
  Limits : rbac.Limits;
  Roles : list RoleDocument;
  Permissions : list PermissionDocument;
  Assignments : list AssignmentDocument
}.

Definition parseDocumentEffect : string → result Outcome := parse_effect ErrInvalidDocument.

(** The conversion [Role(role)]. *)
Definition build_role (role : RoleDocument) : Role :=
  mkRole (RoleDocument_ID role) (RoleDocument_Tenant role) (RoleDocument_Parents role).

Definition build_permission (index : nat) (permission : PermissionDocument) : result rbac.Permission :=
  match parseDocumentEffect (PermissionDocument_Effect permission) with
  | Err err => Err (fmt_Errorf "permission %d: %w" [FmtInt (Z.of_nat index)] err)
  | Ok effect =>
      Ok (rbac.mkPermission (PermissionDocument_ID permission) (PermissionDocument_RoleID permission)
            (PermissionDocument_Tenant permission) (PermissionDocument_Action permission)
            (PermissionDocument_ResourceType permission) (PermissionDocument_ResourceID permission) effect
            (PermissionDocument_Priority permission))
  end.

Definition build_assignment (assignment : AssignmentDocument) : rbac.Assignment :=
  rbac.mkAssignment (AssignmentDocument_ID assignment)
    (mkSubject (AssignmentDocument_SubjectKind assignment) (AssignmentDocument_SubjectID assignment) [] None)
    (AssignmentDocument_RoleID assignment) (AssignmentDocument_Tenant assignment).

Definition document_options (document : Document) : list rbac.Option :=
  [rbac.WithLimits (Limits document)] ++ (if GlobalInheritance document then [rbac.WithGlobalInheritance] else []).

Definition Build `{GoRuntime} (document : Document) : result rbac.Evaluator :=
  if negb (Version document =? DocumentVersion) then Err ErrUnsupportedDocumentVersion
  else
    let roles := build_role <$> Roles document in
    permissions ← convert_loop build_permission 0 (Permissions document);
    let assignments := build_assignment <$> Assignments document in
    rbac.New roles permissions assignments (document_options document).

Definition DecodeDocument `{GoRuntime, JSONCodec Document} : string → Go (result rbac.Evaluator) :=
  Documents.DecodeDocument (λ document, Ret (Build document)) ErrInvalidDocument ErrDocumentLimitExceeded.

Definition EncodeDocument `{GoRuntime, JSONCodec Document} : Document → Go (result string) :=
  Documents.EncodeDocument (λ document, Ret (Build document)) ErrDocumentLimitExceeded.

Definition Decode `{GoRuntime, JSONCodec Document} (document : string) : Go (result Snapshot.Evaluator) :=
  decoded ← DecodeDocument document;
  Ret (ev ← decoded; Ok (rbac.as_evaluator ev)).

Definition permission_document (p : rbac.Permission) : PermissionDocument :=
  mkPermissionDocument (rbac.Permission_ID p) (rbac.Permission_RoleID p) (rbac.Permission_Tenant p)
    (rbac.Permission_Action p) (rbac.Permission_ResourceType p) (rbac.Permission_ResourceID p)
    (effect_label (rbac.Permission_Effect p)) (rbac.Permission_Priority p).

Definition describes_permission (document : PermissionDocument) (p : rbac.Permission) : Prop :=
  document = permission_document p ∧ (rbac.Permission_Effect p = Allow ∨ rbac.Permission_Effect p = Deny).

Lemma build_permission_Ok index document p :
  build_permission index document = Ok p ↔ describes_permission document p.
Proof.
  unfold build_permission, describes_permission.
  destruct (parseDocumentEffect (PermissionDocument_Effect document)) as [o|e] eqn:Ep.
  - apply parse_effect_Ok in Ep as [Ho Ee]. split.
    + intros [= <-]. split; [|done]. unfold permission_document. simpl. rewrite <- Ee. by destruct document.
    + intros (-> & Heff). simpl in *. destruct p as [i r t a rt ri eff prio]; simpl in *.
      repeat f_equal. destruct Ho as [->| ->], Heff as [->| ->]; done.
  - split; [done|]. intros (-> & Heff).
    assert (parseDocumentEffect (effect_label (rbac.Permission_Effect p)) = Ok (rbac.Permission_Effect p)) as E
      by (by apply parse_effect_Ok). simpl in Ep. congruence.
Qed.

Lemma rbac_Build_iff `{GoRuntime} document ev :
  Build document = Ok ev ↔ Version document = 1 ∧
    ∃ permissions, Forall2 describes_permission (Permissions document) permissions ∧
      rbac.New (build_role <$> Roles document) permissions (build_assignment <$> Assignments document)
        (document_options document) = Ok ev.
Proof.
  unfold Build. destruct (Z.eqb_spec (Version document) DocumentVersion) as [Ev|Ev]; simpl.
  2: { split; [done|]. by intros [? _]. }
  destruct (convert_loop build_permission 0 (Permissions document)) as [ps|e] eqn:El; simpl.
  - split.
    + intros Hn. split; [done|]. exists ps. split; [|done]. by eapply convert_loop_Ok, El; apply build_permission_Ok.
    + intros (_ & ps' & Hps' & Hn).
      rewrite <- (convert_loop_Ok build_permission _ 0) in Hps' by apply build_permission_Ok. congruence.
  - split; [done|]. intros (_ & ps & Hps & _).
    rewrite <- (convert_loop_Ok build_permission _ 0) in Hps by apply build_permission_Ok. congruence.
Qed.

End rbac_document.

(** ACL and RBAC documents build exactly the models they describe: an
    ACL document builds an evaluator iff its version is 1, every effect label
    is "allow" or "deny", and [New] accepts the described entries (subjects
    without groups or attributes) under the document's options; likewise the
    roles, permissions and assignments of an RBAC document. *)
Theorem model_documents_build `{GoRuntime} :
  (∀ document ev, acl_document.Build document = Ok ev ↔
     acl_document.Version document = 1 ∧
     ∃ entries, Forall2 acl_document.describes (acl_document.Entries document) entries ∧
       acl.New entries (acl_document.document_options document) = Ok ev) ∧
  (∀ document ev, rbac_document.Build document = Ok ev ↔
     rbac_document.Version document = 1 ∧
     ∃ permissions, Forall2 rbac_document.describes_permission (rbac_document.Permissions document) permissions ∧
       rbac.New (rbac_document.build_role <$> rbac_document.Roles document) permissions
         (rbac_document.build_assignment <$> rbac_document.Assignments document)
         (rbac_document.document_options document) = Ok ev).
Proof. split; intros document ev; [apply acl_document.acl_Build_iff|apply rbac_document.rbac_Build_iff]. Qed.
