(* ===== verification/ABACDocument.v ===== *)
(** * ABAC policy documents (abac/document.go)

    Recursive condition documents and their translation to conditions: the
    depth of every document is checked with an explicit stack before anything
    is built recursively. The text formats of instants, addresses and
    prefixes are the ones of [time] and [net/netip]. *)

From S2P Require Import Prelude NetIP NetIPText TimeText Attribute Request Decision Snapshot Engine Matching ACL RoleGraph RBAC.
From S2P Require Import Conditions ABAC Documents.

#[local] Open Scope Z_scope.

Module abac_document.

(** ** Labels *)

Definition OperatorEqual : string := "equal".
Definition OperatorExists : string := "exists".
Definition OperatorIsNull : string := "is_null".
Definition OperatorAll : string := "all".
Definition OperatorAny : string := "any".
Definition OperatorNot : string := "not".
Definition OperatorGreaterThan : string := "greater_than".
Definition OperatorLessThan : string := "less_than".
Definition OperatorIn : string := "in".
Definition OperatorSetContains : string := "set_contains".
Definition OperatorHasPrefix : string := "has_prefix".
Definition OperatorHasSuffix : string := "has_suffix".
Definition OperatorStringContains : string := "string_contains".
Definition OperatorIPIn : string := "ip_in".

(** The labels whose names are also the names of kinds and sources. *)
Module labels.
Definition SourceSubject : string := "subject".
Definition SourceResource : string := "resource".
Definition SourceRequest : string := "request".
Definition SourceEnvironment : string := "environment".
Definition ValueNull : string := "null".
Definition ValueString : string := "string".
Definition ValueBool : string := "bool".
Definition ValueInt : string := "int".
Definition ValueFloat : string := "float".
Definition ValueTime : string := "time".
Definition ValueIP : string := "ip".
Definition ValueStringSet : string := "string_set".
End labels.

(** ** Data *)

Definition ErrInvalidDocument := errors_New "invalid ABAC document".
Definition ErrUnsupportedDocumentVersion := errors_New "unsupported ABAC document version".
Definition ErrDocumentLimitExceeded := errors_New "ABAC document size limit exceeded".

Record ValueDocument := mkValueDocument {
  VD_Kind : string;
  VD_String : string;
  VD_Bool : bool;
  VD_Int : Z;
  VD_Float : float64;
  VD_Time : string;
  VD_IP : string;
  VD_StringSet : list string
}.

#[warnings="-register-all"]
Inductive ConditionDocument := mkConditionDocument {
  CD_Operator : string;
  CD_Source : string;
  CD_Attribute : AttributeName;
  CD_Value : option ValueDocument;
  CD_Values : list ValueDocument;
  CD_Conditions : list ConditionDocument;
  CD_Condition : option ConditionDocument;
  CD_Text : string;
  CD_Prefix : string
}.

Record RuleDocument := mkRuleDocument {
  RD_ID : PolicyID;
  RD_Priority : Z;
  RD_Tenant : TenantID;
  RD_Action : Action;
  RD_ResourceType : ResourceType;
  RD_ResourceID : ResourceID;
  RD_Effect : string;
  RD_Condition : option ConditionDocument;
  RD_ConditionName : string;
  RD_ConditionVersion : Z
}.

Record NamedConditionDocument := mkNamedConditionDocument {
  ND_Name : string;
  ND_Version : Z;
  ND_Condition : ConditionDocument
}.

Record Document := mkDocument {
  Version : Z;
  Limits : abac.Limits;
  Rules : list RuleDocument;
  NamedConditions : list NamedConditionDocument
}.

(** ** Building values and conditions *)

Definition or_invalid {A} (o : option A) : result A :=
  match o with Some a => Ok a | None => Err ErrInvalidDocument end.

Definition value_build (document : ValueDocument) : result Value :=
  let kind := VD_Kind document in
  if bool_decide (kind = labels.ValueNull) then Ok NullValue
  else if bool_decide (kind = labels.ValueString) then Ok (StringValue (VD_String document))
  else if bool_decide (kind = labels.ValueBool) then Ok (BoolValue (VD_Bool document))
  else if bool_decide (kind = labels.ValueInt) then Ok (IntValue (VD_Int document))
  else if bool_decide (kind = labels.ValueFloat) then FloatValue (VD_Float document)
  else if bool_decide (kind = labels.ValueTime) then
    value ← or_invalid (time_Parse (VD_Time document)); Ok (TimeValue value)
  else if bool_decide (kind = labels.ValueIP) then
    value ← or_invalid (netip_ParseAddr (VD_IP document)); Ok (IPValue value)
  else if bool_decide (kind = labels.ValueStringSet) then Ok (StringSetValue (VD_StringSet document))
  else Err ErrInvalidDocument.

Definition reference (document : ConditionDocument) : result Reference :=
  source ← (if bool_decide (CD_Source document = labels.SourceSubject) then Ok SourceSubject
            else if bool_decide (CD_Source document = labels.SourceResource) then Ok SourceResource
            else if bool_decide (CD_Source document = labels.SourceRequest) then Ok SourceRequest
            else if bool_decide (CD_Source document = labels.SourceEnvironment) then Ok SourceEnvironment
            else Err ErrInvalidDocument);
  if bool_decide (CD_Attribute document = "") then Err ErrInvalidDocument
  else Ok (mkReference source (CD_Attribute document)).

(** The loop over the documents of an [in]. *)
Fixpoint build_values (documents : list ValueDocument) : result (list Value) :=
  match documents with
  | [] => Ok []
  | document :: documents =>
      value ← value_build document;
      values ← build_values documents;
      Ok (value :: values)
  end.

(** The operators that read an attribute: the code after [reference()]. *)
Definition build_leaf (document : ConditionDocument) : result Condition :=
  ref ← reference document;
  let operator := CD_Operator document in
  if bool_decide (operator = OperatorExists) then Ok (Exists_ ref)
  else if bool_decide (operator = OperatorIsNull) then Ok (IsNull ref)
  else if bool_decide (operator ∈ [OperatorEqual; OperatorGreaterThan; OperatorLessThan]) then
    match CD_Value document with
    | None => Err ErrInvalidDocument
    | Some document =>
        value ← value_build document;
        Ok (if bool_decide (operator = OperatorEqual) then Equal ref value
            else if bool_decide (operator = OperatorGreaterThan) then GreaterThan ref value
            else LessThan ref value)
    end
  else if bool_decide (operator = OperatorIn) then
    values ← build_values (CD_Values document); Ok (In_ ref values)
  else if bool_decide (operator = OperatorSetContains) then Ok (SetContains ref (CD_Text document))
  else if bool_decide (operator = OperatorHasPrefix) then Ok (HasPrefix ref (CD_Text document))
  else if bool_decide (operator = OperatorHasSuffix) then Ok (HasSuffix ref (CD_Text document))
  else if bool_decide (operator = OperatorStringContains) then Ok (StringContains ref (CD_Text document))
  else if bool_decide (operator = OperatorIPIn) then
    prefix ← or_invalid (netip_ParsePrefix (CD_Prefix document)); Ok (IPIn ref prefix)
  else Err ErrInvalidDocument.

Fixpoint condition_build (document : ConditionDocument) : result Condition :=
  if bool_decide (CD_Operator document ∈ [OperatorAll; OperatorAny]) then
    conditions ← foldr (λ child rest,
                    condition ← condition_build child;
                    conditions ← rest;
                    Ok (Some condition :: conditions)) (Ok []) (CD_Conditions document);
    Ok (if bool_decide (CD_Operator document = OperatorAll) then All_ conditions else Any_ conditions)
  else if bool_decide (CD_Operator document = OperatorNot) then
    match CD_Condition document with
    | None => Err ErrInvalidDocument
    | Some child => condition ← condition_build child; Ok (Not_ (Some condition))
    end
  else build_leaf document.

(** ** The depth check *)

(** The children [validateConditionDocumentLimits] pushes. *)
Definition document_children (document : ConditionDocument) : list ConditionDocument :=
  if bool_decide (CD_Operator document ∈ [OperatorAll; OperatorAny]) then CD_Conditions document
  else if bool_decide (CD_Operator document = OperatorNot) then
    match CD_Condition document with Some child => [child] | None => [] end
  else [].

Fixpoint document_loop (fuel : nat) (ls : abac.Limits) (stack : list (ConditionDocument * Z)) : option error :=
  match stack with
  | [] => None
  | (current, depth) :: stack =>
      match fuel with
      | O => Some diverged
      | S fuel =>
          if abac.MaxDepth ls <? depth then Some ErrDepthExceeded
          else document_loop fuel ls (map (λ child, (child, depth + 1)) (document_children current) ++ stack)
      end
  end.

(** The nodes and the depth of a document, of the children that are used. *)
Fixpoint document_size (document : ConditionDocument) : Z :=
  1 + (if bool_decide (CD_Operator document ∈ [OperatorAll; OperatorAny])
       then foldr (λ child acc, document_size child + acc) 0 (CD_Conditions document)
       else if bool_decide (CD_Operator document = OperatorNot)
       then match CD_Condition document with Some child => document_size child | None => 0 end
       else 0).

Fixpoint document_depth (document : ConditionDocument) : Z :=
  1 + (if bool_decide (CD_Operator document ∈ [OperatorAll; OperatorAny])
       then foldr (λ child acc, Z.max (document_depth child) acc) 0 (CD_Conditions document)
       else if bool_decide (CD_Operator document = OperatorNot)
       then match CD_Condition document with Some child => document_depth child | None => 0 end
       else 0).

Definition validateConditionDocumentLimits (root : ConditionDocument) (ls : abac.Limits) : option error :=
  document_loop (Z.to_nat (document_size root)) ls [(root, 1)].

(** ** Build *)

Definition parseDocumentEffect : string → result Outcome := parse_effect ErrInvalidDocument.

Definition wrap_index (format : string) (index : nat) (err : error) : error :=
  fmt_Errorf format [FmtInt (Z.of_nat index)] err.

(** A loop that returns the first error of a check, with its index. *)
Fixpoint check_loop {A} (check : A → option error) (format : string) (index : nat) (l : list A) : option error :=
  match l with
  | [] => None
  | a :: l =>
      match check a with
      | Some err => Some (wrap_index format index err)
      | None => check_loop check format (S index) l
      end
  end.

Definition check_rule (ls : abac.Limits) (rule : RuleDocument) : option error :=
  match RD_Condition rule with
  | Some condition => validateConditionDocumentLimits condition ls
  | None => None
  end.

Definition build_named (index : nat) (definition : NamedConditionDocument) :
    result abac.NamedCondition :=
  match condition_build (ND_Condition definition) with
  | Err err => Err (wrap_index "named condition %d: %w" index err)
  | Ok condition => Ok (abac.mkNamedCondition (ND_Name definition) (ND_Version definition) (Some condition))
  end.

Definition build_rule (index : nat) (rule : RuleDocument) : result abac.Rule :=
  match parseDocumentEffect (RD_Effect rule) with
  | Err err => Err (wrap_index "rule %d: %w" index err)
  | Ok effect =>
      let condition :=
        match RD_Condition rule with
        | None => Ok None
        | Some document => condition ← condition_build document; Ok (Some condition)
        end in
      match condition with
      | Err err => Err (wrap_index "rule %d: %w" index err)
      | Ok condition =>
          Ok (abac.mkRule (RD_ID rule) (RD_Priority rule) (RD_Tenant rule) (RD_Action rule) (RD_ResourceType rule)
                (RD_ResourceID rule) effect condition (RD_ConditionName rule) (RD_ConditionVersion rule))
      end
  end.

Definition Build (document : Document) : Go (result abac.Evaluator) :=
  if negb (Version document =? DocumentVersion) then Ret (Err ErrUnsupportedDocumentVersion)
  else
    let ls := abac.normalizedLimits (Limits document) in
    match check_loop (λ definition, validateConditionDocumentLimits (ND_Condition definition) ls)
            "named condition %d: %w" 0 (NamedConditions document) with
    | Some err => Ret (Err err)
    | None =>
        match check_loop (check_rule ls) "rule %d: %w" 0 (Rules document) with
        | Some err => Ret (Err err)
        | None =>
            match convert_loop build_named 0 (NamedConditions document) with
            | Err err => Ret (Err err)
            | Ok named =>
                match convert_loop build_rule 0 (Rules document) with
                | Err err => Ret (Err err)
                | Ok rules => abac.New rules named [abac.WithLimits (Limits document)]
                end
            end
        end
    end.

Definition DecodeDocument `{JSONCodec Document} : string → Go (result abac.Evaluator) :=
  Documents.DecodeDocument Build ErrInvalidDocument ErrDocumentLimitExceeded.

Definition EncodeDocument `{JSONCodec Document} : Document → Go (result string) :=
  Documents.EncodeDocument Build ErrDocumentLimitExceeded.

Definition Decode `{JSONCodec Document} (document : string) : Go (result Snapshot.Evaluator) :=
  decoded ← DecodeDocument document;
  Ret (ev ← decoded; Ok (abac.as_evaluator ev)).

(** ** The depth check *)

Section document_ind.
Context (P : ConditionDocument → Prop).
Context (Hstep : ∀ d, (∀ child, child ∈ document_children d → P child) → P d).

Lemma ConditionDocument_tree_ind (d : ConditionDocument) : P d.
Proof.
  revert d. fix IH 1. intros d. apply Hstep. unfold document_children.
  destruct d as [op src att v vs cs c text pre]. simpl.
  assert (Forall P cs) as Hcs.
  { induction cs as [|x cs IHcs]; constructor; [apply IH|apply IHcs]. }
  assert (match c with Some x => P x | None => True end) as Hc.
  { destruct c as [x|]; [apply IH|exact I]. }
  rewrite Forall_forall in Hcs. clear IH.
  intros child. destruct (bool_decide _); [apply Hcs|]. destruct (bool_decide _); [|by intros ?%not_elem_of_nil].
  destruct c as [x|]; [|by intros ?%not_elem_of_nil]. by intros ->%list_elem_of_singleton.
Qed.
End document_ind.

Definition document_sizes (ds : list ConditionDocument) : Z := foldr (λ child acc, document_size child + acc) 0 ds.

Definition document_depths (ds : list ConditionDocument) : Z :=
  foldr (λ child acc, Z.max (document_depth child) acc) 0 ds.

Lemma document_size_children d : document_size d = 1 + document_sizes (document_children d).
Proof.
  destruct d as [op src att v vs cs c text pre]. unfold document_children. simpl.
  destruct (bool_decide _); [done|]. destruct (bool_decide _); [|done]. destruct c; simpl; lia.
Qed.

Lemma document_size_pos d : 1 ≤ document_size d.
Proof.
  induction d as [d IH] using ConditionDocument_tree_ind. rewrite document_size_children.
  assert (∀ ds, (∀ x, x ∈ ds → 1 ≤ document_size x) → 0 ≤ document_sizes ds) as H; [|specialize (H _ IH); lia].
  clear. induction ds as [|x ds IHds]; intros H; simpl; [done|].
  assert (1 ≤ document_size x) by (apply H; by left).
  assert (0 ≤ document_sizes ds) by (apply IHds; intros; apply H; by right). unfold document_sizes in *. lia.
Qed.

Lemma document_depth_children d :
  (∀ child, child ∈ document_children d → 1 ≤ document_depth child) →
  document_depth d = 1 + document_depths (document_children d).
Proof.
  destruct d as [op src att v vs cs c text pre]. unfold document_children. simpl. intros H.
  destruct (bool_decide _); [done|]. destruct (bool_decide _); [|done]. destruct c as [c|]; simpl; [|done].
  specialize (H c ltac:(by left)). lia.
Qed.

Lemma document_depth_pos d : 1 ≤ document_depth d.
Proof.
  induction d as [d IH] using ConditionDocument_tree_ind. rewrite document_depth_children by done.
  assert (∀ ds, 0 ≤ document_depths ds) as H; [|specialize (H (document_children d)); lia].
  induction ds; simpl; [done|]. unfold document_depths in *. lia.
Qed.

Definition stack_sizes (stack : list (ConditionDocument * Z)) : Z :=
  foldr (λ frame acc, document_size frame.1 + acc) 0 stack.

Lemma stack_sizes_push depth ds stack :
  stack_sizes (map (λ child, (child, depth)) ds ++ stack) = document_sizes ds + stack_sizes stack.
Proof.
  induction ds as [|x ds IH]; [done|]. unfold stack_sizes, document_sizes in *. simpl. rewrite IH. lia.
Qed.

(** The loop accepts exactly the documents within the depth limit. *)
Lemma document_loop_spec fuel ls stack :
  stack_sizes stack ≤ Z.of_nat fuel →
  let within := Forall (λ frame, frame.2 - 1 + document_depth frame.1 ≤ abac.MaxDepth ls) stack in
  (within ∧ document_loop fuel ls stack = None) ∨ (¬ within ∧ document_loop fuel ls stack = Some ErrDepthExceeded).
Proof.
  revert stack. induction fuel as [|fuel IH]; intros [|[d depth] stack] Hfuel; simpl.
  1, 3: left; split; [constructor|done].
  all: unfold stack_sizes in Hfuel; simpl in Hfuel; fold (stack_sizes stack) in Hfuel;
    pose proof (document_size_pos d) as Hpos.
  { assert (∀ st, 0 ≤ stack_sizes st) as H.
    { induction st as [|[x ?] st IHst]; unfold stack_sizes in *; simpl; [done|]. pose proof (document_size_pos x). lia. }
    specialize (H stack). lia. }
  rewrite Forall_cons. simpl. pose proof (document_depth_pos d).
  destruct (Z.ltb_spec (abac.MaxDepth ls) depth) as [Hd|Hd]; [right; split; [lia|done]|].
  destruct (IH (map (λ child, (child, depth + 1)) (document_children d) ++ stack)) as [[Hw ->]|[Hw ->]].
  - rewrite stack_sizes_push. rewrite document_size_children in Hfuel. lia.
  - left. split; [|done]. apply Forall_app in Hw as [Hch Hst]. split; [|done].
    rewrite document_depth_children by (intros; apply document_depth_pos).
    assert (∀ ds, Forall (λ frame, frame.2 - 1 + document_depth frame.1 ≤ abac.MaxDepth ls)
      (map (λ child, (child, depth + 1)) ds) → depth + document_depths ds ≤ abac.MaxDepth ls) as Hmax.
    { clear -Hd. induction ds as [|x ds IHds]; simpl; [lia|]. intros [? ?%IHds]%Forall_cons. simpl in *.
      unfold document_depths in *. lia. }
    specialize (Hmax _ Hch). lia.
  - right. split; [|done]. intros [Hle Hst]. apply Hw, Forall_app. split; [|done]. apply Forall_forall.
    intros frame (child & -> & Hin)%elem_of_map. simpl.
    rewrite document_depth_children in Hle by (intros; apply document_depth_pos).
    assert (∀ ds, child ∈ ds → document_depth child ≤ document_depths ds) as Hmax.
    { induction ds as [|x ds IHds]; [by intros ?%not_elem_of_nil|]. unfold document_depths in *. simpl.
      intros [->|?%IHds]%elem_of_cons; lia. }
    specialize (Hmax _ Hin). lia.
Qed.

Lemma validateConditionDocumentLimits_cases d ls :
  validateConditionDocumentLimits d ls =
  if decide (document_depth d ≤ abac.MaxDepth ls) then None else Some ErrDepthExceeded.
Proof.
  unfold validateConditionDocumentLimits. pose proof (document_size_pos d).
  destruct (document_loop_spec (Z.to_nat (document_size d)) ls [(d, 1)]) as [[Hw ->]|[Hw ->]];
    [unfold stack_sizes; simpl; lia|..]; rewrite Forall_singleton in Hw; simpl in Hw; case_decide; done || lia.
Qed.

(** ** Conditions of documents *)

Section building.

Definition children_build (ds : list ConditionDocument) : result (list (option Condition)) :=
  foldr (λ child rest, condition ← condition_build child; conditions ← rest; Ok (Some condition :: conditions))
    (Ok []) ds.

Lemma children_build_Ok ds cs :
  children_build ds = Ok cs ↔ Forall2 (λ d child, ∃ c, condition_build d = Ok c ∧ child = Some c) ds cs.
Proof.
  revert cs. induction ds as [|d ds IH]; intros cs; simpl.
  { split; [by intros [= <-]|]. by intros ->%Forall2_nil_inv_l. }
  split.
  - destruct (condition_build d) as [c|] eqn:Ec; simpl; [|done].
    change (foldr _ (Ok []) ds) with (children_build ds).
    destruct (children_build ds) as [cs'|] eqn:Es; simpl; [|done]. intros [= <-].
    constructor; [by exists c|by apply IH].
  - intros (child & cs' & (c & -> & ->) & Hcs & ->)%Forall2_cons_inv_l. simpl.
    change (foldr _ (Ok []) ds) with (children_build ds). apply IH in Hcs. by rewrite Hcs.
Qed.

(** The shapes of a document that builds. *)
Lemma condition_build_inv d c :
  condition_build d = Ok c →
  (CD_Operator d = "all" ∧ ∃ cs, c = allCondition cs ∧ children_build (CD_Conditions d) = Ok cs) ∨
  (CD_Operator d = "any" ∧ ∃ cs, c = anyCondition cs ∧ children_build (CD_Conditions d) = Ok cs) ∨
  (CD_Operator d = "not" ∧ ∃ child c', CD_Condition d = Some child ∧ c = notCondition (Some c') ∧
     condition_build child = Ok c') ∨
  ((CD_Operator d ∉ ["all"; "any"; "not"]) ∧ build_leaf d = Ok c).
Proof.
  destruct d as [op src att v vs cs child text pre]. cbn [condition_build CD_Operator CD_Conditions CD_Condition].
  change (foldr _ (Ok []) cs) with (children_build cs). case_bool_decide as Eo.
  - destruct (children_build cs) as [cs'|] eqn:Es; simpl; [|done]. intros [= <-].
    apply elem_of_cons in Eo as [->|Eo]; [left|right; left]; [|apply list_elem_of_singleton in Eo as ->];
      (split; [done|by exists cs']).
  - case_bool_decide as En.
    + destruct child as [child|]; [|done]. destruct (condition_build child) as [c'|] eqn:Ec; simpl; [|done].
      intros [= <-]. right; right; left. split; [done|]. by exists child, c'.
    + intros E. do 3 right. split; [simpl; set_solver|done].
Qed.

(** Leaves are built by leaf operators. *)
Lemma build_leaf_children d c : build_leaf d = Ok c → conditionChildren c = [] ∧ cond_depth c = 1.
Proof.
  unfold build_leaf. destruct (reference d) as [ref|]; simpl; [|done].
  unfold mbind, result_bind. intros E. split_result E; try done. by repeat case_bool_decide.
Qed.

(** A built condition has the depth of its document. *)
Lemma condition_build_depth d c : condition_build d = Ok c → cond_depth c = document_depth d.
Proof.
  revert c. induction d as [d IH] using ConditionDocument_tree_ind. intros c E.
  assert (∀ ds cs, (∀ x, x ∈ ds → ∀ c, condition_build x = Ok c → cond_depth c = document_depth x) →
    children_build ds = Ok cs → abac.depths cs = document_depths ds) as Hcs.
  { intros ds cs Hds Hb. apply children_build_Ok in Hb. revert Hds.
    induction Hb as [|x child ds cs (c' & Hc' & ->) _ IHb]; intros Hds; [done|]. simpl.
    rewrite (Hds x ltac:(by left) c' Hc'). f_equal. apply IHb. intros y Hy. apply Hds. by right. }
  rewrite document_depth_children by (intros; apply document_depth_pos). rewrite abac.cond_depth_children.
  unfold document_children in *.
  apply condition_build_inv in E as [(Eo & cs & -> & Hb)|[(Eo & cs & -> & Hb)|[(Eo & x & c' & Ex & -> & Hb)|[Eo Hb]]]].
  1, 2: rewrite Eo in *; rewrite bool_decide_true in * by set_solver; simpl; by rewrite (Hcs _ _ IH Hb).
  - rewrite Eo, Ex in *. simpl in *. by rewrite (IH x ltac:(by left) c' Hb).
  - rewrite !bool_decide_false by set_solver. by rewrite (proj1 (build_leaf_children _ _ Hb)).
Qed.

(** ** Every valid condition has a document *)

(** A literal the document formats can write: the texts of instants and
    addresses are the ones the parsers accept. *)
Definition expressible_value (v : Value) : Prop :=
  Value_wf v ∧ (kind v = ValueTime → ∃ text, time_Parse text = Some (timeVal v)) ∧
  (kind v = ValueIP → ∃ text, netip_ParseAddr text = Some (ipVal v)).

Definition expressible_node (c : Condition) : Prop :=
  match c with
  | comparisonCondition _ want _ | equalCondition _ want => expressible_value want
  | inCondition _ values => Forall expressible_value values
  | ipCondition _ prefix => ∃ text p, netip_ParsePrefix text = Some p ∧ prefix_Masked p = prefix
  | _ => True
  end.

Fixpoint expressible (c : Condition) : Prop :=
  expressible_node c ∧
  match c with
  | allCondition cs | anyCondition cs =>
      foldr (λ child acc, match child with Some c => expressible c | None => True end ∧ acc) True cs
  | notCondition (Some c) => expressible c
  | _ => True
  end.

Definition zeroValueDocument : ValueDocument := mkValueDocument "" "" false 0 zeroFloat "" "" [].

Lemma value_document v :
  kind v ≠ ValueMissing → expressible_value v → ∃ d, value_build d = Ok v.
Proof.
  intros Hk (Hwf & Ht & Hip). unfold Value_wf in Hwf. destruct (kind v) eqn:Ek; [done|..].
  - exists (mkValueDocument "null" "" false 0 zeroFloat "" "" []). by rewrite Hwf.
  - exists (mkValueDocument "string" (stringVal v) false 0 zeroFloat "" "" []). by rewrite Hwf.
  - exists (mkValueDocument "bool" "" (boolVal v) 0 zeroFloat "" "" []). by rewrite Hwf.
  - exists (mkValueDocument "int" "" false (intVal v) zeroFloat "" "" []). by rewrite Hwf.
  - by exists (mkValueDocument "float" "" false 0 (floatVal v) "" "" []).
  - destruct (Ht eq_refl) as [text E]. exists (mkValueDocument "time" "" false 0 zeroFloat text "" []).
    unfold value_build. simpl. rewrite E. simpl. by rewrite <- Hwf.
  - destruct (Hip eq_refl) as [text E]. exists (mkValueDocument "ip" "" false 0 zeroFloat "" text []).
    unfold value_build. simpl. rewrite E. simpl. by rewrite <- Hwf.
  - exists (mkValueDocument "string_set" "" false 0 zeroFloat "" "" (setVal v)). unfold value_build. simpl.
    by rewrite <- (proj1 Hwf).
Qed.

Lemma values_document vs :
  Forall (λ v, kind v ≠ ValueMissing) vs → Forall expressible_value vs → ∃ ds, build_values ds = Ok vs.
Proof.
  induction vs as [|v vs IH]; intros Hk Hv; [by exists []|].
  apply Forall_cons in Hk as [Hk Hks]. apply Forall_cons in Hv as [Hv Hvs].
  destruct (value_document v Hk Hv) as [d Ed], (IH Hks Hvs) as [ds Eds]. exists (d :: ds). simpl.
  rewrite Ed. simpl. by rewrite Eds.
Qed.

Definition source_label (s : Source) : string :=
  match s with
  | SourceSubject => "subject" | SourceResource => "resource" | SourceRequest => "request"
  | SourceEnvironment => "environment" | SourceOther _ => ""
  end.

(** The document of a leaf. *)
Definition leaf_document (operator : string) (r : Reference) (value : option ValueDocument)
    (values : list ValueDocument) (text prefix : string) : ConditionDocument :=
  mkConditionDocument operator (source_label (Reference_Source r)) (Reference_Name r) value values [] None text prefix.

Lemma leaf_reference operator r value values text prefix :
  validateReference r = None → reference (leaf_document operator r value values text prefix) = Ok r.
Proof.
  unfold validateReference. destruct r as [src name]. simpl. destruct (N.ltb_spec 3 (source_code src)); [done|].
  unfold reference. simpl. case_bool_decide; [done|]. intros _. destruct src; try done. simpl in *. lia.
Qed.

Lemma leaf_document_build operator r value values text prefix :
  bool_decide (operator ∈ [OperatorAll; OperatorAny]) = false → bool_decide (operator = OperatorNot) = false →
  condition_build (leaf_document operator r value values text prefix) =
  build_leaf (leaf_document operator r value values text prefix).
Proof. intros E1 E2. unfold leaf_document. cbn [condition_build CD_Operator]. by rewrite E1, E2. Qed.

Lemma candidates_present vs : validateCandidates vs = None → Forall (λ v, kind v ≠ ValueMissing) vs.
Proof.
  unfold validateCandidates. destruct vs as [|first vs]; [done|]. case_bool_decide as E1; [done|]. cbn [orb].
  destruct (bool_decide (Value_Kind first = ValueNull)); [done|].
  destruct (existsb _ (first :: vs)) eqn:E; [done|]. intros _. apply Forall_forall. intros v Hv Hk. apply E1.
  apply not_true_iff_false in E. destruct (decide (Value_Kind v = Value_Kind first)) as [<-|Hne]; [done|].
  destruct E. apply existsb_exists. exists v. split; [by apply list_elem_of_In|]. by rewrite bool_decide_false.
Qed.

Lemma leaf_has_document c :
  validate c = None → expressible_node c → conditionChildren c = [] →
  (∀ cs, c ≠ anyCondition cs) → (∀ cs, c ≠ allCondition cs) → ∃ d, condition_build d = Ok c.
Proof.
  intros Hv He Hch Hany Hall.
  destruct c as [r|r|cs|[c|]|r w o|r vs|r v|r v o|r p|r w|cs]; try (by destruct (Hany cs)); try (by destruct (Hall cs));
    try done; cbn [validate] in Hv; cbn [expressible_node] in He; unfold comparison_validate, equal_validate in *.
  - exists (leaf_document "exists" r None [] "" ""). rewrite leaf_document_build by done. unfold build_leaf. by rewrite leaf_reference by done.
  - exists (leaf_document "is_null" r None [] "" ""). rewrite leaf_document_build by done. unfold build_leaf. by rewrite leaf_reference by done.
  - destruct (validateReference r) eqn:Er; [done|].
    assert (kind w ≠ ValueMissing) as Hk by (intros E; unfold Value_Kind in Hv; by rewrite E in Hv).
    destruct (value_document w Hk He) as [d Ed]. destruct o.
    + exists (leaf_document "greater_than" r (Some d) [] "" ""). rewrite leaf_document_build by done. unfold build_leaf.
      rewrite leaf_reference by done. simpl. by rewrite Ed.
    + exists (leaf_document "less_than" r (Some d) [] "" ""). rewrite leaf_document_build by done. unfold build_leaf.
      rewrite leaf_reference by done. simpl. by rewrite Ed.
  - destruct (validateReference r) eqn:Er; [done|].
    destruct (values_document vs (candidates_present vs Hv) He) as [ds Eds].
    exists (leaf_document "in" r None ds "" ""). rewrite leaf_document_build by done. unfold build_leaf. rewrite leaf_reference by done. simpl.
    by rewrite Eds.
  - exists (leaf_document "set_contains" r None [] v ""). rewrite leaf_document_build by done. unfold build_leaf. by rewrite leaf_reference by done.
  - destruct o; [exists (leaf_document "has_prefix" r None [] v "")|exists (leaf_document "has_suffix" r None [] v "")
      |exists (leaf_document "string_contains" r None [] v "")]; rewrite leaf_document_build by done; unfold build_leaf; by rewrite leaf_reference by done.
  - destruct (negb (prefix_IsValid p)); [done|]. destruct He as (text & p' & Ep & <-).
    exists (leaf_document "ip_in" r None [] "" text). rewrite leaf_document_build by done. unfold build_leaf. rewrite leaf_reference by done. simpl.
    by rewrite Ep.
  - destruct (validateReference r) eqn:Er; [done|]. destruct (bool_decide (Value_Kind w = ValueMissing)) eqn:Ek; [done|].
    apply bool_decide_eq_false in Ek. destruct (value_document w Ek He) as [d Ed].
    exists (leaf_document "equal" r (Some d) [] "" ""). rewrite leaf_document_build by done. unfold build_leaf.
    rewrite leaf_reference by done. simpl. by rewrite Ed.
Qed.

Lemma children_have_documents cs :
  (∀ c, Some c ∈ cs → cond_valid c → expressible c → ∃ d, condition_build d = Ok c) →
  (∀ child, child ∈ cs → ∃ c, child = Some c ∧ cond_valid c) →
  foldr (λ child acc, match child with Some c => expressible c | None => True end ∧ acc) True cs →
  ∃ ds, children_build ds = Ok cs.
Proof.
  induction cs as [|child cs IH]; intros Hd Hv He; [by exists []|].
  destruct (Hv child ltac:(by left)) as (c & -> & Hc). destruct He as [Hec Hecs].
  destruct (Hd c ltac:(by left) Hc Hec) as [d Ed].
  destruct IH as [ds Eds]; [intros; apply Hd; [by right|done..]|intros; apply Hv; by right|done|].
  exists (d :: ds). apply children_build_Ok in Eds. apply children_build_Ok. constructor; [by exists c|done].
Qed.

(** Every valid condition with expressible literals is built by a document. *)
Lemma condition_has_document c : cond_valid c → expressible c → ∃ d, condition_build d = Ok c.
Proof.
  induction c as [c Hleaf Hany Hall|cs IH|cs IH|c IH] using Condition_tree_ind; intros Hv He.
  - apply leaf_has_document; [by apply abac.cond_valid_unfold in Hv as [? _]| |done..].
    by destruct c; destruct He.
  - apply abac.cond_valid_unfold in Hv as [_ Hv]. destruct He as [_ He].
    destruct (children_have_documents cs IH Hv He) as [ds Eds].
    exists (mkConditionDocument "any" "" "" None [] ds None "" ""). simpl.
    change (foldr _ (Ok []) ds) with (children_build ds). by rewrite Eds.
  - apply abac.cond_valid_unfold in Hv as [_ Hv]. destruct He as [_ He].
    destruct (children_have_documents cs IH Hv He) as [ds Eds].
    exists (mkConditionDocument "all" "" "" None [] ds None "" ""). simpl.
    change (foldr _ (Ok []) ds) with (children_build ds). by rewrite Eds.
  - destruct Hv as [_ Hv], He as [_ He]. destruct (IH Hv He) as [d Ed].
    exists (mkConditionDocument "not" "" "" None [] [] (Some d) "" ""). simpl. by rewrite Ed.
Qed.
End building.

(** ** Documents *)

Section documents.

Definition describes_named (document : NamedConditionDocument) (definition : abac.NamedCondition) : Prop :=
  ∃ c, condition_build (ND_Condition document) = Ok c ∧
    definition = abac.mkNamedCondition (ND_Name document) (ND_Version document) (Some c).

(** The rule a document describes: the same fields, the effect its label
    names, and the condition its document builds, if it has one. *)
Definition describes_rule (document : RuleDocument) (rule : abac.Rule) : Prop :=
  ∃ effect condition,
    (effect = Allow ∨ effect = Deny) ∧ RD_Effect document = effect_label effect ∧
    match RD_Condition document, condition with
    | None, None => True
    | Some d, Some c => condition_build d = Ok c
    | _, _ => False
    end ∧
    rule = abac.mkRule (RD_ID document) (RD_Priority document) (RD_Tenant document) (RD_Action document)
             (RD_ResourceType document) (RD_ResourceID document) effect condition
             (RD_ConditionName document) (RD_ConditionVersion document).

Lemma build_named_Ok index document definition :
  build_named index document = Ok definition ↔ describes_named document definition.
Proof.
  unfold build_named, describes_named. destruct (condition_build (ND_Condition document)) as [c|e] eqn:E.
  - split; [intros [= <-]; by exists c|]. by intros (c' & [= <-] & ->).
  - split; [done|]. by intros (c' & ? & _).
Qed.

Lemma build_rule_Ok index document rule : build_rule index document = Ok rule ↔ describes_rule document rule.
Proof.
  unfold build_rule, describes_rule. split.
  - destruct (parseDocumentEffect (RD_Effect document)) as [effect|] eqn:Ee; [|done].
    apply parse_effect_Ok in Ee as [? ?]. destruct (RD_Condition document) as [d|].
    + destruct (condition_build d) as [c|] eqn:Ec; simpl; [|done]. intros [= <-]. by exists effect, (Some c).
    + intros [= <-]. by exists effect, None.
  - intros (effect & condition & Heff & El & Hc & ->).
    assert (parseDocumentEffect (RD_Effect document) = Ok effect) as -> by (by apply parse_effect_Ok).
    destruct (RD_Condition document) as [d|], condition as [c|]; try done. by rewrite Hc.
Qed.

Lemma check_loop_None {A} (check : A → option error) format index l :
  check_loop check format index l = None ↔ Forall (λ a, check a = None) l.
Proof.
  revert index. induction l as [|a l IH]; intros index; simpl; [by split; [constructor|]|].
  rewrite Forall_cons, <- (IH (S index)). destruct (check a); naive_solver.
Qed.

Lemma configured_document ls : abac.configured [abac.WithLimits ls] = abac.normalizedLimits ls.
Proof. done. Qed.

(** Construction rejects conditions that are too deep by itself. *)
Lemma New_depths (document : Document) named rules ev :
  Forall2 describes_named (NamedConditions document) named → Forall2 describes_rule (Rules document) rules →
  abac.New rules named [abac.WithLimits (Limits document)] = Ret (Ok ev) →
  let ls := abac.normalizedLimits (Limits document) in
  Forall (λ definition, validateConditionDocumentLimits (ND_Condition definition) ls = None) (NamedConditions document) ∧
  Forall (λ rule, check_rule ls rule = None) (Rules document).
Proof.
  intros Hn Hr Hnew ls.
  destruct (abac.abac_New_cases rules named [abac.WithLimits (Limits document)]) as (r & E & Hacc);
    [by repeat constructor|]. rewrite Hnew in E. simplify_eq. destruct Hacc as (resolved & Hacc & _).
  rewrite configured_document in Hacc. fold ls in Hacc. destruct Hacc as [_ _ Hnamed _ Hres _].
  assert (∀ d c, condition_build d = Ok c → abac.admitted ls c → validateConditionDocumentLimits d ls = None) as Hd.
  { intros d c Hb (_ & Hdep & _). rewrite validateConditionDocumentLimits_cases, decide_True; [done|].
    by rewrite <- (condition_build_depth _ _ Hb). }
  split.
  - clear -Hn Hnamed Hd. induction Hn as [|d definition ds named (c & Hb & ->) _ IH]; constructor.
    + apply Forall_cons in Hnamed as [(_ & _ & c' & ? & Ha) _]. simplify_eq/=. by eapply Hd.
    + apply IH. by apply Forall_cons in Hnamed as [_ ?].
  - clear -Hr Hres Hd. revert resolved Hres.
    induction Hr as [|d rule ds rules (effect & condition & _ & _ & Hc & ->) _ IH]; intros resolved Hres; constructor.
    + apply Forall2_cons_inv_l in Hres as (y & k & (_ & _ & _ & _ & c & Hc' & Ha & _) & _ & _). unfold check_rule.
      destruct (RD_Condition d) as [cd|]; [|done]. destruct condition as [c'|]; [|done]. eapply Hd; [done|].
      destruct Hc' as [(_ & _ & ?)|(_ & _ & ? & _)]; by simplify_eq/=.
    + apply Forall2_cons_inv_l in Hres as (y & k & _ & Hk & _). by eapply IH.
Qed.
End documents.

(** [Build] of an ABAC document never panics and succeeds exactly when
    the version is 1, every condition and effect can be built, and [New]
    accepts the rules and named conditions the document describes, with the
    document's limits: the depth check that precedes the recursive
    translation bounds it and rejects nothing that [New] would accept. *)
Theorem abac_Build_spec (document : Document) :
  ∃ r, Build document = Ret r ∧
    ∀ ev, r = Ok ev ↔ Version document = 1 ∧
      ∃ named rules, Forall2 describes_named (NamedConditions document) named ∧
        Forall2 describes_rule (Rules document) rules ∧
        abac.New rules named [abac.WithLimits (Limits document)] = Ret (Ok ev).
Proof.
  unfold Build. destruct (Z.eqb_spec (Version document) DocumentVersion) as [Ev|Ev]; simpl.
  2: { eexists. split; [done|]. intros ev. split; [done|]. by intros [? _]. }
  set (ls := abac.normalizedLimits (Limits document)).
  assert (∀ named, convert_loop build_named 0 (NamedConditions document) = Ok named ↔
    Forall2 describes_named (NamedConditions document) named) as Hnamed.
  { intros named. apply convert_loop_Ok, build_named_Ok. }
  assert (∀ rules, convert_loop build_rule 0 (Rules document) = Ok rules ↔
    Forall2 describes_rule (Rules document) rules) as Hrules.
  { intros rules. apply convert_loop_Ok, build_rule_Ok. }
  destruct (check_loop _ _ 0 (NamedConditions document)) as [e|] eqn:En.
  { eexists. split; [done|]. intros ev. split; [done|]. intros (_ & named & rules & Hn & Hr & Hnew).
    destruct (New_depths document named rules ev Hn Hr Hnew) as [Hd _]. fold ls in Hd.
    rewrite <- (check_loop_None _ "named condition %d: %w" 0) in Hd. congruence. }
  destruct (check_loop _ _ 0 (Rules document)) as [e|] eqn:Er.
  { eexists. split; [done|]. intros ev. split; [done|]. intros (_ & named & rules & Hn & Hr & Hnew).
    destruct (New_depths document named rules ev Hn Hr Hnew) as [_ Hd]. fold ls in Hd.
    rewrite <- (check_loop_None _ "rule %d: %w" 0) in Hd. congruence. }
  destruct (convert_loop build_named 0 _) as [named|e] eqn:Eb.
  2: { eexists. split; [done|]. intros ev. split; [done|]. intros (_ & named & ? & Hn & _). apply Hnamed in Hn. congruence. }
  destruct (convert_loop build_rule 0 _) as [rules|e] eqn:Ec.
  2: { eexists. split; [done|]. intros ev. split; [done|]. intros (_ & ? & rules & _ & Hr & _). apply Hrules in Hr. congruence. }
  destruct (abac.abac_New_cases rules named [abac.WithLimits (Limits document)]) as (r & E & _); [by repeat constructor|].
  exists r. split; [done|]. intros ev. split.
  - intros ->. split; [done|]. exists named, rules. split_and!; [by apply Hnamed|by apply Hrules|done].
  - intros (_ & named' & rules' & Hn & Hr & Hnew). apply Hnamed in Hn. apply Hrules in Hr. congruence.
Qed.

(** Condition documents are complete: every valid condition whose
    instants, addresses and prefixes have a text is built by some document,
    of the same depth, which the document check accepts exactly when the
    condition is within the depth limit. *)
Theorem condition_document_complete (c : Condition) :
  cond_valid c → expressible c →
  ∃ d, condition_build d = Ok c ∧ document_depth d = cond_depth c ∧
    ∀ ls, validateConditionDocumentLimits d ls = None ↔ cond_depth c ≤ abac.MaxDepth ls.
Proof.
  intros Hv He. destruct (condition_has_document c Hv He) as [d Ed]. exists d.
  pose proof (condition_build_depth d c Ed) as Hdep. split_and!; [done..|]. intros ls.
  rewrite validateConditionDocumentLimits_cases. case_decide; split; done || lia.
Qed.

Definition after_start : Condition :=
  All_ [Some (GreaterThan (mkReference SourceEnvironment "now") (TimeValue 1000000000));
        Some (IPIn (mkReference SourceRequest "address") (netip_PrefixFrom (Addr4 167772160) 8))].

Lemma condition_document_complete_witness :
  ∃ d, condition_build d = Ok after_start ∧ document_depth d = 2 ∧
    (validateConditionDocumentLimits d abac.default_limits = None ↔ 2 ≤ 32).
Proof.
  destruct (condition_document_complete after_start) as (d & Ed & Hd & Hl).
  - by repeat split.
  - split; [exact I|]. split.
    + split; [|exact I]. split; [reflexivity|]. split; [|done]. intros _. by exists "0001-01-01T00:00:01Z".
    + split; [|exact I]. split; [|exact I]. exists "10.0.0.0/8". eexists. by split.
  - exists d. split; [exact Ed|]. split; [exact Hd|]. exact (Hl abac.default_limits).
Defined.

End abac_document.
