(* ===== verification/Manifest.v ===== *)
(** * Policy manifests and their compilation (policy/manifest.go, policy/compiler.go)

    A manifest is the portable envelope of a policy set: [Validate] checks the
    envelope, [Encode] and [Decode] are its bounded JSON forms, and a
    [Compiler] turns a valid manifest into a snapshot by calling the decoder
    registered for the model of each record. *)

From S2P Require Import Prelude GoStrings JSON Attribute Request Decision Snapshot Engine Documents.

#[local] Open Scope Z_scope.

Module policy.

(** ** Manifests *)

Definition ErrInvalidManifest := errors_New "invalid policy manifest".
Definition ErrDuplicateRecord := errors_New "duplicate policy record".
Definition ErrManifestLimitExceeded := errors_New "policy manifest size limit exceeded".

Definition maxEncodedManifestBytes : Z := Z.shiftl 16 20.

Definition FormatV1 : string := "authorization.policy/v1".

Definition AlgorithmDenyOverrides : string := "deny-overrides".
Definition AlgorithmAllowOverrides : string := "allow-overrides".
Definition AlgorithmFirstApplicable : string := "first-applicable".
Definition AlgorithmPriorityOrder : string := "priority-order".

Definition ModelACL : string := "acl".
Definition ModelRBAC : string := "rbac".
Definition ModelABAC : string := "abac".
Definition ModelComposite : string := "composite".

(** The type [Record] of the package; the documents are raw JSON. *)
Record PolicyRecord := mkPolicyRecord {
  Record_ID : PolicyID;
  Record_Revision : Revision;
  Record_Model : string;
  Record_Priority : Z;
  Record_ActiveFrom : option Time;
  Record_ActiveUntil : option Time;
  Record_Metadata : Metadata;
  Record_Document : string
}.

Record Manifest := mkManifest {
  Manifest_Format : string;
  Manifest_Revision : Revision;
  Manifest_Algorithm : string;
  Manifest_Policies : list PolicyRecord
}.

Definition Algorithm_valid (algorithm : string) : bool :=
  bool_decide (algorithm = AlgorithmDenyOverrides) || bool_decide (algorithm = AlgorithmAllowOverrides) ||
  bool_decide (algorithm = AlgorithmFirstApplicable) || bool_decide (algorithm = AlgorithmPriorityOrder).

Definition Model_valid (model : string) : bool :=
  bool_decide (model = ModelACL) || bool_decide (model = ModelRBAC) ||
  bool_decide (model = ModelABAC) || bool_decide (model = ModelComposite).

Definition validDocument (document : string) : bool :=
  let trimmed := bytes_TrimSpace document in
  if byte_len trimmed <? 2 then false
  else if negb (strings_HasPrefix trimmed "{") then false
  else json_Valid trimmed.

Definition window_rejected (record : PolicyRecord) : bool :=
  match Record_ActiveFrom record, Record_ActiveUntil record with
  | Some from, Some until => negb (time_After until from)
  | _, _ => false
  end.

Fixpoint validate_records (index : nat) (policyIDs : gset string) (records : list PolicyRecord) : option error :=
  match records with
  | [] => None
  | record :: records =>
      if bool_decide (Record_ID record = "") || (Record_Revision record =? 0) ||
         negb (Model_valid (Record_Model record)) || negb (validDocument (Record_Document record))
      then Some (fmt_Errorf "policy %d: %w" [FmtInt (Z.of_nat index)] ErrInvalidManifest)
      else if bool_decide (Record_ID record ∈ policyIDs)
      then Some (fmt_Errorf "policy %q: %w" [FmtString (Record_ID record)] ErrDuplicateRecord)
      else if window_rejected record
      then Some (fmt_Errorf "policy %q activation: %w" [FmtString (Record_ID record)] ErrInvalidManifest)
      else validate_records (S index) ({[Record_ID record]} ∪ policyIDs) records
  end.

Definition Manifest_Validate (manifest : Manifest) : option error :=
  if negb (bool_decide (Manifest_Format manifest = FormatV1)) || (Manifest_Revision manifest =? 0) ||
     negb (Algorithm_valid (Manifest_Algorithm manifest))
  then Some ErrInvalidManifest
  else validate_records 0 ∅ (Manifest_Policies manifest).

(** The newline [Encode] appends. *)
Definition newline : string := bytes [10%nat].

Definition Encode `{JSONCodec Manifest} (manifest : Manifest) : result string :=
  match Manifest_Validate manifest with
  | Some err => Err err
  | None =>
      match json_Marshal manifest with
      | Err err => Err (fmt_Errorf "encode manifest: %w" [] err)
      | Ok encoded =>
          if maxEncodedManifestBytes <? byte_len encoded + 1 then Err ErrManifestLimitExceeded
          else Ok (encoded +:+ newline)
      end
  end.

Definition Decode `{JSONCodec Manifest} (encoded : string) : result Manifest :=
  if maxEncodedManifestBytes <? byte_len encoded then Err ErrManifestLimitExceeded
  else match json_Decode encoded with
  | NotDecoded message => Err (fmt_Errorf "decode manifest: %w: %v" [FmtString message] ErrInvalidManifest)
  | Decoded manifest rest =>
      if negb (at_EOF rest) then Err (fmt_Errorf "decode manifest trailing data: %w" [] ErrInvalidManifest)
      else match Manifest_Validate manifest with
      | Some err => Err err
      | None => Ok manifest
      end
  end.

(** ** The compiler *)

Definition ErrNilDecoder := errors_New "policy decoder is nil".
Definition ErrMissingDecoder := errors_New "policy decoder is not registered".
Definition ErrNilEvaluator := errors_New "policy decoder returned a nil evaluator".
Definition ErrDocumentLimitExceeded := errors_New "policy document size limit exceeded".
Definition ErrPolicyLimitExceeded := errors_New "policy compiler policy limit exceeded".
Definition ErrTotalDocumentLimitExceeded := errors_New "policy compiler total document size limit exceeded".

(** A registered decoder: an evaluator, nil or not, and an error; it can
    panic. *)
Record Decoder := mkDecoder { decoder_Decode : string → Go (option Evaluator * option error) }.

(** [DecoderFunc]: a nil function panics when it is called. *)
Definition DecoderFunc (decode : option (string → Go (option Evaluator * option error))) : Decoder :=
  mkDecoder match decode with None => λ _, Panic | Some decode => decode end.

Record CompilerLimits := mkCompilerLimits {
  MaxDocumentBytes : Z;
  MaxPolicies : Z;
  MaxTotalDocumentBytes : Z
}.

Definition default_limits : CompilerLimits := mkCompilerLimits (Z.shiftl 1 20) 1000 (Z.shiftl 16 20).

Record Compiler := mkCompiler {
  compiler_decoders : gmap string Decoder;
  compiler_limits : CompilerLimits
}.

Definition CompilerOption := Compiler → Compiler.

Definition WithCompilerLimits (limits : CompilerLimits) : CompilerOption := λ compiler,
  let current := compiler_limits compiler in
  mkCompiler (compiler_decoders compiler)
    (mkCompilerLimits (positive_or (MaxDocumentBytes limits) (MaxDocumentBytes current))
                      (positive_or (MaxPolicies limits) (MaxPolicies current))
                      (positive_or (MaxTotalDocumentBytes limits) (MaxTotalDocumentBytes current))).

(** The registry loop: [None] is a nil decoder. *)
Fixpoint register_loop (acc : gmap string Decoder) (decoders : list (string * option Decoder)) :
    result (gmap string Decoder) :=
  match decoders with
  | [] => Ok acc
  | (model, None) :: _ => Err (fmt_Errorf "model %q: %w" [FmtString model] ErrNilDecoder)
  | (model, Some decoder) :: decoders => register_loop (<[model := decoder]> acc) decoders
  end.

Definition NewCompiler `{GoRuntime} (decoders : gmap string (option Decoder)) (options : list CompilerOption) :
    result Compiler :=
  registered ← register_loop ∅ (range_map 0 decoders);
  Ok (foldl (λ compiler option, option compiler) (mkCompiler registered default_limits) options).

Definition record_definition (record : PolicyRecord) (evaluator : Evaluator) : PolicyDefinition :=
  mkPolicyDefinition (Record_ID record) (Record_Revision record) (Record_Priority record)
    (default 0 (Record_ActiveFrom record)) (default 0 (Record_ActiveUntil record))
    (Record_Metadata record) (Some evaluator).

(** The loop over the records. *)
Fixpoint compile_loop (compiler : Compiler) (totalDocumentBytes : Z) (records : list PolicyRecord) :
    Go (result (list PolicyDefinition)) :=
  match records with
  | [] => Ret (Ok [])
  | record :: records =>
      let size := byte_len (Record_Document record) in
      let where_ := [FmtString (Record_ID record); FmtString (Record_Model record)] in
      if MaxDocumentBytes (compiler_limits compiler) <? size
      then Ret (Err (fmt_Errorf "policy %q: %w" [FmtString (Record_ID record)] ErrDocumentLimitExceeded))
      else if MaxTotalDocumentBytes (compiler_limits compiler) - totalDocumentBytes <? size
      then Ret (Err ErrTotalDocumentLimitExceeded)
      else match compiler_decoders compiler !! Record_Model record with
      | None => Ret (Err (fmt_Errorf "policy %q model %q: %w" where_ ErrMissingDecoder))
      | Some decoder =>
          '(evaluator, err) ← decoder_Decode decoder (Record_Document record);
          match err with
          | Some err => Ret (Err (fmt_Errorf "policy %q model %q: %w" where_ err))
          | None =>
              match evaluator with
              | None => Ret (Err (fmt_Errorf "policy %q model %q: %w" where_ ErrNilEvaluator))
              | Some evaluator =>
                  definitions ← compile_loop compiler (totalDocumentBytes + size) records;
                  Ret (definitions ← definitions; Ok (record_definition record evaluator :: definitions))
              end
          end
      end
  end.

(** The table [algorithms]; a missing key is the zero algorithm. *)
Definition algorithm_of (algorithm : string) : CombiningAlgorithm :=
  if bool_decide (algorithm = AlgorithmDenyOverrides) then DenyOverrides
  else if bool_decide (algorithm = AlgorithmAllowOverrides) then AllowOverrides
  else if bool_decide (algorithm = AlgorithmFirstApplicable) then FirstApplicable
  else if bool_decide (algorithm = AlgorithmPriorityOrder) then PriorityOrder
  else DenyOverrides.

Definition Compile `{GoRuntime} (compiler : Compiler) (manifest : Manifest) : Go (result Snapshot) :=
  match Manifest_Validate manifest with
  | Some err => Ret (Err err)
  | None =>
      if MaxPolicies (compiler_limits compiler) <? len (Manifest_Policies manifest)
      then Ret (Err ErrPolicyLimitExceeded)
      else
        definitions ← compile_loop compiler 0 (Manifest_Policies manifest);
        match definitions with
        | Err err => Ret (Err err)
        | Ok definitions =>
            Ret (NewSnapshot (Manifest_Revision manifest) (algorithm_of (Manifest_Algorithm manifest)) definitions)
        end
  end.

(** ** Specification *)

Definition record_ok (record : PolicyRecord) : Prop :=
  Record_ID record ≠ "" ∧ Record_Revision record ≠ 0 ∧ Model_valid (Record_Model record) = true ∧
  validDocument (Record_Document record) = true ∧
  ∀ from until, Record_ActiveFrom record = Some from → Record_ActiveUntil record = Some until → from < until.

Record manifest_ok (manifest : Manifest) : Prop := {
  ok_format : Manifest_Format manifest = FormatV1;
  ok_revision : Manifest_Revision manifest ≠ 0;
  ok_algorithm : Algorithm_valid (Manifest_Algorithm manifest) = true;
  ok_records : Forall record_ok (Manifest_Policies manifest);
  ok_ids : NoDup (Record_ID <$> Manifest_Policies manifest)
}.

(** The bytes of the documents of some records. *)
Definition document_bytes (records : list PolicyRecord) : Z :=
  foldr (λ record acc, byte_len (Record_Document record) + acc) 0 records.

(** A record compiles to an evaluator. *)
Definition record_compiles (compiler : Compiler) (record : PolicyRecord) (evaluator : Evaluator) : Prop :=
  byte_len (Record_Document record) ≤ MaxDocumentBytes (compiler_limits compiler) ∧
  ∃ decoder, compiler_decoders compiler !! Record_Model record = Some decoder ∧
    decoder_Decode decoder (Record_Document record) = Ret (Some evaluator, None).

Record compiles (compiler : Compiler) (manifest : Manifest) (evaluators : list Evaluator) : Prop := {
  compiles_valid : manifest_ok manifest;
  compiles_count : len (Manifest_Policies manifest) ≤ MaxPolicies (compiler_limits compiler);
  compiles_bytes : document_bytes (Manifest_Policies manifest) ≤ MaxTotalDocumentBytes (compiler_limits compiler);
  compiles_records : Forall2 (record_compiles compiler) (Manifest_Policies manifest) evaluators
}.

(** The policy of a compiled record. *)
Definition compiled_policy (record : PolicyRecord) (evaluator : Evaluator) : policyEntry :=
  mkPolicyEntry (Record_ID record) (Record_Revision record) (Record_Priority record)
    (default 0 (Record_ActiveFrom record)) (default 0 (Record_ActiveUntil record))
    (Record_Metadata record) evaluator.

(** ** Lemmas *)

Lemma validate_records_None index ids records :
  validate_records index ids records = None ↔
  Forall record_ok records ∧ NoDup (Record_ID <$> records) ∧ ∀ record, record ∈ records → Record_ID record ∉ ids.
Proof.
  revert index ids. induction records as [|record records IH]; intros index ids; simpl.
  { split; [|done]. intros _. split_and!; [by apply Forall_nil|by apply NoDup_nil|set_solver]. }
  rewrite Forall_cons. csimpl. rewrite NoDup_cons.
  destruct (bool_decide (Record_ID record = "") || (Record_Revision record =? 0) ||
    negb (Model_valid (Record_Model record)) || negb (validDocument (Record_Document record))) eqn:Eb.
  { split; [done|]. intros ([(Hid & Hrev & Hm & Hd & _) _] & _). exfalso. rewrite Hm, Hd in Eb.
    rewrite bool_decide_false in Eb by done. by rewrite (proj2 (Z.eqb_neq _ _)) in Eb by done. }
  reflect_bools. case_bool_decide as Edup.
  { split; [done|]. intros (_ & _ & Hrej). by destruct (Hrej record ltac:(by left)). }
  assert (window_rejected record = false ↔ ∀ from until, Record_ActiveFrom record = Some from →
    Record_ActiveUntil record = Some until → from < until) as Hw.
  { unfold window_rejected, time_After. clear. destruct (Record_ActiveFrom record) as [f|], (Record_ActiveUntil record) as [u|];
      try (split; [by intros _ ? ?|done]).
    rewrite negb_false_iff, Z.ltb_lt. split; [by intros ? ? ? [= <-] [= <-]|]. intros Hlt. by apply Hlt. }
  destruct (window_rejected record) eqn:Er.
  { split; [done|]. intros ([(_ & _ & _ & _ & Hrej) _] & _). by apply Hw in Hrej. }
  rewrite IH. assert (record_ok record) by (split_and!; [done..|by apply Hw]).
  split.
  - intros (Hok & Hnd & Hids). split_and!; [done|done| |done|].
    + intros (y & E & Hy)%list_elem_of_fmap. specialize (Hids y Hy). set_solver.
    + intros y [->|Hy]%elem_of_cons; [done|]. specialize (Hids y Hy). set_solver.
  - intros ([_ Hok] & [Hnew Hnd] & Hids). split_and!; [done|done|]. intros y Hy.
    specialize (Hids y ltac:(by right)). apply not_elem_of_union. split; [|done].
    rewrite not_elem_of_singleton. intros E. apply Hnew. rewrite <- E. by apply list_elem_of_fmap_2.
Qed.

Lemma Manifest_Validate_None manifest : Manifest_Validate manifest = None ↔ manifest_ok manifest.
Proof.
  unfold Manifest_Validate. case_bool_decide as Ef; simpl; [|split; [done|by intros [? _ _ _ _]]].
  destruct (Z.eqb_spec (Manifest_Revision manifest) 0) as [Er|Er]; simpl; [split; [done|by intros [_ ? _ _ _]]|].
  destruct (Algorithm_valid (Manifest_Algorithm manifest)) eqn:Ea; simpl; [|split; [done|intros [_ _ ? _ _]; congruence]].
  rewrite validate_records_None. split; [by intros (? & ? & _)|]. intros [_ _ _ ? ?]. split_and!; [done|done|set_solver].
Qed.

Lemma document_bytes_nonneg records : 0 ≤ document_bytes records.
Proof. induction records; simpl; [done|]. unfold byte_len, document_bytes in *. lia. Qed.

Lemma compile_loop_spec compiler total records definitions :
  total ≤ MaxTotalDocumentBytes (compiler_limits compiler) →
  compile_loop compiler total records = Ret (Ok definitions) ↔
  total + document_bytes records ≤ MaxTotalDocumentBytes (compiler_limits compiler) ∧
  ∃ evaluators, Forall2 (record_compiles compiler) records evaluators ∧
    definitions = zip_with record_definition records evaluators.
Proof.
  revert total definitions. induction records as [|record records IH]; intros total definitions Htotal; simpl.
  { split.
    - intros [= <-]. split; [lia|]. by exists [].
    - by intros (_ & evs & ->%Forall2_nil_inv_l & ->). }
  pose proof (document_bytes_nonneg records) as Hnn. unfold document_bytes in *. fold (document_bytes records) in *.
  destruct (Z.ltb_spec (MaxDocumentBytes (compiler_limits compiler)) (byte_len (Record_Document record))).
  { split; [done|]. intros (_ & evs & (ev & evs' & [? _] & _ & _)%Forall2_cons_inv_l & _). lia. }
  destruct (Z.ltb_spec (MaxTotalDocumentBytes (compiler_limits compiler) - total) (byte_len (Record_Document record))).
  { split; [done|]. intros [? _]. lia. }
  destruct (compiler_decoders compiler !! Record_Model record) as [decoder|] eqn:Ed.
  2: { split; [done|]. intros (_ & evs & (ev & evs' & (_ & dec & ? & _) & _ & _)%Forall2_cons_inv_l & _). congruence. }
  destruct (decoder_Decode decoder (Record_Document record)) as [[ev err]|] eqn:Ec; simpl.
  2: { split; [done|]. intros (_ & evs & (ev & evs' & (_ & dec & ? & ?) & _ & _)%Forall2_cons_inv_l & _). congruence. }
  destruct err as [e|].
  { split; [done|]. intros (_ & evs & (ev' & evs' & (_ & dec & ? & ?) & _ & _)%Forall2_cons_inv_l & _). congruence. }
  destruct ev as [ev|].
  2: { split; [done|]. intros (_ & evs & (ev' & evs' & (_ & dec & ? & ?) & _ & _)%Forall2_cons_inv_l & _). congruence. }
  specialize (IH (total + byte_len (Record_Document record))). split.
  - destruct (compile_loop compiler _ records) as [[ds|e]|] eqn:El; simpl; [|done..]. intros [= <-].
    destruct (proj1 (IH ds ltac:(lia)) eq_refl) as (? & evs & Hevs & ->). split; [lia|].
    exists (ev :: evs). split; [|done]. constructor; [|done]. split; [done|]. by exists decoder.
  - intros (Hle & evs & (ev' & evs' & (_ & dec & ? & ?) & Hevs & ->)%Forall2_cons_inv_l & ->). simplify_eq.
    assert (ev' = ev) as -> by congruence. rewrite (proj2 (IH (zip_with record_definition records evs') ltac:(lia))); [done|]. split; [lia|]. by exists evs'.
Qed.

Lemma algorithm_of_valid algorithm : algorithm_valid (algorithm_of algorithm).
Proof. unfold algorithm_of. by repeat case_bool_decide. Qed.

Lemma compiled_definitions_ok records evaluators compiler :
  Forall record_ok records → Forall2 (record_compiles compiler) records evaluators →
  Forall definition_ok (zip_with record_definition records evaluators) ∧
  Definition_ID <$> zip_with record_definition records evaluators = Record_ID <$> records.
Proof.
  intros Hok H2. induction H2 as [|record ev records evs _ _ IH]; simpl; [done|].
  apply Forall_cons in Hok as [(Hid & _ & _ & _ & Hw) Hok]. destruct (IH Hok) as [IH1 IH2].
  split; [|csimpl; by f_equal]. constructor; [|done]. split_and!; [done|by eexists|]. simpl. unfold window_ok.
  destruct (Record_ActiveFrom record) as [f|]; simpl; [|by left].
  destruct (Record_ActiveUntil record) as [u|]; simpl; [|by right; left]. right; right. by apply Hw.
Qed.

Lemma compiled_entries `{GoRuntime} compiler revision records evaluators ps :
  Forall record_ok records → Forall2 (record_compiles compiler) records evaluators →
  Forall2 (λ d p, ∃ ev, Definition_Evaluator d = Some ev ∧ p = newPolicyEntry revision d ev)
    (zip_with record_definition records evaluators) ps →
  ps = zip_with compiled_policy records evaluators.
Proof.
  intros Hok H2. revert ps. induction H2 as [|record ev records evs _ _ IH]; intros ps Hps; simpl in *.
  { by apply Forall2_nil_inv_l in Hps. }
  apply Forall_cons in Hok as [(_ & Hrev & _) Hok].
  apply Forall2_cons_inv_l in Hps as (p & ps' & (ev' & [= <-] & ->) & Hps & ->). f_equal; [|by apply IH].
  unfold newPolicyEntry, compiled_policy. simpl. rewrite (proj2 (Z.eqb_neq _ _)) by done. by rewrite cloneMetadata_id.
Qed.

(** What the compiler produces. *)
Lemma Compile_Ok `{GoRuntime} (compiler : Compiler) (manifest : Manifest) (s : Snapshot) :
  0 ≤ MaxTotalDocumentBytes (compiler_limits compiler) →
  Compile compiler manifest = Ret (Ok s) ↔
  ∃ evaluators, compiles compiler manifest evaluators ∧
    NewSnapshot (Manifest_Revision manifest) (algorithm_of (Manifest_Algorithm manifest))
      (zip_with record_definition (Manifest_Policies manifest) evaluators) = Ok s.
Proof.
  intros Hmax. unfold Compile. destruct (Manifest_Validate manifest) as [e|] eqn:Ev.
  { split; [done|]. intros (evs & [Hok _ _ _] & _). apply Manifest_Validate_None in Hok. congruence. }
  apply Manifest_Validate_None in Ev.
  destruct (Z.ltb_spec (MaxPolicies (compiler_limits compiler)) (len (Manifest_Policies manifest))).
  { split; [done|]. intros (evs & [_ ? _ _] & _). lia. }
  destruct (compile_loop compiler 0 (Manifest_Policies manifest)) as [[ds|e]|] eqn:El; simpl.
  - apply compile_loop_spec in El as (? & evs & H2 & ->); [|done]. split.
    + intros [= Hs]. exists evs. split; [by split|done].
    + intros (evs' & [_ _ _ H2'] & Hs). f_equal. assert (evs' = evs) as ->; [|done]. clear -H2 H2'.
      revert evs' H2'. induction H2 as [|r ev rs evs (_ & dec & Hd & He) _ IH]; intros evs' H2'.
      * by apply Forall2_nil_inv_l in H2'.
      * apply Forall2_cons_inv_l in H2' as (ev' & evs'' & (_ & dec' & Hd' & He') & H2'' & ->).
        f_equal; [congruence|by apply IH].
  - split; [done|]. intros (evs & [_ _ Hb H2] & _).
    rewrite (proj2 (compile_loop_spec compiler 0 _ (zip_with record_definition (Manifest_Policies manifest) evs) Hmax)) in El;
      [done|]. split; [lia|]. by exists evs.
  - split; [done|]. intros (evs & [_ _ Hb H2] & _).
    rewrite (proj2 (compile_loop_spec compiler 0 _ (zip_with record_definition (Manifest_Policies manifest) evs) Hmax)) in El;
      [done|]. split; [lia|]. by exists evs.
Qed.

Lemma Compile_succeeds `{GoRuntime} (compiler : Compiler) (manifest : Manifest) evaluators :
  0 ≤ MaxTotalDocumentBytes (compiler_limits compiler) → compiles compiler manifest evaluators →
  ∃ s, Compile compiler manifest = Ret (Ok s) ∧ snapshot_wf s ∧
    snapshot_revision s = Manifest_Revision manifest ∧
    snapshot_algorithm s = algorithm_of (Manifest_Algorithm manifest) ∧
    snapshot_policies s ≡ₚ zip_with compiled_policy (Manifest_Policies manifest) evaluators ∧
    (Manifest_Algorithm manifest ≠ AlgorithmPriorityOrder →
       snapshot_policies s = zip_with compiled_policy (Manifest_Policies manifest) evaluators).
Proof.
  intros Hmax Hc. pose proof Hc as [[_ Hrev Halg Hrec Hids] _ _ H2].
  destruct (compiled_definitions_ok _ _ _ Hrec H2) as [Hok Hid].
  destruct (proj2 (NewSnapshot_Ok_iff (Manifest_Revision manifest) (algorithm_of (Manifest_Algorithm manifest))
    (zip_with record_definition (Manifest_Policies manifest) evaluators))) as [s Hs].
  { split_and!; [done|apply algorithm_of_valid|done|by rewrite Hid]. }
  exists s. destruct (NewSnapshot_wf _ _ _ _ Hs) as (? & ? & ? & _).
  destruct (NewSnapshot_policies _ _ _ _ Hs) as (ps & Hps & Hperm & Heq).
  rewrite (compiled_entries compiler _ _ evaluators ps Hrec H2 Hps) in *.
  split_and!; [by apply Compile_Ok; [|exists evaluators]|done|done|done|done|].
  intros Hne. apply Heq. intros E. apply Hne. unfold algorithm_of in E. by repeat case_bool_decide.
Qed.

(** The options the package provides. *)
Inductive library_option : CompilerOption → Prop :=
| option_limits limits : library_option (WithCompilerLimits limits).

Definition limits_positive (l : CompilerLimits) : Prop :=
  0 < MaxDocumentBytes l ∧ 0 < MaxPolicies l ∧ 0 < MaxTotalDocumentBytes l.

Lemma NewCompiler_Ok `{GoRuntime} decoders options compiler :
  Forall library_option options → NewCompiler decoders options = Ok compiler →
  limits_positive (compiler_limits compiler) ∧
  ∀ model d, compiler_decoders compiler !! model = Some d ↔ decoders !! model = Some (Some d).
Proof.
  intros Hopts. unfold NewCompiler. destruct (register_loop ∅ (range_map 0 decoders)) as [registered|e] eqn:Er; simpl; [|done].
  intros [= <-].
  assert (∀ c, limits_positive (compiler_limits c) →
    limits_positive (compiler_limits (foldl (λ compiler option, option compiler) c options)) ∧
    compiler_decoders (foldl (λ compiler option, option compiler) c options) = compiler_decoders c) as Hall.
  { clear Er. induction Hopts as [|o options Ho _ IH]; intros c Hc; simpl; [done|].
    destruct Ho as [ls]. destruct (IH (WithCompilerLimits ls c)) as [? ->]; [|done].
    destruct Hc as (? & ? & ?). split_and!; simpl; by apply positive_or_pos. }
  destruct (Hall (mkCompiler registered default_limits)) as [Hpos ->]; [done|]. split; [done|]. simpl. clear Hall Hpos.
  assert (∀ l (acc m : gmap string Decoder), NoDup l.*1 → register_loop acc l = Ok m → (∀ k, k ∈ l.*1 → acc !! k = None) →
    ∀ k d, m !! k = Some d ↔ (k, Some d) ∈ l ∨ acc !! k = Some d) as Hloop.
  { induction l as [|[k [d|]] l IH]; intros acc m Hnd Hm Hfresh k' d'; simpl in Hm; [| |done].
    - simplify_eq. set_solver.
    - csimpl in Hnd. apply NoDup_cons in Hnd as [Hk Hnd]. rewrite (IH _ _ Hnd Hm).
      2: { intros k2 Hk2. rewrite lookup_insert_ne by (intros ->; done). apply Hfresh. by right. }
      rewrite lookup_insert_Some, elem_of_cons. specialize (Hfresh k ltac:(by left)).
      split; [intros [?|[[-> ->]|[? ?]]]; auto|]. intros [[?|?]|?]; [simplify_eq; auto|auto|].
      destruct (decide (k = k')) as [->|]; [congruence|auto]. }
  intros model d. assert (NoDup (range_map 0 decoders).*1) as Hnd.
  { rewrite range_map_perm. apply NoDup_fst_map_to_list. }
  rewrite (Hloop _ ∅ registered Hnd Er (λ k _, lookup_empty k)), elem_of_range_map, lookup_empty. naive_solver.
Qed.

(** A compiler whose decoders do not panic. *)
Class DecodersTotal (compiler : Compiler) : Prop :=
  decoders_total : ∀ model decoder document, compiler_decoders compiler !! model = Some decoder →
    ∃ r, decoder_Decode decoder document = Ret r.

Lemma Compile_total `{GoRuntime} compiler manifest `{!DecodersTotal compiler} :
  ∃ r, Compile compiler manifest = Ret r.
Proof.
  unfold Compile. destruct (Manifest_Validate manifest); [by eexists|]. destruct (_ <? _); [by eexists|].
  assert (∀ records total, ∃ r, compile_loop compiler total records = Ret r) as Hloop.
  { induction records as [|record records IH]; intros total; simpl; [by eexists|].
    destruct (_ <? _); [by eexists|]. destruct (_ <? _); [by eexists|].
    destruct (compiler_decoders compiler !! Record_Model record) as [d|] eqn:Ed; [|by eexists].
    destruct (decoders_total _ _ (Record_Document record) Ed) as [[ev err] ->]. simpl.
    destruct err; [by eexists|]. destruct ev; [|by eexists].
    destruct (IH (total + byte_len (Record_Document record))) as [r ->]. by eexists. }
  destruct (Hloop (Manifest_Policies manifest) 0) as [[ds|e] ->]; by eexists.
Qed.

(** A compiled snapshot has the revision of its manifest. *)
Lemma Compile_revision `{GoRuntime} compiler manifest s :
  Compile compiler manifest = Ret (Ok s) → snapshot_revision s = Manifest_Revision manifest.
Proof.
  unfold Compile. destruct (Manifest_Validate manifest); [done|]. destruct (_ <? _); [done|].
  destruct (compile_loop compiler 0 (Manifest_Policies manifest)) as [[ds|e]|]; simpl; [|done..].
  intros [= Hs]. by apply NewSnapshot_wf in Hs as (_ & ? & _).
Qed.

(** ** Theorems *)

(** C34. Compilation is exact: with a constructed compiler, [Compile] succeeds
    iff the manifest is valid, the policy count, document and total byte
    limits hold, and the decoder registered for each record's model returns
    an evaluator without error; the result is then a well-formed snapshot at
    the manifest's revision whose policies are the records with their
    evaluators, in manifest order except under priority order. A validated
    manifest is never rejected by snapshot construction. *)
Theorem Compile_spec `{GoRuntime} (decoders : gmap string (option Decoder)) (options : list CompilerOption)
    (compiler : Compiler) (manifest : Manifest) :
  Forall library_option options → NewCompiler decoders options = Ok compiler →
  ((∃ s, Compile compiler manifest = Ret (Ok s)) ↔ ∃ evaluators, compiles compiler manifest evaluators) ∧
  ∀ s, Compile compiler manifest = Ret (Ok s) →
    snapshot_wf s ∧ snapshot_revision s = Manifest_Revision manifest ∧
    snapshot_algorithm s = algorithm_of (Manifest_Algorithm manifest) ∧
    ∃ evaluators, compiles compiler manifest evaluators ∧
      snapshot_policies s ≡ₚ zip_with compiled_policy (Manifest_Policies manifest) evaluators ∧
      (Manifest_Algorithm manifest ≠ AlgorithmPriorityOrder →
         snapshot_policies s = zip_with compiled_policy (Manifest_Policies manifest) evaluators).
Proof.
  intros Hopts Hnew. destruct (NewCompiler_Ok _ _ _ Hopts Hnew) as [(_ & _ & Hpos) _].
  assert (0 ≤ MaxTotalDocumentBytes (compiler_limits compiler)) as Hmax by lia.
  assert (∀ evs, compiles compiler manifest evs → ∃ s, Compile compiler manifest = Ret (Ok s)) as Hsucc.
  { intros evs Hc. destruct (Compile_succeeds compiler manifest evs Hmax Hc) as (s & ? & _). by exists s. }
  split.
  - split; [|by intros [evs ?]; eapply Hsucc]. intros [s Hs].
    apply Compile_Ok in Hs as (evs & ? & _); [|done]. by exists evs.
  - intros s Hs. pose proof Hs as (evs & Hc & _)%(Compile_Ok _ _ _ Hmax).
    destruct (Compile_succeeds compiler manifest evs Hmax Hc) as (s' & Hs' & ? & ? & ? & ? & ?).
    rewrite Hs in Hs'. simplify_eq. split_and!; [done..|]. by exists evs.
Qed.

(** A registry with one decoder, which accepts any document. *)
Definition sample_decoders : gmap string (option Decoder) :=
  {[ModelACL := Some (mkDecoder (λ _, Ret (Some (constEvaluator (bareDecision Allow "ok" 0)), None)))]}.

Definition sample_compiler : Compiler :=
  match @NewCompiler plain_runtime sample_decoders [] with Ok c => c | Err _ => mkCompiler ∅ default_limits end.

Definition sample_record (ident : string) : PolicyRecord :=
  mkPolicyRecord ident 1 ModelACL 0 None (Some 10) None " {} ".

Definition sample_manifest : Manifest :=
  mkManifest FormatV1 7 AlgorithmFirstApplicable [sample_record "p1"; sample_record "p2"].

Lemma Compile_spec_witness :
  ∃ s, @Compile plain_runtime sample_compiler sample_manifest = Ret (Ok s) ∧ snapshot_wf s ∧
    snapshot_revision s = 7 ∧ entry_id <$> snapshot_policies s = ["p1"; "p2"].
Proof.
  eexists. split; [vm_compute; reflexivity|].
  destruct (@Compile_spec plain_runtime sample_decoders [] sample_compiler sample_manifest
    ltac:(constructor) ltac:(vm_compute; reflexivity)) as [_ H].
  destruct (H _ ltac:(vm_compute; reflexivity)) as (Hwf & Hrev & _).
  split; [exact Hwf|]. split; reflexivity.
Defined.

Lemma byte_len_newline text : byte_len (text +:+ newline) = byte_len text + 1.
Proof.
  unfold byte_len. assert (String.length (text +:+ newline) = S (String.length text)) as ->; [|lia].
  induction text as [|c text IH]; simpl; [done|]. by rewrite IH.
Qed.

Lemma Encode_Ok `{JSONCodec Manifest} (manifest : Manifest) (encoded : string) :
  Encode manifest = Ok encoded ↔ manifest_ok manifest ∧
    ∃ text, json_Marshal manifest = Ok text ∧ byte_len text + 1 ≤ maxEncodedManifestBytes ∧
      encoded = text +:+ newline.
Proof.
  rewrite <- Manifest_Validate_None. unfold Encode.
  destruct (Manifest_Validate manifest); [by split; [|intros [? _]]|].
  destruct (json_Marshal manifest) as [text|e]; [|by split; [|intros (_ & ? & ? & _)]].
  destruct (Z.ltb_spec maxEncodedManifestBytes (byte_len text + 1)).
  - split; [done|]. intros (_ & ? & [= <-] & ? & _). lia.
  - split; [intros [= <-]; split; [done|by exists text]|]. by intros (_ & ? & [= <-] & _ & ->).
Qed.

Lemma Decode_Encode `{JSONCodec Manifest} (faithful : Manifest → Prop) `{!JSONFaithful Manifest faithful}
    (manifest : Manifest) (encoded : string) :
  faithful manifest → Encode manifest = Ok encoded → Decode encoded = Ok manifest.
Proof.
  intros Hf (Hok & text & Em & Hlen & ->)%Encode_Ok. unfold Decode. rewrite byte_len_newline.
  rewrite (proj2 (Z.ltb_ge _ _)) by lia. rewrite (json_roundtrip manifest text newline Hf Em).
  by rewrite (proj2 (Manifest_Validate_None _) Hok).
Qed.

Lemma Decode_valid `{JSONCodec Manifest} (manifest : Manifest) (encoded : string) :
  Decode encoded = Ok manifest → manifest_ok manifest ∧ byte_len encoded ≤ maxEncodedManifestBytes.
Proof.
  unfold Decode. destruct (Z.ltb_spec maxEncodedManifestBytes (byte_len encoded)); [done|].
  destruct (json_Decode encoded) as [m rest|]; [|done]. destruct (negb (at_EOF rest)); [done|].
  destruct (Manifest_Validate m) eqn:Ev; [done|]. intros [= ->]. split; [by apply Manifest_Validate_None|lia].
Qed.

End policy.
