(* ===== verification/PolicyDiff.v ===== *)
(** * Comparing policy views (policy/policy.go)

    [Diff] compares the inspectable metadata of two snapshots; [DryRun]
    decides a batch of requests under both and reports the differences
    without installing anything. *)

From S2P Require Import Prelude Attribute Request Decision Snapshot Engine.

#[local] Open Scope Z_scope.

Module policy_diff.

Definition ErrNilSnapshot := errors_New "policy snapshot is nil".

(** ** Diff *)

Record SnapshotDiff := mkSnapshotDiff {
  Diff_FromRevision : Revision;
  Diff_ToRevision : Revision;
  Diff_AlgorithmChanged : bool;
  Diff_Added : list PolicyID;
  Diff_Removed : list PolicyID;
  Diff_Changed : list PolicyID
}.

Definition indexPolicies (policies : list PolicyInfo) : gmap string PolicyInfo :=
  foldl (λ indexed policy, <[Info_ID policy := policy]> indexed) ∅ policies.

(** [maps.Equal]: the nil map equals the empty one. *)
Definition maps_Equal (left right : Metadata) : bool := bool_decide (default ∅ left = default ∅ right).

Definition policyInfoEqual (left right : PolicyInfo) : bool :=
  (Info_Revision left =? Info_Revision right) && (Info_Priority left =? Info_Priority right) &&
  time_Equal (Info_ActiveFrom left) (Info_ActiveFrom right) &&
  time_Equal (Info_ActiveUntil left) (Info_ActiveUntil right) &&
  maps_Equal (Info_Metadata left) (Info_Metadata right).

(** The loop over the current policies: removed and changed identifiers. *)
Fixpoint diff_loop (candidatePolicies : gmap string PolicyInfo) (removed changed : list PolicyID)
    (current : list (string * PolicyInfo)) : list PolicyID * list PolicyID :=
  match current with
  | [] => (removed, changed)
  | (id, currentPolicy) :: current =>
      match candidatePolicies !! id with
      | None => diff_loop candidatePolicies (removed ++ [id]) changed current
      | Some candidatePolicy =>
          if negb (policyInfoEqual currentPolicy candidatePolicy)
          then diff_loop candidatePolicies removed (changed ++ [id]) current
          else diff_loop candidatePolicies removed changed current
      end
  end.

(** The loop over the candidate policies: added identifiers. *)
Fixpoint added_loop (currentPolicies : gmap string PolicyInfo) (added : list PolicyID)
    (candidate : list (string * PolicyInfo)) : list PolicyID :=
  match candidate with
  | [] => added
  | (id, _) :: candidate =>
      added_loop currentPolicies (if bool_decide (is_Some (currentPolicies !! id)) then added else added ++ [id]) candidate
  end.

Definition sortPolicyIDs (ids : list PolicyID) : list PolicyID := slices_Sort ids.

Definition Diff `{GoRuntime} (current candidate : option Snapshot) : result SnapshotDiff :=
  match current, candidate with
  | None, _ | _, None => Err ErrNilSnapshot
  | Some current, Some candidate =>
      let currentPolicies := indexPolicies (Snapshot_Policies current) in
      let candidatePolicies := indexPolicies (Snapshot_Policies candidate) in
      let '(removed, changed) := diff_loop candidatePolicies [] [] (range_map 0 currentPolicies) in
      let added := added_loop currentPolicies [] (range_map 1 candidatePolicies) in
      Ok (mkSnapshotDiff (Snapshot_Revision current) (Snapshot_Revision candidate)
            (negb (bool_decide (Snapshot_Algorithm current = Snapshot_Algorithm candidate)))
            (sortPolicyIDs added) (sortPolicyIDs removed) (sortPolicyIDs changed))
  end.

(** ** DryRun *)

Record DecisionComparison := mkDecisionComparison {
  Comparison_Index : Z;
  Comparison_Current : Decision;
  Comparison_Candidate : Decision;
  Comparison_Changed : bool
}.

Record DryRunReport := mkDryRunReport {
  Report_FromRevision : Revision;
  Report_ToRevision : Revision;
  Report_Decisions : list DecisionComparison
}.

Definition zeroReport : DryRunReport := mkDryRunReport 0 0 [].

Definition decisionsDiffer (left right : Decision) : bool :=
  if negb (bool_decide (Decision_Outcome left = Decision_Outcome right)) then true
  else if negb (bool_decide (Decision_Reason left = Decision_Reason right)) then true
  else if negb (bool_decide (Decision_MatchedPolicyIDs left = Decision_MatchedPolicyIDs right)) then true
  else negb (Bool.eqb (Decision_MatchedPolicyIDsTruncated left) (Decision_MatchedPolicyIDsTruncated right)).

(** The loop that fills the comparisons; an index out of range panics. *)
Fixpoint compare_loop (index : nat) (requests : list Request) (currentDecisions candidateDecisions : list Decision) :
    Go (list DecisionComparison) :=
  match requests with
  | [] => Ret []
  | _ :: requests =>
      match currentDecisions !! index, candidateDecisions !! index with
      | Some current, Some candidate =>
          comparisons ← compare_loop (S index) requests currentDecisions candidateDecisions;
          Ret (mkDecisionComparison (Z.of_nat index) current candidate (decisionsDiffer current candidate) :: comparisons)
      | _, _ => Panic
      end
  end.

Definition DryRun `{GoRuntime} (ctx : Context) (current candidate : option Snapshot) (requests : list Request) :
    M (DryRunReport * option error) :=
  match current, candidate with
  | None, _ | _, None => mret (zeroReport, Some ErrNilSnapshot)
  | Some currentSnapshot, Some candidateSnapshot =>
      match NewEngine current [], NewEngine candidate [] with
      | Err err, _ => mret (zeroReport, Some err)
      | _, Err err => mret (zeroReport, Some err)
      | Ok currentEngine, Ok candidateEngine =>
          '(currentDecisions, currentErr) ← Engine_DecideBatch currentEngine ctx requests;
          '(candidateDecisions, candidateErr) ← Engine_DecideBatch candidateEngine ctx requests;
          let from := Snapshot_Revision currentSnapshot in
          let to := Snapshot_Revision candidateSnapshot in
          let evaluationErr := errors_Join [currentErr; candidateErr] in
          if negb (len currentDecisions =? len requests)
          then mret (mkDryRunReport from to [], evaluationErr)
          else
            comparisons ← go_call (compare_loop 0 requests currentDecisions candidateDecisions);
            mret (mkDryRunReport from to comparisons, evaluationErr)
      end
  end.

(** ** Lemmas *)

(** The description of a policy by identifier. *)
Definition policy_info (s : Snapshot) (id : string) (info : PolicyInfo) : Prop :=
  ∃ p, p ∈ snapshot_policies s ∧ entry_id p = id ∧
    info = mkPolicyInfo (entry_id p) (entry_revision p) (entry_priority p)
             (entry_activeFrom p) (entry_activeUntil p) (entry_metadata p).

Lemma indexPolicies_lookup policies (acc : gmap string PolicyInfo) id info :
  NoDup (Info_ID <$> policies) → (∀ p, p ∈ policies → acc !! Info_ID p = None) →
  foldl (λ indexed policy, <[Info_ID policy := policy]> indexed) acc policies !! id = Some info ↔
  acc !! id = Some info ∨ info ∈ policies ∧ Info_ID info = id.
Proof.
  revert acc. induction policies as [|p policies IH]; intros acc Hnd Hfresh; simpl; [set_solver|].
  csimpl in Hnd. apply NoDup_cons in Hnd as [Hp Hnd]. rewrite IH; [|done|].
  - rewrite lookup_insert_Some, elem_of_cons. specialize (Hfresh p ltac:(by left)).
    split; [intros [[[<- <-]|[? ?]]|[? ?]]; auto|]. intros [E|[[->|?] <-]]; [|auto..].
    destruct (decide (Info_ID p = id)) as [<-|]; [congruence|auto].
  - intros q Hq. rewrite lookup_insert_ne; [apply Hfresh; by right|]. intros E. apply Hp. rewrite E.
    by apply list_elem_of_fmap_2.
Qed.

Lemma index_snapshot `{GoRuntime} s id info :
  snapshot_wf s → indexPolicies (Snapshot_Policies s) !! id = Some info ↔ policy_info s id info.
Proof.
  intros Hwf. unfold indexPolicies. rewrite indexPolicies_lookup.
  - rewrite lookup_empty. unfold Snapshot_Policies, policy_info. rewrite list_elem_of_fmap. split.
    + intros [|[(p & -> & Hp) Hid]]; [done|]. exists p. by rewrite cloneMetadata_id.
    + intros (p & Hp & <- & ->). right. split; [|done]. exists p. by rewrite cloneMetadata_id.
  - unfold Snapshot_Policies. rewrite <- list_fmap_compose.
    apply (wf_unique s Hwf).
  - intros. apply lookup_empty.
Qed.

Definition missing_in (m : gmap string PolicyInfo) (x : string * PolicyInfo) : Prop := m !! x.1 = None.

Definition differs_in (m : gmap string PolicyInfo) (x : string * PolicyInfo) : Prop :=
  match m !! x.1 with Some info => policyInfoEqual x.2 info = false | None => False end.

#[local] Instance missing_in_dec m x : base.Decision (missing_in m x).
Proof. unfold missing_in. destruct (m !! x.1); [by right|by left]. Defined.

#[local] Instance differs_in_dec m x : base.Decision (differs_in m x).
Proof. unfold differs_in. destruct (m !! x.1); apply _. Defined.

(** The loops are filters. *)
Lemma diff_loop_filter m removed changed current :
  diff_loop m removed changed current =
  (removed ++ (filter (missing_in m) current).*1, changed ++ (filter (differs_in m) current).*1).
Proof.
  revert removed changed. induction current as [|[k info] current IH]; intros removed changed; simpl.
  { by rewrite !app_nil_r. }
  rewrite !filter_cons. destruct (m !! k) as [info'|] eqn:E.
  - rewrite (decide_False (P := missing_in m (k, info))) by (unfold missing_in; simpl; by rewrite E).
    destruct (policyInfoEqual info info') eqn:Eq; simpl; rewrite IH.
    + rewrite (decide_False (P := differs_in m (k, info))) by (unfold differs_in; simpl; rewrite E; by rewrite Eq). done.
    + rewrite (decide_True (P := differs_in m (k, info))) by (unfold differs_in; simpl; by rewrite E). csimpl.
      by rewrite <- app_assoc.
  - rewrite (decide_True (P := missing_in m (k, info))) by (unfold missing_in; simpl; done).
    rewrite (decide_False (P := differs_in m (k, info))) by (intros Hd; unfold differs_in in Hd; simpl in Hd; by rewrite E in Hd).
    rewrite IH. csimpl. by rewrite <- app_assoc.
Qed.

Lemma added_loop_filter m added candidate :
  added_loop m added candidate = added ++ (filter (missing_in m) candidate).*1.
Proof.
  revert added. induction candidate as [|[k info] candidate IH]; intros added; simpl; [by rewrite app_nil_r|].
  rewrite IH, filter_cons. case_bool_decide as E.
  - rewrite (decide_False (P := missing_in m (k, info))); [done|]. unfold missing_in. simpl. by destruct E as [? ->].
  - apply eq_None_not_Some in E. rewrite (decide_True (P := missing_in m (k, info))) by done. csimpl. by rewrite <- app_assoc.
Qed.

(** Identifiers selected from a map, sorted. *)
Lemma sorted_selection `{GoRuntime} seed (m : gmap string PolicyInfo) (P : string * PolicyInfo → Prop)
    `{!∀ x, base.Decision (P x)} :
  strictly_sorted (sortPolicyIDs (filter P (range_map seed m)).*1) ∧
  ∀ id, id ∈ sortPolicyIDs (filter P (range_map seed m)).*1 ↔ ∃ info, m !! id = Some info ∧ P (id, info).
Proof.
  split.
  - apply slices_Sort_strict, NoDup_fmap_filter. rewrite range_map_perm. apply NoDup_fst_map_to_list.
  - intros id. unfold sortPolicyIDs. rewrite elem_of_slices_Sort, list_elem_of_fmap.
    setoid_rewrite list_elem_of_filter. split.
    + intros ([k info] & -> & HP & Hin). apply elem_of_range_map in Hin. by exists info.
    + intros (info & Hm & HP). exists (id, info). split_and!; [done|done|by apply elem_of_range_map].
Qed.

Definition has_policy (s : Snapshot) (id : string) : Prop := ∃ info, policy_info s id info.

(** ** Theorems *)

(** [Diff] is exact and deterministic: for well-formed snapshots the
    three lists are strictly sorted and contain exactly the identifiers only
    in the candidate, only in the current view, and in both with different
    revision, priority, window or metadata, whatever the order in which Go
    visits maps; nil snapshots are rejected. *)
Theorem Diff_spec `{GoRuntime} (s t : Snapshot) :
  snapshot_wf s → snapshot_wf t →
  Diff None (Some t) = Err ErrNilSnapshot ∧ Diff (Some s) None = Err ErrNilSnapshot ∧
  ∃ d, Diff (Some s) (Some t) = Ok d ∧
    Diff_FromRevision d = snapshot_revision s ∧ Diff_ToRevision d = snapshot_revision t ∧
    (Diff_AlgorithmChanged d = true ↔ snapshot_algorithm s ≠ snapshot_algorithm t) ∧
    strictly_sorted (Diff_Added d) ∧ strictly_sorted (Diff_Removed d) ∧ strictly_sorted (Diff_Changed d) ∧
    (∀ id, id ∈ Diff_Added d ↔ has_policy t id ∧ ¬ has_policy s id) ∧
    (∀ id, id ∈ Diff_Removed d ↔ has_policy s id ∧ ¬ has_policy t id) ∧
    (∀ id, id ∈ Diff_Changed d ↔ ∃ i j, policy_info s id i ∧ policy_info t id j ∧ policyInfoEqual i j = false).
Proof.
  intros Hs Ht. split; [done|]. split; [done|]. unfold Diff. rewrite diff_loop_filter, added_loop_filter. cbn [app].
  eexists. split; [done|]. cbn.
  set (ms := indexPolicies (Snapshot_Policies s)). set (mt := indexPolicies (Snapshot_Policies t)).
  assert (∀ id info, ms !! id = Some info ↔ policy_info s id info) as Hms by (intros; by apply index_snapshot).
  assert (∀ id info, mt !! id = Some info ↔ policy_info t id info) as Hmt by (intros; by apply index_snapshot).
  destruct (sorted_selection 1 mt (missing_in ms)) as [Ha1 Ha2].
  destruct (sorted_selection 0 ms (missing_in mt)) as [Hr1 Hr2].
  destruct (sorted_selection 0 ms (differs_in mt)) as [Hc1 Hc2].
  split_and!; [done|done| |done|done|done|..].
  - rewrite negb_true_iff. apply bool_decide_eq_false.
  - intros id. rewrite Ha2. unfold missing_in, has_policy. simpl. setoid_rewrite <- Hms. setoid_rewrite <- Hmt.
    setoid_rewrite eq_None_not_Some. unfold is_Some. naive_solver.
  - intros id. rewrite Hr2. unfold missing_in, has_policy. simpl. setoid_rewrite <- Hms. setoid_rewrite <- Hmt.
    setoid_rewrite eq_None_not_Some. unfold is_Some. naive_solver.
  - intros id. rewrite Hc2. unfold differs_in. simpl. setoid_rewrite <- Hms. setoid_rewrite <- Hmt.
    destruct (mt !! id) as [j|]; naive_solver.
Qed.

Definition sample_definition (ident : string) (priority : Z) : PolicyDefinition :=
  mkPolicyDefinition ident 1 priority 0 0 None (Some (constEvaluator (bareDecision Allow "ok" 0))).

Definition sample_snapshot (revision : Revision) (ds : list PolicyDefinition) : Snapshot :=
  match @NewSnapshot plain_runtime revision FirstApplicable ds with
  | Ok s => s
  | Err _ => mkSnapshot 0 FirstApplicable []
  end.

Definition old_view : Snapshot := sample_snapshot 1 [sample_definition "a" 0; sample_definition "b" 0; sample_definition "c" 0].
Definition new_view : Snapshot := sample_snapshot 2 [sample_definition "d" 0; sample_definition "c" 5; sample_definition "b" 0].

Lemma Diff_spec_witness :
  ∃ d, @Diff plain_runtime (Some old_view) (Some new_view) = Ok d ∧
    Diff_Added d = ["d"] ∧ Diff_Removed d = ["a"] ∧ Diff_Changed d = ["c"] ∧
    (has_policy new_view "d" ∧ ¬ has_policy old_view "d").
Proof.
  destruct (@NewSnapshot_wf plain_runtime 1 FirstApplicable
    [sample_definition "a" 0; sample_definition "b" 0; sample_definition "c" 0] old_view ltac:(vm_compute; reflexivity)) as [Ho _].
  destruct (@NewSnapshot_wf plain_runtime 2 FirstApplicable
    [sample_definition "d" 0; sample_definition "c" 5; sample_definition "b" 0] new_view ltac:(vm_compute; reflexivity)) as [Hn _].
  destruct (@Diff_spec plain_runtime old_view new_view Ho Hn) as (_ & _ & d & E & _ & _ & _ & _ & _ & _ & Ha & _).
  exists d. split; [exact E|]. vm_compute in E. injection E as <-.
  split; [reflexivity|]. split; [reflexivity|]. split; [reflexivity|]. apply Ha. by left.
Defined.

Lemma decisionsDiffer_spec left right :
  decisionsDiffer left right = false ↔
  Decision_Outcome left = Decision_Outcome right ∧ Decision_Reason left = Decision_Reason right ∧
  Decision_MatchedPolicyIDs left = Decision_MatchedPolicyIDs right ∧
  Decision_MatchedPolicyIDsTruncated left = Decision_MatchedPolicyIDsTruncated right.
Proof.
  unfold decisionsDiffer. repeat case_bool_decide; simpl; try (split; [done|by intros (? & ? & ? & ?)]).
  rewrite negb_false_iff, eqb_true_iff. naive_solver.
Qed.

Definition comparison (index : nat) (current candidate : Decision) : DecisionComparison :=
  mkDecisionComparison (Z.of_nat index) current candidate (decisionsDiffer current candidate).

Lemma compare_loop_spec index requests ds es :
  (index + length requests ≤ length ds)%nat → (index + length requests ≤ length es)%nat →
  ∃ cs, compare_loop index requests ds es = Ret cs ∧ length cs = length requests ∧
    ∀ i c, cs !! i = Some c → ∃ d e, ds !! (index + i)%nat = Some d ∧ es !! (index + i)%nat = Some e ∧
      c = comparison (index + i) d e.
Proof.
  revert index. induction requests as [|r requests IH]; intros index Hd He; simpl in *; [by exists []|].
  destruct (lookup_lt_is_Some_2 ds index) as [d Ed]; [lia|]. destruct (lookup_lt_is_Some_2 es index) as [e Ee]; [lia|].
  rewrite Ed, Ee. destruct (IH (S index)) as (cs & -> & Hlen & Hcs); [lia|lia|].
  eexists. split; [done|]. split; [simpl; by rewrite Hlen|]. intros [|i] c; simpl.
  - intros [= <-]. exists d, e. by rewrite Nat.add_0_r.
  - intros (d' & e' & ? & ? & ->)%Hcs. exists d', e'. by rewrite Nat.add_succ_r.
Qed.

(** The engine [DryRun] creates. *)
Definition default_engine `{GoRuntime} (s : Snapshot) : Engine := mkEngine (Some s) default_limits now.

(** [DryRun] returns for all snapshots within the policy limit: above
    the batch limit it reports no decisions and the batch errors; otherwise
    it reports one comparison per request, in order, of what a default
    engine decides under each snapshot, flagged exactly when outcome,
    reason, matched identifiers or truncation differ, with the errors of
    both batches joined. *)
Theorem DryRun_spec `{GoRuntime} (ctx : Context) (s t : Snapshot) (requests : list Request) (n : nat) :
  len (snapshot_policies s) ≤ 1000 → len (snapshot_policies t) ≤ 1000 →
  ∃ report err n', DryRun ctx (Some s) (Some t) requests n = (Ret (report, err), n') ∧
    Report_FromRevision report = snapshot_revision s ∧ Report_ToRevision report = snapshot_revision t ∧
    (1000 < len requests → Report_Decisions report = [] ∧
       err = Some (errors_Joined [Engine.ErrBatchLimitExceeded; Engine.ErrBatchLimitExceeded])) ∧
    (len requests ≤ 1000 →
       ∃ rs ts m, batch_run (λ request, engine_decide (default_engine s) ctx request s) requests n rs m ∧
         batch_run (λ request, engine_decide (default_engine t) ctx request t) requests m ts n' ∧
         err = errors_Join [errors_Join rs.*2; errors_Join ts.*2] ∧
         length (Report_Decisions report) = length requests ∧
         ∀ i c, Report_Decisions report !! i = Some c → ∃ x y, rs !! i = Some x ∧ ts !! i = Some y ∧
           c = comparison i x.1 y.1 ∧
           (Comparison_Changed c = false ↔
              Decision_Outcome x.1 = Decision_Outcome y.1 ∧ Decision_Reason x.1 = Decision_Reason y.1 ∧
              Decision_MatchedPolicyIDs x.1 = Decision_MatchedPolicyIDs y.1 ∧
              Decision_MatchedPolicyIDsTruncated x.1 = Decision_MatchedPolicyIDsTruncated y.1)).
Proof.
  intros Hs Ht. unfold DryRun, NewEngine. simpl.
  rewrite !(proj2 (Z.ltb_ge _ _)) by done. fold (default_engine s) (default_engine t).
  destruct (DecideBatch_cases (default_engine s) s ctx requests n eq_refl) as [Hs1 Hs2].
  destruct (Z.lt_ge_cases 1000 (len requests)) as [Hl|Hl].
  - rewrite (M_bind_Ret _ _ _ _ _ (Hs1 Hl)). cbn iota beta.
    destruct (DecideBatch_cases (default_engine t) t ctx requests n eq_refl) as [Ht1 _].
    rewrite (M_bind_Ret _ _ _ _ _ (Ht1 Hl)). cbn iota beta.
    destruct (Z.eqb_spec (len (@nil Decision)) (len requests)) as [E|_]; [unfold len in *; simpl in *; lia|].
    eexists _, _, n. split_and!; [done|done|done|done|lia].
  - destruct (Hs2 Hl) as (rs & m & Hrs & Es & Hrl & _). rewrite (M_bind_Ret _ _ _ _ _ Es). cbn iota beta.
    destruct (DecideBatch_cases (default_engine t) t ctx requests m eq_refl) as [_ Ht2].
    destruct (Ht2 Hl) as (ts & n' & Hts & Et & Htl & _). rewrite (M_bind_Ret _ _ _ _ _ Et). cbn iota beta.
    assert (len rs.*1 = len requests) as -> by (unfold len; rewrite length_fmap; lia). rewrite Z.eqb_refl. cbn [negb].
    destruct (compare_loop_spec 0 requests rs.*1 ts.*1) as (cs & Ec & Hcl & Hcs); [rewrite length_fmap; lia..|].
    rewrite Ec. eexists _, _, n'. split; [done|]. cbn. split_and!; [done|done|lia|]. intros _.
    exists rs, ts, m. split_and!; [done..|]. intros i c Hc. destruct (Hcs i c Hc) as (d & e & Hd & He & ->).
    rewrite list_lookup_fmap in Hd, He. simpl in Hd, He.
    destruct (rs !! i) as [x|]; [|done]. destruct (ts !! i) as [y|]; [|done]. simpl in *. simplify_eq.
    exists x, y. split_and!; [done|done|done|]. apply decisionsDiffer_spec.
Qed.

Lemma DryRun_spec_witness :
  ∃ report err n', @DryRun plain_runtime context_Background (Some allow_snapshot) (Some allow_snapshot)
      [example_request] 0%nat = (Ret (report, err), n') ∧ length (Report_Decisions report) = 1%nat.
Proof.
  destruct (@DryRun_spec plain_runtime context_Background allow_snapshot allow_snapshot [example_request] 0%nat
    ltac:(vm_compute; done) ltac:(vm_compute; done)) as (report & err & n' & E & _ & _ & _ & H).
  destruct (H ltac:(vm_compute; done)) as (_ & _ & _ & _ & _ & _ & Hlen & _).
  exists report, err, n'. by split.
Defined.

End policy_diff.
