(* ===== verification/Synchronizer.v ===== *)
(** * The policy synchronizer (policy/synchronizer.go)

    A synchronizer keeps an engine converged with a repository. Its state is
    the engine's snapshot, which other writers share, and the time of the
    last verification. [Reload] loads and validates a manifest, compiles it
    and replaces the snapshot it saw; [Decide] fails closed when the last
    verification is too old. The mutex [reloadMu] serializes reloads, so a
    reload is one sequence of steps; between its read of the revision and its
    replacement, and before the read, other writers may replace snapshots of
    the same engine: [others] are the calls they make at a position. *)

From S2P Require Import Prelude Attribute Request Decision Snapshot Engine Publication Documents Manifest.
Import policy.

#[local] Open Scope Z_scope.

Module synchronizer.

(** ** Data *)

Definition DefaultSyncInterval : Z := 30 * 10 ^ 9.
Definition DefaultMaxStaleness : Z := 120 * 10 ^ 9.

Definition ErrNilRepository := errors_New "policy synchronizer repository is nil".
Definition ErrNilCompiler := errors_New "policy synchronizer compiler is nil".
Definition ErrNilEngine := errors_New "policy synchronizer engine is nil".
Definition ErrInvalidSyncInterval := errors_New "policy synchronizer interval is invalid".
Definition ErrInvalidMaxStaleness := errors_New "policy synchronizer maximum staleness is invalid".
Definition ErrStaleManifest := errors_New "policy repository manifest is stale".
Definition ErrPolicyStale := errors_New "authorization policy verification is stale".

(** The part of the interface [Repository] the synchronizer calls. *)
Record Repository := mkRepository { Load : Context → M (Manifest * option error) }.

Record Synchronizer := mkSynchronizer {
  sync_repository : Repository;
  sync_compiler : Compiler;
  sync_interval : Z;
  sync_maxStaleness : Z;
  sync_clock : M Time
}.

(** The mutable state: the shared engine and [verifiedAt]. *)
Record sync_state := mkSyncState {
  sync_engine : Engine;
  sync_verifiedAt : Time
}.

Definition SynchronizerOption := Synchronizer → Synchronizer.

Definition WithSyncInterval (interval : Z) : SynchronizerOption := λ s,
  mkSynchronizer (sync_repository s) (sync_compiler s) interval (sync_maxStaleness s) (sync_clock s).

Definition WithMaxStaleness (maxStaleness : Z) : SynchronizerOption := λ s,
  mkSynchronizer (sync_repository s) (sync_compiler s) (sync_interval s) maxStaleness (sync_clock s).

Definition WithSynchronizerClock (clock : option (M Time)) : SynchronizerOption := λ s,
  match clock with
  | None => s
  | Some clock =>
      mkSynchronizer (sync_repository s) (sync_compiler s) (sync_interval s) (sync_maxStaleness s) clock
  end.

Definition NewSynchronizer `{GoRuntime} (repository : option Repository) (compiler : option Compiler)
    (engine : option Engine) (options : list SynchronizerOption) : result (Synchronizer * sync_state) :=
  match repository with
  | None => Err ErrNilRepository
  | Some repository =>
      match compiler with
      | None => Err ErrNilCompiler
      | Some compiler =>
          match engine with
          | None => Err ErrNilEngine
          | Some engine =>
              let s := foldl (λ s option, option s)
                         (mkSynchronizer repository compiler DefaultSyncInterval DefaultMaxStaleness now) options in
              if sync_interval s <=? 0 then Err ErrInvalidSyncInterval
              else if sync_maxStaleness s <=? 0 then Err ErrInvalidMaxStaleness
              else Ok (s, mkSyncState engine 0)
          end
      end
  end.

(** ** Other writers of the engine *)

Class OtherWriters := others : nat → list (option Snapshot * Revision).

Definition write_all (engine : Engine) (calls : list (option Snapshot * Revision)) : Engine :=
  foldl (λ engine '(next, expected),
           match Engine_ReplaceSnapshot engine next expected with
           | Ret (_, engine) => engine
           | Panic => engine
           end) engine calls.

Section synchronizer.
Context `{GoRuntime} `{OtherWriters}.

Definition interleave (engine : Engine) : M Engine := λ n, (Ret (write_all engine (others n)), S n).

(** ** Operations *)

Definition markVerified (s : Synchronizer) (st : sync_state) : M sync_state :=
  t ← sync_clock s;
  mret (mkSyncState (sync_engine st) t).

Definition LastVerified (st : sync_state) : Time * bool :=
  (sync_verifiedAt st, negb (time_IsZero (sync_verifiedAt st))).

Definition with_engine (st : sync_state) (engine : Engine) : sync_state := mkSyncState engine (sync_verifiedAt st).

Definition Reload (s : Synchronizer) (ctx : Context) (st : sync_state) : M (bool * option error * sync_state) :=
  err ← ctx_Err ctx;
  match err with
  | Some err => mret (false, Some err, st)
  | None =>
      '(manifest, err) ← Load (sync_repository s) ctx;
      match err with
      | Some err => mret (false, Some err, st)
      | None =>
          match Manifest_Validate manifest with
          | Some err => mret (false, Some err, st)
          | None =>
              engine ← interleave (sync_engine st);
              current ← Engine_Revision engine;
              let st := with_engine st engine in
              if Manifest_Revision manifest <? current then mret (false, Some ErrStaleManifest, st)
              else if Manifest_Revision manifest =? current then
                st ← markVerified s st;
                mret (false, None, st)
              else
                compiled ← go_call (Compile (sync_compiler s) manifest);
                match compiled with
                | Err err => mret (false, Some err, st)
                | Ok snapshot =>
                    engine ← interleave engine;
                    '(err, engine) ← go_call (Engine_ReplaceSnapshot engine (Some snapshot) current);
                    let st := with_engine st engine in
                    match err with
                    | Some err => mret (false, Some err, st)
                    | None =>
                        st ← markVerified s st;
                        mret (true, None, st)
                    end
                end
          end
      end
  end.

Definition Decide (s : Synchronizer) (ctx : Context) (st : sync_state) (request : Request) :
    M (Decision * option error) :=
  let '(verifiedAt, verified) := LastVerified st in
  now ← sync_clock s;
  if negb verified || time_Before now verifiedAt || (sync_maxStaleness s <? time_Sub now verifiedAt) then
    revision ← Engine_Revision (sync_engine st);
    mret (bareDecision Deny ReasonPolicyStale revision, Some ErrPolicyStale)
  else Engine_Decide (sync_engine st) ctx request.

Definition Observe (s : Synchronizer) (ctx : Context) (st : sync_state) (revision : Revision) :
    M (option error * sync_state) :=
  active ← Engine_Revision (sync_engine st);
  if revision <=? active then mret (None, st)
  else
    '(_, err, st) ← Reload s ctx st;
    match err with
    | Some err => mret (Some err, st)
    | None =>
        engine ← interleave (sync_engine st);
        let st := with_engine st engine in
        active ← Engine_Revision engine;
        mret (if active <? revision then (Some ErrStaleManifest, st) else (None, st))
    end.

(** What the [select] of [Run] receives, in order. *)
Inductive select_event := SelectDone | SelectTick.

(** The loop of [Run]: [None] when the events run out while it still polls. *)
Fixpoint run_loop (s : Synchronizer) (ctx : Context) (events : list select_event) (st : sync_state) :
    M (option (option error) * sync_state) :=
  match events with
  | [] => mret (None, st)
  | SelectDone :: _ => err ← ctx_Err ctx; mret (Some err, st)
  | SelectTick :: events =>
      '(_, err, st) ← Reload s ctx st;
      match err with
      | Some err => mret (Some (Some err), st)
      | None => run_loop s ctx events st
      end
  end.

Definition Run (s : Synchronizer) (ctx : Context) (events : list select_event) (st : sync_state) :
    M (option (option error) * sync_state) :=
  '(_, err, st) ← Reload s ctx st;
  match err with
  | Some err => mret (Some (Some err), st)
  | None => run_loop s ctx events st
  end.

(** ** Lemmas *)

(** An engine that other writers reached: its limits and clock stay, its
    revision does not decrease. *)
Record later (e e' : Engine) : Prop := {
  later_snapshot : is_Some (engine_snapshot e) → is_Some (engine_snapshot e');
  later_limits : engine_limits e' = engine_limits e;
  later_clock : engine_clock e' = engine_clock e;
  later_revision : is_Some (engine_snapshot e) → current_revision e ≤ current_revision e'
}.

#[global] Instance later_preorder : PreOrder later.
Proof.
  split.
  - intros e. by split.
  - intros e1 e2 e3 [? ? ? ?] [? ? ? ?]. split; [auto|congruence|congruence|]. intros. etrans; eauto.
Qed.

Lemma ReplaceSnapshot_later e next expected r e' :
  Engine_ReplaceSnapshot e next expected = Ret (r, e') → later e e'.
Proof.
  intros E. destruct (ReplaceSnapshot_limits _ _ _ _ _ E) as [Hl Hs]. split; [done|done| |].
  - unfold Engine_ReplaceSnapshot in E. destruct (replace_admit _ _); [|by simplify_eq].
    destruct (engine_snapshot e); [|done]. destruct (replace_check _ _ _); by simplify_eq.
  - intros Hsome. pose proof (ReplaceSnapshot_cas _ _ _ _ _ Hsome E) as Hcas.
    destruct r; [by subst|]. destruct Hcas as (? & _ & _ & <- & ?). lia.
Qed.

Lemma write_all_later e calls : later e (write_all e calls).
Proof.
  revert e. induction calls as [|[next expected] calls IH]; intros e; [done|]. unfold write_all. simpl.
  destruct (Engine_ReplaceSnapshot e next expected) as [[r e']|] eqn:E; [|apply IH].
  etrans; [by eapply ReplaceSnapshot_later|apply IH].
Qed.

Lemma write_all_app e calls calls' : write_all e (calls ++ calls') = write_all (write_all e calls) calls'.
Proof. apply foldl_app. Qed.

Lemma Engine_Revision_run e n :
  is_Some (engine_snapshot e) → Engine_Revision e n = (Ret (current_revision e), n).
Proof. intros [s Hs]. unfold Engine_Revision, load_snapshot, current_revision, mbind, M_bind. by rewrite Hs. Qed.

(** A repository that answers, with a manifest or an error. *)
Class RepositoryTotal (repository : Repository) : Prop :=
  repository_total : ∀ ctx n, ∃ r n', Load repository ctx n = (Ret r, n').

(** The engine after calls of the other writers. *)
Definition left_by_others (e e' : Engine) : Prop :=
  ∃ calls, Forall (λ call, ∃ k, call ∈ others k) calls ∧ e' = write_all e calls.

Lemma others_left e n : left_by_others e (write_all e (others n)).
Proof. exists (others n). split; [|done]. apply Forall_forall. eauto. Qed.

#[global] Instance left_by_others_preorder : PreOrder left_by_others.
Proof.
  split; [intros e; by exists []|]. intros e1 e2 e3 (c1 & H1 & ->) (c2 & H2 & ->). exists (c1 ++ c2).
  split; [by apply Forall_app|by rewrite write_all_app].
Qed.

Lemma left_by_others_later e e' : left_by_others e e' → later e e'.
Proof. intros (calls & _ & ->). apply write_all_later. Qed.

(** What a reload did, from state [st] to [st']: without a reported change
    the engine is the one other writers left; a failure keeps the
    verification time. *)
Definition reloaded (s : Synchronizer) (ctx : Context) (st : sync_state) (n : nat)
    (changed : bool) (err : option error) (st' : sync_state) : Prop :=
  later (sync_engine st) (sync_engine st') ∧
  match err with
  | Some _ => changed = false ∧ sync_verifiedAt st' = sync_verifiedAt st ∧
      left_by_others (sync_engine st) (sync_engine st')
  | None =>
      ∃ manifest m m' m'', Load (sync_repository s) ctx (S n) = (Ret (manifest, None), m) ∧ manifest_ok manifest ∧
        current_revision (sync_engine st') = Manifest_Revision manifest ∧
        sync_clock s m' = (Ret (sync_verifiedAt st'), m'') ∧
        if changed then
          ∃ snapshot seen, Compile (sync_compiler s) manifest = Ret (Ok snapshot) ∧ later (sync_engine st) seen ∧
            sync_engine st' = store_snapshot seen snapshot ∧ current_revision seen < Manifest_Revision manifest
        else left_by_others (sync_engine st) (sync_engine st')
  end.

Lemma markVerified_run s st n `{!ClockTotal (sync_clock s)} :
  ∃ t n', sync_clock s n = (Ret t, n') ∧ markVerified s st n = (Ret (mkSyncState (sync_engine st) t), n').
Proof.
  destruct (clock_total (clock := sync_clock s) n) as (t & n' & E). exists t, n'. split; [done|].
  unfold markVerified. by erewrite M_bind_Ret by done.
Qed.

Lemma interleave_bind {B} engine (f : Engine → M B) n :
  (interleave engine ≫= f) n = f (write_all engine (others n)) (S n).
Proof. done. Qed.

Lemma go_call_bind {A B} (a : A) (f : A → M B) n : (go_call (Ret a) ≫= f) n = f a n.
Proof. done. Qed.

Lemma reloaded_failed s ctx st n e engine :
  left_by_others (sync_engine st) engine → reloaded s ctx st n false (Some e) (with_engine st engine).
Proof. intros Hl. split; [by apply left_by_others_later|done]. Qed.

Lemma reloaded_unchanged s ctx st n e : reloaded s ctx st n false (Some e) st.
Proof. destruct st as [engine t]. by apply (reloaded_failed s ctx (mkSyncState engine t) n e engine). Qed.

Lemma Reload_cases s ctx st n
    `{!ClockTotal (sync_clock s), !RepositoryTotal (sync_repository s), !DecodersTotal (sync_compiler s)} :
  is_Some (engine_snapshot (sync_engine st)) →
  ∃ changed err st' n', Reload s ctx st n = (Ret (changed, err, st'), n') ∧ reloaded s ctx st n changed err st'.
Proof.
  intros Hsnap. unfold Reload. rewrite ctx_Err_bind. destruct (Err_at ctx n) as [e|].
  { exists false, (Some e), st, (S n). split; [done|apply reloaded_unchanged]. }
  destruct (repository_total (repository := sync_repository s) ctx (S n)) as ([manifest err] & m & EL).
  rewrite (M_bind_Ret _ _ _ _ _ EL). cbn iota beta. destruct err as [e|].
  { exists false, (Some e), st, m. split; [done|apply reloaded_unchanged]. }
  destruct (Manifest_Validate manifest) as [e|] eqn:Ev.
  { exists false, (Some e), st, m. split; [done|apply reloaded_unchanged]. }
  apply Manifest_Validate_None in Ev. rewrite interleave_bind.
  set (e1 := write_all (sync_engine st) (others m)).
  assert (left_by_others (sync_engine st) e1) as Ho1 by apply others_left.
  pose proof (left_by_others_later _ _ Ho1) as Hl1.
  assert (is_Some (engine_snapshot e1)) as Hs1 by (by apply (later_snapshot _ _ Hl1)).
  rewrite (M_bind_Ret _ _ _ _ _ (Engine_Revision_run e1 (S m) Hs1)). cbn iota beta.
  destruct (Z.ltb_spec (Manifest_Revision manifest) (current_revision e1)) as [Hlt|Hge].
  { exists false, (Some ErrStaleManifest), (with_engine st e1), (S m). split; [done|by apply reloaded_failed]. }
  destruct (Z.eqb_spec (Manifest_Revision manifest) (current_revision e1)) as [Heq|Hne].
  { destruct (markVerified_run s (with_engine st e1) (S m)) as (t & m2 & Et & Em).
    rewrite (M_bind_Ret _ _ _ _ _ Em). exists false, None, (mkSyncState e1 t), m2.
    split; [done|]. split; [done|]. by exists manifest, m, (S m), m2. }
  destruct (Compile_total (sync_compiler s) manifest) as [[snapshot|e] Ec]; rewrite Ec, go_call_bind.
  2: { exists false, (Some e), (with_engine st e1), (S m). split; [done|by apply reloaded_failed]. }
  rewrite interleave_bind. set (e2 := write_all e1 (others (S m))).
  assert (later e1 e2) as Hl2 by apply write_all_later.
  assert (is_Some (engine_snapshot e2)) as Hs2 by (by apply (later_snapshot _ _ Hl2)).
  assert (later (sync_engine st) e2) as Hl by (by etrans).
  destruct (Engine_ReplaceSnapshot e2 (Some snapshot) (current_revision e1)) as [[err e3]|] eqn:Er.
  2: { unfold Engine_ReplaceSnapshot, replace_admit in Er. destruct (_ <? _); [done|]. destruct Hs2 as [? Hs2].
       rewrite Hs2 in Er. by destruct (replace_check _ _ _). }
  rewrite go_call_bind. cbn iota beta.
  pose proof (ReplaceSnapshot_cas _ _ _ _ _ Hs2 Er) as Hcas. destruct err as [e|].
  { subst e3. exists false, (Some e), (with_engine st e2), (S (S m)). split; [done|].
    apply reloaded_failed. etrans; [exact Ho1|apply others_left]. }
  destruct Hcas as (s' & [= <-] & -> & Hexp & Hnew).
  destruct (markVerified_run s (with_engine st (store_snapshot e2 snapshot)) (S (S m))) as (t & m2 & Et & Em).
  rewrite (M_bind_Ret _ _ _ _ _ Em). exists true, None, (mkSyncState (store_snapshot e2 snapshot) t), m2.
  split; [done|]. split; [etrans; [done|by eapply ReplaceSnapshot_later]|].
  exists manifest, m, (S (S m)), m2. simpl. pose proof (Compile_revision _ _ _ Ec) as Hrev.
  split_and!; [done..|]. exists snapshot, e2. split_and!; [done..|]. lia.
Qed.

(** The result of [Observe] in terms of reloads. *)
Lemma Observe_cases s ctx st revision n
    `{!ClockTotal (sync_clock s), !RepositoryTotal (sync_repository s), !DecodersTotal (sync_compiler s)} :
  is_Some (engine_snapshot (sync_engine st)) →
  ∃ err st' n', Observe s ctx st revision n = (Ret (err, st'), n') ∧
    ((err = None ∧ st' = st ∧ revision ≤ current_revision (sync_engine st)) ∨
     ∃ changed rerr st1 engine, reloaded s ctx st n changed rerr st1 ∧
       match rerr with
       | Some e => err = Some e ∧ st' = st1
       | None => left_by_others (sync_engine st1) engine ∧ st' = with_engine st1 engine ∧
           err = if current_revision (sync_engine st') <? revision then Some ErrStaleManifest else None
       end).
Proof.
  intros Hsnap. unfold Observe. rewrite (M_bind_Ret _ _ _ _ _ (Engine_Revision_run _ n Hsnap)). cbn iota beta.
  destruct (Z.leb_spec revision (current_revision (sync_engine st))).
  { exists None, st, n. split; [done|]. by left. }
  destruct (Reload_cases s ctx st n Hsnap) as (changed & rerr & st1 & n1 & E & Hr).
  rewrite (M_bind_Ret _ _ _ _ _ E). cbn iota beta. destruct rerr as [e|].
  { exists (Some e), st1, n1. split; [done|]. right. by exists changed, (Some e), st1, (sync_engine st1). }
  rewrite interleave_bind. cbn zeta.
  assert (is_Some (engine_snapshot (write_all (sync_engine st1) (others n1)))) as Hs.
  { eapply later_snapshot; [apply write_all_later|]. eapply later_snapshot; [apply Hr|done]. }
  rewrite (M_bind_Ret _ _ _ _ _ (Engine_Revision_run _ (S n1) Hs)).
  set (e := write_all (sync_engine st1) (others n1)).
  exists (if current_revision e <? revision then Some ErrStaleManifest else None), (with_engine st1 e), (S n1).
  split; [unfold mret, M_ret; by destruct (_ <? _)|]. right. exists changed, None, st1, e.
  split_and!; [done|apply others_left|done..].
Qed.

(** The states the operations and the other writers reach from the start. *)
Inductive reachable (s : Synchronizer) (engine : Engine) : sync_state → Prop :=
| reach_start : reachable s engine (mkSyncState engine 0)
| reach_reload ctx st n changed err st' n' :
    reachable s engine st → Reload s ctx st n = (Ret (changed, err, st'), n') → reachable s engine st'
| reach_observe ctx st revision n err st' n' :
    reachable s engine st → Observe s ctx st revision n = (Ret (err, st'), n') → reachable s engine st'
| reach_others st calls :
    reachable s engine st → reachable s engine (with_engine st (write_all (sync_engine st) calls)).

(** Evidence for a verification time: the clock gave it after the repository
    returned a valid manifest whose revision the engine has reached. *)
Definition verified_by (s : Synchronizer) (st : sync_state) : Prop :=
  ∃ ctx manifest n m m' m'', Load (sync_repository s) ctx n = (Ret (manifest, None), m) ∧ manifest_ok manifest ∧
    Manifest_Revision manifest ≤ current_revision (sync_engine st) ∧ sync_clock s m' = (Ret (sync_verifiedAt st), m'').

Definition sync_inv (s : Synchronizer) (engine : Engine) (st : sync_state) : Prop :=
  later engine (sync_engine st) ∧ (sync_verifiedAt st ≠ 0 → verified_by s st).

Lemma verified_by_later s st e :
  is_Some (engine_snapshot (sync_engine st)) → later (sync_engine st) e → verified_by s st → verified_by s (with_engine st e).
Proof.
  intros Hs Hl (ctx & manifest & n & m & m' & m'' & ? & ? & ? & ?).
  exists ctx, manifest, n, m, m', m''. split_and!; [done..| |done]. simpl. pose proof (later_revision _ _ Hl Hs). lia.
Qed.

Lemma reloaded_inv s engine ctx st n changed err st' :
  is_Some (engine_snapshot engine) → sync_inv s engine st → reloaded s ctx st n changed err st' → sync_inv s engine st'.
Proof.
  intros Hs [Hl Hv] [Hl' Hr]. pose proof (later_snapshot _ _ Hl Hs) as Hs'.
  split; [by etrans|]. destruct err as [e|].
  - destruct Hr as (_ & Heq & _). rewrite Heq. intros Hne. destruct (Hv Hne) as (ctx' & manifest & k & m & m' & m'' & ? & ? & ? & ?).
    pose proof (later_revision _ _ Hl' Hs'). exists ctx', manifest, k, m, m', m''. rewrite Heq. split_and!; [done|done|lia|done].
  - intros _. destruct Hr as (manifest & m & m' & m'' & ? & ? & Hrev & ? & _).
    exists ctx, manifest, (S n), m, m', m''. split_and!; [done|done|lia|done].
Qed.

Lemma reachable_inv s engine st
    `{!ClockTotal (sync_clock s), !RepositoryTotal (sync_repository s), !DecodersTotal (sync_compiler s)} :
  is_Some (engine_snapshot engine) → reachable s engine st → sync_inv s engine st.
Proof.
  intros Hs. induction 1 as [|ctx st n changed err st' n' _ IH E|ctx st revision n err st' n' _ IH E|st calls _ IH].
  - by split.
  - destruct (Reload_cases s ctx st n) as (c & e & st1 & m & E' & Hr); [by apply (later_snapshot _ _ (proj1 IH))|].
    rewrite E in E'. simplify_eq. by eapply reloaded_inv.
  - pose proof (later_snapshot _ _ (proj1 IH) Hs) as Hs'.
    destruct (Observe_cases s ctx st revision n Hs') as (e & st1 & m & E' & Hcases). rewrite E in E'. simplify_eq.
    destruct Hcases as [(_ & -> & _)|(changed & rerr & st2 & engine' & Hr & Hm)]; [done|].
    pose proof (reloaded_inv _ _ _ _ _ _ _ _ Hs IH Hr) as [Hl2 Hv2].
    destruct rerr as [e'|]; [by destruct Hm as [_ ->]|]. destruct Hm as (Ho%left_by_others_later & -> & _).
    split; [by etrans|]. intros Hne. apply verified_by_later; [by apply (later_snapshot _ _ Hl2)|done|by apply Hv2].
  - destruct IH as [Hl Hv]. split; [etrans; [done|apply write_all_later]|]. intros Hne.
    apply verified_by_later; [by apply (later_snapshot _ _ Hl)|apply write_all_later|by apply Hv].
Qed.

(** How [Run] ended, or that it still waits: only a cancellation or a failed
    reload end it, and while it waits every event was a tick and the last
    reload succeeded. *)
Definition ran (s : Synchronizer) (ctx : Context) (events : list select_event) (r : option (option error))
    (st' : sync_state) : Prop :=
  match r with
  | None => Forall (eq SelectTick) events ∧ ∃ st0 n0 changed, reloaded s ctx st0 n0 changed None st'
  | Some err =>
      (∃ st0 n0 e, reloaded s ctx st0 n0 false (Some e) st' ∧ err = Some e) ∨
      (SelectDone ∈ events ∧ (∃ m, err = Err_at ctx m) ∧ ∃ st0 n0 changed, reloaded s ctx st0 n0 changed None st')
  end.

Lemma run_loop_cases s ctx events st n
    `{!ClockTotal (sync_clock s), !RepositoryTotal (sync_repository s), !DecodersTotal (sync_compiler s)} :
  is_Some (engine_snapshot (sync_engine st)) → (∃ st0 n0 changed, reloaded s ctx st0 n0 changed None st) →
  ∃ r st' n', run_loop s ctx events st n = (Ret (r, st'), n') ∧
    later (sync_engine st) (sync_engine st') ∧ ran s ctx events r st'.
Proof.
  revert st n. induction events as [|[] events IH]; intros st n Hs Hr; simpl.
  - by exists None, st, n.
  - rewrite ctx_Err_bind. eexists (Some (Err_at ctx n)), st, (S n). split_and!; [done..|]. right.
    split_and!; [by left|by exists n|done].
  - destruct (Reload_cases s ctx st n Hs) as (changed & err & st1 & n1 & E & Hr1).
    rewrite (M_bind_Ret _ _ _ _ _ E). cbn iota beta. pose proof (proj1 Hr1) as Hl. destruct err as [e|].
    + pose proof Hr1 as (_ & -> & _). eexists (Some (Some e)), st1, n1. split_and!; [done..|]. left. by eexists _, _, _.
    + destruct (IH st1 n1 (later_snapshot _ _ Hl Hs)) as (r & st' & n' & E' & Hl' & Hran); [by eexists _, _, _|].
      exists r, st', n'. split_and!; [done|by etrans|]. destruct r as [err|]; simpl in *.
      * destruct Hran as [?|(? & ? & ?)]; [by left|]. right. split_and!; [by right|done|done].
      * destruct Hran as [? ?]. split; [by constructor|done].
Qed.

(** When [Decide] delegates: verified, the clock not behind, and the age
    within the limit. The age saturates at the largest duration, so a limit
    of that size never expires. *)
Definition fresh_at (s : Synchronizer) (st : sync_state) (t : Time) : Prop :=
  sync_verifiedAt st ≠ 0 ∧ sync_verifiedAt st ≤ t ∧
  (t - sync_verifiedAt st ≤ sync_maxStaleness s ∨ max_int64 ≤ sync_maxStaleness s).

Lemma fresh_test s st t :
  negb (LastVerified st).2 || time_Before t (LastVerified st).1 || (sync_maxStaleness s <? time_Sub t (LastVerified st).1) = false
  ↔ fresh_at s st t.
Proof.
  unfold LastVerified, fresh_at, time_IsZero, time_Before, time_Sub. simpl.
  destruct (Z.eqb_spec (sync_verifiedAt st) 0), (Z.ltb_spec t (sync_verifiedAt st)),
    (Z.ltb_spec (sync_maxStaleness s) (Z.max min_int64 (Z.min max_int64 (t - sync_verifiedAt st)))); simpl;
    unfold min_int64, max_int64 in *; split; (done || lia).
Qed.
End synchronizer.

(** ** Theorems *)

Section theorems.
Context `{GoRuntime} `{OtherWriters}.

(** C32. [Reload] follows the repository and never rolls back: with
    collaborators that answer, every reload returns, whatever other writers
    do meanwhile; the engine's revision never decreases; a failed reload
    keeps the verification time and leaves the engine to the other writers;
    a successful one was preceded by a valid manifest of the repository whose revision is the
    engine's afterwards, with the verification time read from the clock
    after it, and a reported change is exactly the publication of the
    compiled snapshot over an older revision. *)
Theorem Reload_spec (s : Synchronizer) (ctx : Context) (st : sync_state) (n : nat)
    `{!ClockTotal (sync_clock s), !RepositoryTotal (sync_repository s), !DecodersTotal (sync_compiler s)} :
  is_Some (engine_snapshot (sync_engine st)) →
  ∃ changed err st' n', Reload s ctx st n = (Ret (changed, err, st'), n') ∧ reloaded s ctx st n changed err st'.
Proof. exact (Reload_cases s ctx st n). Qed.

(** C23. Decisions are fresh: in every state that reloads, observed hints and
    other writers can reach, [Decide] returns; it delegates to the engine
    exactly when the state is fresh at the sampled time, and then a valid
    manifest of the repository, of a revision the engine has reached, was
    verified at that recorded time; otherwise it denies with
    [ErrPolicyStale]. *)
Theorem Synchronizer_decides_fresh (s : Synchronizer) (engine : Engine) (st : sync_state) (ctx : Context)
    (request : Request) (n : nat)
    `{!ClockTotal (sync_clock s), !RepositoryTotal (sync_repository s), !DecodersTotal (sync_compiler s)} :
  is_Some (engine_snapshot engine) → reachable s engine st →
  ∃ t n', sync_clock s n = (Ret t, n') ∧
    (fresh_at s st t → Decide s ctx st request n = Engine_Decide (sync_engine st) ctx request n' ∧ verified_by s st) ∧
    (¬ fresh_at s st t → ∃ d, Decide s ctx st request n = (Ret (d, Some ErrPolicyStale), n') ∧
       Decision_Outcome d = Deny ∧ Decision_Revision d = current_revision (sync_engine st)).
Proof.
  intros Hs Hreach. destruct (reachable_inv s engine st Hs Hreach) as [Hl Hv].
  pose proof (later_snapshot _ _ Hl Hs) as Hs'.
  destruct (clock_total (clock := sync_clock s) n) as (t & n' & Et). exists t, n'. split; [done|].
  unfold Decide. destruct (LastVerified st) as [verifiedAt verified] eqn:Elv.
  rewrite (M_bind_Ret _ _ _ _ _ Et). cbn beta.
  pose proof (fresh_test s st t) as Hf. rewrite Elv in Hf. simpl in Hf. split.
  - intros Hfresh. rewrite (proj2 Hf Hfresh). split; [done|]. apply Hv, Hfresh.
  - intros Hno. destruct (_ || _) eqn:E; [|by destruct Hno; apply Hf].
    rewrite (M_bind_Ret _ _ _ _ _ (Engine_Revision_run _ n' Hs')). by eexists.
Qed.
(** [Run] polls until the first failure: with collaborators that answer
    it returns or keeps waiting for events; while it waits, every event so
    far was a tick whose reload succeeded, so the verification time is the
    one of the last reload; it ends only with the error of a reload, which
    it returns, or after a cancellation, with the context's error; and the
    engine's revision never decreased. *)
Theorem Run_spec (s : Synchronizer) (ctx : Context) (events : list select_event) (st : sync_state) (n : nat)
    `{!ClockTotal (sync_clock s), !RepositoryTotal (sync_repository s), !DecodersTotal (sync_compiler s)} :
  is_Some (engine_snapshot (sync_engine st)) →
  ∃ r st' n', Run s ctx events st n = (Ret (r, st'), n') ∧
    later (sync_engine st) (sync_engine st') ∧ ran s ctx events r st'.
Proof.
  intros Hs. unfold Run. destruct (Reload_cases s ctx st n Hs) as (changed & err & st1 & n1 & E & Hr1).
  rewrite (M_bind_Ret _ _ _ _ _ E). cbn iota beta. pose proof (proj1 Hr1) as Hl. destruct err as [e|].
  - pose proof Hr1 as (_ & -> & _). eexists (Some (Some e)), st1, n1. split_and!; [done..|]. left. by eexists _, _, _.
  - destruct (run_loop_cases s ctx events st1 n1) as (r & st' & n' & E' & Hl' & Hran);
      [by apply (later_snapshot _ _ Hl)|by eexists _, _, _|].
    exists r, st', n'. split_and!; [done|by etrans|done].
Qed.
End theorems.

(** A repository that always returns one manifest. *)
Definition sample_sync : Synchronizer :=
  mkSynchronizer (mkRepository (λ _, mret (sample_manifest, None))) sample_compiler 1 5 (mret 10).

Definition no_writers : OtherWriters := λ _, [].

Definition sample_engine : Engine :=
  @example_engine plain_runtime (mkSnapshot 3 (snapshot_algorithm allow_snapshot) (snapshot_policies allow_snapshot)).

Lemma sample_clock_total : ClockTotal (sync_clock sample_sync).
Proof. intros n. by eexists _, _. Qed.

Lemma sample_repository_total : RepositoryTotal (sync_repository sample_sync).
Proof. intros ctx n. by eexists _, _. Qed.

Lemma sample_decoders_total : DecodersTotal (sync_compiler sample_sync).
Proof.
  intros model decoder document E. simpl in E.
  destruct (@NewCompiler_Ok plain_runtime sample_decoders [] sample_compiler ltac:(constructor) ltac:(vm_compute; reflexivity))
    as [_ Hdec].
  apply Hdec in E. unfold sample_decoders in E. apply lookup_singleton_Some in E as [_ [= <-]]. by eexists.
Qed.

Lemma Reload_spec_witness :
  ∃ st' n', @Reload plain_runtime no_writers sample_sync context_Background (mkSyncState sample_engine 0) 0%nat =
      (Ret (true, None, st'), n') ∧
    current_revision (sync_engine st') = 7 ∧ sync_verifiedAt st' = 10.
Proof.
  destruct (@Reload_spec plain_runtime no_writers sample_sync context_Background (mkSyncState sample_engine 0) 0%nat
    sample_clock_total sample_repository_total sample_decoders_total ltac:(by eexists))
    as (changed & err & st' & n' & E & _).
  exists st', n'. vm_compute in E. injection E as <- <- <- <-. split; [vm_compute; reflexivity|]. by split.
Defined.

Lemma Synchronizer_decides_fresh_witness :
  ∃ st d, @reachable plain_runtime no_writers sample_sync sample_engine st ∧ sync_verifiedAt st = 10 ∧
    ∃ n', Decide sample_sync context_Background st example_request 0%nat = (Ret (d, None), n') ∧
      Decision_Outcome d = Allow ∧ verified_by sample_sync st.
Proof.
  assert (∃ st, @Reload plain_runtime no_writers sample_sync context_Background (mkSyncState sample_engine 0) 0%nat =
    (Ret (true, None, st), 3%nat)) as [st E] by (eexists; vm_compute; reflexivity).
  assert (@reachable plain_runtime no_writers sample_sync sample_engine st) as Hr
    by (eapply reach_reload; [constructor|exact E]).
  destruct (@Synchronizer_decides_fresh plain_runtime no_writers sample_sync sample_engine st context_Background
    example_request 0%nat sample_clock_total sample_repository_total sample_decoders_total ltac:(by eexists) Hr)
    as (t & n' & Et & Hf & _).
  exists st. vm_compute in E. injection E as <-. injection Et as <- <-.
  destruct (Hf ltac:(vm_compute; split; [done|]; split; [done|by left])) as [Ed Hv].
  eexists. split; [exact Hr|]. split; [reflexivity|]. eexists. split; [rewrite Ed; vm_compute; reflexivity|].
  split; [reflexivity|exact Hv].
Defined.

Lemma Run_spec_witness :
  ∃ st' n', @Run plain_runtime no_writers sample_sync context_Background [SelectTick; SelectTick]
      (mkSyncState sample_engine 0) 0%nat = (Ret (None, st'), n') ∧
    current_revision (sync_engine st') = 7.
Proof.
  destruct (@Run_spec plain_runtime no_writers sample_sync context_Background [SelectTick; SelectTick]
    (mkSyncState sample_engine 0) 0%nat sample_clock_total sample_repository_total sample_decoders_total
    ltac:(by eexists)) as (r & st' & n' & E & _).
  exists st', n'. vm_compute in E. injection E as <- <- <-. split; [vm_compute; reflexivity|done].
Defined.

End synchronizer.
