(* ===== verification/Cache.v ===== *)
(** * The advisory manifest cache (adapters/cache/cache.go)

    Module [authorizationcache] is the package: a bounded codec for
    manifests, keys of policy revisions, and a loader over a policy
    repository. The cache itself is go-cache, a parameter. *)

From S2P Require Import Prelude Strconv GoStrings Attribute Request Decision Snapshot Engine Documents Manifest.
From S2P Require Import Synchronizer.
Import policy synchronizer.

#[local] Open Scope Z_scope.

(** What the package uses of go-cache: the collaborators of a configuration,
    key spaces and the constructor, which receives a key encoder and a
    codec. *)
Class CacheModule := {
  Backend : Type;
  TTLPolicy : Type;
  cache_Clock : Type;
  cache_Observer : Type;
  KeySpace : Type;
  cache_Cache : Type;
  NewKeySpace : string → string → Z → (Revision → result string) → Z → result KeySpace;
  cache_New : Backend → KeySpace → (Manifest → result string) → (string → result Manifest) →
    TTLPolicy → cache_Clock → Z → Z → cache_Observer → result cache_Cache
}.

Module authorizationcache.

Definition defaultMaxEncodedSize : Z := Z.shiftl 1 20.
Definition defaultMaxKeySize : Z := 256.

Definition ErrManifestTooLarge := errors_New "authorization cached manifest is too large".
Definition ErrInvalidRevision := errors_New "authorization cached revision is invalid".
Definition ErrNilRepository := errors_New "authorization cached repository is nil".

(** ** The codec *)

Record ManifestCodec := mkManifestCodec { MaxEncodedSize : Z }.

Definition limit (codec : ManifestCodec) : Z :=
  if MaxEncodedSize codec <=? 0 then defaultMaxEncodedSize else MaxEncodedSize codec.

Definition Encode `{JSONCodec Manifest} (codec : ManifestCodec) (manifest : Manifest) : result string :=
  match policy.Encode manifest with
  | Err err => Err err
  | Ok encoded => if limit codec <? byte_len encoded then Err ErrManifestTooLarge else Ok encoded
  end.

Definition Decode `{JSONCodec Manifest} (codec : ManifestCodec) (encoded : string) : result Manifest :=
  if limit codec <? byte_len encoded then Err ErrManifestTooLarge else policy.Decode encoded.

(** ** Keys *)

(** [RevisionKeyEncoder.EncodeKey]. *)
Definition EncodeKey (revision : Revision) : result string :=
  if revision =? 0 then Err ErrInvalidRevision else Ok (FormatUint revision).

(** ** Construction *)

Record Config `{CacheModule} := mkConfig {
  Namespace : string;
  Config_Backend : Backend;
  TTL : TTLPolicy;
  Config_Clock : cache_Clock;
  Observer : cache_Observer;
  MaxValue : Z;
  MaxBatch : Z;
  MaxKeySize : Z
}.

Definition New `{CacheModule, JSONCodec Manifest} (config : Config) : result cache_Cache :=
  let maxValue := if MaxValue config =? 0 then defaultMaxEncodedSize else MaxValue config in
  let maxKeySize := if MaxKeySize config =? 0 then defaultMaxKeySize else MaxKeySize config in
  match NewKeySpace (Namespace config) "authorization-policy" 1 EncodeKey maxKeySize with
  | Err err => Err err
  | Ok keys =>
      let codec := mkManifestCodec maxValue in
      cache_New (Config_Backend config) keys (Encode codec) (Decode codec) (TTL config) (Config_Clock config)
        maxValue (MaxBatch config) (Observer config)
  end.

(** ** The loader *)

Record LoadResult := mkLoadResult { LoadResult_Value : option Manifest; Found : bool }.

Definition Loader : Type := Context → Revision → M (LoadResult * option error).

Definition RepositoryLoader (repository : option Repository) : result Loader :=
  match repository with
  | None => Err ErrNilRepository
  | Some repository => Ok (λ ctx revision,
      '(manifest, err) ← Load repository ctx;
      mret match err with
      | Some err => (mkLoadResult None false, Some err)
      | None =>
          if negb (Manifest_Revision manifest =? revision) then (mkLoadResult None false, None)
          else (mkLoadResult (Some manifest) true, None)
      end)
  end.

(** ** Theorems *)

(** C35. Cached manifests are bounded, round trip, and are stored under a key
    of their own: the codec accepts exactly what [policy.Encode] accepts
    within its limit, decodes only valid manifests within it, and returns a
    faithful manifest; a key is refused for revision zero only and
    determines its revision; and the loader reports a manifest found exactly
    when the repository just returned it, without error, at the requested
    revision. *)
Theorem cache_sound `{JSONCodec Manifest} (faithful : Manifest → Prop) `{!JSONFaithful Manifest faithful}
    (codec : ManifestCodec) (repository : Repository) (loader : Loader) :
  RepositoryLoader (Some repository) = Ok loader →
  0 < limit codec ∧
  (∀ m e, Encode codec m = Ok e ↔ policy.Encode m = Ok e ∧ byte_len e ≤ limit codec) ∧
  (∀ m e, faithful m → Encode codec m = Ok e → Decode codec e = Ok m) ∧
  (∀ m e, Decode codec e = Ok m → manifest_ok m ∧ byte_len e ≤ limit codec) ∧
  EncodeKey 0 = Err ErrInvalidRevision ∧
  (∀ r, in_uint64 r → r ≠ 0 → ∃ key, EncodeKey r = Ok key ∧ ParseUint key = Some r) ∧
  (∀ ctx revision n r err n', loader ctx revision n = (Ret (r, err), n') → Found r = true →
     err = None ∧ ∃ m, LoadResult_Value r = Some m ∧ Manifest_Revision m = revision ∧
       Load repository ctx n = (Ret (m, None), n')) ∧
  (∀ ctx m n n', Load repository ctx n = (Ret (m, None), n') →
     loader ctx (Manifest_Revision m) n = (Ret (mkLoadResult (Some m) true, None), n')).
Proof.
  intros [= <-]. split_and!.
  - unfold limit. destruct (Z.leb_spec (MaxEncodedSize codec) 0); [done|lia].
  - intros m e. unfold Encode. destruct (policy.Encode m) as [e'|]; [|by split; [|intros [? _]]].
    destruct (Z.ltb_spec (limit codec) (byte_len e')); split; try done.
    + intros [[= <-] ?]. lia.
    + by intros [= <-].
    + by intros [[= <-] _].
  - intros m e Hf. unfold Encode, Decode. destruct (policy.Encode m) as [e'|] eqn:Ee; [|done].
    destruct (_ <? _) eqn:El; [done|]. intros [= <-]. rewrite El. by apply (Decode_Encode faithful).
  - intros m e. unfold Decode. destruct (Z.ltb_spec (limit codec) (byte_len e)); [done|]. intros [? _]%Decode_valid. done.
  - done.
  - intros r Hr Hne. unfold EncodeKey. destruct (Z.eqb_spec r 0); [done|]. eexists. split; [done|].
    by apply ParseUint_Format_uint64.
  - intros ctx revision n r err n'. unfold mbind, M_bind. destruct (Load repository ctx n) as [[[m [e|]]|] k]; try done.
    { intros [= <- <- <-]. done. }
    destruct (Z.eqb_spec (Manifest_Revision m) revision); intros [= <- <- <-]; [|done].
    intros _. split; [done|]. by exists m.
  - intros ctx m n n' E. rewrite (M_bind_Ret _ _ _ _ _ E). cbn beta iota. by rewrite Z.eqb_refl.
Qed.

Definition sample_repository : Repository := mkRepository (λ _, mret (sample_manifest, None)).

Lemma cache_sound_witness :
  ∃ loader, RepositoryLoader (Some sample_repository) = Ok loader ∧
    loader context_Background 7 0%nat = (Ret (mkLoadResult (Some sample_manifest) true, None), 0%nat) ∧
    loader context_Background 8 0%nat = (Ret (mkLoadResult None false, None), 0%nat) ∧
    EncodeKey 7 = Ok "7".
Proof.
  eexists. split; [reflexivity|].
  destruct (@cache_sound (single_codec "{manifest}" sample_manifest) _ (single_faithful "{manifest}" sample_manifest)
    (mkManifestCodec 0) sample_repository _ eq_refl) as (_ & _ & _ & _ & _ & _ & _ & Hl).
  split; [apply (Hl context_Background sample_manifest 0%nat 0%nat eq_refl)|]. split; [reflexivity|].
  vm_compute. reflexivity.
Defined.
End authorizationcache.
