(* ===== verification/Store.v ===== *)
(** * The PostgreSQL manifest store (postgres/store.go, postgres/migration.go)

    Module [postgres] is the package's manifest store: one row holds the
    current manifest and its revision; [Update] replaces it with one
    conditional statement. The database is a parameter: [queryRow] runs a
    statement on the table. [load_sql] and [update_sql] translate the SQL
    texts of the source, and the class [Postgres] says that the database
    runs them atomically, or reports an error, after which the effect of the
    statement may have been committed or not. *)

From S2P Require Import Prelude GoStrings Attribute Request Decision Snapshot Engine Publication Documents Manifest.
From S2P Require Import Synchronizer.
Import policy synchronizer.

#[local] Open Scope Z_scope.

(** [pgx.ErrNoRows]. *)
Definition pgx_ErrNoRows := errors_New "no rows in result set".

(** [migrations.NewMigration] of go-migrations: version, name, forward and
    reverse SQL in the default transaction mode. *)
Class MigrationsModule := {
  migrations_Migration : Type;
  NewMigration : Z → string → string → string → result migrations_Migration
}.

Module postgres.

Definition ErrNilPool := errors_New "authorization postgres pool is nil".
Definition ErrNotInitialized := errors_New "authorization policy is not initialized".
Definition ErrRevisionConflict := errors_New "authorization policy revision conflict".
Definition ErrRevisionNotMonotonic := errors_New "authorization policy revision is not monotonic".

Definition loadManifestSQL : string :=
  "SELECT manifest FROM authorization_policy_manifests WHERE singleton = 1".

Definition updateManifestSQL : string :=
  "WITH updated AS (UPDATE authorization_policy_manifests SET revision = $2, " +:+
  "manifest = $3, updated_at = clock_timestamp() WHERE singleton = 1 AND revision = $1 AND $2 > revision " +:+
  "RETURNING manifest), inserted AS (INSERT INTO authorization_policy_manifests " +:+
  "(singleton, revision, manifest) SELECT 1, $2, $3 WHERE $1 = 0 AND NOT EXISTS (SELECT 1 FROM " +:+
  "authorization_policy_manifests WHERE singleton = 1) " +:+
  "ON CONFLICT (singleton) DO NOTHING RETURNING manifest) " +:+
  "SELECT manifest FROM updated UNION ALL SELECT manifest FROM inserted".

(** ** The table

    The schema admits one row, with the text of a [jsonb] value. *)
Record manifest_row := mkRow { row_revision : Z; row_manifest : string }.

Definition table : Type := option manifest_row.

Definition load_sql (t : table) : option string := row_manifest <$> t.

(** The two parts of the statement exclude each other: one needs a row with
    the expected revision, the other that there is none. *)
Definition update_sql (t : table) (expected revision : Z) (document : string) : option string * table :=
  match t with
  | Some row =>
      if (row_revision row =? expected) && (row_revision row <? revision)
      then (Some document, Some (mkRow revision document)) else (None, t)
  | None => if expected =? 0 then (Some document, Some (mkRow revision document)) else (None, t)
  end.

(** ** The store *)

Inductive sql_arg := ArgRevision (revision : Z) | ArgBytes (bytes : string).

(** [queryRow(ctx, sql, args...).Scan(&bytes)] on a table. *)
Record Store := mkStore {
  queryRow : Context → string → list sql_arg → table → M (result string * table)
}.

(** [New] borrows the query function of a non-nil pool; [newStore] one of a
    database. *)
Definition New (pool : option (Context → string → list sql_arg → table → M (result string * table))) :
    result Store :=
  match pool with None => Err ErrNilPool | Some pool_QueryRow => Ok (mkStore pool_QueryRow) end.

Definition newStore (database_queryRow : Context → string → list sql_arg → table → M (result string * table)) :
    Store := mkStore database_queryRow.

Section store.
Context `{JSONCodec Manifest}.

Definition Load (store : Store) (ctx : Context) (t : table) : M (result Manifest * table) :=
  '(scanned, t) ← queryRow store ctx loadManifestSQL [] t;
  mret match scanned with
  | Err err => if errors_Is err pgx_ErrNoRows then (Err ErrNotInitialized, t) else (Err err, t)
  | Ok encoded => (Decode encoded, t)
  end.

Definition Update (store : Store) (ctx : Context) (expected : Revision) (next : Manifest) (t : table) :
    M (result Manifest * table) :=
  match Encode next with
  | Err err => mret (Err err, t)
  | Ok encoded =>
      if Manifest_Revision next <=? expected then mret (Err ErrRevisionNotMonotonic, t)
      else
        '(scanned, t) ← queryRow store ctx updateManifestSQL
          [ArgRevision expected; ArgRevision (Manifest_Revision next); ArgBytes encoded] t;
        mret match scanned with
        | Err err => if errors_Is err pgx_ErrNoRows then (Err ErrRevisionConflict, t) else (Err err, t)
        | Ok stored => (Decode stored, t)
        end
  end.
End store.

(** ** Migrations *)

Record Migration := mkMigration {
  Migration_Version : Z;
  Migration_Name : string;
  Migration_Up : string;
  Migration_Down : string
}.

Definition lines (l : list string) : string := String.concat newline l.

Definition SchemaMigration : Migration :=
  mkMigration 1 "create_authorization_policy_manifests"
    (lines ["CREATE TABLE authorization_policy_manifests (";
            "    singleton smallint PRIMARY KEY CHECK (singleton = 1),";
            "    revision bigint NOT NULL CHECK (revision > 0),";
            "    manifest jsonb NOT NULL,";
            "    updated_at timestamptz NOT NULL DEFAULT clock_timestamp()";
            ");"])
    "DROP TABLE authorization_policy_manifests;".

Definition GoMigration `{MigrationsModule} : result migrations_Migration :=
  let migration := SchemaMigration in
  NewMigration (Migration_Version migration) (Migration_Name migration) (Migration_Up migration)
    (Migration_Down migration).

(** ** Specification *)

(** What the driver reports is none of the sentinels. *)
Definition driver_error (e : error) : Prop :=
  errors_Is e pgx_ErrNoRows = false ∧ errors_Is e ErrRevisionConflict = false ∧ errors_Is e ErrNotInitialized = false.

(** The database keeps the manifest as [jsonb]: [jsonb] is its text form,
    [None] for what it rejects. A statement runs on the table, within the
    constraints of the schema, or fails. *)
Class Postgres (store : Store) := {
  jsonb : string → option string;
  run_load : ∀ ctx t n, ∃ r n', queryRow store ctx loadManifestSQL [] t n = (Ret (r, t), n') ∧
    (r = match load_sql t with None => Err pgx_ErrNoRows | Some text => Ok text end ∨
     ∃ e, r = Err e ∧ driver_error e);
  run_update : ∀ ctx expected revision encoded t n, ∃ r t' n',
    queryRow store ctx updateManifestSQL [ArgRevision expected; ArgRevision revision; ArgBytes encoded] t n =
      (Ret (r, t'), n') ∧
    ((∃ document, jsonb encoded = Some document ∧ 0 < revision ≤ max_int64 ∧ expected ≤ max_int64 ∧
        t' = (update_sql t expected revision document).2 ∧
        r = match (update_sql t expected revision document).1 with
            | None => Err pgx_ErrNoRows
            | Some text => Ok text
            end) ∨
     ∃ e, r = Err e ∧ driver_error e ∧
       (t' = t ∨ ∃ document, jsonb encoded = Some document ∧ 0 < revision ≤ max_int64 ∧ expected ≤ max_int64 ∧
          t' = (update_sql t expected revision document).2))
}.

(** Two manifests with the same content: [jsonb] changes the white space,
    the order of members and the number forms of raw documents. *)
Definition same_record (r r' : PolicyRecord) : Prop :=
  Record_ID r' = Record_ID r ∧ Record_Revision r' = Record_Revision r ∧ Record_Model r' = Record_Model r ∧
  Record_Priority r' = Record_Priority r ∧ Record_ActiveFrom r' = Record_ActiveFrom r ∧
  Record_ActiveUntil r' = Record_ActiveUntil r ∧ Record_Metadata r' = Record_Metadata r ∧
  (validDocument (Record_Document r) = true → validDocument (Record_Document r') = true).

Record same_content (m m' : Manifest) : Prop := {
  same_format : Manifest_Format m' = Manifest_Format m;
  same_revision : Manifest_Revision m' = Manifest_Revision m;
  same_algorithm : Manifest_Algorithm m' = Manifest_Algorithm m;
  same_policies : Forall2 same_record (Manifest_Policies m) (Manifest_Policies m')
}.

(** The manifests [jsonb] keeps the content of: their strings are valid
    UTF-8 without U+0000 and their optional containers nil or nonempty. *)
Class KeepsContent `{JSONCodec Manifest} (store : Store) `{!Postgres store} (plain : Manifest → Prop) : Prop :=
  keeps_content : ∀ m text document, plain m → Encode m = Ok text → jsonb text = Some document →
    ∃ m' rest, json_Decode document = Decoded m' rest ∧ at_EOF rest = true ∧ same_content m m'.

(** ** Lemmas *)

Lemma same_content_ok m m' : manifest_ok m → same_content m m' → manifest_ok m'.
Proof.
  intros [Hf Hr Ha Hrec Hids] [Ef Er Ea H2]. split; [congruence|congruence|congruence| |].
  - clear Hids. induction H2 as [|r r' l l' (E1 & E2 & E3 & E4 & E5 & E6 & _ & Hd) _ IH]; [constructor|].
    apply Forall_cons in Hrec as [(? & ? & ? & ? & Hw) Hrec]. constructor; [|by apply IH].
    split_and!; [congruence|congruence|congruence|auto|]. rewrite E5, E6. done.
  - assert (Record_ID <$> Manifest_Policies m' = Record_ID <$> Manifest_Policies m) as ->; [|done].
    clear -H2. induction H2 as [|r r' l l' (E1 & _) _ IH]; csimpl; congruence.
Qed.

(** The stored text is decoded, unless [jsonb] made it longer than the limit. *)
Lemma Decode_stored `{JSONCodec Manifest} store `{!Postgres store} plain `{!KeepsContent store plain} m text document :
  plain m → Encode m = Ok text → jsonb text = Some document →
  ∃ m', same_content m m' ∧
    Decode document = if maxEncodedManifestBytes <? byte_len document then Err ErrManifestLimitExceeded else Ok m'.
Proof.
  intros Hp He Hj. destruct (keeps_content m text document Hp He Hj) as (m' & rest & Ed & Er & Hsame).
  exists m'. split; [done|]. unfold Decode. destruct (_ <? _); [done|]. rewrite Ed, Er. simpl.
  apply Encode_Ok in He as (Hok & _). by rewrite (proj2 (Manifest_Validate_None m') (same_content_ok _ _ Hok Hsame)).
Qed.

(** The table holds the expected revision, zero standing for no row. *)
Definition holds (t : table) (expected : Revision) : Prop :=
  match t with None => expected = 0 | Some row => row_revision row = expected end.

#[global] Instance holds_dec t expected : base.Decision (holds t expected).
Proof. destruct t; unfold holds; apply _. Defined.

Lemma update_sql_cases t expected revision document :
  expected < revision →
  update_sql t expected revision document =
    if decide (holds t expected) then (Some document, Some (mkRow revision document)) else (None, t).
Proof.
  intros Hlt. destruct t as [row|]; simpl.
  - destruct (decide (row_revision row = expected)) as [->|Hne].
    + by rewrite Z.eqb_refl, (proj2 (Z.ltb_lt _ _)).
    + by rewrite (proj2 (Z.eqb_neq _ _)).
  - by destruct (Z.eqb_spec expected 0), (decide (expected = 0)).
Qed.

(** The manifest was written over the expected revision. *)
Definition written `{JSONCodec Manifest} (store : Store) `{!Postgres store} (t : table) (expected : Revision)
    (next : Manifest) (t' : table) : Prop :=
  holds t expected ∧ expected < Manifest_Revision next ≤ max_int64 ∧
  ∃ text document, Encode next = Ok text ∧ jsonb text = Some document ∧
    t' = Some (mkRow (Manifest_Revision next) document).

(** The envelope never reports a revision conflict. *)
Lemma Manifest_Validate_conflict m : Manifest_Validate m ≠ Some ErrRevisionConflict.
Proof.
  assert (∀ index ids records, validate_records index ids records ≠ Some ErrRevisionConflict) as Hv.
  { intros index ids records. revert index ids.
    induction records as [|r records IH]; intros index ids; [done|]. simpl. by repeat case_match. }
  unfold Manifest_Validate. by case_match.
Qed.

Lemma codec_conflict `{JSONCodec Manifest} m text :
  Encode m ≠ Err ErrRevisionConflict ∧ Decode text ≠ Err ErrRevisionConflict.
Proof.
  split.
  - unfold Encode. destruct (Manifest_Validate m) eqn:E; [|by repeat case_match].
    intros [= ->]. by apply Manifest_Validate_conflict in E.
  - unfold Decode. case_match; [done|]. case_match; [|done]. case_match; [done|].
    destruct (Manifest_Validate _) eqn:E; [|done]. intros [= ->]. by apply Manifest_Validate_conflict in E.
Qed.

(** [Update] in terms of the abstract register: compare and swap. *)
Lemma Update_cases `{JSONCodec Manifest} store `{!Postgres store} plain `{!KeepsContent store plain}
    ctx expected next t n :
  ∃ r t' n', Update store ctx expected next t n = (Ret (r, t'), n') ∧
    match r with
    | Ok m => written store t expected next t' ∧ (plain next → same_content next m)
    | Err e => t' = t ∨ written store t expected next t'
    end ∧
    (r = Err ErrRevisionConflict → t' = t ∧ ¬ holds t expected ∧ expected < Manifest_Revision next) ∧
    (¬ holds t expected → is_Ok r = false ∧ t' = t).
Proof.
  unfold Update. destruct (Encode next) as [text|e] eqn:He.
  2: { exists (Err e), t, n. split; [done|]. split; [by left|]. split; [|done]. intros [= ->].
       by destruct (codec_conflict next ""). }
  destruct (Z.leb_spec (Manifest_Revision next) expected).
  { exists (Err ErrRevisionNotMonotonic), t, n. split; [done|]. split; [by left|done]. }
  destruct (run_update ctx expected (Manifest_Revision next) text t n) as (r & t' & n' & Eq & Hr).
  rewrite (M_bind_Ret _ _ _ _ _ Eq). cbn beta iota.
  assert (∀ document, jsonb text = Some document → 0 < Manifest_Revision next ≤ max_int64 → holds t expected →
    written store t expected next (Some (mkRow (Manifest_Revision next) document))) as Hw.
  { intros document Hj Hmax Hh. split_and!; [done|lia|lia|]. by exists text, document. }
  destruct Hr as [(document & Hj & Hmax & _ & -> & ->)|(e & -> & (Hno & Hc & _) & Ht)].
  - rewrite update_sql_cases by lia. destruct (decide (holds t expected)) as [Hh|Hh]; simpl.
    + eexists _, _, _. split; [done|]. split; [|split; [|by intros []]].
      * destruct (Decode document) as [m|e] eqn:Ed; [|right; by apply Hw]. split; [by apply Hw|]. intros Hp.
        destruct (Decode_stored store plain next text document Hp He Hj) as (m' & Hsame & Ed').
        rewrite Ed in Ed'. destruct (_ <? _); by simplify_eq.
      * intros E. by destruct (codec_conflict next document).
    + eexists _, _, _. split; [done|]. split; [by left|]. split; [done|]. done.
  - rewrite Hno. eexists _, _, _. split; [done|].
    assert (t' = t ∨ written store t expected next t') as Ht'.
    { destruct Ht as [->|(document & Hj & Hmax & _ & ->)]; [by left|]. rewrite update_sql_cases by lia.
      destruct (decide (holds t expected)); [right; by apply Hw|by left]. }
    split; [done|]. split; [intros [= ->]; done|]. intros Hh. split; [done|]. destruct Ht' as [?|[? _]]; done.
Qed.

(** ** Histories

    Updates by any number of clients, each atomic in the database. *)
Definition current (t : table) : Revision := match t with None => 0 | Some row => row_revision row end.

Inductive updates `{JSONCodec Manifest} (store : Store) : table → list (Revision * Manifest * bool) → table → Prop :=
| updates_nil t : updates store t [] t
| updates_call ctx expected next t n r t1 n' l t2 :
    Update store ctx expected next t n = (Ret (r, t1), n') → updates store t1 l t2 →
    updates store t ((expected, next, is_Ok r) :: l) t2.

(** The calls that reported success, in their order. *)
Definition winners (l : list (Revision * Manifest * bool)) : list (Revision * Manifest) :=
  (λ call, call.1) <$> filter (λ call, call.2 = true) l.

Lemma holds_current t expected : holds t expected → current t = expected.
Proof. by destruct t. Qed.

Lemma Update_current `{JSONCodec Manifest} store `{!Postgres store} plain `{!KeepsContent store plain}
    ctx expected next t n r t' n' :
  Update store ctx expected next t n = (Ret (r, t'), n') →
  current t ≤ current t' ∧
  (is_Ok r = true → current t = expected ∧ current t' = Manifest_Revision next).
Proof.
  intros E. destruct (Update_cases store plain ctx expected next t n) as (r1 & t1 & n1 & E1 & Hr & _).
  rewrite E in E1. simplify_eq.
  assert (written store t expected next t1 → current t = expected ∧ current t1 = Manifest_Revision next ∧
    current t < current t1) as Hw.
  { intros (Hh%holds_current & Hlt & text & document & _ & _ & ->). simpl. lia. }
  destruct r1 as [m|e].
  - destruct Hr as [(? & ? & ?)%Hw _]. split; [lia|done].
  - split; [|done]. destruct Hr as [->|(_ & _ & ?)%Hw]; lia.
Qed.

Lemma updates_current `{JSONCodec Manifest} store `{!Postgres store} plain `{!KeepsContent store plain} t l t' :
  updates store t l t' →
  current t ≤ current t' ∧
  Forall (λ w, current t ≤ w.1 ∧ Manifest_Revision w.2 ≤ current t') (winners l) ∧
  StronglySorted (λ w v, Manifest_Revision w.2 ≤ v.1) (winners l).
Proof.
  induction 1 as [t|ctx expected next t n r t1 n' l t2 E _ (Hc & Hall & Hs)]; [by split_and!; [|constructor..]|].
  destruct (Update_current store plain _ _ _ _ _ _ _ _ E) as [Hle Hok].
  assert (Forall (λ w, current t ≤ w.1 ∧ Manifest_Revision w.2 ≤ current t2) (winners l)) as Hall'.
  { eapply Forall_impl; [done|]. simpl. intros w [? ?]. lia. }
  unfold winners. rewrite filter_cons. simpl. destruct (is_Ok r) eqn:Er; simpl.
  - destruct (Hok eq_refl) as [? ?]. split_and!; [lia| |].
    + constructor; [simpl; lia|done].
    + constructor; [done|]. eapply Forall_impl; [exact Hall|]. simpl. intros w [? ?]. lia.
  - split_and!; [lia|done|done].
Qed.

(** ** The store as a repository *)

(** A row whose text decodes to a manifest of its revision, if it is within
    the limit. *)
Definition table_ok `{JSONCodec Manifest} (t : table) : Prop :=
  ∀ row, t = Some row → 0 < row_revision row ≤ max_int64 ∧
    (byte_len (row_manifest row) ≤ maxEncodedManifestBytes →
     ∃ m, Decode (row_manifest row) = Ok m ∧ Manifest_Revision m = row_revision row).

Lemma written_ok `{JSONCodec Manifest} store `{!Postgres store} plain `{!KeepsContent store plain} t expected next t' :
  0 ≤ expected → plain next → written store t expected next t' → table_ok t'.
Proof.
  intros He Hp (_ & Hlt & text & document & Henc & Hj & ->) row [= <-]. simpl. split; [lia|]. intros Hlen.
  destruct (Decode_stored store plain next text document Hp Henc Hj) as (m' & [_ Hrev _ _] & Ed).
  rewrite (proj2 (Z.ltb_ge _ _)) in Ed by done. by exists m'.
Qed.

Lemma Load_cases `{JSONCodec Manifest} store `{!Postgres store} ctx t n :
  ∃ r n', Load store ctx t n = (Ret (r, t), n') ∧
    (r = match t with None => Err ErrNotInitialized | Some row => Decode (row_manifest row) end ∨
     ∃ e, r = Err e ∧ driver_error e).
Proof.
  unfold Load. destruct (run_load ctx t n) as (r & n' & E & Hr). rewrite (M_bind_Ret _ _ _ _ _ E). cbn beta iota.
  destruct Hr as [->|(e & -> & He)].
  - destruct t as [row|]; simpl; eexists _, _; (split; [done|by left]).
  - rewrite (proj1 He). eexists _, _. split; [done|]. right. by exists e.
Qed.

Definition zero_manifest : Manifest := mkManifest "" 0 "" [].

(** The repository over a database whose table other clients change: the
    table at each position of the run. *)
Definition store_repository `{JSONCodec Manifest} (store : Store) (table_at : nat → table) : Repository :=
  mkRepository (λ ctx n,
    match Load store ctx (table_at n) n with
    | (Ret (Ok manifest, _), n') => (Ret (manifest, None), n')
    | (Ret (Err err, _), n') => (Ret (zero_manifest, Some err), n')
    | (Panic, n') => (Panic, n')
    end).

#[global] Instance store_repository_total `{JSONCodec Manifest} store `{!Postgres store} table_at :
  RepositoryTotal (store_repository store table_at).
Proof.
  intros ctx n. simpl. destruct (Load_cases store ctx (table_at n) n) as (r & n' & -> & _).
  destruct r; by eexists _, _.
Qed.

(** ** Theorems *)

(** C9. The store is a compare-and-swap register: [Update] always returns;
    on success the table held the expected revision (no row for zero), now
    holds the new manifest at a larger revision, and the returned manifest
    has the content written; on [ErrRevisionConflict] it did not hold the
    expected revision and is unchanged; every other error leaves it
    unchanged or written; and without the expected revision nothing is ever
    written. [Load] returns the stored manifest, reports an uninitialized
    table, or fails in the driver, and never changes the table. *)
Theorem Store_refines_register `{JSONCodec Manifest} (store : Store) `{!Postgres store} (plain : Manifest → Prop)
    `{!KeepsContent store plain} (ctx : Context) (expected : Revision) (next : Manifest) (t : table) (n : nat) :
  (∃ r t' n', Update store ctx expected next t n = (Ret (r, t'), n') ∧
    match r with
    | Ok m => written store t expected next t' ∧ (plain next → same_content next m)
    | Err e => t' = t ∨ written store t expected next t'
    end ∧
    (r = Err ErrRevisionConflict → t' = t ∧ ¬ holds t expected ∧ expected < Manifest_Revision next) ∧
    (¬ holds t expected → is_Ok r = false ∧ t' = t)) ∧
  (∃ r n', Load store ctx t n = (Ret (r, t), n') ∧
    (r = match t with None => Err ErrNotInitialized | Some row => Decode (row_manifest row) end ∨
     ∃ e, r = Err e ∧ driver_error e)).
Proof. split; [exact (Update_cases store plain ctx expected next t n)|exact (Load_cases store ctx t n)]. Qed.


(** A synchronizer over the store follows the stored row: with rows that
    agree with their manifests, every reload returns, and a successful one
    leaves the engine at the revision of the row that was in the table when
    it was read, within the limit of the decoder; an uninitialized table or
    a driver failure changes neither engine nor verification time itself. *)
Theorem Reload_from_store `{GoRuntime, OtherWriters, JSONCodec Manifest} (store : Store) `{!Postgres store}
    (table_at : nat → table) (s : Synchronizer) (ctx : Context) (st : sync_state) (n : nat)
    `{!ClockTotal (sync_clock s), !DecodersTotal (sync_compiler s)} :
  (∀ k, table_ok (table_at k)) → sync_repository s = store_repository store table_at →
  is_Some (engine_snapshot (sync_engine st)) →
  ∃ changed err st' n', Reload s ctx st n = (Ret (changed, err, st'), n') ∧
    current_revision (sync_engine st) ≤ current_revision (sync_engine st') ∧
    match err with
    | None => ∃ row, table_at (S n) = Some row ∧ byte_len (row_manifest row) ≤ maxEncodedManifestBytes ∧
        current_revision (sync_engine st') = row_revision row
    | Some _ => changed = false ∧ sync_verifiedAt st' = sync_verifiedAt st ∧
        left_by_others (sync_engine st) (sync_engine st')
    end.
Proof.
  intros Hok Hrepo Hs. assert (RepositoryTotal (sync_repository s)) as Htot by (rewrite Hrepo; apply _).
  destruct (Reload_cases s ctx st n Hs) as (changed & err & st' & n' & E & Hr).
  exists changed, err, st', n'. split; [done|]. destruct Hr as [Hl Hr]. split; [by apply (later_revision _ _ Hl)|].
  destruct err as [e|]; [done|]. destruct Hr as (m & k & _ & _ & El & Hm & Hrev & _).
  rewrite Hrepo in El. simpl in El. destruct (Load_cases store ctx (table_at (S n)) (S n)) as (r & k' & E' & Hr).
  rewrite E' in El. destruct r as [m'|e]; simplify_eq. destruct Hr as [Hr|(? & ? & _)]; [|done].
  destruct (table_at (S n)) as [row|] eqn:Et; [|done]. exists row. symmetry in Hr.
  destruct (Decode_valid _ _ Hr) as [_ Hlen]. split; [done|]. split; [done|].
  destruct (Hok (S n) row Et) as [_ Hdec]. destruct (Hdec Hlen) as (m2 & Ed & <-). congruence.
Qed.

(** A database without failures that keeps the text it is given. *)
Definition plain_queryRow (ctx : Context) (sql : string) (args : list sql_arg) (t : table) : M (result string * table) :=
  mret (if bool_decide (sql = updateManifestSQL) then
          match args with
          | [ArgRevision expected; ArgRevision revision; ArgBytes encoded] =>
              if bool_decide (0 < revision ≤ max_int64) && bool_decide (expected ≤ max_int64) then
                (match (update_sql t expected revision encoded).1 with None => Err pgx_ErrNoRows | Some text => Ok text end,
                 (update_sql t expected revision encoded).2)
              else (Err (errors_New "value out of range"), t)
          | _ => (Err pgx_ErrNoRows, t)
          end
        else (match load_sql t with None => Err pgx_ErrNoRows | Some text => Ok text end, t)).

Definition plain_store : Store := newStore plain_queryRow.

#[global] Program Instance plain_store_postgres : Postgres plain_store := {| jsonb := Some |}.
Next Obligation. intros ctx t n. eexists _, _. split; [reflexivity|]. by left. Qed.
Next Obligation.
  intros ctx expected revision encoded t n. unfold plain_store, newStore, plain_queryRow. cbn [queryRow].
  rewrite (bool_decide_eq_true_2 (updateManifestSQL = updateManifestSQL) eq_refl).
  destruct (bool_decide (0 < revision ≤ max_int64)) eqn:E1; [destruct (bool_decide (expected ≤ max_int64)) eqn:E2|];
    simpl; eexists _, _, _; (split; [reflexivity|]).
  - left. apply bool_decide_eq_true_1 in E1, E2. by exists encoded.
  - right. eexists. split; [done|]. split; [done|]. by left.
  - right. eexists. split; [done|]. split; [done|]. by left.
Qed.

Definition sample_codec : JSONCodec Manifest := single_codec "{manifest}" sample_manifest.

#[global] Instance plain_store_keeps : @KeepsContent sample_codec plain_store _ (λ m, m = sample_manifest).
Proof.
  intros m text document -> He [= <-]. exists sample_manifest, newline. vm_compute in He. injection He as <-.
  split; [vm_compute; reflexivity|]. split; [reflexivity|]. split; [done..|]. by repeat constructor.
Qed.

Lemma Store_refines_register_witness :
  ∃ t' n', @Update sample_codec plain_store context_Background 0 sample_manifest None 0%nat =
      (Ret (Ok sample_manifest, t'), n') ∧ current t' = 7 ∧
    @Load sample_codec plain_store context_Background t' 0%nat = (Ret (Ok sample_manifest, t'), 0%nat).
Proof.
  destruct (@Store_refines_register sample_codec plain_store _ (λ m, m = sample_manifest) _ context_Background 0
    sample_manifest None 0%nat) as [(r & t' & n' & E & _) _].
  exists t', n'. vm_compute in E. injection E as <- <- <-. split; [vm_compute; reflexivity|].
  split; vm_compute; reflexivity.
Defined.


Lemma Reload_from_store_witness :
  ∃ changed st' n', @Reload plain_runtime no_writers
      (mkSynchronizer (@store_repository sample_codec plain_store (λ _, Some (mkRow 7 ("{manifest}" +:+ newline))))
         sample_compiler 1 5 (mret 10)) context_Background (mkSyncState sample_engine 0) 0%nat =
      (Ret (changed, None, st'), n') ∧ current_revision (sync_engine st') = 7.
Proof.
  destruct (@Reload_from_store plain_runtime no_writers sample_codec plain_store _ (λ _, Some (mkRow 7 ("{manifest}" +:+ newline)))
    (mkSynchronizer (@store_repository sample_codec plain_store (λ _, Some (mkRow 7 ("{manifest}" +:+ newline))))
         sample_compiler 1 5 (mret 10)) context_Background (mkSyncState sample_engine 0) 0%nat
    sample_clock_total sample_decoders_total) as (changed & err & st' & n' & E & _ & Hr).
  - intros _ row [= <-]. split; [done|]. intros _. exists sample_manifest. split; vm_compute; reflexivity.
  - reflexivity.
  - by eexists.
  - assert (err = None) as -> by (vm_compute in E; by injection E as <- <- <- <-).
    exists changed, st', n'. split; [exact E|]. by destruct Hr as (row & [= <-] & _ & ->).
Defined.
End postgres.
