(* ===== verification/Authority.v ===== *)
(** * Subject authority epochs (postgres/authority.go, postgres/authority_migration.go)

    Module [authority] is the rest of package postgres: a positive epoch per
    tenant, namespace and subject, which only trusted operations of one
    transaction initialize and advance, and the session key of a scope. The
    transaction and its cursor are borrowed handles with a state of their
    own; the class [AuthorityQueryer] is the interface of the source. *)

From S2P Require Import Prelude Strconv GoStrings Digest Attribute Request Decision Snapshot Engine Instrumentation.
From S2P Require Import DecisionService JSON Documents Manifest Store.

#[local] Open Scope Z_scope.

(** [context.WithDeadline]: done when its parent is, or when the clock has
    reached the deadline. *)
Definition context_WithDeadline `{GoRuntime} (ctx : Context) (deadline : Time) : Context :=
  mkContext (λ k, match Err_at ctx k with
                  | Some err => Some err
                  | None => if deadline <=? time_Now k then Some context_DeadlineExceeded else None
                  end).

Definition context_WithTimeout `{GoRuntime} (ctx : Context) (duration : Z) : M Context :=
  t ← now;
  mret (context_WithDeadline ctx (t + duration)).

Module authority.

Definition ErrInvalidAuthority := errors_New "invalid authorization authority input".
Definition ErrAuthorityDenied := errors_New "authorization authority denied".
Definition ErrAuthorityConflict := errors_New "authorization authority conflict".
Definition ErrAuthorityOverflow := errors_New "authorization authority exhausted".
Definition ErrAuthorityUnavailable := errors_New "authorization authority unavailable".

Definition time_Minute : Z := 60 * 10 ^ 9.

(** ** Scopes *)

Record AuthorityScope := mkScope {
  Scope_TenantID : TenantID;
  PolicyNamespace : string;
  Scope_SubjectID : SubjectID
}.

Definition scope_ids (s : AuthorityScope) : list string :=
  [Scope_TenantID s; PolicyNamespace s; Scope_SubjectID s].

Fixpoint check_ids (ids : list string) : option error :=
  match ids with
  | [] => None
  | id :: ids =>
      if (byte_len id =? 0) || (128 <? byte_len id) || negb (utf8_ValidString id) then Some ErrInvalidAuthority
      else if existsb (λ b, (b <=? 32) || (b =? 127)) (string_bytes id) then Some ErrInvalidAuthority
      else check_ids ids
  end.

Definition Validate (s : AuthorityScope) : option error := check_ids (scope_ids s).

(** What the hash of [Key] is fed: every identifier after its length. *)
Fixpoint write_ids (h : list Z) (ids : list string) : result (list Z) :=
  match ids with
  | [] => Ok h
  | id :: ids =>
      let length := byte_len id in
      if (length <? 1) || (128 <? length) then Err ErrInvalidAuthority
      else write_ids (h ++ big_endian 2 length ++ string_bytes id) ids
  end.

Definition key_domain : list Z := string_bytes "golib.authorization.authority.v1" ++ [0].

Definition Key (s : AuthorityScope) : result string :=
  match Validate s with
  | Some err => Err err
  | None =>
      match write_ids key_domain (scope_ids s) with
      | Err err => Err err
      | Ok h => Ok ("authorization:v1:" +:+ base64_url (sha256.Sum h))
      end
  end.

(** [Format] and [MarshalJSON] of scopes and records. *)
Definition Scope_Format (s : AuthorityScope) : string := "postgres.AuthorityScope(redacted)".
Definition Scope_MarshalJSON (s : AuthorityScope) : result string := Err ErrInvalidAuthority.

Record AuthorityRecord := mkAuthorityRecord { Record_Scope : AuthorityScope; Version : Z }.

Definition Record_Format (r : AuthorityRecord) : string := "postgres.AuthorityRecord(redacted)".
Definition Record_MarshalJSON (r : AuthorityRecord) : result string := Err ErrInvalidAuthority.

(** ** The borrowed handles *)

(** The columns of a row: tenant, namespace, subject and version, as text. *)
Definition columns : Type := string * string * string * string.

(** What reflection shows of a handle: no value at all, or a value of some
    kind; the values of six kinds can be nil. *)
Inductive Kind := Chan | Func | Interface | Map | Pointer | Slice | OtherKind.

Inductive reflected :=
| NoValue
| ValueOf (kind : Kind) (IsNil : bool).

Definition nilAuthorityHandle (v : reflected) : bool :=
  match v with
  | NoValue => true
  | ValueOf (Chan | Func | Interface | Map | Pointer | Slice) IsNil => IsNil
  | ValueOf OtherKind _ => false
  end.

Class AuthorityRows (R : Type) := {
  Next : R → M (bool * R);
  Scan : R → M (result columns);
  rows_Err : R → M (option error);
  Close : R → M unit;
  reflect_rows : R → reflected
}.

Definition nilRows `{AuthorityRows R} (rows : R) : bool := nilAuthorityHandle (reflect_rows rows).

Class AuthorityQueryer (Q R : Type) := {
  Query : Q → Context → string → list string → M (R * option error * Q);
  reflect_queryer : Q → reflected
}.

Definition nilQueryer `{AuthorityQueryer Q R} (q : Q) : bool := nilAuthorityHandle (reflect_queryer q).

Definition authoritySelect : string :=
  "SELECT tenant_id,policy_namespace,subject_id,version::text FROM authorization_subject_authorities " +:+
  "WHERE tenant_id=$1 AND policy_namespace=$2 AND subject_id=$3".
Definition authorityInsert : string :=
  "INSERT INTO authorization_subject_authorities(tenant_id,policy_namespace,subject_id,version) " +:+
  "VALUES($1,$2,$3,1) ON CONFLICT(tenant_id,policy_namespace,subject_id) DO NOTHING " +:+
  "RETURNING tenant_id,policy_namespace,subject_id,version::text".
Definition authorityAdvance : string :=
  "UPDATE authorization_subject_authorities SET version=version+1 " +:+
  "WHERE tenant_id=$1 AND policy_namespace=$2 AND subject_id=$3 AND version=$4::numeric " +:+
  "RETURNING tenant_id,policy_namespace,subject_id,version::text".

Section queries.
Context `{GoRuntime, AuthorityRows R, !AuthorityQueryer Q R}.

(** ** Queries *)

Definition decodeAuthority (scope : AuthorityScope) (row : columns) : result AuthorityRecord :=
  let '(tenant, namespace, subject, version) := row in
  match ParseUint version with
  | None => Err ErrAuthorityUnavailable
  | Some n =>
      if bool_decide (is_Some (Validate scope)) || negb (bool_decide (Scope_TenantID scope = tenant)) ||
         negb (bool_decide (PolicyNamespace scope = namespace)) || negb (bool_decide (Scope_SubjectID scope = subject)) ||
         (n =? 0) || negb (bool_decide (FormatUint n = version))
      then Err ErrAuthorityUnavailable
      else Ok (mkAuthorityRecord scope n)
  end.

Definition authorityFailure (ctx : Context) : M error :=
  err ← ctx_Err ctx;
  mret (default ErrAuthorityUnavailable err).

(** The result, or the error of the context when it is done. *)
Definition unless_done {A} (ctx : Context) (r : result A) : M (result A) :=
  err ← ctx_Err ctx;
  mret match err with Some err => Err err | None => r end.

(** A deferred [Close], which also runs when the body panics. *)
Definition with_close {A} (rows : R) (body : M (A * R)) : M A := λ n,
  match body n with
  | (Ret (a, rows), n) => match Close rows n with (Ret _, n) => (Ret a, n) | (Panic, n) => (Panic, n) end
  | (Panic, n) => (Panic, (Close rows n).2)
  end.

(** From the first [Next] on: exactly one row. *)
Definition read_row (bounded : Context) (scope : AuthorityScope) (missing : error) (rows : R) :
    M (result AuthorityRecord * R) :=
  '(more, rows) ← Next rows;
  if negb (more : bool) then
    err ← rows_Err rows;
    r ← match err with
        | Some _ => failure ← authorityFailure bounded; mret (Err failure)
        | None => unless_done bounded (Err missing)
        end;
    mret (r, rows)
  else
    scanned ← Scan rows;
    match scanned with
    | Err _ => failure ← authorityFailure bounded; mret (Err failure, rows)
    | Ok row =>
        '(more, rows) ← Next rows;
        if (more : bool) then mret (Err ErrAuthorityUnavailable, rows)
        else
          err ← rows_Err rows;
          match err with
          | Some _ => failure ← authorityFailure bounded; mret (Err failure, rows)
          | None => r ← unless_done bounded (decodeAuthority scope row); mret (r, rows)
          end
    end.

Definition authorityQuery (ctx : option Context) (q : Q) (scope : AuthorityScope) (duration : Z) (sql : string)
    (missing : error) (extra : list string) : M (result AuthorityRecord * Q) :=
  match ctx with
  | None => mret (Err ErrInvalidAuthority, q)
  | Some ctx =>
      if nilQueryer q || (duration <=? 0) || (time_Minute <? duration) || bool_decide (is_Some (Validate scope))
      then mret (Err ErrInvalidAuthority, q)
      else
        bounded ← context_WithTimeout ctx duration;
        err ← ctx_Err bounded;
        match err with
        | Some err => mret (Err err, q)
        | None =>
            '(rows, err, q) ← Query q bounded sql (scope_ids scope ++ extra);
            match err with
            | Some _ => failure ← authorityFailure bounded; mret (Err failure, q)
            | None =>
                if nilRows rows then mret (Err ErrAuthorityUnavailable, q)
                else
                  r ← with_close rows (read_row bounded scope missing rows);
                  mret (r, q)
            end
        end
  end.

(** ** Operations *)

Record AuthorityStore := mkAuthorityStore { store_pool : option Q; store_maximumDuration : Z }.

Definition NewAuthorityStore (pool : option Q) (maximumDuration : Z) : result AuthorityStore :=
  match pool with
  | None => Err ErrInvalidAuthority
  | Some pool =>
      if (maximumDuration <=? 0) || (time_Minute <? maximumDuration) then Err ErrInvalidAuthority
      else Ok (mkAuthorityStore (Some pool) maximumDuration)
  end.

(** Also returns the pool after the query. *)
Definition Get (s : option AuthorityStore) (ctx : option Context) (scope : AuthorityScope) :
    M (result AuthorityRecord * option Q) :=
  match s ≫= store_pool with
  | None => mret (Err ErrInvalidAuthority, None)
  | Some pool =>
      '(r, pool) ← authorityQuery ctx pool scope (default 0 (store_maximumDuration <$> s)) authoritySelect
        ErrAuthorityDenied [];
      mret (r, Some pool)
  end.

Definition InitializeAuthority (ctx : option Context) (q : Q) (scope : AuthorityScope) (maximumDuration : Z) :
    M (result AuthorityRecord * Q) :=
  authorityQuery ctx q scope maximumDuration authorityInsert ErrAuthorityConflict [].

Definition AdvanceAuthority (ctx : option Context) (q : Q) (scope : AuthorityScope) (expected maximumDuration : Z) :
    M (result AuthorityRecord * Q) :=
  if expected =? 0 then mret (Err ErrInvalidAuthority, q)
  else if expected =? max_uint64 then mret (Err ErrAuthorityOverflow, q)
  else authorityQuery ctx q scope maximumDuration authorityAdvance ErrAuthorityConflict [FormatUint expected].

Definition RequireAuthority (ctx : option Context) (q : Q) (scope : AuthorityScope) (expected maximumDuration : Z) :
    M (option error * Q) :=
  if expected =? 0 then mret (Some ErrInvalidAuthority, q)
  else
    '(current, q) ← authorityQuery ctx q scope maximumDuration (authoritySelect +:+ " FOR SHARE") ErrAuthorityDenied [];
    mret match current with
    | Err err => (Some err, q)
    | Ok current => (if negb (Version current =? expected) then Some ErrAuthorityDenied else None, q)
    end.
End queries.

(** ** Migrations *)

Definition authoritySchemaSQL : string :=
  postgres.lines
    ["CREATE TABLE authorization_subject_authorities (";
     " tenant_id text NOT NULL CHECK (octet_length(tenant_id) BETWEEN 1 AND 128),";
     " policy_namespace text NOT NULL CHECK (octet_length(policy_namespace) BETWEEN 1 AND 128),";
     " subject_id text NOT NULL CHECK (octet_length(subject_id) BETWEEN 1 AND 128),";
     " version numeric NOT NULL CHECK (version > 0 AND version <= 18446744073709551615 AND version = trunc(version)),";
     " PRIMARY KEY (tenant_id,policy_namespace,subject_id)";
     ");"].

Definition AuthoritySchemaMigration (version : Z) : result postgres.Migration :=
  if (version <=? 1) || (max_int64 <? version) then Err ErrInvalidAuthority
  else Ok (postgres.mkMigration version "create_authorization_subject_authorities" authoritySchemaSQL "").

Definition AuthorityGoMigration `{MigrationsModule} (version : Z) : result migrations_Migration :=
  match AuthoritySchemaMigration version with
  | Err err => Err err
  | Ok m => NewMigration (postgres.Migration_Version m) (postgres.Migration_Name m) (postgres.Migration_Up m)
              (postgres.Migration_Down m)
  end.

(** ** Keys: lemmas *)

(** The message of a scope: every identifier framed by its length. *)
Definition frame (ids : list string) : list Z :=
  concat ((λ id, big_endian 2 (byte_len id) ++ string_bytes id) <$> ids).

Definition message (s : AuthorityScope) : list Z := key_domain ++ frame (scope_ids s).

Definition id_ok (id : string) : Prop := 1 ≤ byte_len id ≤ 128.

Lemma check_ids_lengths ids : check_ids ids = None → Forall id_ok ids.
Proof.
  induction ids as [|id ids IH]; simpl; [constructor|]. destruct (_ || _) eqn:E; [done|].
  destruct (existsb _ _); [done|]. intros Hids. constructor; [|by apply IH]. reflect_bools.
  unfold id_ok. assert (0 ≤ byte_len id) by (unfold byte_len; lia). lia.
Qed.

Lemma check_ids_error ids e : check_ids ids = Some e → e = ErrInvalidAuthority.
Proof. induction ids as [|id ids IH]; simpl; [done|]. by repeat case_match; intros; simplify_eq; auto. Qed.

Lemma write_ids_frame h ids : Forall id_ok ids → write_ids h ids = Ok (h ++ frame ids).
Proof.
  intros Hids. revert h. induction Hids as [|id ids Hid _ IH]; intros h; simpl; [by rewrite app_nil_r|].
  unfold id_ok in Hid. rewrite (proj2 (Z.ltb_ge _ _)), (proj2 (Z.ltb_ge _ _)) by lia. simpl.
  rewrite IH. unfold frame. simpl. by rewrite <- !app_assoc.
Qed.

Lemma frame_inj ids ids' :
  length ids = length ids' → Forall id_ok ids → Forall id_ok ids' → frame ids = frame ids' → ids = ids'.
Proof.
  intros Hlen Hids. revert ids' Hlen. induction Hids as [|id ids Hid _ IH]; intros [|id' ids'] Hlen Hids' E; try done.
  apply Forall_cons in Hids' as [Hid' Hids']. unfold id_ok in *. unfold frame in E. simpl in E.
  injection E as E1 E2 E. assert (big_endian 2 (byte_len id) = big_endian 2 (byte_len id')) as El by (simpl; congruence).
  apply big_endian_2_inj in El; [|lia..]. pose proof (string_bytes_length id). pose proof (string_bytes_length id').
  unfold len, byte_len in *. apply app_inj_1 in E as [Eb Er]; [|lia].
  f_equal; [by apply string_bytes_inj|]. apply IH; [simpl in Hlen; lia|done|done].
Qed.

Lemma Key_run s : Validate s = None → Key s = Ok ("authorization:v1:" +:+ base64_url (sha256.Sum (message s))).
Proof.
  intros Hv. unfold Key. rewrite Hv. rewrite write_ids_frame by (by apply check_ids_lengths). done.
Qed.

Lemma string_app_inv_l (a b c : string) : a +:+ b = a +:+ c → b = c.
Proof. induction a as [|x a IH]; simpl; [done|]. intros [= E]. by apply IH. Qed.

(** C24. Session keys bind the whole scope: an invalid scope has no key; a
    valid one has a key of 60 bytes; different valid scopes are hashed as
    different messages (the framing is unambiguous), and their keys are
    equal only if SHA-256 maps these two messages to one digest. *)
Theorem Key_binds_scope (s s' : AuthorityScope) :
  (is_Some (Validate s) → Key s = Err ErrInvalidAuthority) ∧
  (Validate s = None → ∃ key, Key s = Ok key ∧ String.length key = 60%nat) ∧
  (Validate s = None → Validate s' = None →
     (message s = message s' ↔ s = s') ∧
     (Key s = Key s' ↔ sha256.Sum (message s) = sha256.Sum (message s'))).
Proof.
  split_and!.
  - intros [e He]. unfold Key. rewrite He. by rewrite (check_ids_error _ _ He).
  - intros Hv. eexists. split; [by apply Key_run|].
    rewrite string_length_app, base64_url_length, sha256.Sum_length. done.
  - intros Hv Hv'. split; split.
    + intros E%(inj (app key_domain)). apply frame_inj in E; [|done|by apply check_ids_lengths..].
      destruct s, s'. unfold scope_ids in E. simpl in E. congruence.
    + by intros ->.
    + rewrite !Key_run by done. intros E. apply Ok_inj, string_app_inv_l in E.
      apply base64_url_inj in E; [done| |apply Sum_range..]. by rewrite !sha256.Sum_length.
    + intros E. rewrite !Key_run by done. by rewrite E.
Qed.

Definition alice_scope : AuthorityScope := mkScope "acme" "users" "alice".

Lemma Key_binds_scope_witness :
  ∃ key, Key alice_scope = Ok key ∧ String.length key = 60%nat ∧
    (message alice_scope = message (mkScope "acmeu" "sers" "alice") ↔ alice_scope = mkScope "acmeu" "sers" "alice").
Proof.
  destruct (Key_binds_scope alice_scope (mkScope "acmeu" "sers" "alice")) as (_ & Hk & Hm).
  destruct (Hk ltac:(vm_compute; reflexivity)) as (key & E & Hlen). exists key. split; [exact E|]. split; [exact Hlen|].
  apply Hm; vm_compute; reflexivity.
Defined.

(** ** Failing closed *)

(** Handles whose methods return. *)
Class HandlesReturn (Q R : Type) `{AuthorityRows R, !AuthorityQueryer Q R} : Prop := {
  Next_returns : ∀ rows n, runs n (Next rows) (λ _ _, True);
  Scan_returns : ∀ rows n, runs n (Scan rows) (λ _ _, True);
  rows_Err_returns : ∀ rows n, runs n (rows_Err rows) (λ _ _, True);
  Close_returns : ∀ rows n, runs n (Close rows) (λ _ _, True);
  Query_returns : ∀ q ctx sql args n, runs n (Query q ctx sql args) (λ _ _, True)
}.

Lemma with_close_runs {R A} `{AuthorityRows R} (rows : R) (body : M (A * R)) n P :
  (∀ rows n, runs n (Close rows) (λ _ _, True)) →
  runs n body (λ a _, P a.1) → runs n (with_close rows body) (λ a _, P a).
Proof.
  intros Hclose ((a & rows') & n1 & E & Ha). unfold runs, with_close. rewrite E.
  destruct (Hclose rows' n1) as (u & n2 & -> & _). by exists a, n2.
Qed.

(** A call that returns, with its equation. *)
Lemma runs_equation {A} n (m : M A) (P : A → nat → Prop) : runs n m P → runs n m (λ a n', m n = (Ret a, n')).
Proof. intros (a & n' & E & _). by exists a, n'. Qed.

(** The row of a scope and an epoch: the identifiers, and the epoch in decimal. *)
Definition scope_row (scope : AuthorityScope) (version : Z) : columns :=
  (Scope_TenantID scope, PolicyNamespace scope, Scope_SubjectID scope, FormatUint version).

Lemma decodeAuthority_closed scope row :
  match decodeAuthority scope row with
  | Ok record => ∃ version, record = mkAuthorityRecord scope version ∧ 1 ≤ version ≤ max_uint64 ∧ row = scope_row scope version
  | Err e => e = ErrAuthorityUnavailable
  end.
Proof.
  destruct row as [[[tenant namespace] subject] version]. simpl. destruct (ParseUint version) as [v|] eqn:E; [|done].
  destruct (_ || _) eqn:Eg; [done|]. apply ParseUint_range in E as [? ?]. reflect_bools. exists v.
  split; [done|]. split; [lia|]. unfold scope_row. congruence.
Qed.

Lemma decodeAuthority_row scope version :
  Validate scope = None → 1 ≤ version ≤ max_uint64 →
  decodeAuthority scope (scope_row scope version) = Ok (mkAuthorityRecord scope version).
Proof.
  intros Hv Hr. simpl. rewrite ParseUint_Format_uint64 by (split; lia). rewrite Hv.
  rewrite (bool_decide_eq_false_2 (is_Some None)) by (by intros []). rewrite !bool_decide_eq_true_2 by done.
  by rewrite (proj2 (Z.eqb_neq _ _)) by lia.
Qed.

(** The cursor, asked from position [n] on, holds exactly this row, or none,
    and reports no error. *)
Definition one_row `{AuthorityRows R} (rows : R) (n : nat) (row : columns) : Prop :=
  ∃ rows1 n1 n2 rows2 n3 n4, Next rows n = (Ret (true, rows1), n1) ∧ Scan rows1 n1 = (Ret (Ok row), n2) ∧
    Next rows1 n2 = (Ret (false, rows2), n3) ∧ rows_Err rows2 n3 = (Ret None, n4).

Definition no_row `{AuthorityRows R} (rows : R) (n : nat) : Prop :=
  ∃ rows1 n1 n2, Next rows n = (Ret (false, rows1), n1) ∧ rows_Err rows1 n1 = (Ret None, n2).

(** A handle that reflection shows to be there: any value but a nil of a kind
    that has one. *)
Definition usable (v : reflected) : Prop := v ≠ NoValue ∧ ∀ kind, v = ValueOf kind true → kind = OtherKind.

Lemma usable_handle v : nilAuthorityHandle v = false ↔ usable v.
Proof.
  unfold usable. destruct v as [|kind []]; simpl; split; try done.
  - by intros [? _].
  - intros E. split; [done|]. intros k [= <-]. by destruct kind.
  - intros [_ Hk]. by rewrite (Hk kind eq_refl).
  - by destruct kind.
Qed.

(** An identifier: 1 to 128 bytes of valid UTF-8 without control characters
    and spaces. *)
Definition plain_id (id : string) : Prop :=
  1 ≤ byte_len id ≤ 128 ∧ utf8_ValidString id = true ∧ ∀ b, b ∈ string_bytes id → 32 < b ∧ b ≠ 127.

Lemma check_ids_plain ids : check_ids ids = None ↔ Forall plain_id ids.
Proof.
  induction ids as [|id ids IH]; simpl; [done|]. rewrite Forall_cons, <- IH. unfold plain_id.
  assert (0 ≤ byte_len id) by (unfold byte_len; lia).
  destruct (_ || _) eqn:E.
  { split; [done|]. intros [(? & Hu & _) _]. rewrite Hu in E. reflect_bools. lia. }
  destruct (existsb _ _) eqn:Eb.
  - split; [done|]. intros [(_ & _ & Hb) _]. apply existsb_exists in Eb as (b & Hin & Hbad).
    apply list_elem_of_In in Hin. destruct (Hb b Hin). reflect_bools; lia.
  - split; [|by intros [_ ?]]. intros Hids. split; [|done]. reflect_bools. split_and!; [lia|lia|by destruct (utf8_ValidString id)|].
    intros b Hin. apply not_true_iff_false in Eb. rewrite existsb_exists in Eb.
    destruct (decide (32 < b ∧ b ≠ 127)) as [?|Hn]; [done|]. destruct Eb. exists b. split; [by apply list_elem_of_In|].
    apply orb_true_iff. rewrite Z.leb_le, Z.eqb_eq. lia.
Qed.

Section closed.
Context `{GoRuntime, AuthorityRows R, !AuthorityQueryer Q R, !HandlesReturn Q R}.
Context (scope : AuthorityScope) (missing : error).

(** What a query answers, given what its cursor holds. *)
Definition row_answer (bounded : Context) (rows : R) (n : nat) (r : result AuthorityRecord) : Prop :=
  match r with
  | Ok record => ∃ version, record = mkAuthorityRecord scope version ∧ 1 ≤ version ≤ max_uint64 ∧
      one_row rows n (scope_row scope version)
  | Err e => e = ErrAuthorityUnavailable ∨ (e = missing ∧ no_row rows n) ∨ ∃ k, Err_at bounded k = Some e
  end.

(** The errors of a context with a deadline. *)
Lemma WithDeadline_errors ctx deadline e :
  (∃ k, Err_at (context_WithDeadline ctx deadline) k = Some e) →
  (e = context_DeadlineExceeded ∧ ∃ k, deadline ≤ time_Now k) ∨ (∃ k, Err_at ctx k = Some e).
Proof.
  intros [k E]. simpl in E. destruct (Err_at ctx k) eqn:Ec; [simplify_eq; right; by exists k|].
  destruct (Z.leb_spec deadline (time_Now k)); [|done]. left. split; [congruence|by exists k].
Qed.

Lemma authorityFailure_closed bounded n :
  runs n (authorityFailure bounded) (λ e _, e = ErrAuthorityUnavailable ∨ ∃ k, Err_at bounded k = Some e).
Proof.
  apply runs_ctx_Err, runs_ret. destruct (Err_at bounded n) as [e|] eqn:E; simpl; [|by left]. right. by exists n.
Qed.

Lemma unless_done_closed bounded rows n r k :
  row_answer bounded rows n r → runs k (unless_done bounded r) (λ r _, row_answer bounded rows n r).
Proof.
  intros Hr. apply runs_ctx_Err, runs_ret. destruct (Err_at bounded k) as [e|] eqn:E; [|done].
  right. right. by exists k.
Qed.

Lemma failure_closed {A} bounded rows n (f : error → M A) k P :
  (∀ e k, row_answer bounded rows n (Err e) → runs k (f e) P) → runs k (authorityFailure bounded ≫= f) P.
Proof.
  intros Hf. eapply runs_bind; [apply authorityFailure_closed|]. intros e k' [?|?]; apply Hf; [by left|by right; right].
Qed.

Lemma read_row_closed bounded (rows : R) n :
  runs n (read_row bounded scope missing rows) (λ a _, row_answer bounded rows n a.1).
Proof.
  eapply runs_bind; [eapply runs_equation, Next_returns|]. intros [more rows1] n1 E1. cbn beta iota in *. destruct more; simpl.
  - eapply runs_bind; [eapply runs_equation, Scan_returns|]. intros [row|e] n2 E2.
    2: { apply (failure_closed _ rows n). intros e' k He. apply runs_ret; exact He. }
    eapply runs_bind; [eapply runs_equation, Next_returns|]. intros [more rows2] n3 E3. cbn beta iota in *. destruct more.
    { apply runs_ret. by left. }
    eapply runs_bind; [eapply runs_equation, rows_Err_returns|]. intros [e|] n4 E4.
    { apply (failure_closed _ rows n). intros e' k He. apply runs_ret; exact He. }
    eapply runs_bind; [apply (unless_done_closed _ rows n)|intros r k Hr; apply runs_ret; exact Hr].
    pose proof (decodeAuthority_closed scope row) as Hrow. destruct (decodeAuthority scope row); [|by left].
    destruct Hrow as (version & -> & Hv & ->). exists version. split; [done|]. split; [done|].
    by exists rows1, n1, n2, rows2, n3, n4.
  - eapply runs_bind; [eapply runs_equation, rows_Err_returns|]. intros [e|] n2 E2.
    + eapply (runs_bind _ _ _ (λ r _, row_answer bounded rows n r)); [|intros r k Hr; apply runs_ret; exact Hr].
      apply (failure_closed _ rows n). intros e' k He. apply runs_ret. exact He.
    + eapply runs_bind; [apply (unless_done_closed _ rows n)|intros r k Hr; apply runs_ret; exact Hr].
      right. left. split; [done|]. by exists rows1, n1, n2.
Qed.

(** The row of the scope is answered, unless the context is done. *)
Lemma read_row_answers bounded `{!ContextLive bounded} (rows : R) n version :
  Validate scope = None → 1 ≤ version ≤ max_uint64 → one_row rows n (scope_row scope version) →
  runs n (read_row bounded scope missing rows) (λ a _, a.1 = Ok (mkAuthorityRecord scope version)).
Proof.
  intros Hv Hr (rows1 & n1 & n2 & rows2 & n3 & n4 & E1 & E2 & E3 & E4). unfold runs, read_row.
  erewrite M_bind_Ret by exact E1. simpl. erewrite M_bind_Ret by exact E2. cbn beta iota.
  erewrite M_bind_Ret by exact E3. cbn beta iota. erewrite M_bind_Ret by exact E4. cbn beta iota. rewrite decodeAuthority_row by done.
  erewrite M_bind_Ret by (unfold unless_done; rewrite ctx_Err_bind, ctx_live; reflexivity). by eexists _, _.
Qed.
End closed.

(** The inputs every operation admits. *)
Definition admitted {Q R} `{AuthorityRows R, !AuthorityQueryer Q R} (q : Q) (scope : AuthorityScope) (duration : Z) :
    bool :=
  negb (nilQueryer q) && (0 <? duration) && (duration <=? time_Minute) && bool_decide (Validate scope = None).

Lemma admission `{AuthorityRows R, !AuthorityQueryer Q R} (q : Q) scope duration :
  nilQueryer q || (duration <=? 0) || (time_Minute <? duration) || bool_decide (is_Some (Validate scope)) =
    negb (admitted q scope duration).
Proof.
  unfold admitted. rewrite !negb_andb, negb_involutive, !Z.leb_antisym, negb_involutive. do 2 f_equal.
  by destruct (Validate scope).
Qed.

(** The inputs of a query that are not refused. *)
Definition acceptable `{AuthorityRows R, !AuthorityQueryer Q R} (q : Q) (scope : AuthorityScope) (duration : Z) : Prop :=
  usable (reflect_queryer q) ∧ 0 < duration ≤ 60 * 10 ^ 9 ∧
  plain_id (Scope_TenantID scope) ∧ plain_id (PolicyNamespace scope) ∧ plain_id (Scope_SubjectID scope).

Lemma admitted_acceptable `{AuthorityRows R, !AuthorityQueryer Q R} (q : Q) scope duration :
  admitted q scope duration = true ↔ acceptable q scope duration.
Proof.
  unfold admitted, acceptable. rewrite !andb_true_iff, negb_true_iff, Z.ltb_lt, Z.leb_le, bool_decide_eq_true.
  unfold nilQueryer. rewrite usable_handle. unfold Validate. rewrite check_ids_plain. unfold scope_ids.
  rewrite !Forall_cons, Forall_nil. unfold time_Minute. tauto.
Qed.

(** C19. Authority fails closed: whatever handles are borrowed, as long as
    their methods return, every query returns. Inputs that are not acceptable
    are refused before any statement. A record is only returned when the
    statement ran with the scope's identifiers as its first arguments and its
    cursor held exactly one row, whose identifiers are those of the scope and
    whose text is the record's epoch, from 1 to the largest uint64; and while
    the time is not up it is returned then. The missing-row error is only
    returned when the cursor held no row and no error; every other error is
    [ErrAuthorityUnavailable], the deadline or the caller's context: nothing
    of the database is disclosed. *)
Theorem authorityQuery_fails_closed `{GoRuntime, AuthorityRows R, !AuthorityQueryer Q R, !HandlesReturn Q R}
    (ctx : Context) (q : Q) (scope : AuthorityScope) (duration : Z) (sql : string) (missing : error)
    (extra : list string) (n : nat) :
  let bounded := context_WithDeadline ctx (time_Now n + duration) in
  let args := [Scope_TenantID scope; PolicyNamespace scope; Scope_SubjectID scope] ++ extra in
  authorityQuery None q scope duration sql missing extra n = (Ret (Err ErrInvalidAuthority, q), n) ∧
  (¬ acceptable q scope duration →
     authorityQuery (Some ctx) q scope duration sql missing extra n = (Ret (Err ErrInvalidAuthority, q), n)) ∧
  (acceptable q scope duration → runs n (authorityQuery (Some ctx) q scope duration sql missing extra) (λ '(r, _) _,
     match r with
     | Ok record => ∃ rows q1 n1 version, Query q bounded sql args (S (S n)) = (Ret (rows, None, q1), n1) ∧
         usable (reflect_rows rows) ∧ one_row rows n1 (scope_row scope version) ∧
         1 ≤ version ≤ max_uint64 ∧ record = mkAuthorityRecord scope version
     | Err e => e = ErrAuthorityUnavailable ∨
         (e = missing ∧ ∃ rows q1 n1, Query q bounded sql args (S (S n)) = (Ret (rows, None, q1), n1) ∧ no_row rows n1) ∨
         (e = context_DeadlineExceeded ∧ ∃ k, time_Now n + duration ≤ time_Now k) ∨ (∃ k, Err_at ctx k = Some e)
     end ∧
     ∀ rows q1 n1 version, ContextLive bounded →
       Query q bounded sql args (S (S n)) = (Ret (rows, None, q1), n1) → usable (reflect_rows rows) →
       1 ≤ version ≤ max_uint64 → one_row rows n1 (scope_row scope version) →
       r = Ok (mkAuthorityRecord scope version))).
Proof.
  intros bounded args. split; [done|]. rewrite <- admitted_acceptable. simpl authorityQuery. rewrite admission. split.
  { intros Hno. by rewrite (not_true_is_false _ Hno). }
  intros Had. rewrite Had. simpl negb. cbn iota.
  assert (Validate scope = None) as Hvalid by (unfold admitted in Had; by reflect_bools).
  eapply (runs_bind _ _ _ (λ b k, b = bounded ∧ k = S n)); [by eexists _, _|]. intros ? k [-> ->].
  pose proof (WithDeadline_errors ctx (time_Now n + duration)) as Hctx.
  apply runs_ctx_Err. destruct (Err_at bounded (S n)) as [e|] eqn:E.
  { apply runs_ret. split; [do 2 right; apply Hctx; by exists (S n)|]. intros rows q1 n1 version Hlive.
    by rewrite (Hlive (S n)) in E. }
  change (Scope_TenantID scope :: PolicyNamespace scope :: Scope_SubjectID scope :: extra) with args.
  eapply runs_bind; [eapply runs_equation, Query_returns|]. intros [[rows err] q'] n1 Eq. cbn beta iota. destruct err as [err|].
  { eapply runs_bind; [apply authorityFailure_closed|]. intros e k He. apply runs_ret.
    split; [destruct He as [?|?]; [by left|do 2 right; by apply Hctx]|]. intros ? ? ? ? _ Eq'. congruence. }
  unfold nilRows. destruct (nilAuthorityHandle (reflect_rows rows)) eqn:Er.
  { apply runs_ret. split; [by left|]. intros ? ? ? ? _ Eq' Hu%usable_handle. congruence. }
  apply usable_handle in Er.
  eapply (runs_bind _ _ _ (λ r _, row_answer scope missing bounded rows n1 r ∧
    ∀ version, ContextLive bounded → 1 ≤ version ≤ max_uint64 → one_row rows n1 (scope_row scope version) →
      r = Ok (mkAuthorityRecord scope version))).
  - apply (with_close_runs rows _ _ (λ r, row_answer scope missing bounded rows n1 r ∧ _)); [apply Close_returns|].
    destruct (read_row_closed scope missing bounded rows n1) as (a & k & Ea & Ha). exists a, k. split; [done|]. split; [done|].
    intros version Hlive Hv Hone. destruct (read_row_answers scope missing bounded rows n1 version Hvalid Hv Hone)
      as (a' & k' & Ea' & Ha'). congruence.
  - intros r k [Hr Hans]. apply runs_ret. split.
    + destruct r as [record|e].
      * destruct Hr as (version & -> & Hv & Hone). by exists rows, q', n1, version.
      * destruct Hr as [?|[[? ?]|?]]; [by left|right; left|do 2 right; by apply Hctx]. split; [done|]. by exists rows, q', n1.
    + intros rows1 q1 n2 version Hlive Eq' _ Hv Hone. rewrite Eq in Eq'. simplify_eq. by apply Hans.
Qed.

(** ** Epochs *)

Definition scope_key (scope : AuthorityScope) : string * string * string :=
  (Scope_TenantID scope, PolicyNamespace scope, Scope_SubjectID scope).

(** The table: the schema keeps versions positive and within uint64. *)
Abbreviation epochs := (gmap (string * string * string) Z).

Definition epochs_ok (t : epochs) : Prop := map_Forall (λ _ version, 1 ≤ version ≤ max_uint64) t.

Definition row_text (key : string * string * string) (version : Z) : columns := (key, FormatUint version).

(** The statements of the source: the rows they return and the table after. *)
Definition select_sql (t : epochs) (key : string * string * string) : list columns :=
  match t !! key with Some version => [row_text key version] | None => [] end.

Definition insert_sql (t : epochs) (key : string * string * string) : list columns * epochs :=
  match t !! key with Some _ => ([], t) | None => ([row_text key 1], <[key := 1]> t) end.

Definition advance_sql (t : epochs) (key : string * string * string) (expected : Z) : list columns * epochs :=
  match t !! key with
  | Some version =>
      if version =? expected then ([row_text key (version + 1)], <[key := version + 1]> t) else ([], t)
  | None => ([], t)
  end.

(** What the cursors promise: [remaining] are the rows not delivered yet,
    [failed] that the iteration broke off. Without [faults] nothing fails. *)
Class AuthorityCursor (R : Type) `{AuthorityRows R} := {
  remaining : R → list columns;
  scanned : R → option columns;
  failed : R → bool;
  faults : Prop;
  Next_law : ∀ rows n, runs n (Next rows) (λ '(more, rows') _,
    (∃ row, more = true ∧ remaining rows = row :: remaining rows' ∧ scanned rows' = Some row) ∨
    (more = false ∧ remaining rows = [] ∧ failed rows' = false) ∨
    (more = false ∧ failed rows' = true ∧ faults));
  Scan_law : ∀ rows row n, scanned rows = Some row →
    runs n (Scan rows) (λ r _, r = Ok row ∨ (is_Ok r = false ∧ faults));
  rows_Err_law : ∀ rows n, runs n (rows_Err rows) (λ err _,
    if failed rows then is_Some err else err = None ∨ faults);
  Close_law : ∀ rows n, runs n (Close rows) (λ _ _, True)
}.

(** What the database of the transaction promises: a statement returns its
    rows and has its effect, or fails, at once or in the iteration, with or
    without the effect. [contents] is the table as the transaction sees it. *)
Class AuthorityDatabase (Q R : Type) `{AuthorityCursor R, !AuthorityQueryer Q R} := {
  contents : Q → epochs;
  contents_ok : ∀ q, epochs_ok (contents q);
  executes (q : Q) (sql : string) (args : list string) (effect : list columns * epochs) : Prop :=
    ∀ ctx n, runs n (Query q ctx sql args) (λ '(rows, err, q') _,
      match err with
      | None => nilRows rows = false ∧ remaining rows = effect.1 ∧
          (contents q' = effect.2 ∨
           (contents q' = contents q ∧ faults ∧
            ∀ n, runs n (Next rows) (λ '(more, rows') _, more = false ∧ failed rows' = true)))
      | Some _ => faults ∧ (contents q' = contents q ∨ contents q' = effect.2)
      end);
  run_select : ∀ q scope, executes q authoritySelect (scope_ids scope)
    (select_sql (contents q) (scope_key scope), contents q);
  run_select_share : ∀ q scope, executes q (authoritySelect +:+ " FOR SHARE") (scope_ids scope)
    (select_sql (contents q) (scope_key scope), contents q);
  run_insert : ∀ q scope, executes q authorityInsert (scope_ids scope)
    (insert_sql (contents q) (scope_key scope));
  run_advance : ∀ q scope expected, 0 ≤ expected < max_uint64 →
    executes q authorityAdvance (scope_ids scope ++ [FormatUint expected])
      (advance_sql (contents q) (scope_key scope) expected)
}.

Section epochs.
Context `{GoRuntime, AuthorityCursor R, !AuthorityQueryer Q R, !AuthorityDatabase Q R}.

(** The errors of a query that could not be completed. *)
Definition unavailable (e : error) : Prop :=
  e = ErrAuthorityUnavailable ∨ e = context_Canceled ∨ e = context_DeadlineExceeded.

Definition incomplete {A} (bounded : Context) (r : result A) : Prop :=
  ∃ e, r = Err e ∧ unavailable e ∧ (faults ∨ ∃ k, is_Some (Err_at bounded k)).

Definition found_rows (scope : AuthorityScope) (found : option Z) : list columns :=
  match found with Some version => [row_text (scope_key scope) version] | None => [] end.

Definition found_record (scope : AuthorityScope) (missing : error) (found : option Z) : result AuthorityRecord :=
  match found with Some version => Ok (mkAuthorityRecord scope version) | None => Err missing end.

Section bounded.
Context (bounded : Context) `{!ContextErrors bounded}.

Lemma authorityFailure_incomplete n :
  faults → runs n (authorityFailure bounded) (λ e _, ∀ A, incomplete bounded (@Err A e)).
Proof.
  intros Hf. apply runs_ctx_Err, runs_ret. intros A. eexists. split; [done|]. split; [|by left].
  destruct (Err_at bounded n) as [e|] eqn:E; simpl; [|by left]. right. by apply (ctx_errors n).
Qed.

Lemma unless_done_spec {A} (r : result A) n :
  runs n (unless_done bounded r) (λ r' _, r' = r ∨ incomplete bounded r').
Proof.
  apply runs_ctx_Err, runs_ret. destruct (Err_at bounded n) as [e|] eqn:E; [|by left]. right. exists e.
  split; [done|]. split; [right; by apply (ctx_errors n)|]. right. exists n. by rewrite E.
Qed.

Lemma fail_incomplete {B} (f : error → M B) n P :
  faults → (∀ e n, incomplete bounded (@Err AuthorityRecord e) → runs n (f e) P) →
  runs n (authorityFailure bounded ≫= f) P.
Proof. intros Hf Hk. eapply runs_bind; [by apply authorityFailure_incomplete|]. auto. Qed.

(** After a [Next] without a row. *)
Lemma no_row_spec missing (rows : R) n :
  failed rows = false ∨ faults →
  runs n (err ← rows_Err rows;
          r ← match err with
              | Some _ => failure ← authorityFailure bounded; mret (Err failure)
              | None => unless_done bounded (Err missing)
              end;
          mret (r, rows))
    (λ a _, (a.1 = @Err AuthorityRecord missing ∧ failed rows = false) ∨ incomplete bounded a.1).
Proof.
  intros Hrows. eapply runs_bind; [apply rows_Err_law|]. intros err n2 Herr. destruct err as [err|].
  - eapply (runs_bind _ _ _ (λ r _, incomplete bounded r)); [|intros r k Hr; apply runs_ret; by right].
    apply fail_incomplete; [|intros e k He; by apply runs_ret].
    destruct (failed rows), Hrows, Herr; done.
  - eapply runs_bind; [apply unless_done_spec|]. intros r k Hr. apply runs_ret. simpl.
    destruct (failed rows); [by apply is_Some_None in Herr|]. destruct Hr as [->|?]; [by left|by right].
Qed.

Lemma read_row_broken scope missing (rows : R) n :
  faults → (∀ n, runs n (Next rows) (λ '(more, rows') _, more = false ∧ failed rows' = true)) →
  runs n (read_row bounded scope missing rows) (λ a _, incomplete bounded a.1).
Proof.
  intros Hf Hnext. eapply runs_bind; [apply Hnext|]. intros [more rows1] n1 [-> Ef]. simpl.
  eapply runs_mono; [apply no_row_spec; by right|]. rewrite Ef. by intros a k [[_ ?]|?].
Qed.

Lemma read_row_spec scope missing (rows : R) found n :
  Validate scope = None → (∀ version, found = Some version → 1 ≤ version ≤ max_uint64) →
  remaining rows = found_rows scope found →
  runs n (read_row bounded scope missing rows) (λ a _,
    a.1 = found_record scope missing found ∨ incomplete bounded a.1).
Proof.
  intros Hv Hrange Hrows. eapply runs_bind; [apply Next_law|]. intros [more rows1] n1 Hn.
  destruct more; simpl.
  - destruct Hn as [(row & _ & Er & Es)|[[? _]|[? _]]]; [|done..].
    rewrite Hrows in Er. destruct found as [version|]; [|done]. injection Er as <- Er.
    eapply runs_bind; [by apply Scan_law|]. intros r n2 [->|[Hr Hf]].
    2: { destruct r; [done|]. apply fail_incomplete; [done|]. intros e1 k He. apply runs_ret. by right. }
    eapply runs_bind; [apply Next_law|]. intros [more rows2] n3 Hn. rewrite <- Er in Hn.
    destruct more; [by destruct Hn as [(? & _ & ? & _)|[[? _]|[? _]]]|].
    eapply runs_bind; [apply rows_Err_law|]. intros err n4 Herr.
    destruct err as [err|].
    + apply fail_incomplete; [|intros e1 k He; apply runs_ret; by right].
      destruct Hn as [(? & ? & _)|[(_ & _ & E)|(_ & _ & ?)]]; [done| |done]. rewrite E in Herr. by destruct Herr.
    + eapply runs_bind; [apply unless_done_spec|]. intros r k Hr. apply runs_ret. simpl.
      change (row_text (scope_key scope) version) with (scope_row scope version) in Hr. by rewrite decodeAuthority_row in Hr by auto.
  - eapply runs_mono; [apply no_row_spec|]; simpl.
    + destruct Hn as [(? & ? & _)|[(_ & _ & ?)|(_ & _ & ?)]]; [done|by left|by right].
    + intros a k [[Ea Ef]|?]; [left|by right]. destruct Hn as [(? & ? & _)|[(_ & Er & _)|(_ & Ef' & _)]]; [done| |congruence].
      rewrite Hrows in Er. by destruct found.
Qed.
End bounded.

(** Interrupted: the caller's context is done, or the time is up. *)
Definition interrupted (ctx : Context) (duration : Z) (n : nat) : Prop :=
  ∃ k, is_Some (Err_at ctx k) ∨ time_Now n + duration ≤ time_Now k.

(** A query that failed, with or without its effect. *)
Definition query_failed {A} (ctx : Context) (duration : Z) (n : nat) (r : result A) (effects : list epochs) (q : Q) :
    Prop :=
  (∃ e, r = Err e ∧ unavailable e) ∧ (faults ∨ interrupted ctx duration n) ∧ contents q ∈ effects.

Lemma incomplete_failed {A} ctx duration n (r : result A) effects q :
  incomplete (context_WithDeadline ctx (time_Now n + duration)) r →
  contents q ∈ effects → query_failed ctx duration n r effects q.
Proof.
  intros (e & -> & He & Hf) Hin. split; [by exists e|]. split; [|done]. destruct Hf as [Hf|[k Hk]]; [by left|].
  right. exists k. simpl in Hk. destruct (Err_at ctx k); [by left|]. right.
  by destruct (Z.leb_spec (time_Now n + duration) (time_Now k)); [|destruct Hk].
Qed.

Lemma authorityQuery_spec ctx `{!ContextErrors ctx} q scope duration sql missing extra found t' n :
  admitted q scope duration = true → (∀ version, found = Some version → 1 ≤ version ≤ max_uint64) →
  executes q sql (scope_ids scope ++ extra) (found_rows scope found, t') →
  runs n (authorityQuery (Some ctx) q scope duration sql missing extra) (λ '(r, q') _,
    (r = found_record scope missing found ∧ contents q' = t') ∨
    query_failed ctx duration n r [contents q; t'] q').
Proof.
  intros Had Hrange Hexec. simpl. rewrite admission, Had. simpl.
  assert (Validate scope = None) as Hv. { unfold admitted in Had. by reflect_bools. }
  set (bounded := context_WithDeadline ctx (time_Now n + duration)). eapply (runs_bind _ _ _ (λ b _, b = bounded)); [by eexists _, _|].
  intros ? n1 ->. assert (ContextErrors bounded) as Hb.
  { intros k e. simpl. destruct (Err_at ctx k) eqn:E; [intros [= ->]; by apply (ctx_errors k)|].
    case_match; [|done]. intros [= <-]. by right. }
  apply runs_ctx_Err. destruct (Err_at bounded n1) as [e|] eqn:Ee.
  { apply runs_ret. right. apply incomplete_failed; [|set_solver]. exists e. split; [done|].
    split; [right; by apply (ctx_errors n1)|]. right. exists n1, e. exact Ee. }
  eapply runs_bind; [apply Hexec|]. intros [[rows err] q'] n2 Hq. simpl. destruct err as [err|].
  { destruct Hq as [Hf Ht]. apply (fail_incomplete bounded); [done|]. intros e k He. apply runs_ret. right.
    apply incomplete_failed; [done|set_solver]. }
  destruct Hq as (-> & Hrows & Hq). eapply (runs_bind _ _ _ (λ r _,
    (r = found_record scope missing found ∧ contents q' = t') ∨ (incomplete bounded r ∧ contents q' ∈ [contents q; t']))).
  - apply (with_close_runs rows _ _ (λ r,
      (r = found_record scope missing found ∧ contents q' = t') ∨ (incomplete bounded r ∧ contents q' ∈ [contents q; t']))).
    { apply Close_law. }
    destruct Hq as [Ht|(Ht & Hf & Hnext)].
    + eapply runs_mono; [by apply (read_row_spec bounded scope missing rows found)|]. simpl. rewrite Ht.
      intros a k [?|?]; [by left|right]. split; [done|set_solver].
    + eapply runs_mono; [by apply read_row_broken|]. simpl. intros a k ?. right. split; [done|]. rewrite Ht. set_solver.
  - intros r k Hr. apply runs_ret. destruct Hr as [?|[? ?]]; [by left|right]. by apply incomplete_failed.
Qed.

(** ** The operations as steps of one register per scope *)

Inductive operation :=
| OpInitialize
| OpAdvance (expected : Z)
| OpRequire (expected : Z)
| OpGet.

Definition version_of (r : result AuthorityRecord) : result Z :=
  match r with Ok record => Ok (Version record) | Err e => Err e end.

Definition perform (op : operation) (ctx : Context) (q : Q) (scope : AuthorityScope) (duration : Z) :
    M (result Z * Q) :=
  match op with
  | OpInitialize =>
      '(r, q) ← InitializeAuthority (Some ctx) q scope duration; mret (version_of r, q)
  | OpAdvance expected =>
      '(r, q) ← AdvanceAuthority (Some ctx) q scope expected duration; mret (version_of r, q)
  | OpRequire expected =>
      '(err, q) ← RequireAuthority (Some ctx) q scope expected duration;
      mret (match err with None => Ok expected | Some e => Err e end, q)
  | OpGet =>
      '(r, pool) ← Get (Some (mkAuthorityStore (Some q) duration)) (Some ctx) scope;
      mret (version_of r, default q pool)
  end.

(** The specification: the epoch of one scope. *)
Definition epoch_step (op : operation) (current : option Z) : result Z * option Z :=
  match op with
  | OpInitialize => match current with None => (Ok 1, Some 1) | Some _ => (Err ErrAuthorityConflict, current) end
  | OpAdvance expected =>
      if expected =? 0 then (Err ErrInvalidAuthority, current)
      else if expected =? max_uint64 then (Err ErrAuthorityOverflow, current)
      else if bool_decide (current = Some expected) then (Ok (expected + 1), Some (expected + 1))
      else (Err ErrAuthorityConflict, current)
  | OpRequire expected =>
      if expected =? 0 then (Err ErrInvalidAuthority, current)
      else if bool_decide (current = Some expected) then (Ok expected, current)
      else (Err ErrAuthorityDenied, current)
  | OpGet => match current with Some version => (Ok version, current) | None => (Err ErrAuthorityDenied, current) end
  end.

Definition op_ok (op : operation) : Prop :=
  match op with OpAdvance expected | OpRequire expected => in_uint64 expected | _ => True end.

(** The table after the specification's step for one scope. *)
Definition step_table (op : operation) (t : epochs) (scope : AuthorityScope) : epochs :=
  partial_alter (λ current, (epoch_step op current).2) (scope_key scope) t.

Definition refined (op : operation) (ctx : Context) (q : Q) (scope : AuthorityScope) (duration : Z) (n : nat) : Prop :=
  runs n (perform op ctx q scope duration) (λ '(r, q') _,
    (r = (epoch_step op (contents q !! scope_key scope)).1 ∧ contents q' = step_table op (contents q) scope) ∨
    query_failed ctx duration n r [contents q; step_table op (contents q) scope] q').

Lemma step_table_eq op t scope current' :
  (epoch_step op (t !! scope_key scope)).2 = current' →
  step_table op t scope = match current' with Some v => <[scope_key scope := v]> t | None => delete (scope_key scope) t end.
Proof.
  intros E. unfold step_table. apply map_eq. intros key. destruct (decide (key = scope_key scope)) as [->|Hne].
  - rewrite lookup_partial_alter_eq, E. destruct current'; [by rewrite lookup_insert_eq|by rewrite lookup_delete_eq].
  - rewrite lookup_partial_alter_ne by done.
    destruct current'; [by rewrite lookup_insert_ne|by rewrite lookup_delete_ne].
Qed.

Lemma step_table_same op t scope :
  (epoch_step op (t !! scope_key scope)).2 = t !! scope_key scope → step_table op t scope = t.
Proof.
  intros E. apply map_eq. intros key. unfold step_table. destruct (decide (key = scope_key scope)) as [->|Hne].
  - by rewrite lookup_partial_alter_eq.
  - by rewrite lookup_partial_alter_ne.
Qed.

(** From the query of an operation to the operation. *)
Lemma refined_by_query op ctx q scope duration n sql missing extra found
    (conclude : result AuthorityRecord → result Z) `{!ContextErrors ctx} :
  admitted q scope duration = true →
  (∀ m, runs n (authorityQuery (Some ctx) q scope duration sql missing extra) m →
     runs n (perform op ctx q scope duration) (λ '(r, q') _, ∃ r0 k, m (r0, q') k ∧ r = conclude r0)) →
  (∀ e, conclude (Err e) = Err e) →
  conclude (found_record scope missing found) = (epoch_step op (contents q !! scope_key scope)).1 →
  (∀ version, found = Some version → 1 ≤ version ≤ max_uint64) →
  executes q sql (scope_ids scope ++ extra) (found_rows scope found, step_table op (contents q) scope) →
  refined op ctx q scope duration n.
Proof.
  intros Had Hop Herr Hgood Hrange Hexec. eapply runs_mono.
  - eapply Hop. by apply (authorityQuery_spec ctx q scope duration sql missing extra found (step_table op (contents q) scope) n).
  - intros [r q'] k (r0 & k0 & [[-> Ht]|((e & -> & He) & Hf & Hin)] & ->); [left; by rewrite Hgood|right].
    split; [|done]. exists e. by rewrite Herr.
Qed.

Section operations.
Context (ctx : Context) `{!ContextErrors ctx} (q : Q) (scope : AuthorityScope) (duration : Z) (n : nat).
Context (Had : admitted q scope duration = true).

Lemma Initialize_refined : refined OpInitialize ctx q scope duration n.
Proof.
  apply (refined_by_query _ _ _ _ _ _ authorityInsert ErrAuthorityConflict []
    (match contents q !! scope_key scope with None => Some 1 | Some _ => None end) version_of); [done| |done|..].
  - intros m Hm. eapply runs_bind; [exact Hm|]. intros [r q'] k Hk. apply runs_ret. eauto.
  - simpl. by destruct (contents q !! scope_key scope).
  - intros v. case_match; [done|]. intros [= <-]. done.
  - pose proof (run_insert q scope) as Hx. unfold insert_sql in Hx. 
    destruct (contents q !! scope_key scope) as [v|] eqn:E.
    + by rewrite step_table_same by (simpl; by rewrite E).
    + by rewrite (step_table_eq _ _ _ (Some 1)) by (simpl; by rewrite E).
Qed.

Lemma Advance_refined expected : in_uint64 expected → refined (OpAdvance expected) ctx q scope duration n.
Proof.
  intros Hop.
  destruct (Z.eqb_spec expected 0) as [->|Hz].
  { apply runs_ret. left. by rewrite step_table_same. }
  destruct (Z.eqb_spec expected max_uint64) as [->|Hmax].
  { apply runs_ret. left. by rewrite step_table_same. }
  assert (0 ≤ expected < max_uint64) as Hlt by (unfold in_uint64 in Hop; lia).
  assert (∀ t : epochs, epoch_step (OpAdvance expected) (t !! scope_key scope) =
    if bool_decide (t !! scope_key scope = Some expected) then (Ok (expected + 1), Some (expected + 1))
    else (Err ErrAuthorityConflict, t !! scope_key scope)) as Hstep.
  { intros t. simpl. by rewrite (proj2 (Z.eqb_neq _ _) Hz), (proj2 (Z.eqb_neq _ _) Hmax). }
  apply (refined_by_query _ _ _ _ _ _ authorityAdvance ErrAuthorityConflict [FormatUint expected]
    (if bool_decide (contents q !! scope_key scope = Some expected) then Some (expected + 1) else None) version_of);
    [done| |done|..].
  - intros m Hm. simpl. unfold AdvanceAuthority. rewrite (proj2 (Z.eqb_neq _ _) Hz), (proj2 (Z.eqb_neq _ _) Hmax).
    eapply runs_bind; [exact Hm|]. intros [r q'] k Hk. apply runs_ret. eauto.
  - rewrite Hstep. by case_bool_decide.
  - intros v. case_match; [|done]. intros [= <-]. lia.
  - pose proof (run_advance q scope expected Hlt) as Hx. unfold advance_sql in Hx.
    case_bool_decide as E.
    + rewrite E, Z.eqb_refl in Hx. rewrite (step_table_eq _ _ _ (Some (expected + 1))); [done|].
      by rewrite Hstep, bool_decide_eq_true_2.
    + rewrite step_table_same by (by rewrite Hstep, bool_decide_eq_false_2).
      destruct (contents q !! scope_key scope) as [v|]; [|done]. by rewrite (proj2 (Z.eqb_neq v expected)) in Hx by congruence.
Qed.

(** The rows a select finds. *)
Lemma selected :
  select_sql (contents q) (scope_key scope) = found_rows scope (contents q !! scope_key scope) ∧
  ∀ version, contents q !! scope_key scope = Some version → 1 ≤ version ≤ max_uint64.
Proof.
  split; [unfold select_sql; by destruct (contents q !! scope_key scope)|]. exact (contents_ok q (scope_key scope)).
Qed.

Lemma Require_refined expected : in_uint64 expected → refined (OpRequire expected) ctx q scope duration n.
Proof.
  intros Hop. destruct selected as [Hsel Hrange]. destruct (Z.eqb_spec expected 0) as [->|Hz].
  { apply runs_ret. left. by rewrite step_table_same. }
  assert (∀ t : epochs, epoch_step (OpRequire expected) (t !! scope_key scope) =
    (if bool_decide (t !! scope_key scope = Some expected) then Ok expected else Err ErrAuthorityDenied,
     t !! scope_key scope)) as Hstep.
  { intros t. simpl. rewrite (proj2 (Z.eqb_neq _ _) Hz). by case_bool_decide. }
  apply (refined_by_query _ _ _ _ _ _ (authoritySelect +:+ " FOR SHARE") ErrAuthorityDenied []
    (contents q !! scope_key scope) (λ r, match r with
      | Err e => Err e
      | Ok record => if Version record =? expected then Ok expected else Err ErrAuthorityDenied
      end)); [done| |done|..].
  - intros m Hm. simpl. unfold RequireAuthority. rewrite (proj2 (Z.eqb_neq _ _) Hz).
    eapply (runs_bind _ _ _ (λ '(err, q') _, ∃ r0 k, m (r0, q') k ∧
      match err with None => Ok expected | Some e => Err e end = match r0 with
      | Err e => Err e
      | Ok record => if Version record =? expected then Ok expected else Err ErrAuthorityDenied
      end)).
    + eapply runs_bind; [exact Hm|]. intros [r q'] k Hk. apply runs_ret. destruct r as [record|e].
      * exists (Ok record), k. split; [done|]. by destruct (Version record =? expected).
      * by exists (Err e), k.
    + intros [err q'] k (r0 & k0 & Hk & E). apply runs_ret. eauto.
  - rewrite Hstep. simpl. destruct (contents q !! scope_key scope) as [v|]; simpl; [|done].
    destruct (Z.eqb_spec v expected); case_bool_decide; congruence.
  - done.
  - rewrite step_table_same by (by rewrite Hstep). pose proof (run_select_share q scope) as Hx. by rewrite Hsel in Hx.
Qed.

Lemma Get_refined : refined OpGet ctx q scope duration n.
Proof.
  destruct selected as [Hsel Hrange].
  apply (refined_by_query _ _ _ _ _ _ authoritySelect ErrAuthorityDenied [] (contents q !! scope_key scope) version_of);
    [done| |done|..].
  - intros m Hm. eapply (runs_bind _ _ _ (λ '(r, pool) _, ∃ q' k, pool = Some q' ∧ m (r, q') k)).
    + eapply runs_bind; [exact Hm|]. intros [r q'] k Hk. apply runs_ret. eauto.
    + intros [r pool] k (q' & k0 & -> & Hk). apply runs_ret. simpl. eauto.
  - simpl. by destruct (contents q !! scope_key scope).
  - done.
  - pose proof (run_select q scope) as Hx. rewrite Hsel in Hx. rewrite step_table_same; [done|].
    simpl. by destruct (contents q !! scope_key scope).
Qed.

Lemma perform_refined op : op_ok op → refined op ctx q scope duration n.
Proof.
  destruct op; intros Hop;
    [apply Initialize_refined|by apply Advance_refined|by apply Require_refined|apply Get_refined].
Qed.
End operations.

(** ** Histories

    Operations on one table, of any transactions: [history_begin] passes the
    table to the handle of the next transaction. *)
Inductive history : Q → Q → Prop :=
| history_refl q : history q q
| history_begin q q1 q2 : contents q1 = contents q → history q1 q2 → history q q2
| history_step op ctx scope duration n q r q1 n1 q2 :
    ContextErrors ctx → admitted q scope duration = true → op_ok op →
    perform op ctx q scope duration n = (Ret (r, q1), n1) → history q1 q2 → history q q2.

Lemma epoch_step_le op current : option_le current (epoch_step op current).2.
Proof.
  destruct op as [|expected|expected|]; simpl; [by destruct current| | |by destruct current].
  - destruct (_ =? 0); [done|]. destruct (_ =? max_uint64); [done|]. case_bool_decide as E; [|done]. subst. simpl.
    eexists. split; [done|lia].
  - destruct (_ =? 0); [done|]. by destruct (bool_decide _).
Qed.

Lemma step_table_le op t scope key : option_le (t !! key) (step_table op t scope !! key).
Proof.
  unfold step_table. destruct (decide (key = scope_key scope)) as [->|Hne].
  - rewrite lookup_partial_alter_eq. apply epoch_step_le.
  - by rewrite lookup_partial_alter_ne.
Qed.

Lemma perform_le op ctx `{!ContextErrors ctx} q scope duration n r q' n' key :
  admitted q scope duration = true → op_ok op → perform op ctx q scope duration n = (Ret (r, q'), n') →
  option_le (contents q !! key) (contents q' !! key).
Proof.
  intros Had Hop E. destruct (perform_refined ctx q scope duration n Had op Hop) as ([r1 q1] & n1 & E1 & Hr).
  rewrite E in E1. simplify_eq. destruct Hr as [[_ ->]|(_ & _ & Hin)]; [apply step_table_le|].
  apply list_elem_of_In in Hin as [<-|[<-|[]]]; [done|apply step_table_le].
Qed.

Lemma history_le q q' key : history q q' → option_le (contents q !! key) (contents q' !! key).
Proof.
  induction 1 as [q|q q1 q2 Hc _ IH|op ctx scope duration n q r q1 n1 q2 Hctx Had Hop E _ IH]; [done| |].
  - by rewrite <- Hc.
  - etrans; [by eapply perform_le|done].
Qed.

Lemma perform_Ok op ctx `{!ContextErrors ctx} q scope duration n v q' n' :
  admitted q scope duration = true → op_ok op → perform op ctx q scope duration n = (Ret (Ok v, q'), n') →
  (epoch_step op (contents q !! scope_key scope)).1 = Ok v ∧ contents q' = step_table op (contents q) scope.
Proof.
  intros Had Hop E. destruct (perform_refined ctx q scope duration n Had op Hop) as ([r1 q1] & n1 & E1 & Hr).
  rewrite E in E1. simplify_eq. by destruct Hr as [[<- ->]|((e & ? & _) & _)].
Qed.

(** An epoch that is past the expected one is refused, and so is bootstrap. *)
Lemma past_epoch_refused ctx `{!ContextErrors ctx} q scope duration n v op :
  admitted q scope duration = true → op_ok op → contents q !! scope_key scope = Some v →
  op = OpInitialize ∨ (∃ expected, op = OpRequire expected ∧ expected < v) →
  runs n (perform op ctx q scope duration) (λ '(r, _) _, is_Ok r = false).
Proof.
  intros Had Hop Hv Hcase. eapply runs_mono; [by apply perform_refined|]. intros [r q'] k.
  intros [[-> _]|((e & -> & _) & _)]; [|done]. rewrite Hv. destruct Hcase as [->|(expected & -> & Hlt)]; simpl; [done|].
  destruct (_ =? 0); [done|]. by rewrite bool_decide_eq_false_2 by (intros [= ->]; lia).
Qed.
End epochs.

(** ** A database in memory *)

Record memory_rows := mkMemoryRows { memory_remaining : list columns; memory_scanned : option columns }.

#[global] Instance memory_cursor : AuthorityRows memory_rows := {|
  Next := λ rows, mret match memory_remaining rows with
    | [] => (false, mkMemoryRows [] None)
    | row :: l => (true, mkMemoryRows l (Some row))
    end;
  Scan := λ rows, mret match memory_scanned rows with Some row => Ok row | None => Err pgx_ErrNoRows end;
  rows_Err := λ rows, mret None;
  Close := λ rows, mret tt;
  reflect_rows := λ rows, ValueOf Pointer false
|}.

(** The statements on a table; another statement, or other arguments, fail. *)
Definition memory_execute (t : epochs) (sql : string) (args : list string) : option (list columns * epochs) :=
  match args with
  | tenant :: namespace :: subject :: extra =>
      let key := (tenant, namespace, subject) in
      if String.eqb sql authoritySelect || String.eqb sql (authoritySelect +:+ " FOR SHARE") then Some (select_sql t key, t)
      else if String.eqb sql authorityInsert then Some (insert_sql t key)
      else if String.eqb sql authorityAdvance then advance_sql t key <$> (head extra ≫= ParseUint)
      else None
  | _ => None
  end.

Definition memory_table (t : epochs) : epochs := if decide (epochs_ok t) then t else ∅.

#[global] Instance memory_queryer : AuthorityQueryer epochs memory_rows := {|
  Query := λ t ctx sql args, mret match memory_execute (memory_table t) sql args with
    | Some (rows, t') => (mkMemoryRows rows None, None, t')
    | None => (mkMemoryRows [] None, Some pgx_ErrNoRows, t)
    end;
  reflect_queryer := λ t, ValueOf Interface false
|}.

#[global] Program Instance memory_cursor_laws : AuthorityCursor memory_rows := {|
  remaining := memory_remaining;
  scanned := memory_scanned;
  failed := λ rows, false;
  faults := False
|}.
Next Obligation.
  intros [[|row l] current] n; apply runs_ret; [right; by left|left]. by exists row.
Qed.
Next Obligation. intros [l current] row n [= ->]. apply runs_ret. by left. Qed.
Next Obligation. intros rows n. apply runs_ret. by left. Qed.
Next Obligation. intros rows n. by apply runs_ret. Qed.

Lemma memory_table_ok t : epochs_ok t → memory_table t = t.
Proof. intros Ht. unfold memory_table. by rewrite decide_True. Qed.

Lemma memory_contents_ok t : epochs_ok (memory_table t).
Proof. unfold memory_table. case_decide; [done|]. by intros key v Hv. Qed.

Lemma memory_insert_ok t key v : epochs_ok t → 1 ≤ v ≤ max_uint64 → epochs_ok (<[key := v]> t).
Proof. intros Ht Hv. by apply map_Forall_insert_2. Qed.

Lemma memory_runs (t : epochs) (sql : string) (args : list string) (effect : list columns * epochs)
    (ctx : Context) (n : nat) (P : memory_rows * option error * epochs → nat → Prop) :
  memory_execute (memory_table t) sql args = Some effect → P (mkMemoryRows effect.1 None, None, effect.2) n →
  runs n (Query t ctx sql args) P.
Proof. intros E HP. apply runs_ret. rewrite E. by destruct effect. Qed.

Lemma insert_sql_ok t key : epochs_ok t → epochs_ok (insert_sql t key).2.
Proof. intros Ht. unfold insert_sql. case_match; [done|]. by apply memory_insert_ok. Qed.

Lemma advance_sql_ok t key expected : 0 ≤ expected < max_uint64 → epochs_ok t → epochs_ok (advance_sql t key expected).2.
Proof.
  intros Hlt Ht. unfold advance_sql. case_match; [|done]. destruct (Z.eqb_spec z expected); [|done].
  apply memory_insert_ok; [done|lia].
Qed.

Lemma memory_execute_advance t scope expected :
  0 ≤ expected < max_uint64 →
  memory_execute t authorityAdvance (scope_ids scope ++ [FormatUint expected]) =
  Some (advance_sql t (scope_key scope) expected).
Proof. intros Hlt. unfold memory_execute. simpl. by rewrite ParseUint_Format_uint64 by (split; lia). Qed.

#[global] Program Instance memory_database : AuthorityDatabase epochs memory_rows := {|
  contents := memory_table
|}.
Next Obligation. apply memory_contents_ok. Qed.
Next Obligation.
  intros t scope ctx n. eapply memory_runs; [done|]. split_and!; [done..|]. left. apply memory_table_ok, memory_contents_ok.
Qed.
Next Obligation.
  intros t scope ctx n. eapply memory_runs; [done|]. split_and!; [done..|]. left. apply memory_table_ok, memory_contents_ok.
Qed.
Next Obligation.
  intros t scope ctx n. eapply memory_runs; [done|]. split_and!; [done..|]. left.
  apply memory_table_ok, insert_sql_ok, memory_contents_ok.
Qed.
Next Obligation.
  intros t scope expected Hlt ctx n. eapply memory_runs; [by apply memory_execute_advance|]. split_and!; [done..|]. left.
  by apply memory_table_ok, advance_sql_ok, memory_contents_ok.
Qed.

#[global] Instance memory_returns : HandlesReturn epochs memory_rows.
Proof.
  split; intros; apply runs_ret; exact I.
Qed.

#[global] Instance background_errors : ContextErrors context_Background.
Proof. by intros n e E. Qed.

(** A table where the epoch of alice is 4. *)
Definition alice_epochs : epochs := {[ scope_key alice_scope := 4 ]}.

(** The cursor over the table of alice holds her row, with the text of epoch 4. *)
Lemma authorityQuery_fails_closed_witness :
  acceptable alice_epochs alice_scope time_Minute ∧
  runs 0 (authorityQuery (H := plain_runtime) (Some context_Background) alice_epochs alice_scope time_Minute authoritySelect
    ErrAuthorityDenied []) (λ '(r, _) _, r = Ok (mkAuthorityRecord alice_scope 4)).
Proof.
  assert (acceptable alice_epochs alice_scope time_Minute) as Hacc.
  { apply admitted_acceptable. vm_compute. reflexivity. }
  split; [exact Hacc|].
  destruct (authorityQuery_fails_closed (H := plain_runtime) context_Background alice_epochs
    alice_scope time_Minute authoritySelect ErrAuthorityDenied [] 0) as (_ & _ & Hq).
  eapply runs_mono; [exact (Hq Hacc)|]. intros [r q] k [_ Hr]. eapply Hr.
  - intros m. reflexivity.
  - vm_compute. reflexivity.
  - split; [discriminate|]. intros kind. simpl. intros [= <-].
  - unfold max_uint64. lia.
  - eexists _, _, _, _, _, _. split_and!; vm_compute; reflexivity.
Defined.
(** C8. The authority operations implement one epoch register per scope: each
    returns with the result of [epoch_step] on the epoch of its scope, and
    the table then holds that step's epoch there and is otherwise unchanged;
    or, after a fault of the database or an interruption by the context or
    the time limit, it reports that it is unavailable, with or without the
    step. Without faults and interruptions only the first can happen. *)
Theorem authority_refines_epochs `{GoRuntime, AuthorityCursor R, !AuthorityQueryer Q R, !AuthorityDatabase Q R}
    (op : operation) (ctx : Context) `{!ContextErrors ctx} (q : Q) (scope : AuthorityScope) (duration : Z) (n : nat) :
  admitted q scope duration = true → op_ok op →
  runs n (perform op ctx q scope duration) (λ '(r, q') _,
    (r = (epoch_step op (contents q !! scope_key scope)).1 ∧ contents q' = step_table op (contents q) scope) ∨
    ((∃ e, r = Err e ∧ unavailable e) ∧ (faults ∨ interrupted ctx duration n) ∧
     contents q' ∈ [contents q; step_table op (contents q) scope])).
Proof. intros Had Hop. by apply perform_refined. Qed.

Lemma not_interrupted duration n : 0 < duration → ¬ interrupted (H := plain_runtime) context_Background duration n.
Proof. intros Hd (k & [[e ?]|Hk]); [done|]. simpl in Hk. lia. Qed.

Lemma authority_refines_epochs_witness :
  runs 0 (perform (H := plain_runtime) (OpAdvance 4) context_Background alice_epochs alice_scope time_Minute)
    (λ '(r, q') _, r = Ok 5 ∧ memory_table q' !! scope_key alice_scope = Some 5).
Proof.
  eapply runs_mono; [apply (authority_refines_epochs (H := plain_runtime) (OpAdvance 4) context_Background alice_epochs
    alice_scope time_Minute 0)|].
  - vm_compute. reflexivity.
  - split; [lia|unfold max_uint64; lia].
  - intros [r q'] k [[-> Hq]|(_ & [[]|Hi] & _)].
    + split; [vm_compute; reflexivity|]. simpl in Hq. rewrite Hq. vm_compute. reflexivity.
    + exfalso. revert Hi. apply not_interrupted. unfold time_Minute. lia.
Defined.

(** C6. Revocation is permanent: once an epoch was advanced past [expected],
    no sequence of operations, of any transactions, scopes and outcomes,
    makes [RequireAuthority] admit [expected] or an earlier epoch of that
    scope again, nor lets [InitializeAuthority] bootstrap it again. *)
Theorem revocation_is_permanent `{GoRuntime, AuthorityCursor R, !AuthorityQueryer Q R, !AuthorityDatabase Q R}
    (ctx ctx' : Context) `{!ContextErrors ctx, !ContextErrors ctx'} (q q1 q2 : Q) (scope : AuthorityScope)
    (expected stale duration duration' : Z) (record : AuthorityRecord) (n n1 n2 : nat) :
  admitted q scope duration = true → admitted q2 scope duration' = true → in_uint64 expected →
  AdvanceAuthority (Some ctx) q scope expected duration n = (Ret (Ok record, q1), n1) →
  history q1 q2 → 0 ≤ stale ≤ expected →
  Version record = expected + 1 ∧
  runs n2 (RequireAuthority (Some ctx') q2 scope stale duration') (λ '(err, _) _, is_Some err) ∧
  runs n2 (InitializeAuthority (Some ctx') q2 scope duration') (λ '(r, _) _, is_Ok r = false).
Proof.
  intros Had Had' Hexp Eadv Hhist Hstale.
  assert (perform (OpAdvance expected) ctx q scope duration n = (Ret (Ok (Version record), q1), n1)) as Ep.
  { simpl. by rewrite (M_bind_Ret _ _ _ _ _ Eadv). }
  destruct (perform_Ok (OpAdvance expected) _ _ _ _ _ _ _ _ Had Hexp Ep) as [Es Ht].
  assert (contents q1 !! scope_key scope = Some (expected + 1) ∧ Version record = expected + 1) as [Hq1 Hver].
  { rewrite Ht. unfold step_table. rewrite lookup_partial_alter_eq. revert Es. simpl. destruct (_ =? 0); [done|].
    destruct (_ =? max_uint64); [done|]. case_bool_decide; [|done]. by intros [= <-]. }
  pose proof (history_le q1 q2 (scope_key scope) Hhist) as Hle. rewrite Hq1 in Hle. destruct Hle as (v & Hv & Hge).
  split; [done|]. split.
  - destruct (past_epoch_refused ctx' q2 scope duration' n2 v (OpRequire stale) Had') as ([r q'] & k & E & Hr).
    + destruct Hexp. split; lia.
    + done.
    + right. exists stale. split; [done|lia].
    + simpl in E. apply M_bind_inv in E as ([err q3] & k1 & E1 & E2). eexists _, _. split; [exact E1|].
      destruct err; [by eexists|]. injection E2 as <- _ _. done.
  - destruct (past_epoch_refused ctx' q2 scope duration' n2 v OpInitialize Had') as ([r q'] & k & E & Hr); [done..|by left|].
    simpl in E. apply M_bind_inv in E as ([r1 q3] & k1 & E1 & E2). eexists _, _. split; [exact E1|].
    injection E2 as <- _ _. by destruct r1.
Qed.

(** Alice's epoch advances from 4 to 5; a session bound to epoch 4 is then
    refused. *)
Lemma revocation_is_permanent_witness :
  runs 9 (RequireAuthority (H := plain_runtime) (Some context_Background) (<[scope_key alice_scope := 5]> alice_epochs)
    alice_scope 4 time_Minute) (λ '(err, _) _, is_Some err).
Proof.
  apply (revocation_is_permanent (H := plain_runtime) context_Background context_Background alice_epochs
    (<[scope_key alice_scope := 5]> alice_epochs) (<[scope_key alice_scope := 5]> alice_epochs)
    alice_scope 4 4 time_Minute time_Minute (mkAuthorityRecord alice_scope 5) 0 3 9).
  - match goal with |- _ = ?r => vm_cast_no_check (eq_refl r) end.
  - match goal with |- _ = ?r => vm_cast_no_check (eq_refl r) end.
  - split; [lia|unfold max_uint64; lia].
  - match goal with |- _ = ?r => vm_cast_no_check (eq_refl r) end.
  - constructor.
  - lia.
Defined.
End authority.
