(* ===== verification/AuthorityLocks.v ===== *)
(** * Concurrent transactions on the authority epochs (postgres/authority.go)

    The authority operations run inside transactions that other callers own.
    [RequireAuthority] takes a share lock that is kept until its owner commits
    or aborts, and [AdvanceAuthority] needs the row for itself, so that a
    revocation cannot commit between an admission and the commit of the work
    it protects. The class [RowLocks] states PostgreSQL's row locks for the
    statements of the source, [step] interleaves transactions whose owners
    abort on every error, and the theorem shows that the committed ones behave
    as if they had run one after the other in the order of their commits. *)

From S2P Require Import Prelude Strconv GoStrings Digest Attribute Request Decision Snapshot Engine Instrumentation.
From S2P Require Import DecisionService JSON Documents Manifest Store Authority.

#[local] Open Scope Z_scope.

Module authority_locks.
Import authority.

Abbreviation key := (string * string * string)%type.

(** ** Row locks *)

Inductive lock_mode := ForShare | ForUpdate.

#[global] Instance lock_mode_eq_dec : EqDecision lock_mode.
Proof. solve_decision. Defined.

Abbreviation locks := (gmap key lock_mode).

(** [held] locks at least what [l] does. *)
Definition keeps (l held : locks) : Prop :=
  ∀ k m, l !! k = Some m → ∃ m', held !! k = Some m' ∧ (m = ForUpdate → m' = ForUpdate).

(** Locks of two transactions on one row are both share locks. *)
Definition compatible (l1 l2 : locks) : Prop :=
  ∀ k m1 m2, l1 !! k = Some m1 → l2 !! k = Some m2 → m1 = ForShare ∧ m2 = ForShare.

(** What PostgreSQL documents of row locks, for the handle of a transaction:
    locks are kept until its end, [FOR SHARE] locks the rows it returns, and
    the rows a statement writes are locked for update. *)
Class RowLocks (Q R : Type) `{AuthorityDatabase Q R} := {
  held : Q → locks;
  Query_keeps : ∀ q ctx sql args n rows err q' n',
    Query q ctx sql args n = (Ret (rows, err, q'), n') → keeps (held q) (held q');
  Query_writes : ∀ q ctx sql args n rows err q' n' k,
    Query q ctx sql args n = (Ret (rows, err, q'), n') → contents q' !! k ≠ contents q !! k →
    held q' !! k = Some ForUpdate;
  Query_share : ∀ q ctx scope n rows q' n',
    Query q ctx (authoritySelect +:+ " FOR SHARE") (scope_ids scope) n = (Ret (rows, None, q'), n') →
    is_Some (contents q !! scope_key scope) → is_Some (held q' !! scope_key scope)
}.

#[global] Instance keeps_preorder : PreOrder keeps.
Proof.
  split; [intros l k m E; by exists m|]. intros l1 l2 l3 H12 H23 k m E.
  destruct (H12 _ _ E) as (m2 & E2 & Hm2). destruct (H23 _ _ E2) as (m3 & E3 & Hm3). exists m3. auto.
Qed.

(** ** The handle after an operation *)

Section handles.
Context `{GoRuntime, AuthorityCursor R, !AuthorityQueryer Q R, !AuthorityDatabase Q R, !RowLocks Q R}.

(** A query leaves its handle alone, or is one statement on it. *)
Lemma authorityQuery_handle ctx (q : Q) scope duration sql missing extra n r q' n' :
  authorityQuery (Some ctx) q scope duration sql missing extra n = (Ret (r, q'), n') →
  (q' = q ∧ is_Ok r = false) ∨
  ∃ bounded n1 rows err n2, Query q bounded sql (scope_ids scope ++ extra) n1 = (Ret (rows, err, q'), n2) ∧
    (is_Ok r = true → err = None).
Proof.
  simpl. destruct (_ || _); [intros [= <- <- _]; by left|]. intros E.
  apply M_bind_inv in E as (bounded & n1 & _ & E). apply M_bind_inv in E as (err & n2 & _ & E).
  destruct err as [err|]; [injection E as <- <- _; by left|].
  apply M_bind_inv in E as ([[rows err] q1] & n3 & Eq & E). destruct err as [err|].
  - apply M_bind_inv in E as (failure & n4 & _ & E). injection E as <- <- _. right. by exists bounded, n2, rows, (Some err), n3.
  - right. destruct (nilRows rows); [injection E as <- <- _|apply M_bind_inv in E as (r1 & n4 & _ & E); injection E as <- <- _];
      by exists bounded, n2, rows, None, n3.
Qed.

(** What the statement of a successful operation locked. *)
Definition op_sql (op : operation) : string :=
  match op with
  | OpInitialize => authorityInsert
  | OpAdvance _ => authorityAdvance
  | OpRequire _ => authoritySelect +:+ " FOR SHARE"
  | OpGet => authoritySelect
  end.

Definition op_args (op : operation) : list string :=
  match op with OpAdvance expected => [FormatUint expected] | _ => [] end.

Lemma perform_handle op ctx (q : Q) scope duration n r q' n' :
  perform op ctx q scope duration n = (Ret (r, q'), n') →
  (q' = q ∧ is_Ok r = false) ∨
  ∃ bounded n1 rows err n2, Query q bounded (op_sql op) (scope_ids scope ++ op_args op) n1 = (Ret (rows, err, q'), n2) ∧
    (is_Ok r = true → err = None).
Proof.
  destruct op as [|expected|expected|]; simpl; intros E; apply M_bind_inv in E as ([r1 q1] & n1 & E & Er).
  - apply authorityQuery_handle in E. injection Er as <- <- _. by destruct r1.
  - injection Er as <- <- _. revert E. unfold AdvanceAuthority.
    destruct (_ =? 0); [intros [= <- <- _]; by left|]. destruct (_ =? max_uint64); [intros [= <- <- _]; by left|].
    intros E%authorityQuery_handle. by destruct r1.
  - injection Er as <- <- _. revert E. unfold RequireAuthority. destruct (_ =? 0); [intros [= <- <- _]; by left|].
    intros E. apply M_bind_inv in E as ([r2 q2] & n2 & E%authorityQuery_handle & Er).
    destruct r2 as [record|e]; [|by injection Er as <- <- _].
    assert (q2 = q1) as -> by (by destruct (negb _); injection Er as _ <- _).
    destruct E as [[_ ?]|(bounded & k1 & rows & err & k2 & EQ & Hok)]; [done|right].
    exists bounded, k1, rows, err, k2. split; [done|]. intros _. by apply Hok.
  - apply M_bind_inv in E as ([r2 q2] & n2 & E%authorityQuery_handle & Ep). injection Ep as <- <- _. injection Er as <- <- _.
    by destruct r2.
Qed.
(** An operation that succeeded holds its row, and the rows it changed for
    update. *)
Lemma perform_locks op ctx `{!ContextErrors ctx} (q : Q) scope duration n v q' n' :
  admitted q scope duration = true → op_ok op → op ≠ OpGet →
  perform op ctx q scope duration n = (Ret (Ok v, q'), n') →
  keeps (held q) (held q') ∧ is_Some (held q' !! scope_key scope) ∧
  (∀ k, contents q' !! k ≠ contents q !! k → held q' !! k = Some ForUpdate).
Proof.
  intros Had Hop Hget E. destruct (perform_handle _ _ _ _ _ _ _ _ _ E) as [[_ ?]|(bounded & n1 & rows & err & n2 & EQ & Herr)];
    [done|]. rewrite (Herr eq_refl) in EQ. split; [by eapply Query_keeps|].
  assert (∀ k, contents q' !! k ≠ contents q !! k → held q' !! k = Some ForUpdate) as Hw
    by (intros k; by eapply Query_writes). split; [|done].
  destruct (perform_Ok _ _ _ _ _ _ _ _ _ Had Hop E) as [Es Et].
  destruct (decide (contents q' !! scope_key scope = contents q !! scope_key scope)) as [Esame|?];
    [|rewrite Hw by done; by eexists].
  rewrite Et in Esame. unfold step_table in Esame. rewrite lookup_partial_alter_eq in Esame.
  destruct (contents q !! scope_key scope) as [current|] eqn:Ec.
  - destruct op as [|expected|expected|]; simpl in Es, Esame; [done| | |done].
    + destruct (_ =? 0); [done|]. destruct (_ =? max_uint64); [done|]. case_bool_decide; [|done]. simplify_eq/=. lia.
    + eapply Query_share; [exact EQ|]. rewrite Ec. by eexists.
  - destruct op as [|expected|expected|]; simpl in Es, Esame; [done| | |done].
    + destruct (_ =? 0); [done|]. by destruct (_ =? max_uint64).
    + by destruct (_ =? 0).
Qed.
End handles.

(** ** Transactions

    A session is an open transaction: the rows it wrote, its locks, the
    operations that succeeded with their results, and whether none failed. *)
Record entry := mkEntry { entry_op : operation; entry_scope : AuthorityScope; entry_version : Z }.

Definition entry_key (e : entry) : key := scope_key (entry_scope e).

Record session := mkSession { written : epochs; locked : locks; log : list entry; clean : bool }.

(** The committed table, the open transactions, and the operations of the
    committed transactions in the order of the commits. *)
Record system := mkSystem { table : epochs; sessions : gmap nat session; commits : list (list entry) }.

Definition initial (t : epochs) : system := mkSystem t ∅ [].

(** The rows of [t'] that are not rows of [t]. *)
Definition changes (t t' : epochs) : epochs := filter (λ '(k, v), t !! k ≠ Some v) t'.

Section transactions.
Context `{GoRuntime, AuthorityCursor R, !AuthorityQueryer Q R, !AuthorityDatabase Q R, !RowLocks Q R}.

Definition after (s : session) (op : operation) (scope : AuthorityScope) (r : result Z) (q q' : Q) : session := {|
  written := changes (contents q) (contents q') ∪ written s;
  locked := held q';
  log := match r with Ok v => log s ++ [mkEntry op scope v] | Err _ => log s end;
  clean := clean s && is_Ok r
|}.

(** A statement sees the committed rows and those of its transaction, and
    waits while a lock it needs conflicts with a lock of another one. Owners
    commit only transactions in which every operation succeeded. *)
Inductive step : system → system → Prop :=
| step_begin st T :
    sessions st !! T = None →
    step st (mkSystem (table st) (<[T := mkSession ∅ ∅ [] true]> (sessions st)) (commits st))
| step_statement st T s op scope ctx duration n q r q' n' :
    sessions st !! T = Some s → ContextErrors ctx → admitted q scope duration = true → op_ok op → op ≠ OpGet →
    contents q = written s ∪ table st → held q = locked s →
    perform op ctx q scope duration n = (Ret (r, q'), n') →
    (∀ U u, U ≠ T → sessions st !! U = Some u → compatible (held q') (locked u)) →
    step st (mkSystem (table st) (<[T := after s op scope r q q']> (sessions st)) (commits st))
| step_commit st T s :
    sessions st !! T = Some s → clean s = true →
    step st (mkSystem (written s ∪ table st) (delete T (sessions st)) (commits st ++ [log s]))
| step_abort st T :
    step st (mkSystem (table st) (delete T (sessions st)) (commits st)).

(** ** Serial runs *)

(** The operations one after the other, with the results they had. *)
Fixpoint serial (t : epochs) (l : list entry) : option epochs :=
  match l with
  | [] => Some t
  | e :: l =>
      match (epoch_step (entry_op e) (t !! entry_key e)).1 with
      | Ok v => if v =? entry_version e then serial (step_table (entry_op e) t (entry_scope e)) l else None
      | Err _ => None
      end
  end.

Lemma serial_app t l1 l2 : serial t (l1 ++ l2) = serial t l1 ≫= λ t', serial t' l2.
Proof.
  revert t. induction l1 as [|e l1 IH]; intros t; simpl; [done|]. destruct (epoch_step _ _).1; [|done].
  by destruct (_ =? _).
Qed.

Lemma step_table_lookup op t scope k :
  step_table op t scope !! k = if decide (k = scope_key scope) then (epoch_step op (t !! k)).2 else t !! k.
Proof.
  unfold step_table. case_decide as E; [subst; by rewrite lookup_partial_alter_eq|by rewrite lookup_partial_alter_ne].
Qed.

(** A run depends on the rows of its operations, and leaves the others. *)
Lemma serial_local l t1 t2 t1' :
  serial t1 l = Some t1' → (∀ e, e ∈ l → t1 !! entry_key e = t2 !! entry_key e) →
  ∃ t2', serial t2 l = Some t2' ∧
    ∀ k, (t1 !! k = t2 !! k → t2' !! k = t1' !! k) ∧ (t1 !! k ≠ t2 !! k → t2' !! k = t2 !! k).
Proof.
  revert t1 t2. induction l as [|e l IH]; intros t1 t2; simpl.
  { intros [= <-] _. exists t2. split; [done|]. intros k. split; congruence. }
  intros E Hagree. rewrite <- Hagree by set_solver. destruct (epoch_step _ _).1 as [v|]; [|done].
  destruct (v =? _); [|done]. destruct (IH _ (step_table (entry_op e) t2 (entry_scope e)) E) as (t2' & E2 & Hk).
  { intros e' He'. rewrite !step_table_lookup, Hagree by set_solver. done. }
  exists t2'. split; [done|]. intros k. destruct (Hk k) as [Hsame Hdiff].
  rewrite !step_table_lookup in Hsame, Hdiff. case_decide as Ek.
  - subst k. pose proof (Hagree e ltac:(set_solver)) as Ee. unfold entry_key in Ee.
    split; [intros _; apply Hsame; by rewrite Ee|done].
  - done.
Qed.

Lemma serial_frame l w t1 t2 :
  serial t1 l = Some (w ∪ t1) → (∀ e, e ∈ l → t1 !! entry_key e = t2 !! entry_key e) →
  (∀ k, is_Some (w !! k) → t1 !! k = t2 !! k) → serial t2 l = Some (w ∪ t2).
Proof.
  intros E Hl Hw. destruct (serial_local _ _ t2 _ E Hl) as (t2' & -> & Hk). f_equal. apply map_eq. intros k.
  destruct (Hk k) as [Hsame Hdiff]. destruct (decide (t1 !! k = t2 !! k)) as [Ek|Ek].
  - rewrite Hsame by done. by rewrite !lookup_union, Ek.
  - rewrite Hdiff by done. destruct (w !! k) eqn:Ew; [by destruct Ek; apply Hw; rewrite Ew; eexists|].
    by rewrite lookup_union_r.
Qed.
(** ** The invariant *)

Definition writes (op : operation) : bool :=
  match op with OpInitialize | OpAdvance _ => true | OpRequire _ | OpGet => false end.

(** A transaction without failures could run now, on the committed table, with
    the results it had; it holds the rows of its operations. *)
Record session_valid (t : epochs) (s : session) : Prop := {
  valid_log : serial t (log s) = Some (written s ∪ t);
  valid_written : ∀ k, is_Some (written s !! k) → locked s !! k = Some ForUpdate;
  valid_locked : ∀ e, e ∈ log s →
    ∃ m, locked s !! entry_key e = Some m ∧ (writes (entry_op e) = true → m = ForUpdate)
}.

Record valid (t : epochs) (st : system) : Prop := {
  valid_commits : serial t (concat (commits st)) = Some (table st);
  valid_sessions : ∀ T s, sessions st !! T = Some s → clean s = true → session_valid (table st) s;
  valid_compatible : ∀ T U s u, T ≠ U → sessions st !! T = Some s → sessions st !! U = Some u →
    compatible (locked s) (locked u)
}.

Lemma changes_union t t' : (∀ k, option_le (t !! k) (t' !! k)) → changes t t' ∪ t = t'.
Proof.
  intros Hle. apply map_eq. intros k. specialize (Hle k). unfold changes.
  destruct (t' !! k) as [v|] eqn:E.
  - destruct (decide (t !! k = Some v)) as [Et|Et].
    + rewrite lookup_union_r; [done|]. apply map_lookup_filter_None. right. intros v' E' Hne. congruence.
    + apply lookup_union_Some_l, map_lookup_filter_Some. done.
  - destruct (t !! k) as [v|] eqn:Et; [by destruct Hle as (? & ? & _)|].
    rewrite lookup_union_r; [done|]. apply map_lookup_filter_None. by left.
Qed.

Lemma changes_lookup t t' k : is_Some (changes t t' !! k) → t' !! k ≠ t !! k.
Proof. intros [v (Ev & Hne)%map_lookup_filter_Some]. congruence. Qed.

Lemma compatible_sym l1 l2 : compatible l1 l2 → compatible l2 l1.
Proof. intros Hc k m1 m2 E1 E2. by destruct (Hc _ _ _ E2 E1). Qed.

Lemma compatible_empty l : compatible l ∅.
Proof. intros k m1 m2 _ E. by rewrite lookup_empty in E. Qed.

(** Operations that write change the row of their scope. *)
Lemma writing_changes op t scope v :
  writes op = true → (epoch_step op (t !! scope_key scope)).1 = Ok v →
  step_table op t scope !! scope_key scope ≠ t !! scope_key scope.
Proof.
  rewrite step_table_lookup, decide_True by done. destruct op as [|expected|expected|]; simpl; [|..|done]; intros Hw.
  - by destruct (t !! _).
  - destruct (_ =? 0); [done|]. destruct (_ =? max_uint64); [done|]. case_bool_decide as E; [|done].
    rewrite E. simpl. intros _ [= ?]. lia.
  - done.
Qed.

Lemma statement_valid t s op scope ctx duration n q v q' n' :
  session_valid t s → ContextErrors ctx → admitted q scope duration = true → op_ok op → op ≠ OpGet →
  contents q = written s ∪ t → held q = locked s → perform op ctx q scope duration n = (Ret (Ok v, q'), n') →
  session_valid t (after s op scope (Ok v) q q').
Proof.
  intros [Hlog Hwritten Hlocked] Hctx Had Hop Hget Hc Hh E.
  destruct (perform_locks _ _ _ _ _ _ _ _ _ Had Hop Hget E) as (Hkeeps & [m Hm] & Hch).
  destruct (perform_Ok _ _ _ _ _ _ _ _ _ Had Hop E) as [Es Et]. rewrite Hh in Hkeeps. split; simpl.
  - rewrite serial_app, Hlog. simpl. change (entry_key _) with (scope_key scope). rewrite <- (assoc_L (∪)), <- Hc, Es. rewrite Z.eqb_refl. f_equal.
    rewrite changes_union; [done|]. intros k. rewrite Et. apply step_table_le.
  - intros k Hk. apply lookup_union_is_Some in Hk as [Hk|Hk]; [by apply Hch, changes_lookup|].
    destruct (Hkeeps _ _ (Hwritten k Hk)) as (m' & -> & Hm'). by rewrite Hm'.
  - intros e [He|He]%elem_of_app.
    + destruct (Hlocked e He) as (m1 & E1 & Hm1). destruct (Hkeeps _ _ E1) as (m2 & E2 & Hm2). exists m2. auto.
    + apply list_elem_of_singleton in He as ->. exists m. split; [done|]. simpl. intros Hw.
      assert (contents q' !! scope_key scope ≠ contents q !! scope_key scope) as Hne%Hch.
      { rewrite Et. by apply (writing_changes op (contents q) scope v). }
      congruence.
Qed.

(** A commit changes no row that another transaction holds. *)
Lemma commit_valid t s u :
  session_valid t s → session_valid t u → compatible (locked s) (locked u) → session_valid (written s ∪ t) u.
Proof.
  intros Hs Hu Hc. split; [|apply Hu..].
  assert (∀ k m, locked u !! k = Some m → t !! k = (written s ∪ t) !! k) as Hrow.
  { intros k m Em. symmetry. apply lookup_union_r. destruct (written s !! k) eqn:Ew; [|done].
    destruct (Hc k ForUpdate m) as [? _]; [|done..]. apply (valid_written _ _ Hs). by eexists. }
  apply (serial_frame _ _ t); [apply Hu|..].
  - intros e He. destruct (valid_locked _ _ Hu e He) as (m & Em & _). by eapply Hrow.
  - intros k Hk. eapply Hrow. by apply (valid_written _ _ Hu).
Qed.

Lemma lookup_insert_cases {A} (m : gmap nat A) (T U : nat) (a b : A) :
  <[T := a]> m !! U = Some b → (U = T ∧ b = a) ∨ (U ≠ T ∧ m !! U = Some b).
Proof. intros [[-> ->]|[? ?]]%lookup_insert_Some; auto. Qed.

Lemma step_valid t st st' : valid t st → step st st' → valid t st'.
Proof.
  intros [Hcommits Hsessions Hcomp]. destruct 1 as
    [st T HT|st T s op scope ctx duration n q r q' n' HT Hctx Had Hop Hget Hc Hh E Hwait|st T s HT Hclean|st T]; split; simpl.
  - done.
  - intros U u [[-> ->]|[? ?]]%lookup_insert_cases; [|by eauto]. intros _.
    split; simpl; [by rewrite (left_id_L ∅ _)| |]; [intros k [v Hv]; by rewrite lookup_empty in Hv|intros e; set_solver].
  - intros U V u v Hne [[-> ->]|[? EU]]%lookup_insert_cases [[-> ->]|[? EV]]%lookup_insert_cases; [done| | |by eauto];
      intros k m1 m2; simpl; by rewrite lookup_empty.
  - done.
  - intros U u [[-> ->]|[? ?]]%lookup_insert_cases; [|by eauto]. simpl. intros [Hclean Hr]%andb_prop.
    destruct r as [v|]; [|done]. by eapply statement_valid; eauto.
  - intros U V u v Hne [[-> ->]|[? EU]]%lookup_insert_cases [[-> ->]|[? EV]]%lookup_insert_cases; [done| | |by eauto]; simpl.
    + by eapply Hwait.
    + apply compatible_sym. by eapply Hwait.
  - rewrite concat_app, serial_app, Hcommits. simpl. rewrite app_nil_r.
    by apply valid_log, (Hsessions T).
  - intros U u [Hne EU]%lookup_delete_Some Hu. apply commit_valid; eauto.
  - intros U V u v Hne [? EU]%lookup_delete_Some [? EV]%lookup_delete_Some. eauto.
  - done.
  - intros U u [Hne EU]%lookup_delete_Some Hu. eauto.
  - intros U V u v Hne [? EU]%lookup_delete_Some [? EV]%lookup_delete_Some. eauto.
Qed.

Lemma reachable_valid t st : rtc step (initial t) st → valid t st.
Proof.
  intros Hr. assert (valid t (initial t)) as Hi.
  { split; [done|..]; intros T *; [intros HT|intros ? HT]; cbn in HT; by rewrite lookup_empty in HT. }
  revert Hi. induction Hr as [|st1 st2 st3 Hs _ IH]; [done|]. intros Hv. by apply IH, (step_valid _ st1).
Qed.
End transactions.

(** C7. Authority transactions are serializable in the order of their commits,
    and admissions hold until the commit of the work they protect. However
    transactions are interleaved, with whatever faults, waits and aborts:
    - the committed table is what the committed operations give when their
      transactions run one after the other in the order of the commits, and
      every operation then returns what it returned;
    - the operations of an open transaction without failures, in particular
      the epochs that [RequireAuthority] admitted, still give the same results
      on the table as it is committed now;
    - two open transactions without failures share a scope only if both merely
      required it: no advance succeeds while another one relies on the epoch. *)
Theorem authority_serializable
    `{GoRuntime, AuthorityCursor R, !AuthorityQueryer Q R, !AuthorityDatabase Q R, !RowLocks Q R}
    (t : epochs) (st : system) :
  rtc step (initial t) st →
  serial t (concat (commits st)) = Some (table st) ∧
  (∀ T s, sessions st !! T = Some s → clean s = true → serial (table st) (log s) = Some (written s ∪ table st)) ∧
  (∀ T U s u e f, T ≠ U → sessions st !! T = Some s → sessions st !! U = Some u → clean s = true → clean u = true →
     e ∈ log s → f ∈ log u → entry_key e = entry_key f → writes (entry_op e) = false).
Proof.
  intros [Hcommits Hsessions Hcomp]%reachable_valid. split; [done|]. split; [intros T s HT Hs; by apply (Hsessions T)|].
  intros T U s u e f Hne HT HU Hs Hu He Hf Ek.
  destruct (valid_locked _ _ (Hsessions T s HT Hs) e He) as (m & Em & Hm).
  destruct (valid_locked _ _ (Hsessions U u HU Hu) f Hf) as (m' & Em' & _). rewrite <- Ek in Em'.
  destruct (Hcomp T U s u Hne HT HU _ _ _ Em Em') as [-> _]. destruct (writes (entry_op e)); [|done]. by discriminate Hm.
Qed.
(** ** A database with row locks in memory *)

Record handle := mkHandle { handle_table : epochs; handle_locks : locks }.

Definition for_share (sql : string) (args : list string) (t : epochs) : locks :=
  match args with
  | tenant :: namespace :: subject :: _ =>
      match t !! (tenant, namespace, subject) with
      | Some _ => if String.eqb sql (authoritySelect +:+ " FOR SHARE") then {[ (tenant, namespace, subject) := ForShare ]} else ∅
      | None => ∅
      end
  | _ => ∅
  end.

Lemma for_share_locks scope t v :
  t !! scope_key scope = Some v →
  for_share (authoritySelect +:+ " FOR SHARE") (scope_ids scope) t = {[ scope_key scope := ForShare ]}.
Proof. unfold scope_key, for_share, scope_ids. intros ->. by rewrite String.eqb_refl. Qed.

(** The locks after a statement that leaves the table [t'] behind. *)
Definition acquire (h : handle) (sql : string) (args : list string) (t' : epochs) : locks :=
  let t := memory_table (handle_table h) in
  ((λ _, ForUpdate) <$> changes t t') ∪ (handle_locks h ∪ for_share sql args t).

(** A statement whose result violates the constraints of the table fails. *)
Definition checked_execute (h : handle) (sql : string) (args : list string) : option (list columns * epochs) :=
  effect ← memory_execute (memory_table (handle_table h)) sql args;
  if decide (epochs_ok effect.2) then Some effect else None.

#[global] Instance locking_queryer : AuthorityQueryer handle memory_rows := {|
  Query := λ h ctx sql args, mret match checked_execute h sql args with
    | Some (rows, t') => (mkMemoryRows rows None, None, mkHandle t' (acquire h sql args t'))
    | None => (mkMemoryRows [] None, Some pgx_ErrNoRows, h)
    end;
  reflect_queryer := λ h, ValueOf Pointer false
|}.

Lemma locking_runs (h : handle) (sql : string) (args : list string) (effect : list columns * epochs)
    (ctx : Context) (n : nat) (P : memory_rows * option error * handle → nat → Prop) :
  memory_execute (memory_table (handle_table h)) sql args = Some effect → epochs_ok effect.2 →
  P (mkMemoryRows effect.1 None, None, mkHandle effect.2 (acquire h sql args effect.2)) n →
  runs n (Query h ctx sql args) P.
Proof.
  intros E Hok HP. apply runs_ret. unfold checked_execute. rewrite E. simpl. rewrite decide_True by done. by destruct effect.
Qed.

#[global] Program Instance locking_database : AuthorityDatabase handle memory_rows := {|
  contents := λ h, memory_table (handle_table h)
|}.
Next Obligation. intros h. apply memory_contents_ok. Qed.
Next Obligation.
  intros h scope ctx n. pose proof (memory_contents_ok (handle_table h)). eapply locking_runs; [done..|].
  split_and!; [done..|]. left. by apply memory_table_ok.
Qed.
Next Obligation.
  intros h scope ctx n. pose proof (memory_contents_ok (handle_table h)). eapply locking_runs; [done..|].
  split_and!; [done..|]. left. by apply memory_table_ok.
Qed.
Next Obligation.
  intros h scope ctx n. pose proof (insert_sql_ok _ (scope_key scope) (memory_contents_ok (handle_table h))).
  eapply locking_runs; [done..|]. split_and!; [done..|]. left. by apply memory_table_ok.
Qed.
Next Obligation.
  intros h scope expected Hlt ctx n.
  pose proof (advance_sql_ok _ (scope_key scope) expected Hlt (memory_contents_ok (handle_table h))).
  eapply locking_runs; [by apply memory_execute_advance|done|]. split_and!; [done..|]. left. by apply memory_table_ok.
Qed.

Lemma acquire_keeps h sql args t' : keeps (handle_locks h) (acquire h sql args t').
Proof.
  intros k m E. unfold acquire. destruct (((λ _, ForUpdate) <$> changes (memory_table (handle_table h)) t') !! k) as [m'|] eqn:Em.
  - exists m'. split; [by apply lookup_union_Some_l|]. intros _. by apply lookup_fmap_Some in Em as (? & <- & _).
  - exists m. split; [|done]. rewrite lookup_union_r by done. by apply lookup_union_Some_l.
Qed.

Lemma acquire_written h sql args t' k v :
  t' !! k = Some v → memory_table (handle_table h) !! k ≠ Some v → acquire h sql args t' !! k = Some ForUpdate.
Proof.
  intros Ev Hne. apply lookup_union_Some_l, lookup_fmap_Some. exists v. split; [done|]. by apply map_lookup_filter_Some.
Qed.

(** Every statement keeps the rows of the table. *)
Lemma memory_execute_grows t sql args rows t' k : memory_execute t sql args = Some (rows, t') → is_Some (t !! k) → is_Some (t' !! k).
Proof.
  unfold memory_execute, insert_sql, advance_sql. intros E Hk. destruct args as [|tenant [|namespace [|subject extra]]]; [done..|].
  destruct (_ || _); [by simplify_eq|]. destruct (String.eqb _ _).
  - case_match; simplify_eq; [done|]. by apply lookup_insert_is_Some'; right.
  - destruct (String.eqb _ _); [|done]. apply fmap_Some in E as (v & _ & E). case_match; [|by simplify_eq].
    destruct (_ =? _); simplify_eq; [|done]. by apply lookup_insert_is_Some'; right.
Qed.

Lemma locking_Query (h h' : handle) ctx sql args n n' (rows : memory_rows) err :
  Query h ctx sql args n = (Ret (rows, err, h'), n') →
  h' = h ∨ ∃ t', memory_execute (memory_table (handle_table h)) sql args = Some (memory_remaining rows, t') ∧
    memory_table t' = t' ∧ err = None ∧ h' = mkHandle t' (acquire h sql args t').
Proof.
  simpl. unfold checked_execute. destruct (memory_execute _ _ _) as [[rows' t']|]; simpl; [|intros [= _ _ <- _]; by left].
  case_decide; intros [= <- <- <- _]; [|by left]. right. exists t'. split_and!; [done|by apply memory_table_ok|done..].
Qed.

#[global] Program Instance locking_locks : RowLocks handle memory_rows := {| held := handle_locks |}.
Next Obligation.
  intros h ctx sql args n rows err h' n' [->|(t' & _ & _ & _ & ->)]%locking_Query; [done|]. apply acquire_keeps.
Qed.
Next Obligation.
  intros h ctx sql args n rows err h' n' k [->|(t' & E & Et & _ & ->)]%locking_Query; [done|]. simpl. rewrite Et. intros Hne.
  pose proof (memory_execute_grows _ _ _ _ _ k E) as Hgrows. destruct (t' !! k) as [v|] eqn:Ev.
  - by apply (acquire_written _ _ _ _ _ v).
  - destruct (memory_table (handle_table h) !! k); [|done]. by destruct Hgrows; [eexists|].
Qed.
Next Obligation.
  intros h ctx scope n rows h' n' E [v Hv]. unfold Query in E. simpl in E. unfold checked_execute in E.
  simpl in E. rewrite decide_True in E by apply memory_contents_ok. injection E as _ <- _. simpl.
  unfold acquire. rewrite lookup_union_is_Some. right. rewrite lookup_union_is_Some. right.
  rewrite (for_share_locks scope _ v) by done. rewrite lookup_singleton_eq. by eexists.
Qed.

(** Work that relies on Alice's epoch 4 commits; only then a second
    transaction, open all the while, can advance her epoch. *)
Definition alice_key : key := scope_key alice_scope.
Definition unlocked (t : epochs) : handle := mkHandle t ∅.
Definition admitted_alice : handle := mkHandle alice_epochs {[ alice_key := ForShare ]}.
Definition advanced_alice : handle := mkHandle {[ alice_key := 5 ]} {[ alice_key := ForUpdate ]}.

Definition fresh : session := mkSession ∅ ∅ [] true.
Definition relying : session := after fresh (OpRequire 4) alice_scope (Ok 4) (unlocked alice_epochs) admitted_alice.
Definition advancing : session := after fresh (OpAdvance 4) alice_scope (Ok 5) (unlocked alice_epochs) advanced_alice.

Lemma admits_alice :
  perform (H := plain_runtime) (OpRequire 4) context_Background (unlocked alice_epochs) alice_scope time_Minute 0%nat =
  (Ret (Ok 4, admitted_alice), 3%nat).
Proof. vm_compute. reflexivity. Qed.

Lemma advances_alice :
  perform (H := plain_runtime) (OpAdvance 4) context_Background (unlocked alice_epochs) alice_scope time_Minute 0%nat =
  (Ret (Ok 5, advanced_alice), 3%nat).
Proof. vm_compute. reflexivity. Qed.

Definition one_open : system := mkSystem alice_epochs (<[1%nat := fresh]> ∅) [].
Definition both_open : system := mkSystem alice_epochs (<[2%nat := fresh]> (sessions one_open)) [].
Definition relied : system := mkSystem alice_epochs (<[1%nat := relying]> (sessions both_open)) [].
Definition committed : system :=
  mkSystem (written relying ∪ alice_epochs) (delete 1%nat (sessions relied)) [log relying].
Definition advanced : system := mkSystem (table committed) (<[2%nat := advancing]> (sessions committed)) [log relying].

Lemma both_open_others T s : sessions both_open !! T = Some s → s = fresh.
Proof.
  intros [[_ ->]|[_ E]]%(lookup_insert_cases _ 2%nat); [done|].
  by apply lookup_insert_cases in E as [[_ ->]|[_ E]]; [|rewrite lookup_empty in E].
Qed.

Lemma committed_others T s : T ≠ 2%nat → sessions committed !! T ≠ Some s.
Proof.
  intros HT [H1 E]%(lookup_delete_Some (sessions relied)). simpl in E.
  by rewrite !lookup_insert_ne, lookup_empty in E by congruence.
Qed.

Lemma authority_serializable_witness :
  serial alice_epochs [mkEntry (OpRequire 4) alice_scope 4] = Some alice_epochs ∧
  serial alice_epochs [mkEntry (OpAdvance 4) alice_scope 5] = Some {[ alice_key := 5 ]}.
Proof.
  destruct (authority_serializable (H := plain_runtime) alice_epochs advanced) as (Hcommits & Hsessions & _).
  - apply (rtc_l _ _ one_open); [exact (step_begin (initial alice_epochs) 1%nat eq_refl)|].
    apply (rtc_l _ _ both_open); [exact (step_begin one_open 2%nat eq_refl)|].
    apply (rtc_l _ _ relied).
    { apply (step_statement both_open 1%nat fresh (OpRequire 4) alice_scope context_Background time_Minute 0%nat
        (unlocked alice_epochs) (Ok 4) admitted_alice 3%nat); [done|apply _|done|by split|done|done|done|apply admits_alice|].
      intros U u _ ->%both_open_others. apply compatible_empty. }
    apply (rtc_l _ _ committed); [exact (step_commit relied 1%nat relying eq_refl eq_refl)|]. apply rtc_once.
    apply (step_statement committed 2%nat fresh (OpAdvance 4) alice_scope context_Background time_Minute 0%nat
      (unlocked alice_epochs) (Ok 5) advanced_alice 3%nat); [done|apply _|done|by split|done|done|done|apply advances_alice|].
    intros U u HU Hu. by destruct (committed_others U u HU).
  - split; [exact Hcommits|]. exact (Hsessions 2%nat advancing eq_refl eq_refl).
Defined.
End authority_locks.
