(* ===== verification/Valkey.v ===== *)
(** * Revision invalidation (valkey/invalidator.go)

    Module [valkey] distributes policy revisions as hints. [Publish] runs a
    Lua script that stores the revision and announces it; [Revision] reads
    the stored revision; [Watch] calls a handler with newer revisions. The
    server is a parameter: [publish_script] translates the Lua text of the
    source, and the class [ValkeyLaws] says that a command runs atomically,
    or reports an error, after which it may have run or not. *)

From S2P Require Import Prelude Strconv GoStrings JSON Attribute Request Decision Snapshot Engine Publication Documents.
From S2P Require Import Manifest Synchronizer.

#[local] Open Scope Z_scope.

(** ** The server *)

Record server := mkServer { server_keys : gmap string string; server_published : list (string * string) }.

Inductive command :=
| CmdEval (script : string) (keys args : list string)
| CmdGet (key : string)
| CmdSubscribe (channel : string).

(** [native.Client], as far as it is called: [Do(...).ToInt64()] and
    [Do(...).ToString()]. *)
Record Client := mkClient {
  Do_ToInt64 : Context → command → server → M (result Z * server);
  Do_ToString : Context → command → server → M (result string * server)
}.

(** [native.IsValkeyNil]: the error of a missing key. *)
Class ValkeyModule := IsValkeyNil : error → bool.

(** ** Lua numbers

    [tonumber] of decimal digits is the nearest double, ties to even. *)

Definition lua_round (z : Z) : Z :=
  let unit := 2 ^ Z.max 0 (Z.log2 z - 52) in
  let m := z / unit in
  let rest := 2 * (z `mod` unit) in
  if (rest <? unit) || ((rest =? unit) && Z.even m) then m * unit else (m + 1) * unit.

Class LuaNumbers := {
  number : Type;
  tonumber : string → option number;
  number_ge : number → number → bool;
  tonumber_decimal : ∀ z, in_uint64 z → is_Some (tonumber (FormatUint z));
  number_ge_spec : ∀ y z a b, in_uint64 y → in_uint64 z →
    tonumber (FormatUint y) = Some a → tonumber (FormatUint z) = Some b →
    number_ge a b = (lua_round z <=? lua_round y)
}.

Module valkey.

Definition DefaultPrefix : string := "authorization".
Definition DefaultPollInterval : Z := 30 * 10 ^ 9.

Definition ErrNilClient := errors_New "authorization valkey client is nil".
Definition ErrInvalidPrefix := errors_New "authorization valkey prefix is invalid".
Definition ErrInvalidPollInterval := errors_New "authorization valkey poll interval is invalid".
Definition ErrInvalidRevision := errors_New "authorization valkey revision is invalid".
Definition ErrInvalidResponse := errors_New "authorization valkey response is invalid".
Definition ErrNilHandler := errors_New "authorization valkey handler is nil".

(** The error of a script that compares a value that is not a number. *)
Definition lua_compare_error := errors_New "attempt to compare two nil values".

Definition publishScript : string :=
  String.concat policy.newline
    ["local current = redis.call('GET', KEYS[1])";
     "local next = tonumber(ARGV[2])";
     "if current and tonumber(current) >= next then";
     "    return 0";
     "end";
     "redis.call('SET', KEYS[1], ARGV[2])";
     "redis.call('PUBLISH', ARGV[1], ARGV[2])";
     "return 1"].

Definition publish_script `{LuaNumbers} (key channel encoded : string) (s : server) : result Z * server :=
  let current := server_keys s !! key in
  let next := tonumber encoded in
  let store := mkServer (<[key := encoded]> (server_keys s)) (server_published s ++ [(channel, encoded)]) in
  match current with
  | None => (Ok 1, store)
  | Some current =>
      match tonumber current, next with
      | Some c, Some next => if number_ge c next then (Ok 0, s) else (Ok 1, store)
      | _, _ => (Err lua_compare_error, s)
      end
  end.

(** ** Operations *)

Record Options := mkOptions { Prefix : string; PollInterval : Z }.

Record Invalidator := mkInvalidator {
  inv_client : Client;
  inv_key : string;
  inv_channel : string;
  inv_pollInterval : Z
}.

Definition New (client : option Client) (options : Options) : result Invalidator :=
  match client with
  | None => Err ErrNilClient
  | Some client =>
    let prefix := if String.eqb (Prefix options) "" then DefaultPrefix else Prefix options in
    if String.eqb (bytes_TrimSpace prefix) "" then Err ErrInvalidPrefix
    else if cmp_Compare_int (PollInterval options) 0 =? -1 then Err ErrInvalidPollInterval
    else
      let interval :=
        if cmp_Compare_int (PollInterval options) 0 =? 0 then DefaultPollInterval else PollInterval options in
      Ok (mkInvalidator client (prefix +:+ ":revision") (prefix +:+ ":invalidate") interval)
  end.

Definition Publish (invalidator : Invalidator) (ctx : Context) (revision : Revision) (s : server) :
    M (result bool * server) :=
  if revision =? 0 then mret (Err ErrInvalidRevision, s)
  else
    let encoded := FormatUint revision in
    '(reply, s) ← Do_ToInt64 (inv_client invalidator) ctx
      (CmdEval publishScript [inv_key invalidator] [inv_channel invalidator; encoded]) s;
    mret match reply with
    | Err err => (Err err, s)
    | Ok result =>
        if negb (result =? 0) && negb (result =? 1) then (Err ErrInvalidResponse, s) else (Ok (result =? 1), s)
    end.

Definition Revision `{ValkeyModule} (invalidator : Invalidator) (ctx : Context) (s : server) :
    M (result Decision.Revision * server) :=
  '(reply, s) ← Do_ToString (inv_client invalidator) ctx (CmdGet (inv_key invalidator)) s;
  mret match reply with
  | Err err => if IsValkeyNil err then (Ok 0, s) else (Err err, s)
  | Ok encoded =>
      match ParseUint encoded with
      | None => (Err ErrInvalidRevision, s)
      | Some parsed => if parsed =? 0 then (Err ErrInvalidRevision, s) else (Ok parsed, s)
      end
  end.

(** ** Watch

    The goroutine of [Receive] and the loop of [Watch] are interleaved: an
    event is a step of one of them, and a step that is not ready does
    nothing. [wakeup] and [receiveDone] are channels with room for one
    value. *)

Inductive event :=
| Message           (** [Receive] calls back: a value for [wakeup], unless it is full *)
| ReceiveReturned   (** [Receive] returns: a value for [receiveDone], [subscriptionDone] is closed *)
| FirstObserve      (** the call of [observe] before the loop *)
| CaseDone          (** the cases of the [select] *)
| CaseTick
| CaseWakeup
| CaseReceiveDone
| Joined.           (** the deferred function has cancelled and waits for [subscriptionDone] *)

(** How [Watch] ends. *)
Inductive outcome := Returned (err : option error) | Panicked.

Inductive phase := Opening | Selecting | Leaving (o : outcome) | Ended (o : outcome).

Inductive receiver := Receiving | Sent | Drained.

(** [w_delivered] records the calls of the handler. *)
Record watch_state (S : Type) := mkWatch {
  w_phase : phase;
  w_after : Decision.Revision;
  w_wakeup : bool;
  w_receiver : receiver;
  w_delivered : list Decision.Revision;
  w_handler : S
}.
Arguments mkWatch {S}.
Arguments w_phase {S}.
Arguments w_after {S}.
Arguments w_wakeup {S}.
Arguments w_receiver {S}.
Arguments w_delivered {S}.
Arguments w_handler {S}.

Definition with_phase {S} (p : phase) (st : watch_state S) : watch_state S :=
  mkWatch p (w_after st) (w_wakeup st) (w_receiver st) (w_delivered st) (w_handler st).
Definition with_wakeup {S} (wakeup : bool) (st : watch_state S) : watch_state S :=
  mkWatch (w_phase st) (w_after st) wakeup (w_receiver st) (w_delivered st) (w_handler st).
Definition with_receiver {S} (receiver : receiver) (st : watch_state S) : watch_state S :=
  mkWatch (w_phase st) (w_after st) (w_wakeup st) receiver (w_delivered st) (w_handler st).

Section watch.
Context `{ValkeyModule} (invalidator : Invalidator) (ctx : Context).
(** The state of the server at every position of the run: others change it. *)
Context (server_at : nat → server).
Context {S : Type} (handler : Decision.Revision → S → M (option error * S)).

(** [observe], then the next select; an error or a panic leaves the loop. *)
Definition observe (st : watch_state S) : M (watch_state S) := λ n,
  match Revision invalidator ctx (server_at n) n with
  | (Panic, n) => (Ret (with_phase (Leaving Panicked) st), n)
  | (Ret (Err err, _), n) => (Ret (with_phase (Leaving (Returned (Some err))) st), n)
  | (Ret (Ok revision, _), n) =>
      if cmp_Compare_int revision (w_after st) =? 1 then
        let delivered := w_delivered st ++ [revision] in
        match handler revision (w_handler st) n with
        | (Panic, n) =>
            (Ret (mkWatch (Leaving Panicked) (w_after st) (w_wakeup st) (w_receiver st) delivered (w_handler st)), n)
        | (Ret (Some err, s), n) =>
            (Ret (mkWatch (Leaving (Returned (Some err))) (w_after st) (w_wakeup st) (w_receiver st) delivered s), n)
        | (Ret (None, s), n) =>
            (Ret (mkWatch Selecting revision (w_wakeup st) (w_receiver st) delivered s), n)
        end
      else (Ret (with_phase Selecting st), n)
  end.

Definition watch_step (e : event) (st : watch_state S) : M (watch_state S) :=
  match e, w_phase st, w_receiver st with
  | Message, _, Receiving => mret (with_wakeup true st)
  | ReceiveReturned, _, Receiving => mret (with_receiver Sent st)
  | FirstObserve, Opening, _ => observe st
  | CaseDone, Selecting, _ =>
      err ← ctx_Err ctx;
      mret match err with
      | Some err => with_phase (Leaving (Returned (Some err))) st
      | None => st
      end
  | CaseTick, Selecting, _ => observe st
  | CaseWakeup, Selecting, _ => if w_wakeup st then observe (with_wakeup false st) else mret st
  | CaseReceiveDone, Selecting, Sent => mret (with_receiver Drained st)
  | Joined, Leaving o, Sent | Joined, Leaving o, Drained => mret (with_phase (Ended o) st)
  | _, _, _ => mret st
  end.

Fixpoint watch_run (events : list event) (st : watch_state S) : M (watch_state S) :=
  match events with
  | [] => mret st
  | e :: events => st ← watch_step e st; watch_run events st
  end.
End watch.

(** The whole call, up to the last event. *)
Definition Watch `{ValkeyModule} (invalidator : Invalidator) (ctx : Context) (server_at : nat → server)
    (after : Decision.Revision) {S} (handler : option (Decision.Revision → S → M (option error * S)))
    (events : list event) (s : S) : M (watch_state S) :=
  match handler with
  | None => mret (mkWatch (Ended (Returned (Some ErrNilHandler))) after false Drained [] s)
  | Some handler =>
      err ← ctx_Err ctx;
      match err with
      | Some err => mret (mkWatch (Ended (Returned (Some err))) after false Drained [] s)
      | None => watch_run invalidator ctx server_at handler events (mkWatch Opening after false Receiving [] s)
      end
  end.

(** ** What is known of the server *)

Class ValkeyLaws `{ValkeyModule, LuaNumbers} (client : Client) : Prop := {
  run_publish : ∀ ctx key channel encoded s n,
    runs n (Do_ToInt64 client ctx (CmdEval publishScript [key] [channel; encoded]) s) (λ '(r, s') _,
      (r = (publish_script key channel encoded s).1 ∧ s' = (publish_script key channel encoded s).2) ∨
      (is_Ok r = false ∧ (s' = s ∨ s' = (publish_script key channel encoded s).2)));
  run_get : ∀ ctx key s n,
    runs n (Do_ToString client ctx (CmdGet key) s) (λ '(r, s') _, s' = s ∧
      ((∃ text, server_keys s !! key = Some text ∧ r = Ok text) ∨
       (∃ e, r = Err e ∧ (IsValkeyNil e = true → server_keys s !! key = None))))
}.

(** The key holds a revision, or nothing. *)
Definition holds (s : server) (key : string) (current : option Decision.Revision) : Prop :=
  server_keys s !! key = FormatUint <$> current ∧ ∀ v, current = Some v → 0 < v ≤ max_uint64.

(** ** Rounding *)

Lemma lua_round_grid z :
  0 ≤ z →
  let unit := 2 ^ Z.max 0 (Z.log2 z - 52) in
  0 < unit ∧ z / unit * unit ≤ lua_round z ≤ (z / unit + 1) * unit.
Proof.
  intros Hz unit. assert (0 < unit) as Hu by (apply Z.pow_pos_nonneg; lia). split; [done|].
  unfold lua_round. fold unit. destruct (_ || _); nia.
Qed.

Lemma lua_round_exact z : 0 ≤ z ≤ 2 ^ 53 → lua_round z = z.
Proof.
  intros Hz. destruct (decide (z = 2 ^ 53)) as [->|Hne]; [done|].
  assert (Z.max 0 (Z.log2 z - 52) = 0) as E.
  { destruct (decide (z = 0)) as [->|]; [done|]. assert (Z.log2 z < 53) by (apply Z.log2_lt_pow2; lia). lia. }
  unfold lua_round. rewrite E. simpl Z.pow. rewrite Z.mod_1_r, Z.div_1_r. simpl. lia.
Qed.

(** On one grid, rounding keeps the order. *)
Lemma round_grid_mono unit x y :
  0 < unit → x ≤ y →
  let round z := if (2 * (z `mod` unit) <? unit) || ((2 * (z `mod` unit) =? unit) && Z.even (z / unit))
                 then z / unit * unit else (z / unit + 1) * unit in
  round x ≤ round y.
Proof.
  intros Hu Hxy round. assert (x / unit ≤ y / unit) as Hm by (by apply Z.div_le_mono).
  destruct (decide (x / unit = y / unit)) as [E|Hne].
  - pose proof (Z.div_mod x unit). pose proof (Z.div_mod y unit). unfold round. rewrite E in *.
    destruct (Z.ltb_spec (2 * (x `mod` unit)) unit), (Z.ltb_spec (2 * (y `mod` unit)) unit),
      (Z.eqb_spec (2 * (x `mod` unit)) unit), (Z.eqb_spec (2 * (y `mod` unit)) unit); simpl; try lia;
      destruct (Z.even (y / unit)); simpl; nia.
  - assert (round x ≤ (x / unit + 1) * unit) by (unfold round; destruct (_ || _); nia).
    assert (y / unit * unit ≤ round y) by (unfold round; destruct (_ || _); nia). nia.
Qed.

Lemma lua_round_mono x y : 0 ≤ x ≤ y → lua_round x ≤ lua_round y.
Proof.
  intros Hxy. destruct (lua_round_grid x ltac:(lia)) as (Hux & _ & Hx), (lua_round_grid y ltac:(lia)) as (Huy & Hy & _).
  assert (Z.log2 x ≤ Z.log2 y) as Hlog by (apply Z.log2_le_mono; lia).
  destruct (decide (Z.max 0 (Z.log2 x - 52) = Z.max 0 (Z.log2 y - 52))) as [E|Hne].
  - pose proof (round_grid_mono (2 ^ Z.max 0 (Z.log2 y - 52)) x y Huy ltac:(lia)) as Hr.
    unfold lua_round. rewrite E. exact Hr.
  - set (ex := Z.max 0 (Z.log2 x - 52)) in *. set (ey := Z.max 0 (Z.log2 y - 52)) in *.
    assert (ey = Z.log2 y - 52 ∧ ex < ey ∧ 0 ≤ ex) as (Ey & Hlt & Hpos) by lia.
    assert (x / 2 ^ ex < 2 ^ 53) as Hmx.
    { apply Z.div_lt_upper_bound; [done|]. rewrite <- Z.pow_add_r by lia.
      destruct (decide (x = 0)) as [->|]; [apply Z.pow_pos_nonneg; lia|].
      eapply Z.lt_le_trans; [apply Z.log2_spec; lia|]. apply Z.pow_le_mono_r; lia. }
    assert (2 ^ 52 ≤ y / 2 ^ ey) as Hmy.
    { apply Z.div_le_lower_bound; [done|]. rewrite <- Z.pow_add_r by lia.
      eapply Z.le_trans; [|apply (Z.log2_spec y)]; [apply Z.pow_le_mono_r; lia|].
      destruct (decide (y = 0)) as [->|]; [simpl in Ey; lia|lia]. }
    assert (2 ^ 53 * 2 ^ ex ≤ 2 ^ 52 * 2 ^ ey) as Hpow.
    { rewrite <- !Z.pow_add_r by lia. apply Z.pow_le_mono_r; lia. }
    nia.
Qed.

(** Rounding can merge neighbours, but never swaps an order. *)
Lemma lua_round_lt x y : 0 ≤ x → 0 ≤ y → lua_round x < lua_round y → x < y.
Proof.
  intros Hx Hy Hlt. destruct (decide (x < y)); [done|]. pose proof (lua_round_mono y x ltac:(lia)). lia.
Qed.

(** ** Publish *)

(** What the script takes for no news. *)
Definition superseded (current : option Decision.Revision) (r : Decision.Revision) : bool :=
  match current with Some v => lua_round r <=? lua_round v | None => false end.

(** The script, on a key that holds a revision. *)
Lemma publish_script_spec `{LuaNumbers} key channel r s current :
  holds s key current → 0 < r ≤ max_uint64 →
  publish_script key channel (FormatUint r) s =
    if superseded current r then (Ok 0, s)
    else (Ok 1, mkServer (<[key := FormatUint r]> (server_keys s)) (server_published s ++ [(channel, FormatUint r)])).
Proof.
  intros [Hk Hv] Hr. unfold publish_script. rewrite Hk. destruct current as [v|]; simpl; [|done].
  specialize (Hv v eq_refl). assert (in_uint64 v ∧ in_uint64 r) as [Hiv Hir] by (unfold in_uint64; lia).
  destruct (tonumber_decimal v Hiv) as [a Ea], (tonumber_decimal r Hir) as [b Eb].
  rewrite Ea, Eb. by rewrite (number_ge_spec v r a b).
Qed.

(** Stored and announced: newer than what the key held. *)
Definition stored (key channel : string) (s : server) (current : option Decision.Revision) (r : Decision.Revision)
    (s' : server) : Prop :=
  holds s' key (Some r) ∧ (∀ v, current = Some v → v < r) ∧
  server_published s' = server_published s ++ [(channel, FormatUint r)] ∧
  ∀ other, other ≠ key → server_keys s' !! other = server_keys s !! other.

Lemma Publish_cases `{ValkeyModule, LuaNumbers} invalidator `{!ValkeyLaws (inv_client invalidator)}
    ctx r s current n :
  holds s (inv_key invalidator) current → 0 < r ≤ max_uint64 →
  runs n (Publish invalidator ctx r s) (λ '(result, s') _,
    match result with
    | Ok true => stored (inv_key invalidator) (inv_channel invalidator) s current r s'
    | Ok false => s' = s ∧ ∃ v, current = Some v ∧ lua_round r ≤ lua_round v
    | Err _ => s' = s ∨ stored (inv_key invalidator) (inv_channel invalidator) s current r s'
    end).
Proof.
  intros Hh Hr. unfold Publish. rewrite (proj2 (Z.eqb_neq r 0)) by lia.
  assert (superseded current r = false →
    stored (inv_key invalidator) (inv_channel invalidator) s current r
      (mkServer (<[inv_key invalidator := FormatUint r]> (server_keys s))
        (server_published s ++ [(inv_channel invalidator, FormatUint r)]))) as Hst.
  { intros Hlt. split_and!; [| |done|].
    - split; [simpl; by rewrite lookup_insert_eq|]. by intros v [= <-].
    - intros v ->. apply Z.leb_gt in Hlt. destruct Hh as [_ Hv]. specialize (Hv v eq_refl). apply lua_round_lt; lia.
    - intros other Hne. by apply lookup_insert_ne. }
  eapply runs_bind; [apply run_publish|]. intros [reply s'] k Hreply. apply runs_ret.
  rewrite (publish_script_spec _ _ _ _ _ Hh Hr) in Hreply.
  destruct Hreply as [[-> ->]|[Hok Hs]].
  - destruct (superseded current r) eqn:E; simpl; [|by apply Hst].
    split; [done|]. destruct current as [v|]; [|done]. exists v. split; [done|]. by apply Z.leb_le.
  - destruct reply; [done|]. simpl. destruct Hs as [-> | ->]; [by left|].
    destruct (superseded current r); [by left|right; by apply Hst].
Qed.

(** Calls of [Publish], by any clients, with any outcomes. *)
Inductive publishes (invalidator : Invalidator) : server → server → Prop :=
| publishes_refl s : publishes invalidator s s
| publishes_call ctx r s n result s1 n' s2 :
    in_uint64 r → Publish invalidator ctx r s n = (Ret (result, s1), n') → publishes invalidator s1 s2 →
    publishes invalidator s s2.

Lemma Publish_le `{ValkeyModule, LuaNumbers} invalidator `{!ValkeyLaws (inv_client invalidator)}
    ctx r s current n result s' n' :
  holds s (inv_key invalidator) current → in_uint64 r → Publish invalidator ctx r s n = (Ret (result, s'), n') →
  ∃ current', holds s' (inv_key invalidator) current' ∧ option_le current current'.
Proof.
  intros Hh Hr E. destruct (decide (r = 0)) as [->|Hne].
  { injection E as <- <- _. by exists current. }
  destruct (Publish_cases invalidator ctx r s current n Hh) as ([result1 s1] & n1 & E1 & Hcase).
  { unfold in_uint64 in Hr. lia. }
  rewrite E in E1. simplify_eq. assert (s1 = s ∨ stored (inv_key invalidator) (inv_channel invalidator) s current r s1)
    as [->|(Hs & Hlt & _)]; [|by exists current|].
  { destruct result1 as [[|]|e]; [by right|left; by destruct Hcase|done]. }
  exists (Some r). split; [done|]. destruct current as [v|]; [|done]. exists r. specialize (Hlt v eq_refl). split; [done|lia].
Qed.

Lemma publishes_le `{ValkeyModule, LuaNumbers} invalidator `{!ValkeyLaws (inv_client invalidator)} s s' current :
  publishes invalidator s s' → holds s (inv_key invalidator) current →
  ∃ current', holds s' (inv_key invalidator) current' ∧ option_le current current'.
Proof.
  intros Hp. revert current. induction Hp as [s|ctx r s n result s1 n' s2 Hr E _ IH]; intros current Hh.
  - by exists current.
  - destruct (Publish_le invalidator _ _ _ _ _ _ _ _ Hh Hr E) as (c1 & H1 & Hle).
    destruct (IH c1 H1) as (c2 & H2 & Hle2). exists c2. split; [done|by etrans].
Qed.

(** ** Watch: lemmas *)

Section watching.
Context `{ValkeyModule} (invalidator : Invalidator) (ctx : Context) (server_at : nat → server).
Context {S : Type} (handler : Decision.Revision → S → M (option error * S)).

(** What [observe] does, whatever the client and the handler do: it returns,
    and calls the handler at most once, with a newer revision. *)
Definition observed (st st' : watch_state S) : Prop :=
  w_wakeup st' = w_wakeup st ∧ w_receiver st' = w_receiver st ∧
  match w_phase st' with
  | Selecting => (w_delivered st' = w_delivered st ∧ w_after st' = w_after st) ∨
      (w_after st < w_after st' ∧ w_delivered st' = w_delivered st ++ [w_after st'])
  | Leaving o => o ≠ Returned None ∧ w_after st' = w_after st ∧
      (w_delivered st' = w_delivered st ∨ ∃ r, w_after st < r ∧ w_delivered st' = w_delivered st ++ [r])
  | _ => False
  end.

Lemma observe_observed st n : runs n (observe invalidator ctx server_at handler st) (λ st' _, observed st st').
Proof.
  unfold runs, observe. destruct (Revision invalidator ctx (server_at n) n) as [[[[r|e] s]|] n1].
  2, 3: eexists _, _; (split; [done|]); split_and!; try done; split_and!; try done; by left.
  destruct (cmp_Compare_int r (w_after st) =? 1) eqn:E.
  2: { eexists _, _. split; [done|]. split_and!; [done..|]. by left. }
  assert (w_after st < r) as Hlt.
  { apply Z.eqb_eq in E. unfold cmp_Compare_int, sign_of in E. destruct (Z.compare_spec r (w_after st)); lia. }
  destruct (handler r (w_handler st) n1) as [[[[e|] h]|] n2]; eexists _, _; (split; [done|]); split_and!; try done;
    simpl; try (right; done); split_and!; try done; right; by exists r.
Qed.

(** The invariant of [Watch]: the handler saw strictly increasing revisions,
    the last one acknowledged while the loop runs; [Watch] has not ended
    before [Receive] returned, and never ends without an error. *)
Record watch_ok (after : Decision.Revision) (st : watch_state S) : Prop := {
  ok_sorted : StronglySorted Z.lt (after :: w_delivered st);
  ok_after : match w_phase st with
             | Opening | Selecting => list.last (after :: w_delivered st) = Some (w_after st)
             | Leaving o => o ≠ Returned None
             | Ended o => o ≠ Returned None ∧ w_receiver st ≠ Receiving
             end
}.

Lemma StronglySorted_snoc (l : list Z) x r :
  StronglySorted Z.lt l → list.last l = Some x → x < r → StronglySorted Z.lt (l ++ [r]).
Proof.
  intros Hs. revert x. induction Hs as [|y l Hs IH Hy]; intros x Hx Hlt; [done|]. simpl. destruct l as [|z l].
  - simpl in *. injection Hx as ->. repeat constructor. done.
  - constructor; [by apply (IH x)|]. apply Forall_app. split; [done|]. constructor; [|done].
    assert (x ∈ z :: l) as Hin by (by apply last_Some_elem_of). rewrite Forall_forall in Hy. specialize (Hy x Hin). lia.
Qed.

Lemma observed_ok after st st' :
  watch_ok after st → w_phase st = Opening ∨ w_phase st = Selecting → observed st st' → watch_ok after st'.
Proof.
  intros [Hs Ha] Hp (_ & _ & Hobs).
  assert (list.last (after :: w_delivered st) = Some (w_after st)) as Hlast by (destruct Hp as [E|E]; by rewrite E in Ha).
  destruct (w_phase st') eqn:E; try done.
  - destruct Hobs as [[Ed Ea]|[Hlt Ed]]; split; rewrite ?E, Ed; [done|congruence| |].
    + apply (StronglySorted_snoc (after :: w_delivered st) (w_after st)); done.
    + rewrite app_comm_cons. by rewrite last_snoc.
  - destruct Hobs as (Ho & _ & [Ed|(r & Hlt & Ed)]); split; rewrite ?E, ?Ed; try done.
    apply (StronglySorted_snoc (after :: w_delivered st) (w_after st)); done.
Qed.

Lemma watch_step_ok after e st n :
  watch_ok after st → runs n (watch_step invalidator ctx server_at handler e st) (λ st' _, watch_ok after st').
Proof.
  intros Hok. assert (∀ st, watch_ok after st → w_phase st = Opening ∨ w_phase st = Selecting →
    runs n (observe invalidator ctx server_at handler st) (λ st' _, watch_ok after st')) as Hobs.
  { intros st1 Hok1 Hp. eapply runs_mono; [apply observe_observed|]. intros st' k. by apply observed_ok. }
  destruct Hok as [Hs Ha]. unfold watch_step.
  destruct e, (w_phase st) eqn:Ep, (w_receiver st) eqn:Er; try (by exfalso; destruct Ha);
    try (apply runs_ret; split; simpl; rewrite ?Ep, ?Er; done);
    try (apply Hobs; [split; rewrite ?Ep; done|by auto]).
  all: try (apply runs_ctx_Err, runs_ret; destruct (Err_at ctx n); split; simpl; rewrite ?Ep; done).
  all: destruct (w_wakeup st); [apply Hobs; [split; simpl; rewrite ?Ep; done|by auto]|apply runs_ret; split; rewrite ?Ep; done].
Qed.

Lemma watch_run_inv (P : watch_state S → Prop) events st n :
  (∀ e st n, P st → runs n (watch_step invalidator ctx server_at handler e st) (λ st' _, P st')) →
  P st → runs n (watch_run invalidator ctx server_at handler events st) (λ st' _, P st').
Proof.
  intros Hstep. revert st n. induction events as [|e events IH]; intros st n HP; [by apply runs_ret|].
  eapply runs_bind; [by apply Hstep|]. intros st' k HP'. by apply IH.
Qed.

Lemma watch_step_returns e st n : runs n (watch_step invalidator ctx server_at handler e st) (λ _ _, True).
Proof.
  unfold watch_step. destruct e, (w_phase st), (w_receiver st);
    try (by apply runs_ret); try (by apply runs_ctx_Err, runs_ret); try (eapply runs_mono; [apply observe_observed|done]).
  all: destruct (w_wakeup st); [eapply runs_mono; [apply observe_observed|done]|by apply runs_ret].
Qed.

Lemma watch_run_snoc events e st n (P Q : watch_state S → nat → Prop) :
  runs n (watch_run invalidator ctx server_at handler events st) P →
  (∀ st' k, P st' k → runs k (watch_step invalidator ctx server_at handler e st') Q) →
  runs n (watch_run invalidator ctx server_at handler (events ++ [e]) st) Q.
Proof.
  intros Hrun He. revert st n Hrun. induction events as [|e' events IH]; intros st n Hrun; simpl in *.
  - destruct Hrun as (st' & k & [= <- <-] & HP). eapply runs_bind; [by apply He|]. intros st'' k HQ. by apply runs_ret.
  - destruct Hrun as (st' & k & E & HP). apply M_bind_inv in E as (st1 & k1 & E1 & E2).
    unfold runs. rewrite (M_bind_Ret _ _ _ _ _ E1). apply IH. by exists st', k.
Qed.

(** ** From a publication to the handler *)

(** The events end with a tick of the poll; or they start with a message, to
    which the subscription is still there to answer, and end with a select
    of the wakeup channel. *)
Definition notifies (r : receiver) (events : list event) : Prop :=
  (∃ before, events = before ++ [CaseTick]) ∨
  (r = Receiving ∧ ∃ between, events = Message :: between ++ [CaseWakeup]).

Section noticed.
Context `{!LuaNumbers, !ValkeyLaws (inv_client invalidator)}.
(** From here on the key holds a revision of at least [v]. *)
Context (v : Decision.Revision) (Hserver : ∀ m, ∃ r, holds (server_at m) (inv_key invalidator) (Some r) ∧ v ≤ r).

Lemma Revision_reads ctx' s n current :
  holds s (inv_key invalidator) current →
  runs n (Revision invalidator ctx' s) (λ '(result, s') _, s' = s ∧
    match result with Ok r => r = default 0 current | Err _ => True end).
Proof.
  intros [Hk Hv]. eapply runs_bind; [apply run_get|]. intros [reply s'] k [-> Hr]. apply runs_ret. rewrite Hk in Hr.
  destruct Hr as [(text & Et & ->)|(e & -> & He)].
  - destruct current as [r|]; [|done]. injection Et as <-. specialize (Hv r eq_refl).
    rewrite ParseUint_Format_uint64 by (unfold in_uint64; lia). by rewrite (proj2 (Z.eqb_neq r 0)) by lia.
  - destruct (IsValkeyNil e); [|done]. split; [done|]. specialize (He eq_refl). by destruct current.
Qed.

(** A completed [observe] has seen the revision. *)
Lemma observe_notices st n :
  runs n (observe invalidator ctx server_at handler st) (λ st' _,
    w_phase st' = Selecting → v ≤ w_after st').
Proof.
  destruct (Hserver n) as (r & Hh & Hle). destruct (Revision_reads ctx (server_at n) n (Some r) Hh) as ([result s'] & k & E & _ & Hr).
  unfold runs, observe. rewrite E. destruct result as [r'|e]; [|by eexists _, _]. simpl in Hr. subst r'.
  destruct (cmp_Compare_int r (w_after st) =? 1) eqn:Ec.
  - destruct (handler r (w_handler st) k) as [[[[e|] h]|] k2]; by eexists _, _.
  - eexists _, _. split; [done|]. intros _. simpl. apply Z.eqb_neq in Ec. unfold cmp_Compare_int, sign_of in Ec.
    destruct (Z.compare_spec r (w_after st)); lia.
Qed.

(** A message is not lost: until the revision is noticed or the loop is left,
    the wakeup stays pending. *)
Definition noticing (st : watch_state S) : Prop :=
  w_phase st = Selecting → v ≤ w_after st ∨ w_wakeup st = true.

Definition noticed (st : watch_state S) : Prop := w_phase st = Selecting → v ≤ w_after st.

Lemma observe_noticing st n : runs n (observe invalidator ctx server_at handler st) (λ st' _, noticing st').
Proof. eapply runs_mono; [apply observe_notices|]. intros st' k Hv E. left. by apply Hv. Qed.

Lemma watch_step_noticing e st n :
  noticing st → runs n (watch_step invalidator ctx server_at handler e st) (λ st' _, noticing st').
Proof.
  intros Hn. unfold watch_step.
  destruct e, (w_phase st) eqn:Ep, (w_receiver st); try apply observe_noticing;
    try (apply runs_ret; unfold noticing in *; simpl; rewrite ?Ep in *; by auto).
  all: try (apply runs_ctx_Err, runs_ret; destruct (Err_at ctx n); unfold noticing in *; simpl; rewrite ?Ep in *; by auto).
  all: destruct (w_wakeup st) eqn:Ew; [apply observe_noticing|apply runs_ret; unfold noticing in *; rewrite ?Ew in *; by auto].
Qed.

(** The selects that observe: a tick of the poll, or a wakeup. *)
Lemma tick_noticed st n : runs n (watch_step invalidator ctx server_at handler CaseTick st) (λ st' _, noticed st').
Proof.
  unfold watch_step. destruct (w_phase st) eqn:Ep, (w_receiver st); try apply observe_notices;
    apply runs_ret; unfold noticed; by rewrite Ep.
Qed.

Lemma wakeup_noticed st n :
  noticing st → runs n (watch_step invalidator ctx server_at handler CaseWakeup st) (λ st' _, noticed st').
Proof.
  intros Hn. unfold watch_step. destruct (w_phase st) eqn:Ep, (w_receiver st);
    try (apply runs_ret; unfold noticed; by rewrite Ep).
  all: destruct (w_wakeup st) eqn:Ew; [apply observe_notices|apply runs_ret].
  all: intros E; destruct (Hn E); congruence || done.
Qed.

(** After a tick, or after a message and a wakeup, the revision was handled
    or the loop left, whatever happened before and in between. *)
Lemma notified_noticed events st n :
  notifies (w_receiver st) events →
  runs n (watch_run invalidator ctx server_at handler events st) (λ st' _, noticed st').
Proof.
  intros [(before & ->)|(Er & between & ->)].
  - eapply watch_run_snoc; [apply (watch_run_inv (λ _, True)); [|done]|intros st' k _; apply tick_noticed].
    intros e st' k _. eapply runs_mono; [apply watch_step_returns|done].
  - eapply (runs_bind _ _ _ (λ st' _, noticing st')).
    + unfold watch_step. rewrite Er. apply runs_ret. intros _. by right.
    + intros st' k Hst. eapply watch_run_snoc; [apply (watch_run_inv noticing); [|done]|].
      * intros. by apply watch_step_noticing.
      * intros. by apply wakeup_noticed.
Qed.
End noticed.
End watching.

(** ** A synchronizer as the handler *)

Section synchronized.
Import synchronizer.
Context `{GoRuntime, OtherWriters} (s : Synchronizer).
Context `{!ClockTotal (sync_clock s), !RepositoryTotal (sync_repository s), !policy.DecodersTotal (sync_compiler s)}.

Definition observe_handler (ctx : Context) (revision : Decision.Revision) (st : sync_state) : M (option error * sync_state) :=
  Observe s ctx st revision.

Lemma observe_handler_raises ctx revision st n :
  is_Some (engine_snapshot (sync_engine st)) →
  runs n (observe_handler ctx revision st) (λ '(err, st') _,
    later (sync_engine st) (sync_engine st') ∧ (err = None → revision ≤ current_revision (sync_engine st'))).
Proof.
  intros Hs. destruct (Observe_cases s ctx st revision n Hs) as (err & st' & n' & E & Hcase).
  exists (err, st'), n'. split; [exact E|]. destruct Hcase as [(-> & -> & Hle)|(changed & rerr & st1 & engine & [Hl _] & Hr)].
  - split; [done|]. done.
  - destruct rerr as [e|]; [destruct Hr as [-> ->]; by split|]. destruct Hr as (Ho & -> & ->).
    split; [etrans; [exact Hl|by apply left_by_others_later]|].
    by destruct (Z.ltb_spec (current_revision (sync_engine (with_engine st1 engine))) revision).
Qed.

Context `{ValkeyModule} (invalidator : Invalidator) (ctx : Context) (server_at : nat → server).

(** The engine is never behind the acknowledged revision. *)
Definition synced (st : watch_state sync_state) : Prop :=
  is_Some (engine_snapshot (sync_engine (w_handler st))) ∧ w_after st ≤ current_revision (sync_engine (w_handler st)).

Lemma observe_synced st n :
  synced st → runs n (observe invalidator ctx server_at (observe_handler ctx) st) (λ st' _, synced st').
Proof.
  intros [Hs Hle]. unfold runs, observe. destruct (Revision invalidator ctx (server_at n) n) as [[[[r|e] srv]|] n1];
    try (by eexists _, _).
  destruct (_ =? 1); [|by eexists _, _].
  destruct (observe_handler_raises ctx r (w_handler st) n1 Hs) as ([err h] & n2 & E & Hl & Hr). rewrite E.
  pose proof (later_snapshot _ _ Hl Hs). pose proof (later_revision _ _ Hl Hs).
  destruct err; eexists _, _; (split; [done|]); (split; [done|]); simpl; [lia|by apply Hr].
Qed.

Lemma watch_step_synced e st n :
  synced st → runs n (watch_step invalidator ctx server_at (observe_handler ctx) e st) (λ st' _, synced st').
Proof.
  intros Hs. unfold watch_step. destruct e, (w_phase st), (w_receiver st); try (by apply runs_ret);
    try (by apply observe_synced).
  all: try (apply runs_ctx_Err, runs_ret; by destruct (Err_at ctx n)).
  all: destruct (w_wakeup st); [by apply observe_synced|by apply runs_ret].
Qed.
End synchronized.

(** A published revision is enforced: after [Publish] reported success, a
    watcher that feeds a synchronizer and is still running once it was notified
    has an engine whose snapshot is at least at that revision. The watcher
    started from a revision its engine had, and until then saw any states of
    the server: only from now on the server has what was published. *)
Lemma notified_enforced `{GoRuntime, synchronizer.OtherWriters, ValkeyModule, LuaNumbers}
    (sync : synchronizer.Synchronizer) `{!ClockTotal (synchronizer.sync_clock sync)}
    `{!synchronizer.RepositoryTotal (synchronizer.sync_repository sync)}
    `{!policy.DecodersTotal (synchronizer.sync_compiler sync)}
    (invalidator : Invalidator) `{!ValkeyLaws (inv_client invalidator)} (ctx ctx' : Context)
    (v after : Decision.Revision) (s s1 : server) (current : option Decision.Revision) (n n1 : nat)
    (server_before server_at : nat → server) (earlier events : list event) (start : synchronizer.sync_state)
    (st : watch_state synchronizer.sync_state) (m m1 : nat) :
  holds s (inv_key invalidator) current → 0 < v ≤ max_uint64 →
  Publish invalidator ctx' v s n = (Ret (Ok true, s1), n1) →
  (∀ k, publishes invalidator s1 (server_at k)) →
  is_Some (engine_snapshot (synchronizer.sync_engine start)) →
  after ≤ current_revision (synchronizer.sync_engine start) →
  watch_run invalidator ctx server_before (observe_handler sync ctx) earlier (mkWatch Opening after false Receiving [] start) m =
    (Ret st, m1) →
  notifies (w_receiver st) events →
  runs m1 (watch_run invalidator ctx server_at (observe_handler sync ctx) events st)
    (λ st' _, w_phase st' = Selecting → v ≤ current_revision (synchronizer.sync_engine (w_handler st'))).
Proof.
  intros Hh Hv Epub Hserver Hsnap Hafter Erun Hnot.
  destruct (Publish_cases invalidator ctx' v s current n Hh Hv) as ([r2 s2] & n2 & E2 & Hstored).
  rewrite Epub in E2. injection E2 as <- <- <-. destruct Hstored as (Hs1 & _).
  assert (∀ k, ∃ r, holds (server_at k) (inv_key invalidator) (Some r) ∧ v ≤ r) as Hat.
  { intros k. destruct (publishes_le invalidator _ _ _ (Hserver k) Hs1) as (c & Hc & (r & -> & Hr)). by exists r. }
  destruct (watch_run_inv invalidator ctx server_before (observe_handler sync ctx) synced earlier
    (mkWatch Opening after false Receiving [] start) m) as (st0 & m0 & E0 & Hsynced);
    [intros; by apply watch_step_synced|done|]. rewrite Erun in E0. injection E0 as <- _.
  destruct (notified_noticed invalidator ctx server_at (observe_handler sync ctx) v Hat events st m1 Hnot)
    as (st' & k & E & Hnoticed).
  destruct (watch_run_inv invalidator ctx server_at (observe_handler sync ctx) synced events
    st m1) as (st1 & k1 & E1 & [_ Hle]); [intros; by apply watch_step_synced|done|].
  rewrite E in E1. injection E1 as <- <-. exists st', k. split; [done|]. intros Hp. specialize (Hnoticed Hp). lia.
Qed.

(** ** Theorems *)

(** C20. [Publish] is a monotone register: zero is refused; otherwise it
    returns; it reports true only for a revision that is newer than the
    stored one, which is then stored and announced once; false only when Lua
    does not tell it from an older or equal one, which up to 2^53 means that
    it is not newer; after an error it was stored or not. Over any calls, of
    any clients and with any outcomes, the stored revision never decreases. *)
Theorem Publish_monotone `{ValkeyModule, LuaNumbers} (invalidator : Invalidator)
    `{!ValkeyLaws (inv_client invalidator)} (ctx : Context) (r : Decision.Revision) (s : server)
    (current : option Decision.Revision) (n : nat) :
  holds s (inv_key invalidator) current →
  Publish invalidator ctx 0 s n = (Ret (Err ErrInvalidRevision, s), n) ∧
  (0 < r ≤ max_uint64 →
   runs n (Publish invalidator ctx r s) (λ '(result, s') _,
     match result with
     | Ok true => stored (inv_key invalidator) (inv_channel invalidator) s current r s'
     | Ok false => s' = s ∧ ∃ v, current = Some v ∧ lua_round r ≤ lua_round v ∧ (r ≤ 2 ^ 53 → r ≤ v)
     | Err _ => s' = s ∨ stored (inv_key invalidator) (inv_channel invalidator) s current r s'
     end)) ∧
  (∀ s', publishes invalidator s s' →
     ∃ current', holds s' (inv_key invalidator) current' ∧ option_le current current').
Proof.
  intros Hh. split_and!; [done| |].
  - intros Hr. eapply runs_mono; [by apply Publish_cases|]. intros [[[|]|e] s'] k Hcase; [done| |done].
    destruct Hcase as [-> (v & -> & Hle)]. split; [done|]. exists v. split_and!; [done..|]. intros Hexact.
    destruct Hh as [_ Hv]. specialize (Hv v eq_refl). rewrite (lua_round_exact r) in Hle by lia.
    destruct (decide (r ≤ v)); [done|]. rewrite lua_round_exact in Hle by lia. lia.
  - intros s' Hp. by apply (publishes_le invalidator s).
Qed.

(** C27. A watcher calls its handler with strictly increasing revisions, all
    newer than the starting one, whatever the client, the handler, the
    subscription and the schedule do; while it runs, the last call was
    acknowledged; it ends only with an error or a panic, and not before its
    subscription has returned. *)
Theorem Watch_in_order `{ValkeyModule} (invalidator : Invalidator) (ctx : Context) (server_at : nat → server)
    (after : Decision.Revision) {S} (handler : option (Decision.Revision → S → M (option error * S)))
    (events : list event) (s : S) (n : nat) :
  runs n (Watch invalidator ctx server_at after handler events s) (λ st _,
    StronglySorted Z.lt (after :: w_delivered st) ∧
    match w_phase st with
    | Opening | Selecting => list.last (after :: w_delivered st) = Some (w_after st)
    | Leaving o => o ≠ Returned None
    | Ended o => o ≠ Returned None ∧ w_receiver st ≠ Receiving
    end).
Proof.
  destruct handler as [handler|]; [|apply runs_ret; by repeat constructor].
  apply runs_ctx_Err. destruct (Err_at ctx n); [apply runs_ret; by repeat constructor|].
  eapply runs_mono; [apply (watch_run_inv _ _ _ _ (watch_ok after))|].
  - intros. by apply watch_step_ok.
  - split; [by repeat constructor|done].
  - intros st k [? ?]. done.
Qed.

(** ** A server in memory *)

#[global, program] Instance lua_doubles : LuaNumbers := {|
  number := Z;
  tonumber := λ s, lua_round <$> ParseUint s;
  number_ge := λ a b, b <=? a
|}.
Next Obligation. intros z Hz. simpl. rewrite ParseUint_Format_uint64 by done. by eexists. Qed.
Next Obligation.
  intros y z a b Hy Hz. simpl. intros Ea Eb. rewrite ParseUint_Format_uint64 in Ea, Eb by done. by simplify_eq/=.
Qed.

Definition valkey_nil := errors_New "valkey nil message".

#[global] Instance valkey_module : ValkeyModule := λ e, errors_Is e valkey_nil.

Definition memory_client : Client := mkClient
  (λ ctx cmd s, mret match cmd with
    | CmdEval _ [key] [channel; encoded] => publish_script key channel encoded s
    | _ => (Err ErrInvalidResponse, s)
    end)
  (λ ctx cmd s, mret match cmd with
    | CmdGet key => (match server_keys s !! key with Some text => Ok text | None => Err valkey_nil end, s)
    | _ => (Err ErrInvalidResponse, s)
    end).

#[global] Instance memory_client_laws : ValkeyLaws memory_client.
Proof.
  split.
  - intros ctx key channel encoded s n. apply runs_ret. destruct (publish_script key channel encoded s). by left.
  - intros ctx key s n. apply runs_ret. split; [done|]. destruct (server_keys s !! key) as [text|].
    + left. by exists text.
    + right. by eexists.
Qed.

Definition sample_invalidator : Invalidator := mkInvalidator memory_client "p:revision" "p:invalidate" 1.

Definition empty_server : server := mkServer ∅ [].

Lemma empty_holds key : holds empty_server key None.
Proof. by split. Qed.

Lemma Publish_monotone_witness :
  runs 0 (Publish sample_invalidator context_Background 5 empty_server) (λ '(result, s') _,
    result = Ok true ∧ server_published s' = [("p:invalidate", "5")]).
Proof.
  destruct (Publish_monotone sample_invalidator context_Background 5 empty_server None 0 (empty_holds _))
    as (_ & Hpub & _).
  destruct (Hpub ltac:(split; [lia|unfold max_uint64; lia])) as ([result s'] & k & E & Hr).
  exists (result, s'), k. split; [exact E|]. vm_compute in E. injection E as <- <- _. split; reflexivity.
Defined.

Definition published_server : server := mkServer {[ "p:revision" := "5" ]} [("p:invalidate", "5")].

(** Beyond 2^53 a newer revision can be taken for the stored one. *)
Example Publish_beyond_exact :
  publish_script "k" "c" (FormatUint (2 ^ 53 + 1)) (mkServer {[ "k" := FormatUint (2 ^ 53) ]} []) =
    (Ok 0, mkServer {[ "k" := FormatUint (2 ^ 53) ]} []).
Proof. vm_compute. reflexivity. Qed.
End valkey.
