(* ===== verification/Distribution.v ===== *)
(** * Distribution of policies (postgres/store.go, valkey/invalidator.go, policy/synchronizer.go)

    How the parts that distribute policies work together: administrators write
    manifests with [Update] of the store and announce their revisions with
    [Publish]; every process watches the announcements and lets a synchronizer
    reload the store and replace the snapshot of its engine. The theorem here
    follows a policy along that way: what an engine enforces was compiled from
    a manifest that was given to [Update], and once a published revision was
    noticed nothing older is enforced. *)

From S2P Require Import Prelude Strconv GoStrings JSON Attribute Request Decision Snapshot Engine Publication Documents.
From S2P Require Import Manifest Synchronizer Store Valkey.

#[local] Open Scope Z_scope.

Module distribution.
Import policy synchronizer.

(** ** Where a snapshot comes from *)

Section provenance.
Context `{GoRuntime, JSONCodec Manifest} (store : postgres.Store) `{!postgres.Postgres store}.

(** The row holds the text of a manifest that a call of [Update] submitted. *)
Definition submitted (calls : list (Revision * Manifest * bool)) (next : Manifest) (row : postgres.manifest_row) : Prop :=
  (∃ expected ok, (expected, next, ok) ∈ calls) ∧ Manifest_Revision next = postgres.row_revision row ∧
  ∃ text, Encode next = Ok text ∧ postgres.jsonb text = Some (postgres.row_manifest row).

Lemma updates_submitted plain `{!postgres.KeepsContent store plain} t l t' row :
  postgres.updates store t l t' → t' = Some row → t = Some row ∨ ∃ next, submitted l next row.
Proof.
  intros Hu Et. revert Et. induction Hu as [t|ctx expected next t n r t1 n' l t2 E _ IH]; [by left|]. intros Et.
  destruct (IH Et) as [->|(next' & (expected' & ok & Hin) & Hrow)].
  2: { right. exists next'. split; [|done]. exists expected', ok. by right. }
  destruct (postgres.Update_cases store plain ctx expected next t n) as (r1 & t1 & n1 & E1 & Hr & _).
  rewrite E in E1. simplify_eq.
  assert (t = Some row ∨ postgres.written store t expected next (Some row)) as [?|Hw];
    [destruct r1; [right; apply Hr|by destruct Hr as [<-|?]; [left|right]]|by left|right].
  destruct Hw as (_ & _ & text & document & He & Hj & [= ->]). exists next. split; [|by split; [|exists text]].
  exists expected, (is_Ok r1). by left.
Qed.

(** The snapshot was compiled from a row of the table. *)
Definition compiled_from (compiler : Compiler) (rows : postgres.manifest_row → Prop) (snapshot : Snapshot) : Prop :=
  ∃ row manifest, rows row ∧ Decode (postgres.row_manifest row) = Ok manifest ∧
    Compile compiler manifest = Ret (Ok snapshot).

(** An engine that enforces its first snapshot or one from the table. *)
Definition enforces_rows (compiler : Compiler) (rows : postgres.manifest_row → Prop) (first : option Snapshot)
    (engine : Engine) : Prop :=
  is_Some (engine_snapshot engine) ∧
  (engine_snapshot engine = first ∨
   ∃ snapshot, compiled_from compiler rows snapshot ∧ engine_snapshot engine = Some snapshot).

(** ** Preservation *)

Context `{OtherWriters} (s : Synchronizer) (table_at : nat → postgres.table) (first : option Snapshot).
Context `{!ClockTotal (sync_clock s), !DecodersTotal (sync_compiler s)}.
Context (Hrepo : sync_repository s = postgres.store_repository store table_at).

Definition held (row : postgres.manifest_row) : Prop := ∃ k, table_at k = Some row.

(** The other writers of the engine install snapshots from the table, as other
    synchronizers of the store do. *)
Context (Hothers : ∀ k snapshot expected,
  (Some snapshot, expected) ∈ others k → compiled_from (sync_compiler s) held snapshot).

Abbreviation enforces := (enforces_rows (sync_compiler s) held first).

Lemma store_snapshot_enforces engine snapshot :
  compiled_from (sync_compiler s) held snapshot → enforces (store_snapshot engine snapshot).
Proof. intros Hs. split; [by eexists|]. right. by exists snapshot. Qed.

Lemma others_enforce engine engine' : enforces engine → left_by_others engine engine' → enforces engine'.
Proof.
  intros He (calls & Hcalls & ->). revert engine He. induction Hcalls as [|[next expected] calls [k Hk] _ IH]; intros engine He;
    [done|]. unfold write_all. simpl. destruct (Engine_ReplaceSnapshot engine next expected) as [[r engine']|] eqn:E; [|by apply IH].
  apply IH. pose proof (ReplaceSnapshot_cas _ _ _ _ _ (proj1 He) E) as Hcas. destruct r; [by subst|].
  destruct Hcas as (snapshot & -> & -> & _). by eapply store_snapshot_enforces, Hothers.
Qed.

Lemma repository_row ctx n manifest m :
  Load (sync_repository s) ctx n = (Ret (manifest, None), m) →
  ∃ row, held row ∧ Decode (postgres.row_manifest row) = Ok manifest.
Proof.
  rewrite Hrepo. simpl. destruct (postgres.Load_cases store ctx (table_at n) n) as (r & k & -> & Hr).
  destruct r as [m'|e]; [|done]. intros [= -> _]. destruct Hr as [Hr|(? & ? & _)]; [|done].
  destruct (table_at n) as [row|] eqn:Et; [|done]. exists row. split; [by exists n|done].
Qed.

Lemma reloaded_enforces ctx st n changed err st' :
  enforces (sync_engine st) → reloaded s ctx st n changed err st' → enforces (sync_engine st').
Proof.
  intros He [_ Hr]. destruct err as [e|].
  - destruct Hr as (_ & _ & Ho). by eapply others_enforce.
  - destruct Hr as (manifest & m & m' & m'' & El & _ & _ & _ & Hch). destruct changed; [|by eapply others_enforce].
    destruct Hch as (snapshot & seen & Ec & _ & -> & _). apply store_snapshot_enforces.
    destruct (repository_row _ _ _ _ El) as (row & Hrow & Ed). by exists row, manifest.
Qed.

#[local] Instance repository_answers : RepositoryTotal (sync_repository s).
Proof. rewrite Hrepo. apply _. Qed.

Lemma Observe_enforces ctx revision st n :
  enforces (sync_engine st) → runs n (Observe s ctx st revision) (λ '(_, st') _, enforces (sync_engine st')).
Proof.
  intros He. destruct (Observe_cases s ctx st revision n (proj1 He)) as (err & st' & n' & E & Hcase).
  exists (err, st'), n'. split; [done|]. destruct Hcase as [(_ & -> & _)|(changed & rerr & st1 & engine & Hr & Hm)]; [done|].
  apply reloaded_enforces in Hr; [|done]. destruct rerr as [e|]; [by destruct Hm as [_ ->]|].
  destruct Hm as (Ho & -> & _). by eapply others_enforce.
Qed.

Lemma Reload_enforces ctx st n :
  enforces (sync_engine st) → runs n (Reload s ctx st) (λ '(_, _, st') _, enforces (sync_engine st')).
Proof.
  intros He. destruct (Reload_cases s ctx st n (proj1 He)) as (changed & err & st' & n' & E & Hr).
  exists (changed, err, st'), n'. split; [done|]. by eapply reloaded_enforces.
Qed.
Lemma run_loop_enforces ctx events st n :
  enforces (sync_engine st) → runs n (run_loop s ctx events st) (λ '(_, st') _, enforces (sync_engine st')).
Proof.
  revert st n. induction events as [|[] events IH]; intros st n He; simpl; [by apply runs_ret| |].
  - apply runs_ctx_Err. by apply runs_ret.
  - eapply runs_bind; [by apply Reload_enforces|]. intros [[changed err] st'] k He'. destruct err; [by apply runs_ret|by apply IH].
Qed.

Lemma Run_enforces ctx events st n :
  enforces (sync_engine st) → runs n (Run s ctx events st) (λ '(_, st') _, enforces (sync_engine st')).
Proof.
  intros He. unfold Run. eapply runs_bind; [by apply Reload_enforces|]. intros [[changed err] st'] k He'.
  destruct err; [by apply runs_ret|by apply run_loop_enforces].
Qed.
End provenance.

(** ** Watchers *)

Section watchers.
Context `{ValkeyModule} (invalidator : valkey.Invalidator) (ctx : Context) (server_at : nat → server).
Context {S : Type} (handler : Revision → S → M (option error * S)) (P : S → Prop).
Context (Hhandler : ∀ revision h n, P h → runs n (handler revision h) (λ '(_, h') _, P h')).

(** What the handler preserves, the watcher does. *)
Lemma observe_preserves st n :
  P (valkey.w_handler st) →
  runs n (valkey.observe invalidator ctx server_at handler st) (λ st' _, P (valkey.w_handler st')).
Proof.
  intros HP. unfold runs, valkey.observe.
  destruct (valkey.Revision invalidator ctx (server_at n) n) as [[[[r|e] srv]|] n1]; try (by eexists _, _).
  destruct (_ =? 1); [|by eexists _, _]. destruct (Hhandler r (valkey.w_handler st) n1 HP) as ([err h] & n2 & E & Hh). rewrite E.
  destruct err; by eexists _, _.
Qed.

Lemma watch_step_preserves e st n :
  P (valkey.w_handler st) →
  runs n (valkey.watch_step invalidator ctx server_at handler e st) (λ st' _, P (valkey.w_handler st')).
Proof.
  intros HP. unfold valkey.watch_step. destruct e, (valkey.w_phase st), (valkey.w_receiver st); try (by apply runs_ret);
    try (by apply observe_preserves).
  all: try (apply runs_ctx_Err, runs_ret; by destruct (Err_at ctx n)).
  all: destruct (valkey.w_wakeup st); [by apply observe_preserves|by apply runs_ret].
Qed.

Lemma watch_run_preserves events st n :
  P (valkey.w_handler st) →
  runs n (valkey.watch_run invalidator ctx server_at handler events st) (λ st' _, P (valkey.w_handler st')).
Proof.
  intros HP. apply (valkey.watch_run_inv invalidator ctx server_at handler (λ st, P (valkey.w_handler st))); [|done].
  intros. by apply watch_step_preserves.
Qed.
End watchers.

(** ** From [Update] to the engine *)

(** The engine enforces what a call of [Update] submitted: its snapshot was
    compiled from a manifest of the same content, and has its revision. *)
Definition enforces_submission `{GoRuntime, JSONCodec Manifest} (store : postgres.Store) `{!postgres.Postgres store}
    (compiler : Compiler) (calls_at : nat → list (Revision * Manifest * bool)) (engine : Engine) : Prop :=
  ∃ k next row manifest snapshot, submitted store (calls_at k) next row ∧ postgres.same_content next manifest ∧
    Compile compiler manifest = Ret (Ok snapshot) ∧ engine_snapshot engine = Some snapshot ∧
    current_revision engine = Manifest_Revision next.

Lemma enforces_rows_submission `{GoRuntime, JSONCodec Manifest} store `{!postgres.Postgres store} plain
    `{!postgres.KeepsContent store plain} compiler table_at calls_at first engine :
  (∀ k, postgres.updates store None (calls_at k) (table_at k)) →
  (∀ k expected next ok, (expected, next, ok) ∈ calls_at k → plain next) →
  enforces_rows compiler (held table_at) first engine →
  engine_snapshot engine = first ∨ enforces_submission store compiler calls_at engine.
Proof.
  intros Hcalls Hplain [_ [?|(snapshot & (row & manifest & [k Hk] & Ed & Ec) & Es)]]; [by left|right].
  destruct (updates_submitted store plain _ _ _ row (Hcalls k) Hk) as [?|(next & Hsub)]; [done|].
  pose proof Hsub as ((expected & ok & Hin) & Hrev & text & He & Hj).
  destruct (postgres.Decode_stored store plain next text _ (Hplain _ _ _ _ Hin) He Hj) as (m' & Hsame & Ed').
  rewrite Ed in Ed'. destruct (_ <? _); [done|]. injection Ed' as <-.
  exists k, next, row, manifest, snapshot. split_and!; [done..|].
  unfold current_revision. rewrite Es. simpl. rewrite (Compile_revision _ _ _ Ec). apply Hsame.
Qed.

(** C11. Policies are distributed end to end: a process that polls, or watches
    published revisions, and reloads a store, which started empty and was changed by
    calls of [Update] only, enforces at every point the snapshot it started
    with or one compiled from a manifest with the content and the revision of
    a submitted one, also when other synchronizers of the store write to its
    engine. From a successful [Publish] of revision [v] on, wherever the
    watcher was by then and whatever it had read before, once it took a tick
    of its poll, or took the wakeup of a message, and still runs, its engine
    is at least at [v], so that an engine with an older policy then enforces
    a submitted one. *)
Theorem submitted_policies_are_enforced `{GoRuntime, OtherWriters, JSONCodec Manifest, ValkeyModule, LuaNumbers}
    (store : postgres.Store) `{!postgres.Postgres store} (plain : Manifest → Prop) `{!postgres.KeepsContent store plain}
    (table_at : nat → postgres.table) (calls_at : nat → list (Revision * Manifest * bool))
    (sync : Synchronizer) `{!ClockTotal (sync_clock sync), !DecodersTotal (sync_compiler sync)}
    (invalidator : valkey.Invalidator) `{!valkey.ValkeyLaws (valkey.inv_client invalidator)} (ctx ctx' : Context)
    (v after : Revision) (s s1 : server) (current : option Revision) (n n1 : nat)
    (server_before server_at : nat → server) (earlier events : list valkey.event) (start : sync_state)
    (st : valkey.watch_state sync_state) (m m1 : nat) :
  (∀ k, postgres.updates store None (calls_at k) (table_at k)) →
  (∀ k expected next ok, (expected, next, ok) ∈ calls_at k → plain next) →
  sync_repository sync = postgres.store_repository store table_at →
  (∀ k snapshot expected, (Some snapshot, expected) ∈ others k →
     compiled_from (sync_compiler sync) (held table_at) snapshot) →
  valkey.holds s (valkey.inv_key invalidator) current → 0 < v ≤ max_uint64 →
  valkey.Publish invalidator ctx' v s n = (Ret (Ok true, s1), n1) →
  (∀ k, valkey.publishes invalidator s1 (server_at k)) →
  is_Some (engine_snapshot (sync_engine start)) → after ≤ current_revision (sync_engine start) →
  valkey.watch_run invalidator ctx server_before (valkey.observe_handler sync ctx) earlier
    (valkey.mkWatch valkey.Opening after false valkey.Receiving [] start) m = (Ret st, m1) →
  valkey.notifies (valkey.w_receiver st) events →
  (∀ ticks k, runs k (Run sync ctx ticks start) (λ '(_, st') _,
     engine_snapshot (sync_engine st') = engine_snapshot (sync_engine start) ∨
     enforces_submission store (sync_compiler sync) calls_at (sync_engine st'))) ∧
  (engine_snapshot (sync_engine (valkey.w_handler st)) = engine_snapshot (sync_engine start) ∨
   enforces_submission store (sync_compiler sync) calls_at (sync_engine (valkey.w_handler st))) ∧
  runs m1 (valkey.watch_run invalidator ctx server_at (valkey.observe_handler sync ctx) events st) (λ st' _,
    let engine := sync_engine (valkey.w_handler st') in
    (engine_snapshot engine = engine_snapshot (sync_engine start) ∨
     enforces_submission store (sync_compiler sync) calls_at engine) ∧
    (valkey.w_phase st' = valkey.Selecting →
     v ≤ current_revision engine ∧
     (current_revision (sync_engine start) < v → enforces_submission store (sync_compiler sync) calls_at engine))).
Proof.
  intros Hcalls Hplain Hrepo Hothers Hh Hv Epub Hserver Hsnap Hafter Erun Hnot.
  set (P := λ h, enforces_rows (sync_compiler sync) (held table_at) (engine_snapshot (sync_engine start)) (sync_engine h)).
  assert (P start) as Hstart by (by split; [|left]).
  assert (∀ h, P h → engine_snapshot (sync_engine h) = engine_snapshot (sync_engine start) ∨
    enforces_submission store (sync_compiler sync) calls_at (sync_engine h)) as Horigin.
  { intros h. by apply (enforces_rows_submission store plain). }
  split.
  { intros ticks k. eapply runs_mono; [by apply (Run_enforces store sync table_at (engine_snapshot (sync_engine start)) Hrepo Hothers)|].
    intros [r st'] k' Hst. by apply Horigin. }
  assert (∀ revision h k, P h → runs k (valkey.observe_handler sync ctx revision h) (λ '(_, h') _, P h')) as Hhandler.
  { intros. by apply (Observe_enforces store sync table_at _ Hrepo Hothers). }
  destruct (watch_run_preserves invalidator ctx server_before _ P Hhandler earlier
    (valkey.mkWatch valkey.Opening after false valkey.Receiving [] start) m) as (st0 & m0 & E0 & Hst); [done|].
  rewrite Erun in E0. injection E0 as <- _. split; [by apply Horigin|].
  destruct (watch_run_preserves invalidator ctx server_at _ P Hhandler events st m1 Hst) as (st' & k & E & Hst').
  assert (RepositoryTotal (sync_repository sync)) as Htotal by (rewrite Hrepo; apply _).
  destruct (valkey.notified_enforced sync invalidator ctx ctx' v after s s1 current n n1 server_before server_at earlier
    events start st m m1 Hh Hv Epub Hserver Hsnap Hafter Erun Hnot) as (st1 & k1 & E1 & Hle).
  rewrite E in E1. injection E1 as <- <-. exists st', k. split; [done|]. cbn zeta.
  pose proof (Horigin _ Hst') as Hor. split; [done|].
  intros Hp. specialize (Hle Hp). split; [done|]. intros Hlt. destruct Hor as [Hsame|?]; [|done].
  unfold current_revision in Hle, Hlt. rewrite Hsame in Hle. lia.
Qed.

(** A store that was given the manifest of revision 7, an engine at revision 3
    and the publication of revision 5. *)
Definition sample_table : postgres.table := Some (postgres.mkRow 7 ("{manifest}" +:+ newline)).
Definition sample_calls : list (Revision * Manifest * bool) := [(0, sample_manifest, true)].

Definition store_sync : Synchronizer :=
  mkSynchronizer (@postgres.store_repository postgres.sample_codec postgres.plain_store (λ _, sample_table)) sample_compiler 1 5 (mret 10).

Lemma sample_updates : @postgres.updates postgres.sample_codec postgres.plain_store None sample_calls sample_table.
Proof.
  eapply (postgres.updates_call (H := postgres.sample_codec) postgres.plain_store context_Background 0 sample_manifest None
    0%nat (Ok sample_manifest)); [vm_compute; reflexivity|]. constructor.
Qed.

(** The watcher started before the publication, on an empty server; the
    message then moves its engine from revision 3 to 7. *)
Lemma submitted_policies_are_enforced_witness :
  ∃ st m1 st' k,
    valkey.watch_run valkey.sample_invalidator context_Background (λ _, valkey.empty_server)
      (@valkey.observe_handler plain_runtime no_writers store_sync context_Background) [valkey.FirstObserve]
      (valkey.mkWatch valkey.Opening 3 false valkey.Receiving [] (mkSyncState sample_engine 0)) 0%nat = (Ret st, m1) ∧
    current_revision (sync_engine (valkey.w_handler st)) = 3 ∧
    valkey.watch_run valkey.sample_invalidator context_Background (λ _, valkey.published_server)
      (@valkey.observe_handler plain_runtime no_writers store_sync context_Background)
      [valkey.Message; valkey.CaseWakeup] st m1 = (Ret st', k) ∧
    valkey.w_phase st' = valkey.Selecting ∧ current_revision (sync_engine (valkey.w_handler st')) = 7 ∧
    @enforces_submission plain_runtime postgres.sample_codec postgres.plain_store _ sample_compiler (λ _, sample_calls)
      (sync_engine (valkey.w_handler st')).
Proof.
  assert (∃ st m1, valkey.watch_run valkey.sample_invalidator context_Background (λ _, valkey.empty_server)
    (@valkey.observe_handler plain_runtime no_writers store_sync context_Background) [valkey.FirstObserve]
    (valkey.mkWatch valkey.Opening 3 false valkey.Receiving [] (mkSyncState sample_engine 0)) 0%nat = (Ret st, m1) ∧
    current_revision (sync_engine (valkey.w_handler st)) = 3 ∧ valkey.w_receiver st = valkey.Receiving ∧
    ∃ st' k, valkey.watch_run valkey.sample_invalidator context_Background (λ _, valkey.published_server)
      (@valkey.observe_handler plain_runtime no_writers store_sync context_Background)
      [valkey.Message; valkey.CaseWakeup] st m1 = (Ret st', k) ∧
      valkey.w_phase st' = valkey.Selecting ∧ current_revision (sync_engine (valkey.w_handler st')) = 7)
    as (st & m1 & E & Ev & Hr & st' & k & E' & Hp & Ev').
  { eexists _, _. split; [vm_compute; reflexivity|]. split; [reflexivity|]. split; [reflexivity|].
    eexists _, _. split; [vm_compute; reflexivity|]. split; reflexivity. }
  exists st, m1, st', k. split; [exact E|]. split; [exact Ev|]. split; [exact E'|]. split; [exact Hp|]. split; [exact Ev'|].
  edestruct (@submitted_policies_are_enforced plain_runtime no_writers postgres.sample_codec _ _ postgres.plain_store _
      (λ m, m = sample_manifest) _ (λ _, sample_table) (λ _, sample_calls) store_sync sample_clock_total sample_decoders_total
      valkey.sample_invalidator _ context_Background context_Background 5 3 valkey.empty_server valkey.published_server
      None 0%nat 0%nat (λ _, valkey.empty_server) (λ _, valkey.published_server) [valkey.FirstObserve]
      [valkey.Message; valkey.CaseWakeup] (mkSyncState sample_engine 0) st 0%nat m1) as (_ & _ & st2 & k2 & E2 & _ & H).
  - intros _. apply sample_updates.
  - intros _ expected next ok [= _ -> _]%list_elem_of_singleton. reflexivity.
  - reflexivity.
  - intros k' snapshot expected []%not_elem_of_nil.
  - apply valkey.empty_holds.
  - split; [lia|unfold max_uint64; lia].
  - vm_compute. reflexivity.
  - intros k'. constructor.
  - by eexists.
  - vm_compute. discriminate.
  - exact E.
  - right. split; [exact Hr|]. by exists [].
  - rewrite E' in E2. injection E2 as <- <-. apply (H Hp). vm_compute. reflexivity.
Defined.
End distribution.
