(* ===== verification/Telemetry.v ===== *)
(** * Logging and telemetry (adapters/slog/slog.go, adapters/otel/otel.go,
      internal/authorizationotel/instrumenter.go)

    Three modules, one per Go package: [authorizationslog] logs an event,
    [observation] is the internal OpenTelemetry implementation and
    [authorizationotel] its public constructor. The logger and the SDK are
    parameters whose calls change a sink of their own and may panic. *)

From Stdlib Require Import SpecFloat.
From S2P Require Import Prelude Strconv Attribute Request Decision Snapshot Engine Instrumentation.

#[local] Open Scope Z_scope.

(** ** Sinks *)

(** A call on a sink: its new state, and whether it returned or panicked. *)
Definition sink (T : Type) : Type := T → T * bool.

(** Calls in sequence: a panic leaves the rest out. *)
Fixpoint sink_all {T} (calls : list (sink T)) : sink T := λ t,
  match calls with
  | [] => (t, true)
  | call :: calls => match call t with (t, true) => sink_all calls t | (t, false) => (t, false) end
  end.

(** ** Floating point

    [float64(z)], and the methods of [time.Duration] the packages use. *)

Definition float64_of_Z (z : Z) : float64 := binary_normalize 53 1024 z 0 false.

Definition float64_add : float64 → float64 → float64 := SFadd 53 1024.
Definition float64_div : float64 → float64 → float64 := SFdiv 53 1024.

Definition Duration_Microseconds (d : Z) : Z := d `quot` 1000.

Definition Duration_Seconds (d : Z) : float64 :=
  float64_add (float64_of_Z (d `quot` 10 ^ 9)) (float64_div (float64_of_Z (d `rem` 10 ^ 9)) (float64_of_Z (10 ^ 9))).

(** [max(f, 0)]. *)
Definition float64_max_0 (f : float64) : float64 :=
  match f with
  | S754_nan => S754_nan
  | _ => if SFltb (S754_zero false) f then f else S754_zero false
  end.

(** ** slog *)

Module authorizationslog.

Definition ErrNilLogger := errors_New "authorization audit logger is nil".

Inductive slog_value :=
| SlogString (s : string)
| SlogUint64 (z : Z)
| SlogPolicyIDs (ids : list PolicyID)
| SlogBool (b : bool)
| SlogInt (z : Z)
| SlogFloat64 (f : float64).

Record Logger (T : Type) := mkLogger {
  LogAttrs : Context → Z → string → list (string * slog_value) → sink T
}.
Arguments mkLogger {T}.
Arguments LogAttrs {T}.

Record Instrumenter (T : Type) := mkSlog { slog_logger : Logger T; slog_level : Z }.
Arguments mkSlog {T}.
Arguments slog_logger {T}.
Arguments slog_level {T}.

Definition New {T} (logger : option (Logger T)) (level : Z) : result (Instrumenter T) :=
  match logger with None => Err ErrNilLogger | Some logger => Ok (mkSlog logger level) end.

Definition event_attrs (event : Event) : list (string * slog_value) :=
  [("outcome", SlogString (Outcome_String (Event_Outcome event)));
   ("reason", SlogString (Event_Reason event));
   ("revision", SlogUint64 (Event_Revision event));
   ("matched_policy_ids", SlogPolicyIDs (Event_MatchedPolicyIDs event));
   ("matched_policy_ids_truncated", SlogBool (Event_MatchedPolicyIDsTruncated event));
   ("trace_count", SlogInt (Event_TraceCount event));
   ("trace_truncated", SlogBool (Event_TraceTruncated event));
   ("duration_ms", SlogFloat64 (float64_div (float64_of_Z (Duration_Microseconds (Event_Duration event))) (float64_of_Z 1000)));
   ("failed", SlogBool (Event_Failed event))].

Definition Begin {T} (instrumenter : Instrumenter T) (ctx : Context) : Context * (Event → sink T) :=
  (ctx, λ event,
    LogAttrs (slog_logger instrumenter) ctx (slog_level instrumenter) "authorization decision" (event_attrs event)).

Definition Start {T} (instrumenter : Instrumenter T) (ctx : Context) : Context * (Event → sink T) :=
  Begin instrumenter ctx.
End authorizationslog.

(** ** OpenTelemetry *)

Inductive attribute_value := AttrString (s : string) | AttrInt (z : Z) | AttrBool (b : bool).

Definition KeyValue : Type := string * attribute_value.

(** What the SDK offers: spans, tracers, instruments and their providers. *)
Record Span (T : Type) := mkSpan {
  SetAttributes : list KeyValue → sink T;
  SetStatusError : string → sink T;
  Span_End : sink T
}.
Arguments mkSpan {T}.
Arguments SetAttributes {T}.
Arguments SetStatusError {T}.
Arguments Span_End {T}.

(** Starting an internal span; [None] when it panics. *)
Record Tracer (T : Type) := mkTracer { Tracer_Start : Context → string → T → T * option (Context * Span T) }.
Arguments mkTracer {T}.
Arguments Tracer_Start {T}.

Record Histogram (T : Type) := mkHistogram { Histogram_Record : Context → float64 → list KeyValue → sink T }.
Arguments mkHistogram {T}.
Arguments Histogram_Record {T}.

Record Counter (T : Type) := mkCounter { Counter_Add : Context → Z → list KeyValue → sink T }.
Arguments mkCounter {T}.
Arguments Counter_Add {T}.

(** The meter and the tracer of a scope; instruments by name, unit and
    description. *)
Record MeterProvider (T : Type) := mkMeterProvider {
  Float64Histogram : string → string → string → string → result (Histogram T);
  Int64Counter : string → string → string → string → result (Counter T)
}.
Arguments mkMeterProvider {T}.
Arguments Float64Histogram {T}.
Arguments Int64Counter {T}.

Record TracerProvider (T : Type) := mkTracerProvider { Provider_Tracer : string → Tracer T }.
Arguments mkTracerProvider {T}.
Arguments Provider_Tracer {T}.

Module observation.

Record Instrumenter (T : Type) := mkOtel { otel_tracer : Tracer T; otel_duration : Histogram T; otel_decisions : Counter T }.
Arguments mkOtel {T}.
Arguments otel_tracer {T}.
Arguments otel_duration {T}.
Arguments otel_decisions {T}.

Definition New {T} (scope : string) (tracerProvider : TracerProvider T) (meterProvider : MeterProvider T) :
    result (Instrumenter T) :=
  duration ← Float64Histogram meterProvider scope "authorization.decision.duration" "s" "Authorization decision latency";
  decisions ← Int64Counter meterProvider scope "authorization.decision.count" "{decision}"
    "Authorization decisions by bounded result";
  Ok (mkOtel (Provider_Tracer tracerProvider scope) duration decisions).

Definition Result (event : Event) : string :=
  if Event_Failed event then "error"
  else match Event_Outcome event with
  | Allow => "allow"
  | Deny => "deny"
  | NotApplicable => "not-applicable"
  | OutcomeOther _ => "error"
  end.

Definition span_attributes (event : Event) : list KeyValue :=
  [("authorization.result", AttrString (Result event));
   ("authorization.reason", AttrString (Event_Reason event));
   ("authorization.revision", AttrString (FormatUint (Event_Revision event)));
   ("authorization.matched_policy_count", AttrInt (len (Event_MatchedPolicyIDs event)));
   ("authorization.matched_policy_ids_truncated", AttrBool (Event_MatchedPolicyIDsTruncated event));
   ("authorization.trace_count", AttrInt (Event_TraceCount event));
   ("authorization.trace_truncated", AttrBool (Event_TraceTruncated event))].

(** The SDK calls of a completion, in their order. *)
Definition completion_calls {T} (instrumenter : Instrumenter T) (ctx : Context) (span : Span T) (event : Event) :
    list (sink T) :=
  let attributes := [("authorization.result", AttrString (Result event))] in
  [Counter_Add (otel_decisions instrumenter) ctx 1 attributes;
   Histogram_Record (otel_duration instrumenter) ctx (float64_max_0 (Duration_Seconds (Event_Duration event))) attributes;
   SetAttributes span (span_attributes event)] ++
  (if Event_Failed event then [SetStatusError span "authorization evaluation failed"] else []) ++
  [Span_End span].

(** [once.Do]: [true] once the function was entered, whether it returned or
    panicked. *)
Definition once_Do {T} (f : sink T) : sink (bool * T) := λ '(entered, t),
  if entered then (true, t, true) else let '(t, ok) := f t in (true, t, ok).

(** The callback of [Begin], with the [sync.Once] it captures. *)
Definition Begin {T} (instrumenter : Instrumenter T) (ctx : Context) (t : T) :
    T * option (Context * (Event → sink (bool * T))) :=
  let '(t, started) := Tracer_Start (otel_tracer instrumenter) ctx "authorization.decide" t in
  (t, '(ctx, span) ← started; Some (ctx, λ event, once_Do (sink_all (completion_calls instrumenter ctx span event)))).
End observation.

Module authorizationotel.

Definition scopeName : string := "github.com/faustbrian/go-authorization/adapters/otel".

Definition ErrNilTracerProvider := errors_New "authorization OpenTelemetry tracer provider is nil".
Definition ErrNilMeterProvider := errors_New "authorization OpenTelemetry meter provider is nil".

Record Config (T : Type) := mkConfig {
  Config_TracerProvider : interface (TracerProvider T);
  Config_MeterProvider : interface (MeterProvider T)
}.
Arguments mkConfig {T}.
Arguments Config_TracerProvider {T}.
Arguments Config_MeterProvider {T}.

Definition isNil {A} (value : interface A) : bool :=
  match value with NilInterface | TypedNil _ => true | Implemented _ => false end.

(** Providers that pass [isNil] have methods. *)
Definition New {T} (config : Config T) : result (observation.Instrumenter T) :=
  if isNil (Config_TracerProvider config) then Err ErrNilTracerProvider
  else if isNil (Config_MeterProvider config) then Err ErrNilMeterProvider
  else match methods_of (Config_TracerProvider config), methods_of (Config_MeterProvider config) with
  | Some tracerProvider, Some meterProvider => observation.New scopeName tracerProvider meterProvider
  | _, _ => Err ErrNilTracerProvider
  end.

Definition Begin {T} (instrumenter : observation.Instrumenter T) (ctx : Context) (t : T) :=
  observation.Begin instrumenter ctx t.

Definition Start {T} (instrumenter : observation.Instrumenter T) (ctx : Context) (t : T) := Begin instrumenter ctx t.

(** ** Lemmas *)

(** Repeated calls of one callback. *)
Fixpoint complete_all {T} (finish : Event → sink (bool * T)) (events : list Event) (st : bool * T) :
    bool * T * list bool :=
  match events with
  | [] => (st, [])
  | event :: events =>
      let '(st, ok) := finish event st in
      let '(st, oks) := complete_all finish events st in
      (st, ok :: oks)
  end.

Lemma once_Do_first {T} (f : sink T) t : observation.once_Do f (false, t) = (true, (f t).1, (f t).2).
Proof. simpl. by destruct (f t). Qed.

Lemma entered_stays {T} (f : Event → sink T) events t :
  complete_all (λ event, observation.once_Do (f event)) events (true, t) = (true, t, replicate (length events) true).
Proof. induction events as [|event events IH]; simpl; [done|]. by rewrite IH. Qed.

Lemma complete_all_first {T} (f : Event → sink T) event events t :
  complete_all (λ event, observation.once_Do (f event)) (event :: events) (false, t) =
    (true, (f event t).1, (f event t).2 :: replicate (length events) true).
Proof. cbn [complete_all]. unfold observation.once_Do at 1. destruct (f event t) as [t2 ok]. by rewrite entered_stays. Qed.

Lemma Result_closed event : observation.Result event ∈ ["allow"; "deny"; "not-applicable"; "error"].
Proof. unfold observation.Result. destruct (Event_Failed event), (Event_Outcome event); set_solver. Qed.

Lemma Result_decision event (max : Z) (d : Decision) (err : option error) :
  event_reports max d err event →
  (observation.Result event = "allow" ↔ err = None ∧ Decision_Outcome d = Allow) ∧
  (observation.Result event = "deny" ↔ err = None ∧ Decision_Outcome d = Deny) ∧
  (observation.Result event = "error" ↔ is_Some err ∨ outcome_above_Deny (Decision_Outcome d) = true).
Proof.
  intros (Ho & _ & _ & _ & _ & _ & _ & _ & Hf). unfold observation.Result. rewrite Ho, Hf.
  assert (∀ c, outcome_above_Deny (OutcomeOther c) = true) as Hother.
  { intros c. unfold outcome_above_Deny, outcome_code. apply N.ltb_lt. lia. }
  destruct err as [e|]; simpl.
  - split_and!; split; try done; [by intros []..|]. left. by eexists.
  - destruct (Decision_Outcome d); split_and!; split; intros; try done; destruct_and?; destruct_or?; try done;
      try (by match goal with H : is_Some None |- _ => destruct H end). by right.
Qed.

(** An SDK that records its calls. *)
Inductive sdk_call :=
| CallStart (name : string)
| CallAdd (value : Z) (attributes : list KeyValue)
| CallRecord (value : float64) (attributes : list KeyValue)
| CallSetAttributes (attributes : list KeyValue)
| CallSetStatusError (description : string)
| CallEnd.

Definition record (call : sdk_call) : sink (list sdk_call) := λ calls, (calls ++ [call], true).

Definition recording_span : Span (list sdk_call) :=
  mkSpan (λ attributes, record (CallSetAttributes attributes)) (λ description, record (CallSetStatusError description))
    (record CallEnd).

Definition recording_config : Config (list sdk_call) :=
  mkConfig
    (Implemented (mkTracerProvider (λ _, mkTracer (λ ctx name calls,
      (calls ++ [CallStart name], Some (ctx, recording_span))))))
    (Implemented (mkMeterProvider
      (λ _ _ _ _, Ok (mkHistogram (λ _ value attributes, record (CallRecord value attributes))))
      (λ _ _ _ _, Ok (mkCounter (λ _ value attributes, record (CallAdd value attributes)))))).

(** What one completion tells the SDK. *)
Definition completed (event : Event) : list sdk_call :=
  let attributes := [("authorization.result", AttrString (observation.Result event))] in
  [CallAdd 1 attributes; CallRecord (float64_max_0 (Duration_Seconds (Event_Duration event))) attributes;
   CallSetAttributes (observation.span_attributes event)] ++
  (if Event_Failed event then [CallSetStatusError "authorization evaluation failed"] else []) ++ [CallEnd].

Lemma float64_max_0_nonneg f : SFltb (float64_max_0 f) (S754_zero false) = false.
Proof. by destruct f as [[|]|[|]| |[|] m e]. Qed.

Lemma recording_completion recorder ctx event calls :
  New recording_config = Ok recorder →
  sink_all (observation.completion_calls recorder ctx recording_span event) calls = (calls ++ completed event, true).
Proof.
  intros [= <-]. unfold observation.completion_calls, completed. destruct (Event_Failed event); simpl;
    unfold record; by rewrite <- !app_assoc.
Qed.

(** C33. A span is completed once: however often its callback is called, and
    whether the SDK panics or not, only the first call reaches the SDK, and
    later calls return. With an SDK that works, that first call counts the
    decision, records a duration that is not negative, sets the attributes,
    marks failures and ends the span, in this order. The result label is one
    of four, the same in the metrics and in the span, and for an event that
    reports a decision it is [allow] or [deny] only for that outcome without
    an error. *)
Theorem otel_completes_once {T} (instrumenter : observation.Instrumenter T) (ctx next : Context) (t t1 : T)
    (finish : Event → sink (bool * T)) (event : Event) (events : list Event) (max : Z) (d : Decision)
    (err : option error) :
  Begin instrumenter ctx t = (t1, Some (next, finish)) → event_reports max d err event →
  (∃ t2 ok, finish event (false, t1) = (true, t2, ok) ∧
    complete_all finish (event :: events) (false, t1) = (true, t2, ok :: replicate (length events) true)) ∧
  (∀ recorder, New recording_config = Ok recorder →
    ∃ finish', Begin recorder ctx [] = ([CallStart "authorization.decide"], Some (ctx, finish')) ∧
      complete_all finish' (event :: events) (false, [CallStart "authorization.decide"]) =
        (true, CallStart "authorization.decide" :: completed event, replicate (S (length events)) true)) ∧
  observation.Result event ∈ ["allow"; "deny"; "not-applicable"; "error"] ∧
  (observation.Result event = "allow" ↔ err = None ∧ Decision_Outcome d = Allow) ∧
  (observation.Result event = "deny" ↔ err = None ∧ Decision_Outcome d = Deny) ∧
  SFltb (float64_max_0 (Duration_Seconds (Event_Duration event))) (S754_zero false) = false.
Proof.
  intros Eb Hreports. split_and!.
  - unfold Begin, observation.Begin in Eb. destruct (Tracer_Start _ _ _ _) as [t0 [[c span]|]]; [|done].
    injection Eb as <- <- <-.
    set (f := λ event, sink_all (observation.completion_calls instrumenter c span event)).
    exists (f event t0).1, (f event t0).2. 
    split; [exact (once_Do_first (f event) t0)|exact (complete_all_first f event events t0)].
  - intros recorder E. eexists. split; [injection E as <-; done|].
    etrans; [exact (complete_all_first
      (λ event, sink_all (observation.completion_calls recorder ctx recording_span event)) event events _)|].
    cbv beta. by rewrite (recording_completion recorder).
  - apply Result_closed.
  - by apply (Result_decision event max).
  - by apply (Result_decision event max).
  - apply float64_max_0_nonneg.
Qed.

Definition failed_event : Event := mkEvent Deny ReasonEvaluationError 4 ["p"] false 1 false (-5) true.

Lemma otel_completes_once_witness :
  ∃ finish, Begin (observation.mkOtel (mkTracer (λ ctx name calls, (calls ++ [CallStart name], Some (ctx, recording_span))))
      (mkHistogram (λ _ _ _ calls, (calls, false))) (mkCounter (λ _ _ _ calls, (calls, true)))) context_Background [] =
      ([CallStart "authorization.decide"], Some (context_Background, finish)) ∧
    (complete_all finish [decision_event 1 zeroDecision None 0 0; failed_event] (false, [CallStart "authorization.decide"])).2 =
      [false; true].
Proof.
  eexists. split; [reflexivity|].
  destruct (otel_completes_once (observation.mkOtel
    (mkTracer (λ ctx name calls, (calls ++ [CallStart name], Some (ctx, recording_span))))
    (mkHistogram (λ _ _ _ calls, (calls, false))) (mkCounter (λ _ _ _ calls, (calls, true)))) context_Background context_Background
    [] _ _ (decision_event 1 zeroDecision None 0 0) [failed_event] 1 zeroDecision None eq_refl) as ((t2 & ok & E1 & E2) & _).
  - apply decision_event_reports. lia.
  - transitivity (ok :: replicate 1 true); [exact (f_equal snd E2)|]. vm_compute in E1. injection E1 as <- <-. reflexivity.
Defined.
End authorizationotel.
