(* ===== verification/Conformance.v ===== *)
(** * Fixtures and conformance checks (authorizationtest/authorizationtest.go)

    Module [authorizationtest]: the request builder, the static evaluators,
    the assertions and the conformance run an authorizer can be put through.
    Attribute maps of the builder are references of a heap, since a builder
    is changed in place while the requests it built stay; [tested] is a test
    that a fatal assertion stops. *)

From S2P Require Import Prelude Attribute Request Decision Snapshot Engine Instrumentation Documents.

#[local] Open Scope Z_scope.

Module authorizationtest.

(** ** Requests *)

(** 2025-01-02T03:04:05Z, in nanoseconds since the first day of year 1, of
    which it is day 739252. *)
Definition FixedTime : Time := (((739252 * 24 + 3) * 60 + 4) * 60 + 5) * 10 ^ 9.

Abbreviation loc := positive.
Abbreviation attribute_map := (gmap string Value).
Abbreviation heap := (gmap loc attribute_map).

(** A [Request] whose attribute maps are references, nil or not. *)
Record request_ref := mkRequestRef {
  ref_kind : SubjectKind;
  ref_id : SubjectID;
  ref_groups : list SubjectID;
  ref_subject_attributes : option loc;
  ref_action : Action;
  ref_type : ResourceType;
  ref_resource : ResourceID;
  ref_resource_attributes : option loc;
  ref_tenant : TenantID;
  ref_time : Time;
  ref_environment_attributes : option loc;
  ref_attributes : option loc
}.

(** The value of a request in a heap. *)
Definition read_map (h : heap) (l : option loc) : Attributes := l ≫= λ l, h !! l.

Definition read (h : heap) (r : request_ref) : Request :=
  mkRequest (mkSubject (ref_kind r) (ref_id r) (ref_groups r) (read_map h (ref_subject_attributes r)))
    (ref_action r) (mkResource (ref_type r) (ref_resource r) (read_map h (ref_resource_attributes r)))
    (ref_tenant r) (mkEnvironment (ref_time r) (read_map h (ref_environment_attributes r)))
    (read_map h (ref_attributes r)).

(** A builder holds its request; [WithX] changes it and returns it. *)
Definition RequestBuilder : Type := request_ref.

Definition NewRequest : RequestBuilder :=
  mkRequestRef SubjectUser "user-1" [] None "read" "document" "document-1" None "tenant-1" FixedTime None None.

Definition WithSubject (kind : SubjectKind) (id : SubjectID) (b : RequestBuilder) : RequestBuilder :=
  mkRequestRef kind id (ref_groups b) (ref_subject_attributes b) (ref_action b) (ref_type b) (ref_resource b)
    (ref_resource_attributes b) (ref_tenant b) (ref_time b) (ref_environment_attributes b) (ref_attributes b).

Definition with_groups (groups : list SubjectID) (b : RequestBuilder) : RequestBuilder :=
  mkRequestRef (ref_kind b) (ref_id b) groups (ref_subject_attributes b) (ref_action b) (ref_type b) (ref_resource b)
    (ref_resource_attributes b) (ref_tenant b) (ref_time b) (ref_environment_attributes b) (ref_attributes b).

Definition WithGroup (id : SubjectID) (b : RequestBuilder) : RequestBuilder := with_groups (ref_groups b ++ [id]) b.

Definition WithAction (action : Action) (b : RequestBuilder) : RequestBuilder :=
  mkRequestRef (ref_kind b) (ref_id b) (ref_groups b) (ref_subject_attributes b) action (ref_type b) (ref_resource b)
    (ref_resource_attributes b) (ref_tenant b) (ref_time b) (ref_environment_attributes b) (ref_attributes b).

Definition WithResource (typeName : ResourceType) (id : ResourceID) (b : RequestBuilder) : RequestBuilder :=
  mkRequestRef (ref_kind b) (ref_id b) (ref_groups b) (ref_subject_attributes b) (ref_action b) typeName id
    (ref_resource_attributes b) (ref_tenant b) (ref_time b) (ref_environment_attributes b) (ref_attributes b).

Definition WithTenant (tenant : TenantID) (b : RequestBuilder) : RequestBuilder :=
  mkRequestRef (ref_kind b) (ref_id b) (ref_groups b) (ref_subject_attributes b) (ref_action b) (ref_type b)
    (ref_resource b) (ref_resource_attributes b) tenant (ref_time b) (ref_environment_attributes b) (ref_attributes b).

(** Instants have no monotonic part and no zone here. *)
Definition WithTime (time : Time) (b : RequestBuilder) : RequestBuilder :=
  mkRequestRef (ref_kind b) (ref_id b) (ref_groups b) (ref_subject_attributes b) (ref_action b) (ref_type b)
    (ref_resource b) (ref_resource_attributes b) (ref_tenant b) time (ref_environment_attributes b) (ref_attributes b).

Definition with_maps (subject resource environment request : option loc) (b : RequestBuilder) : RequestBuilder :=
  mkRequestRef (ref_kind b) (ref_id b) (ref_groups b) subject (ref_action b) (ref_type b) (ref_resource b)
    resource (ref_tenant b) (ref_time b) environment request.

(** A map is changed in place; nil is replaced by a new map. *)
Definition setAttribute (attributes : option loc) (name : AttributeName) (value : Value) (h : heap) :
    option loc * heap :=
  match attributes with
  | None => let l := fresh (dom h) in (Some l, <[l := {[name := value]}]> h)
  | Some l => (Some l, alter (λ m, <[name := value]> m) l h)
  end.

Definition WithSubjectAttribute (name : AttributeName) (value : Value) (b : RequestBuilder) (h : heap) :
    RequestBuilder * heap :=
  let '(l, h) := setAttribute (ref_subject_attributes b) name value h in
  (with_maps l (ref_resource_attributes b) (ref_environment_attributes b) (ref_attributes b) b, h).

Definition WithResourceAttribute (name : AttributeName) (value : Value) (b : RequestBuilder) (h : heap) :
    RequestBuilder * heap :=
  let '(l, h) := setAttribute (ref_resource_attributes b) name value h in
  (with_maps (ref_subject_attributes b) l (ref_environment_attributes b) (ref_attributes b) b, h).

Definition WithEnvironmentAttribute (name : AttributeName) (value : Value) (b : RequestBuilder) (h : heap) :
    RequestBuilder * heap :=
  let '(l, h) := setAttribute (ref_environment_attributes b) name value h in
  (with_maps (ref_subject_attributes b) (ref_resource_attributes b) l (ref_attributes b) b, h).

Definition WithAttribute (name : AttributeName) (value : Value) (b : RequestBuilder) (h : heap) :
    RequestBuilder * heap :=
  let '(l, h) := setAttribute (ref_attributes b) name value h in
  (with_maps (ref_subject_attributes b) (ref_resource_attributes b) (ref_environment_attributes b) l b, h).

(** A new map with the entries of the old one, in the order of the loop. *)
Definition cloneAttributes `{GoRuntime} (attributes : option loc) (h : heap) : option loc * heap :=
  match attributes with
  | None => (None, h)
  | Some l =>
      let l' := fresh (dom h) in
      (Some l', <[l' := clone_map (default ∅ (h !! l))]> h)
  end.

Definition Build `{GoRuntime} (b : RequestBuilder) (h : heap) : request_ref * heap :=
  let request := with_groups ([] ++ ref_groups b) b in
  let '(subject, h) := cloneAttributes (ref_subject_attributes b) h in
  let '(resource, h) := cloneAttributes (ref_resource_attributes b) h in
  let '(environment, h) := cloneAttributes (ref_environment_attributes b) h in
  let '(attributes, h) := cloneAttributes (ref_attributes b) h in
  (with_maps subject resource environment attributes request, h).

(** ** Evaluators *)

(** [Evaluate] copies the slices of the decision. *)
Definition StaticEvaluator (decision : Decision) (err : option error) : Evaluator :=
  mkEvaluator (λ _ _, mret (mkDecision (Decision_Outcome decision) (Decision_Reason decision)
    ([] ++ Decision_MatchedPolicyIDs decision) (Decision_MatchedPolicyIDsTruncated decision)
    (Decision_Revision decision) ([] ++ Decision_Trace decision) (Decision_TraceTruncated decision), err)).

Definition AllowEvaluator (reason : ReasonCode) : Evaluator := StaticEvaluator (bareDecision Allow reason 0) None.
Definition DenyEvaluator (reason : ReasonCode) : Evaluator := StaticEvaluator (bareDecision Deny reason 0) None.
Definition NotApplicableEvaluator : Evaluator := StaticEvaluator (bareDecision NotApplicable "" 0) None.
Definition ErrorEvaluator (err : option error) : Evaluator := StaticEvaluator zeroDecision err.

(** ** Assertions *)

(** A value, or the format of the message of [Fatalf], which stops the test. *)
Definition tested (A : Type) : Type := A + string.

Definition Fatalf {A} (format : string) : tested A := inr format.

Definition MustSnapshot `{GoRuntime} (revision : Revision) (algorithm : CombiningAlgorithm)
    (definitions : list PolicyDefinition) : tested Snapshot :=
  match NewSnapshot revision algorithm definitions with
  | Err err => Fatalf "authorization.NewSnapshot() error = %v"
  | Ok snapshot => inl snapshot
  end.

Definition MustEngine `{GoRuntime} (snapshot : option Snapshot) (options : list EngineOption) : tested Engine :=
  match NewEngine snapshot options with
  | Err err => Fatalf "authorization.NewEngine() error = %v"
  | Ok engine => inl engine
  end.

(** Deep equality also tells nil slices from empty ones; decisions have one
    empty list here. *)
Definition RequireDecision (got : Decision) (err : option error) (want : Decision) : tested unit :=
  match err with
  | Some _ => Fatalf "Decide() error = %v"
  | None => if bool_decide (got = want) then inl tt else Fatalf "Decide() = %#v, want %#v"
  end.

Definition RequireOutcome (decision : Decision) (want : Outcome) : tested unit :=
  if bool_decide (Decision_Outcome decision = want) then inl tt else Fatalf "decision outcome = %s, want %s".

(** ** Decisions as JSON *)

Record traceJSON := mkTraceJSON { traceJSON_PolicyID : string; traceJSON_Outcome : string; traceJSON_Reason : string }.

Record decisionJSON := mkDecisionJSON {
  json_Outcome : string;
  json_Reason : string;
  json_MatchedPolicyIDs : list string;
  json_MatchedPolicyIDsTruncated : bool;
  json_Revision : Z;
  json_Trace : list traceJSON;
  json_TraceTruncated : bool
}.

Definition decision_json (decision : Decision) : decisionJSON :=
  mkDecisionJSON (Outcome_String (Decision_Outcome decision)) (Decision_Reason decision)
    (Decision_MatchedPolicyIDs decision) (Decision_MatchedPolicyIDsTruncated decision) (Decision_Revision decision)
    ((λ entry, mkTraceJSON (Trace_PolicyID entry) (Outcome_String (Trace_Outcome entry)) (Trace_Reason entry))
       <$> Decision_Trace decision)
    (Decision_TraceTruncated decision).

(** [json_Marshal] is [json.MarshalIndent] with the indentation of the source. *)
Definition CanonicalDecisionJSON `{JSONCodec decisionJSON} (decision : Decision) : string * option error :=
  match json_Marshal (decision_json decision) with
  | Ok encoded => (encoded +:+ String (Ascii.ascii_of_nat 10) "", None)
  | Err err => (String (Ascii.ascii_of_nat 10) "", Some err)
  end.

(** ** Conformance *)

Definition AuthorizerFactory : Type := Evaluator → Authorizer.

(** A context derived from [ctx] and cancelled at once. *)
Definition canceledContext (ctx : Context) : Context :=
  mkContext (λ n, Some (default context_Canceled (Err_at ctx n))).

Definition requireConformanceDecision (decision : Decision) (err : option error) (outcome : Outcome)
    (reason : ReasonCode) (wantError : bool) : tested unit :=
  if negb (Bool.eqb (bool_decide (is_Some err)) wantError) then Fatalf "Decide() error = %v, want error %v"
  else if negb (bool_decide (Decision_Outcome decision = outcome)) || negb (bool_decide (Decision_Reason decision = reason))
  then Fatalf "Decide() = %#v, want outcome %s and reason %q"
  else inl tt.

Record conformance_case := mkCase {
  case_name : string;
  case_evaluator : Evaluator;
  case_request : Request;
  case_prepare : option (Context → Context);
  case_outcome : Outcome;
  case_reason : ReasonCode;
  case_wantError : bool
}.

Definition zero_request : Request :=
  mkRequest (mkSubject "" "" [] None) "" (mkResource "" "" None) "" (mkEnvironment 0 None) None.

(** [NewRequest().Build()]. *)
Definition built_request `{GoRuntime} : Request := let '(request, h) := Build NewRequest ∅ in read h request.

Definition conformance_cases `{GoRuntime} : list conformance_case :=
  [mkCase "allow" (AllowEvaluator "fixture-allow") built_request None Allow "fixture-allow" false;
   mkCase "deny" (DenyEvaluator "fixture-deny") built_request None Deny "fixture-deny" false;
   mkCase "default deny" NotApplicableEvaluator built_request None Deny ReasonDefaultDeny false;
   mkCase "evaluation error" (ErrorEvaluator (Some (errors_New "fixture failure"))) built_request None Deny
     ReasonEvaluationError true;
   mkCase "invalid request" (AllowEvaluator "unused") zero_request None Deny ReasonInvalidRequest true;
   mkCase "canceled context" (AllowEvaluator "unused") built_request (Some canceledContext) Deny
     ReasonContextCanceled true].

(** The subtest of a case. *)
Definition run_case (factory : AuthorizerFactory) (test : conformance_case) : M (tested unit) :=
  let authorizer := factory (case_evaluator test) in
  let ctx := context_Background in
  let ctx := match case_prepare test with Some prepare => prepare ctx | None => ctx end in
  '(decision, err) ← authorizer_Decide authorizer ctx (case_request test);
  mret (requireConformanceDecision decision err (case_outcome test) (case_reason test) (case_wantError test)).

(** The subtests in their order: a failed one does not stop the others. *)
Fixpoint run_cases (factory : AuthorizerFactory) (tests : list conformance_case) : M (list (string * tested unit)) :=
  match tests with
  | [] => mret []
  | test :: tests =>
      r ← run_case factory test;
      results ← run_cases factory tests;
      mret ((case_name test, r) :: results)
  end.

Definition RunAuthorizerConformance `{GoRuntime} (factory : AuthorizerFactory) : M (list (string * tested unit)) :=
  run_cases factory conformance_cases.

(** ** The builder against values

    The same operations on a [Request] as a value. *)

Inductive builder_op :=
| OpSubject (kind : SubjectKind) (id : SubjectID)
| OpGroup (id : SubjectID)
| OpAction (action : Action)
| OpResource (typeName : ResourceType) (id : ResourceID)
| OpTenant (tenant : TenantID)
| OpTime (time : Time)
| OpSubjectAttribute (name : AttributeName) (value : Value)
| OpResourceAttribute (name : AttributeName) (value : Value)
| OpEnvironmentAttribute (name : AttributeName) (value : Value)
| OpAttribute (name : AttributeName) (value : Value)
| OpBuild.

Record building := mkBuilding { b_builder : RequestBuilder; b_heap : heap; b_built : list request_ref }.

Definition set_builder (st : building) (b : RequestBuilder) : building := mkBuilding b (b_heap st) (b_built st).
Definition set_both (st : building) (bh : RequestBuilder * heap) : building := mkBuilding bh.1 bh.2 (b_built st).

Definition build_step `{GoRuntime} (st : building) (op : builder_op) : building :=
  let b := b_builder st in
  let h := b_heap st in
  match op with
  | OpSubject kind id => set_builder st (WithSubject kind id b)
  | OpGroup id => set_builder st (WithGroup id b)
  | OpAction action => set_builder st (WithAction action b)
  | OpResource typeName id => set_builder st (WithResource typeName id b)
  | OpTenant tenant => set_builder st (WithTenant tenant b)
  | OpTime time => set_builder st (WithTime time b)
  | OpSubjectAttribute name value => set_both st (WithSubjectAttribute name value b h)
  | OpResourceAttribute name value => set_both st (WithResourceAttribute name value b h)
  | OpEnvironmentAttribute name value => set_both st (WithEnvironmentAttribute name value b h)
  | OpAttribute name value => set_both st (WithAttribute name value b h)
  | OpBuild => let '(request, h) := Build b h in mkBuilding b h (b_built st ++ [request])
  end.

Definition set_attr (name : AttributeName) (value : Value) (attributes : Attributes) : Attributes :=
  Some (<[name := value]> (default ∅ attributes)).

Definition value_step (st : Request * list Request) (op : builder_op) : Request * list Request :=
  let '(request, built) := st in
  let '(mkRequest (mkSubject kind id groups sattrs) action (mkResource typ rid rattrs) tenant
    (mkEnvironment time eattrs) attrs) := request in
  match op with
  | OpSubject kind id =>
      (mkRequest (mkSubject kind id groups sattrs) action (mkResource typ rid rattrs) tenant (mkEnvironment time eattrs) attrs, built)
  | OpGroup group =>
      (mkRequest (mkSubject kind id (groups ++ [group]) sattrs) action (mkResource typ rid rattrs) tenant
        (mkEnvironment time eattrs) attrs, built)
  | OpAction action =>
      (mkRequest (mkSubject kind id groups sattrs) action (mkResource typ rid rattrs) tenant (mkEnvironment time eattrs) attrs, built)
  | OpResource typ rid =>
      (mkRequest (mkSubject kind id groups sattrs) action (mkResource typ rid rattrs) tenant (mkEnvironment time eattrs) attrs, built)
  | OpTenant tenant =>
      (mkRequest (mkSubject kind id groups sattrs) action (mkResource typ rid rattrs) tenant (mkEnvironment time eattrs) attrs, built)
  | OpTime time =>
      (mkRequest (mkSubject kind id groups sattrs) action (mkResource typ rid rattrs) tenant (mkEnvironment time eattrs) attrs, built)
  | OpSubjectAttribute name value =>
      (mkRequest (mkSubject kind id groups (set_attr name value sattrs)) action (mkResource typ rid rattrs) tenant
        (mkEnvironment time eattrs) attrs, built)
  | OpResourceAttribute name value =>
      (mkRequest (mkSubject kind id groups sattrs) action (mkResource typ rid (set_attr name value rattrs)) tenant
        (mkEnvironment time eattrs) attrs, built)
  | OpEnvironmentAttribute name value =>
      (mkRequest (mkSubject kind id groups sattrs) action (mkResource typ rid rattrs) tenant
        (mkEnvironment time (set_attr name value eattrs)) attrs, built)
  | OpAttribute name value =>
      (mkRequest (mkSubject kind id groups sattrs) action (mkResource typ rid rattrs) tenant
        (mkEnvironment time eattrs) (set_attr name value attrs), built)
  | OpBuild => (request, built ++ [request])
  end.

(** The map fields of a request, and of a builder with all it built. *)
Definition fields (r : request_ref) : list (option loc) :=
  [ref_subject_attributes r; ref_resource_attributes r; ref_environment_attributes r; ref_attributes r].

Definition all_fields (st : building) : list (option loc) := fields (b_builder st) ++ concat (fields <$> b_built st).

(** Every map is allocated and belongs to one field. *)
Definition own (h : heap) (fs : list (option loc)) : Prop :=
  (∀ i j l, fs !! i = Some (Some l) → fs !! j = Some (Some l) → i = j) ∧
  (∀ i l, fs !! i = Some (Some l) → is_Some (h !! l)).

(** A heap change outside the fields of a list, except for one. *)
Lemma read_fields_set h h' fs i a' v :
  (i < length fs)%nat → read_map h' a' = v →
  (∀ j f, j ≠ i → fs !! j = Some f → read_map h' f = read_map h f) →
  read_map h' <$> <[i := a']> fs = <[i := v]> (read_map h <$> fs).
Proof.
  intros Hi Hv Hother. apply list_eq. intros j. rewrite list_lookup_fmap.
  destruct (decide (j = i)) as [->|Hne].
  - rewrite !list_lookup_insert_eq by (by rewrite ?length_fmap). simpl. by rewrite Hv.
  - rewrite !list_lookup_insert_ne, list_lookup_fmap by done. destruct (fs !! j) as [f|] eqn:E; [|done]. simpl. f_equal. by apply (Hother j).
Qed.

Lemma fresh_heap (h : heap) l : is_Some (h !! l) → l ≠ fresh (dom h).
Proof. intros Hl ->. apply (is_fresh (dom h)). by apply elem_of_dom. Qed.

Lemma own_set h fs i a name value :
  own h fs → fs !! i = Some a →
  let '(a', h') := setAttribute a name value h in
  own h' (<[i := a']> fs) ∧
  read_map h' <$> <[i := a']> fs = <[i := set_attr name value (read_map h a)]> (read_map h <$> fs).
Proof.
  intros [Hu Ha] Hi. pose proof (lookup_lt_Some _ _ _ Hi) as Hlt. unfold setAttribute. destruct a as [l|].
  - destruct (Ha i l Hi) as [m Hm]. rewrite list_insert_id by done. split; [split; [done|]|].
    + intros j k Hj. destruct (decide (k = l)) as [->|Hne].
      * rewrite lookup_alter_eq, Hm. by eexists.
      * rewrite lookup_alter_ne by done. by apply (Ha j).
    + rewrite <- (list_insert_id fs i (Some l)) at 1 by done. apply read_fields_set; [done| |].
      * simpl. rewrite lookup_alter_eq, Hm. done.
      * intros j [k|] Hne Hj; [|done]. simpl. rewrite lookup_alter_ne; [done|].
        intros ->. apply Hne. symmetry. by apply (Hu i j k).
  - set (l := fresh (dom h)). assert (∀ j k, fs !! j = Some (Some k) → k ≠ l) as Hnew.
    { intros j k Hj. apply fresh_heap. by apply (Ha j). }
    split; [split|].
    + intros j k x. destruct (decide (j = i)) as [->|]; destruct (decide (k = i)) as [->|]; [done| | |].
      * rewrite list_lookup_insert_eq, list_lookup_insert_ne by done. intros [= <-] Hk. by apply Hnew in Hk.
      * rewrite list_lookup_insert_eq, list_lookup_insert_ne by done. intros Hk [= <-]. by apply Hnew in Hk.
      * rewrite !list_lookup_insert_ne by done. apply Hu.
    + intros j k. destruct (decide (j = i)) as [->|].
      * rewrite list_lookup_insert_eq by done. intros [= <-]. rewrite lookup_insert_eq. by eexists.
      * rewrite list_lookup_insert_ne by done. intros Hj. rewrite lookup_insert_ne by (by apply not_eq_sym, (Hnew j)).
        by apply (Ha j).
    + apply read_fields_set; [done|simpl; by rewrite lookup_insert_eq|]. intros j [k|] Hne Hj; [|done]. simpl.
      by rewrite lookup_insert_ne by (by apply not_eq_sym, (Hnew j)).
Qed.

Lemma own_clone `{GoRuntime} h fs i a :
  own h fs → fs !! i = Some a →
  let '(a', h') := cloneAttributes a h in
  own h' (fs ++ [a']) ∧ read_map h' a' = read_map h a ∧ ∀ f, f ∈ fs → read_map h' f = read_map h f.
Proof.
  intros [Hu Ha] Hi. unfold cloneAttributes. destruct a as [l|].
  - set (l' := fresh (dom h)). assert (∀ j k, fs !! j = Some (Some k) → k ≠ l') as Hnew.
    { intros j k Hj. apply fresh_heap. by apply (Ha j). }
    assert (∀ j k, (fs ++ [Some l']) !! j = Some (Some k) → fs !! j = Some (Some k) ∨ (j = length fs ∧ k = l')) as Hcase.
    { intros j k Hj. apply lookup_app_Some in Hj as [?|[Hlen Hj]]; [by left|right].
      apply list_lookup_singleton_Some in Hj as [? [= <-]]. split; [lia|done]. }
    split; [split|].
    + intros j k x [Hj|[-> ->]]%Hcase [Hk|[-> Hx]]%Hcase; [by apply (Hu j k x)| | |done].
      * subst. by apply Hnew in Hj.
      * by apply Hnew in Hk.
    + intros j k [Hj|[-> ->]]%Hcase; [|rewrite lookup_insert_eq; by eexists].
      rewrite lookup_insert_ne by (by apply not_eq_sym, (Hnew j)). by apply (Ha j).
    + split.
      * simpl. rewrite lookup_insert_eq, clone_map_id. destruct (Ha i l Hi) as [m Hm]. by rewrite Hm.
      * intros [k|] Hf; [|done]. apply list_elem_of_lookup in Hf as [j Hj]. simpl.
        by rewrite lookup_insert_ne by (by apply not_eq_sym, (Hnew j)).
  - split; [|done]. split.
    + intros j k x Hj Hk. apply lookup_app_Some in Hj as [Hj|[_ Hj]], Hk as [Hk|[_ Hk]]; try (by apply (Hu j k x));
        by apply list_lookup_singleton_Some in Hj as [_ ?] || by apply list_lookup_singleton_Some in Hk as [_ ?].
    + intros j k Hj. apply lookup_app_Some in Hj as [Hj|[_ Hj]]; [by apply (Ha j)|].
      by apply list_lookup_singleton_Some in Hj as [_ ?].
Qed.

(** The builder as references and as values. *)
Record simulates (st : building) (values : Request * list Request) : Prop := {
  sim_own : own (b_heap st) (all_fields st);
  sim_builder : read (b_heap st) (b_builder st) = values.1;
  sim_built : read (b_heap st) <$> b_built st = values.2
}.

Lemma read_built h h' built :
  read_map h' <$> concat (fields <$> built) = read_map h <$> concat (fields <$> built) →
  read h' <$> built = read h <$> built.
Proof.
  induction built as [|r built IH]; [done|]. csimpl. intros [= E1 E2 E3 E4 E]. f_equal; [|by apply IH].
  unfold read. by rewrite E1, E2, E3, E4.
Qed.

(** The fields keep their maps: the step changed no map. *)
Lemma simulates_scalar st b values :
  simulates st values → fields b = fields (b_builder st) →
  simulates (set_builder st b) (read (b_heap st) b, values.2).
Proof.
  intros [Hown Hb Hbuilt] Hf. split; [|done|done]. unfold all_fields.
  cbn [set_builder b_builder b_built b_heap]. rewrite Hf. exact Hown.
Qed.

Lemma simulates_set st values i a name value b :
  simulates st values → (i < 4)%nat → fields (b_builder st) !! i = Some a →
  let '(a', h') := setAttribute a name value (b_heap st) in
  fields b = <[i := a']> (fields (b_builder st)) →
  read_map h' <$> fields b = <[i := set_attr name value (read_map (b_heap st) a)]> (read_map (b_heap st) <$> fields (b_builder st)) ∧
  simulates (mkBuilding b h' (b_built st)) (read h' b, values.2).
Proof.
  intros [Hown Hb Hbuilt] Hi Ha.
  assert (all_fields st !! i = Some a) as Ha' by (unfold all_fields; by rewrite lookup_app_l by (simpl; lia)).
  pose proof (own_set (b_heap st) (all_fields st) i a name value Hown Ha') as Hset.
  destruct (setAttribute a name value (b_heap st)) as [a' h']. intros Hf. destruct Hset as [Hown' Hread].
  assert (<[i := a']> (all_fields st) = fields b ++ concat (fields <$> b_built st)) as Hall.
  { unfold all_fields. rewrite insert_app_l by (simpl; lia). by rewrite Hf. }
  rewrite Hall in Hown', Hread. unfold all_fields in Hread.
  rewrite !fmap_app, insert_app_l in Hread by (rewrite length_fmap; simpl; lia).
  apply app_inj_1 in Hread as [Hr1 Hr2]; [|rewrite length_insert, !length_fmap; done].
  split; [done|]. split; simpl; [done|done|]. rewrite <- Hbuilt. by apply read_built.
Qed.

Lemma simulates_build `{GoRuntime} st values :
  simulates st values → simulates (build_step st OpBuild) (values.1, values.2 ++ [values.1]).
Proof.
  intros [Hown Hb Hbuilt]. simpl. unfold Build.
  pose proof (own_clone (b_heap st) (all_fields st) 0 _ Hown eq_refl) as H1.
  destruct (cloneAttributes (ref_subject_attributes _) _) as [a1 h1]. destruct H1 as (O1 & E1 & R1).
  pose proof (own_clone h1 _ 1 _ O1 eq_refl) as H2.
  destruct (cloneAttributes (ref_resource_attributes _) _) as [a2 h2]. destruct H2 as (O2 & E2 & R2).
  pose proof (own_clone h2 _ 2 _ O2 eq_refl) as H3.
  destruct (cloneAttributes (ref_environment_attributes _) _) as [a3 h3]. destruct H3 as (O3 & E3 & R3).
  pose proof (own_clone h3 _ 3 _ O3 eq_refl) as H4.
  destruct (cloneAttributes (ref_attributes _) _) as [a4 h4]. destruct H4 as (O4 & E4 & R4).
  assert (∀ f, f ∈ all_fields st → read_map h4 f = read_map (b_heap st) f) as Hkeep.
  { intros f Hf. rewrite R4, R3, R2, R1 by set_solver. done. }
  set (b := b_builder st) in *.
  assert (read h4 (with_maps a1 a2 a3 a4 (with_groups ([] ++ ref_groups b) b)) = read (b_heap st) b) as Hnew.
  { unfold read. simpl. rewrite E4, (R4 a3), (R4 a2), (R4 a1), E3, (R3 a2), (R3 a1), E2, (R2 a1), E1 by set_solver.
    rewrite (R3 (ref_attributes b)), (R2 (ref_attributes b)), (R1 (ref_attributes b)),
      (R2 (ref_environment_attributes b)), (R1 (ref_environment_attributes b)), (R1 (ref_resource_attributes b));
      [done|unfold all_fields, fields; fold b; set_solver..]. }
  split; simpl.
  - unfold all_fields. simpl. rewrite fmap_app, concat_app. unfold all_fields in O4. by rewrite <- !app_assoc in O4.
  - rewrite <- Hb. fold b. unfold read. by rewrite !Hkeep by (unfold all_fields, fields; fold b; set_solver).
  - rewrite fmap_app, <- Hb, <- Hbuilt. f_equal; [|simpl; by rewrite <- Hnew].
    apply read_built, list_fmap_ext. intros j f Hj. apply Hkeep. apply elem_of_app. right.
    by apply list_elem_of_lookup_2 in Hj.
Qed.

(** A method that sets an attribute of field [i]. *)
Ltac attribute_case Hset st i field name value method :=
  specialize (λ b, Hset i (field (b_builder st)) name value b ltac:(lia) eq_refl);
  simpl; unfold method, set_both; destruct (setAttribute _ name value _) as [l h']; simpl;
  match goal with |- simulates (mkBuilding ?b _ _) _ =>
    destruct (Hset b eq_refl) as [[= E1 E2 E3 E4] Hs];
    unfold read in Hs at 1; simpl in Hs; rewrite E1, E2, E3, E4 in Hs; exact Hs
  end.

Lemma build_step_simulates `{GoRuntime} st values op :
  simulates st values → simulates (build_step st op) (value_step values op).
Proof.
  intros Hsim. pose proof Hsim as [_ Hb _]. destruct values as [request built]. simpl in Hb.
  assert (∀ b, fields b = fields (b_builder st) → simulates (set_builder st b) (read (b_heap st) b, built)) as Hscalar.
  { intros b. by apply (simulates_scalar st b (request, built)). }
  pose proof (λ i a name value b, simulates_set st (request, built) i a name value b Hsim) as Hset.
  subst request. destruct op as [| | | | | |name value|name value|name value|name value|]; try (by apply Hscalar).
  - attribute_case Hset st 0%nat ref_subject_attributes name value WithSubjectAttribute.
  - attribute_case Hset st 1%nat ref_resource_attributes name value WithResourceAttribute.
  - attribute_case Hset st 2%nat ref_environment_attributes name value WithEnvironmentAttribute.
  - attribute_case Hset st 3%nat ref_attributes name value WithAttribute.
  - exact (simulates_build st _ Hsim).
Qed.

(** The request [NewRequest] starts from, as a value. *)
Definition fixture_request : Request :=
  mkRequest (mkSubject SubjectUser "user-1" [] None) "read" (mkResource "document" "document-1" None) "tenant-1"
    (mkEnvironment FixedTime None) None.

(** C31. Built requests are independent: after any sequence of builder calls,
    the builder's request is what the calls make of a value, and every
    request built on the way still is what it was when it was built, though
    the builder has changed its attribute maps in place since. *)
Theorem builder_refines_values `{GoRuntime} (ops : list builder_op) :
  let st := foldl build_step (mkBuilding NewRequest ∅ []) ops in
  let values := foldl value_step (fixture_request, []) ops in
  read (b_heap st) (b_builder st) = values.1 ∧ read (b_heap st) <$> b_built st = values.2.
Proof.
  intros st values. enough (simulates st values) as [_ ? ?] by done. subst st values.
  assert (simulates (mkBuilding NewRequest ∅ []) (fixture_request, [])) as H0.
  { split; [|done|done]. split; [intros i j l Hi|intros i l Hi]; exfalso;
      do 4 (destruct i as [|i]; [done|]); done. }
  revert H0. generalize (mkBuilding NewRequest ∅ []), (fixture_request, @nil Request).
  induction ops as [|op ops IH]; intros st values Hsim; [done|]. simpl. by apply IH, build_step_simulates.
Qed.

(** ** Conformance of the engine *)

Section engine.
Context `{GoRuntime}.
Context (revision : Revision) (algorithm : CombiningAlgorithm) (id : PolicyID) (options : list EngineOption).

(** An engine over one policy; a failed constructor stops the test. *)
Definition single_policy (ev : Evaluator) : PolicyDefinition := mkPolicyDefinition id 0 0 0 0 None (Some ev).

Definition engine_of (ev : Evaluator) : tested Engine :=
  match MustSnapshot revision algorithm [single_policy ev] with
  | inl snapshot => MustEngine (Some snapshot) options
  | inr message => inr message
  end.

Definition engine_factory : AuthorizerFactory := λ ev,
  match engine_of ev with
  | inl engine => engine_authorizer engine
  | inr _ => mkAuthorizer (λ _ _, go_call Panic)
  end.

Context (Hrev : revision ≠ 0) (Halg : algorithm_valid algorithm) (Hid : id ≠ "").
Context (Hopt : ∀ snapshot, len (snapshot_policies snapshot) = 1 → is_Ok (NewEngine (Some snapshot) options) = true).

Lemma single_snapshot ev :
  NewSnapshot revision algorithm [single_policy ev] =
    Ok (mkSnapshot revision algorithm [newPolicyEntry revision (single_policy ev) ev]).
Proof.
  unfold NewSnapshot. rewrite (proj2 (Z.eqb_neq _ _) Hrev). simpl snapshot_loop.
  rewrite (bool_decide_eq_false_2 (id = "")), (bool_decide_eq_false_2 (id ∈ ∅)) by (done || set_solver).
  simpl. by destruct algorithm.
Qed.

Lemma engine_of_run ev :
  ∃ engine, engine_of ev = inl engine ∧
    engine_snapshot engine = Some (mkSnapshot revision algorithm [newPolicyEntry revision (single_policy ev) ev]).
Proof.
  unfold engine_of, MustSnapshot. rewrite single_snapshot. unfold MustEngine.
  set (s := mkSnapshot _ _ _). pose proof (Hopt s eq_refl) as Hok.
  destruct (NewEngine (Some s) options) as [engine|] eqn:E; [|done]. exists engine. split; [done|].
  unfold NewEngine in E. destruct (_ <? _); [done|]. by injection E as <-.
Qed.

(** The decision of an engine with one policy that answers [(d, err)]. *)
Lemma single_decide ev engine d err ctx request n :
  engine_snapshot engine = Some (mkSnapshot revision algorithm [newPolicyEntry revision (single_policy ev) ev]) →
  (∀ ctx request, Evaluate ev ctx request = mret (d, err)) → outcome_valid (Decision_Outcome d) →
  Request_Validate request = None → Environment_Time (Request_Environment request) ≠ 0 →
  (∀ k, Err_at ctx k = None) →
  runs n (Engine_Decide engine ctx request) (λ '(got, err') _,
    match err with
    | Some _ => is_Some err' ∧ Decision_Outcome got = Deny ∧ Decision_Reason got = ReasonEvaluationError
    | None => err' = None ∧
        if bool_decide (Decision_Outcome d = NotApplicable)
        then Decision_Outcome got = Deny ∧ Decision_Reason got = ReasonDefaultDeny
        else Decision_Outcome got = Decision_Outcome d ∧ Decision_Reason got = Decision_Reason d
    end).
Proof.
  intros Hs Hev Hd Hreq Htime Hctx. unfold Engine_Decide, load_snapshot.
  set (s := mkSnapshot _ _ _) in Hs. eapply (runs_bind _ _ _ (λ s' _, s' = s)); [exists s, n; by rewrite Hs|].
  intros ? k ->. unfold engine_decide. rewrite Hreq. apply runs_ctx_Err. rewrite Hctx.
  unfold evaluation_time, time_IsZero. rewrite (proj2 (Z.eqb_neq _ _) Htime).
  unfold runs. rewrite M_bind_ret_l. simpl decide_loop. unfold mbind at 1, M_bind at 1. rewrite ctx_Err_bind, Hctx.
  unfold policy_decision. simpl.
  assert (evaluatePolicy ctx ev request (S (S k)) = (Ret (d, err), S (S k))) as Ee.
  { unfold evaluatePolicy. by rewrite Hev. }
  rewrite (M_bind_Ret _ _ _ _ _ Ee). destruct err as [err|]; [by eexists _, _|].
  assert (outcome_above_Deny (Decision_Outcome d) = false) as Hab by (by destruct (Decision_Outcome d)). rewrite Hab.
  set (st := decide_record _ _ _ _). assert (st_decisions st = [d]) as Hst by (unfold st, decide_record; by repeat case_match).
  assert (∃ got, decide_finish s st = (got, None) ∧
    if bool_decide (Decision_Outcome d = NotApplicable)
    then Decision_Outcome got = Deny ∧ Decision_Reason got = ReasonDefaultDeny
    else Decision_Outcome got = Decision_Outcome d ∧ Decision_Reason got = Decision_Reason d) as (got & Eg & Hgot).
  { unfold decide_finish, Combine. rewrite Hst. simpl. rewrite Hab. simpl.
    destruct algorithm; try done; simpl; destruct d as [[| | |] ? ? ? ? ? ?]; try done; simpl; by eexists. }
  exists (got, None), (S (S k)). split; [|done]. destruct (isDecisive _ _); unfold mret, M_ret; fold s; by rewrite Eg.
Qed.

(** A case without preparation, of an evaluator that answers [(d, err)]. *)
Lemma run_case_static test d err n :
  case_evaluator test = StaticEvaluator d err → case_prepare test = None → outcome_valid (Decision_Outcome d) →
  Request_Validate (case_request test) = None → Environment_Time (Request_Environment (case_request test)) ≠ 0 →
  (match err with
   | Some _ => case_wantError test = true ∧ case_outcome test = Deny ∧ case_reason test = ReasonEvaluationError
   | None => case_wantError test = false ∧
       if bool_decide (Decision_Outcome d = NotApplicable)
       then case_outcome test = Deny ∧ case_reason test = ReasonDefaultDeny
       else case_outcome test = Decision_Outcome d ∧ case_reason test = Decision_Reason d
   end) →
  runs n (run_case engine_factory test) (λ r _, r = inl tt).
Proof.
  intros Hev Hprep Hd Hreq Htime Hwant. unfold run_case, engine_factory. rewrite Hprep, Hev.
  destruct (engine_of_run (StaticEvaluator d err)) as (engine & -> & Hs).
  eapply runs_bind; [apply (single_decide _ engine d err context_Background (case_request test) n Hs)|]; try done.
  { intros. simpl. by destruct d. }
  intros [got err'] k Hgot. apply runs_ret. unfold requireConformanceDecision.
  destruct err as [err|].
  - destruct Hwant as (-> & -> & ->), Hgot as ([e ->] & -> & ->). done.
  - destruct Hwant as (-> & Hwant), Hgot as (-> & Hgot).
    destruct (bool_decide (Decision_Outcome d = NotApplicable)); destruct Hwant as [-> ->], Hgot as [-> ->]; simpl;
      by rewrite ?bool_decide_eq_true_2 by done.
Qed.

(** A request refused before any policy is evaluated. *)
Lemma run_case_refused test n :
  Request_Validate (case_request test) ≠ None ∧ case_reason test = ReasonInvalidRequest ∨
  Request_Validate (case_request test) = None ∧ case_prepare test = Some canceledContext ∧
    case_reason test = ReasonContextCanceled →
  case_outcome test = Deny → case_wantError test = true →
  runs n (run_case engine_factory test) (λ r _, r = inl tt).
Proof.
  intros Hcase Hout Hwant. unfold run_case, engine_factory.
  destruct (engine_of_run (case_evaluator test)) as (engine & -> & Hs). simpl authorizer_Decide.
  unfold Engine_Decide, load_snapshot, runs, mbind, M_bind. rewrite Hs. unfold engine_decide.
  destruct Hcase as [[Hreq Hreason]|(Hreq & Hprep & Hreason)].
  - destruct (Request_Validate (case_request test)) as [e|]; [|done]. eexists _, _. split; [done|].
    unfold requireConformanceDecision. by rewrite Hout, Hwant, Hreason.
  - rewrite Hreq, Hprep. eexists _, _. split; [done|].
    unfold requireConformanceDecision. by rewrite Hout, Hwant, Hreason.
Qed.

Lemma engine_conforms n :
  runs n (RunAuthorizerConformance engine_factory) (λ results _,
    results.*1 = case_name <$> conformance_cases ∧ Forall (λ result, result.2 = inl tt) results).
Proof.
  assert (∀ tests n, Forall (λ test, ∀ n, runs n (run_case engine_factory test) (λ r _, r = inl tt)) tests →
    runs n (run_cases engine_factory tests) (λ results _,
      results.*1 = case_name <$> tests ∧ Forall (λ result, result.2 = inl tt) results)) as Hrun.
  { intros tests. induction tests as [|test tests IH]; intros k Hall; [by apply runs_ret|].
    apply Forall_cons in Hall as [Htest Hall]. eapply runs_bind; [apply Htest|]. intros r k1 ->.
    eapply runs_bind; [by apply IH|]. intros results k2 [Hn Hr]. apply runs_ret. csimpl. rewrite Hn. by split; [|constructor]. }
  apply Hrun. unfold conformance_cases. repeat constructor; intros k.
  1-4: eapply run_case_static; try done.
  1-2: apply run_case_refused; by auto.
Qed.
End engine.

(** C29. The engine passes the conformance run: over one policy, under every
    combining algorithm and every options it is constructed with, the engine
    answers the six cases as required, for every evaluator of the cases. *)
Theorem engine_passes_conformance `{GoRuntime} (revision : Revision) (algorithm : CombiningAlgorithm) (id : PolicyID)
    (options : list EngineOption) (n : nat) :
  revision ≠ 0 → algorithm_valid algorithm → id ≠ "" →
  (∀ snapshot, len (snapshot_policies snapshot) = 1 → is_Ok (NewEngine (Some snapshot) options) = true) →
  runs n (RunAuthorizerConformance (engine_factory revision algorithm id options)) (λ results _,
    results.*1 = ["allow"; "deny"; "default deny"; "evaluation error"; "invalid request"; "canceled context"] ∧
    Forall (λ result, result.2 = inl tt) results).
Proof. intros Hrev Halg Hid Hopt. by apply engine_conforms. Qed.

Lemma engine_passes_conformance_witness :
  runs 0 (RunAuthorizerConformance (H := plain_runtime)
      (engine_factory (H := plain_runtime) 1 DenyOverrides "fixture" [WithClock None]))
    (λ results _, length results = 6%nat ∧ Forall (λ result, result.2 = inl tt) results).
Proof.
  eapply runs_mono; [apply (engine_passes_conformance (H := plain_runtime) 1 DenyOverrides "fixture" [WithClock None] 0)|].
  - discriminate.
  - exact I.
  - discriminate.
  - intros snapshot E. simpl. rewrite E. reflexivity.
  - intros results k [Hn Hall]. split; [|exact Hall]. rewrite <- (length_fmap fst), Hn. reflexivity.
Defined.

(** The checks tell authorizers apart: one that allows without evaluating
    fails the last five. *)
Example allow_all_fails :
  ((λ r, bool_decide (r.2 = inl tt)) <$>
    match (RunAuthorizerConformance (H := plain_runtime)
      (λ _, mkAuthorizer (λ _ _, mret (bareDecision Allow "fixture-allow" 1, None))) 0%nat).1 with
    | Ret results => results
    | Panic => []
    end) = [true; false; false; false; false; false].
Proof. vm_compute. reflexivity. Qed.
End authorizationtest.
