(* ===== verification/TenantDocuments.v ===== *)
(** * The example program (examples/tenant_documents/main.go)

    Module [tenant_documents]: three models under deny-overrides, one
    decision, one line of output. *)

From S2P Require Import Prelude Strconv Attribute Request Decision Snapshot Engine.
From S2P Require Import RoleGraph Conditions ACL RBAC ABAC Documents Manifest.

#[local] Open Scope Z_scope.

Module tenant_documents.

Definition alice : Subject := mkSubject SubjectUser "alice" [] None.

Section program.
Context `{GoRuntime}.

Definition rolePolicy : result rbac.Evaluator :=
  rbac.New [mkRole "reader" "tenant-1" []]
    [rbac.mkPermission "documents-read" "reader" "tenant-1" "document.read" "document" "" Allow 0]
    [rbac.mkAssignment "alice-reader" alice "reader" "tenant-1"] [].

Definition accessList : result acl.Evaluator :=
  acl.New [acl.mkEntry "protected-delete" alice "document.delete" "document" "document-1" "tenant-1" Deny] [].

Definition ownerPolicy : Go (result abac.Evaluator) :=
  abac.New [abac.mkRule "owner-update" 0 "tenant-1" "document.update" "document" "" Allow
    (Some (Equal (mkReference SourceResource "owned_by_subject") (BoolValue true))) "" 0] [] [].

Definition policy_of (id : PolicyID) (evaluator : Snapshot.Evaluator) : PolicyDefinition :=
  mkPolicyDefinition id 0 0 0 0 None (Some evaluator).

(** The engine of the program; [log.Fatal] ends it with the error. *)
Definition tenant_engine : M (result Engine) :=
  match rolePolicy with
  | Err err => mret (Err err)
  | Ok rolePolicy =>
      match accessList with
      | Err err => mret (Err err)
      | Ok accessList =>
          owner ← go_call ownerPolicy;
          mret match owner with
          | Err err => Err err
          | Ok ownerPolicy =>
              snapshot ← NewSnapshot 1 DenyOverrides
                [policy_of "tenant-rbac" (rbac.as_evaluator rolePolicy); policy_of "resource-acl" (acl.as_evaluator accessList);
                 policy_of "ownership-abac" (abac.as_evaluator ownerPolicy)];
              NewEngine (Some snapshot) []
          end
      end
  end.

Definition alice_request (action : Action) (owned : bool) : Request :=
  mkRequest alice action
    (mkResource "document" "document-1" (Some {[ "owned_by_subject" := BoolValue owned ]}))
    "tenant-1" (mkEnvironment 0 None) None.

(** The line the program prints, or the error it ends with. *)
Definition main : M (result string) :=
  engine ← tenant_engine;
  match engine with
  | Err err => mret (Err err)
  | Ok engine =>
      '(decision, err) ← Engine_Decide engine context_Background (alice_request "document.read" true);
      mret match err with
      | Some err => Err err
      | None =>
          Ok (Outcome_String (Decision_Outcome decision) +:+ " revision=" +:+ FormatUint (Decision_Revision decision) +:+
              policy.newline)
      end
  end.
End program.

(** Runs of the program and of its engine, for both orders of map loops. *)
Example main_prints :
  (main (H := plain_runtime) 0%nat).1 = Ret (Ok ("allow revision=1" +:+ policy.newline)) ∧
  (main (H := reverse_runtime) 0%nat).1 = Ret (Ok ("allow revision=1" +:+ policy.newline)).
Proof. split; vm_compute; reflexivity. Qed.

(** The outcome of the engine for a request of alice. *)
Definition outcome_of (action : Action) (owned : bool) : option Outcome :=
  match (tenant_engine (H := plain_runtime) 0%nat).1 with
  | Ret (Ok engine) =>
      match (Engine_Decide engine context_Background (alice_request action owned) 0%nat).1 with
      | Ret (decision, None) => Some (Decision_Outcome decision)
      | _ => None
      end
  | _ => None
  end.

(** Owners update, nobody deletes the protected document, other actions are
    denied by default. *)
Example tenant_outcomes :
  outcome_of "document.update" true = Some Allow ∧ outcome_of "document.update" false = Some Deny ∧
  outcome_of "document.delete" true = Some Deny ∧ outcome_of "document.share" true = Some Deny.
Proof. split_and!; vm_compute; reflexivity. Qed.
End tenant_documents.
