(* ===== verification/DocumentJSON.v ===== *)
(** * The JSON forms of ACL and RBAC documents (acl/document.go, rbac/document.go)

    The struct tags of the two packages as schemas, and the codecs
    [encoding/json] derives from them: they discharge what the document entry
    points assume of JSON. *)

From S2P Require Import Prelude GoStrings JSON UTF8 JSONText JSONValues.
From S2P Require Import Attribute Request Decision Snapshot Engine Matching ACL RoleGraph RBAC Documents.

#[local] Open Scope Z_scope.

(** ** Nesting

    Encoders of bounded depth. *)

Definition depth_law {A} (encode : encoder A) (n : nat) : Prop := ∀ a v, encode a = Some v → (nesting v ≤ n)%nat.

Fixpoint schema_depth {S C} (n : nat) (sch : schema S C) : Prop :=
  match sch with
  | End => True
  | Field _ _ _ encode _ others => depth_law encode n ∧ schema_depth n others
  end.

Lemma depth_literal {A} (text : A → string) n : depth_law (λ a, Some (Literal (text a))) n.
Proof. intros a v [= <-]. simpl. lia. Qed.

Lemma depth_array {A} (encode : encoder A) n : depth_law encode n → depth_law (encode_array encode) (S n).
Proof.
  intros Hd l v. unfold encode_array. destruct (mapM encode l) as [vs|] eqn:Em; [|done].
  intros [= <-]. cbn [nesting]. apply le_n_S.
  apply mapM_Some_1 in Em. induction Em as [|x v l' vs E _ IH]; cbn [foldr]; [lia|]. apply Hd in E. lia.
Qed.

Lemma depth_slice {A} (encode : encoder A) n : depth_law encode n → depth_law (encode_slice encode) (S n).
Proof. intros Hd [|a l] v; [intros [= <-]; simpl; lia|]. by apply depth_array. Qed.

Lemma depth_struct {S C} (sch : schema S C) n : schema_depth n sch → depth_law (encode_struct sch) (Datatypes.S n).
Proof.
  intros Hd s v Ev. unfold encode_struct, encode_fields in Ev.
  assert (Forall (λ f, ∀ value, field_value f = Some value → (nesting value ≤ n)%nat) (schema_fields sch s)) as Hf.
  { clear Ev. induction sch as [|A C name omitted project encode decode others IH]; [constructor|].
    destruct Hd as [Hd Hds]. constructor; [|by apply IH]. intros value. apply Hd. }
  destruct (mapM _ _) as [members|] eqn:Em; [|done]. injection Ev as <-. cbn [nesting]. apply le_n_S.
  apply mapM_Some_1 in Em. revert Em. generalize (schema_fields sch s) as fields, Hf. clear Hd Hf.
  induction fields as [|f fields IH] in members |- *; intros Hf Em.
  { rewrite filter_nil in Em. apply Forall2_nil_inv_l in Em as ->. simpl. lia. }
  apply Forall_cons in Hf as [Hf Hfs]. rewrite filter_cons in Em. case_decide; [|by apply IH].
  apply Forall2_cons_inv_l in Em as ([key value] & others & E & Em & ->). cbn [foldr snd].
  destruct (field_value f) as [value'|]; [|done]. injection E as _ <-. specialize (Hf _ eq_refl). specialize (IH _ Hfs Em). lia.
Qed.

Lemma depth_mono {A} (encode : encoder A) n m : depth_law encode n → (n ≤ m)%nat → depth_law encode m.
Proof. intros Hd Hle a v Ev. specialize (Hd a v Ev). lia. Qed.

Lemma shallow_law {A} (encode : encoder A) n a v : depth_law encode n → (n ≤ 10)%nat → encode a = Some v → shallow v.
Proof.
  intros Hd Hn Ev. specialize (Hd a v Ev). unfold shallow. assert (10 ≤ maxNestingDepth)%nat; [|lia].
  apply Nat.leb_le. vm_compute. reflexivity.
Qed.

(** Encoders that accept every value. *)
Definition total_law {A} (encode : encoder A) : Prop := ∀ a, is_Some (encode a).

Lemma total_array {A} (encode : encoder A) : total_law encode → total_law (encode_array encode).
Proof.
  intros He l. unfold encode_array. destruct (mapM encode l) as [vs|] eqn:Em; [by eexists|].
  apply mapM_None_1, Exists_exists in Em as (a & _ & Ea). destruct (He a). congruence.
Qed.

Fixpoint schema_total {S C} (sch : schema S C) : Prop :=
  match sch with
  | End => True
  | Field _ _ _ encode _ others => total_law encode ∧ schema_total others
  end.

Lemma total_struct {S C} (sch : schema S C) : schema_total sch → total_law (encode_struct sch).
Proof.
  intros Hs s. unfold encode_struct, encode_fields. destruct (mapM _ _) as [members|] eqn:Em; [by eexists|].
  apply mapM_None_1, Exists_exists in Em as (f & [_ Hf]%list_elem_of_filter & Ef). exfalso.
  induction sch as [|A C name omitted project encode decode others IH]; [by apply not_elem_of_nil in Hf|].
  destruct Hs as [He Hs]. apply elem_of_cons in Hf as [-> | Hf]; [|by apply IH].
  simpl in Ef. by destruct (He (project s)) as [v Ev]; rewrite Ev in Ef.
Qed.

(** The codec of a document type. *)
Definition struct_codec `{JSONErrors} {D C} (sch : schema D C) (make : C) : JSONCodec D := {|
  json_Decode := Decoder_Decode (decode_struct sch make) Decoded NotDecoded;
  json_Marshal := MarshalIndent (encode_struct sch)
|}.

Lemma struct_codec_faithful `{JSONErrors} {D C} (sch : schema D C) (make : C) faithful :
  codec_law maxNestingDepth 0 (encode_struct sch) (decode_struct sch make) faithful →
  (∀ d v, faithful d → encode_struct sch d = Some v → shallow v) →
  @JSONFaithful D (struct_codec sch make) faithful.
Proof.
  intros Hlaw Hd document encoded rest Hf (v & Ev & ->)%MarshalIndent_Ok. pose proof (Hd _ _ Hf Ev) as Hs.
  destruct (Hlaw document v Hf Ev) as [? ?]; [by split|]. by eapply decode_laid_out.
Qed.

(** Proves the law of a struct from the laws of its fields. *)
Ltac struct_fields :=
  apply struct_law; [evaluates|evaluates|by intros []|];
  let s := fresh "s" in let H := fresh "H" in intros s H; hnf in H; rewrite ?Forall_cons in H; destruct_and? H; lawful_fields.

(** Bounds the nesting of a struct by the nesting of its fields. *)
Ltac bounded_depth :=
  apply depth_struct; cbn; repeat split;
  repeat match goal with
  | |- depth_law (encode_slice _) _ => apply depth_slice
  | |- depth_law (encode_array _) _ => apply depth_array
  | |- depth_law (encode_struct _) _ => apply depth_struct; cbn; repeat split
  | |- depth_law _ _ => apply depth_literal
  end.

(** ** ACL documents *)

Module acl_json.
Import acl_document.

Definition entry_schema : schema EntryDocument _ :=
  required strings "id" ID $
  required strings "subject_kind" SubjectKind $
  required strings "subject_id" SubjectID $
  required strings "action" Action $
  required strings "resource_type" ResourceType $
  omitempty "" strings "resource_id" ResourceID $
  omitempty "" strings "tenant" Tenant $
  required strings "effect" Effect End.

Definition limits_schema : schema acl.Limits _ :=
  omitempty 0 ints "max_entries" acl.MaxEntries $
  omitempty 0 ints "max_groups" acl.MaxGroups $
  omitempty 0 ints "max_matches" acl.MaxMatches $
  omitempty 0 ints "max_batch_size" acl.MaxBatchSize End.

(** [omitempty] has no effect on a field of struct type. *)
Definition document_schema : schema Document _ :=
  required uint64s "version" Version $
  omitempty false bools "global_inheritance" GlobalInheritance $
  required (structs limits_schema acl.mkLimits) "limits" Limits $
  required (slices (structs entry_schema mkEntryDocument)) "entries" Entries End.

(** What JSON represents: the strings are UTF-8 and the integers are values of
    their Go types. *)
Definition entry_faithful (e : EntryDocument) : Prop :=
  Forall valid_string [ID e; SubjectKind e; SubjectID e; Action e; ResourceType e; ResourceID e; Tenant e; Effect e].

Definition limits_faithful (l : acl.Limits) : Prop :=
  Forall in_int64 [acl.MaxEntries l; acl.MaxGroups l; acl.MaxMatches l; acl.MaxBatchSize l].

Definition faithful (d : Document) : Prop :=
  in_uint64 (Version d) ∧ limits_faithful (Limits d) ∧ Forall entry_faithful (Entries d).

Lemma acl_entry_law n d : codec_law n d (encode_struct entry_schema) (decode_struct entry_schema mkEntryDocument) entry_faithful.
Proof. struct_fields. Qed.

Lemma acl_limits_law n d : codec_law n d (encode_struct limits_schema) (decode_struct limits_schema acl.mkLimits) limits_faithful.
Proof. struct_fields. Qed.

#[local] Hint Resolve acl_entry_law acl_limits_law : json_laws.

Lemma acl_document_law n d : codec_law n d (encode_struct document_schema) (decode_struct document_schema mkDocument) faithful.
Proof. struct_fields. Qed.

Lemma acl_document_shallow : depth_law (encode_struct document_schema) 3.
Proof. bounded_depth. Qed.

#[global] Instance acl_codec `{JSONErrors} : JSONCodec Document := struct_codec document_schema mkDocument.

#[global] Instance acl_codec_faithful `{JSONErrors} : JSONFaithful Document faithful.
Proof. apply struct_codec_faithful; [apply acl_document_law|]. intros d v _. by apply (shallow_law _ 3); [apply acl_document_shallow|lia]. Qed.

End acl_json.

(** ** RBAC documents *)

Module rbac_json.
Import rbac_document.

Definition role_schema : schema RoleDocument _ :=
  required strings "id" RoleDocument_ID $
  omitempty "" strings "tenant" RoleDocument_Tenant $
  omitempty_slice strings "parents" RoleDocument_Parents End.

Definition permission_schema : schema PermissionDocument _ :=
  required strings "id" PermissionDocument_ID $
  required strings "role_id" PermissionDocument_RoleID $
  omitempty "" strings "tenant" PermissionDocument_Tenant $
  required strings "action" PermissionDocument_Action $
  required strings "resource_type" PermissionDocument_ResourceType $
  omitempty "" strings "resource_id" PermissionDocument_ResourceID $
  required strings "effect" PermissionDocument_Effect $
  omitempty 0 ints "priority" PermissionDocument_Priority End.

Definition assignment_schema : schema AssignmentDocument _ :=
  required strings "id" AssignmentDocument_ID $
  required strings "subject_kind" AssignmentDocument_SubjectKind $
  required strings "subject_id" AssignmentDocument_SubjectID $
  required strings "role_id" AssignmentDocument_RoleID $
  omitempty "" strings "tenant" AssignmentDocument_Tenant End.

Definition limits_schema : schema rbac.Limits _ :=
  omitempty 0 ints "max_inheritance_depth" rbac.MaxInheritanceDepth $
  omitempty 0 ints "max_roles" rbac.MaxRoles $
  omitempty 0 ints "max_permissions" rbac.MaxPermissions $
  omitempty 0 ints "max_assignments" rbac.MaxAssignments $
  omitempty 0 ints "max_groups" rbac.MaxGroups $
  omitempty 0 ints "max_matches" rbac.MaxMatches $
  omitempty 0 ints "max_batch_size" rbac.MaxBatchSize End.

Definition document_schema : schema Document _ :=
  required uint64s "version" Version $
  omitempty false bools "global_inheritance" GlobalInheritance $
  required (structs limits_schema rbac.mkLimits) "limits" Limits $
  required (slices (structs role_schema mkRoleDocument)) "roles" Roles $
  required (slices (structs permission_schema mkPermissionDocument)) "permissions" Permissions $
  required (slices (structs assignment_schema mkAssignmentDocument)) "assignments" Assignments End.

Definition role_faithful (r : RoleDocument) : Prop :=
  Forall valid_string [RoleDocument_ID r; RoleDocument_Tenant r] ∧ Forall valid_string (RoleDocument_Parents r).

Definition permission_faithful (p : PermissionDocument) : Prop :=
  Forall valid_string [PermissionDocument_ID p; PermissionDocument_RoleID p; PermissionDocument_Tenant p;
    PermissionDocument_Action p; PermissionDocument_ResourceType p; PermissionDocument_ResourceID p;
    PermissionDocument_Effect p] ∧ in_int64 (PermissionDocument_Priority p).

Definition assignment_faithful (a : AssignmentDocument) : Prop :=
  Forall valid_string [AssignmentDocument_ID a; AssignmentDocument_SubjectKind a; AssignmentDocument_SubjectID a;
    AssignmentDocument_RoleID a; AssignmentDocument_Tenant a].

Definition limits_faithful (l : rbac.Limits) : Prop :=
  Forall in_int64 [rbac.MaxInheritanceDepth l; rbac.MaxRoles l; rbac.MaxPermissions l; rbac.MaxAssignments l;
    rbac.MaxGroups l; rbac.MaxMatches l; rbac.MaxBatchSize l].

Definition faithful (d : Document) : Prop :=
  in_uint64 (Version d) ∧ limits_faithful (Limits d) ∧ Forall role_faithful (Roles d) ∧
  Forall permission_faithful (Permissions d) ∧ Forall assignment_faithful (Assignments d).

Lemma role_law n d : codec_law n d (encode_struct role_schema) (decode_struct role_schema mkRoleDocument) role_faithful.
Proof. struct_fields. Qed.

Lemma permission_law n d :
  codec_law n d (encode_struct permission_schema) (decode_struct permission_schema mkPermissionDocument) permission_faithful.
Proof. struct_fields. Qed.

Lemma assignment_law n d :
  codec_law n d (encode_struct assignment_schema) (decode_struct assignment_schema mkAssignmentDocument) assignment_faithful.
Proof. struct_fields. Qed.

Lemma rbac_limits_law n d : codec_law n d (encode_struct limits_schema) (decode_struct limits_schema rbac.mkLimits) limits_faithful.
Proof. struct_fields. Qed.

#[local] Hint Resolve role_law permission_law assignment_law rbac_limits_law : json_laws.

Lemma rbac_document_law n d : codec_law n d (encode_struct document_schema) (decode_struct document_schema mkDocument) faithful.
Proof. struct_fields. Qed.

Lemma rbac_document_shallow : depth_law (encode_struct document_schema) 4.
Proof. bounded_depth. Qed.

#[global] Instance rbac_codec `{JSONErrors} : JSONCodec Document := struct_codec document_schema mkDocument.

#[global] Instance rbac_codec_faithful `{JSONErrors} : JSONFaithful Document faithful.
Proof.
  apply struct_codec_faithful; [apply rbac_document_law|]. intros d v _.
  by apply (shallow_law _ 4); [apply rbac_document_shallow|lia].
Qed.
End rbac_json.
