(* ===== verification/ABACDocumentJSON.v ===== *)
(** * The JSON form of ABAC documents (abac/document.go)

    The struct tags of the package as schemas. Condition documents are
    recursive: the decoder of a document takes the depth it may descend from
    the length of the text. *)

From S2P Require Import Prelude GoStrings Strconv NetIP JSON UTF8 JSONText JSONValues.
From S2P Require Import Attribute FloatText Request Decision Snapshot Engine Matching ACL RoleGraph RBAC.
From S2P Require Import Conditions ABAC Documents ABACDocument DocumentJSON.
From Stdlib Require Import SpecFloat Ascii.

#[local] Open Scope Z_scope.

Module abac_json.
Import abac_document.

Definition decode_float : decoder float64 := decode_scalar zeroFloat ParseFloat.

(** [Marshal] rejects what is not finite. *)
Definition encode_float : encoder float64 := λ f,
  if math_IsNaN f || math_IsInf f then None else Some (Literal (float_text f)).

Definition floats : encoder float64 * decoder float64 := (encode_float, decode_float).

(** ** Schemas *)

(** Both zeros are empty. *)
Definition value_schema : schema ValueDocument _ :=
  required strings "kind" VD_Kind $
  omitempty "" strings "string" VD_String $
  omitempty false bools "bool" VD_Bool $
  omitempty 0 ints "int" VD_Int $
  Field "float" (λ f, SFeqb f zeroFloat) VD_Float floats.1 floats.2 $
  omitempty "" strings "time" VD_Time $
  omitempty "" strings "ip" VD_IP $
  omitempty_slice strings "string_set" VD_StringSet End.

Abbreviation values := (structs value_schema mkValueDocument).

(** The codec of the children is an argument. *)
Definition condition_schema (children : encoder ConditionDocument * decoder ConditionDocument) :
    schema ConditionDocument _ :=
  required strings "operator" CD_Operator $
  omitempty "" strings "source" CD_Source $
  omitempty "" strings "attribute" CD_Attribute $
  omitempty_pointer values "value" CD_Value $
  omitempty_slice values "values" CD_Values $
  omitempty_slice children "conditions" CD_Conditions $
  omitempty_pointer children "condition" CD_Condition $
  omitempty "" strings "text" CD_Text $
  omitempty "" strings "prefix" CD_Prefix End.

Fixpoint decode_condition (fuel : nat) : decoder ConditionDocument :=
  match fuel with
  | O => λ _, None
  | S fuel => decode_struct (condition_schema (λ _, None, decode_condition fuel)) mkConditionDocument
  end.

Fixpoint encode_condition (document : ConditionDocument) : option json :=
  encode_fields
    [mkField "operator" false (encode_string (CD_Operator document));
     mkField "source" (bool_decide (CD_Source document = "")) (encode_string (CD_Source document));
     mkField "attribute" (bool_decide (CD_Attribute document = "")) (encode_string (CD_Attribute document));
     mkField "value" (match CD_Value document with None => true | _ => false end)
       (encode_pointer values.1 (CD_Value document));
     mkField "values" (match CD_Values document with [] => true | _ => false end)
       (encode_slice values.1 (CD_Values document));
     mkField "conditions" (match CD_Conditions document with [] => true | _ => false end)
       (match CD_Conditions document with
        | [] => Some (Literal "null")
        | _ => elements ← foldr (λ child acc, v ← encode_condition child; vs ← acc; Some (v :: vs)) (Some [])
                            (CD_Conditions document);
               Some (Array elements)
        end);
     mkField "condition" (match CD_Condition document with None => true | _ => false end)
       (match CD_Condition document with None => Some (Literal "null") | Some child => encode_condition child end);
     mkField "text" (bool_decide (CD_Text document = "")) (encode_string (CD_Text document));
     mkField "prefix" (bool_decide (CD_Prefix document = "")) (encode_string (CD_Prefix document))].

(** It is the encoder of the schema. *)
Lemma encode_condition_schema decode document :
  encode_condition document = encode_struct (condition_schema (encode_condition, decode)) document.
Proof.
  by destruct document.
Qed.

Abbreviation conditions fuel := (encode_condition, decode_condition fuel).

Definition rule_schema (fuel : nat) : schema RuleDocument _ :=
  required strings "id" RD_ID $
  omitempty 0 ints "priority" RD_Priority $
  omitempty "" strings "tenant" RD_Tenant $
  required strings "action" RD_Action $
  required strings "resource_type" RD_ResourceType $
  omitempty "" strings "resource_id" RD_ResourceID $
  required strings "effect" RD_Effect $
  omitempty_pointer (conditions fuel) "condition" RD_Condition $
  omitempty "" strings "condition_name" RD_ConditionName $
  omitempty 0 uint64s "condition_version" RD_ConditionVersion End.

Definition named_schema (fuel : nat) : schema NamedConditionDocument _ :=
  required strings "name" ND_Name $
  required uint64s "version" ND_Version $
  required (conditions fuel) "condition" ND_Condition End.

Definition limits_schema : schema abac.Limits _ :=
  omitempty 0 ints "max_rules" abac.MaxRules $
  omitempty 0 ints "max_depth" abac.MaxDepth $
  omitempty 0 ints "max_cost" abac.MaxCost $
  omitempty 0 ints "max_matches" abac.MaxMatches $
  omitempty 0 ints "max_set_size" abac.MaxSetSize $
  omitempty 0 ints "max_batch_size" abac.MaxBatchSize $
  omitempty 0 ints "max_named_conditions" abac.MaxNamedConditions End.

Definition document_schema (fuel : nat) : schema Document _ :=
  required uint64s "version" Version $
  required (structs limits_schema abac.mkLimits) "limits" Limits $
  required (slices (structs (rule_schema fuel) mkRuleDocument)) "rules" Rules $
  required (slices (structs (named_schema fuel) mkNamedConditionDocument)) "named_conditions" NamedConditions End.

(** Every nested condition is shorter than the text it is in. *)
#[global] Instance abac_codec `{JSONErrors} : JSONCodec Document := {|
  json_Decode := λ s, Decoder_Decode (decode_struct (document_schema (String.length s)) mkDocument) Decoded NotDecoded s;
  json_Marshal := MarshalIndent (encode_struct (document_schema 0))
|}.

(** ** What JSON represents *)

Definition value_faithful (d : ValueDocument) : Prop :=
  Forall valid_string [VD_Kind d; VD_String d; VD_Time d; VD_IP d] ∧ in_int64 (VD_Int d) ∧
  valid_float (VD_Float d) ∧ VD_Float d ≠ S754_zero true ∧ Forall valid_string (VD_StringSet d).

Fixpoint condition_faithful (d : ConditionDocument) : Prop :=
  Forall valid_string [CD_Operator d; CD_Source d; CD_Attribute d; CD_Text d; CD_Prefix d] ∧
  match CD_Value d with Some v => value_faithful v | None => True end ∧
  Forall value_faithful (CD_Values d) ∧
  foldr (λ child acc, condition_faithful child ∧ acc) True (CD_Conditions d) ∧
  match CD_Condition d with Some child => condition_faithful child | None => True end.

Definition rule_faithful (d : RuleDocument) : Prop :=
  Forall valid_string [RD_ID d; RD_Tenant d; RD_Action d; RD_ResourceType d; RD_ResourceID d; RD_Effect d;
    RD_ConditionName d] ∧ in_int64 (RD_Priority d) ∧ in_uint64 (RD_ConditionVersion d) ∧
  match RD_Condition d with Some condition => condition_faithful condition | None => True end.

Definition named_faithful (d : NamedConditionDocument) : Prop :=
  valid_string (ND_Name d) ∧ in_uint64 (ND_Version d) ∧ condition_faithful (ND_Condition d).

Definition limits_faithful (l : abac.Limits) : Prop :=
  Forall in_int64 [abac.MaxRules l; abac.MaxDepth l; abac.MaxCost l; abac.MaxMatches l; abac.MaxSetSize l;
    abac.MaxBatchSize l; abac.MaxNamedConditions l].

Section laws.

Lemma float_law n d : codec_law n d encode_float decode_float valid_float.
Proof.
  intros f v Hvalid Ev _. unfold encode_float in Ev.
  assert (float_finite f) as Hf by (by destruct f).
  assert (v = Literal (float_text f)) as -> by (by destruct f; simplify_eq/=).
  destruct (float_text_literal f Hf) as [Ht Hn]. split; [done|]. unfold decode_float, decode_scalar.
  cbn [foldl print mbind option_bind]. by rewrite Hn, ParseFloat_text.
Qed.

#[local] Hint Resolve float_law : json_laws.

Lemma abac_value_law n d : codec_law n d (encode_struct value_schema) (decode_struct value_schema mkValueDocument) value_faithful.
Proof.
  struct_fields. eapply (omitted_lawful _ _ _ _ _ valid_float); [apply float_law|done|].
  intros E. destruct (VD_Float s) as [[]|[]| |[] ? ?] eqn:Ef; done.
Qed.

#[local] Hint Resolve abac_value_law : json_laws.

Lemma encode_condition_not_null document v d : encode_condition document = Some v → is_null (print d v) = false.
Proof. rewrite (encode_condition_schema (λ _, None)). apply encode_struct_not_null. Qed.

Lemma children_faithful cs :
  foldr (λ child acc, condition_faithful child ∧ acc) True cs → Forall condition_faithful cs.
Proof. induction cs as [|c cs IH]; [done|]. intros [? ?]. constructor; [done|by apply IH]. Qed.

#[local] Hint Resolve encode_condition_not_null : json_laws.

(** A condition is read back when the decoder may descend as deep as it is
    nested. *)
Lemma condition_law n d fuel : (n ≤ fuel)%nat → codec_law n d encode_condition (decode_condition fuel) condition_faithful.
Proof.
  revert d fuel. induction n as [|n IH]; intros i fuel Hfuel d v Hd Ev Hv.
  { rewrite (encode_condition_schema (λ _, None)) in Ev. apply encode_struct_object in Ev as [members ->].
    destruct Hv as [Hv _]. simpl in Hv. lia. }
  destruct fuel as [|fuel]; [lia|]. rewrite (encode_condition_schema (decode_condition fuel)) in Ev. revert d v Hd Ev Hv.
  change (codec_law (S n) i (encode_struct (condition_schema (encode_condition, decode_condition fuel)))
    (decode_struct (condition_schema (encode_condition, decode_condition fuel)) mkConditionDocument) condition_faithful).
  assert (∀ j, codec_law n j encode_condition (decode_condition fuel) condition_faithful) as Hlaw
    by (intros j; apply IH; lia).
  apply struct_law; [evaluates|evaluates|by intros []|]. intros d Hd.
  assert (Forall condition_faithful (CD_Conditions d) ∧
    match CD_Condition d with Some child => condition_faithful child | None => True end ∧
    match CD_Value d with Some v => value_faithful v | None => True end ∧ Forall value_faithful (CD_Values d) ∧
    Forall valid_string [CD_Operator d; CD_Source d; CD_Attribute d; CD_Text d; CD_Prefix d]) as (? & ? & ? & ? & Hs).
  { destruct d. destruct Hd as (? & ? & ? & Hcs & ?). apply children_faithful in Hcs. done. }
  rewrite ?Forall_cons in Hs. destruct_and! Hs. lawful_fields.
Qed.

Lemma abac_limits_law n d : codec_law n d (encode_struct limits_schema) (decode_struct limits_schema abac.mkLimits) limits_faithful.
Proof. struct_fields. Qed.

#[local] Hint Resolve abac_limits_law condition_law : json_laws.
#[local] Hint Extern 1 (_ ≤ _)%nat => lia : json_laws.

Lemma rule_law n d fuel :
  (n ≤ fuel)%nat →
  codec_law n d (encode_struct (rule_schema fuel)) (decode_struct (rule_schema fuel) mkRuleDocument) rule_faithful.
Proof. intros Hfuel. struct_fields. Qed.

Lemma named_law n d fuel :
  (n ≤ fuel)%nat →
  codec_law n d (encode_struct (named_schema fuel)) (decode_struct (named_schema fuel) mkNamedConditionDocument) named_faithful.
Proof. intros Hfuel. struct_fields. Qed.

#[local] Hint Resolve rule_law named_law : json_laws.

Definition contents_faithful (d : Document) : Prop :=
  in_uint64 (Version d) ∧ limits_faithful (Limits d) ∧ Forall rule_faithful (Rules d) ∧
  Forall named_faithful (NamedConditions d).

Lemma abac_document_law n d fuel :
  (n ≤ fuel)%nat →
  codec_law n d (encode_struct (document_schema fuel)) (decode_struct (document_schema fuel) mkDocument) contents_faithful.
Proof. intros Hfuel. struct_fields. Qed.

(** The decoder accepts at most 10000 levels. *)
Definition faithful (d : Document) : Prop :=
  contents_faithful d ∧ ∀ v, encode_struct (document_schema 0) d = Some v → shallow v.

#[global] Instance abac_codec_faithful `{JSONErrors} : JSONFaithful Document faithful.
Proof.
  intros d encoded rest [Hd Hs] (v & Ev & ->)%MarshalIndent_Ok. pose proof (Hs v Ev) as Hv. cbn [json_Decode abac_codec].
  set (fuel := String.length (print 0 v +:+ rest)).
  destruct (abac_document_law (nesting v) 0 fuel) with (a := d) (v := v) as [? ?]; [|done..|by eapply decode_laid_out].
  pose proof (nesting_length 0 v). unfold fuel. rewrite string_length_app. lia.
Qed.
End laws.
End abac_json.
