(* ===== verification/ManifestJSON.v ===== *)
(** * The JSON form of policy manifests (policy/manifest.go)

    The struct tags of [Manifest] and [Record], with the field types they
    use: instants behind pointers, string maps and raw documents. A raw
    document keeps its text when it is decoded, but [Encode] lays it out
    again, so a manifest comes back with its documents re-indented. The JSON
    texts of instants are the ones of [time.Time]. *)

From S2P Require Import Prelude GoStrings Strconv TimeText JSON UTF8 JSONText JSONValues.
From S2P Require Import Attribute Request Decision Snapshot Engine Documents DocumentJSON Manifest.

From Stdlib Require Import Ascii.

#[local] Open Scope Z_scope.

(** ** Instants *)

(** The location of a [time.Time] only shows in its text: the offset from UTC,
    in seconds, at which an instant is printed. *)
Class Locations := location_offset : Time → Z.

(** Offsets of whole minutes: the seconds of others are not printed. *)
Class WholeMinutes `{Locations} : Prop := whole_minutes : ∀ t, (60 | location_offset t).

Definition utc : Locations := λ _, 0.

Lemma utc_minutes : @WholeMinutes utc.
Proof. intros t. by exists 0. Qed.

(** [Time.MarshalJSON] ([None]: the year or the offset has no RFC 3339 form)
    and [Time.UnmarshalJSON] of a text that is not [null], which does not
    interpret escapes. *)
Definition time_MarshalJSON `{Locations} (t : Time) : option string :=
  text ← rfc3339 (location_offset t) t;
  Some (quote_string +:+ text +:+ quote_string).

Definition time_UnmarshalJSON (data : string) : option Time :=
  match data with
  | String c rest =>
      if is_char c quote then
        '(text, last) ← split_last rest;
        if is_char last quote then time_Parse text else None
      else None
  | EmptyString => None
  end.

(** Characters that are quoted as they are. *)
Definition verbatim_char (c : ascii) : bool :=
  (byte_of c <? 128) && bool_decide (escape_byte (byte_of c) = char_string c).

Fixpoint verbatim (s : string) : bool :=
  match s with EmptyString => true | String c s => verbatim_char c && verbatim s end.

Lemma verbatim_app s t : verbatim (s +:+ t) = verbatim s && verbatim t.
Proof. induction s as [|c s IH]; [done|]. rewrite string_app_cons. cbn [verbatim]. by rewrite IH, andb_assoc. Qed.

Lemma quoted_verbatim s : verbatim s = true → utf8 s ∧ appendString s = quote_string +:+ s +:+ quote_string.
Proof.
  intros Hs. assert (utf8 s ∧ chunks quote_piece 0 s = Some s) as [Hu E]; [|split; [done|unfold appendString; by rewrite E]].
  induction s as [|c s IH]; [by split; [constructor|]|]. cbn [verbatim] in Hs. apply andb_prop in Hs as [[Hb He]%andb_prop Hs].
  destruct (IH Hs) as [Hu E]. apply bool_decide_eq_true_1 in He. split.
  - pose proof (byte_of_range c). apply Z.ltb_lt in Hb.
    assert (EncodeRune (byte_of c) = char_string c) as Er by (rewrite EncodeRune_ascii by lia; by rewrite char_of_byte_of).
    assert (scalar (byte_of c) = true) as Hsc.
    { apply scalar_true. unfold MaxRune. lia. }
    pose proof (utf8_rune (byte_of c) s Hsc Hu) as H'. by rewrite Er in H'.
  - cbn [chunks quote_piece]. rewrite Hb, He. cbn [mbind option_bind pred]. by rewrite E.
Qed.

Lemma verbatim_digits ds : Forall (λ d, 0 ≤ d < 10) ds → verbatim (digits_text ds) = true.
Proof.
  induction 1 as [|d ds Hd _ IH]; [done|]. change (digits_text (d :: ds)) with (String (digit_char d) (digits_text ds)).
  cbn [verbatim]. rewrite IH, andb_true_r.
  assert (d ∈ [0; 1; 2; 3; 4; 5; 6; 7; 8; 9]) as Hin by (rewrite !elem_of_cons; lia).
  rewrite !elem_of_cons, elem_of_nil in Hin. by destruct_or! Hin; subst.
Qed.

Lemma rfc3339_verbatim offset t text : rfc3339 offset t = Some text → verbatim text = true.
Proof.
  intros (_ & _ & ->)%rfc3339_inv. unfold fields_text.
  assert (∀ n z, verbatim (pad n z) = true) as Hpad by (intros; apply verbatim_digits, decimal_digits_range).
  assert (verbatim (fraction_text (f_nsec (time_fields (t + offset * nanos_per_second)))) = true) as Hf.
  { unfold fraction_text. pose proof (trim_zeros_range _ (decimal_digits_range 9 (f_nsec (time_fields (t + offset * nanos_per_second))))) as Hr.
    destruct (trim_zeros _) as [|d ds]; [done|]. rewrite verbatim_app. by rewrite verbatim_digits. }
  assert (verbatim (zone_text offset) = true) as Hz.
  { unfold zone_text. destruct (_ =? 0); [done|]. rewrite !verbatim_app, !Hpad. by destruct (_ <? 0). }
  by rewrite !verbatim_app, !Hpad, Hf, Hz.
Qed.

Lemma time_text_value `{Locations} t text : time_MarshalJSON t = Some text → literal_text text ∧ is_null text = false.
Proof.
  unfold time_MarshalJSON. destruct (rfc3339 _ t) as [s|] eqn:E; [|done]. intros [= <-].
  destruct (quoted_verbatim s (rfc3339_verbatim _ _ _ E)) as [Hu <-]. split; [by apply literal_text_appendString|]. done.
Qed.

Lemma time_read_text `{WholeMinutes} t text : time_MarshalJSON t = Some text → time_UnmarshalJSON text = Some t.
Proof.
  unfold time_MarshalJSON. destruct (rfc3339 _ t) as [s|] eqn:E; [|done]. intros [= <-].
  change (time_UnmarshalJSON _) with ('(text, last) ← split_last (s +:+ quote_string);
    if is_char last quote then time_Parse text else None).
  unfold quote_string. rewrite split_last_app. cbn [mbind option_bind]. by apply (rfc3339_Parse (location_offset t)).
Qed.

Module policy_json.
Import policy.

(** ** Field types *)

Definition encode_time `{Locations} : encoder Time := λ t, Literal <$> time_MarshalJSON t.
Definition decode_time `{Locations} : decoder Time := decode_scalar 0 time_UnmarshalJSON.

(** [json.RawMessage]: the text itself; nil, the empty text, is written as
    [null]. *)
Definition encode_raw : encoder string := λ text,
  if bool_decide (text = "") then Some (Literal "null") else compact_tree text.
Definition decode_raw : decoder string := λ texts, Some (default "" (last texts)).

(** [map[string]string]: keys are written in order; an object is added to
    the map there is, [null] makes it nil. *)
Definition map_members (m : gmap string string) : list (string * json) :=
  (λ key, (appendString key, Literal (appendString (default "" (m !! key))))) <$> slices_Sort (map_to_list m).*1.

Definition encode_map : encoder Metadata := λ metadata,
  Some (match metadata with None => Literal "null" | Some m => Object (map_members m) end).

Definition store_entries (m : gmap string string) (entries : list (string * string)) : gmap string string :=
  foldl (λ m entry, <[entry.1 := entry.2]> m) m entries.

Definition decode_map : decoder Metadata :=
  foldl (λ current text,
    metadata ← current;
    if is_null text then Some None
    else
      members ← object_members text;
      entries ← mapM (λ '(key, value), key ← unquote key; value ← decode_string [value]; Some (key, value)) members;
      Some (Some (store_entries (default ∅ metadata) entries))) (Some None).

(** ** Schemas *)

Definition record_schema `{Locations} : schema PolicyRecord _ :=
  required strings "id" Record_ID $
  required uint64s "revision" Record_Revision $
  required strings "model" Record_Model $
  omitempty 0 ints "priority" Record_Priority $
  omitempty_pointer (encode_time, decode_time) "active_from" Record_ActiveFrom $
  omitempty_pointer (encode_time, decode_time) "active_until" Record_ActiveUntil $
  Field "metadata" (λ metadata, bool_decide (default ∅ metadata = ∅)) Record_Metadata encode_map decode_map $
  required (encode_raw, decode_raw) "document" Record_Document End.

Definition manifest_schema `{Locations} : schema Manifest _ :=
  required strings "format" Manifest_Format $
  required uint64s "revision" Manifest_Revision $
  required strings "algorithm" Manifest_Algorithm $
  required (slices (structs record_schema mkPolicyRecord)) "policies" Manifest_Policies End.

#[global] Instance manifest_codec `{JSONErrors, Locations} : JSONCodec Manifest :=
  struct_codec manifest_schema mkManifest.

(** ** Laws *)

Lemma time_law `{WholeMinutes} n d : codec_law n d encode_time decode_time (λ _, True).
Proof.
  intros t v _ Ev _. unfold encode_time in Ev. destruct (time_MarshalJSON t) as [text|] eqn:Et; [|done]. injection Ev as <-.
  destruct (time_text_value _ _ Et) as [Ht Hn]. split; [done|]. unfold decode_time, decode_scalar.
  cbn [foldl print mbind option_bind]. by rewrite Hn, (time_read_text t).
Qed.

Lemma encode_time_not_null `{WholeMinutes} t v d : encode_time t = Some v → is_null (print d v) = false.
Proof.
  unfold encode_time. destruct (time_MarshalJSON t) as [text|] eqn:Et; [|done]. intros [= <-].
  by destruct (time_text_value _ _ Et).
Qed.

Definition metadata_faithful (metadata : Metadata) : Prop :=
  match metadata with
  | Some m => m ≠ ∅ ∧ map_Forall (λ key value, valid_string key ∧ valid_string value) m
  | None => True
  end.

Lemma store_entries_list_to_map m (entries : list (string * string)) :
  NoDup entries.*1 → store_entries m entries = list_to_map entries ∪ m.
Proof.
  revert m. induction entries as [|[k x] entries IH]; intros m; csimpl; [by rewrite map_empty_union|].
  rewrite NoDup_cons. intros [Hk Hnd]. cbn [store_entries foldl fst snd]. fold (store_entries (<[k:=x]> m) entries).
  rewrite IH by done. rewrite <- insert_union_r by (by apply not_elem_of_list_to_map). by rewrite insert_union_l.
Qed.

Definition map_entries (m : gmap string string) : list (string * string) :=
  (λ key, (key, default "" (m !! key))) <$> slices_Sort (map_to_list m).*1.

Lemma map_entries_perm m : map_entries m ≡ₚ map_to_list m.
Proof.
  unfold map_entries. assert (slices_Sort (map_to_list m).*1 ≡ₚ (map_to_list m).*1) as -> by apply SortFunc_perm.
  rewrite <- list_fmap_compose. assert (∀ l, (∀ k x, (k, x) ∈ l → m !! k = Some x) →
    ((λ key, (key, default "" (m !! key))) ∘ fst <$> l) = l) as ->; [|done|].
  - induction l as [|[k x] l IH]; intros Hl; [done|]. csimpl. rewrite (Hl k x) by (by left). simpl. f_equal.
    apply IH. intros k' x' Hin. apply Hl. by right.
  - intros k x. by rewrite elem_of_map_to_list.
Qed.

Lemma store_map_entries m : store_entries ∅ (map_entries m) = m.
Proof.
  rewrite store_entries_list_to_map.
  - rewrite map_union_empty. rewrite <- (list_to_map_to_list m) at 2. symmetry. apply list_to_map_proper; [|by symmetry; apply map_entries_perm].
    apply NoDup_fst_map_to_list.
  - rewrite map_entries_perm. apply NoDup_fst_map_to_list.
Qed.

Lemma map_key_value m key :
  map_Forall (λ key value, valid_string key ∧ valid_string value) m →
  key ∈ slices_Sort (map_to_list m).*1 → valid_string key ∧ valid_string (default "" (m !! key)).
Proof.
  intros Hm Hkey. assert (key ∈ (map_to_list m).*1) as Hin by (by rewrite <- (SortFunc_perm cmp_Compare_string)).
  apply list_elem_of_fmap in Hin as ([k x] & -> & Hin). apply elem_of_map_to_list in Hin. simpl. rewrite Hin. by apply Hm.
Qed.

Lemma metadata_law n d : codec_law n d encode_map decode_map metadata_faithful.
Proof.
  intros [m|] v Hm [= <-] Hd; [|split; [by apply (literal_text_intro _ stateEndValue)|done]].
  destruct Hm as [_ Hm].
  assert (Forall (λ member, key_text member.1 ∧ well_formed member.2 ∧ shallow member.2) (map_members m)) as Hms.
  { unfold map_members. apply Forall_fmap, Forall_forall. intros key Hkey. destruct (map_key_value m key Hm Hkey) as [Hk Hv].
    split_and!; [by apply key_text_appendString, utf8_valid|by apply literal_text_appendString, utf8_valid|]. unfold shallow. simpl. lia. }
  split; [apply well_formed_members; eapply Forall_impl; [done|]; by intros ? (? & ? & _)|].
  unfold decode_map. cbn [foldl]. rewrite is_null_Object, object_members_print by done. cbn [mbind option_bind].
  assert (mapM (λ '(key, value), key ← unquote key; value ← decode_string [value]; Some (key, value))
    (printed_members (S d) (map_members m)) = Some (map_entries m)) as ->.
  { unfold printed_members, map_members, map_entries. clear Hms Hd.
    assert (Forall (λ key, valid_string key ∧ valid_string (default "" (m !! key))) (slices_Sort (map_to_list m).*1)) as Hkeys
      by (apply Forall_forall; intros; by apply map_key_value).
    induction Hkeys as [|key keys [Hk Hv] _ IH]; [done|]. rewrite !fmap_cons. cbn [mapM fst snd print].
    rewrite unquote_appendString by by apply utf8_valid. cbn [mbind option_bind].
    unfold decode_string, decode_scalar in *. cbn [foldl mbind option_bind] in *.
    rewrite appendString_not_null, unquote_appendString by by apply utf8_valid. cbn [mbind option_bind]. by rewrite IH. }
  cbn [mbind option_bind default]. by rewrite store_map_entries.
Qed.

(** A raw document in the layout of its place. *)
Definition raw_faithful (d : nat) (text : string) : Prop :=
  ∃ v, well_formed v ∧ shallow v ∧ text = print d v.

Lemma print_nonempty d v : well_formed v → print d v ≠ "".
Proof. intros [(c & rest & -> & _) _]%(print_value_text d). done. Qed.

Lemma encode_raw_print d v : well_formed v → shallow v → encode_raw (print d v) = Some v.
Proof.
  intros Hwf Hd. unfold encode_raw. rewrite bool_decide_false by (by apply print_nonempty). by apply compact_tree_print.
Qed.

Lemma raw_law n d : codec_law n d encode_raw decode_raw (raw_faithful d).
Proof. intros text v (v' & Hwf & Hd & ->). rewrite encode_raw_print by done. intros [= ->] _. done. Qed.

#[local] Hint Resolve time_law encode_time_not_null metadata_law raw_law : json_laws.

Definition record_faithful (d : nat) (r : PolicyRecord) : Prop :=
  Forall valid_string [Record_ID r; Record_Model r] ∧ in_uint64 (Record_Revision r) ∧ in_int64 (Record_Priority r) ∧
  metadata_faithful (Record_Metadata r) ∧ raw_faithful d (Record_Document r).

Lemma record_law `{WholeMinutes} n d :
  codec_law n d (encode_struct record_schema) (decode_struct record_schema mkPolicyRecord) (record_faithful (S d)).
Proof.
  struct_fields.
  - by destruct (Record_ActiveFrom s).
  - by destruct (Record_ActiveUntil s).
  - eapply omitted_lawful; [apply metadata_law|done|]. intros E%bool_decide_eq_true.
    assert (metadata_faithful (Record_Metadata s)) as Hm by done.
    destruct (Record_Metadata s) as [m|]; [|done]. by destruct Hm.
Qed.

#[local] Hint Resolve record_law : json_laws.

(** The records of a manifest are three levels deep. *)
Definition document_depth : nat := 3.

Definition contents_faithful (m : Manifest) : Prop :=
  Forall valid_string [Manifest_Format m; Manifest_Algorithm m] ∧ in_uint64 (Manifest_Revision m) ∧
  Forall (record_faithful document_depth) (Manifest_Policies m).

Lemma manifest_law `{WholeMinutes} n :
  codec_law n 0 (encode_struct manifest_schema) (decode_struct manifest_schema mkManifest) contents_faithful.
Proof. struct_fields. Qed.

Definition faithful `{Locations} (m : Manifest) : Prop :=
  contents_faithful m ∧ ∀ v, encode_struct manifest_schema m = Some v → shallow v.

#[global] Instance manifest_codec_faithful `{JSONErrors, WholeMinutes} : JSONFaithful Manifest faithful.
Proof.
  apply struct_codec_faithful; [|intros m v [_ Hs]; apply Hs]. intros m v [Hm _]. by apply manifest_law.
Qed.

(** ** Documents keep their meaning when they are laid out again *)

Lemma split_last_append u s front c : split_last s = Some (front, c) → split_last (u +:+ s) = Some (u +:+ front, c).
Proof.
  intros E. induction u as [|a u IH]; [done|]. rewrite !string_app_cons. cbn [split_last]. rewrite IH.
  destruct (u +:+ s) eqn:Eu; [|done]. destruct u; [|done]. by destruct s.
Qed.

Lemma trim_braces body : bytes_TrimSpace (String "{"%char (body +:+ "}")) = String "{"%char (body +:+ "}").
Proof.
  unfold bytes_TrimSpace. assert (∀ fuel, trim_left fuel (String "{"%char (body +:+ "}")) = String "{"%char (body +:+ "}")) as Hl.
  { intros [|fuel]; [done|]. cbn [trim_left]. by rewrite (proj2 (list_find_None _ _)) by (by repeat constructor). }
  rewrite Hl. generalize (String.length (String "{"%char (body +:+ "}"))) as fuel. intros [|fuel]; [done|]. cbn [trim_right].
  rewrite (proj2 (list_find_None _ _)); [done|].
  assert (Forall (λ space, ∃ front c, split_last space = Some (front, c) ∧ c ≠ "}"%char) unicode_spaces) as Hs.
  { repeat constructor; by eexists _, _. }
  eapply Forall_impl; [exact Hs|]. intros space (front & c & E & Hc) [u Eu]%strings_HasSuffix_spec. apply Hc.
  apply (split_last_append u) in E. rewrite <- Eu in E.
  change (String "{"%char (body +:+ "}")) with (String "{"%char body +:+ char_string "}"%char) in E. rewrite split_last_app in E. congruence.
Qed.

Lemma more_members_brace d members : ∃ body, more_members d members = body +:+ "}".
Proof.
  induction members as [|[key v] members [body IH]]; [by eexists|]. cbn [more_members foldr]. fold (more_members d members).
  rewrite IH. eexists. by rewrite <- !string_app_assoc.
Qed.

Lemma print_object_braces d members : ∃ body, print d (Object members) = String "{"%char (body +:+ "}").
Proof.
  destruct members as [|[key v] members]; [by exists ""|]. destruct (more_members_brace d members) as [body E].
  change (print d (Object ((key, v) :: members))) with
    (String "{"%char (newline_indent (S d) +:+ key +:+ ": " +:+ print (S d) v +:+ more_members d members)).
  rewrite E. eexists. f_equal. by rewrite <- !string_app_assoc.
Qed.

Lemma validDocument_object d members :
  well_formed (Object members) → shallow (Object members) → validDocument (print d (Object members)) = true.
Proof.
  intros Hwf Hd. unfold validDocument. pose proof (print_valid d _ Hwf Hd) as Hv.
  destruct (print_object_braces d members) as [body E]. rewrite E in *. rewrite trim_braces, Hv.
  rewrite (proj2 (strings_HasPrefix_spec _ _)) by (by exists (body +:+ "}")).
  rewrite (proj2 (Z.ltb_ge _ _)); [done|]. unfold byte_len. simpl. rewrite string_length_app. simpl. lia.
Qed.

(** A document that is the layout of an object. *)
Definition laid_out (text : string) (members : list (string * json)) : Prop :=
  well_formed (Object members) ∧ shallow (Object members) ∧ ∃ d, text = print d (Object members).

(** [Encode] lays the documents of a manifest out again. *)
Definition relayout_text (text : string) : string :=
  match compact_tree text with Some v => print document_depth v | None => text end.

Definition relayout_record (r : PolicyRecord) : PolicyRecord :=
  mkPolicyRecord (Record_ID r) (Record_Revision r) (Record_Model r) (Record_Priority r) (Record_ActiveFrom r)
    (Record_ActiveUntil r) (Record_Metadata r) (relayout_text (Record_Document r)).

Definition relayout (m : Manifest) : Manifest :=
  mkManifest (Manifest_Format m) (Manifest_Revision m) (Manifest_Algorithm m) (relayout_record <$> Manifest_Policies m).

Lemma relayout_laid_out text members : laid_out text members → relayout_text text = print document_depth (Object members).
Proof. intros (Hwf & Hd & d & ->). unfold relayout_text. by rewrite compact_tree_print. Qed.

Definition documents_laid_out (m : Manifest) : Prop :=
  Forall (λ r, ∃ members, laid_out (Record_Document r) members) (Manifest_Policies m).

Lemma encode_record_relayout `{Locations} r members :
  laid_out (Record_Document r) members → encode_struct record_schema (relayout_record r) = encode_struct record_schema r.
Proof.
  intros Hr. pose proof (relayout_laid_out _ _ Hr) as E. destruct Hr as (Hwf & Hd & d & Ed).
  assert (encode_raw (Record_Document (relayout_record r)) = encode_raw (Record_Document r)) as Er
    by (cbn [relayout_record Record_Document]; by rewrite E, Ed, !encode_raw_print).
  unfold encode_struct, record_schema, required, omitempty, omitempty_pointer. cbn [schema_fields fst snd].
  by rewrite Er.
Qed.

Lemma encode_relayout `{Locations} m :
  documents_laid_out m → encode_struct manifest_schema (relayout m) = encode_struct manifest_schema m.
Proof.
  intros Hm. assert (encode_slice (encode_struct record_schema) (Manifest_Policies (relayout m)) =
    encode_slice (encode_struct record_schema) (Manifest_Policies m)) as Er.
  { cbn [relayout Manifest_Policies]. unfold documents_laid_out in Hm. unfold encode_slice, encode_array.
    assert (mapM (encode_struct record_schema) (relayout_record <$> Manifest_Policies m) =
      mapM (encode_struct record_schema) (Manifest_Policies m)) as ->; [|by destruct (Manifest_Policies m)].
    rewrite mapM_compose. induction Hm as [|x l [members Hx] _ IH]; [done|]. cbn [mapM].
    by rewrite (encode_record_relayout x members), IH. }
  change (encode_struct manifest_schema ?x) with (encode_fields (schema_fields manifest_schema x)).
  unfold manifest_schema, required, slices, structs. cbn [schema_fields fst snd]. by rewrite Er.
Qed.

Lemma relayout_valid m : documents_laid_out m → manifest_ok m → manifest_ok (relayout m).
Proof.
  intros Hm [? ? ? Hr Hids]. constructor; [done..| |].
  - clear Hids. cbn [relayout Manifest_Policies]. apply Forall_fmap. unfold documents_laid_out in Hm.
    rewrite Forall_forall in Hm, Hr |- *. intros r Hin. destruct (Hr r Hin) as (? & ? & ? & _ & ?). split_and!; [done..| |done].
    destruct (Hm r Hin) as [members Hl]. cbn [relayout_record Record_Document]. rewrite (relayout_laid_out _ members) by done.
    destruct Hl as (? & ? & _). by apply validDocument_object.
  - cbn [relayout Manifest_Policies]. rewrite <- list_fmap_compose. exact Hids.
Qed.

(** What JSON represents of a manifest, apart from its documents. *)
Definition envelope_faithful `{Locations} (m : Manifest) : Prop :=
  Forall valid_string [Manifest_Format m; Manifest_Algorithm m] ∧ in_uint64 (Manifest_Revision m) ∧
  Forall (λ r, Forall valid_string [Record_ID r; Record_Model r] ∧ in_uint64 (Record_Revision r) ∧
               in_int64 (Record_Priority r) ∧ metadata_faithful (Record_Metadata r)) (Manifest_Policies m) ∧
  ∀ v, encode_struct manifest_schema m = Some v → shallow v.

Lemma relayout_faithful `{Locations} m : envelope_faithful m → documents_laid_out m → faithful (relayout m).
Proof.
  intros (Hs & Hrev & Hr & Hd) Hl. split; [split_and!; [done..|]|by rewrite encode_relayout].
  cbn [relayout Manifest_Policies]. apply Forall_fmap. unfold documents_laid_out in Hl.
  rewrite Forall_forall in Hl, Hr |- *. intros r Hin. destruct (Hr r Hin) as (? & ? & ? & ?). split_and!; [done..|].
  destruct (Hl r Hin) as [members Hm]. cbn [relayout_record Record_Document]. rewrite (relayout_laid_out _ members) by done.
  destruct Hm as (? & ? & _). by exists (Object members).
Qed.

Lemma Decode_Encode_relayout `{JSONErrors, WholeMinutes} m encoded :
  envelope_faithful m → documents_laid_out m → Encode m = Ok encoded →
  Encode (relayout m) = Ok encoded ∧ Decode encoded = Ok (relayout m).
Proof.
  intros Hm Hl (Hok & text & Em & Hlen & ->)%Encode_Ok.
  assert (Encode (relayout m) = Ok (text +:+ newline)) as E.
  { apply Encode_Ok. split; [by apply relayout_valid|]. exists text. split; [|done].
    unfold json_Marshal, manifest_codec, struct_codec, MarshalIndent in *. by rewrite encode_relayout. }
  split; [done|]. apply (Decode_Encode faithful); [by apply relayout_faithful|done].
Qed.

(** Manifests round trip: [Encode] accepts exactly the valid manifests
    that marshal within the limit, newline included. When the envelope is one
    that JSON represents and the documents are laid out as JSON objects at any
    indentation, decoding the text gives the manifest with its documents
    indented anew, and that manifest encodes to the same text. [Decode] only
    ever returns valid manifests. *)
Theorem manifest_roundtrip `{JSONErrors, WholeMinutes} (manifest : Manifest) (encoded : string) :
  (Encode manifest = Ok encoded ↔ manifest_ok manifest ∧
     ∃ v, encode_struct manifest_schema manifest = Some v ∧ byte_len (print 0 v) + 1 ≤ maxEncodedManifestBytes ∧
       encoded = print 0 v +:+ newline) ∧
  (envelope_faithful manifest → documents_laid_out manifest → Encode manifest = Ok encoded →
     Decode encoded = Ok (relayout manifest) ∧ Encode (relayout manifest) = Ok encoded) ∧
  (Decode encoded = Ok manifest → manifest_ok manifest ∧ byte_len encoded ≤ maxEncodedManifestBytes).
Proof.
  split_and!; [|intros Hm Hl He; by destruct (Decode_Encode_relayout _ _ Hm Hl He)|apply Decode_valid].
  rewrite Encode_Ok. apply and_iff_compat_l. split.
  - intros (text & (v & Ev & ->)%MarshalIndent_Ok & ? & ->). by exists v.
  - intros (v & Ev & ? & ->). exists (print 0 v). split_and!; [|done..]. apply MarshalIndent_Ok. by exists v.
Qed.

(** A manifest whose document is written at another indentation than its
    place in the manifest. *)
Definition indented_tree : json :=
  Object [(appendString "version", Literal "1"); (appendString "entries", Array [Literal "null"])].

Definition indented_manifest : Manifest :=
  mkManifest FormatV1 1 AlgorithmDenyOverrides
    [mkPolicyRecord "documents" 1 ModelACL 0 None None None (print 7 indented_tree)].

Lemma indented_tree_well_formed : well_formed indented_tree.
Proof.
  repeat split; try (apply key_text_appendString, utf8_valid; vm_compute; reflexivity);
    first [by apply (literal_text_intro _ state1)|by apply (literal_text_intro _ stateEndValue)].
Qed.

Lemma manifest_roundtrip_witness :
  let encoded := match @Encode (@manifest_codec sample_errors utc) indented_manifest with Ok text => text | Err _ => "" end in
  @Decode (@manifest_codec sample_errors utc) encoded = Ok (relayout indented_manifest) ∧ relayout indented_manifest ≠ indented_manifest.
Proof.
  intros encoded. split; [|vm_compute; discriminate].
  destruct (@manifest_roundtrip sample_errors utc utc_minutes indented_manifest encoded) as (_ & H & _).
  apply H.
  - split_and!; [evaluates|done|repeat constructor; try done; evaluates|].
    apply shallow_check. vm_compute. reflexivity.
  - repeat constructor. eexists. split; [exact indented_tree_well_formed|]. split; [apply Nat.leb_le; vm_compute; reflexivity|].
    exists 7%nat. vm_compute. reflexivity.
  - vm_compute. reflexivity.
Defined.

End policy_json.
