(* ===== verification/PolicyBundle.v ===== *)
(** * Policies as texts (policy/, acl/, rbac/, abac/)

    The path of a policy set through its portable form: model documents are
    encoded, put into a manifest, the manifest is encoded, and later decoded
    and compiled with the decoders of the three model packages. The compiled
    snapshot holds the evaluators that the original documents build. *)

From Stdlib Require Import SpecFloat.
From S2P Require Import Prelude GoStrings NetIP JSON UTF8 JSONText JSONValues.
From S2P Require Import Attribute Request Decision Snapshot Engine Matching ACL RoleGraph RBAC.
From S2P Require Import Conditions ABAC Documents ABACDocument Manifest DocumentJSON ABACDocumentJSON ManifestJSON.

#[local] Open Scope Z_scope.

Module bundle.
Import policy.

Section programs.
Context `{GoRuntime, JSONErrors, Locations}.

(** A model package as a [policy.Decoder]; the evaluator that comes with an
    error is not looked at. *)
Definition model_decoder (decode : string → Go (result Snapshot.Evaluator)) : Decoder :=
  mkDecoder (λ text,
    decoded ← decode text;
    Ret match decoded with Ok evaluator => (Some evaluator, None) | Err err => (None, Some err) end).

(** The registry of an application that uses the three models. *)
Definition model_decoders : gmap string (option Decoder) :=
  <[ModelACL := Some (model_decoder acl_document.Decode)]>
  (<[ModelRBAC := Some (model_decoder rbac_document.Decode)]>
   {[ModelABAC := Some (model_decoder abac_document.Decode)]}).

(** A document of one of the models. *)
Inductive model_document :=
| ACLModel (document : acl_document.Document)
| RBACModel (document : rbac_document.Document)
| ABACModel (document : abac_document.Document).

Definition model_name (document : model_document) : string :=
  match document with ACLModel _ => ModelACL | RBACModel _ => ModelRBAC | ABACModel _ => ModelABAC end.

Definition model_encode (document : model_document) : Go (result string) :=
  match document with
  | ACLModel document => acl_document.EncodeDocument document
  | RBACModel document => rbac_document.EncodeDocument document
  | ABACModel document => abac_document.EncodeDocument document
  end.

Definition model_build (document : model_document) : Go (result Snapshot.Evaluator) :=
  match document with
  | ACLModel document => Ret (ev ← acl_document.Build document; Ok (acl.as_evaluator ev))
  | RBACModel document => Ret (ev ← rbac_document.Build document; Ok (rbac.as_evaluator ev))
  | ABACModel document => built ← abac_document.Build document; Ret (ev ← built; Ok (abac.as_evaluator ev))
  end.

Definition model_faithful (document : model_document) : Prop :=
  match document with
  | ACLModel document => acl_json.faithful document
  | RBACModel document => rbac_json.faithful document
  | ABACModel document => abac_json.faithful document
  end.

Definition model_decode (document : model_document) : string → Go (result Snapshot.Evaluator) :=
  match document with
  | ACLModel _ => acl_document.Decode
  | RBACModel _ => rbac_document.Decode
  | ABACModel _ => abac_document.Decode
  end.

(** ** Encoded documents *)

(** What [EncodeDocument] returns is the layout of the encoded document, and
    the document builds. *)
Lemma EncodeDocument_layout {D C E} (sch : schema D C) (codec : JSONCodec D) (Build : D → Go (result E)) limit document text :
  (∀ d, json_Marshal d = MarshalIndent (encode_struct sch) d) →
  @Documents.EncodeDocument D E codec Build limit document = Ret (Ok text) →
  ∃ members ev, encode_struct sch document = Some (Object members) ∧ text = print 0 (Object members) ∧
    Build document = Ret (Ok ev).
Proof.
  intros Hm. unfold Documents.EncodeDocument. destruct (Build document) as [[ev|]|]; [|done..].
  cbn [mbind Go_bind]. rewrite Hm. destruct (MarshalIndent _ document) as [encoded|] eqn:Em; [|done].
  destruct (_ <? _); [done|]. intros [= <-]. apply MarshalIndent_Ok in Em as (v & Ev & ->).
  destruct (encode_struct_object _ _ _ Ev) as [members ->]. by exists members, ev.
Qed.

Lemma encoded_bound {D E} (codec : JSONCodec D) (Build : D → Go (result E)) limit document text :
  @Documents.EncodeDocument D E codec Build limit document = Ret (Ok text) → byte_len text ≤ maxEncodedDocumentBytes.
Proof.
  unfold Documents.EncodeDocument. destruct (Build document) as [[ev|]|]; [|done..]. cbn [mbind Go_bind].
  destruct (json_Marshal document) as [s|]; [|done]. destruct (Z.ltb_spec maxEncodedDocumentBytes (byte_len s)); [done|].
  by intros [= <-].
Qed.

(** Any layout of a document that is small enough decodes to its evaluator. *)
Lemma DecodeDocument_layout {D E} (codec : JSONCodec D) (Build : D → Go (result E)) invalid limit document text ev :
  json_Decode text = Decoded document "" → byte_len text ≤ maxEncodedDocumentBytes →
  Build document = Ret (Ok ev) → @Documents.DecodeDocument D E codec Build invalid limit text = Ret (Ok ev).
Proof.
  intros Ed Hlen Eb. unfold Documents.DecodeDocument. rewrite (proj2 (Z.ltb_ge _ _)) by done. by rewrite Ed.
Qed.

Context `{!WholeMinutes}.

Lemma abac_layout document members d :
  abac_json.faithful document → encode_struct (abac_json.document_schema 0) document = Some (Object members) →
  json_Decode (print d (Object members)) = Decoded document "".
Proof.
  intros [Hd Hs] Ev. specialize (Hs _ Ev). cbn [json_Decode abac_json.abac_codec].
  rewrite <- (string_app_nil_r (print d (Object members))) at 2. set (fuel := String.length (print d (Object members))).
  destruct (abac_json.abac_document_law (nesting (Object members)) d fuel) with (a := document) (v := Object members)
    as [? ?]; [apply nesting_length|done..|]. by eapply decode_laid_out.
Qed.

Lemma struct_layout {D C} (sch : schema D C) make faithful document members d :
  codec_law maxNestingDepth d (encode_struct sch) (decode_struct sch make) faithful → faithful document →
  encode_struct sch document = Some (Object members) → shallow (Object members) →
  well_formed (Object members) ∧ @json_Decode D (struct_codec sch make) (print d (Object members)) = Decoded document "".
Proof.
  intros Hlaw Hf Ev Hs. destruct (Hlaw document _ Hf Ev) as [? ?]; [by split|]. split; [done|].
  rewrite <- (string_app_nil_r (print d (Object members))). by eapply decode_laid_out.
Qed.

(** An encoded document is the layout of an object, and every layout of it
    decodes to the evaluator the document builds. *)
Lemma model_layout document text :
  model_faithful document → model_encode document = Ret (Ok text) →
  ∃ members ev, policy_json.laid_out text members ∧ model_build document = Ret (Ok ev) ∧
    ∀ d, byte_len (print d (Object members)) ≤ maxEncodedDocumentBytes →
      model_decode document (print d (Object members)) = Ret (Ok ev).
Proof.
  destruct document as [document|document|document]; cbn [model_faithful model_encode model_build model_decode]; intros Hf E.
  - unfold acl_document.EncodeDocument in E.
    apply (EncodeDocument_layout acl_json.document_schema acl_json.acl_codec) in E as (members & ev & Ev & -> & Eb); [|done].
    pose proof (shallow_law _ 3 _ _ acl_json.acl_document_shallow ltac:(lia) Ev) as Hs. injection Eb as Eb.
    assert (∀ d, well_formed (Object members) ∧ json_Decode (print d (Object members)) = Decoded document "") as Hl
      by (intros d; by eapply struct_layout; [apply acl_json.acl_document_law|..]).
    exists members, (acl.as_evaluator ev). rewrite Eb. split_and!; [|done|].
    + split; [apply (Hl 0%nat)|by split; [|by exists 0%nat]].
    + intros d Hlen. unfold acl_document.Decode, acl_document.DecodeDocument.
      erewrite DecodeDocument_layout; [done|apply Hl|done|by rewrite Eb].
  - unfold rbac_document.EncodeDocument in E.
    apply (EncodeDocument_layout rbac_json.document_schema rbac_json.rbac_codec) in E as (members & ev & Ev & -> & Eb); [|done].
    pose proof (shallow_law _ 4 _ _ rbac_json.rbac_document_shallow ltac:(lia) Ev) as Hs. injection Eb as Eb.
    assert (∀ d, well_formed (Object members) ∧ json_Decode (print d (Object members)) = Decoded document "") as Hl
      by (intros d; by eapply struct_layout; [apply rbac_json.rbac_document_law|..]).
    exists members, (rbac.as_evaluator ev). rewrite Eb. split_and!; [|done|].
    + split; [apply (Hl 0%nat)|by split; [|by exists 0%nat]].
    + intros d Hlen. unfold rbac_document.Decode, rbac_document.DecodeDocument.
      erewrite DecodeDocument_layout; [done|apply Hl|done|by rewrite Eb].
  - unfold abac_document.EncodeDocument in E.
    apply (EncodeDocument_layout (abac_json.document_schema 0) abac_json.abac_codec) in E as (members & ev & Ev & -> & Eb); [|done].
    exists members, (abac.as_evaluator ev). rewrite Eb. split_and!; [|done|].
    + destruct Hf as [Hd Hs]. specialize (Hs _ Ev). split; [|by split; [|by exists 0%nat]].
      by eapply (abac_json.abac_document_law (nesting (Object members)) 0 _ (Nat.le_refl _)).
    + intros d Hlen. unfold abac_document.Decode, abac_document.DecodeDocument.
      erewrite DecodeDocument_layout; [done|by apply abac_layout|done|done].
Qed.

(** ** Manifests of encoded documents *)

(** A record that carries an encoded model document. *)
Definition carries (r : PolicyRecord) (document : model_document) : Prop :=
  Record_Model r = model_name document ∧ model_faithful document ∧ model_encode document = Ret (Ok (Record_Document r)).

(** The limits of the decoders and of the compiler. *)
Definition fits (compiler : Compiler) (m : Manifest) : Prop :=
  len (Manifest_Policies m) ≤ MaxPolicies (compiler_limits compiler) ∧
  document_bytes (Manifest_Policies m) ≤ MaxTotalDocumentBytes (compiler_limits compiler) ∧
  Forall (λ r, byte_len (Record_Document r) ≤ MaxDocumentBytes (compiler_limits compiler) ∧
               byte_len (Record_Document r) ≤ maxEncodedDocumentBytes) (Manifest_Policies m).

Lemma carries_laid_out m documents :
  Forall2 carries (Manifest_Policies m) documents → policy_json.documents_laid_out m.
Proof.
  unfold policy_json.documents_laid_out. induction 1 as [|r document rs documents (_ & Hf & E) _ IH]; constructor; [|done].
  destruct (model_layout _ _ Hf E) as (members & ? & ? & _). by exists members.
Qed.

Lemma model_decoders_lookup document :
  model_decoders !! model_name document = Some (Some (model_decoder (model_decode document))).
Proof. by destruct document. Qed.

(** A registry without nil decoders is accepted. *)
Lemma register_loop_total acc (decoders : list (string * option Decoder)) :
  Forall (λ entry, is_Some entry.2) decoders → ∃ registered, register_loop acc decoders = Ok registered.
Proof.
  intros Hd. revert acc. induction Hd as [|[model [decoder|]] decoders [? Hs] _ IH]; intros acc; [by eexists| |done].
  apply IH.
Qed.

Lemma NewCompiler_total (decoders : gmap string (option Decoder)) options :
  map_Forall (λ _, is_Some) decoders → ∃ compiler, NewCompiler decoders options = Ok compiler.
Proof.
  intros Hd. unfold NewCompiler. destruct (register_loop_total ∅ (range_map 0 decoders)) as [registered ->]; [|by eexists].
  apply Forall_forall. intros [model decoder] Hin. rewrite range_map_perm, elem_of_map_to_list in Hin. by apply (Hd model).
Qed.

Lemma model_decoders_present : map_Forall (λ _, is_Some) model_decoders.
Proof.
  unfold model_decoders. by apply map_Forall_insert_2; [|apply map_Forall_insert_2; [|apply map_Forall_singleton]].
Qed.

(** A record that was laid out again compiles to the evaluator of its
    document. *)
Lemma relayout_compiles compiler r document :
  compiler_decoders compiler !! model_name document = Some (model_decoder (model_decode document)) →
  carries r document →
  byte_len (Record_Document (policy_json.relayout_record r)) ≤ MaxDocumentBytes (compiler_limits compiler) ∧
  byte_len (Record_Document (policy_json.relayout_record r)) ≤ maxEncodedDocumentBytes →
  ∃ ev, model_build document = Ret (Ok ev) ∧ record_compiles compiler (policy_json.relayout_record r) ev.
Proof.
  intros Hc (Em & Hf & E) [Hlen Hmax]. destruct (model_layout _ _ Hf E) as (members & ev & Hl & Hb & Hd).
  exists ev. split; [done|]. split; [done|]. exists (model_decoder (model_decode document)).
  cbn [policy_json.relayout_record Record_Model Record_Document] in *.
  rewrite (policy_json.relayout_laid_out _ _ Hl) in *. rewrite Em. split; [done|].
  cbn [model_decoder decoder_Decode]. by rewrite Hd.
Qed.

Lemma relayout_compiles_all compiler rs documents :
  (∀ document, compiler_decoders compiler !! model_name document = Some (model_decoder (model_decode document))) →
  Forall2 carries rs documents →
  Forall (λ r, byte_len (Record_Document r) ≤ MaxDocumentBytes (compiler_limits compiler) ∧
               byte_len (Record_Document r) ≤ maxEncodedDocumentBytes) (policy_json.relayout_record <$> rs) →
  ∃ evaluators, Forall2 (λ document ev, model_build document = Ret (Ok ev)) documents evaluators ∧
    Forall2 (record_compiles compiler) (policy_json.relayout_record <$> rs) evaluators.
Proof.
  intros Hdec Hc. induction Hc as [|r document rs documents Hr _ IH]; [by exists []|].
  rewrite fmap_cons. intros [Hsize Hsizes]%Forall_cons. destruct (IH Hsizes) as (evs & ? & ?).
  destruct (relayout_compiles compiler r document (Hdec document) Hr Hsize) as (ev & ? & ?). exists (ev :: evs).
  by split; constructor.
Qed.
End programs.

(** C39. Model documents survive their JSON form: what [EncodeDocument] of the
    acl, rbac or abac package returns is at most 1 MiB long, and the
    package's decoder turns it back into the evaluator that [Build]
    constructs from the document. The documents are those JSON represents:
    strings are UTF-8, integers have their Go types, no negative zero, and
    at most 10000 levels of nesting. *)
Theorem model_documents_roundtrip `{GoRuntime, JSONErrors} (document : model_document) (text : string) :
  model_faithful document → model_encode document = Ret (Ok text) →
  byte_len text ≤ maxEncodedDocumentBytes ∧
  ∃ ev, model_build document = Ret (Ok ev) ∧ model_decode document text = Ret (Ok ev).
Proof.
  intros Hf E. assert (byte_len text ≤ maxEncodedDocumentBytes) as Hlen.
  { destruct document; exact (encoded_bound _ _ _ _ _ E). }
  split; [done|]. destruct (model_layout _ _ Hf E) as (members & ev & (Hwf & Hd & d & ->) & Hb & Hdec).
  exists ev. split; [done|]. by apply Hdec.
Qed.

(** An encoded manifest decodes, and compiles to the evaluators of its
    documents. *)
Lemma bundle_compiles `{GoRuntime, JSONErrors, WholeMinutes} (options : list CompilerOption)
    (compiler : Compiler) (m : Manifest) (documents : list model_document) (encoded : string) :
  Forall library_option options → NewCompiler model_decoders options = Ok compiler →
  policy_json.envelope_faithful m → Forall2 carries (Manifest_Policies m) documents → Encode m = Ok encoded →
  fits compiler (policy_json.relayout m) →
  Decode encoded = Ok (policy_json.relayout m) ∧
  ∃ s evaluators, Compile compiler (policy_json.relayout m) = Ret (Ok s) ∧
    Forall2 (λ document ev, model_build document = Ret (Ok ev)) documents evaluators ∧
    snapshot_wf s ∧ snapshot_revision s = Manifest_Revision m ∧
    snapshot_algorithm s = algorithm_of (Manifest_Algorithm m) ∧
    snapshot_policies s ≡ₚ zip_with compiled_policy (Manifest_Policies m) evaluators.
Proof.
  intros Hopts Hnew Henv Hcarry Henc (Hcount & Hbytes & Hsizes).
  destruct (policy_json.Decode_Encode_relayout m encoded Henv (carries_laid_out _ _ Hcarry) Henc) as [Henc' Hdec].
  split; [done|]. destruct (NewCompiler_Ok _ _ _ Hopts Hnew) as [(_ & _ & Hpos) Hlookup].
  destruct (relayout_compiles_all compiler (Manifest_Policies m) documents) as (evs & Hb & Hc); [|done..|].
  { intros document. apply Hlookup, model_decoders_lookup. }
  destruct (Compile_succeeds compiler (policy_json.relayout m) evs) as (s & Hs & Hwf & Hr & Ha & Hp & _).
  { lia. }
  { split; [|done..]. by apply Encode_Ok in Henc' as [? _]. }
  exists s, evs. split_and!; [done..|]. rewrite Hp. cbn [policy_json.relayout Manifest_Policies].
  by rewrite zip_with_fmap_l.
Qed.

(** C10. A policy set survives its portable form: when a manifest of encoded
    model documents is encoded, decoding the text gives a manifest that
    differs only in the layout of its documents, and (within the size limits)
    compiling it with the three model decoders gives a snapshot with the
    manifest's revision and algorithm whose policies hold the evaluators that
    the original documents build. *)
Theorem bundle_roundtrip `{GoRuntime, JSONErrors, WholeMinutes} (options : list CompilerOption)
    (compiler : Compiler) (m : Manifest) (documents : list model_document) (encoded : string) :
  Forall library_option options → NewCompiler model_decoders options = Ok compiler →
  policy_json.envelope_faithful m → Forall2 carries (Manifest_Policies m) documents → Encode m = Ok encoded →
  fits compiler (policy_json.relayout m) →
  Decode encoded = Ok (policy_json.relayout m) ∧
  ∃ s evaluators, Compile compiler (policy_json.relayout m) = Ret (Ok s) ∧
    Forall2 (λ document ev, model_build document = Ret (Ok ev)) documents evaluators ∧
    snapshot_wf s ∧ snapshot_revision s = Manifest_Revision m ∧
    snapshot_algorithm s = algorithm_of (Manifest_Algorithm m) ∧
    snapshot_policies s ≡ₚ zip_with compiled_policy (Manifest_Policies m) evaluators.
Proof. apply bundle_compiles. Qed.

(** ** Concrete texts *)

(** A JSON text written with apostrophes for quotes. *)
Fixpoint json_text (s : string) : string :=
  match s with
  | EmptyString => EmptyString
  | String c s => String (if bool_decide (byte_of c = 39) then quote else c) (json_text s)
  end.

#[local] Existing Instances plain_runtime sample_errors utc.
#[local] Existing Instances utc_minutes.

(** The texts of policy/testdata/v1. *)
Definition acl_corpus : string := json_text
"{
  'format': 'authorization.policy/v1',
  'revision': 1,
  'algorithm': 'deny-overrides',
  'policies': [
    {
      'id': 'document-acl',
      'revision': 1,
      'model': 'acl',
      'document': {
        'version': 1,
        'entries': [
          {
            'id': 'alice-read',
            'subject_kind': 'user',
            'subject_id': 'alice',
            'action': 'document.read',
            'resource_type': 'document',
            'resource_id': 'document-1',
            'tenant': 'tenant-1',
            'effect': 'allow'
          }
        ]
      }
    }
  ]
}
".

Definition rbac_corpus : string := json_text
"{
  'format': 'authorization.policy/v1',
  'revision': 1,
  'algorithm': 'deny-overrides',
  'policies': [
    {
      'id': 'tenant-rbac',
      'revision': 1,
      'model': 'rbac',
      'document': {
        'version': 1,
        'roles': [
          {'id': 'reader', 'tenant': 'tenant-1'}
        ],
        'permissions': [
          {
            'id': 'documents-read',
            'role_id': 'reader',
            'tenant': 'tenant-1',
            'action': 'document.read',
            'resource_type': 'document',
            'effect': 'allow'
          }
        ],
        'assignments': [
          {
            'id': 'alice-reader',
            'subject_kind': 'user',
            'subject_id': 'alice',
            'role_id': 'reader',
            'tenant': 'tenant-1'
          }
        ]
      }
    }
  ]
}
".

Definition abac_corpus : string := json_text
"{
  'format': 'authorization.policy/v1',
  'revision': 1,
  'algorithm': 'deny-overrides',
  'policies': [
    {
      'id': 'trusted-device-abac',
      'revision': 1,
      'model': 'abac',
      'document': {
        'version': 1,
        'rules': [
          {
            'id': 'trusted-device',
            'tenant': 'tenant-1',
            'action': 'document.read',
            'resource_type': 'document',
            'effect': 'allow',
            'condition': {
              'operator': 'equal',
              'source': 'request',
              'attribute': 'trusted_device',
              'value': {'kind': 'bool', 'bool': true}
            }
          }
        ],
        'named_conditions': []
      }
    }
  ]
}
".

(** The steps of the compatibility test on one text: decode, compile, encode
    and decode again; the identifiers of the compiled policies. *)
Definition corpus_check (text : string) : Go (result (list PolicyID)) :=
  match NewCompiler model_decoders [], Decode text with
  | Ok compiler, Ok manifest =>
      compiled ← Compile compiler manifest;
      Ret (snapshot ← compiled; reencoded ← Encode manifest; _ ← Decode reencoded;
           Ok (entry_id <$> snapshot_policies snapshot))
  | _, _ => Ret (Err ErrInvalidManifest)
  end.

Example acl_corpus_check : corpus_check acl_corpus = Ret (Ok ["document-acl"]).
Proof. vm_compute. reflexivity. Qed.

Example rbac_corpus_check : corpus_check rbac_corpus = Ret (Ok ["tenant-rbac"]).
Proof. vm_compute. reflexivity. Qed.

Example abac_corpus_check : corpus_check abac_corpus = Ret (Ok ["trusted-device-abac"]).
Proof. vm_compute. reflexivity. Qed.

(** The decoders are strict about fields, keys match up to case, and a value
    that does not fit its field is an error. *)
Example unknown_field_rejected :
  acl_document.DecodeDocument (json_text "{'version': 1, 'entries': [], 'extra': true}") =
  Ret (Err (fmt_Errorf "%w: %v" [FmtString "invalid JSON"] acl_document.ErrInvalidDocument)).
Proof. vm_compute. reflexivity. Qed.

Example keys_match_up_to_case :
  ∃ ev, acl_document.DecodeDocument (json_text " {'VERSION': 1, 'entrieſ': null} ") = Ret (Ok ev).
Proof. eexists. vm_compute. reflexivity. Qed.

Example version_out_of_range :
  acl_document.DecodeDocument (json_text "{'version': 18446744073709551617, 'entries': []}") =
  Ret (Err (fmt_Errorf "%w: %v" [FmtString "invalid JSON"] acl_document.ErrInvalidDocument)).
Proof. vm_compute. reflexivity. Qed.

(** Repeated members do not simply replace each other: objects and array
    elements are decoded into what the earlier member left there. Here the
    second limits keep the first one's [max_groups], and the second entry
    keeps the tenant of the first. *)
Definition repeated_members : string := json_text
"{'version': 1,
  'limits': {'max_groups': 5}, 'limits': {'max_matches': 7},
  'entries': [{'id': 'old', 'tenant': 'acme', 'effect': 'deny'}],
  'entries': [{'id': 'new', 'effect': 'allow'}]}".

Theorem duplicate_members_merge :
  json_Decode repeated_members =
  Decoded (acl_document.mkDocument 1 false (acl.mkLimits 0 5 7 0)
    [acl_document.mkEntryDocument "new" "" "" "" "" "" "acme" "allow"]) "".
Proof. vm_compute. reflexivity. Qed.

(** ** Witnesses *)

Definition acl_sample : acl_document.Document :=
  acl_document.mkDocument 1 true (acl.mkLimits 0 0 0 0)
    [acl_document.mkEntryDocument "e1" "user" "alice" "read" "document" "" "" "allow"].
Definition rbac_sample : rbac_document.Document :=
  rbac_document.mkDocument 1 false (rbac.mkLimits 0 0 0 0 0 0 0) [rbac_document.mkRoleDocument "reader" "" []] [] [].

(** The subject has a department, and the request comes from the private
    network, before a deadline or with a low risk. *)
Definition abac_condition : abac_document.ConditionDocument :=
  let leaf operator source attribute value prefix :=
    abac_document.mkConditionDocument operator source attribute value [] [] None "" prefix in
  let deadline := abac_document.mkValueDocument "time" "" false 0 zeroFloat "2026-12-31T23:59:59.5+02:00" "" [] in
  let risk := abac_document.mkValueDocument "float" "" false 0 (S754_finite false 7205759403792794 (-56)) "" "" [] in
  let choices :=
    [leaf "ip_in" "request" "address" None "10.0.0.0/8"; leaf "less_than" "environment" "now" (Some deadline) "";
     leaf "less_than" "request" "risk" (Some risk) ""] in
  abac_document.mkConditionDocument "all" "" "" None []
    [leaf "exists" "subject" "department" None "";
     abac_document.mkConditionDocument "any" "" "" None [] choices None "" ""] None "" "".

Definition abac_sample : abac_document.Document :=
  abac_document.mkDocument 1 abac.zero_limits
    [abac_document.mkRuleDocument "r1" 0 "acme" "read" "document" "" "allow"
       (Some abac_condition) "" 0] [].

Definition sample_documents : list model_document :=
  [ACLModel acl_sample; RBACModel rbac_sample; ABACModel abac_sample].

Definition sample_text (document : model_document) : string :=
  match model_encode document with Ret (Ok text) => text | _ => "" end.

Definition sample_texts : list string := Eval vm_compute in sample_text <$> sample_documents.

Definition sample_bundle : Manifest :=
  mkManifest FormatV1 7 AlgorithmDenyOverrides
    (zip_with (λ document text, mkPolicyRecord (model_name document) 1 (model_name document) 3 (Some 5) None
        (Some {["owner" := "team"]}) text) sample_documents sample_texts).

Definition sample_encoded : string := Eval vm_compute in match Encode sample_bundle with Ok encoded => encoded | Err _ => "" end.

(** Decides a condition of a witness. *)
Ltac sample_condition :=
  repeat match goal with
  | |- _ ∧ _ => split
  | |- Forall _ (_ :: _) => constructor
  | |- Forall _ [] => constructor
  | |- ∀ v, _ = Some v → shallow v =>
      apply shallow_check; vm_compute; reflexivity
  | |- map_Forall _ {[_ := _]} => apply map_Forall_singleton
  | |- {[_ := _]} ≠ ∅ => apply map_non_empty_singleton
  | |- valid_string _ => vm_compute; reflexivity
  | |- FloatText.valid_float _ => vm_compute; reflexivity
  | |- _ ≤ _ => vm_compute; congruence
  | |- _ ≠ _ => vm_compute; congruence
  | |- Forall ?P ?l => let l' := eval hnf in l in progress change (Forall P l')
  | |- _ => exact I
  | |- _ => progress hnf
  end.

Lemma sample_documents_faithful : Forall model_faithful sample_documents.
Proof. unfold sample_documents. sample_condition. Qed.

Lemma model_documents_roundtrip_witness :
  ∃ ev, model_build (ABACModel abac_sample) = Ret (Ok ev) ∧
    model_decode (ABACModel abac_sample) (sample_text (ABACModel abac_sample)) = Ret (Ok ev).
Proof.
  apply (model_documents_roundtrip (ABACModel abac_sample) (sample_text (ABACModel abac_sample))).
  - apply (Forall_inv (Forall_inv_tail (Forall_inv_tail sample_documents_faithful))).
  - vm_compute. reflexivity.
Defined.

Lemma sample_bundle_faithful : policy_json.envelope_faithful sample_bundle.
Proof. sample_condition. Qed.

Lemma sample_bundle_carries : Forall2 carries (Manifest_Policies sample_bundle) sample_documents.
Proof.
  pose proof sample_documents_faithful as Hf. unfold sample_documents in Hf. rewrite !Forall_cons in Hf.
  destruct Hf as (? & ? & ? & _).
  repeat (constructor; [split_and!; [reflexivity|assumption|vm_compute; reflexivity]|]). constructor.
Qed.

Definition sample_compiler : Compiler :=
  match NewCompiler model_decoders [] with Ok compiler => compiler | Err _ => mkCompiler ∅ default_limits end.

Lemma sample_compiler_new : NewCompiler model_decoders [] = Ok sample_compiler.
Proof. unfold sample_compiler. by destruct (NewCompiler_total model_decoders [] model_decoders_present) as [compiler ->]. Qed.

Lemma sample_bundle_fits : fits sample_compiler (policy_json.relayout sample_bundle).
Proof. sample_condition. Qed.

Lemma bundle_roundtrip_witness :
  ∃ s, Decode sample_encoded = Ok (policy_json.relayout sample_bundle) ∧
    Compile sample_compiler (policy_json.relayout sample_bundle) = Ret (Ok s) ∧ snapshot_revision s = 7.
Proof.
  destruct (bundle_roundtrip [] sample_compiler sample_bundle sample_documents sample_encoded)
    as (Hd & s & evs & Hs & _ & _ & Hr & _).
  - constructor.
  - exact sample_compiler_new.
  - exact sample_bundle_faithful.
  - exact sample_bundle_carries.
  - vm_compute. reflexivity.
  - exact sample_bundle_fits.
  - exists s. exact (conj Hd (conj Hs Hr)).
Defined.

End bundle.
