(* ===== verification/Enforcement.v ===== *)
(** * From policy texts to decisions

    What a policy text says and what the engine answers, end to end. A
    document of one of the models states effects for a request: an ACL entry
    that concerns it, a permission of a role that an assignment reaches, a
    rule in scope whose condition matches. The theorem follows an encoded
    manifest through [Decode], [Compile] and [Decide]: the answer is the one
    its documents state. *)

From S2P Require Import Prelude GoStrings NetIP JSON UTF8 JSONText JSONValues.
From S2P Require Import Attribute Request Decision Snapshot Engine Matching ACL RoleGraph RBAC.
From S2P Require Import Conditions ABAC Documents ABACDocument Manifest DocumentJSON ABACDocumentJSON ManifestJSON PolicyBundle.

#[local] Open Scope Z_scope.

Module enforcement.
Import policy bundle.

(** ** What documents state *)

(** An entry with the effect concerns the request. *)
Definition acl_states (document : acl_document.Document) (request : Request) (effect : Outcome) : Prop :=
  ∃ d entry, d ∈ acl_document.Entries document ∧ acl_document.describes d entry ∧
    acl.concerns (acl_document.GlobalInheritance document) request entry ∧ acl.Entry_Effect entry = effect.

(** The roles of a document by identifier. *)
Definition document_roles (document : rbac_document.Document) : gmap string Role :=
  list_to_map ((λ role, (Role_ID role, role)) <$> (rbac_document.build_role <$> rbac_document.Roles document)).

(** A permission with the effect matches the request, and an assignment of
    the subject or of a group leads to its role. *)
Definition rbac_states (document : rbac_document.Document) (request : Request) (effect : Outcome) : Prop :=
  ∃ d p assigned, d ∈ rbac_document.Permissions document ∧ rbac_document.describes_permission d p ∧
    rbac.permission_matches request p ∧ rbac.Permission_Effect p = effect ∧
    assigned ∈ rbac_document.Assignments document ∧
    let a := rbac_document.build_assignment assigned in
    rbac.assignment_key a ∈ rbac.principals (Request_Subject request) ∧
    rbac.tenant_applies (rbac_document.GlobalInheritance document) (rbac.Assignment_Tenant a) (Request_Tenant request) ∧
    inherits (document_roles document) (rbac.Assignment_RoleID a) (rbac.Permission_RoleID p).

(** A rule with the effect is in scope, and its condition matches. *)
Definition abac_states (document : abac_document.Document) (request : Request) (effect : Outcome) : Prop :=
  ∃ d rule named c, d ∈ abac_document.Rules document ∧ abac_document.describes_rule d rule ∧
    Forall2 abac_document.describes_named (abac_document.NamedConditions document) named ∧
    abac.resolves named rule c ∧ abac.in_scope request rule ∧ abac.Rule_Effect rule = effect ∧
    cond_status request c = StatusMatch.

Definition states (document : model_document) : Request → Outcome → Prop :=
  match document with
  | ACLModel document => acl_states document
  | RBACModel document => rbac_states document
  | ABACModel document => abac_states document
  end.

(** The answer of a document: denies override. *)
Definition answers (document : model_document) (request : Request) (o : Outcome) : Prop :=
  match o with
  | Deny => states document request Deny
  | Allow => states document request Allow ∧ ¬ states document request Deny
  | NotApplicable => ¬ states document request Allow ∧ ¬ states document request Deny
  | OutcomeOther _ => False
  end.

(** The activation window of a record, with zero ends unbounded. *)
Definition record_active (r : PolicyRecord) (t : Time) : Prop :=
  let from := default 0 (Record_ActiveFrom r) in
  let until := default 0 (Record_ActiveUntil r) in
  (from = 0 ∨ from ≤ t) ∧ (until = 0 ∨ t < until).

(** ** Evaluators answer what their documents state *)

(** The verdict on a list of matches, when the matches with an effect are
    what is stated. *)
Lemma verdict_answers {A} `{Matched A} (ms : list A) document request :
  Forall decisive_effect ms →
  (∀ effect, states document request effect ↔ ∃ a, a ∈ ms ∧ match_effect a = effect) →
  answers document request (verdict ms).1.
Proof.
  intros Heff Hst. unfold verdict. destruct (decide (Exists denies ms)) as [Hd|Hd].
  - simpl. apply Hst. apply Exists_exists in Hd as (a & Ha & Hd). eauto.
  - assert (¬ states document request Deny) as Hn.
    { intros (a & Ha & Ed)%Hst. apply Hd, Exists_exists. eauto. }
    destruct ms as [|a ms]; simpl.
    + split; [|done]. by intros (a & ?%elem_of_nil & _)%Hst.
    + split; [|done]. apply Hst. exists a. split; [by left|]. apply Forall_cons in Heff as [[?|?] _]; [done|].
      exfalso. apply Hd. by constructor.
Qed.

#[local] Instance background_live : ContextLive context_Background.
Proof. done. Qed.

(** Without an error the context was not seen cancelled. *)
Lemma acl_uncancelled ev ctx request n d n' :
  acl.Evaluate ev ctx request n = (Ret (d, None), n') →
  acl.Evaluate ev context_Background request n = (Ret (d, None), n').
Proof.
  unfold acl.Evaluate. generalize (acl.principals (Request_Subject request)) as ps. intros ps.
  rewrite !ctx_Err_bind. destruct (Err_at ctx n); [by rewrite M_ret_run|]. simpl.
  destruct (_ <? _); [by rewrite M_ret_run|].
  generalize (∅ : gset acl.entryKey) as seen, (bareDecision NotApplicable "" 0) as d0, (S n) as k.
  induction ps as [|principal ps IH]; intros seen d0 k; [done|]. cbn [acl.principal_loop].
  rewrite !ctx_Err_bind. destruct (Err_at ctx k); [by rewrite M_ret_run|]. simpl.
  case_bool_decide; [apply IH|]. destruct (acl.entry_loop _ _ _ _); [apply IH|by rewrite M_ret_run].
Qed.

Lemma rbac_uncancelled `{GoRuntime} ev ctx request n d n' :
  rbac.Evaluate ev ctx request n = (Ret (d, None), n') →
  rbac.Evaluate ev context_Background request n = (Ret (d, None), n').
Proof.
  unfold rbac.Evaluate, rbac.EffectivePermissions, mbind, M_bind, ctx_Err. cbn [fst snd].
  destruct (Err_at ctx n); [by rewrite !M_ret_run|]. done.
Qed.

Lemma acl_inherit es document ev :
  acl.New es (acl_document.document_options document) = Ok ev →
  acl.inheritGlobal ev = acl_document.GlobalInheritance document.
Proof.
  unfold acl.New, acl_document.document_options. destruct (acl_document.GlobalInheritance document); simpl;
    destruct (_ <? _); try done; destruct (acl.index_loop _ _ _ _); simpl; try done; by intros [= <-].
Qed.

Lemma acl_options document : Forall acl.library_option (acl_document.document_options document).
Proof. unfold acl_document.document_options. destruct (acl_document.GlobalInheritance _); repeat constructor. Qed.

Lemma rbac_options document : Forall rbac.library_option (rbac_document.document_options document).
Proof. unfold rbac_document.document_options. destruct (rbac_document.GlobalInheritance _); repeat constructor. Qed.

Lemma acl_answers document ev ctx request n d n' :
  acl_document.Build document = Ok ev → acl.Evaluate ev ctx request n = (Ret (d, None), n') →
  answers (ACLModel document) request (Decision_Outcome d).
Proof.
  intros (_ & es & Hes & Hnew)%acl_document.acl_Build_iff E%acl_uncancelled.
  pose proof (acl_inherit _ _ _ Hnew) as Hinh. set (ms := filter (acl.concerns (acl.inheritGlobal ev) request) es).
  assert (Decision_Outcome d = (verdict ms).1) as ->.
  { destruct (acl.acl_evaluate_cases es _ ev context_Background request n (acl_options document) Hnew) as (n1 & d1 & err & E1 & Hc).
    rewrite E in E1. simplify_eq. destruct (decide _) as [_|_]; [by destruct Hc|]. destruct (decide _) as [_|_]; [by destruct Hc|].
    destruct Hc as (_ & Hv & _). fold ms in Hv. by rewrite <- Hv. }
  apply verdict_answers.
  - apply acl.acl_New_Ok in Hnew as (Hok & _). apply Forall_forall. intros e [_ He]%list_elem_of_filter.
    rewrite Forall_forall in Hok. by destruct (Hok e He) as (_ & _ & _ & _ & _ & ?).
  - intros effect. unfold ms. rewrite Hinh. simpl. unfold acl_states. setoid_rewrite list_elem_of_filter. split.
    + intros (dd & entry & Hd & Hde & Hc & He). apply list_elem_of_lookup in Hd as [i Hi].
      destruct (Forall2_lookup_l _ _ _ _ _ Hes Hi) as (entry' & Hi' & Hde').
      apply (acl_document.build_entry_Ok 0) in Hde, Hde'. assert (entry' = entry) as -> by congruence.
      exists entry. split_and!; try done. by eapply list_elem_of_lookup_2.
    + intros (entry & [Hc He] & Heff). apply list_elem_of_lookup in He as [i Hi].
      destruct (Forall2_lookup_r _ _ _ _ _ Hes Hi) as (dd & Hi' & Hde). exists dd, entry.
      split_and!; try done. by eapply list_elem_of_lookup_2.
Qed.

Lemma rbac_inherit `{GoRuntime} rs ps asgs document ev :
  rbac.New rs ps asgs (rbac_document.document_options document) = Ok ev →
  rbac.inheritGlobal ev = rbac_document.GlobalInheritance document.
Proof.
  unfold rbac.New, rbac_document.document_options. destruct (rbac_document.GlobalInheritance document); simpl;
    repeat (destruct (_ <? _); try done); destruct (rbac.role_loop _ _ _); simpl; try done; destruct (validateInheritance _ _);
    try done; destruct (rbac.permission_loop _ _ _ _ _); simpl; try done;
    destruct (rbac.assignment_loop _ _ _ _ _); simpl; try done; by intros [= <-].
Qed.

Lemma rbac_roles `{GoRuntime} ps asgs document ev :
  rbac.evaluator_wf ev (rbac_document.build_role <$> rbac_document.Roles document) ps asgs →
  rbac.roles ev = document_roles document.
Proof.
  unfold document_roles. generalize (rbac_document.build_role <$> rbac_document.Roles document) as rs. intros rs Hwf.
  apply map_eq. intros r. apply option_eq. intros role. rewrite (rbac.wf_roles _ _ _ _ Hwf).
  pose proof (rbac.wf_role_ids _ _ _ _ Hwf) as Hnd. rewrite <- elem_of_list_to_map.
  - rewrite list_elem_of_fmap. split; [intros [? <-]; by exists role|]. by intros (? & [= -> ->] & ?).
  - rewrite <- list_fmap_compose. exact Hnd.
Qed.

Lemma rbac_answers `{GoRuntime} document ev ctx request n d n' :
  rbac_document.Build document = Ok ev → rbac.Evaluate ev ctx request n = (Ret (d, None), n') →
  answers (RBACModel document) request (Decision_Outcome d).
Proof.
  intros (_ & ps & Hps & Hnew)%rbac_document.rbac_Build_iff E%rbac_uncancelled.
  pose proof (rbac_inherit _ _ _ _ _ Hnew) as Hinh. destruct (rbac.rbac_New_Ok _ _ _ _ _ (rbac_options document) Hnew) as [Hwf Hl].
  assert (Decision_Outcome d = (verdict (rbac.request_matches ev ps request)).1) as ->.
  { rewrite (rbac.rbac_Evaluate_list ev _ _ _ _ _ _ Hwf ltac:(unfold rbac.limits_positive in Hl; lia)) in E.
    destruct (_ <? _); [done|]. destruct (_ <? _); [done|]. by simplify_eq. }
  assert (∀ p, p ∈ rbac.request_matches ev ps request ↔ rbac.permission_matches request p ∧
    rbac.Permission_RoleID p ∈ rbac.role_ids ev (Request_Subject request) (Request_Tenant request) ∧ p ∈ ps) as Hin.
  { intros p. unfold rbac.request_matches, rbac.effective_list.
    by rewrite list_elem_of_filter, elem_of_SortFunc, list_elem_of_filter. }
  apply verdict_answers.
  - apply Forall_forall. intros p (_ & _ & Hp)%Hin. pose proof (rbac.wf_permissions_ok _ _ _ _ Hwf) as Hok.
    rewrite Forall_forall in Hok. by destruct (Hok p Hp) as (_ & _ & _ & _ & ? & _).
  - intros effect. setoid_rewrite Hin. setoid_rewrite (rbac.role_ids_spec _ _ _ _ _ _ _ Hwf).
    rewrite Hinh, (rbac_roles _ _ _ _ Hwf). simpl. unfold rbac_states. split.
    + intros (dd & p & assigned & Hd & Hde & Hm & He & Ha & Hk & Ht & Hi). apply list_elem_of_lookup in Hd as [i Hdi].
      destruct (Forall2_lookup_l _ _ _ _ _ Hps Hdi) as (p' & Hpi & Hde').
      apply (rbac_document.build_permission_Ok 0) in Hde, Hde'. assert (p' = p) as -> by congruence.
      exists p. split_and!; [done| |by eapply list_elem_of_lookup_2|done].
      exists (rbac_document.build_assignment assigned). split_and!; try done. by apply list_elem_of_fmap_2.
    + intros (p & (Hm & (a & Ha & Hk & Ht & Hi) & Hp) & He). apply list_elem_of_fmap in Ha as (assigned & -> & Ha).
      apply list_elem_of_lookup in Hp as [i Hpi]. destruct (Forall2_lookup_r _ _ _ _ _ Hps Hpi) as (dd & Hdi & Hde).
      exists dd, p, assigned. split_and!; try done. by eapply list_elem_of_lookup_2.
Qed.

Lemma Forall2_build_unique {A B} (build : A → result B) (R : A → B → Prop) l bs bs' :
  (∀ a b, build a = Ok b ↔ R a b) → Forall2 R l bs → Forall2 R l bs' → bs = bs'.
Proof.
  intros HR Hbs. revert bs'. induction Hbs as [|a b l bs Hb _ IH]; intros bs' Hbs'.
  - by apply Forall2_nil_inv_l in Hbs' as ->.
  - apply Forall2_cons_inv_l in Hbs' as (b' & bs1 & Hb' & Hbs1 & ->). f_equal; [|by apply IH].
    apply HR in Hb, Hb'. congruence.
Qed.

Lemma abac_answers document ev ctx request n d n' :
  abac_document.Build document = Ret (Ok ev) → abac.Evaluate ev ctx request n = (Ret (d, None), n') →
  answers (ABACModel document) request (Decision_Outcome d).
Proof.
  intros Hb E. destruct (abac_document.abac_Build_spec document) as (r & Hr & Hbuild). rewrite Hb in Hr. simplify_eq.
  destruct (proj1 (Hbuild ev) eq_refl) as (_ & named & rules & Hnamed & Hrules & Hnew).
  assert (Forall abac.library_option [abac.WithLimits (abac_document.Limits document)]) as Hopts by repeat constructor.
  destruct (abac.constructed_rules _ _ _ _ Hopts Hnew) as (Hl & Hu & Hin).
  destruct (abac.abac_evaluate_cases ev ctx request n Hu ltac:(unfold abac.limits_positive in Hl; lia)) as (d1 & err & n1 & E1 & Hc).
  rewrite E in E1. simplify_eq. destruct Hc as [_ ->]. simpl.
  assert (Forall decisive_effect (filter (abac.applies request) (abac.rules ev))) as Heff by (by apply abac.usable_filter).
  rewrite add_match_verdict by done. apply verdict_answers; [done|].
  intros effect. setoid_rewrite list_elem_of_filter. setoid_rewrite Hin. simpl. unfold abac_states. split.
  - intros (dd & rule & named' & c & Hd & Hde & Hnamed' & Hres & Hs & He & Hst).
    assert (named' = named) as ->
      by (eapply (Forall2_build_unique (abac_document.build_named 0)); [apply (abac_document.build_named_Ok 0)|done|done]).
    apply list_elem_of_lookup in Hd as [i Hdi]. destruct (Forall2_lookup_l _ _ _ _ _ Hrules Hdi) as (rule' & Hri & Hde').
    apply (abac_document.build_rule_Ok 0) in Hde, Hde'. assert (rule' = rule) as -> by congruence.
    exists (abac.with_condition rule (Some c)). split; [|done]. split; [done|]. exists rule, c. split_and!; [|done|done].
    by eapply list_elem_of_lookup_2.
  - intros (rule' & ([Hs Hst] & rule & c & Hr & Hres & ->) & He). apply list_elem_of_lookup in Hr as [i Hri].
    destruct (Forall2_lookup_r _ _ _ _ _ Hrules Hri) as (dd & Hdi & Hde). exists dd, rule, named, c.
    split_and!; try done. by eapply list_elem_of_lookup_2.
Qed.

(** An evaluator built from a document answers what the document states,
    whenever it answers without an error. *)
Lemma model_answers `{GoRuntime} document ev ctx request n d n' :
  model_build document = Ret (Ok ev) → Snapshot.Evaluate ev ctx request n = (Ret (d, None), n') →
  answers document request (Decision_Outcome d).
Proof.
  destruct document as [document|document|document]; cbn [model_build].
  - destruct (acl_document.Build document) as [e|] eqn:E; simpl; [|done]. intros [= <-]. by apply acl_answers.
  - destruct (rbac_document.Build document) as [e|] eqn:E; simpl; [|done]. intros [= <-]. by apply rbac_answers.
  - destruct (abac_document.Build document) as [[e|]|] eqn:E; simpl; [|done..]. intros [= <-]. by apply abac_answers.
Qed.

(** ** Runs of the engine *)

(** The policies of a snapshot and the records and documents they stand for. *)
Record enforces `{GoRuntime} (policies : list (PolicyRecord * model_document)) (ps : list policyEntry) : Prop := {
  enforces_policy p : p ∈ ps → ∃ r document, (r, document) ∈ policies ∧ p = compiled_policy r (entry_evaluator p) ∧
    model_build document = Ret (Ok (entry_evaluator p));
  enforces_record r document : (r, document) ∈ policies → ∃ ev, compiled_policy r ev ∈ ps ∧ model_build document = Ret (Ok ev)
}.

Lemma compiled_active r ev t : activeAt (compiled_policy r ev) t = true ↔ record_active r t.
Proof.
  unfold activeAt, record_active, compiled_policy, time_IsZero, time_Before. simpl.
  rewrite andb_true_iff, !orb_true_iff, negb_true_iff, !Z.eqb_eq, Z.ltb_ge, Z.ltb_lt. done.
Qed.

(** The decision of a policy in a run. *)
Lemma policy_answers `{GoRuntime} ctx request t p m d m' r document :
  policy_decides ctx request t p m d m' → p = compiled_policy r (entry_evaluator p) →
  model_build document = Ret (Ok (entry_evaluator p)) →
  record_active r t ∧ answers document request (Decision_Outcome d) ∨
  ¬ record_active r t ∧ Decision_Outcome d = NotApplicable.
Proof.
  intros Hd Ep Hb. rewrite <- (compiled_active r (entry_evaluator p)), <- Ep. destruct (activeAt p t) eqn:Ea.
  - left. split; [done|]. apply policy_decides_active in Hd as [_ E]; [|by left].
    exact (model_answers document _ ctx request m d m' Hb E).
  - right. split; [done|]. destruct Hd as [Hp _]. unfold policy_decision in Hp. rewrite Ea in Hp. rewrite M_ret_run in Hp. by injection Hp as <- _.
Qed.

(** The overriding outcome did not occur. *)
Lemma undecided alg ds :
  match alg with DenyOverrides => some_outcome Deny ds = false | AllowOverrides => some_outcome Allow ds = false | _ => False end →
  Forall (λ d, isDecisive alg (Decision_Outcome d) = false) ds.
Proof.
  intros Hnone. apply Forall_forall. intros d Hd. apply not_true_iff_false. intros E.
  destruct alg; try done; apply not_true_iff_false in Hnone; apply Hnone, some_outcome_spec; exists d; (split; [done|]);
    unfold isDecisive in E; simpl in E; rewrite ?orb_false_r in E; by apply bool_decide_eq_true in E.
Qed.

Section run.
Context `{GoRuntime} (policies : list (PolicyRecord * model_document)) (ps : list policyEntry).
Context (Henf : enforces policies ps) (ctx : Context) (request : Request) (t : Time).

(** Some active document gives the answer. *)
Definition some_answer (o : Outcome) : Prop :=
  ∃ r document, (r, document) ∈ policies ∧ record_active r t ∧ answers document request o.

Lemma run_answer alg n ds n' d o :
  policy_run ctx request t alg ps n ds n' → d ∈ ds → Decision_Outcome d = o → o ≠ NotApplicable → some_answer o.
Proof.
  intros Hrun [i Hi]%list_elem_of_lookup Eo Hna.
  destruct (policy_run_lookup _ _ _ _ _ _ _ _ _ _ Hrun Hi) as (p & m & m' & Hp & Hd).
  destruct (enforces_policy _ _ Henf p ltac:(by eapply list_elem_of_lookup_2)) as (r & document & Hin & Ep & Hb).
  destruct (policy_answers _ _ _ _ _ _ _ _ _ Hd Ep Hb) as [[Ha Hans]|[_ ?]]; [|congruence].
  exists r, document. by rewrite Eo in Hans.
Qed.

(** A run that no decision cut short asked every document. *)
Lemma run_full_answer alg n ds n' r document :
  policy_run ctx request t alg ps n ds n' → Forall (λ d, isDecisive alg (Decision_Outcome d) = false) ds →
  (r, document) ∈ policies → record_active r t → ∃ d, d ∈ ds ∧ answers document request (Decision_Outcome d).
Proof.
  intros Hrun Hall Hin Ha. destruct (enforces_record _ _ Henf r document Hin) as (ev & Hp & Hb).
  apply list_elem_of_lookup in Hp as [i Hi]. pose proof (policy_run_full _ _ _ _ _ _ _ _ Hrun Hall) as Hlen.
  destruct (lookup_lt_is_Some_2 ds i) as [d Hd]; [rewrite Hlen; by eapply lookup_lt_Some|].
  destruct (policy_run_lookup _ _ _ _ _ _ _ _ _ _ Hrun Hd) as (p & m & m' & Hp & Hdec). rewrite Hi in Hp. injection Hp as <-.
  exists d. split; [by eapply list_elem_of_lookup_2|].
  by destruct (policy_answers _ _ _ _ _ _ _ r document Hdec eq_refl Hb) as [[_ ?]|[? _]].
Qed.

Lemma deny_overrides_answer n ds n' :
  policy_run ctx request t DenyOverrides ps n ds n' →
  Decision_Outcome (combine_loop DenyOverrides zeroDecision ds) = Allow ↔
  (∃ r document, (r, document) ∈ policies ∧ record_active r t ∧ states document request Allow) ∧
  ∀ r document, (r, document) ∈ policies → record_active r t → ¬ states document request Deny.
Proof.
  intros Hrun. rewrite combine_loop_deny_outcome; [|by eapply policy_run_valid|done].
  assert (∀ r document, (r, document) ∈ policies → record_active r t → states document request Deny →
    some_outcome Deny ds = true) as Hdeny.
  { intros r document Hin Ha Hst. apply not_false_iff_true. intros Es.
    assert (Forall (λ d, isDecisive DenyOverrides (Decision_Outcome d) = false) ds) as Hall by (by apply undecided).
    destruct (run_full_answer _ _ _ _ _ _ Hrun Hall Hin Ha) as (d & Hd & Hans).
    apply not_true_iff_false in Es. apply Es, some_outcome_spec. exists d. split; [done|].
    destruct (Decision_Outcome d); simpl in Hans; [by destruct Hans|by destruct Hans|done|done]. }
  split.
  - destruct (some_outcome Deny ds) eqn:Es; [done|]. destruct (some_outcome Allow ds) eqn:Ea; [|done]. intros _. split.
    + apply some_outcome_spec in Ea as (d & Hd & Eo). destruct (run_answer _ _ _ _ _ _ Hrun Hd Eo) as (r & document & ? & ? & [? _]);
        [done|]. by exists r, document.
    + intros r document Hin Ha Hst. pose proof (Hdeny r document Hin Ha Hst). congruence.
  - intros [(r & document & Hin & Ha & Hst) Hnone]. destruct (some_outcome Deny ds) eqn:Es.
    + apply some_outcome_spec in Es as (d & Hd & Eo). destruct (run_answer _ _ _ _ _ _ Hrun Hd Eo) as (r' & document' & Hin' & Ha' & Hd');
        [done|]. by destruct (Hnone r' document' Hin' Ha').
    + assert (Forall (λ d, isDecisive DenyOverrides (Decision_Outcome d) = false) ds) as Hall by (by apply undecided).
      destruct (run_full_answer _ _ _ _ _ _ Hrun Hall Hin Ha) as (d & Hd & Hans).
      assert (Decision_Outcome d = Allow) as Eo.
      { destruct (Decision_Outcome d); simpl in Hans; [by destruct Hans|done|by destruct (Hnone r document)|done]. }
      assert (some_outcome Allow ds = true) as -> by (apply some_outcome_spec; eauto). done.
Qed.

Lemma allow_overrides_answer n ds n' :
  policy_run ctx request t AllowOverrides ps n ds n' →
  Decision_Outcome (combine_loop AllowOverrides zeroDecision ds) = Allow ↔ some_answer Allow.
Proof.
  intros Hrun. rewrite combine_loop_allow_outcome; [|by eapply policy_run_valid|done]. split.
  - destruct (some_outcome Allow ds) eqn:Ea; [|by destruct (some_outcome Deny ds)]. intros _.
    apply some_outcome_spec in Ea as (d & Hd & Eo). by eapply run_answer.
  - intros (r & document & Hin & Ha & Hans). destruct (some_outcome Allow ds) eqn:Es; [done|]. exfalso.
    assert (Forall (λ d, isDecisive AllowOverrides (Decision_Outcome d) = false) ds) as Hall by (by apply undecided).
    destruct (run_full_answer _ _ _ _ _ _ Hrun Hall Hin Ha) as (d & Hd & Hans').
    assert (Decision_Outcome d = Allow) as Eo.
    { destruct Hans as [H1 H2]. destruct (Decision_Outcome d); simpl in Hans'; [by destruct Hans'|done|done|done]. }
    apply not_true_iff_false in Es. apply Es, some_outcome_spec. eauto.
Qed.

End run.
(** The policies of a compiled bundle. *)
Lemma bundle_enforces `{GoRuntime} rs documents evaluators ps :
  Forall2 (λ document ev, model_build document = Ret (Ok ev)) documents evaluators → length rs = length documents →
  ps ≡ₚ zip_with compiled_policy rs evaluators → enforces (zip rs documents) ps.
Proof.
  intros Hb Hlen Hp. pose proof (Forall2_length _ _ _ Hb) as Hlen'. split.
  - intros p. rewrite Hp. intros [i Hi]%list_elem_of_lookup. rewrite lookup_zip_with in Hi.
    destruct (rs !! i) as [r|] eqn:Er; [|done]. simpl in Hi. destruct (evaluators !! i) as [ev|] eqn:Ee; [|done]. injection Hi as <-.
    destruct (Forall2_lookup_r _ _ _ _ _ Hb Ee) as (document & Ed & Hd). exists r, document. split_and!; [|done|done].
    apply (list_elem_of_lookup_2 _ i). rewrite lookup_zip_with, Er. simpl. by rewrite Ed.
  - intros r document [i Hi]%list_elem_of_lookup. rewrite lookup_zip_with in Hi.
    destruct (rs !! i) as [r'|] eqn:Er; [|done]. simpl in Hi. destruct (documents !! i) as [document'|] eqn:Ed; [|done]. injection Hi as <- <-.
    destruct (Forall2_lookup_l _ _ _ _ _ Hb Ed) as (ev & Ee & Hd). exists ev. split; [|done]. rewrite Hp.
    apply (list_elem_of_lookup_2 _ i). rewrite lookup_zip_with, Er. simpl. by rewrite Ee.
Qed.

(** C4. An engine answers what the policy texts state. A manifest of encoded
    ACL, RBAC and ABAC documents is encoded; its text is decoded and
    compiled, and an engine with the compiled snapshot decides a request,
    under any context and clock. With an error the answer is [Deny].
    Otherwise there is an evaluation time such that: an [Allow] comes from an
    active document that states an allow and no deny; under deny-overrides
    the answer is [Allow] exactly when some active document states an allow
    and no active document states a deny; under allow-overrides exactly when
    some active document states an allow and no deny. *)
Theorem policy_texts_decide `{GoRuntime, JSONErrors, WholeMinutes} (options : list CompilerOption) (compiler : Compiler)
    (m m' : Manifest) (documents : list model_document) (encoded : string) (s : Snapshot) (engine : Engine)
    (ctx : Context) (request : Request) (n : nat) (d : Decision) (err : option error) (n' : nat)
    `{!ClockTotal (engine_clock engine)} :
  Forall library_option options → NewCompiler model_decoders options = Ok compiler →
  policy_json.envelope_faithful m → Forall2 carries (Manifest_Policies m) documents → Encode m = Ok encoded →
  fits compiler (policy_json.relayout m) →
  Decode encoded = Ok m' → Compile compiler m' = Ret (Ok s) → engine_snapshot engine = Some s →
  Engine_Decide engine ctx request n = (Ret (d, err), n') →
  let policies := zip (Manifest_Policies m) documents in
  (is_Some err → Decision_Outcome d = Deny) ∧
  (err = None → ∃ t n0 n1, evaluation_time engine request n0 = (Ret t, n1) ∧
     (Decision_Outcome d = Allow → some_answer policies request t Allow) ∧
     (Manifest_Algorithm m = AlgorithmDenyOverrides →
        Decision_Outcome d = Allow ↔
        (∃ r document, (r, document) ∈ policies ∧ record_active r t ∧ states document request Allow) ∧
        ∀ r document, (r, document) ∈ policies → record_active r t → ¬ states document request Deny) ∧
     (Manifest_Algorithm m = AlgorithmAllowOverrides →
        Decision_Outcome d = Allow ↔ some_answer policies request t Allow)).
Proof.
  intros Hopts Hnew Henv Hcarry Henc Hfits Hdec Hcomp Hs E policies.
  destruct (bundle_compiles _ _ _ _ _ Hopts Hnew Henv Hcarry Henc Hfits) as (Hdec' & s' & evs & Hcomp' & Hb & _ & _ & Halg & Hp).
  rewrite Hdec in Hdec'. injection Hdec' as ->. rewrite Hcomp in Hcomp'. injection Hcomp' as <-.
  assert (enforces policies (snapshot_policies s)) as Henf
    by (eapply bundle_enforces; [exact Hb|by eapply Forall2_length|exact Hp]).
  unfold Engine_Decide in E. rewrite (M_bind_Ret _ _ _ s n) in E by (unfold load_snapshot; by rewrite Hs).
  destruct (engine_decide_total engine ctx request s n) as (r & n2 & E' & Hr). rewrite E in E'. simplify_eq.
  destruct Hr as [(? & ? & ?)|[d' ?]]; simplify_eq; [by split|]. split; [by intros []|]. intros _.
  apply engine_decide_outcome in E as (t & n0 & n1 & ds & Et & Hrun & _ & Hc). exists t, n0, n1. split; [done|].
  assert (Decision_Outcome d' = Allow ↔ Decision_Outcome (combine_loop (snapshot_algorithm s) zeroDecision ds) = Allow) as Hallow.
  { destruct Hc as [(E1 & -> & _)|(_ & _ & -> & _)]; [|done]. by rewrite E1. }
  split_and!.
  - intros Ea. destruct Hc as [(_ & Ed & _)|(Hin & _ & Eo & _)]; [congruence|]. apply (run_answer _ _ Henf _ _ _ _ _ _ _ _ Allow Hrun Hin); congruence.
  - intros Em. rewrite Hallow. rewrite Halg, Em in *. by eapply deny_overrides_answer.
  - intros Em. rewrite Hallow. rewrite Halg, Em in *. by eapply allow_overrides_answer.
Qed.

(** ** Witness *)

#[local] Existing Instances plain_runtime sample_errors utc utc_minutes now_total.

Definition sample_snapshot : Snapshot :=
  match Compile sample_compiler (policy_json.relayout sample_bundle) with Ret (Ok s) => s | _ => mkSnapshot 0 DenyOverrides [] end.

Lemma sample_snapshot_compiled :
  Decode sample_encoded = Ok (policy_json.relayout sample_bundle) ∧
  Compile sample_compiler (policy_json.relayout sample_bundle) = Ret (Ok sample_snapshot).
Proof.
  destruct (bundle_compiles [] sample_compiler sample_bundle sample_documents sample_encoded) as (Hd & s & _ & Hs & _).
  - constructor.
  - exact sample_compiler_new.
  - exact sample_bundle_faithful.
  - exact sample_bundle_carries.
  - vm_compute. reflexivity.
  - exact sample_bundle_fits.
  - split; [exact Hd|]. unfold sample_snapshot. by rewrite Hs.
Qed.

(** Alice may read because of the ACL entry. *)
Lemma policy_texts_decide_witness :
  ∃ d n' t, Engine_Decide (example_engine sample_snapshot) context_Background example_request 0%nat = (Ret (d, None), n') ∧
    Decision_Outcome d = Allow ∧
    (∃ r document, (r, document) ∈ zip (Manifest_Policies sample_bundle) sample_documents ∧ record_active r t ∧
       states document example_request Allow) ∧
    ∀ r document, (r, document) ∈ zip (Manifest_Policies sample_bundle) sample_documents → record_active r t →
      ¬ states document example_request Deny.
Proof.
  destruct sample_snapshot_compiled as [Hd Hs]. eexists _, _.
  assert (Engine_Decide (example_engine sample_snapshot) context_Background example_request 0%nat =
    ltac:(let r := eval vm_compute in
            (Engine_Decide (example_engine sample_snapshot) context_Background example_request 0%nat) in exact r)) as E
    by (vm_compute; reflexivity).
  destruct (policy_texts_decide [] sample_compiler sample_bundle (policy_json.relayout sample_bundle) sample_documents
    sample_encoded sample_snapshot (example_engine sample_snapshot) context_Background example_request 0%nat _ _ _
    ltac:(constructor) sample_compiler_new sample_bundle_faithful sample_bundle_carries ltac:(vm_compute; reflexivity)
    sample_bundle_fits Hd Hs eq_refl E) as [_ Hok].
  destruct (Hok eq_refl) as (t & _ & _ & _ & _ & Hdeny & _). exists t. split; [exact E|]. split; [reflexivity|].
  apply (Hdeny eq_refl). reflexivity.
Defined.

End enforcement.
