(* ===== verification/DecisionJSON.v ===== *)
(** * Decision fixtures as JSON (authorizationtest/authorizationtest.go)

    The struct tags of [decisionJSON] and [traceJSON] and the codec they give
    [CanonicalDecisionJSON]. Both slices are made, so they are written as
    arrays even when they are empty. *)

From S2P Require Import Prelude GoStrings JSON UTF8 JSONText JSONValues.
From S2P Require Import Attribute Request Decision Snapshot Engine Documents DocumentJSON Conformance.

#[local] Open Scope Z_scope.

Module decision_fixture.
Import authorizationtest.

Definition trace_schema : schema traceJSON _ :=
  required strings "policy_id" traceJSON_PolicyID $
  required strings "outcome" traceJSON_Outcome $
  required strings "reason" traceJSON_Reason End.

Definition decision_schema : schema decisionJSON _ :=
  required strings "outcome" json_Outcome $
  required strings "reason" json_Reason $
  required (encode_array encode_string, decode_slice decode_string) "matched_policy_ids" json_MatchedPolicyIDs $
  required bools "matched_policy_ids_truncated" json_MatchedPolicyIDsTruncated $
  required uint64s "revision" json_Revision $
  required (encode_array (encode_struct trace_schema), decode_slice (decode_struct trace_schema mkTraceJSON))
    "trace" json_Trace $
  required bools "trace_truncated" json_TraceTruncated End.

#[global] Instance decision_codec `{JSONErrors} : JSONCodec decisionJSON := struct_codec decision_schema mkDecisionJSON.

(** Decisions with UTF-8 identifiers and reasons. *)
Definition trace_faithful (t : traceJSON) : Prop :=
  Forall valid_string [traceJSON_PolicyID t; traceJSON_Outcome t; traceJSON_Reason t].

Definition fixture_faithful (d : decisionJSON) : Prop :=
  Forall valid_string [json_Outcome d; json_Reason d] ∧ Forall valid_string (json_MatchedPolicyIDs d) ∧
  in_uint64 (json_Revision d) ∧ Forall trace_faithful (json_Trace d).

Definition representable (decision : Decision) : Prop :=
  valid_string (Decision_Reason decision) ∧ Forall valid_string (Decision_MatchedPolicyIDs decision) ∧
  in_uint64 (Decision_Revision decision) ∧
  Forall (λ entry, valid_string (Trace_PolicyID entry) ∧ valid_string (Trace_Reason entry)) (Decision_Trace decision).

Lemma trace_law n d : codec_law n d (encode_struct trace_schema) (decode_struct trace_schema mkTraceJSON) trace_faithful.
Proof. struct_fields. Qed.

#[local] Hint Resolve trace_law : json_laws.

Lemma decision_law n d :
  codec_law n d (encode_struct decision_schema) (decode_struct decision_schema mkDecisionJSON) fixture_faithful.
Proof. struct_fields. Qed.

Lemma Outcome_String_valid outcome : valid_string (Outcome_String outcome).
Proof. by destruct outcome. Qed.

Lemma decision_json_faithful decision : representable decision → fixture_faithful (decision_json decision).
Proof.
  intros (Hr & Hm & Hrev & Ht). split_and!; [|done..|].
  - repeat constructor; [apply Outcome_String_valid|done].
  - apply Forall_fmap. eapply Forall_impl; [done|]. intros entry [? ?]. repeat constructor; try done. apply Outcome_String_valid.
Qed.

Lemma decision_shallow : depth_law (encode_struct decision_schema) 3.
Proof. bounded_depth. Qed.

Lemma decision_total : total_law (encode_struct decision_schema).
Proof.
  apply total_struct. cbn. repeat split; try (by eexists); apply total_array; [by eexists|].
  apply total_struct. cbn. repeat split; by eexists.
Qed.

(** The text of a decision and the fields it was made of. *)
Lemma canonical_text `{JSONErrors} decision :
  representable decision → ∃ v, encode_struct decision_schema (decision_json decision) = Some v ∧
    CanonicalDecisionJSON decision = (print 0 v +:+ char_string (Ascii.ascii_of_nat 10), None) ∧
    json_Valid (print 0 v) = true ∧ decode_struct decision_schema mkDecisionJSON [print 0 v] = Some (decision_json decision).
Proof.
  intros Hd%decision_json_faithful. destruct (decision_total (decision_json decision)) as [v Ev]. exists v.
  pose proof (shallow_law _ 3 _ _ decision_shallow ltac:(lia) Ev) as Hs.
  destruct (decision_law maxNestingDepth 0 _ v Hd Ev) as [Hwf Hdec]; [by split|].
  split_and!; [done| |by apply print_valid|done].
  unfold CanonicalDecisionJSON. cbn [json_Marshal decision_codec struct_codec]. unfold MarshalIndent. by rewrite Ev.
Qed.

(** Fixture texts are canonical: a decision with UTF-8 labels always has
    one, a valid JSON text with one line feed behind it, and two decisions
    have the same text exactly when all their fields agree (outcomes by their
    labels). *)
Theorem CanonicalDecisionJSON_canonical `{JSONErrors} (d1 d2 : Decision) :
  representable d1 → representable d2 →
  (∃ text, CanonicalDecisionJSON d1 = (text +:+ char_string (Ascii.ascii_of_nat 10), None) ∧ json_Valid text = true) ∧
  (CanonicalDecisionJSON d1 = CanonicalDecisionJSON d2 ↔ decision_json d1 = decision_json d2).
Proof.
  intros H1 H2. destruct (canonical_text d1 H1) as (v1 & E1 & C1 & Hv1 & D1), (canonical_text d2 H2) as (v2 & E2 & C2 & _ & D2).
  split; [by exists (print 0 v1)|]. rewrite C1, C2. split.
  - intros [= E]. apply (f_equal split_last) in E. rewrite !split_last_app in E. injection E as E. rewrite E in D1. congruence.
  - intros E. rewrite E in E1. congruence.
Qed.

Definition sample_decision : Decision :=
  mkDecision Allow "policy-allowed" ["reader"] false 3 [mkTraceEntry "reader" Allow "policy-allowed"] false.

Lemma CanonicalDecisionJSON_canonical_witness :
  ∃ text, @CanonicalDecisionJSON (@decision_codec sample_errors) sample_decision =
    (text +:+ char_string (Ascii.ascii_of_nat 10), None) ∧ json_Valid text = true.
Proof.
  apply (@CanonicalDecisionJSON_canonical sample_errors sample_decision sample_decision);
    (split; [reflexivity|]; split; [evaluates|]; split; [done|evaluates]).
Defined.

End decision_fixture.
